(* ===== verification/_CoqProject ===== *)
-Q . S2P
Prelude.v
Decimal.v
Protocol.v
Glob.v
Config.v
S3Fifo.v
State.v
Demo.v
Store.v
Steps.v
StoreOps.v
StoreSpec.v
Contents.v
Memory.v
Scan.v
Eviction.v
Handlers.v
HandlerSpec.v
HandlerMem.v
Aof.v
Snapshot.v
Server.v
ServerSpec.v
Recovery.v
Replay.v
BufferPool.v
Connection.v
Stream.v
Lifecycle.v
Shutdown.v
Faults.v
Concurrency.v
Procs.v
Sweeps.v
ProcLogic.v
Races.v
Linear.v
Hashes.v
SweepViews.v
SaveRace.v
Locks.v
RewriteRace.v
KvStore.v
LibStore.v
Network.v
