(* ===== verification/Prelude.v ===== *)
(** * Redistill: a verification development for the redistill key-value server

    Redistill is an in-memory key-value server that speaks the Redis protocol.
    A connection ([handle_connection], src/main.rs) parses commands from its socket
    ([RespParser], src/protocol.rs), runs them ([execute_command], src/main.rs) and
    sends the replies in batches ([RespWriter]).  Commands work on a sharded store
    ([ShardedStore], src/store.rs) with lazy and sampled expiry, a memory counter
    and three eviction policies.  Writes go to an append-only file (src/aof.rs);
    the store can be saved to and loaded from a snapshot (src/persistence.rs).
    Limits, policies and paths come from a configuration (src/config.rs).

    ** Files

    This file: bytes, machine integers (a [Z] with its wrap-around written out),
    [Result], tactics, the hint database [redistill], and lemmas on lists and sums
    that several components use.

    The components, bottom up, each named after what it models:
    - Decimal.v: Rust's [Display] of integers.
    - Protocol.v: src/protocol.rs.  A parser is its unread bytes, a writer the
      bytes it has accumulated, a socket the list of what its reads return.
    - Glob.v: [matches_pattern] of src/store.rs, with its four loop variables.
    - Config.v: src/config.rs: records, defaults, overrides, validation, [load].
    - S3Fifo.v: [S3FifoQueues] of src/store.rs.
    - State.v: the state every command shares ([Core]: shards, queues,
      [MEMORY_USED], [EVICTED_KEYS], the clock and random-number positions), the
      state monad [M] the store operations run in, and the class [Platform] of what
      the program calls without implementing it: the hash function, random
      numbers, the clock, the iteration order of hash maps.  [PlatformOk] is what
      their documentation promises.
    - Store.v, Scan.v, Eviction.v: the operations of [ShardedStore], one definition
      per method, in the order of the code.
    - Handlers.v: the [handle_*] functions of src/main.rs.
    - Aof.v: src/aof.rs.  A log is the bytes in the writer's buffer, those the
      kernel has, and those on disk.
    - Snapshot.v: src/persistence.rs, with [bincode] as the class [Bincode] and its
      round trip as [BincodeOk].
    - Server.v: the process ([Server]: the shared state, the log, the snapshot file,
      the save flag, counters, jobs for other threads), the dispatch table
      [commands], [execute_command], background tasks, startup and shutdown.
    - BufferPool.v: the pool of reply buffers of src/store.rs.
    - Connection.v: [handle_connection], the accept decision, the rate limiter and
      the health endpoint of src/server.rs.  Network.v: any number of connections,
      whose turns - from one wait for input to the next - interleave.
    - Stream.v: [MaybeStream] of src/server.rs, an instance of the class of streams
      whenever the socket and the TLS session are.
    - Lifecycle.v: [main] of src/main.rs from the TLS configuration to the accept
      loop: which tasks it spawns, and [main_step], one turn of the loop or one
      step of a spawned connection.  Shutdown.v: the signals, the drain of the
      connections and the restart that follows.
    - Faults.v: the file operations of src/aof.rs and src/persistence.rs in the
      monad [Faulty], in which every call of the operating system may fail.
    - Procs.v: the commands on strings, the reads of hashes, eviction and the expiry
      rounds as threads: a [Proc] is a sequence of sections, each one access to the
      shared state (one operation on a shard's map, one on its queues, one counter
      update), written in the monad [Prog] of programs.  [handler_alone]: run without
      interruption, each is the handler of Handlers.v.  ProcLogic.v: the rules for
      proving a property of every section of a program, whatever runs in between.
    - Sweeps.v: [KEYS], [SCAN], [DBSIZE] and [FLUSHDB] as threads that lock one part
      of one shard at a time; the parts of a [DashMap] are the class [Parts].
    - Races.v and Linear.v: two properties proved with ProcLogic.v.
    - Hashes.v: [HSET] and [HDEL] as state machines on the store extended with the
      identity of the maps of hashes ([HCore]), since a thread that holds the [Arc] of
      a map writes to it after its key is gone; and the machine [hstep] in which they,
      the threads of Procs.v and those of Sweeps.v run beside each other.
      SweepViews.v: what a walk of the store sees there.  SaveRace.v: the walk of
      [save_snapshot_sync] there, entry by entry.
    - Concurrency.v and RewriteRace.v: the save flag, the order of writes and log
      entries, and the rewrite of the log beside commands, as step relations of their
      own.
    - Locks.v: the scopes in which every operation holds its locks.
    - KvStore.v: the class of a key-value store with expiry and its laws against
      the abstract database.  The server's store is an instance.  LibStore.v:
      src/lib.rs, the library's own store, the other instance.
    - Demo.v: a concrete platform and configurations, for evaluating the model.

    ** Theorems

    - The store is a map with expiry times.  Steps.v has a weakest-precondition
      calculus for [M] and the relation [Step]: one entry changes, the others do
      not, the counter moves by a given amount.  StoreOps.v gives one [Step] per
      operation; StoreSpec.v has the abstract database [Db] and the simulation
      ([store_refines], [store_op_refines], [keys_correct]).
    - The server is its table of contracts.  HandlerSpec.v relates each handler to
      the database, with the keys eviction may drop made explicit; ServerSpec.v
      has the table [contracts] parallel to [commands]: the reply and the effect of every
      command, exact for those that name their keys, and for [SAVE], [INFO] and the like one
      of their replies and no effect on the database.  [server_refines]: any interleaving
      of commands, at any times, and background tasks is a run of the contracts.
      [auth_enforced] is the authentication gate.
    - The network.  [network_refines] (Network.v) composes the startup, the parser, the
      connection loop and the contracts: from whatever files the server starts, the
      history of its connections - commands as their bytes arrive, replies, endings
      and background tasks, interleaved in any way - is a history of the
      specification, in which each command is one step on the abstract database
      ([contents] of Contents.v) and on its connection's authentication state.
    - Memory.  [mem_ok]: under a memory limit, [MEMORY_USED] is the number of bytes
      stored, modulo [2^64]; without one the code does not count, and [mem_ok] says
      nothing.  Memory.v, HandlerMem.v and Eviction.v show which operations keep it
      ([server_memory_exact]) and how two commands drift ([hdel_leaks],
      [flush_leaks_expired]); [evict_if_needed_admits] is admission control.
    - Protocol.  Parsing inverts printing under any fragmentation and pipelining
      ([pipeline_roundtrip], [connection_replies]), later bytes never change a
      verdict, and numbers print and parse as documented.
    - Durability.  [crash_replay] (Recovery.v): after a crash the log yields a prefix of
      the logged commands (a rewrite replaces them by those of the store), with all that
      were synced.  [snapshot_roundtrip] and
      [snapshot_cut_sound] for snapshots; [rewrite_restores] (Recovery.v) for the
      rewrite of the log followed by a restart; [log_restores] (Replay.v) for a
      session followed by a restart from its log, [crash_restores] for a session cut
      short by a crash, both for sessions that give no key an expiry time and no
      snapshot to load; [shutdown_then_start] for a graceful shutdown followed by a
      restart.  With a snapshot and a log the restart applies the log a second time
      ([restart_applies_log_twice], Shutdown.v).
    - Failing files (Faults.v).  [append_under_faults], [save_under_faults] and
      [rewrite_under_faults] say what each operation leaves behind whichever calls
      fail: an append at most part of its own frame, a save and a rewrite the
      previous file or the complete new one.
      [torn_frame_refused] and [reopen_failure_loses_writes] are what an append
      and a rewrite do not promise.
    - The process.  [connection_accounting]: the connection counters are those of
      the tasks alive; [tls_not_downgraded]: with TLS enabled no connection is
      served in the clear, because all that is read and written goes through the TLS
      session; [idle_connection_is_stale]: a command runs at the time its connection
      began to wait; [drain_ends]: shutdown does not wait beyond its grace
      period; [pool_recycles_clean]: no reply leaks through a recycled buffer.
    - The library.  [lib_matches_server]: the two stores answer alike but for the order of
      the fields of [HGETALL], proved against the class of KvStore.v, each store on a
      platform of its own; [lib_delete_counts_expired] is the exception.
    - Scanning.  [scan_page] says exactly what a page returns, and with it
      [scan_sound], [full_scan_total], [scan_small_complete] and the key that a
      full page skips ([scan_misses_a_key]).  [matches_pattern_correct]: the glob
      matcher decides the declarative relation [Glob].
    - Threads.  [commands_linearizable] (Linear.v): the history of any interleaving of
      the sections of single-key commands, expiry rounds and eviction is a history of
      the database on which each command is one step.  [concurrent_memory_exact]
      (Races.v): when all commands have ended, [MEMORY_USED] is exact.  [no_deadlock]
      (Locks.v): threads that run the operations can always go on to their ends;
      [expiry_waits_for_itself] is the exception, if an iterator holds the part of the
      map it is in.
      [hset_keeps_fields] (Hashes.v): what an [HSET] has set is found under its key as
      long as the key has the map it wrote to, whatever runs beside it, and
      [hash_commands_alone]: run alone, the sections of [HSET] and [HDEL] are their
      handlers ([handler_alone] and [sweep_alone] say so of the other commands).
      [keys_weakly_consistent], [dbsize_weakly_consistent], [scan_weakly_sound] and
      [flush_clears_all] (SweepViews.v) bound what a walk returns or leaves by what
      was stored throughout and what was stored at some moment;
      [snapshot_beside_writers] (SaveRace.v) does so for what a load restores from a
      snapshot taken beside other commands.  [one_saver], [concurrent_log] and
      [rewrite_keeps_log_readable] hold for every interleaving too;
      [hsets_count_twice] (Hashes.v): two [HSET]s of one hash can both count the change of
      the two; [log_order_race], [hset_lost_to_hdel], [hsets_wrap_memory],
      [flush_leaves_memory], [incr_loses_an_update], [set_nx_admits_both] and
      [rewrite_counts_twice] are interleavings whose outcome no sequential order has.

    Theorems of kind "error" state what the code does where that differs from
    what its comments say.

    ** Bounds and fuel

    Integers keep the width of the code: counters and sizes wrap at [2^64],
    access times at [2^32], [INCR] is checked at [i64].  [glob_loop] has
    fuel quadratic in the key and linear in the pattern, proved sufficient
    ([glob_loop_terminates]).  [parse_command] and [connection_loop] return [None]
    when the fuel, a number of reads and of commands, is used up; the theorems
    that they return take any fuel above the number of reads and commands of the
    session.  [replay] has the length of the log as fuel, proved sufficient
    ([replay_fuel]); [crash_replay] gives [read_all] the length of the
    file plus one, which always suffices ([read_all_cut]), the others more fuel than there
    are commands.
    [evict_loop] has the 100 attempts of the code.  [fmt_digits] has the binary
    length of its number as fuel.  A full iteration by [SCAN] takes one call more
    than there are entries at most.  [drain] takes one step per task that ends and
    one per slice of 250 ms, so the tasks plus four times the seconds of the grace
    period plus one are enough ([drain_ends]).  Alone, [HSET] ends within seven
    sections and [HDEL] within five ([hash_commands_alone]); beside other threads the
    loop of [HSET] has no bound, and no theorem needs one.

    ** What is not modelled

    rustls, hyper, sockets, the delivery of signals and console output are calls to
    libraries.  Of the calls of the operating system, those of Faults.v may fail, and
    loading reads whatever bytes the file has; elsewhere they succeed, but for a crash,
    a cut file and a failing socket.  A rename keeps what was written to the file,
    synced or not, and after a crash the disk has a prefix of the unsynced bytes
    ([crash_image]).  Outside the files on threads each command runs to its end before
    the next.  In those files a section is one access to the shared state, and the
    sections interleave in a total order: the relaxed atomics of the code are taken as
    sequentially consistent.  A command other than [HDEL] that removes a hash measures
    it as it removes it, where the code measures it just after, so the theorems that
    have [HSET] beside such commands say nothing of [MEMORY_USED].  In Procs.v the
    bookkeeping of a read is one section, where the code runs it under a guard that other
    reads share; it touches access times, access counts and queues only.  The lines of src/
    that no definition translates are imports, static declarations, accessors, messages
    and the tests. *)

From Stdlib.Strings Require Export Byte String.
From Stdlib Require Export ZArith Lia.
From stdpp Require Export base gmap list numbers strings sorting.

Open Scope Z_scope.

(** ** Bytes *)

Abbreviation byte := Byte.byte.
Abbreviation bytes := (list Byte.byte).

#[global] Instance byte_eq_decision : EqDecision byte := Byte.byte_eq_dec.

#[global] Instance byte_countable : Countable byte :=
  inj_countable Byte.to_N Byte.of_N Byte.of_to_N.

(** A Rust byte-string literal [b"..."]. *)
Definition bs (s : string) : bytes := list_byte_of_string s.

(** [b"\r\n"]. *)
Definition CRLF : bytes := [x0d; x0a].

(** The value of a [u8], and the [u8] of a value (wrapping). *)
Definition u8_val (b : byte) : Z := Z.of_N (Byte.to_N b).
Definition u8_of (z : Z) : byte := default x00 (Byte.of_N (Z.to_N (z mod 256))).

(** [slice.len()] of any slice or vector. *)
Definition len {A} (l : list A) : Z := Z.of_nat (length l).

(** ** Machine integers: a [w]-bit value is a [Z] with its wrap-around written out *)

Definition U64_MOD : Z := 2 ^ 64.
Definition I64_MAX : Z := 2 ^ 63 - 1.
Definition I64_MIN : Z := - 2 ^ 63.
Definition U32_MAX : Z := 2 ^ 32 - 1.
Definition u64 (z : Z) : Z := z mod U64_MOD.
Definition usize (z : Z) : Z := z mod U64_MOD.
Definition u32 (z : Z) : Z := z mod 2 ^ 32.
Definition u8 (z : Z) : Z := z mod 2 ^ 8.
Definition i64 (z : Z) : Z := (z + 2 ^ 63) mod U64_MOD - 2 ^ 63.

Definition is_u64 (z : Z) : Prop := 0 ≤ z < U64_MOD.
Definition is_i64 (z : Z) : Prop := I64_MIN ≤ z ≤ I64_MAX.

(** [u64::checked_*], [i64::checked_*]. *)
Definition checked_u64 (z : Z) : option Z :=
  if (0 <=? z) && (z <? U64_MOD) then Some z else None.
Definition checked_i64 (z : Z) : option Z :=
  if (I64_MIN <=? z) && (z <=? I64_MAX) then Some z else None.

(** [u64::saturating_add], [saturating_sub], [saturating_mul]. *)
Definition sat_u64 (z : Z) : Z := Z.max 0 (Z.min z (U64_MOD - 1)).

(** ** Results *)

Inductive Result (A E : Type) :=
| Ok (a : A)
| Err (e : E).
Arguments Ok {A E} _.
Arguments Err {A E} _.

(** ** Automation *)

Create HintDb redistill.

(** Case analysis on the comparison a boolean test of the code makes. *)
Ltac zcases :=
  repeat match goal with
  | |- context [?a <? ?b] => destruct (Z.ltb_spec a b)
  | |- context [?a <=? ?b] => destruct (Z.leb_spec a b)
  | |- context [?a =? ?b] => destruct (Z.eqb_spec a b)
  | H : context [?a <? ?b] |- _ => destruct (Z.ltb_spec a b)
  | H : context [?a <=? ?b] |- _ => destruct (Z.leb_spec a b)
  | H : context [?a =? ?b] |- _ => destruct (Z.eqb_spec a b)
  end.

(** Right-associate the appends of list equations. *)
Ltac app_norm := repeat first [rewrite <- app_assoc | progress simpl]; try done.

(** Lengths of appends and conses, for [lia]. *)
Ltac len_norm :=
  unfold len in *; repeat first [rewrite length_app in * | progress simpl in *].

(** ** Lemmas on bytes *)

Lemma u8_val_range b : 0 ≤ u8_val b < 256.
Proof.
  unfold u8_val. pose proof (Byte.to_N_bounded b). lia.
Qed.

Lemma u8_val_inj b c : u8_val b = u8_val c → b = c.
Proof.
  unfold u8_val. intros H%N2Z.inj.
  pose proof (Byte.of_to_N b) as Hb. pose proof (Byte.of_to_N c) as Hc. congruence.
Qed.

Lemma u8_of_val b : u8_of (u8_val b) = b.
Proof.
  unfold u8_of. rewrite Z.mod_small by apply u8_val_range.
  unfold u8_val. rewrite N2Z.id, Byte.of_to_N. done.
Qed.

Lemma u8_val_of z : 0 ≤ z < 256 → u8_val (u8_of z) = z.
Proof.
  intros Hz. unfold u8_of, u8_val. rewrite Z.mod_small by done.
  destruct (Byte.of_N (Z.to_N z)) as [b|] eqn:E; simpl.
  - apply Byte.to_of_N in E. lia.
  - apply Byte.of_N_None_iff in E. lia.
Qed.

(** ** Lemmas on lengths *)

Lemma len_nonneg {A} (l : list A) : 0 ≤ len l.
Proof. unfold len. lia. Qed.

Lemma len_app {A} (l k : list A) : len (l ++ k) = len l + len k.
Proof. unfold len. rewrite length_app. lia. Qed.

Lemma len_cons {A} (x : A) l : len (x :: l) = 1 + len l.
Proof. unfold len. simpl. lia. Qed.

Lemma len_nil {A} : len (@nil A) = 0.
Proof. done. Qed.

#[export] Hint Resolve len_nonneg u8_val_range : redistill.

(** ** Lemmas on machine integers *)

Lemma u64_range z : is_u64 (u64 z).
Proof. unfold is_u64, u64. apply Z.mod_pos_bound. done. Qed.

Lemma u64_small z : is_u64 z → u64 z = z.
Proof. apply Z.mod_small. Qed.

Lemma usize_small z : is_u64 z → usize z = z.
Proof. apply Z.mod_small. Qed.

Lemma u64_u64 a : u64 (u64 a) = u64 a.
Proof. unfold u64. by rewrite Z.mod_mod by (unfold U64_MOD; lia). Qed.

Lemma u64_u64_add_l a b : u64 (u64 a + b) = u64 (a + b).
Proof. unfold u64. apply Zplus_mod_idemp_l. Qed.

Lemma u64_u64_add_r a b : u64 (a + u64 b) = u64 (a + b).
Proof. unfold u64. apply Zplus_mod_idemp_r. Qed.

Lemma u64_u64_sub_l a b : u64 (u64 a - b) = u64 (a - b).
Proof. unfold u64. apply Zminus_mod_idemp_l. Qed.

Lemma u64_u64_sub_r a b : u64 (a - u64 b) = u64 (a - b).
Proof. unfold u64. apply Zminus_mod_idemp_r. Qed.

Lemma u64_cong x y : u64 x = u64 y ↔ ∃ q, x = y + q * U64_MOD.
Proof.
  unfold u64. split.
  - intros H. exists (x / U64_MOD - y / U64_MOD).
    rewrite (Z.div_mod x U64_MOD) at 1 by done. rewrite (Z.div_mod y U64_MOD) at 1 by done. lia.
  - intros [q ->]. apply Z.mod_add. done.
Qed.

Lemma u64_ex z : ∃ q, u64 z = z + q * U64_MOD.
Proof. apply u64_cong, u64_u64. Qed.

Lemma checked_u64_Some z v : checked_u64 z = Some v ↔ v = z ∧ is_u64 z.
Proof.
  unfold checked_u64, is_u64. zcases; simpl; split; (intros [= <-] || intros [-> ?]);
    try done; lia.
Qed.

Lemma checked_i64_Some z v : checked_i64 z = Some v ↔ v = z ∧ is_i64 z.
Proof.
  unfold checked_i64, is_i64. zcases; simpl; split; (intros [= <-] || intros [-> ?]);
    try done; lia.
Qed.

#[export] Hint Resolve u64_range : redistill.

(** ** Sums over lists and maps *)

Definition zsum {A} (f : A → Z) (l : list A) : Z := foldr (λ x acc, f x + acc) 0 l.

Definition map_sum {V} (f : bytes → V → Z) (m : gmap bytes V) : Z :=
  map_fold (λ k v acc, f k v + acc) 0 m.

Lemma zsum_app {A} (f : A → Z) l k : zsum f (l ++ k) = zsum f l + zsum f k.
Proof. induction l as [|x l IH]; simpl; [done|]. unfold zsum in *. simpl. rewrite IH. lia. Qed.

Lemma zsum_bind {A B} (f : B → Z) (g : A → list B) (l : list A) :
  zsum f (l ≫= g) = zsum (λ x, zsum f (g x)) l.
Proof.
  induction l as [|x l IH]; [done|]. rewrite bind_cons, zsum_app, IH. done.
Qed.

Lemma zsum_ext {A} (f g : A → Z) (l : list A) : (∀ x, f x = g x) → zsum f l = zsum g l.
Proof. intros H. unfold zsum. induction l as [|x l IH]; simpl; rewrite ?H; lia. Qed.

Lemma zsum_add {A} (f g : A → Z) (l : list A) : zsum (λ x, f x + g x) l = zsum f l + zsum g l.
Proof. unfold zsum. induction l as [|x l IH]; simpl; lia. Qed.

Lemma zsum_nonneg {A} (f : A → Z) (l : list A) : (∀ x, 0 ≤ f x) → 0 ≤ zsum f l.
Proof. intros H. unfold zsum. induction l as [|x l IH]; simpl; [done|]. specialize (H x). lia. Qed.

Lemma zsum_insert {A} (f : A → Z) (l : list A) i x y :
  l !! i = Some x → zsum f (<[i:=y]> l) = zsum f l - f x + f y.
Proof.
  revert i. induction l as [|z l IH]; intros [|i]; simpl; try done.
  - intros [= ->]. unfold zsum. simpl. lia.
  - intros H. specialize (IH _ H). unfold zsum in *. simpl. rewrite IH. lia.
Qed.

Lemma zsum_alter {A} (f : A → Z) (g : A → A) (l : list A) i x :
  l !! i = Some x → zsum f (alter g i l) = zsum f l - f x + f (g x).
Proof.
  intros Hi. rewrite <- (zsum_insert f l i x (g x) Hi), list_insert_alter. f_equal.
  apply list_alter_ext; [|done]. intros y Hy. by rewrite Hi in Hy; injection Hy as ->.
Qed.

Section MapSum.
Context {V : Type} (f : bytes → V → Z).
Implicit Types m : gmap bytes V.

Lemma map_sum_empty : map_sum f ∅ = 0.
Proof. apply map_fold_empty. Qed.

Lemma map_sum_insert_None m k v :
  m !! k = None → map_sum f (<[k:=v]> m) = map_sum f m + f k v.
Proof.
  intros H. unfold map_sum. rewrite map_fold_insert_L; [lia| |done]. intros. lia.
Qed.

Lemma map_sum_delete m k :
  map_sum f (delete k m) = map_sum f m - default 0 (f k <$> m !! k).
Proof.
  destruct (m !! k) as [v|] eqn:Hk; simpl.
  - rewrite <- (insert_delete_id m k v Hk) at 2.
    rewrite map_sum_insert_None by apply lookup_delete_eq. lia.
  - rewrite delete_id by done. lia.
Qed.

Lemma map_sum_insert m k v :
  map_sum f (<[k:=v]> m) = map_sum f m - default 0 (f k <$> m !! k) + f k v.
Proof.
  rewrite <- insert_delete_eq, map_sum_insert_None by apply lookup_delete_eq.
  rewrite map_sum_delete. lia.
Qed.

Lemma map_sum_nonneg m : (∀ k v, 0 ≤ f k v) → 0 ≤ map_sum f m.
Proof.
  intros Hf. induction m as [|k v m Hk IH] using map_ind; [by rewrite map_sum_empty|].
  rewrite map_sum_insert_None by done. specialize (Hf k v). lia.
Qed.

End MapSum.

Lemma elem_of_drop_weak {A} (l : list A) n x : x ∈ drop n l → x ∈ l.
Proof. rewrite <- (take_drop n l) at 2. rewrite elem_of_app. auto. Qed.

(** ** Lists of disjoint blocks *)

Lemma NoDup_bind_index {A B} (f : A → list B) (l : list A) :
  (∀ i j x y b, l !! i = Some x → l !! j = Some y → b ∈ f x → b ∈ f y → i = j) →
  (∀ x, x ∈ l → NoDup (f x)) → NoDup (l ≫= f).
Proof.
  induction l as [|x l IH]; intros Hd Hn; simpl; [constructor|].
  apply NoDup_app. split_and!.
  - apply Hn. set_solver.
  - intros b Hb (y & Hy & Hl)%list_elem_of_bind. apply list_elem_of_lookup in Hl as [j Hj].
    by specialize (Hd 0%nat (S j) x y b eq_refl Hj Hb Hy).
  - apply IH; [|set_solver]. intros i j y z b Hi Hj Hy Hz.
    specialize (Hd (S i) (S j) y z b Hi Hj Hy Hz). lia.
Qed.

(** ** Grouping *)

Lemma concat_replicate_nil {A} n : concat (replicate n ([] : list A)) = [].
Proof. by induction n. Qed.

(** Appending to one of the blocks adds the element to the whole. *)
Lemma concat_alter_app {A} i (x : A) (ls : list (list A)) :
  (i < length ls)%nat → concat (alter (λ l, l ++ [x]) i ls) ≡ₚ x :: concat ls.
Proof.
  revert i. induction ls as [|l ls IH]; intros [|i] Hi; cbn in *; [lia|lia| |].
  - rewrite <- app_assoc. symmetry. apply Permutation_middle.
  - rewrite IH by lia. symmetry. apply Permutation_middle.
Qed.

(** ** Executions *)

(** Executions of a machine, with the labels they show; a step may show none. *)
Inductive trace {S L : Type} (step : S → option L → S → Prop) : S → list L → S → Prop :=
| trace_nil s : trace step s [] s
| trace_silent s s1 s2 l : step s None s1 → trace step s1 l s2 → trace step s l s2
| trace_label s s1 s2 a l : step s (Some a) s1 → trace step s1 l s2 → trace step s (a :: l) s2.

Lemma trace_app {S L : Type} (step : S → option L → S → Prop) s1 s2 s3 l1 l2 :
  trace step s1 l1 s2 → trace step s2 l2 s3 → trace step s1 (l1 ++ l2) s3.
Proof. intros H1 H2. induction H1; cbn; eauto using trace_silent, trace_label. Qed.

Lemma trace_one {S L : Type} (step : S → option L → S → Prop) s o s' :
  step s o s' → trace step s (option_list o) s'.
Proof. destruct o; cbn; eauto using trace_nil, trace_silent, trace_label. Qed.

(** Forward simulation: if each step of the one machine is matched by steps of the other
    that show the same and keep the relation, so is each execution. *)
Lemma trace_simulation {S T L : Type} (step : S → option L → S → Prop) (step' : T → option L → T → Prop)
    (R : S → T → Prop) :
  (∀ s o s' t, R s t → step s o s' → ∃ t', trace step' t (option_list o) t' ∧ R s' t') →
  ∀ s l s', trace step s l s' → ∀ t, R s t → ∃ t', trace step' t l t' ∧ R s' t'.
Proof.
  intros Hsim s l s' Htr. induction Htr as [s|s s1 s2 l Hst Htr IH|s s1 s2 a l Hst Htr IH]; intros t HR.
  - exists t. split; [apply trace_nil|done].
  - destruct (Hsim _ _ _ _ HR Hst) as (t1 & H1 & HR1). destruct (IH _ HR1) as (t2 & H2 & HR2).
    exists t2. split; [exact (trace_app _ _ _ _ _ _ H1 H2)|done].
  - destruct (Hsim _ _ _ _ HR Hst) as (t1 & H1 & HR1). destruct (IH _ HR1) as (t2 & H2 & HR2).
    exists t2. split; [exact (trace_app _ _ _ _ _ _ H1 H2)|done].
Qed.
