(* ===== verification/Decimal.v ===== *)
(** * Decimal numerals

    The text form of machine integers: Rust's [Display] for unsigned and signed
    integers (used by [to_string] and [format!]), the digit test, and the value
    of a digit string.  The hand-written number printer and parsers of
    [src/protocol.rs] are related to these in Protocol.v. *)

From S2P Require Import Prelude.

(** [b - b'0'] and [b'0' + d]. *)
Definition digit_val (b : byte) : Z := u8_val b - 48.
Definition digit (d : Z) : byte := u8_of (48 + d).

(** [u8::is_ascii_digit]. *)
Definition is_ascii_digit (b : byte) : bool := (48 <=? u8_val b) && (u8_val b <=? 57).

(** The number a digit string denotes. *)
Definition dec_val_from (v : Z) (ds : bytes) : Z :=
  fold_left (λ acc b, acc * 10 + digit_val b) ds v.
Definition dec_val (ds : bytes) : Z := dec_val_from 0 ds.

(** Rust's [Display] for an unsigned integer: no sign, no leading zero. *)
Fixpoint fmt_digits (fuel : nat) (n : Z) (acc : bytes) : bytes :=
  match fuel with
  | O => acc
  | S fuel => if 0 <? n then fmt_digits fuel (n / 10) (digit (n mod 10) :: acc) else acc
  end.
Definition fmt_unsigned (n : Z) : bytes :=
  if n =? 0 then bs "0" else fmt_digits (S (Z.to_nat (Z.log2 n))) n [].

(** Rust's [Display] for a signed integer. *)
Definition fmt_signed (n : Z) : bytes :=
  if n <? 0 then bs "-" ++ fmt_unsigned (- n) else fmt_unsigned n.

Abbreviation digits ds := (Forall (λ b, is_ascii_digit b = true) ds).

Lemma is_ascii_digit_spec b : is_ascii_digit b = true ↔ 0 ≤ digit_val b ≤ 9.
Proof. unfold is_ascii_digit, digit_val. rewrite andb_true_iff, !Z.leb_le. lia. Qed.

Lemma digit_val_digit d : 0 ≤ d < 10 → digit_val (digit d) = d.
Proof. intros. unfold digit_val, digit. rewrite u8_val_of; lia. Qed.

Lemma is_ascii_digit_digit d : 0 ≤ d < 10 → is_ascii_digit (digit d) = true.
Proof. intros. apply is_ascii_digit_spec. rewrite digit_val_digit; lia. Qed.

Lemma dec_val_from_app v ds es :
  dec_val_from v (ds ++ es) = dec_val_from (dec_val_from v ds) es.
Proof. apply fold_left_app. Qed.

Lemma dec_val_from_nonneg ds v : 0 ≤ v → digits ds → v ≤ dec_val_from v ds.
Proof.
  intros Hv Hds. revert v Hv. induction Hds as [|b ds Hb Hds IH]; intros v Hv; simpl; [lia|].
  apply is_ascii_digit_spec in Hb. specialize (IH (v * 10 + digit_val b)). lia.
Qed.

Lemma dec_val_nonneg ds : digits ds → 0 ≤ dec_val ds.
Proof. by apply dec_val_from_nonneg. Qed.

(** [fmt_digits] with enough fuel: it prints in front of [acc] digits that,
    read back, contribute [n]. *)
Lemma fmt_digits_app fuel n acc : fmt_digits fuel n acc = fmt_digits fuel n [] ++ acc.
Proof.
  revert n acc. induction fuel as [|fuel IH]; intros n acc; simpl; [done|].
  destruct (0 <? n); [|done].
  rewrite (IH _ (_ :: acc)), (IH _ [_]), <- app_assoc. done.
Qed.

Lemma fmt_digits_spec fuel n :
  0 ≤ n < 2 ^ Z.of_nat fuel →
  digits (fmt_digits fuel n []) ∧ dec_val (fmt_digits fuel n []) = n.
Proof.
  revert n. induction fuel as [|fuel IH]; intros n Hn; simpl.
  { split; [constructor|]. change (dec_val []) with 0. simpl in Hn. lia. }
  destruct (Z.ltb_spec 0 n) as [Hpos|Hz].
  2:{ split; [constructor|]. change (dec_val []) with 0. lia. }
  rewrite Nat2Z.inj_succ, Z.pow_succ_r in Hn by lia.
  pose proof (Z.mod_pos_bound n 10 ltac:(lia)). pose proof (Z.div_mod n 10 ltac:(lia)) as E.
  destruct (IH (n / 10)) as [Hd Hv].
  { split; [apply Z.div_pos; lia|]. apply Z.div_lt_upper_bound; lia. }
  rewrite fmt_digits_app. split.
  - apply Forall_app. split; [done|]. constructor; [|constructor].
    by apply is_ascii_digit_digit.
  - unfold dec_val in *. rewrite dec_val_from_app, Hv. simpl.
    rewrite digit_val_digit by lia. lia.
Qed.

Lemma fmt_digits_fuel fuel fuel' n acc :
  0 ≤ n < 2 ^ Z.of_nat fuel → 0 ≤ n < 2 ^ Z.of_nat fuel' →
  fmt_digits fuel n acc = fmt_digits fuel' n acc.
Proof.
  revert fuel' n acc. induction fuel as [|fuel IH]; intros fuel' n acc Hn Hn'.
  { simpl in Hn. assert (n = 0) as -> by lia. by destruct fuel'. }
  destruct fuel' as [|fuel'].
  { simpl in Hn'. assert (n = 0) as -> by lia. done. }
  simpl. destruct (Z.ltb_spec 0 n); [|done].
  rewrite Nat2Z.inj_succ, Z.pow_succ_r in Hn, Hn' by lia.
  apply IH; (split; [apply Z.div_pos; lia|apply Z.div_lt_upper_bound; lia]).
Qed.

Lemma log2_fuel n : 0 < n → 0 ≤ n < 2 ^ Z.of_nat (S (Z.to_nat (Z.log2 n))).
Proof.
  intros Hn. rewrite Nat2Z.inj_succ, Z2Nat.id by apply Z.log2_nonneg.
  pose proof (Z.log2_spec n Hn). lia.
Qed.

Lemma fmt_unsigned_spec n :
  0 ≤ n → digits (fmt_unsigned n) ∧ dec_val (fmt_unsigned n) = n ∧ fmt_unsigned n ≠ [].
Proof.
  intros Hn. unfold fmt_unsigned. destruct (Z.eqb_spec n 0) as [->|Hne].
  { split_and!; [|done|done]. repeat constructor. }
  destruct (fmt_digits_spec (S (Z.to_nat (Z.log2 n))) n) as [Hd Hv].
  { apply log2_fuel. lia. }
  split_and!; [done|done|]. intros E. rewrite E in Hv. by change (dec_val []) with 0 in Hv.
Qed.

Lemma fmt_unsigned_digits n : 0 ≤ n → digits (fmt_unsigned n).
Proof. intros. by apply fmt_unsigned_spec. Qed.

Lemma dec_val_fmt_unsigned n : 0 ≤ n → dec_val (fmt_unsigned n) = n.
Proof. intros. by apply fmt_unsigned_spec. Qed.

Lemma fmt_unsigned_nonempty n : 0 ≤ n → fmt_unsigned n ≠ [].
Proof. intros. by apply fmt_unsigned_spec. Qed.

#[export] Hint Resolve fmt_unsigned_digits fmt_unsigned_nonempty : redistill.

(** ** Rust's [str::parse] for unsigned integers

    An optional plus sign, then at least one digit, with a value below the
    type's bound [m] ([2^64] for [u64] and [usize], [2^16] for [u16]). *)
Definition parse_uint (m : Z) (l : bytes) : option Z :=
  let ds := match l with b :: rest => if bool_decide (b = x2b) then rest else l | [] => [] end in
  if bool_decide (ds = []) then None
  else if forallb is_ascii_digit ds && (dec_val ds <? m) then Some (dec_val ds) else None.

Lemma forallb_digits ds : forallb is_ascii_digit ds = true ↔ digits ds.
Proof. rewrite forallb_forall, Forall_forall. by setoid_rewrite list_elem_of_In. Qed.

Lemma parse_uint_range m l v : parse_uint m l = Some v → 0 ≤ v < m.
Proof.
  unfold parse_uint. set (ds := match l with [] => [] | b :: rest => _ end). clearbody ds.
  case_bool_decide; [done|]. destruct (forallb is_ascii_digit ds) eqn:Hd; simpl; [|done].
  zcases; [|done]. intros [= <-]. split; [|done]. by apply dec_val_nonneg, forallb_digits.
Qed.

Lemma parse_uint_fmt m n : 0 ≤ n < m → parse_uint m (fmt_unsigned n) = Some n.
Proof.
  intros Hn. destruct (fmt_unsigned_spec n) as (Hd & Hv & Hne); [lia|].
  unfold parse_uint. destruct (fmt_unsigned n) as [|b ds]; [done|].
  rewrite (bool_decide_false (b = _)).
  2:{ intros ->. by apply Forall_cons in Hd as [? _]. }
  rewrite bool_decide_false by done. rewrite Hv.
  rewrite (proj2 (forallb_digits _) Hd). simpl. zcases; [done|lia].
Qed.
