(* ===== verification/Protocol.v ===== *)
(** * The RESP protocol ([src/protocol.rs])

    The command parser [RespParser], the reply writer [RespWriter], and the
    numeric and case-insensitive helpers.  A parser is its unread [buffer]; a
    writer is its accumulated [buffer].  The socket is a list of read events:
    [read_buf] takes the next one, and an exhausted list is the end of file,
    where every read returns zero bytes. *)

From S2P Require Import Prelude Decimal.

Definition MAX_ARRAY_LEN : Z := 1000000.
Definition MAX_STRING_LEN : Z := 512000000.
Definition MAX_BUFFER_SIZE : Z := 1073741824.

(** ** Parser *)

(** The digit loop of [try_parse] (one instance for the array length, one for a
    string length).  [rest] is [buffer[cursor..]]; the loop stops at [b'\r']. *)
Fixpoint parse_len (max : Z) (rest : bytes) (cursor : nat) (n : Z)
    : Result (option (Z * nat)) unit :=
  match rest with
  | [] => Ok None
  | b :: rest =>
      if bool_decide (b = x0d) then Ok (Some (n, cursor))
      else if negb (is_ascii_digit b) then Err tt
      else
        let n := usize (n * 10 + digit_val b) in
        if max <? n then Err tt else parse_len max rest (S cursor) n
  end.

(** One iteration of the [for _ in 0..array_len] loop of [try_parse]. *)
Definition parse_bulk (buffer : bytes) (cursor : nat)
    : Result (option (bytes * nat)) unit :=
  if negb (bool_decide (buffer !! cursor = Some x24)) (* b'$' *) then Ok None
  else
    let cursor := S cursor in
    match parse_len MAX_STRING_LEN (drop cursor buffer) cursor 0 with
    | Err e => Err e
    | Ok None => Ok None
    | Ok (Some (str_len, cursor)) =>
        if negb (bool_decide (buffer !! (cursor + 1)%nat = Some x0a)) then Ok None
        else
          let start := (cursor + 2)%nat in
          if len buffer <? Z.of_nat start + str_len + 2 then Ok None
          else
            let str_len := Z.to_nat str_len in
            Ok (Some (take str_len (drop start buffer), (start + str_len + 2)%nat))
    end.

Fixpoint parse_bulks (n : nat) (buffer : bytes) (cursor : nat) (result : list bytes)
    : Result (option (list bytes * nat)) unit :=
  match n with
  | O => Ok (Some (result, cursor))
  | S n =>
      match parse_bulk buffer cursor with
      | Err e => Err e
      | Ok None => Ok None
      | Ok (Some (item, cursor)) => parse_bulks n buffer cursor (result ++ [item])
      end
  end.

(** [RespParser::try_parse]: on a complete command, the command and what is left
    of the buffer after [advance(cursor)]; otherwise the buffer is unchanged. *)
Definition try_parse (buffer : bytes) : Result (option (list bytes * bytes)) unit :=
  if len buffer <? 4 then Ok None
  else if negb (bool_decide (buffer !! 0%nat = Some x2a)) (* '*' *) then Err tt
  else
    match parse_len MAX_ARRAY_LEN (drop 1 buffer) 1 0 with
    | Err e => Err e
    | Ok None => Ok None
    | Ok (Some (array_len, cursor)) =>
        if negb (bool_decide (buffer !! (cursor + 1)%nat = Some x0a)) then Ok None
        else
          match parse_bulks (Z.to_nat array_len) buffer (cursor + 2) [] with
          | Err e => Err e
          | Ok None => Ok None
          | Ok (Some (result, cursor)) => Ok (Some (result, drop cursor buffer))
          end
    end.

(** What one [stream.read_buf(&mut buffer).await] brings. *)
Inductive ReadEvent :=
| ReadData (d : bytes)
| ReadError.

(** [RespParser::parse_command].  [None] means that the loop is still running
    after [fuel] iterations. *)
Fixpoint parse_command (fuel : nat) (buffer : bytes) (stream : list ReadEvent)
    : option (Result (list bytes * bytes * list ReadEvent) unit) :=
  match fuel with
  | O => None
  | S fuel =>
      match try_parse buffer with
      | Ok (Some (cmd, buffer)) => Some (Ok (cmd, buffer, stream))
      | Ok None =>
          if MAX_BUFFER_SIZE <? len buffer then Some (Err tt)
          else
            match stream with
            | ReadError :: _ => Some (Err tt)
            | ReadData d :: stream =>
                let buffer := buffer ++ d in
                if bool_decide (buffer = []) then Some (Err tt)
                else parse_command fuel buffer stream
            | [] =>
                if bool_decide (buffer = []) then Some (Err tt)
                else parse_command fuel buffer []
            end
      | Err _ => Some (Err tt)
      end
  end.

(** [RespParser::has_buffered_data]. *)
Definition has_buffered_data (buffer : bytes) : bool := negb (bool_decide (buffer = [])).

(** ** Writer *)

(** The [while n > 0] loop of [write_u64] over [buf : [u8; 20]]: [i] is the
    index of the first digit written so far and [buf] is [buf[i..]].  [None] is
    the out-of-bounds panic of an underflowing index. *)
Fixpoint write_u64_loop (i : nat) (n : Z) (buf : bytes) : option bytes :=
  if 0 <? n then
    match i with
    | O => None
    | S i => write_u64_loop i (n / 10) (digit (n mod 10) :: buf)
    end
  else Some buf.

Definition write_u64 (buffer : bytes) (n : Z) : bytes :=
  if n =? 0 then buffer ++ bs "0"
  else
    match write_u64_loop 20 n [] with
    | Some buf => buffer ++ buf
    | None => buffer
    end.

Definition write_simple_string (buffer s : bytes) : bytes :=
  buffer ++ bs "+" ++ s ++ CRLF.

Definition write_bulk_string (buffer s : bytes) : bytes :=
  write_u64 (buffer ++ bs "$") (len s) ++ CRLF ++ s ++ CRLF.

Definition write_null (buffer : bytes) : bytes := buffer ++ bs "$-1" ++ CRLF.

Definition write_integer (buffer : bytes) (i : Z) : bytes :=
  write_u64 (buffer ++ bs ":") i ++ CRLF.

(** [(-i) as u64] wraps, which matters for [i64::MIN]. *)
Definition write_signed_integer (buffer : bytes) (i : Z) : bytes :=
  let buffer := buffer ++ bs ":" in
  (if i <? 0 then write_u64 (buffer ++ bs "-") (u64 (i64 (- i)))
   else write_u64 buffer i) ++ CRLF.

Definition write_error (buffer s : bytes) : bytes := buffer ++ bs "-ERR " ++ s ++ CRLF.

Definition write_array_header (buffer : bytes) (n : Z) : bytes :=
  write_u64 (buffer ++ bs "*") n ++ CRLF.

Definition write_array (buffer : bytes) (arr : list bytes) : bytes :=
  fold_left write_bulk_string arr (write_u64 (buffer ++ bs "*") (len arr) ++ CRLF).

Definition should_flush (buffer : bytes) : bool := 8192 <=? len buffer.

(** [RespWriter::flush]: [sent] is what the stream has accepted; [ok] is whether
    [write_all] succeeds. *)
Definition flush (ok : bool) (buffer sent : bytes) : Result unit unit * bytes * bytes :=
  if bool_decide (buffer = []) then (Ok tt, buffer, sent)
  else if ok then (Ok tt, [], sent ++ buffer) else (Err tt, buffer, sent).

(** ** Parsing helpers *)

Fixpoint parse_u64_loop (l : bytes) (val : Z) : option Z :=
  match l with
  | [] => Some val
  | b :: l =>
      if negb (is_ascii_digit b) then None
      else v ← checked_u64 (val * 10); v ← checked_u64 (v + digit_val b); parse_u64_loop l v
  end.
Definition parse_u64 (l : bytes) : option Z :=
  match l with [] => None | _ => parse_u64_loop l 0 end.

Fixpoint parse_i64_loop (l : bytes) (val : Z) : option Z :=
  match l with
  | [] => Some val
  | b :: l =>
      if negb (is_ascii_digit b) then None
      else v ← checked_i64 (val * 10); v ← checked_i64 (v + digit_val b); parse_i64_loop l v
  end.
Definition parse_i64 (l : bytes) : option Z :=
  match l with
  | [] => None
  | b :: rest =>
      let '(negative, start) := if bool_decide (b = x2d) then (true, rest) else (false, l) in
      match start with
      | [] => None
      | _ => v ← parse_i64_loop start 0; Some (if (negative : bool) then i64 (- v) else v)
      end
  end.

(** [b | 0x20]. *)
Definition or_0x20 (b : byte) : byte := u8_of (Z.lor (u8_val b) 32).

(** [(a[i] | 0x20) == b[i]] at every index of two slices of the same length. *)
Fixpoint eq_ignore_case (a b : bytes) : bool :=
  match a, b with
  | [], [] => true
  | x :: a, y :: b => bool_decide (or_0x20 x = y) && eq_ignore_case a b
  | _, _ => false
  end.
Definition eq_ignore_case_3 (a b : bytes) : bool := (len a =? 3) && eq_ignore_case a b.
Definition eq_ignore_case_6 (a b : bytes) : bool := (len a =? 6) && eq_ignore_case a b.

(** ** The RESP encoding, as a specification *)

(** [$<len>\r\n<bytes>\r\n] *)
Definition resp_bulk (s : bytes) : bytes :=
  bs "$" ++ fmt_unsigned (len s) ++ CRLF ++ s ++ CRLF.

(** [*<n>\r\n] followed by the bulk strings. *)
Definition resp_array (cmd : list bytes) : bytes :=
  bs "*" ++ fmt_unsigned (len cmd) ++ CRLF ++ concat (map resp_bulk cmd).

(** A command within the parser's limits. *)
Definition cmd_ok (cmd : list bytes) : Prop :=
  len cmd ≤ MAX_ARRAY_LEN ∧ Forall (λ s, len s ≤ MAX_STRING_LEN) cmd.

(** ** The number printer *)

Lemma write_u64_loop_spec i n buf :
  0 ≤ n < 10 ^ Z.of_nat i →
  ∃ fuel, n < 2 ^ Z.of_nat fuel ∧ write_u64_loop i n buf = Some (fmt_digits fuel n buf).
Proof.
  revert n buf. induction i as [|i IH]; intros n buf Hn.
  { simpl in Hn. assert (n = 0) as -> by lia. by exists 0%nat. }
  simpl. destruct (Z.ltb_spec 0 n).
  2:{ exists 0%nat. simpl. split; [lia|done]. }
  rewrite Nat2Z.inj_succ, Z.pow_succ_r in Hn by lia.
  destruct (IH (n / 10) (digit (n mod 10) :: buf)) as (fuel & Hf & ->).
  { split; [apply Z.div_pos; lia|apply Z.div_lt_upper_bound; lia]. }
  exists (fuel + 4)%nat.
  assert (n < 2 ^ Z.of_nat (fuel + 4)).
  { pose proof (Z.div_mod n 10 ltac:(lia)). pose proof (Z.mod_pos_bound n 10 ltac:(lia)).
    rewrite Nat2Z.inj_add, Z.pow_add_r by lia. change (2 ^ Z.of_nat 4) with 16. lia. }
  split; [done|]. f_equal.
  replace (fuel + 4)%nat with (S (fuel + 3)) by lia. simpl.
  destruct (Z.ltb_spec 0 n); [|lia].
  apply fmt_digits_fuel; [split; [apply Z.div_pos; lia|done]|].
  split; [apply Z.div_pos; lia|].
  rewrite Nat2Z.inj_add, Z.pow_add_r by lia. change (2 ^ Z.of_nat 3) with 8. lia.
Qed.

(** The twenty-byte scratch array never underflows. *)
Lemma write_u64_loop_20 n : 0 < n → is_u64 n → write_u64_loop 20 n [] = Some (fmt_unsigned n).
Proof.
  intros Hpos [_ Hn]. destruct (write_u64_loop_spec 20 n []) as (fuel & Hf & ->).
  { split; [lia|]. etrans; [exact Hn|]. done. }
  f_equal. unfold fmt_unsigned. destruct (Z.eqb_spec n 0); [lia|].
  apply fmt_digits_fuel; [lia|]. by apply log2_fuel.
Qed.

Lemma write_u64_eq buffer n : is_u64 n → write_u64 buffer n = buffer ++ fmt_unsigned n.
Proof.
  intros Hn. unfold write_u64. destruct (Z.eqb_spec n 0) as [->|]; [done|].
  rewrite write_u64_loop_20; [done| |done]. destruct Hn. lia.
Qed.

Lemma write_bulk_string_eq buffer s :
  is_u64 (len s) → write_bulk_string buffer s = buffer ++ resp_bulk s.
Proof.
  intros H. unfold write_bulk_string, resp_bulk. rewrite write_u64_eq by done.
  by rewrite <- !app_assoc.
Qed.

Lemma fold_write_bulk_string buffer arr :
  Forall (λ s, is_u64 (len s)) arr →
  fold_left write_bulk_string arr buffer = buffer ++ concat (map resp_bulk arr).
Proof.
  intros H. revert buffer. induction H as [|s arr Hs _ IH]; intros buffer; simpl.
  { by rewrite app_nil_r. }
  rewrite IH, write_bulk_string_eq by done. by rewrite <- app_assoc.
Qed.

Lemma write_array_eq buffer arr :
  is_u64 (len arr) → Forall (λ s, is_u64 (len s)) arr →
  write_array buffer arr = buffer ++ resp_array arr.
Proof.
  intros Ha Hs. unfold write_array, resp_array.
  rewrite fold_write_bulk_string, write_u64_eq by done. by rewrite <- !app_assoc.
Qed.

Lemma cmd_ok_u64 cmd : cmd_ok cmd → is_u64 (len cmd) ∧ Forall (λ s, is_u64 (len s)) cmd.
Proof.
  intros [Hn Hs]. unfold is_u64, MAX_ARRAY_LEN, MAX_STRING_LEN, U64_MOD in *. split.
  { pose proof (len_nonneg cmd). lia. }
  eapply Forall_impl; [exact Hs|]. intros s. pose proof (len_nonneg s). simpl. lia.
Qed.

(** ** The length loop *)

(** On a digit string followed by [\r] it returns the number and the position
    of the [\r]. *)
Lemma parse_len_digits max ds rest cursor n :
  max < U64_MOD → 0 ≤ n → digits ds → dec_val_from n ds ≤ max →
  parse_len max (ds ++ x0d :: rest) cursor n
  = Ok (Some (dec_val_from n ds, (cursor + length ds)%nat)).
Proof.
  intros Hmax Hn Hds. revert n cursor Hn.
  induction Hds as [|b ds Hb Hds IH]; intros n cursor Hn Hle; simpl.
  { rewrite Nat.add_0_r. done. }
  case_bool_decide as Hcr; [subst; discriminate|]. rewrite Hb. simpl.
  apply is_ascii_digit_spec in Hb. simpl in Hle.
  pose proof (dec_val_from_nonneg ds (n * 10 + digit_val b) ltac:(lia) Hds).
  rewrite usize_small by (unfold is_u64; lia).
  destruct (Z.ltb_spec max (n * 10 + digit_val b)); [lia|].
  rewrite IH by lia. f_equal. f_equal. f_equal. lia.
Qed.

(** Its verdict depends only on the bytes read so far. *)
Lemma parse_len_Some max rest more cursor n v c :
  parse_len max rest cursor n = Ok (Some (v, c)) →
  parse_len max (rest ++ more) cursor n = Ok (Some (v, c)) ∧
  (cursor ≤ c < cursor + length rest)%nat ∧ (0 ≤ n → 0 ≤ v).
Proof.
  revert cursor n. induction rest as [|b rest IH]; intros cursor n; simpl; [done|].
  case_bool_decide. { intros [= <- <-]. split_and!; [done|lia|lia|done]. }
  destruct (is_ascii_digit b); simpl; [|done].
  destruct (_ <? _); [done|]. intros (-> & ? & Hv)%IH. split_and!; [done|lia|lia|].
  intros _. apply Hv. apply (u64_range _).
Qed.

Lemma parse_len_Err max rest more cursor n e :
  parse_len max rest cursor n = Err e → parse_len max (rest ++ more) cursor n = Err e.
Proof.
  revert cursor n. induction rest as [|b rest IH]; intros cursor n; simpl; [done|].
  case_bool_decide; [done|].
  destruct (is_ascii_digit b); simpl; [|done]. destruct (_ <? _); [done|]. apply IH.
Qed.

(** ** One bulk string *)

Lemma lookup_app_at {A} (pre post : list A) (x : A) :
  (pre ++ x :: post) !! length pre = Some x.
Proof. by rewrite lookup_app_r, Nat.sub_diag by lia. Qed.

Lemma parse_bulk_resp pre s post :
  len s ≤ MAX_STRING_LEN →
  parse_bulk (pre ++ resp_bulk s ++ post) (length pre)
  = Ok (Some (s, (length pre + length (resp_bulk s))%nat)).
Proof.
  intros Hs. unfold parse_bulk, resp_bulk.
  set (ds := fmt_unsigned (len s)). pose proof (len_nonneg s) as Hnn.
  assert (digits ds) as Hds by (apply fmt_unsigned_digits; lia).
  assert (dec_val_from 0 ds = len s) as Hdv by (apply dec_val_fmt_unsigned; lia).
  change (bs "$") with [x24]. change CRLF with [x0d; x0a]. simpl.
  rewrite lookup_app_at. rewrite bool_decide_true by done. simpl.
  rewrite drop_app_ge by lia. replace (S (length pre) - length pre)%nat with 1%nat by lia.
  rewrite skipn_cons, drop_0, <- !app_assoc. simpl.
  rewrite <- !app_assoc. simpl. rewrite parse_len_digits; [|done|lia|done|].
  2:{ by rewrite Hdv. }
  rewrite Hdv.
  set (w := pre ++ x24 :: ds ++ x0d :: x0a :: s ++ x0d :: x0a :: post).
  assert (w = (pre ++ x24 :: ds ++ [x0d]) ++ x0a :: s ++ x0d :: x0a :: post) as Hw.
  { unfold w. app_norm. }
  assert (length (pre ++ x24 :: ds ++ [x0d]) = S (length pre) + length ds + 1)%nat as Hl.
  { rewrite length_app. simpl. rewrite length_app. simpl. lia. }
  rewrite <- Hl, Hw, lookup_app_at, bool_decide_true by done. simpl.
  assert (len w = len pre + len ds + 5 + len s + len post) as Hlw.
  { unfold w, len. rewrite !length_app. simpl. rewrite !length_app. simpl.
    rewrite !length_app. simpl. lia. }
  rewrite <- Hw, Hlw. zcases; [unfold len in *; lia|].
  replace (Z.to_nat (len s)) with (length s) by (unfold len; lia).
  repeat f_equal; [|len_norm; lia].
  rewrite Hw, drop_app_ge by lia.
  match goal with |- context [drop ?n _] => replace n with 1%nat by lia end.
  by rewrite skipn_cons, drop_0, take_app_length.
Qed.

Lemma parse_bulks_resp cmd pre acc post :
  Forall (λ s, len s ≤ MAX_STRING_LEN) cmd →
  parse_bulks (length cmd) (pre ++ concat (map resp_bulk cmd) ++ post) (length pre) acc
  = Ok (Some (acc ++ cmd, (length pre + length (concat (map resp_bulk cmd)))%nat)).
Proof.
  intros H. revert pre acc. induction H as [|s cmd Hs _ IH]; intros pre acc.
  { by rewrite app_nil_r, Nat.add_0_r. }
  cbn [length parse_bulks map concat]. rewrite <- app_assoc, parse_bulk_resp by done.
  rewrite app_assoc, <- length_app, IH, <- app_assoc, !length_app.
  by rewrite Nat.add_assoc.
Qed.

Lemma length_resp_array_ge cmd : 4 ≤ len (resp_array cmd).
Proof.
  unfold resp_array. rewrite !len_app.
  pose proof (fmt_unsigned_nonempty (len cmd) (len_nonneg _)) as Hne.
  pose proof (len_nonneg (concat (map resp_bulk cmd))).
  destruct (fmt_unsigned (len cmd)) as [|d ds]; [done|].
  rewrite len_cons. pose proof (len_nonneg ds).
  change (len (bs "*")) with 1. change (len CRLF) with 2. lia.
Qed.

Lemma try_parse_resp cmd post :
  cmd_ok cmd → try_parse (resp_array cmd ++ post) = Ok (Some (cmd, post)).
Proof.
  intros [Hn Hs]. unfold try_parse.
  pose proof (length_resp_array_ge cmd) as Hge. pose proof (len_nonneg post).
  rewrite len_app. destruct (Z.ltb_spec (len (resp_array cmd) + len post) 4); [lia|].
  pose proof (len_nonneg cmd) as Hnn. unfold resp_array.
  set (ds := fmt_unsigned (len cmd)).
  assert (digits ds) as Hds by (apply fmt_unsigned_digits; lia).
  assert (dec_val_from 0 ds = len cmd) as Hdv by (apply dec_val_fmt_unsigned; lia).
  change (bs "*") with [x2a]. change CRLF with [x0d; x0a].
  set (body := concat (map resp_bulk cmd)).
  replace (([x2a] ++ ds ++ [x0d; x0a] ++ body) ++ post)
    with (x2a :: ds ++ x0d :: x0a :: body ++ post) by app_norm.
  rewrite bool_decide_true by done. rewrite skipn_cons, drop_0.
  cbn [negb]. rewrite parse_len_digits, Hdv; [|done|lia|done|lia].
  replace (1 + length ds + 1)%nat with (length (x2a :: ds ++ [x0d]))
    by (simpl; rewrite length_app; simpl; lia).
  replace (x2a :: ds ++ x0d :: x0a :: body ++ post)
    with ((x2a :: ds ++ [x0d]) ++ x0a :: body ++ post) by app_norm.
  rewrite lookup_app_at, bool_decide_true by done. cbn [negb].
  replace (Z.to_nat (len cmd)) with (length cmd) by (unfold len; lia).
  replace ((x2a :: ds ++ [x0d]) ++ x0a :: body ++ post)
    with ((x2a :: ds ++ [x0d; x0a]) ++ body ++ post) by app_norm.
  replace (1 + length ds + 2)%nat with (length (x2a :: ds ++ [x0d; x0a]))
    by (simpl; rewrite length_app; simpl; lia).
  unfold body. rewrite parse_bulks_resp by done. repeat f_equal.
  rewrite app_assoc, <- length_app. apply drop_app_length.
Qed.

(** ** The verdict on a prefix *)

Lemma lookup_app_Some {A} (l k : list A) i x : l !! i = Some x → (l ++ k) !! i = Some x.
Proof. intros H. rewrite lookup_app_l; [done|]. by eapply lookup_lt_Some. Qed.

Lemma parse_bulk_Some buffer more cursor s c :
  parse_bulk buffer cursor = Ok (Some (s, c)) →
  parse_bulk (buffer ++ more) cursor = Ok (Some (s, c)) ∧ (c ≤ length buffer)%nat.
Proof.
  unfold parse_bulk. case_bool_decide as Hd; simpl; [|done].
  rewrite (bool_decide_true ((buffer ++ more) !! cursor = _)) by by apply lookup_app_Some.
  simpl. pose proof (lookup_lt_Some _ _ _ Hd).
  destruct (parse_len _ (drop (S cursor) buffer) _ _) as [[[n c']|]|] eqn:E; try done.
  rewrite drop_app_le by lia.
  apply (parse_len_Some _ _ more) in E as (-> & Hc & Hn).
  case_bool_decide as Hl; simpl; [|done].
  rewrite bool_decide_true by by apply lookup_app_Some. simpl.
  destruct (Z.ltb_spec (len buffer) (Z.of_nat (c' + 2) + n + 2)); [done|].
  pose proof (len_nonneg more). specialize (Hn ltac:(lia)).
  destruct (Z.ltb_spec (len (buffer ++ more)) (Z.of_nat (c' + 2) + n + 2));
    [rewrite len_app in *; lia|].
  intros [= <- <-]. unfold len in *. split; [|lia].
  rewrite drop_app_le, take_app_le; [done| |lia]. rewrite length_drop. lia.
Qed.

Lemma parse_bulk_Err buffer more cursor e :
  parse_bulk buffer cursor = Err e → parse_bulk (buffer ++ more) cursor = Err e.
Proof.
  unfold parse_bulk. case_bool_decide as Hd; simpl; [|done].
  rewrite (bool_decide_true ((buffer ++ more) !! cursor = _)) by by apply lookup_app_Some.
  simpl. pose proof (lookup_lt_Some _ _ _ Hd). rewrite drop_app_le by lia.
  destruct (parse_len _ (drop (S cursor) buffer) _ _) as [[[n c']|]|] eqn:E; try done.
  - case_bool_decide; simpl; [|done]. by destruct (_ <? _).
  - intros [= <-]. by rewrite (parse_len_Err _ _ _ _ _ _ E).
Qed.

Lemma parse_bulks_Some n buffer more cursor acc r c :
  parse_bulks n buffer cursor acc = Ok (Some (r, c)) → (cursor ≤ length buffer)%nat →
  parse_bulks n (buffer ++ more) cursor acc = Ok (Some (r, c)) ∧ (c ≤ length buffer)%nat.
Proof.
  revert cursor acc. induction n as [|n IH]; intros cursor acc; simpl.
  { by intros [= <- <-]. }
  destruct (parse_bulk buffer cursor) as [[[s c']|]|] eqn:E; try done.
  apply (parse_bulk_Some _ more) in E as [-> ?]. intros Hr _. by apply IH.
Qed.

Lemma parse_bulks_Err n buffer more cursor acc e :
  parse_bulks n buffer cursor acc = Err e →
  parse_bulks n (buffer ++ more) cursor acc = Err e.
Proof.
  revert cursor acc. induction n as [|n IH]; intros cursor acc; simpl; [done|].
  destruct (parse_bulk buffer cursor) as [[[s c']|]|] eqn:E; try done.
  - apply (parse_bulk_Some _ more) in E as [-> ?]. apply IH.
  - intros [= <-]. by rewrite (parse_bulk_Err _ _ _ _ E).
Qed.

Lemma try_parse_Some buffer more cmd rest :
  try_parse buffer = Ok (Some (cmd, rest)) →
  try_parse (buffer ++ more) = Ok (Some (cmd, rest ++ more)).
Proof.
  unfold try_parse. rewrite len_app. pose proof (len_nonneg more).
  destruct (Z.ltb_spec (len buffer) 4); [done|].
  destruct (Z.ltb_spec (len buffer + len more) 4); [lia|].
  case_bool_decide as Hd; simpl; [|done].
  rewrite (bool_decide_true ((buffer ++ more) !! _ = _)) by by apply lookup_app_Some. simpl.
  unfold len in *. rewrite drop_app_le by lia.
  destruct (parse_len _ (drop 1 buffer) _ _) as [[[n c]|]|] eqn:E; try done.
  apply (parse_len_Some _ _ more) in E as (-> & Hc & _). rewrite length_drop in Hc.
  case_bool_decide as Hl; simpl; [|done].
  rewrite bool_decide_true by by apply lookup_app_Some. simpl.
  pose proof (lookup_lt_Some _ _ _ Hl).
  destruct (parse_bulks _ buffer _ _) as [[[r c']|]|] eqn:E; try done.
  apply (parse_bulks_Some _ _ more) in E as [-> ?]; [|lia].
  intros [= <- <-]. by rewrite drop_app_le by lia.
Qed.

Lemma try_parse_Err buffer more e :
  try_parse buffer = Err e → try_parse (buffer ++ more) = Err e.
Proof.
  unfold try_parse. rewrite len_app. pose proof (len_nonneg more).
  destruct (Z.ltb_spec (len buffer) 4); [done|].
  destruct (Z.ltb_spec (len buffer + len more) 4); [lia|]. unfold len in *.
  rewrite lookup_app_l by lia. case_bool_decide as Hd; simpl; [|done].
  rewrite drop_app_le by lia.
  destruct (parse_len _ (drop 1 buffer) _ _) as [[[n c]|]|] eqn:E; try done.
  - apply (parse_len_Some _ _ more) in E as (-> & Hc & _).
    case_bool_decide as Hl; simpl; [|done].
    rewrite bool_decide_true by by apply lookup_app_Some. simpl.
    destruct (parse_bulks _ buffer _ _) as [[[r c']|]|] eqn:E; try done.
    intros [= <-]. by rewrite (parse_bulks_Err _ _ _ _ _ _ E).
  - intros [= <-]. by rewrite (parse_len_Err _ _ _ _ _ _ E).
Qed.

(** A proper prefix of a command is never rejected and never taken for a
    (shorter) command. *)
Lemma try_parse_prefix cmd p q :
  cmd_ok cmd → resp_array cmd = p ++ q → q ≠ [] → try_parse p = Ok None.
Proof.
  intros Hok Hpq Hq. pose proof (try_parse_resp cmd [] Hok) as Hfull.
  rewrite app_nil_r, Hpq in Hfull.
  destruct (try_parse p) as [[[c r]|]|e] eqn:E; [|done|].
  - apply (try_parse_Some _ q) in E. rewrite E in Hfull.
    injection Hfull as _ Hr. by apply app_eq_nil in Hr as [_ ?].
  - apply (try_parse_Err _ q) in E. congruence.
Qed.

(** ** Reading a command from a stream *)

(** What the events of a stream carry, for streams without I/O errors. *)
Definition stream_data (stream : list ReadEvent) : bytes :=
  concat (map (λ e, match e with ReadData d => d | ReadError => [] end) stream).
Definition is_data (e : ReadEvent) : Prop :=
  match e with ReadData d => d ≠ [] | ReadError => False end.

Lemma app_split_cases {A} (a b c d : list A) :
  a ++ b = c ++ d →
  (∃ e, c = a ++ e ∧ e ≠ [] ∧ b = e ++ d) ∨ (∃ e, a = c ++ e ∧ d = e ++ b).
Proof.
  revert c. induction a as [|x a IH]; intros [|y c]; simpl; intros H.
  - right. exists []. by rewrite H.
  - left. exists (y :: c). by rewrite H.
  - right. exists (x :: a). by rewrite <- H.
  - injection H as -> H. destruct (IH _ H) as [(e & -> & ? & ->)|(e & -> & ->)]; eauto.
Qed.

Lemma parse_command_chunks cmd after buffer stream fuel :
  cmd_ok cmd → len (resp_array cmd) ≤ MAX_BUFFER_SIZE → Forall is_data stream →
  buffer ++ stream_data stream = resp_array cmd ++ after → (length stream < fuel)%nat →
  ∃ rest stream', parse_command fuel buffer stream = Some (Ok (cmd, rest, stream')) ∧
    rest ++ stream_data stream' = after.
Proof.
  intros Hok Hmax Hst. revert buffer fuel.
  induction stream as [|ev stream IH]; intros buffer fuel Heq Hfuel;
    (destruct fuel as [|fuel]; [simpl in Hfuel; lia|]);
    cbn [parse_command]; destruct (app_split_cases _ _ _ _ Heq) as [(e & He & Hne & Hb)|(e & -> & Ha)].
  - by destruct e.
  - rewrite try_parse_resp by done. eexists _, _. split; [done|]. by rewrite Ha.
  - rewrite (try_parse_prefix cmd buffer e) by done.
    rewrite He, len_app in Hmax. pose proof (len_nonneg e).
    destruct (Z.ltb_spec MAX_BUFFER_SIZE (len buffer)); [lia|].
    apply Forall_cons in Hst as [Hev Hst]. destruct ev as [d|]; [|done]. simpl in Hev.
    rewrite bool_decide_false by (intros [_ ?]%app_eq_nil; done).
    apply IH; [done| |simpl in Hfuel; lia]. rewrite <- Heq. app_norm.
  - rewrite try_parse_resp by done. eexists _, _. split; [done|]. by rewrite Ha.
Qed.

Lemma parse_command_eof fuel buffer :
  buffer ≠ [] → len buffer ≤ MAX_BUFFER_SIZE → try_parse buffer = Ok None →
  parse_command fuel buffer [] = None.
Proof.
  intros Hne Hmax Hp. induction fuel as [|fuel IH]; [done|]. simpl. rewrite Hp.
  destruct (Z.ltb_spec MAX_BUFFER_SIZE (len buffer)); [lia|].
  by rewrite bool_decide_false.
Qed.

(** ** The number parsers *)

Lemma parse_u64_loop_spec l val v :
  is_u64 val →
  parse_u64_loop l val = Some v ↔ digits l ∧ v = dec_val_from val l ∧ is_u64 v.
Proof.
  revert val. induction l as [|b l IH]; intros val Hval; simpl.
  { split; [intros [= <-]; done|]. by intros (_ & -> & _). }
  destruct (is_ascii_digit b) eqn:Hb; simpl.
  2:{ split; [done|]. intros (Hd & _). apply Forall_cons in Hd as [Hd _]. congruence. }
  apply is_ascii_digit_spec in Hb as Hbv.
  assert (digits l → val * 10 + digit_val b ≤ dec_val_from (val * 10 + digit_val b) l) as Hm.
  { apply dec_val_from_nonneg. unfold is_u64 in *. lia. }
  unfold is_u64 in *.
  destruct (checked_u64 (val * 10)) as [w|] eqn:E1; simpl.
  2:{ split; [done|]. intros (Hd & -> & ?). apply Forall_cons in Hd as [_ Hd].
      specialize (Hm Hd). simpl in *. unfold checked_u64 in E1. zcases; simpl in *; try done; lia. }
  apply checked_u64_Some in E1 as [-> ?].
  destruct (checked_u64 (val * 10 + digit_val b)) as [w|] eqn:E2; simpl.
  2:{ split; [done|]. intros (Hd & -> & ?). apply Forall_cons in Hd as [_ Hd].
      specialize (Hm Hd). simpl in *. unfold checked_u64 in E2. zcases; simpl in *; try done; lia. }
  apply checked_u64_Some in E2 as [-> ?]. rewrite IH by done.
  rewrite Forall_cons. naive_solver.
Qed.

Lemma parse_u64_Some l v :
  parse_u64 l = Some v ↔ l ≠ [] ∧ digits l ∧ v = dec_val l ∧ v < U64_MOD.
Proof.
  unfold parse_u64. destruct l as [|b l]; [naive_solver|].
  rewrite parse_u64_loop_spec by done. unfold is_u64.
  split; [naive_solver|]. intros (_ & Hd & -> & ?). split_and!; try done.
  by apply dec_val_nonneg.
Qed.

Lemma parse_i64_loop_spec l val v :
  0 ≤ val ≤ I64_MAX →
  parse_i64_loop l val = Some v ↔ digits l ∧ v = dec_val_from val l ∧ v ≤ I64_MAX.
Proof.
  revert val. induction l as [|b l IH]; intros val Hval; simpl.
  { split; [intros [= <-]; split_and!; [constructor|done|lia]|]. by intros (_ & -> & _). }
  destruct (is_ascii_digit b) eqn:Hb; simpl.
  2:{ split; [done|]. intros (Hd & _). apply Forall_cons in Hd as [Hd _]. congruence. }
  apply is_ascii_digit_spec in Hb as Hbv.
  assert (digits l → val * 10 + digit_val b ≤ dec_val_from (val * 10 + digit_val b) l) as Hm.
  { apply dec_val_from_nonneg. lia. }
  unfold I64_MAX, I64_MIN in *.
  destruct (checked_i64 (val * 10)) as [w|] eqn:E1; simpl.
  2:{ split; [done|]. intros (Hd & -> & ?). apply Forall_cons in Hd as [_ Hd].
      specialize (Hm Hd). simpl in *. unfold checked_i64, I64_MAX, I64_MIN in E1. zcases; simpl in *; try done; lia. }
  apply checked_i64_Some in E1 as [-> ?].
  destruct (checked_i64 (val * 10 + digit_val b)) as [w|] eqn:E2; simpl.
  2:{ split; [done|]. intros (Hd & -> & ?). apply Forall_cons in Hd as [_ Hd].
      specialize (Hm Hd). simpl in *. unfold checked_i64, I64_MAX, I64_MIN in E2. zcases; simpl in *; try done; lia. }
  apply checked_i64_Some in E2 as [-> ?]. rewrite IH by (unfold is_i64, I64_MAX in *; lia).
  rewrite Forall_cons. naive_solver.
Qed.

Lemma i64_small z : is_i64 z → i64 z = z.
Proof.
  unfold is_i64, i64, I64_MIN, I64_MAX, U64_MOD. intros.
  rewrite Z.mod_small; lia.
Qed.

(** [parse_i64] accepts exactly an optional minus sign and digits whose value is
    at most [i64::MAX]: [i64::MIN] has no accepted spelling. *)
Lemma parse_i64_Some l v :
  parse_i64 l = Some v ↔
  ∃ ds, ds ≠ [] ∧ digits ds ∧ dec_val ds ≤ I64_MAX ∧
    ((l = ds ∧ v = dec_val ds) ∨ (l = x2d :: ds ∧ v = - dec_val ds)).
Proof.
  unfold parse_i64. split.
  - destruct l as [|b rest]; [done|]. case_bool_decide as Hb; cbv beta iota.
    + destruct rest as [|c rest]; [done|]. intros (w & Hw & [= <-])%bind_Some.
      apply parse_i64_loop_spec in Hw as (Hd & -> & Hle); [|done].
      exists (c :: rest). fold (dec_val (c :: rest)) in *.
      pose proof (dec_val_nonneg _ Hd). split_and!; [done|done|done|]. right.
      split; [by subst|]. apply i64_small. unfold is_i64, I64_MIN, I64_MAX in *. lia.
    + intros (w & Hw & [= <-])%bind_Some.
      apply parse_i64_loop_spec in Hw as (Hd & -> & Hle); [|done].
      exists (b :: rest). split_and!; [done|done|done|]. by left.
  - intros (ds & Hne & Hd & Hle & [[-> ->]|[-> ->]]).
    + destruct ds as [|b rest]; [done|]. rewrite bool_decide_false.
      2:{ intros ->. by apply Forall_cons in Hd as [? _]. }
      by rewrite (proj2 (parse_i64_loop_spec (b :: rest) 0 (dec_val (b :: rest)) ltac:(done))).
    + rewrite bool_decide_true by done. destruct ds as [|b rest]; [done|].
      rewrite (proj2 (parse_i64_loop_spec (b :: rest) 0 (dec_val (b :: rest)) ltac:(done)))
        by done. simpl. f_equal. apply i64_small. pose proof (dec_val_nonneg _ Hd).
      unfold is_i64, I64_MIN, I64_MAX in *. lia.
Qed.

Lemma parse_u64_fmt n : is_u64 n → parse_u64 (fmt_unsigned n) = Some n.
Proof.
  intros [H0 Hn]. apply parse_u64_Some. rewrite dec_val_fmt_unsigned by done.
  split_and!; auto with redistill.
Qed.

Lemma parse_i64_fmt n : I64_MIN < n ≤ I64_MAX → parse_i64 (fmt_signed n) = Some n.
Proof.
  intros Hn. apply parse_i64_Some. unfold fmt_signed, I64_MIN, I64_MAX in *.
  exists (fmt_unsigned (Z.abs n)).
  destruct (fmt_unsigned_spec (Z.abs n)) as (? & -> & ?); [lia|].
  split_and!; [done|done|lia|]. destruct (Z.ltb_spec n 0).
  - right. rewrite Z.abs_neq by lia. split; [done|lia].
  - left. rewrite Z.abs_eq by lia. done.
Qed.

Lemma parse_i64_not_min l : parse_i64 l ≠ Some I64_MIN.
Proof.
  intros (ds & _ & Hd & Hle & [[_ H]|[_ H]])%parse_i64_Some;
    pose proof (dec_val_nonneg _ Hd); unfold I64_MIN, I64_MAX in *; lia.
Qed.

(** ** Case-insensitive comparison *)

(** [u8::to_ascii_lowercase]. *)
Definition to_ascii_lowercase (b : byte) : byte :=
  if (65 <=? u8_val b) && (u8_val b <=? 90) then u8_of (u8_val b + 32) else b.
Definition is_ascii_lowercase (b : byte) : bool := (97 <=? u8_val b) && (u8_val b <=? 122).

Lemma or_0x20_lowercase a b :
  is_ascii_lowercase b = true → or_0x20 a = b ↔ to_ascii_lowercase a = b.
Proof.
  intros Hb. destruct (decide (or_0x20 a = to_ascii_lowercase a)) as [->|Hne]; [done|].
  assert (is_ascii_lowercase (or_0x20 a) = false ∧
          is_ascii_lowercase (to_ascii_lowercase a) = false) as [H1 H2].
  { destruct a; first [by split | by exfalso; apply Hne]. }
  split; intros <-; congruence.
Qed.

Lemma eq_ignore_case_spec a b :
  Forall (λ c, is_ascii_lowercase c = true) b →
  eq_ignore_case a b = true ↔ map to_ascii_lowercase a = b.
Proof.
  intros Hb. revert a. induction Hb as [|y b Hy Hb IH]; intros [|x a]; simpl; try done.
  rewrite andb_true_iff, bool_decide_eq_true, IH, or_0x20_lowercase by done.
  naive_solver.
Qed.

Lemma eq_ignore_case_length a b : eq_ignore_case a b = true → length a = length b.
Proof.
  revert b. induction a as [|x a IH]; intros [|y b]; simpl; try done.
  intros [_ ?]%andb_true_iff. f_equal. auto.
Qed.

(** ** Pipelines *)

(** The parse calls of a connection, [n] times in a row. *)
Fixpoint parse_pipeline (n fuel : nat) (buffer : bytes) (stream : list ReadEvent)
    : option (list (list bytes) * bytes * list ReadEvent) :=
  match n with
  | O => Some ([], buffer, stream)
  | S n =>
      match parse_command fuel buffer stream with
      | Some (Ok (cmd, buffer, stream)) =>
          '(cmds, buffer, stream) ← parse_pipeline n fuel buffer stream;
          Some (cmd :: cmds, buffer, stream)
      | _ => None
      end
  end.

Lemma parse_command_suffix fuel buffer stream cmd rest stream' :
  parse_command fuel buffer stream = Some (Ok (cmd, rest, stream')) → stream' `suffix_of` stream.
Proof.
  revert buffer stream. induction fuel as [|fuel IH]; intros buffer stream; simpl; [done|].
  destruct (try_parse buffer) as [[[c r]|]|]; [by intros [= <- <- <-]| |done].
  destruct (_ <? _); [done|]. destruct stream as [|[d|] stream]; simpl; [| |done];
    case_bool_decide; try done; intros Hp%IH; [done|]. by apply suffix_cons_r.
Qed.

Lemma parse_pipeline_chunks cmds after buffer stream fuel :
  Forall (λ cmd, cmd_ok cmd ∧ len (resp_array cmd) ≤ MAX_BUFFER_SIZE) cmds →
  Forall is_data stream → buffer ++ stream_data stream = concat (map resp_array cmds) ++ after →
  (length stream < fuel)%nat →
  ∃ rest stream', parse_pipeline (length cmds) fuel buffer stream = Some (cmds, rest, stream') ∧
    rest ++ stream_data stream' = after.
Proof.
  intros Hok. revert buffer stream. induction Hok as [|cmd cmds [Hc Hm] _ IH];
    intros buffer stream Hst Hd Hf; simpl; [eauto|].
  simpl in Hd. rewrite <- app_assoc in Hd.
  destruct (parse_command_chunks cmd _ buffer stream fuel Hc Hm Hst Hd Hf)
    as (rest & stream' & Hp & Hd'). rewrite Hp.
  apply parse_command_suffix in Hp as [pre ->]. apply Forall_app in Hst as [_ Hst'].
  rewrite length_app in Hf.
  destruct (IH rest stream' Hst' Hd' ltac:(lia)) as (rest' & s' & Hp' & Hd'').
  rewrite Hp'. simpl. eauto.
Qed.

Lemma fold_write_array buffer cmds :
  Forall cmd_ok cmds → fold_left write_array cmds buffer = buffer ++ concat (map resp_array cmds).
Proof.
  intros H. revert buffer. induction H as [|cmd cmds Hc _ IH]; intros buffer; simpl.
  { by rewrite app_nil_r. }
  apply cmd_ok_u64 in Hc as [? ?]. rewrite IH, write_array_eq by done. by rewrite <- app_assoc.
Qed.

(** ** Theorems *)

(** C19: round trip under pipelining and fragmentation.  A client that writes any
    sequence of commands (each within the parser's limits) gets exactly these
    commands parsed, in order, however the bytes are cut into socket reads, and
    every byte after them is kept for the next parse. *)
Theorem pipeline_roundtrip cmds after stream fuel :
  Forall (λ cmd, cmd_ok cmd ∧ len (resp_array cmd) ≤ MAX_BUFFER_SIZE) cmds →
  Forall is_data stream → stream_data stream = fold_left write_array cmds [] ++ after →
  (length stream < fuel)%nat →
  ∃ rest stream', parse_pipeline (length cmds) fuel [] stream = Some (cmds, rest, stream') ∧
    rest ++ stream_data stream' = after.
Proof.
  intros Hok Hst Hd Hf. apply parse_pipeline_chunks; try done. rewrite Hd.
  rewrite fold_write_array; [done|]. eapply Forall_impl; [exact Hok|]. by intros ? [? _].
Qed.

(** The parser's verdict is final.  Once [try_parse] has found a command or a
    protocol error, bytes that arrive later change neither the verdict nor the
    command, and they are left in the buffer. *)
Theorem try_parse_stable buffer more :
  match try_parse buffer with
  | Ok (Some (cmd, rest)) => try_parse (buffer ++ more) = Ok (Some (cmd, rest ++ more))
  | Ok None => True
  | Err e => try_parse (buffer ++ more) = Err e
  end.
Proof.
  destruct (try_parse buffer) as [[[cmd rest]|]|e] eqn:E; [|done|].
  - by apply try_parse_Some.
  - by apply try_parse_Err.
Qed.

(** A connection whose peer closes in the middle of a command is never
    released: [parse_command] is still looping after any number of iterations. *)
Theorem parse_command_spins_at_eof buffer fuel :
  buffer ≠ [] → len buffer ≤ MAX_BUFFER_SIZE → try_parse buffer = Ok None →
  parse_command fuel buffer [] = None.
Proof. intros. by apply parse_command_eof. Qed.

(** [write_signed_integer] prints every [i64] in decimal, [i64::MIN] included,
    and never leaves the bounds of its 20-byte scratch buffer. *)
Theorem write_signed_integer_decimal buffer i :
  is_i64 i → write_signed_integer buffer i = buffer ++ bs ":" ++ fmt_signed i ++ CRLF.
Proof.
  intros Hi. unfold write_signed_integer, fmt_signed. unfold is_i64, I64_MIN, I64_MAX in Hi.
  destruct (Z.ltb_spec i 0).
  - assert (u64 (i64 (- i)) = - i) as ->.
    { unfold i64, u64, U64_MOD. destruct (decide (i = - 2 ^ 63)) as [->|]; [done|].
      rewrite (Z.mod_small (- i + 2 ^ 63)) by lia. rewrite Z.mod_small; lia. }
    rewrite write_u64_eq by (unfold is_u64, U64_MOD; lia). by rewrite <- !app_assoc.
  - rewrite write_u64_eq by (unfold is_u64, U64_MOD; lia). by rewrite <- !app_assoc.
Qed.

(** [parse_i64] accepts exactly an optional minus sign followed by one or more
    digits whose value is at most [i64::MAX], and returns the number written. *)
Theorem parse_i64_exact l v :
  parse_i64 l = Some v ↔
  ∃ ds, ds ≠ [] ∧ digits ds ∧ dec_val ds ≤ I64_MAX ∧
    ((l = ds ∧ v = dec_val ds) ∨ (l = x2d :: ds ∧ v = - dec_val ds)).
Proof. apply parse_i64_Some. Qed.

(** Number round trip: [parse_i64] reads back what [i64::to_string] prints,
    except [i64::MIN], which it rejects. *)
Theorem parse_i64_roundtrip n :
  is_i64 n → parse_i64 (fmt_signed n) = if n =? I64_MIN then None else Some n.
Proof.
  intros Hn. destruct (Z.eqb_spec n I64_MIN) as [->|Hne].
  - vm_compute. reflexivity.
  - apply parse_i64_fmt. unfold is_i64, I64_MIN in *. lia.
Qed.

(** ** The theorems apply *)

Definition demo_commands : list (list bytes) :=
  [[bs "SET"; bs "k"; bs "v"]; [bs "GET"; bs "k"]].

Lemma pipeline_roundtrip_witness :
  ∃ rest stream',
    parse_pipeline 2 4 []
      [ReadData (take 7 (fold_left write_array demo_commands []));
       ReadData (drop 7 (fold_left write_array demo_commands [])); ReadData (bs "*1")] =
    Some (demo_commands, rest, stream') ∧ rest ++ stream_data stream' = bs "*1".
Proof.
  apply (pipeline_roundtrip demo_commands (bs "*1")).
  - repeat constructor; vm_compute; discriminate.
  - by repeat constructor.
  - reflexivity.
  - simpl. lia.
Defined.

Lemma parse_command_spins_at_eof_witness : parse_command 100 (bs "*1") [] = None.
Proof.
  apply (parse_command_spins_at_eof (bs "*1") 100).
  - discriminate.
  - vm_compute. discriminate.
  - reflexivity.
Defined.

Lemma write_signed_integer_decimal_witness :
  write_signed_integer [] I64_MIN = [] ++ bs ":" ++ fmt_signed I64_MIN ++ CRLF.
Proof. apply (write_signed_integer_decimal [] I64_MIN). vm_compute. split; discriminate. Defined.

Lemma parse_i64_roundtrip_witness :
  parse_i64 (fmt_signed (-42)) = if -42 =? I64_MIN then None else Some (-42).
Proof. apply (parse_i64_roundtrip (-42)). vm_compute. split; discriminate. Defined.
