(* ===== verification/Glob.v ===== *)
(** * Glob matching for [SCAN ... MATCH] ([matches_pattern] of [src/store.rs])

    The code is the usual two-pointer loop that remembers the last star and
    backtracks to it.  It is modelled with its four loop variables, proved to
    terminate, and proved equivalent to the declarative matching relation. *)

From S2P Require Import Prelude.

Definition STAR : byte := x2a.
Definition QUESTION : byte := x3f.

(** The mutable variables of the loop. *)
Record GlobState := mkGlob {
  key_idx : nat;
  pat_idx : nat;
  star_pos : option nat;
  key_backup : nat
}.

(** One iteration of [while key_idx < key_len]: the next state, or [None] for
    [return false]. *)
Definition glob_step (key pattern : bytes) (s : GlobState) : option GlobState :=
  let 'mkGlob ki pi star kb := s in
  if bool_decide (pattern !! pi = Some STAR) then
    Some (mkGlob ki (S pi) (Some pi) ki)
  else if bool_decide (pattern !! pi = Some QUESTION) ||
          (bool_decide (pi < length pattern)%nat && bool_decide (pattern !! pi = key !! ki)) then
    Some (mkGlob (S ki) (S pi) star kb)
  else
    match star with
    | Some st => Some (mkGlob (S kb) (S st) star (S kb))
    | None => None
    end.

(** The loop [while pat_idx < pat_len && pattern[pat_idx] == b'*'] and the final
    test, on [pattern[pat_idx..]]. *)
Fixpoint trailing_stars (pat : bytes) : bool :=
  match pat with
  | [] => true
  | c :: pat => bool_decide (c = STAR) && trailing_stars pat
  end.

(** [None] is a loop still running after [fuel] iterations. *)
Fixpoint glob_loop (fuel : nat) (key pattern : bytes) (s : GlobState) : option bool :=
  if bool_decide (key_idx s < length key)%nat then
    match fuel with
    | O => None
    | S fuel =>
        match glob_step key pattern s with
        | Some s => glob_loop fuel key pattern s
        | None => Some false
        end
    end
  else Some (trailing_stars (drop (pat_idx s) pattern)).

(** A bound on the number of iterations, proved sufficient below. *)
Definition glob_fuel (key pattern : bytes) : nat :=
  S (length pattern * (S (length key) * S (length key)) + S (length key) * S (length key)).

Definition matches_pattern (key pattern : bytes) : bool :=
  default false (glob_loop (glob_fuel key pattern) key pattern (mkGlob 0 0 None 0)).

(** ** Specification *)

Inductive Glob : bytes → bytes → Prop :=
| glob_nil : Glob [] []
| glob_star p k1 k2 : Glob p k2 → Glob (STAR :: p) (k1 ++ k2)
| glob_question p x k : Glob p k → Glob (QUESTION :: p) (x :: k)
| glob_literal c p k : c ≠ STAR → Glob p k → Glob (c :: p) (c :: k).

#[export] Hint Constructors Glob : redistill.

(** A star-free segment of the pattern, matched byte for byte. *)
Definition char_match (c x : byte) : Prop := c ≠ STAR ∧ (c = QUESTION ∨ c = x).
Abbreviation seg_match := (Forall2 char_match).

Lemma Glob_char c x p k : char_match c x → Glob p k → Glob (c :: p) (x :: k).
Proof. intros [Hc [->| ->]]; auto with redistill. Qed.

Lemma Glob_seg seg ka p kb : seg_match seg ka → Glob p kb → Glob (seg ++ p) (ka ++ kb).
Proof. induction 1; simpl; eauto using Glob_char. Qed.

Lemma Glob_char_inv c p k :
  c ≠ STAR → Glob (c :: p) k → ∃ x k', k = x :: k' ∧ (c = QUESTION ∨ c = x) ∧ Glob p k'.
Proof. intros Hc H. inversion H; subst; naive_solver. Qed.

Lemma Glob_seg_inv seg p k :
  Forall (.≠ STAR) seg → Glob (seg ++ p) k →
  ∃ ka kb, k = ka ++ kb ∧ length ka = length seg ∧ Glob p kb.
Proof.
  intros Hs. revert k. induction Hs as [|c seg Hc _ IH]; intros k H; simpl in H.
  { by exists [], k. }
  apply Glob_char_inv in H as (x & k' & -> & _ & H); [|done].
  apply IH in H as (ka & kb & -> & Hl & H). exists (x :: ka), kb. simpl. by rewrite Hl.
Qed.

Lemma Glob_star_inv p k : Glob (STAR :: p) k → ∃ k1 k2, k = k1 ++ k2 ∧ Glob p k2.
Proof. intros H. inversion H; subst; [by eauto|done]. Qed.

(** A star absorbs any prefix. *)
Lemma Glob_star_app p k1 k2 : Glob (STAR :: p) k2 → Glob (STAR :: p) (k1 ++ k2).
Proof.
  intros (a & b & -> & H)%Glob_star_inv. rewrite app_assoc. by constructor.
Qed.

Lemma Glob_empty_key p : Glob p [] ↔ trailing_stars p = true.
Proof.
  induction p as [|c p IH]; simpl.
  { split; [done|constructor]. }
  rewrite andb_true_iff, bool_decide_eq_true, <- IH. split.
  - intros H. inversion H as [|q k1 k2 Hp Hq Hk| |]; subst.
    apply app_eq_nil in Hk as [-> ->]. done.
  - intros [-> H]. apply (glob_star p [] [] H).
Qed.

(** ** Loop invariant *)

Section Loop.
Context (key pattern : bytes).

(** What the loop variables mean: [Glob pattern key] has been reduced to the
    rest of the pattern against the rest of the key, or, once a star was seen,
    to the last star against what follows [key_backup], the segment after that
    star having matched so far. *)
Definition glob_inv (s : GlobState) : Prop :=
  let 'mkGlob ki pi star kb := s in
  (ki ≤ length key)%nat ∧ (pi ≤ length pattern)%nat ∧
  match star with
  | None => kb = 0%nat ∧ (Glob pattern key ↔ Glob (drop pi pattern) (drop ki key))
  | Some st =>
      ∃ seg ka, (S st + length seg)%nat = pi ∧ (kb + length ka)%nat = ki ∧
        drop (S st) pattern = seg ++ drop pi pattern ∧ drop kb key = ka ++ drop ki key ∧
        seg_match seg ka ∧
        (Glob pattern key ↔ Glob (STAR :: drop (S st) pattern) (drop kb key))
  end.

Lemma seg_match_no_star seg ka : seg_match seg ka → Forall (.≠ STAR) seg.
Proof. induction 1 as [|c x seg ka [Hc _] _ IH]; constructor; done. Qed.

Lemma drop_lookup {A} (l : list A) i x : l !! i = Some x → drop i l = x :: drop (S i) l.
Proof.
  revert i. induction l as [|y l IH]; intros [|i]; try done.
  - by intros [= ->].
  - intros H. apply (IH i H).
Qed.

(** A new star: everything before it is settled. *)
Lemma glob_inv_star ki pi star kb :
  glob_inv (mkGlob ki pi star kb) → pattern !! pi = Some STAR →
  glob_inv (mkGlob ki (S pi) (Some pi) ki).
Proof.
  intros (Hki & Hpi & H) Hp. pose proof (lookup_lt_Some _ _ _ Hp) as Hlt.
  pose proof (drop_lookup _ _ _ Hp) as Hd. split_and!; [done|lia|].
  exists [], []. split_and!; [simpl; lia|simpl; lia|done|done|constructor|].
  destruct star as [st|].
  2:{ destruct H as [_ ->]. by rewrite Hd. }
  destruct H as (seg & ka & Hpi' & Hki' & Hsp & Hk & Hm & ->). rewrite Hsp, Hd, Hk. split.
  - intros (k1 & k2 & Heq & H)%Glob_star_inv.
    apply Glob_seg_inv in H as (ka' & kb' & -> & Hlen & H); [|by eapply seg_match_no_star].
    assert (∃ k3, drop ki key = k3 ++ kb') as [k3 ->]; [|by apply Glob_star_app].
    rewrite app_assoc in Heq. apply Forall2_length in Hm.
    exists (drop (length ka) (k1 ++ ka')).
    rewrite <- drop_app_le by (rewrite length_app; lia).
    by rewrite <- Heq, drop_app_length.
  - intros H. apply (glob_star _ []). by apply Glob_seg.
Qed.

Lemma glob_inv_char ki pi star kb c x :
  glob_inv (mkGlob ki pi star kb) → pattern !! pi = Some c → key !! ki = Some x →
  char_match c x → glob_inv (mkGlob (S ki) (S pi) star kb).
Proof.
  intros (Hki & Hpi & H) Hp Hk Hcx.
  pose proof (lookup_lt_Some _ _ _ Hp). pose proof (lookup_lt_Some _ _ _ Hk).
  pose proof (drop_lookup _ _ _ Hp) as Hd. pose proof (drop_lookup _ _ _ Hk) as Hdk.
  split_and!; [lia|lia|]. destruct star as [st|].
  - destruct H as (seg & ka & <- & <- & Hsp & Hkb & Hm & Hiff).
    exists (seg ++ [c]), (ka ++ [x]). rewrite Hd in Hsp. rewrite Hdk in Hkb.
    split_and!; [rewrite length_app; simpl; lia|rewrite length_app; simpl; lia| | | |done].
    + rewrite Hsp. app_norm.
    + rewrite Hkb. app_norm.
    + apply Forall2_app; [done|]. by constructor.
  - destruct H as [-> ->]. split; [done|]. rewrite Hd, Hdk. split; [|by apply Glob_char].
    destruct Hcx as [Hc _]. intros (x' & k' & [= <- <-] & _ & ?)%Glob_char_inv; done.
Qed.

(** What it means that the code finds no match at the current position. *)
Definition mismatch (ki pi : nat) : Prop :=
  (ki < length key)%nat ∧
  ∀ c, pattern !! pi = Some c → c ≠ STAR ∧ c ≠ QUESTION ∧ pattern !! pi ≠ key !! ki.

Lemma mismatch_Glob ki pi : mismatch ki pi → ¬ Glob (drop pi pattern) (drop ki key).
Proof.
  intros [Hlt Hmm] H. destruct (lookup_lt_is_Some_2 key ki Hlt) as [x Hx].
  rewrite (drop_lookup _ _ _ Hx) in H.
  destruct (pattern !! pi) as [c|] eqn:Hp.
  - destruct (Hmm c eq_refl) as (Hc & Hq & Hne). rewrite (drop_lookup _ _ _ Hp) in H.
    apply Glob_char_inv in H as (y & k & [= <- <-] & [->| ->] & _); congruence.
  - apply lookup_ge_None in Hp. rewrite drop_ge in H by done. inversion H.
Qed.

Lemma glob_inv_backtrack ki pi st kb :
  glob_inv (mkGlob ki pi (Some st) kb) → mismatch ki pi →
  glob_inv (mkGlob (S kb) (S st) (Some st) (S kb)).
Proof.
  intros (Hki & Hpi & seg & ka & Hp & Hk & Hsp & Hkb & Hm & Hiff) Hmm.
  pose proof (proj1 Hmm) as Hlt. split_and!; [lia|lia|].
  exists [], []. split_and!; [simpl; lia|simpl; lia|done|done|constructor|].
  rewrite Hiff. destruct (lookup_lt_is_Some_2 key kb ltac:(lia)) as [x Hx].
  rewrite (drop_lookup _ _ _ Hx) at 1. split.
  - intros (k1 & k2 & Heq & H)%Glob_star_inv. destruct k1 as [|y k1]; simpl in Heq.
    + exfalso. apply (mismatch_Glob _ _ Hmm). subst k2.
      rewrite <- (drop_lookup _ _ _ Hx), Hkb, Hsp in H.
      apply Glob_seg_inv in H as (ka' & kb' & Heq & Hlen & H); [|by eapply seg_match_no_star].
      apply Forall2_length in Hm.
      apply app_inj_1 in Heq as [_ ->]; [done|lia].
    + injection Heq as _ ->. by constructor.
  - intros H. apply (Glob_star_app _ [x]). done.
Qed.

(** At the end of the key only trailing stars may remain. *)
Lemma glob_inv_end ki pi star kb :
  glob_inv (mkGlob ki pi star kb) → (length key ≤ ki)%nat →
  Glob pattern key ↔ trailing_stars (drop pi pattern) = true.
Proof.
  intros (Hki & Hpi & H) Hge. rewrite <- Glob_empty_key.
  assert (drop ki key = []) as Hnil by (apply drop_ge; lia). destruct star as [st|].
  - destruct H as (seg & ka & _ & _ & Hsp & Hkb & Hm & ->). rewrite Hkb, Hnil, app_nil_r, Hsp.
    pose proof (Forall2_length _ _ _ Hm) as Hl. split.
    + intros (k1 & k2 & Heq & H)%Glob_star_inv.
      apply Glob_seg_inv in H as (ka' & kb' & -> & Hlen & H); [|by eapply seg_match_no_star].
      assert (length ka = length k1 + length ka' + length kb')%nat
        by (rewrite Heq, !length_app; lia).
      assert (kb' = []) as -> by (apply length_zero_iff_nil; lia). done.
    + intros H. apply (glob_star _ []). rewrite <- (app_nil_r ka). by apply Glob_seg.
  - destruct H as [_ ->]. by rewrite Hnil.
Qed.

(** ** Termination measure *)

Definition glob_measure (s : GlobState) : nat :=
  let 'mkGlob ki pi star kb := s in
  let K := S (length key) in
  ((length pattern - match star with Some st => S st | None => 0 end) * (K * K)
   + (length key - kb) * K + (length key - ki))%nat.

(** One iteration preserves the invariant and decreases the measure. *)
Lemma glob_step_spec s :
  glob_inv s → (key_idx s < length key)%nat →
  match glob_step key pattern s with
  | Some s' => glob_inv s' ∧ (glob_measure s' < glob_measure s)%nat
  | None => ¬ Glob pattern key
  end.
Proof.
  destruct s as [ki pi star kb]. intros Hinv Hlt. simpl in Hlt. unfold glob_step.
  case_bool_decide as Hst.
  { split; [by eapply glob_inv_star|]. pose proof (lookup_lt_Some _ _ _ Hst).
    destruct Hinv as (_ & _ & Hinv). unfold glob_measure. destruct star as [st|].
    - destruct Hinv as (seg & ka & ? & ? & _). nia.
    - nia. }
  destruct (lookup_lt_is_Some_2 key ki Hlt) as [x Hx].
  destruct (bool_decide (pattern !! pi = Some QUESTION) ||
    (bool_decide (pi < length pattern)%nat && bool_decide (pattern !! pi = key !! ki))) eqn:Hc.
  { assert (∃ c, pattern !! pi = Some c ∧ char_match c x) as (c & Hp & Hcx).
    { apply orb_true_iff in Hc as [Hq%bool_decide_eq_true|[_ He%bool_decide_eq_true]%andb_true_iff].
      - exists QUESTION. split; [done|]. split; [done|by left].
      - exists x. rewrite He, Hx in *. split; [done|]. split; [|by right]. congruence. }
    split; [by eapply glob_inv_char|]. unfold glob_measure.
    destruct star as [st|]; nia. }
  assert (mismatch ki pi) as Hmm.
  { split; [done|]. intros c Hp. rewrite Hp in *. split_and!; [congruence| |].
    - intros ->. rewrite bool_decide_true in Hc by done. done.
    - intros Heq. rewrite (bool_decide_true (pi < _)%nat) in Hc by by eapply lookup_lt_Some.
      rewrite (bool_decide_true (Some c = key !! ki)) in Hc by done.
      by rewrite orb_true_r in Hc. }
  destruct star as [st|].
  - split; [by eapply glob_inv_backtrack|]. unfold glob_measure.
    destruct Hinv as (? & ? & seg & ka & ? & ? & _). nia.
  - destruct Hinv as (_ & _ & _ & ->). by apply mismatch_Glob.
Qed.

Lemma glob_loop_spec fuel s :
  glob_inv s → (glob_measure s < fuel)%nat →
  ∃ b, glob_loop fuel key pattern s = Some b ∧ (b = true ↔ Glob pattern key).
Proof.
  revert s. induction fuel as [|fuel IH]; intros s Hinv Hm; [lia|].
  cbn [glob_loop]. case_bool_decide as Hlt.
  - pose proof (glob_step_spec s Hinv Hlt) as Hstep.
    destruct (glob_step key pattern s) as [s'|].
    + destruct Hstep. apply IH; [done|lia].
    + exists false. split; [done|]. split; [done|]. intros ?. contradiction.
  - eexists. split; [done|]. destruct s as [ki pi star kb]. simpl in *.
    symmetry. eapply glob_inv_end; [done|lia].
Qed.

Lemma glob_inv_init : glob_inv (mkGlob 0 0 None 0).
Proof. split_and!; [lia|lia|done|]. by rewrite !drop_0. Qed.

Lemma glob_fuel_enough : (glob_measure (mkGlob 0 0 None 0) < glob_fuel key pattern)%nat.
Proof. unfold glob_measure, glob_fuel. nia. Qed.

Lemma glob_loop_total :
  ∃ b, glob_loop (glob_fuel key pattern) key pattern (mkGlob 0 0 None 0) = Some b ∧
    (b = true ↔ Glob pattern key).
Proof. apply glob_loop_spec; [apply glob_inv_init|apply glob_fuel_enough]. Qed.

End Loop.

Lemma matches_pattern_Glob key pattern : matches_pattern key pattern = true ↔ Glob pattern key.
Proof.
  unfold matches_pattern. destruct (glob_loop_total key pattern) as (b & -> & Hb). exact Hb.
Qed.

(** ** Theorems *)

(** C34: the backtracking matcher decides glob matching: [matches_pattern] accepts
    exactly when the pattern, read with [*] as any sequence and [?] as any byte,
    derives the key. *)
Theorem matches_pattern_correct key pattern :
  matches_pattern key pattern = true ↔ Glob pattern key.
Proof. apply matches_pattern_Glob. Qed.

(** The matching loop terminates on every key and pattern, within a number of
    iterations polynomial in their lengths. *)
Theorem glob_loop_terminates key pattern :
  ∃ b, glob_loop (glob_fuel key pattern) key pattern (mkGlob 0 0 None 0) = Some b.
Proof. destruct (glob_loop_total key pattern) as (b & Hb & _). eauto. Qed.
