(* ===== verification/Config.v ===== *)
(** * Configuration ([src/config.rs])

    The configuration records with their defaults, the environment overrides,
    the validation, and the eviction policy.  The TOML parser, the process
    environment and the file system are parameters of [load]. *)

From Stdlib Require Import Floats.SpecFloat.
From S2P Require Import Prelude Decimal.

Record ServerConfig := mkServerConfig {
  bind : string;
  port : Z;                       (* u16 *)
  cfg_num_shards : Z;             (* usize *)
  batch_size : Z;                 (* usize *)
  buffer_size : Z;                (* usize *)
  buffer_pool_size : Z;           (* usize *)
  max_connections : Z;            (* usize *)
  connection_timeout : Z;         (* u64 *)
  connection_rate_limit : Z;      (* u64 *)
  health_check_port : Z;          (* u16 *)
  shutdown_grace_period_secs : Z  (* u64 *)
}.

Record SecurityConfig := mkSecurityConfig {
  password : string;
  tls_enabled : bool;
  tls_cert_path : string;
  tls_key_path : string
}.

Record LoggingConfig := mkLoggingConfig {
  level : string;
  format : string
}.

Record PerformanceConfig := mkPerformanceConfig {
  tcp_nodelay : bool;
  tcp_keepalive : Z               (* u64 *)
}.

Record MemoryConfig := mkMemoryConfig {
  max_memory : Z;                 (* u64 *)
  eviction_policy : string;
  eviction_sample_size : Z;       (* usize *)
  s3fifo_small_ratio : spec_float; (* f64 *)
  s3fifo_ghost_ratio : spec_float  (* f64 *)
}.

Record PersistenceConfig := mkPersistenceConfig {
  enabled : bool;
  snapshot_path : string;
  save_on_shutdown : bool;
  snapshot_interval : Z;          (* u64 *)
  aof_enabled : bool;
  aof_path : string;
  aof_fsync : string;
  aof_rewrite_min_size : Z;       (* u64 *)
  aof_rewrite_percentage : Z      (* u64 *)
}.

Record Config := mkConfig {
  server : ServerConfig;
  security : SecurityConfig;
  logging : LoggingConfig;
  performance : PerformanceConfig;
  memory : MemoryConfig;
  persistence : PersistenceConfig
}.

(** ** Defaults *)

(** The [f64] nearest to [0.1]: [7205759403792794 * 2^-56]. *)
Definition f64_0_1 : spec_float := S754_finite false 7205759403792794 (-56).

Definition default_server : ServerConfig := {|
  bind := "0.0.0.0";
  port := 6379;
  cfg_num_shards := 2048;
  batch_size := 16;
  buffer_size := 16 * 1024;
  buffer_pool_size := 1024;
  max_connections := 10000;
  connection_timeout := 300;
  connection_rate_limit := 0;
  health_check_port := 0;
  shutdown_grace_period_secs := 30
|}.

Definition default_security : SecurityConfig := {|
  password := "";
  tls_enabled := false;
  tls_cert_path := "";
  tls_key_path := ""
|}.

Definition default_logging : LoggingConfig := {| level := "info"; format := "text" |}.

Definition default_performance : PerformanceConfig :=
  {| tcp_nodelay := true; tcp_keepalive := 60 |}.

Definition default_memory : MemoryConfig := {|
  max_memory := 0;
  eviction_policy := "allkeys-lru";
  eviction_sample_size := 5;
  s3fifo_small_ratio := f64_0_1;
  s3fifo_ghost_ratio := f64_0_1
|}.

Definition default_persistence : PersistenceConfig := {|
  enabled := false;
  snapshot_path := "redistill.rdb";
  save_on_shutdown := true;
  snapshot_interval := 300;
  aof_enabled := false;
  aof_path := "redistill.aof";
  aof_fsync := "everysec";
  aof_rewrite_min_size := 64 * 1024 * 1024;
  aof_rewrite_percentage := 100
|}.

Definition default_config : Config := {|
  server := default_server;
  security := default_security;
  logging := default_logging;
  performance := default_performance;
  memory := default_memory;
  persistence := default_persistence
|}.

(** ** Eviction policy *)

Inductive EvictionPolicy := NoEviction | AllKeysLru | AllKeysRandom | AllKeysS3Fifo.

#[global] Instance EvictionPolicy_eq_dec : EqDecision EvictionPolicy.
Proof. solve_decision. Defined.

(** [str::to_lowercase] on ASCII text (configuration strings are ASCII here). *)
Definition ascii_lower (a : Ascii.ascii) : Ascii.ascii :=
  let n := Ascii.nat_of_ascii a in
  if bool_decide (65 ≤ n ≤ 90)%nat then Ascii.ascii_of_nat (n + 32) else a.
Fixpoint to_lowercase (s : string) : string :=
  match s with
  | EmptyString => EmptyString
  | String a s => String (ascii_lower a) (to_lowercase s)
  end.

Definition from_str (s : string) : EvictionPolicy :=
  let s := to_lowercase s in
  if String.eqb s "allkeys-lru" then AllKeysLru
  else if String.eqb s "allkeys-random" then AllKeysRandom
  else if String.eqb s "allkeys-s3fifo" then AllKeysS3Fifo
  else if String.eqb s "noeviction" then NoEviction
  else AllKeysLru.

Definition as_str (p : EvictionPolicy) : string :=
  match p with
  | NoEviction => "noeviction"
  | AllKeysLru => "allkeys-lru"
  | AllKeysRandom => "allkeys-random"
  | AllKeysS3Fifo => "allkeys-s3fifo"
  end.

(** ** Environment overrides *)

Section Env.
(** [std::env::var]: [None] when the variable is unset. *)
Context (var : string → option string).

Definition env_string (name : string) (old : string) : string := default old (var name).

(** [if let Ok(s) = var(..) && let Ok(v) = s.parse() { field = v }] for an
    unsigned type with bound [m]. *)
Definition env_uint (m : Z) (name : string) (old : Z) : Z :=
  default old (s ← var name; parse_uint m (list_byte_of_string s)).

(** [if let Ok(s) = var(..) { field = s.parse().unwrap_or(dflt) }]. *)
Definition env_bool (name : string) (dflt old : bool) : bool :=
  match var name with
  | None => old
  | Some s => if String.eqb s "true" then true else if String.eqb s "false" then false else dflt
  end.

Definition override_server (c : ServerConfig) : ServerConfig := {|
  bind := env_string "REDIS_BIND" (bind c);
  port := env_uint (2 ^ 16) "REDIS_PORT" (port c);
  cfg_num_shards := env_uint U64_MOD "REDIS_NUM_SHARDS" (cfg_num_shards c);
  batch_size := env_uint U64_MOD "REDIS_BATCH_SIZE" (batch_size c);
  buffer_size := env_uint U64_MOD "REDIS_BUFFER_SIZE" (buffer_size c);
  buffer_pool_size := env_uint U64_MOD "REDIS_BUFFER_POOL_SIZE" (buffer_pool_size c);
  max_connections := env_uint U64_MOD "REDIS_MAX_CONNECTIONS" (max_connections c);
  connection_timeout := connection_timeout c;
  connection_rate_limit := connection_rate_limit c;
  health_check_port := env_uint (2 ^ 16) "REDIS_HEALTH_CHECK_PORT" (health_check_port c);
  shutdown_grace_period_secs :=
    env_uint U64_MOD "REDIS_SHUTDOWN_GRACE_SECS" (shutdown_grace_period_secs c)
|}.

Definition override_security (c : SecurityConfig) : SecurityConfig := {|
  password := env_string "REDIS_PASSWORD" (password c);
  tls_enabled := tls_enabled c;
  tls_cert_path := tls_cert_path c;
  tls_key_path := tls_key_path c
|}.

Definition override_performance (c : PerformanceConfig) : PerformanceConfig := {|
  tcp_nodelay := env_bool "REDIS_TCP_NODELAY" true (tcp_nodelay c);
  tcp_keepalive := env_uint U64_MOD "REDIS_TCP_KEEPALIVE" (tcp_keepalive c)
|}.

Definition override_memory (c : MemoryConfig) : MemoryConfig := {|
  max_memory := env_uint U64_MOD "REDIS_MAX_MEMORY" (max_memory c);
  eviction_policy := env_string "REDIS_EVICTION_POLICY" (eviction_policy c);
  eviction_sample_size := eviction_sample_size c;
  s3fifo_small_ratio := s3fifo_small_ratio c;
  s3fifo_ghost_ratio := s3fifo_ghost_ratio c
|}.

Definition override_persistence (c : PersistenceConfig) : PersistenceConfig := {|
  enabled := env_bool "REDIS_PERSISTENCE_ENABLED" false (enabled c);
  snapshot_path := env_string "REDIS_SNAPSHOT_PATH" (snapshot_path c);
  save_on_shutdown := env_bool "REDIS_SAVE_ON_SHUTDOWN" true (save_on_shutdown c);
  snapshot_interval := env_uint U64_MOD "REDIS_SNAPSHOT_INTERVAL" (snapshot_interval c);
  aof_enabled := env_bool "REDIS_AOF_ENABLED" false (aof_enabled c);
  aof_path := env_string "REDIS_AOF_PATH" (aof_path c);
  aof_fsync := env_string "REDIS_AOF_FSYNC" (aof_fsync c);
  aof_rewrite_min_size :=
    env_uint U64_MOD "REDIS_AOF_REWRITE_MIN_SIZE" (aof_rewrite_min_size c);
  aof_rewrite_percentage :=
    env_uint U64_MOD "REDIS_AOF_REWRITE_PERCENTAGE" (aof_rewrite_percentage c)
|}.

(** The block of overrides of [Config::load]. *)
Definition override_config (c : Config) : Config := {|
  server := override_server (server c);
  security := override_security (security c);
  logging := logging c;
  performance := override_performance (performance c);
  memory := override_memory (memory c);
  persistence := override_persistence (persistence c)
|}.

(** [Config::validate]. *)
Definition validate (c : Config) : Result unit string :=
  if cfg_num_shards (server c) =? 0 then Err "num_shards must be greater than 0"%string
  else if buffer_size (server c) =? 0 then Err "buffer_size must be greater than 0"%string
  else if port (server c) =? 0 then Err "port must be greater than 0"%string
  else if (0 <? max_memory (memory c)) && (eviction_sample_size (memory c) =? 0) then
    Err "eviction_sample_size must be > 0 when max_memory is set"%string
  else Ok tt.

(** [Config::load].  [read_file] is [None] when the path does not exist and
    otherwise the outcome of reading it; [toml] is [toml::from_str]. *)
Definition load (read_file : string → option (Result string string))
    (toml : string → Result Config string) : Result Config string :=
  let config_path := default "redistill.toml"%string (var "REDISTILL_CONFIG") in
  let file :=
    match read_file config_path with
    | Some (Ok contents) => toml contents
    | Some (Err e) => Err e
    | None => Ok default_config
    end in
  match file with
  | Err e => Err e
  | Ok config =>
      let config := override_config config in
      match validate config with
      | Err e => Err e
      | Ok _ => Ok config
      end
  end.

End Env.

(** ** Facts *)

(** A configuration the server can run with. *)
Definition config_valid (c : Config) : Prop :=
  cfg_num_shards (server c) ≠ 0 ∧ buffer_size (server c) ≠ 0 ∧ port (server c) ≠ 0 ∧
  (0 < max_memory (memory c) → eviction_sample_size (memory c) ≠ 0).

Lemma validate_spec c : validate c = Ok tt ↔ config_valid c.
Proof.
  unfold validate, config_valid. zcases; simpl; naive_solver lia.
Qed.

Lemma from_str_as_str p : from_str (as_str p) = p.
Proof. by destruct p. Qed.

(** ** Theorems *)

(** Whatever the file, the environment and the TOML parser, a configuration
    [load] returns has at least one shard, a buffer, a port and, under a memory
    limit, a nonzero eviction sample. *)
Theorem load_valid var read_file toml c :
  load var read_file toml = Ok c → config_valid c.
Proof.
  unfold load. intros H. destruct (match read_file _ with Some _ => _ | None => _ end) as [c0|]; [|done].
  destruct (validate _) as [[]|] eqn:Hv; [|done]. injection H as <-. by apply validate_spec.
Qed.

Lemma load_valid_witness :
  config_valid (override_config (λ _, None) default_config).
Proof.
  apply (load_valid (λ _, None) (λ _, None) (λ _, Err "no file"%string)). reflexivity.
Defined.
