(* ===== verification/S3Fifo.v ===== *)
(** * The S3-FIFO queues ([S3FifoQueues] of [src/store.rs])

    Two FIFO queues of keys, each shadowed by a hash set for constant-time
    membership tests, and a ghost queue of the hashes of recently evicted keys,
    shadowed the same way.  The invariant says that the shadows agree with the
    queues, that a queue never holds a key twice and that it stays within its
    capacity; every operation preserves it. *)

From S2P Require Import Prelude.

Inductive QueueType := Small | Main.

#[global] Instance QueueType_eq_dec : EqDecision QueueType.
Proof. solve_decision. Defined.

(** [qtype as u8] and [QueueType::from(u8)]. *)
Definition queue_type_u8 (q : QueueType) : Z := match q with Small => 0 | Main => 1 end.
Definition queue_type_from (v : Z) : QueueType := if v =? 1 then Main else Small.

Record GhostEntry := mkGhost { key_hash : Z; evicted_at : Z }.

Record S3FifoQueues := mkQueues {
  small_queue : list bytes;
  main_queue : list bytes;
  ghost_queue : list GhostEntry;
  ghost_set : gset Z;
  small_set : gset bytes;
  main_set : gset bytes;
  small_capacity : Z;
  main_capacity : Z;
  ghost_capacity : Z
}.

Definition queues_new (small_cap main_cap ghost_cap : Z) : S3FifoQueues :=
  mkQueues [] [] [] ∅ ∅ ∅ small_cap main_cap ghost_cap.

Definition with_small (sq : list bytes) (ss : gset bytes) (q : S3FifoQueues) : S3FifoQueues :=
  mkQueues sq (main_queue q) (ghost_queue q) (ghost_set q) ss (main_set q)
    (small_capacity q) (main_capacity q) (ghost_capacity q).
Definition with_main (mq : list bytes) (ms : gset bytes) (q : S3FifoQueues) : S3FifoQueues :=
  mkQueues (small_queue q) mq (ghost_queue q) (ghost_set q) (small_set q) ms
    (small_capacity q) (main_capacity q) (ghost_capacity q).
Definition with_ghost (gq : list GhostEntry) (gs : gset Z) (q : S3FifoQueues) : S3FifoQueues :=
  mkQueues (small_queue q) (main_queue q) gq gs (small_set q) (main_set q)
    (small_capacity q) (main_capacity q) (ghost_capacity q).

Definition remove_from_small (key : bytes) (q : S3FifoQueues) : bool * S3FifoQueues :=
  if bool_decide (key ∈ small_set q) then
    (true, with_small (filter (.≠ key) (small_queue q)) (small_set q ∖ {[key]}) q)
  else (false, q).

Definition remove_from_main (key : bytes) (q : S3FifoQueues) : bool * S3FifoQueues :=
  if bool_decide (key ∈ main_set q) then
    (true, with_main (filter (.≠ key) (main_queue q)) (main_set q ∖ {[key]}) q)
  else (false, q).

Definition is_main_tail (key : bytes) (q : S3FifoQueues) : bool :=
  bool_decide (last (main_queue q) = Some key).

(** [while queue.len() >= capacity { pop_front, and drop it from the set }]. *)
Fixpoint drop_oldest (capacity : Z) (queue : list bytes) (set : gset bytes)
    : list bytes * gset bytes :=
  match queue with
  | [] => ([], set)
  | oldest :: rest =>
      if capacity <=? len queue then drop_oldest capacity rest (set ∖ {[oldest]})
      else (queue, set)
  end.

Definition add_to_small (key : bytes) (q : S3FifoQueues) : S3FifoQueues :=
  if bool_decide (key ∈ small_set q) then q
  else
    let '(sq, ss) := drop_oldest (small_capacity q) (small_queue q) (small_set q) in
    with_small (sq ++ [key]) ({[key]} ∪ ss) q.

Definition add_to_main (key : bytes) (q : S3FifoQueues) : S3FifoQueues :=
  if bool_decide (key ∈ main_set q) then q
  else
    let '(mq, ms) := drop_oldest (main_capacity q) (main_queue q) (main_set q) in
    with_main (mq ++ [key]) ({[key]} ∪ ms) q.

Definition reinsert_main_tail (key : bytes) (q : S3FifoQueues) : S3FifoQueues :=
  if is_main_tail key q then q
  else
    let q := if bool_decide (key ∈ main_set q) then (remove_from_main key q).2 else q in
    add_to_main key q.

Definition is_in_ghost (h : Z) (q : S3FifoQueues) : bool := bool_decide (h ∈ ghost_set q).

Definition add_to_ghost (h now : Z) (q : S3FifoQueues) : S3FifoQueues :=
  let '(gq, gs) :=
    if ghost_capacity q <=? len (ghost_queue q) then
      match ghost_queue q with
      | oldest :: rest => (rest, ghost_set q ∖ {[key_hash oldest]})
      | [] => ([], ghost_set q)
      end
    else (ghost_queue q, ghost_set q) in
  with_ghost (gq ++ [mkGhost h now]) ({[h]} ∪ gs) q.

Definition remove_from_ghost (h : Z) (q : S3FifoQueues) : S3FifoQueues :=
  if bool_decide (h ∈ ghost_set q) then
    with_ghost (filter (λ e, key_hash e ≠ h) (ghost_queue q)) (ghost_set q ∖ {[h]}) q
  else q.

(** The choice of the eviction victim inside [evict_s3fifo], under the queue
    lock: the front of Small (remembered in Ghost), else the front of Main. *)
Definition pop_victim (hash : bytes → Z) (now : Z) (q : S3FifoQueues)
    : option bytes * S3FifoQueues :=
  match small_queue q with
  | key :: rest =>
      (Some key, add_to_ghost (hash key) now (with_small rest (small_set q ∖ {[key]}) q))
  | [] =>
      match main_queue q with
      | key :: rest => (Some key, with_main rest (main_set q ∖ {[key]}) q)
      | [] => (None, q)
      end
  end.

(** ** Invariant *)

(** A queue and its shadow set. *)
Definition fifo_ok (capacity : Z) (queue : list bytes) (set : gset bytes) : Prop :=
  NoDup queue ∧ set = list_to_set queue ∧ len queue ≤ Z.max 1 capacity.

Definition ghost_ok (capacity : Z) (queue : list GhostEntry) (set : gset Z) : Prop :=
  (∀ h, h ∈ set → h ∈ map key_hash queue) ∧ len queue ≤ Z.max 1 capacity.

Definition queues_ok (q : S3FifoQueues) : Prop :=
  fifo_ok (small_capacity q) (small_queue q) (small_set q) ∧
  fifo_ok (main_capacity q) (main_queue q) (main_set q) ∧
  ghost_ok (ghost_capacity q) (ghost_queue q) (ghost_set q).

(** ** A queue with its shadow *)

Lemma len_filter_le {A} (P : A → Prop) `{∀ x, Decision (P x)} (l : list A) :
  len (filter P l) ≤ len l.
Proof. unfold len. pose proof (length_filter P l). lia. Qed.

Lemma fifo_ok_remove cap queue set key :
  fifo_ok cap queue set → fifo_ok cap (filter (.≠ key) queue) (set ∖ {[key]}).
Proof.
  intros (Hnd & -> & Hlen). split_and!.
  - by apply NoDup_filter.
  - apply set_eq. intros x.
    rewrite elem_of_difference, elem_of_singleton, !elem_of_list_to_set, list_elem_of_filter.
    naive_solver.
  - etrans; [apply len_filter_le|done].
Qed.

Lemma fifo_ok_pop cap key queue set :
  fifo_ok cap (key :: queue) set → fifo_ok cap queue (set ∖ {[key]}).
Proof.
  intros ([Hni Hnd]%NoDup_cons & -> & Hlen). split_and!; [done| |rewrite len_cons in Hlen; lia].
  apply set_eq. intros x. simpl. rewrite elem_of_difference, elem_of_union, !elem_of_singleton.
  rewrite elem_of_list_to_set. naive_solver.
Qed.

Lemma drop_oldest_ok cap queue set :
  fifo_ok cap queue set →
  let '(q', s') := drop_oldest cap queue set in
  fifo_ok cap q' s' ∧ s' ⊆ set ∧ (len q' < cap ∨ q' = []).
Proof.
  revert set. induction queue as [|key queue IH]; intros set Hok; simpl.
  { split_and!; [done|done|by right]. }
  destruct (Z.leb_spec cap (len (key :: queue))).
  - specialize (IH _ (fifo_ok_pop _ _ _ _ Hok)).
    destruct (drop_oldest _ _ _) as [q' s']. destruct IH as (? & ? & ?).
    split_and!; [done|set_solver|done].
  - split_and!; [done|done|by left].
Qed.

Lemma fifo_ok_push cap queue set key :
  fifo_ok cap queue set → key ∉ set → len queue < cap ∨ queue = [] →
  fifo_ok cap (queue ++ [key]) ({[key]} ∪ set).
Proof.
  intros (Hnd & -> & Hlen) Hni Hroom. rewrite elem_of_list_to_set in Hni. split_and!.
  - apply NoDup_app. split_and!; [done| |apply NoDup_singleton].
    intros x Hx ->%list_elem_of_singleton. done.
  - rewrite list_to_set_app_L. set_solver.
  - rewrite len_app. change (len [key]) with 1. destruct Hroom as [?| ->]; [lia|].
    rewrite len_nil. lia.
Qed.

Lemma fifo_ok_add cap queue set key :
  fifo_ok cap queue set → key ∉ set →
  let '(q', s') := drop_oldest cap queue set in fifo_ok cap (q' ++ [key]) ({[key]} ∪ s').
Proof.
  intros Hok Hni. pose proof (drop_oldest_ok _ _ _ Hok) as H.
  destruct (drop_oldest _ _ _) as [q' s']. destruct H as (? & ? & ?).
  apply fifo_ok_push; [done|set_solver|done].
Qed.

(** ** Preservation *)

Lemma queues_new_ok s m g : queues_ok (queues_new s m g).
Proof.
  unfold queues_ok, fifo_ok, ghost_ok, len. simpl.
  split_and!; try done; try lia; try constructor; set_solver.
Qed.

Lemma remove_from_small_ok key q : queues_ok q → queues_ok (remove_from_small key q).2.
Proof.
  intros (Hs & Hm & Hg). unfold remove_from_small. case_bool_decide; [|done].
  split_and!; [by apply fifo_ok_remove|done|done].
Qed.

Lemma remove_from_main_ok key q : queues_ok q → queues_ok (remove_from_main key q).2.
Proof.
  intros (Hs & Hm & Hg). unfold remove_from_main. case_bool_decide; [|done].
  split_and!; [done|by apply fifo_ok_remove|done].
Qed.

Lemma add_to_small_ok key q : queues_ok q → queues_ok (add_to_small key q).
Proof.
  intros (Hs & Hm & Hg). unfold add_to_small. case_bool_decide as Hin; [done|].
  pose proof (fifo_ok_add _ _ _ key Hs ltac:(done)) as H.
  destruct (drop_oldest _ _ _) as [sq ss]. done.
Qed.

Lemma add_to_main_ok key q : queues_ok q → queues_ok (add_to_main key q).
Proof.
  intros (Hs & Hm & Hg). unfold add_to_main. case_bool_decide as Hin; [done|].
  pose proof (fifo_ok_add _ _ _ key Hm ltac:(done)) as H.
  destruct (drop_oldest _ _ _) as [mq ms]. done.
Qed.

Lemma reinsert_main_tail_ok key q : queues_ok q → queues_ok (reinsert_main_tail key q).
Proof.
  intros H. unfold reinsert_main_tail. destruct (is_main_tail key q); [done|].
  apply add_to_main_ok. case_bool_decide; [|done]. by apply remove_from_main_ok.
Qed.

Lemma add_to_ghost_ok h now q : queues_ok q → queues_ok (add_to_ghost h now q).
Proof.
  intros (Hs & Hm & Hsub & Hlen). unfold add_to_ghost.
  destruct q as [sq mq gq gs ss ms sc mc gc]; simpl in *.
  destruct (Z.leb_spec gc (len gq)) as [Hfull|Hroom]; [destruct gq as [|o rest]|];
    (split; [done|split; [done|split]]); simpl; try (rewrite len_app; change (len [mkGhost h now]) with 1).
  - intros x. specialize (Hsub x). set_solver.
  - unfold len. simpl. lia.
  - intros x. rewrite map_app. specialize (Hsub x). set_solver.
  - rewrite len_cons in *. lia.
  - intros x. rewrite map_app. specialize (Hsub x). set_solver.
  - lia.
Qed.

Lemma remove_from_ghost_ok h q : queues_ok q → queues_ok (remove_from_ghost h q).
Proof.
  intros (Hs & Hm & Hsub & Hlen). unfold remove_from_ghost. case_bool_decide; [|done].
  (split; [done|split; [done|split]]); simpl; [|etrans; [apply len_filter_le|done]].
  intros x [Hx Hne]%elem_of_difference. apply Hsub, list_elem_of_fmap in Hx as (e & -> & He).
  apply list_elem_of_fmap. exists e. split; [done|]. apply list_elem_of_filter. set_solver.
Qed.

Lemma pop_victim_ok hash now q : queues_ok q → queues_ok (pop_victim hash now q).2.
Proof.
  intros (Hs & Hm & Hg). unfold pop_victim. destruct (small_queue q) as [|k sq] eqn:Eq.
  - destruct (main_queue q) as [|k mq] eqn:Em; simpl; [by split_and!; rewrite ?Eq, ?Em|].
    split_and!; simpl; [by rewrite Eq|by eapply fifo_ok_pop|done].
  - apply add_to_ghost_ok. split_and!; simpl; [by eapply fifo_ok_pop|done|done].
Qed.

#[export] Hint Resolve queues_new_ok remove_from_small_ok remove_from_main_ok add_to_small_ok
  add_to_main_ok reinsert_main_tail_ok add_to_ghost_ok remove_from_ghost_ok pop_victim_ok
  : redistill.

(** ** Reachable queues *)

(** The queues of a shard under any sequence of the operations the store applies
    to them. *)
Inductive q_step (hash : bytes → Z) : S3FifoQueues → S3FifoQueues → Prop :=
| q_remove_small key q : q_step hash q (remove_from_small key q).2
| q_remove_main key q : q_step hash q (remove_from_main key q).2
| q_add_small key q : q_step hash q (add_to_small key q)
| q_add_main key q : q_step hash q (add_to_main key q)
| q_reinsert key q : q_step hash q (reinsert_main_tail key q)
| q_add_ghost h now q : q_step hash q (add_to_ghost h now q)
| q_remove_ghost h q : q_step hash q (remove_from_ghost h q)
| q_pop now q : q_step hash q (pop_victim hash now q).2.

Lemma q_step_ok hash q q' : q_step hash q q' → queues_ok q → queues_ok q'.
Proof. destruct 1; auto with redistill. Qed.

Definition capacities (q : S3FifoQueues) : Z * Z * Z :=
  (small_capacity q, main_capacity q, ghost_capacity q).

Lemma capacities_add_to_main key q : capacities (add_to_main key q) = capacities q.
Proof. unfold add_to_main. by repeat case_match. Qed.

Lemma capacities_remove_from_main key q : capacities (remove_from_main key q).2 = capacities q.
Proof. unfold remove_from_main. by repeat case_match. Qed.

Lemma capacities_add_to_ghost h now q : capacities (add_to_ghost h now q) = capacities q.
Proof. unfold add_to_ghost. by repeat case_match. Qed.

Lemma q_step_capacities hash q q' : q_step hash q q' → capacities q' = capacities q.
Proof.
  destruct 1.
  - unfold remove_from_small. by case_match.
  - apply capacities_remove_from_main.
  - unfold add_to_small. by repeat case_match.
  - apply capacities_add_to_main.
  - unfold reinsert_main_tail. case_match; [done|]. rewrite capacities_add_to_main.
    case_match; [apply capacities_remove_from_main|done].
  - apply capacities_add_to_ghost.
  - unfold remove_from_ghost. by case_match.
  - unfold pop_victim. repeat case_match; simpl; [done|done|]. by rewrite capacities_add_to_ghost.
Qed.

(** C35: in every state the queues of a shard can reach, no key is twice in Small or
    twice in Main, the membership sets of Small and Main are exactly the contents of their
    queues, every hash in the ghost set is that of an entry of the ghost queue, and no
    queue is longer than its capacity. *)
Theorem queues_invariant hash s m g q :
  0 < s → 0 < m → 0 < g → rtc (q_step hash) (queues_new s m g) q →
  NoDup (small_queue q) ∧ NoDup (main_queue q) ∧
  (∀ k, k ∈ small_set q ↔ k ∈ small_queue q) ∧ (∀ k, k ∈ main_set q ↔ k ∈ main_queue q) ∧
  (∀ h, h ∈ ghost_set q → h ∈ map key_hash (ghost_queue q)) ∧
  len (small_queue q) ≤ s ∧ len (main_queue q) ≤ m ∧ len (ghost_queue q) ≤ g.
Proof.
  intros Hs Hm Hg Hr.
  assert (queues_ok q ∧ capacities q = (s, m, g)) as [Hok Hc].
  { revert q Hr. apply (rtc_ind_r (R := q_step hash) (λ q, queues_ok q ∧ capacities q = (s, m, g))).
    - split; [apply queues_new_ok|done].
    - intros q1 q2 _ Hstep [Hok Hc]. split; [by eapply q_step_ok|].
      by rewrite (q_step_capacities _ _ _ Hstep). }
  destruct Hok as ((? & Es & ?) & (? & Em & ?) & (? & ?)). injection Hc as Hcs Hcm Hcg.
  rewrite Es, Em. split_and!; try done; try lia; intros; by rewrite elem_of_list_to_set.
Qed.

Lemma queues_invariant_witness :
  let q := (pop_victim len 5 (add_to_main (bs "b") (add_to_small (bs "a") (queues_new 10 90 10)))).2 in
  NoDup (small_queue q) ∧ NoDup (main_queue q) ∧
  (∀ k, k ∈ small_set q ↔ k ∈ small_queue q) ∧ (∀ k, k ∈ main_set q ↔ k ∈ main_queue q) ∧
  (∀ h, h ∈ ghost_set q → h ∈ map key_hash (ghost_queue q)) ∧
  len (small_queue q) ≤ 10 ∧ len (main_queue q) ≤ 90 ∧ len (ghost_queue q) ≤ 10.
Proof.
  apply (queues_invariant len 10 90 10); [lia..|].
  eapply rtc_l; [apply (q_add_small len (bs "a"))|].
  eapply rtc_l; [apply (q_add_main len (bs "b"))|].
  eapply rtc_l; [apply (q_pop len 5)|]. apply rtc_refl.
Defined.
