(* ===== verification/State.v ===== *)
(** * Shared server state

    What every command works on: the sharded store with its S3-FIFO queues, the
    memory and eviction counters, and the interface to what the program calls
    but does not implement.  Code with interior mutability is a function of the
    state in a small state monad [M]; its [fetch_add] and [fetch_sub] wrap as the
    atomics do. *)

From S2P Require Import Prelude Config S3Fifo.

(** ** The platform

    Third-party and operating-system code, as functions the model is
    parameterised by: [ahash] hashes a key ([AHasher::default], [write],
    [finish]); the [i]-th call of [fastrand::u32(..)], [fastrand::usize(..n)] and
    [SystemTime::now] returns [fastrand_u32 i], [fastrand_usize i n] and
    [system_time i]; [map_iter] is the iteration order of a hash map, on one platform a
    function of its contents, where the code's maps have seeds of their own (so nothing
    is concluded from two maps being iterated in the same order: [lib_matches_server]
    compares stores on two platforms); [process_id] is [std::process::id()] and [elapsed i] the whole
    seconds of a monotonic [Instant] elapsed at that call. *)
Class Platform := {
  ahash : bytes → Z;
  fastrand_u32 : nat → Z;
  fastrand_usize : nat → Z → Z;
  system_time : nat → Z;
  map_iter : ∀ {V : Type}, gmap bytes V → list (bytes * V);
  process_id : Z;
  elapsed : nat → Z
}.

(** What the code relies on: values fit their types, a bounded random number is
    below its bound, and iteration visits each entry exactly once. *)
Class PlatformOk (P : Platform) : Prop := {
  ahash_u64 k : is_u64 (ahash k);
  fastrand_u32_range i : 0 ≤ fastrand_u32 i ≤ U32_MAX;
  fastrand_usize_range i n : 0 < n → 0 ≤ fastrand_usize i n < n;
  system_time_u64 i : is_u64 (system_time i);
  map_iter_perm V (m : gmap bytes V) : map_iter m ≡ₚ map_to_list m
}.

(** The global [CONFIG]. *)
Class HasConfig := CONFIG : Config.

(** ** Entries *)

(** A hash value is [Arc<RwLock<HashMap<Bytes, Bytes>>>]; here it is the map it
    holds (Hashes.v models the sharing). *)
Inductive EntryValue :=
| EV_String (b : bytes)
| EV_Hash (h : gmap bytes bytes).

Record Entry := mkEntry {
  e_value : EntryValue;
  e_expiry : option Z;      (* u64 *)
  last_accessed : Z;        (* AtomicU32 *)
  e_queue_type : Z;         (* AtomicU8 *)
  access_count : Z          (* AtomicU8 *)
}.

Abbreviation Shard := (gmap bytes Entry).

(** ** The state *)

Record Core := mkCore {
  shards : list Shard;
  s3fifo_queues : list S3FifoQueues;
  num_shards : Z;
  MEMORY_USED : Z;                  (* AtomicU64 *)
  EVICTED_KEYS : Z;                 (* AtomicU64 *)
  SERVER_START_TIME : option Z;     (* Lazy<u64> *)
  ticks : nat                       (* platform calls made so far *)
}.

Definition set_shards (s : list Shard) (c : Core) : Core :=
  mkCore s (s3fifo_queues c) (num_shards c) (MEMORY_USED c) (EVICTED_KEYS c)
    (SERVER_START_TIME c) (ticks c).
Definition set_queues (q : list S3FifoQueues) (c : Core) : Core :=
  mkCore (shards c) q (num_shards c) (MEMORY_USED c) (EVICTED_KEYS c)
    (SERVER_START_TIME c) (ticks c).
Definition set_memory (m : Z) (c : Core) : Core :=
  mkCore (shards c) (s3fifo_queues c) (num_shards c) m (EVICTED_KEYS c)
    (SERVER_START_TIME c) (ticks c).
Definition set_evicted (n : Z) (c : Core) : Core :=
  mkCore (shards c) (s3fifo_queues c) (num_shards c) (MEMORY_USED c) n
    (SERVER_START_TIME c) (ticks c).
Definition set_start (t : option Z) (c : Core) : Core :=
  mkCore (shards c) (s3fifo_queues c) (num_shards c) (MEMORY_USED c) (EVICTED_KEYS c) t (ticks c).
Definition tick (c : Core) : Core :=
  mkCore (shards c) (s3fifo_queues c) (num_shards c) (MEMORY_USED c) (EVICTED_KEYS c)
    (SERVER_START_TIME c) (S (ticks c)).

(** ** The state monad *)

Definition M (A : Type) : Type := Core → A * Core.

#[global] Instance M_ret : MRet M := λ A a c, (a, c).
#[global] Instance M_bind : MBind M := λ A B f m c, let r := m c in f r.1 r.2.

Definition gets {A} (f : Core → A) : M A := λ c, (f c, c).
Definition modify (f : Core → Core) : M unit := λ c, (tt, f c).

(** [for x in l { body }] with an accumulator. *)
Fixpoint mfold {A B} (f : B → A → M B) (b : B) (l : list A) : M B :=
  match l with
  | [] => mret b
  | x :: l => b ← f b x; mfold f b l
  end.

(** ** Memory accounting *)

(** [MEMORY_USED.fetch_add(n)], [MEMORY_USED.fetch_sub(n)],
    [EVICTED_KEYS.fetch_add(1)]. *)
Definition memory_fetch_add (n : Z) : M unit :=
  modify (λ c, set_memory (u64 (MEMORY_USED c + n)) c).
Definition memory_fetch_sub (n : Z) : M unit :=
  modify (λ c, set_memory (u64 (MEMORY_USED c - n)) c).
Definition evicted_fetch_add1 : M unit :=
  modify (λ c, set_evicted (u64 (EVICTED_KEYS c + 1)) c).

(** ** Shards *)

Definition shard_at (c : Core) (i : nat) : Shard := default ∅ (shards c !! i).
Definition queues_at (c : Core) (i : nat) : S3FifoQueues :=
  default (queues_new 0 0 0) (s3fifo_queues c !! i).

Definition put_shard (i : nat) (m : Shard) (c : Core) : Core :=
  set_shards (<[i:=m]> (shards c)) c.
Definition put_queues (i : nat) (q : S3FifoQueues) (c : Core) : Core :=
  set_queues (<[i:=q]> (s3fifo_queues c)) c.

(** The [DashMap] operations the program uses, on the shard at an index. *)
Definition shard_get (i : nat) (key : bytes) : M (option Entry) :=
  gets (λ c, shard_at c i !! key).
Definition shard_insert (i : nat) (key : bytes) (e : Entry) : M (option Entry) :=
  old ← shard_get i key;
  modify (λ c, put_shard i (<[key:=e]> (shard_at c i)) c);; mret old.
Definition shard_remove_if (i : nat) (key : bytes) (p : Entry → bool) : M (option Entry) :=
  old ← shard_get i key;
  match old with
  | Some e =>
      if p e then modify (λ c, put_shard i (delete key (shard_at c i)) c);; mret (Some e)
      else mret None
  | None => mret None
  end.
Definition shard_remove (i : nat) (key : bytes) : M (option Entry) :=
  shard_remove_if i key (λ _, true).

(** Run [f] on the queues of a shard under their write lock. *)
Definition with_queues (i : nat) (f : S3FifoQueues → S3FifoQueues) : M unit :=
  modify (λ c, put_queues i (f (queues_at c i)) c).

Section Ops.
Context {P : Platform} {CFG : HasConfig}.

Definition rand_u32 : M Z := λ c, (fastrand_u32 (ticks c), tick c).
Definition rand_usize (n : Z) : M Z := λ c, (fastrand_usize (ticks c) n, tick c).

(** [get_timestamp]. *)
Definition get_timestamp : M Z := λ c, (system_time (ticks c), tick c).

(** [get_uptime_seconds], initialising the lazy [SERVER_START_TIME]. *)
Definition get_uptime_seconds : M Z :=
  now ← get_timestamp;
  start ← gets SERVER_START_TIME;
  match start with
  | Some s => mret (u32 (u64 (now - s)))
  | None =>
      s ← get_timestamp;
      modify (set_start (Some s));;
      mret (u32 (u64 (now - s)))
  end.

(** [fastrand::u32(..).is_multiple_of(10)]. *)
Definition one_in_ten : M bool := r ← rand_u32; mret (r mod 10 =? 0).

(** [ShardedStore::hash]. *)
Definition shard_index (n : Z) (key : bytes) : nat := Z.to_nat (ahash key mod n).
Definition hash (key : bytes) : M nat := gets (λ c, shard_index (num_shards c) key).

(** [for shard in &store.shards { for entry in shard.iter() { .. } } ]. *)
Definition store_entries (c : Core) : list (bytes * Entry) := shards c ≫= map_iter.

(** [EVICTION_POLICY]. *)
Definition EVICTION_POLICY : EvictionPolicy := from_str (eviction_policy (memory CONFIG)).

(** [CONFIG.memory.max_memory > 0]. *)
Definition tracks_memory : bool := 0 <? max_memory (memory CONFIG).

End Ops.
