(* ===== verification/Demo.v ===== *)
(** * A concrete platform and configurations, on which the model evaluates *)

From S2P Require Import Prelude Config S3Fifo State.

Definition byte_hash (k : bytes) : Z := u64 (zsum u8_val k).

Definition demo_platform : Platform := {|
  ahash := byte_hash;
  fastrand_u32 i := u32 (Z.of_nat i);
  fastrand_usize i n := Z.of_nat i mod n;
  system_time i := u64 (1000 + Z.of_nat i / 100);
  map_iter V m := map_to_list m;
  process_id := 42;
  elapsed i := Z.of_nat i / 100
|}.

Lemma demo_platform_ok : PlatformOk demo_platform.
Proof.
  split; intros; simpl.
  - apply u64_range.
  - unfold u32, U32_MAX. pose proof (Z.mod_pos_bound (Z.of_nat i) (2 ^ 32) ltac:(lia)). lia.
  - by apply Z.mod_pos_bound.
  - apply u64_range.
  - done.
Qed.

(** The default configuration with a memory limit and an eviction policy. *)
Definition demo_config (limit : Z) (policy : EvictionPolicy) : Config :=
  let d := default_config in
  mkConfig (server d) (security d) (logging d) (performance d)
    (mkMemoryConfig limit (as_str policy) (eviction_sample_size (memory d))
       (s3fifo_small_ratio (memory d)) (s3fifo_ghost_ratio (memory d)))
    (persistence d).

(** The configurations the examples run with. *)
Definition demo_default : HasConfig := default_config.
Definition demo_lru : HasConfig := demo_config 1000 AllKeysLru.
Definition demo_s3fifo : HasConfig := demo_config 1000 AllKeysS3Fifo.

(** Two shards, snapshots and a log synced at every write. *)
Definition demo_durable : HasConfig :=
  let d := default_config in
  mkConfig
    (mkServerConfig (bind (server d)) (port (server d)) 2 (batch_size (server d))
       (buffer_size (server d)) (buffer_pool_size (server d)) (max_connections (server d))
       (connection_timeout (server d)) (connection_rate_limit (server d))
       (health_check_port (server d)) (shutdown_grace_period_secs (server d)))
    (security d) (logging d) (performance d) (memory d)
    (mkPersistenceConfig true "dump.rdb" true 300 true "redistill.aof" "always" 67108864 100).

(** Two shards, a snapshot at shutdown and no log; with a memory limit and a policy. *)
Definition demo_snapshots (limit : Z) (policy : EvictionPolicy) : HasConfig :=
  let d := demo_config limit policy in
  mkConfig (server demo_durable) (security d) (logging d) (performance d) (memory d)
    (mkPersistenceConfig true "dump.rdb" true 300 false "redistill.aof" "always" 67108864 100).
