(* ===== verification/Store.v ===== *)
(** * The sharded store ([ShardedStore] of [src/store.rs])

    Construction, the string and hash operations with their lazy expiry, memory
    accounting and S3-FIFO bookkeeping.  [SCAN] is in Scan.v, eviction in
    Eviction.v; the theorems are in StoreSpec.v and Memory.v. *)

From Stdlib Require Import Floats.SpecFloat.
From S2P Require Import Prelude Config S3Fifo State.

(** ** Sizes *)

Definition entry_size (key_len value_len : Z) : Z := usize (key_len + value_len + 64).

Definition field_bytes (k v : bytes) : Z := len k + len v.

Definition calculate_entry_size (key_len : Z) (value : EntryValue) : Z :=
  match value with
  | EV_String b => entry_size key_len (len b)
  | EV_Hash h => usize (key_len + 64 + 128 + map_sum field_bytes h)
  end.

(** ** Expiry tests *)

(** [expiry.map_or(false, |exp| now >= exp)]; its negation is
    [expiry.is_none_or(|exp| now < exp)]. *)
Definition expired (now : Z) (e : Entry) : bool :=
  match e_expiry e with Some exp => exp <=? now | None => false end.

Section Store.
Context {P : Platform} {CFG : HasConfig}.

(** ** Construction *)

(** [(n as f64 * x).ceil() as usize] in IEEE double precision. *)
Definition f64_of_u64 (n : Z) : spec_float := binary_normalize 53 1024 n 0 false.
Definition f64_ceil_usize (x : spec_float) : Z :=
  match x with
  | S754_finite s m e =>
      let v := if s then Zneg m else Zpos m in
      let c := if 0 <=? e then v * 2 ^ e else - ((- v) / 2 ^ (- e)) in
      Z.max 0 (Z.min c (U64_MOD - 1))
  | S754_infinity false => U64_MOD - 1
  | _ => 0
  end.
Definition f64_0_9 : spec_float := S754_finite false 8106479329266893 (-53).
Definition scaled_cap (n : Z) (ratio : spec_float) : Z :=
  f64_ceil_usize (SFmul 53 1024 (f64_of_u64 n) ratio).

(** The queue capacities [ShardedStore::new] computes. *)
Definition queue_capacities (n : Z) : Z * Z * Z :=
  let max_mem := max_memory (memory CONFIG) in
  if 0 <? max_mem then
    let per_shard_memory := max_mem / n in
    let estimated_entries := Z.max (per_shard_memory / 256) 100 in
    let small_cap := scaled_cap estimated_entries f64_0_1 in
    let main_cap := scaled_cap estimated_entries f64_0_9 in
    let ghost_cap := scaled_cap estimated_entries f64_0_1 in
    (Z.max small_cap 10, Z.max main_cap 10, Z.max ghost_cap 10)
  else (100, 900, 100).

(** [ShardedStore::new], with the counters at their initial values. *)
Definition new (n : Z) : Core :=
  let '(small_cap, main_cap, ghost_cap) := queue_capacities n in
  mkCore (replicate (Z.to_nat n) ∅)
    (replicate (Z.to_nat n) (queues_new small_cap main_cap ghost_cap)) n 0 0 None 0.

(** ** Blocks shared by several methods *)

(** The entry a guard from [shard.get] points to is updated in place. *)
Definition shard_alter (i : nat) (key : bytes) (f : Entry → Entry) : M unit :=
  modify (λ c, put_shard i (alter f key (shard_at c i)) c).

(** [if CONFIG.memory.max_memory > 0 { MEMORY_USED.fetch_sub(size) }]. *)
Definition track_sub (size : Z) : M unit :=
  if tracks_memory then memory_fetch_sub size else mret tt.
Definition track_add (size : Z) : M unit :=
  if tracks_memory then memory_fetch_add size else mret tt.

(** Lazy expiry: [shard.remove_if(key, expired)] and the memory it frees. *)
Definition remove_if_expired (i : nat) (key : bytes) (now : Z) : M bool :=
  removed ← shard_remove_if i key (expired now);
  match removed with
  | Some r => track_sub (calculate_entry_size (len key) (e_value r));; mret true
  | None => mret false
  end.

Definition with_last_accessed (t : Z) (e : Entry) : Entry :=
  mkEntry (e_value e) (e_expiry e) t (e_queue_type e) (access_count e).
Definition with_queue_type (t : Z) (e : Entry) : Entry :=
  mkEntry (e_value e) (e_expiry e) (last_accessed e) t (access_count e).
Definition with_access_count (n : Z) (e : Entry) : Entry :=
  mkEntry (e_value e) (e_expiry e) (last_accessed e) (e_queue_type e) n.
Definition with_expiry (x : option Z) (e : Entry) : Entry :=
  mkEntry (e_value e) x (last_accessed e) (e_queue_type e) (access_count e).
Definition with_value (v : EntryValue) (e : Entry) : Entry :=
  mkEntry v (e_expiry e) (last_accessed e) (e_queue_type e) (access_count e).

Definition maybe_update_access_time (i : nat) (key : bytes) : M unit :=
  b ← one_in_ten;
  if (b : bool) then t ← get_uptime_seconds; shard_alter i key (with_last_accessed t)
  else mret tt.

(** S3-FIFO access tracking, the block [get], [hget] and [hgetall] share. *)
Definition track_access (i : nat) (key : bytes) (e : Entry) : M unit :=
  if bool_decide (EVICTION_POLICY = AllKeysS3Fifo) then
    match queue_type_from (e_queue_type e) with
    | Small =>
        let count := u8 (access_count e + 1) in
        shard_alter i key (λ e, with_access_count (u8 (access_count e + 1)) e);;
        if 1 <? count then
          with_queues i (λ q, add_to_main key (remove_from_small key q).2);;
          shard_alter i key (with_queue_type (queue_type_u8 Main))
        else mret tt
    | Main => with_queues i (reinsert_main_tail key)
    end
  else mret tt.

(** Removal of a key from the queue its entry names. *)
Definition dequeue (i : nat) (key : bytes) (e : Entry) : M unit :=
  match queue_type_from (e_queue_type e) with
  | Small => with_queues i (λ q, (remove_from_small key q).2)
  | Main => with_queues i (λ q, (remove_from_main key q).2)
  end.

(** Queue placement of a new entry: Main if its hash is in the ghost queue,
    else Small.  Returns [qtype as u8]. *)
Definition enqueue (i : nat) (key : bytes) : M Z :=
  q ← gets (λ c, queues_at c i);
  let h := ahash key in
  if is_in_ghost h q then
    with_queues i (λ q, add_to_main key (remove_from_ghost h q));;
    mret (queue_type_u8 Main)
  else
    with_queues i (add_to_small key);;
    mret (queue_type_u8 Small).

Definition place (i : nat) (key : bytes) : M Z :=
  if bool_decide (EVICTION_POLICY = AllKeysS3Fifo) then enqueue i key else mret 0.

Definition insert_timestamp : M Z :=
  b ← one_in_ten; if (b : bool) then get_uptime_seconds else mret 0.

(** ** String operations *)

Definition set (key value : bytes) (ttl : option Z) (now : Z) : M (option Z) :=
  let expiry := (λ s, u64 (now + s)) <$> ttl in
  i ← hash key;
  timestamp ← insert_timestamp;
  (if bool_decide (EVICTION_POLICY = AllKeysS3Fifo) then
     old ← shard_get i key;
     match old with Some e => dequeue i key e | None => mret tt end
   else mret tt);;
  queue_type ← place i key;
  old ← shard_insert i key (mkEntry (EV_String value) expiry timestamp queue_type 0);
  mret ((λ e, calculate_entry_size (len key) (e_value e)) <$> old).

Definition get_existing_size (key : bytes) (now : Z) : M (option Z) :=
  i ← hash key;
  e ← shard_get i key;
  mret (match e with
        | Some e => if expired now e then None
                    else Some (calculate_entry_size (len key) (e_value e))
        | None => None
        end).

Definition get (key : bytes) (now : Z) : M (option bytes) :=
  i ← hash key;
  e ← shard_get i key;
  match e with
  | Some e =>
      if expired now e then remove_if_expired i key now;; mret None
      else
        maybe_update_access_time i key;;
        track_access i key e;;
        mret (match e_value e with EV_String v => Some v | EV_Hash _ => None end)
  | None => mret None
  end.

Definition key_type (key : bytes) (now : Z) : M string :=
  i ← hash key;
  e ← shard_get i key;
  match e with
  | None => mret "none"%string
  | Some e =>
      if expired now e then remove_if_expired i key now;; mret "none"%string
      else mret (match e_value e with EV_String _ => "string" | EV_Hash _ => "hash" end)%string
  end.

Definition delete_one (now : Z) (count : Z) (key : bytes) : M Z :=
  i ← hash key;
  (if bool_decide (EVICTION_POLICY = AllKeysS3Fifo) then
     e ← shard_get i key;
     match e with Some e => dequeue i key e | None => mret tt end
   else mret tt);;
  removed ← shard_remove i key;
  match removed with
  | Some e =>
      track_sub (calculate_entry_size (len key) (e_value e));;
      mret (if expired now e then count else count + 1)
  | None => mret count
  end.
Definition delete (keys : list bytes) (now : Z) : M Z := mfold (delete_one now) 0 keys.

Definition exists_one (now : Z) (count : Z) (key : bytes) : M Z :=
  i ← hash key;
  e ← shard_get i key;
  mret (match e with
        | Some e => if expired now e then count else count + 1
        | None => count
        end).
Definition exists_ (keys : list bytes) (now : Z) : M Z := mfold (exists_one now) 0 keys.

Definition keys (now : Z) : M (list bytes) :=
  gets (λ c, shards c ≫= λ m, (filter (λ kv, expired now kv.2 = false) (map_iter m)).*1).

Definition store_len : M Z := gets (λ c, zsum (λ m, Z.of_nat (size m)) (shards c)).

Definition is_empty : M bool := gets (λ c, forallb (λ m, bool_decide (m = ∅)) (shards c)).

Definition clear : M unit := modify (λ c, set_shards ((λ _, ∅) <$> shards c) c).

(** ** Hash operations *)

Definition WRONGTYPE : bytes :=
  bs "WRONGTYPE Operation against a key holding the wrong kind of value".

(** The field loop of [hset]: the new map and the number of new fields. *)
Fixpoint insert_fields (fields : list (bytes * bytes)) (h : gmap bytes bytes) (new_count : Z)
    : gmap bytes bytes * Z :=
  match fields with
  | [] => (h, new_count)
  | (field, value) :: fields =>
      insert_fields fields (<[field:=value]> h)
        (match h !! field with None => new_count + 1 | Some _ => new_count end)
  end.

(** The [Vacant] branch of [hset]. *)
Definition hset_vacant (i : nat) (key : bytes) (timestamp : Z) : M unit :=
  queue_type ← place i key;
  shard_insert i key (mkEntry (EV_Hash ∅) None timestamp queue_type 0);;
  mret tt.

(** The [loop] of [hset] up to the map it breaks with: the hash stored under the
    key (empty when just created) and [old_size].  After the [Occupied] branch
    removes an expired entry, [continue] finds the entry vacant. *)
Definition hset_entry (i : nat) (key : bytes) (timestamp now : Z)
    : M (Result (gmap bytes bytes * option Z) bytes) :=
  occ ← shard_get i key;
  match occ with
  | Some e =>
      if expired now e then
        (if bool_decide (EVICTION_POLICY = AllKeysS3Fifo) then dequeue i key e else mret tt);;
        shard_remove i key;;
        track_sub (calculate_entry_size (len key) (e_value e));;
        hset_vacant i key timestamp;;
        mret (Ok (∅, None))
      else
        match e_value e with
        | EV_Hash h => mret (Ok (h, Some (calculate_entry_size (len key) (e_value e))))
        | EV_String _ => mret (Err WRONGTYPE)
        end
  | None => hset_vacant i key timestamp;; mret (Ok (∅, None))
  end.

Definition hset (key : bytes) (fields : list (bytes * bytes)) (now : Z) : M (Result Z bytes) :=
  i ← hash key;
  timestamp ← insert_timestamp;
  r ← hset_entry i key timestamp now;
  match r with
  | Err e => mret (Err e)
  | Ok (h, old_size) =>
      let '(h', new_count) := insert_fields fields h 0 in
      shard_alter i key (with_value (EV_Hash h'));;
      let new_size := calculate_entry_size (len key) (EV_Hash h') in
      match old_size with
      | Some old_sz =>
          if old_sz <=? new_size then track_add (new_size - old_sz)
          else track_sub (old_sz - new_size)
      | None => track_add new_size
      end;;
      mret (Ok new_count)
  end.

Definition hget (key field : bytes) (now : Z) : M (Result (option bytes) bytes) :=
  i ← hash key;
  e ← shard_get i key;
  match e with
  | Some e =>
      if expired now e then remove_if_expired i key now;; mret (Ok None)
      else
        maybe_update_access_time i key;;
        track_access i key e;;
        mret (match e_value e with EV_Hash h => Ok (h !! field) | EV_String _ => Err WRONGTYPE end)
  | None => mret (Ok None)
  end.

Definition hgetall (key : bytes) (now : Z) : M (Result (list bytes) bytes) :=
  i ← hash key;
  e ← shard_get i key;
  match e with
  | Some e =>
      if expired now e then remove_if_expired i key now;; mret (Ok [])
      else
        maybe_update_access_time i key;;
        track_access i key e;;
        mret (match e_value e with
              | EV_Hash h => Ok (concat (map (λ kv, [kv.1; kv.2]) (map_iter h)))
              | EV_String _ => Err WRONGTYPE
              end)
  | None => mret (Ok [])
  end.

(** The field loop of [hdel]. *)
Fixpoint remove_fields (fields : list bytes) (h : gmap bytes bytes) (removed : Z)
    : gmap bytes bytes * Z :=
  match fields with
  | [] => (h, removed)
  | field :: fields =>
      remove_fields fields (base.delete field h)
        (match h !! field with Some _ => removed + 1 | None => removed end)
  end.

Definition is_empty_hash (e : Entry) : bool :=
  match e_value e with EV_Hash h => bool_decide (h = ∅) | EV_String _ => false end.

(** The accounting of [hdel] after the fields are gone. *)
Definition hdel_account (i : nat) (key : bytes) (old_size : Z) (h : gmap bytes bytes) : M unit :=
  if bool_decide (h = ∅) then
    gone ← shard_remove_if i key is_empty_hash;
    match gone with
    | Some e => track_sub (calculate_entry_size (len key) (e_value e))
    | None =>
        let empty_overhead := usize (len key + 64 + 128) in
        if empty_overhead <? old_size then track_sub (old_size - empty_overhead) else mret tt
    end
  else
    let new_size := calculate_entry_size (len key) (EV_Hash h) in
    if new_size <? old_size then track_sub (old_size - new_size) else mret tt.

Definition hdel (key : bytes) (fields : list bytes) (now : Z) : M (Result Z bytes) :=
  i ← hash key;
  e ← shard_get i key;
  match e with
  | Some e =>
      if expired now e then remove_if_expired i key now;; mret (Ok 0)
      else
        match e_value e with
        | EV_Hash h =>
            let old_size := calculate_entry_size (len key) (e_value e) in
            let '(h', removed) := remove_fields fields h 0 in
            shard_alter i key (with_value (EV_Hash h'));;
            (if 0 <? removed then hdel_account i key old_size h' else mret tt);;
            mret (Ok removed)
        | EV_String _ => mret (Err WRONGTYPE)
        end
  | None => mret (Ok 0)
  end.

End Store.
