(* ===== verification/Steps.v ===== *)
(** * Reasoning about store operations

    A weakest-precondition calculus for the state monad, and the one relation
    all theorems about single-key operations are stated with: [Step k o d c c']
    says that going from [c] to [c'] the entry stored under [k] becomes [o], no
    other entry changes, [MEMORY_USED] moves by [d] (when memory is tracked) and
    the S3-FIFO queues keep their invariant. *)

From S2P Require Import Prelude Config S3Fifo State Store.

(** ** Weakest preconditions *)

Definition wp {A} (m : M A) (Q : A → Core → Prop) (c : Core) : Prop := Q (m c).1 (m c).2.

Lemma wp_ret {A} (a : A) Q c : Q a c → wp (mret a) Q c.
Proof. done. Qed.

Lemma wp_gets {A} (f : Core → A) Q c : Q (f c) c → wp (gets f) Q c.
Proof. done. Qed.

Lemma wp_modify f (Q : unit → Core → Prop) c : Q tt (f c) → wp (modify f) Q c.
Proof. done. Qed.

Lemma wp_bind {A B} (m : M A) (f : A → M B) Q c :
  wp m (λ a c', wp (f a) Q c') c → wp (x ← m; f x) Q c.
Proof. done. Qed.

Lemma wp_assoc {A B C} (m : M A) (f : A → M B) (g : B → M C) Q c :
  wp (x ← m; f x) (λ b c', wp (g b) Q c') c → wp (x ← m; y ← f x; g y) Q c.
Proof. done. Qed.

Lemma wp_mono {A} (m : M A) (P Q : A → Core → Prop) c :
  wp m P c → (∀ a c', P a c' → Q a c') → wp m Q c.
Proof. unfold wp. auto. Qed.

Lemma wp_run {A} (m : M A) Q c : wp m Q c → Q (m c).1 (m c).2.
Proof. done. Qed.

(** Loop invariants of [for] loops. *)
Lemma wp_mfold {A B} (I : Core → Prop) (f : B → A → M B) b l c :
  (∀ b x c, I c → wp (f b x) (λ _, I) c) → I c → wp (mfold f b l) (λ _, I) c.
Proof.
  intros Hf. revert b c. induction l as [|x l IH]; intros b c Hc; [done|].
  cbn [mfold]. apply wp_bind. eapply wp_mono; [by apply Hf|]. auto.
Qed.

(** Bind a call whose specification is [lem]. *)
Tactic Notation "wp_call" uconstr(lem) "as" simple_intropattern(a) simple_intropattern(c)
    simple_intropattern(H) :=
  apply wp_bind; eapply wp_mono; [eapply lem|intros a c; cbv beta; intros H].

Section Steps.
Context {P : Platform} {CFG : HasConfig}.

(** ** Contents *)

Definition shard_of (c : Core) (k : bytes) : nat := shard_index (num_shards c) k.
Definition lookup_entry (c : Core) (k : bytes) : option Entry := shard_at c (shard_of c k) !! k.

(** The store has a shard for every hash value, and a key sits in its own shard. *)
Record core_wf (c : Core) : Prop := {
  wf_pos : 0 < num_shards c;
  wf_shards : length (shards c) = Z.to_nat (num_shards c);
  wf_queues : length (s3fifo_queues c) = Z.to_nat (num_shards c);
  wf_placed i m k : shards c !! i = Some m → is_Some (m !! k) → shard_of c k = i;
  wf_fifo : Forall queues_ok (s3fifo_queues c);
  wf_memory : is_u64 (MEMORY_USED c)
}.

(** Write [o] under [k]. *)
Definition store_entry (k : bytes) (o : option Entry) (n : Z) (s : list Shard) : list Shard :=
  alter (partial_alter (λ _, o) k) (shard_index n k) s.

Record Step (k : bytes) (o : option Entry) (d : Z) (c c' : Core) : Prop := {
  step_num : num_shards c' = num_shards c;
  step_shards : shards c' = store_entry k o (num_shards c) (shards c);
  step_memory : tracks_memory = true → u64 (MEMORY_USED c') = u64 (MEMORY_USED c + d);
  step_qlen : length (s3fifo_queues c') = length (s3fifo_queues c);
  step_fifo : Forall queues_ok (s3fifo_queues c) → Forall queues_ok (s3fifo_queues c');
  step_u64 : is_u64 (MEMORY_USED c) → is_u64 (MEMORY_USED c')
}.

Lemma shard_of_lt c k : core_wf c → (shard_of c k < length (shards c))%nat.
Proof.
  intros [Hpos Hlen _ _ _ _]. rewrite Hlen. unfold shard_of, shard_index.
  pose proof (Z.mod_pos_bound (ahash k) (num_shards c) Hpos). lia.
Qed.

Lemma shards_lookup c k : core_wf c → shards c !! shard_of c k = Some (shard_at c (shard_of c k)).
Proof.
  intros Hwf. destruct (lookup_lt_is_Some_2 _ _ (shard_of_lt c k Hwf)) as [m Hm].
  unfold shard_at. by rewrite Hm.
Qed.

Lemma shard_at_store_entry c c' k o i :
  core_wf c → num_shards c' = num_shards c →
  shards c' = store_entry k o (num_shards c) (shards c) →
  shard_at c' i = if decide (i = shard_of c k)
                  then partial_alter (λ _, o) k (shard_at c i) else shard_at c i.
Proof.
  intros Hwf Hn Hs. unfold shard_at. rewrite Hs. unfold store_entry.
  fold (shard_of c k). destruct (decide (i = shard_of c k)) as [->|Hne].
  - by rewrite list_lookup_alter_eq, (shards_lookup c k Hwf).
  - by rewrite list_lookup_alter_ne.
Qed.

(** The two lookup laws of a step. *)
Lemma Step_lookup k o d c c' : core_wf c → Step k o d c c' → lookup_entry c' k = o.
Proof.
  intros Hwf [Hn Hs _ _ _ _]. unfold lookup_entry.
  rewrite (shard_at_store_entry c c' k o) by done.
  unfold shard_of. rewrite Hn. rewrite decide_True by done.
  apply lookup_partial_alter_eq.
Qed.

Lemma Step_lookup_ne k o d c c' k' :
  core_wf c → Step k o d c c' → k' ≠ k → lookup_entry c' k' = lookup_entry c k'.
Proof.
  intros Hwf [Hn Hs _ _ _ _] Hne. unfold lookup_entry.
  rewrite (shard_at_store_entry c c' k o) by done.
  unfold shard_of. rewrite Hn. case_decide; [|done]. by rewrite lookup_partial_alter_ne.
Qed.

Lemma Step_wf k o d c c' : core_wf c → Step k o d c c' → core_wf c'.
Proof.
  intros Hwf [Hn Hs Hm Hq Hf Hu]. destruct Hwf as [Hpos Hlen Hql Hpl Hfi Hmu]. split.
  - by rewrite Hn.
  - rewrite Hs, Hn. unfold store_entry. by rewrite length_alter.
  - by rewrite Hq, Hn.
  - intros i m k'. rewrite Hs. unfold store_entry, shard_of. rewrite Hn.
    destruct (decide (i = shard_index (num_shards c) k)) as [->|Hi].
    + rewrite list_lookup_alter_eq. intros (m0 & Hm0 & ->)%fmap_Some_1 Hk.
      destruct (decide (k' = k)) as [->|Hk']; [done|].
      rewrite lookup_partial_alter_ne in Hk by done. by eapply (Hpl _ m0).
    + rewrite list_lookup_alter_ne by done. by apply (Hpl i m k').
  - auto.
  - auto.
Qed.

(** ** Composition *)

Lemma store_entry_id c k :
  core_wf c → store_entry k (lookup_entry c k) (num_shards c) (shards c) = shards c.
Proof.
  intros Hwf. unfold store_entry. apply list_eq. intros i. fold (shard_of c k).
  destruct (decide (i = shard_of c k)) as [->|Hi].
  - rewrite list_lookup_alter_eq, (shards_lookup c k Hwf). simpl.
    f_equal. apply partial_alter_self.
  - by rewrite list_lookup_alter_ne.
Qed.

Lemma store_entry_twice k o o' n s :
  store_entry k o' n (store_entry k o n s) = store_entry k o' n s.
Proof.
  unfold store_entry. rewrite list_alter_alter_eq. apply list_alter_ext; [|done].
  intros m _. simpl. apply map_eq. intros k'. destruct (decide (k' = k)) as [->|Hne].
  - by rewrite !lookup_partial_alter_eq.
  - by rewrite !lookup_partial_alter_ne.
Qed.

Lemma Step_trans k o o' d d' c c1 c2 :
  Step k o d c c1 → Step k o' d' c1 c2 → Step k o' (d + d') c c2.
Proof.
  intros [Hn Hs Hm Hq Hf Hu] [Hn' Hs' Hm' Hq' Hf' Hu']. split.
  - congruence.
  - rewrite Hs', Hs, Hn. apply store_entry_twice.
  - intros Ht. rewrite (Hm' Ht), <- u64_u64_add_l, (Hm Ht), u64_u64_add_l. f_equal. lia.
  - congruence.
  - auto.
  - auto.
Qed.

(** A step that touches no entry. *)
Lemma Step_same k c c' d :
  core_wf c → num_shards c' = num_shards c → shards c' = shards c →
  u64 (MEMORY_USED c') = u64 (MEMORY_USED c + d) →
  length (s3fifo_queues c') = length (s3fifo_queues c) →
  (Forall queues_ok (s3fifo_queues c) → Forall queues_ok (s3fifo_queues c')) →
  (is_u64 (MEMORY_USED c) → is_u64 (MEMORY_USED c')) →
  Step k (lookup_entry c k) d c c'.
Proof.
  intros Hwf Hn Hs Hm Hq Hf Hu. split; try done. by rewrite store_entry_id.
Qed.

Lemma Step_refl k c : core_wf c → Step k (lookup_entry c k) 0 c c.
Proof. intros. apply Step_same; try done. by rewrite Z.add_0_r. Qed.

(** ** Actions that leave the store alone *)

Definition quiet {A} (m : M A) : Prop :=
  ∀ c, shards (m c).2 = shards c ∧ s3fifo_queues (m c).2 = s3fifo_queues c ∧
       num_shards (m c).2 = num_shards c ∧ MEMORY_USED (m c).2 = MEMORY_USED c.

Lemma quiet_ret {A} (a : A) : quiet (mret a).
Proof. done. Qed.

Lemma quiet_bind {A B} (m : M A) (f : A → M B) :
  quiet m → (∀ a, quiet (f a)) → quiet (x ← m; f x).
Proof.
  intros Hm Hf c. destruct (Hm c) as (? & ? & ? & ?).
  destruct (Hf (m c).1 (m c).2) as (? & ? & ? & ?). unfold mbind, M_bind. cbv zeta beta.
  split_and!; congruence.
Qed.

Lemma quiet_get_timestamp : quiet get_timestamp.
Proof. done. Qed.

Lemma quiet_get_uptime_seconds : quiet get_uptime_seconds.
Proof.
  intros [? ? ? ? ? [s|] ?]; repeat split.
Qed.

Lemma quiet_one_in_ten : quiet one_in_ten.
Proof. done. Qed.

Lemma quiet_insert_timestamp : quiet insert_timestamp.
Proof.
  apply quiet_bind; [apply quiet_one_in_ten|].
  intros []; [apply quiet_get_uptime_seconds|apply quiet_ret].
Qed.

(** ** Specifications of the building blocks

    Each says how the block extends a step that began at [c0]. *)

Section Blocks.
Context (c0 : Core) (k : bytes) (Hwf : core_wf c0).

Lemma Step_shard_of d o c k' : Step k o d c0 c → shard_of c k' = shard_of c0 k'.
Proof. intros HS. unfold shard_of. by rewrite (step_num _ _ _ _ _ HS). Qed.

Lemma Step_shard_at d o c : Step k o d c0 c → shard_at c (shard_of c0 k) !! k = o.
Proof.
  intros HS. rewrite <- (Step_shard_of _ _ _ k HS).
  apply (Step_lookup k o d c0 c Hwf HS).
Qed.

(** Rewriting the shard of [k]. *)
Lemma Step_put_shard d o o' c m :
  Step k o d c0 c → m = partial_alter (λ _, o') k (shard_at c (shard_of c0 k)) →
  Step k o' d c0 (put_shard (shard_of c0 k) m c).
Proof.
  intros HS ->. pose proof (Step_wf _ _ _ _ _ Hwf HS) as Hwf'.
  destruct HS as [Hn Hs Hm Hq Hf Hu]. split; simpl; try done.
  rewrite <- (store_entry_twice k o o' (num_shards c0) (shards c0)), <- Hs.
  unfold store_entry. fold (shard_of c0 k).
  apply list_eq. intros j. destruct (decide (j = shard_of c0 k)) as [->|Hj].
  - assert (shard_of c k = shard_of c0 k) as He by (unfold shard_of; congruence).
    rewrite list_lookup_alter_eq, <- He, (shards_lookup c k Hwf'). simpl.
    apply list_lookup_insert_eq. by apply shard_of_lt.
  - by rewrite list_lookup_insert_ne, list_lookup_alter_ne.
Qed.

Lemma wp_hash o d c :
  Step k o d c0 c → wp (hash k) (λ i c', i = shard_of c0 k ∧ Step k o d c0 c') c.
Proof. intros HS. apply wp_gets. split; [apply (Step_shard_of _ _ _ k HS)|done]. Qed.

Lemma wp_shard_get o d c :
  Step k o d c0 c → wp (shard_get (shard_of c0 k) k) (λ e c', e = o ∧ Step k o d c0 c') c.
Proof. intros HS. apply wp_gets. split; [by apply Step_shard_at with d|done]. Qed.

Lemma wp_shard_insert e o d c :
  Step k o d c0 c →
  wp (shard_insert (shard_of c0 k) k e) (λ old c', old = o ∧ Step k (Some e) d c0 c') c.
Proof.
  intros HS. unfold shard_insert. wp_call (wp_shard_get o d) as ? c1 (-> & HS1); [done|].
  apply wp_bind, wp_modify, wp_ret. split; [done|].
  by apply Step_put_shard with (o := o).
Qed.

Lemma wp_shard_alter f o d c :
  Step k o d c0 c →
  wp (shard_alter (shard_of c0 k) k f) (λ _ c', Step k (f <$> o) d c0 c') c.
Proof.
  intros HS. unfold shard_alter. apply wp_modify. apply Step_put_shard with (o := o); [done|].
  unfold alter, map_alter. apply partial_alter_ext. intros x Hx.
  by rewrite <- (Step_shard_at _ _ _ HS), Hx.
Qed.

Lemma wp_shard_remove_if p o d c :
  Step k o d c0 c →
  wp (shard_remove_if (shard_of c0 k) k p)
    (λ r c', match o with
             | Some e => if p e : bool then r = Some e ∧ Step k None d c0 c'
                         else r = None ∧ Step k o d c0 c'
             | None => r = None ∧ Step k o d c0 c'
             end) c.
Proof.
  intros HS. unfold shard_remove_if. wp_call (wp_shard_get o d) as ? c1 (-> & HS1); [done|].
  destruct o as [e|]; [|by apply wp_ret]. destruct (p e); [|by apply wp_ret].
  apply wp_bind, wp_modify, wp_ret. split; [done|].
  by apply Step_put_shard with (o := Some e).
Qed.

Lemma wp_track_sub n o d c :
  Step k o d c0 c → wp (track_sub n) (λ _ c', Step k o (d - n) c0 c') c.
Proof.
  intros [Hn Hs Hm Hq Hf Hu]. unfold track_sub. destruct tracks_memory eqn:Ht.
  - apply wp_modify. split; simpl; try done; [|intros; apply u64_range]. intros _.
    rewrite u64_u64, <- u64_u64_sub_l, (Hm eq_refl), u64_u64_sub_l. f_equal. lia.
  - apply wp_ret. split; try done. congruence.
Qed.

Lemma wp_track_add n o d c :
  Step k o d c0 c → wp (track_add n) (λ _ c', Step k o (d + n) c0 c') c.
Proof.
  intros [Hn Hs Hm Hq Hf Hu]. unfold track_add. destruct tracks_memory eqn:Ht.
  - apply wp_modify. split; simpl; try done; [|intros; apply u64_range]. intros _.
    rewrite u64_u64, <- u64_u64_add_l, (Hm eq_refl), u64_u64_add_l. f_equal. lia.
  - apply wp_ret. split; try done. congruence.
Qed.

Lemma wp_with_queues i f o d c :
  (∀ q, queues_ok q → queues_ok (f q)) →
  Step k o d c0 c → wp (with_queues i f) (λ _ c', Step k o d c0 c') c.
Proof.
  intros Hok [Hn Hs Hm Hq Hf Hu]. apply wp_modify. split; simpl; try done.
  - by rewrite length_insert.
  - intros HF. specialize (Hf HF). destruct (decide (i < length (s3fifo_queues c)))%nat as [Hi|Hi].
    + apply Forall_insert; [done|]. apply Hok. unfold queues_at.
      destruct (lookup_lt_is_Some_2 _ _ Hi) as [q Hq']. rewrite Hq'. simpl.
      by apply (Forall_lookup_1 _ _ _ _ Hf Hq').
    + by rewrite list_insert_ge by lia.
Qed.

Lemma wp_quiet {A} (m : M A) o d c :
  quiet m → Step k o d c0 c → wp m (λ _ c', Step k o d c0 c') c.
Proof.
  intros Hm [Hn Hs Hme Hq Hf Hu]. destruct (Hm c) as (Es & Eq & En & Em).
  unfold wp. split; rewrite ?Es, ?Eq, ?En, ?Em; done.
Qed.

End Blocks.

End Steps.
