(* ===== verification/StoreOps.v ===== *)
(** * What each store operation does

    For every single-key operation of Store.v, one specification lemma: its
    result, the entry it leaves under the key, and the change of [MEMORY_USED],
    as a [Step].  The theorems of StoreSpec.v and Memory.v follow from these. *)

From S2P Require Import Prelude Config S3Fifo State Store Steps.

(** ** Entries up to access bookkeeping *)

Definition same_data (e e' : Entry) : Prop := e_value e' = e_value e ∧ e_expiry e' = e_expiry e.

Definition esize (k : bytes) (o : option Entry) : Z :=
  match o with Some e => calculate_entry_size (len k) (e_value e) | None => 0 end.

(** What a read leaves: an expired entry is dropped, a live one keeps its data. *)
Definition refreshed (now : Z) (o o' : option Entry) : Prop :=
  match o with
  | Some e => if expired now e then o' = None else ∃ e', o' = Some e' ∧ same_data e e'
  | None => o' = None
  end.

(** The entry a client can see at time [now]. *)
Definition unexpired (now : Z) (o : option Entry) : option Entry :=
  match o with Some e => if expired now e then None else Some e | None => None end.

Lemma same_data_refl e : same_data e e.
Proof. done. Qed.

Lemma same_data_trans e1 e2 e3 : same_data e1 e2 → same_data e2 e3 → same_data e1 e3.
Proof. unfold same_data. intuition congruence. Qed.

#[export] Hint Resolve same_data_refl same_data_trans : redistill.

(** ** Field updates *)

(** Later pairs win over earlier ones and over the old contents. *)
Definition put_fields (fields : list (bytes * bytes)) (h : gmap bytes bytes) : gmap bytes bytes :=
  list_to_map (reverse fields) ∪ h.

Definition drop_fields (fields : list bytes) (h : gmap bytes bytes) : gmap bytes bytes :=
  filter (λ kv, kv.1 ∉ fields) h.

Definition zsize (h : gmap bytes bytes) : Z := Z.of_nat (size h).

Lemma put_fields_cons f v fields h :
  put_fields ((f, v) :: fields) h = put_fields fields (<[f:=v]> h).
Proof.
  unfold put_fields. rewrite reverse_cons, list_to_map_app. cbn.
  rewrite <- (assoc_L (∪)). f_equal. rewrite <- insert_union_l, (left_id_L ∅ (∪)). done.
Qed.

Lemma insert_fields_spec fields h n :
  insert_fields fields h n = (put_fields fields h, n + (zsize (put_fields fields h) - zsize h)).
Proof.
  revert h n. induction fields as [|[f v] fields IH]; intros h n.
  - unfold put_fields. cbn. rewrite (left_id_L ∅ (∪)). f_equal. lia.
  - cbn [insert_fields]. rewrite IH, put_fields_cons. f_equal.
    assert (zsize (<[f:=v]> h) = zsize h + match h !! f with None => 1 | Some _ => 0 end) as ->.
    { unfold zsize. destruct (h !! f) eqn:Hf.
      - rewrite map_size_insert_Some by eauto. lia.
      - rewrite map_size_insert_None by done. lia. }
    destruct (h !! f); lia.
Qed.

Lemma drop_fields_nil h : drop_fields [] h = h.
Proof. unfold drop_fields. apply map_filter_id. set_solver. Qed.

Lemma drop_fields_cons f fields h :
  drop_fields (f :: fields) h = drop_fields fields (base.delete f h).
Proof.
  apply map_eq. intros k. apply option_eq. intros v. unfold drop_fields.
  rewrite !map_lookup_filter_Some, lookup_delete_Some. set_solver.
Qed.

Lemma remove_fields_spec fields h n :
  remove_fields fields h n =
    (drop_fields fields h, n + (zsize h - zsize (drop_fields fields h))).
Proof.
  revert h n. induction fields as [|f fields IH]; intros h n.
  - cbn. rewrite drop_fields_nil. f_equal. lia.
  - cbn [remove_fields]. rewrite IH, drop_fields_cons. f_equal.
    assert (zsize (base.delete f h) = zsize h - match h !! f with Some _ => 1 | None => 0 end) as ->.
    { unfold zsize. destruct (h !! f) eqn:Hf.
      - assert (h ≠ ∅) by (intros ->; by rewrite lookup_empty in Hf).
        assert (size h ≠ 0%nat) by (by rewrite map_size_empty_iff).
        rewrite map_size_delete_Some by eauto. lia.
      - rewrite delete_id by done. lia. }
    destruct (h !! f); lia.
Qed.

Lemma drop_fields_bytes fields h :
  map_sum field_bytes (drop_fields fields h) ≤ map_sum field_bytes h.
Proof.
  revert h. induction fields as [|f fields IH]; intros h.
  - by rewrite drop_fields_nil.
  - rewrite drop_fields_cons. etrans; [apply IH|]. rewrite map_sum_delete.
    destruct (h !! f) as [v|]; simpl; unfold field_bytes, len; lia.
Qed.

Section Ops.
Context {P : Platform} {CFG : HasConfig}.

(** A step whose memory accounting is exact. *)
Definition Accounted (k : bytes) (o : option Entry) (c c' : Core) : Prop :=
  Step k o (esize k o - esize k (lookup_entry c k)) c c'.

Lemma Step_delta k o d d' c c' : Step k o d c c' → d = d' → Step k o d' c c'.
Proof. by intros HS ->. Qed.

Section At.
Context (c0 : Core) (k : bytes) (Hwf : core_wf c0).

Lemma wp_remove_if_expired now o d c :
  Step k o d c0 c →
  wp (remove_if_expired (shard_of c0 k) k now)
    (λ _ c', match o with
             | Some e => if expired now e then Step k None (d - esize k o) c0 c'
                         else Step k o d c0 c'
             | None => Step k o d c0 c'
             end) c.
Proof.
  intros HS. unfold remove_if_expired.
  wp_call (wp_shard_remove_if c0 k Hwf _ _ _ _ HS) as r c1 HS1.
  destruct o as [e|]; [destruct (expired now e)|]; destruct HS1 as [-> HS1];
    [|by apply wp_ret..].
  wp_call (wp_track_sub c0 k _ _ _ _ HS1) as [] c2 HS2. by apply wp_ret.
Qed.

Lemma wp_maybe_update_access_time e d c :
  Step k (Some e) d c0 c →
  wp (maybe_update_access_time (shard_of c0 k) k)
    (λ _ c', ∃ e', same_data e e' ∧ Step k (Some e') d c0 c') c.
Proof.
  intros HS. unfold maybe_update_access_time.
  wp_call (wp_quiet c0 k _ _ _ _ quiet_one_in_ten HS) as [] c1 HS1.
  - wp_call (wp_quiet c0 k _ _ _ _ quiet_get_uptime_seconds HS1) as t c2 HS2.
    eapply wp_mono; [apply (wp_shard_alter c0 k Hwf _ _ _ _ HS2)|].
    intros [] c3 HS3. eexists. split; [|apply HS3]. done.
  - apply wp_ret. eauto with redistill.
Qed.

Lemma wp_track_access e e0 d c :
  Step k (Some e) d c0 c →
  wp (track_access (shard_of c0 k) k e0)
    (λ _ c', ∃ e', same_data e e' ∧ Step k (Some e') d c0 c') c.
Proof.
  intros HS. unfold track_access. case_bool_decide; [|apply wp_ret; eauto with redistill].
  destruct (queue_type_from _).
  - wp_call (wp_shard_alter c0 k Hwf _ _ _ _ HS) as [] c1 HS1. destruct (1 <? _).
    + eapply wp_bind, wp_mono; [eapply (wp_with_queues c0 k); [|apply HS1]; auto with redistill|].
      intros [] c2 HS2. eapply wp_mono; [apply (wp_shard_alter c0 k Hwf _ _ _ _ HS2)|].
      intros [] c3 HS3. eexists. split; [|apply HS3]. done.
    + apply wp_ret. eexists. split; [|apply HS1]. done.
  - eapply wp_mono; [eapply (wp_with_queues c0 k); [|apply HS]; auto with redistill|].
    eauto with redistill.
Qed.

Lemma wp_dequeue i e o d c :
  Step k o d c0 c → wp (dequeue i k e) (λ _ c', Step k o d c0 c') c.
Proof.
  intros HS. unfold dequeue.
  destruct (queue_type_from _); eapply (wp_with_queues c0 k); auto with redistill.
Qed.

Lemma wp_place i o d c :
  Step k o d c0 c → wp (place i k) (λ _ c', Step k o d c0 c') c.
Proof.
  intros HS. unfold place, enqueue. case_bool_decide; [|by apply wp_ret].
  apply wp_bind, wp_gets. destruct (is_in_ghost _ _);
    (eapply wp_bind, wp_mono; [eapply (wp_with_queues c0 k); [|apply HS]; auto with redistill|]);
    intros [] c1 HS1; by apply wp_ret.
Qed.

(** Every operation begins by finding the entry. *)
Lemma wp_find {A} (f : nat → option Entry → M A) Q :
  wp (f (shard_of c0 k) (lookup_entry c0 k)) Q c0 →
  wp (i ← hash k; e ← shard_get i k; f i e) Q c0.
Proof. done. Qed.

Lemma esize_same_data e e' : same_data e e' → esize k (Some e') = esize k (Some e).
Proof. intros [Hv _]. simpl. by rewrite Hv. Qed.

Lemma Accounted_same o' c' :
  lookup_entry c0 k = o' → Step k o' 0 c0 c' → Accounted k o' c0 c'.
Proof. intros <- HS. eapply Step_delta; [done|lia]. Qed.

Lemma Accounted_data e e' c' :
  lookup_entry c0 k = Some e → same_data e e' → Step k (Some e') 0 c0 c' →
  Accounted k (Some e') c0 c'.
Proof.
  intros He Hd HS. eapply Step_delta; [done|]. rewrite He, (esize_same_data _ _ Hd). lia.
Qed.

(** The reads: [dead] when the key is absent or expired, [val] of the value
    otherwise. *)
Definition read_reply {A} (now : Z) (dead : A) (val : EntryValue → A) : A :=
  match unexpired now (lookup_entry c0 k) with Some e => val (e_value e) | None => dead end.

Lemma wp_expire_or {A} now (dead : A) (m : Entry → M A) Q :
  (∀ c', Accounted k None c0 c' → unexpired now (lookup_entry c0 k) = None → Q dead c') →
  (∀ e, lookup_entry c0 k = Some e → expired now e = false → wp (m e) Q c0) →
  wp (match lookup_entry c0 k with
      | Some e => if expired now e
                  then remove_if_expired (shard_of c0 k) k now;; mret dead else m e
      | None => mret dead
      end) Q c0.
Proof.
  intros Hdead Hlive. pose proof (Step_refl k c0 Hwf) as HS.
  destruct (lookup_entry c0 k) as [e|] eqn:He.
  - destruct (expired now e) eqn:Hx; [|by apply Hlive].
    wp_call (wp_remove_if_expired now _ _ _ HS) as ? c1 HS1. rewrite Hx in HS1.
    apply wp_ret, Hdead; [|simpl; by rewrite Hx]. eapply Step_delta; [done|]. rewrite He. done.
  - apply wp_ret, Hdead; [|done]. apply Accounted_same; [done|]. done.
Qed.

Lemma wp_read {A} now (dead : A) (val : EntryValue → A) :
  wp (match lookup_entry c0 k with
      | Some e => if expired now e
                  then remove_if_expired (shard_of c0 k) k now;; mret dead
                  else maybe_update_access_time (shard_of c0 k) k;;
                       track_access (shard_of c0 k) k e;; mret (val (e_value e))
      | None => mret dead
      end)
    (λ r c', r = read_reply now dead val ∧
             ∃ o', refreshed now (lookup_entry c0 k) o' ∧ Accounted k o' c0 c') c0.
Proof.
  apply wp_expire_or.
  - intros c' Ha Hu. unfold read_reply. rewrite Hu. split; [done|]. exists None. split; [|done].
    unfold refreshed. destruct (lookup_entry c0 k) as [e|]; [|done]. simpl in Hu.
    by destruct (expired now e).
  - intros e He Hx. pose proof (Step_refl k c0 Hwf) as HS. rewrite He in HS.
    wp_call (wp_maybe_update_access_time _ _ _ HS) as [] c1 (e1 & Hd1 & HS1).
    wp_call (wp_track_access _ e _ _ HS1) as [] c2 (e2 & Hd2 & HS2).
    apply wp_ret. unfold read_reply. rewrite He. simpl. rewrite Hx. split; [done|].
    exists (Some e2). split; [eauto with redistill|].
    eapply Accounted_data; eauto with redistill.
Qed.

(** ** The operations *)

Definition string_reply (v : EntryValue) : option bytes :=
  match v with EV_String b => Some b | EV_Hash _ => None end.
Definition type_reply (v : EntryValue) : string :=
  match v with EV_String _ => "string" | EV_Hash _ => "hash" end.
Definition field_reply (field : bytes) (v : EntryValue) : Result (option bytes) bytes :=
  match v with EV_Hash h => Ok (h !! field) | EV_String _ => Err WRONGTYPE end.
Definition fields_reply (v : EntryValue) : Result (list bytes) bytes :=
  match v with
  | EV_Hash h => Ok (concat (map (λ kv, [kv.1; kv.2]) (map_iter h)))
  | EV_String _ => Err WRONGTYPE
  end.

Lemma wp_get now :
  wp (get k now)
    (λ r c', r = read_reply now None string_reply ∧
             ∃ o', refreshed now (lookup_entry c0 k) o' ∧ Accounted k o' c0 c') c0.
Proof. apply (wp_find (λ i e, _)), (wp_read now None string_reply). Qed.

Lemma wp_hget field now :
  wp (hget k field now)
    (λ r c', r = read_reply now (Ok None) (field_reply field) ∧
             ∃ o', refreshed now (lookup_entry c0 k) o' ∧ Accounted k o' c0 c') c0.
Proof. apply (wp_find (λ i e, _)), (wp_read now (Ok None) (field_reply field)). Qed.

Lemma wp_hgetall now :
  wp (hgetall k now)
    (λ r c', r = read_reply now (Ok []) fields_reply ∧
             ∃ o', refreshed now (lookup_entry c0 k) o' ∧ Accounted k o' c0 c') c0.
Proof. apply (wp_find (λ i e, _)), (wp_read now (Ok []) fields_reply). Qed.

Lemma wp_key_type now :
  wp (key_type k now)
    (λ r c', r = read_reply now "none"%string type_reply ∧
             ∃ o', refreshed now (lookup_entry c0 k) o' ∧ Accounted k o' c0 c') c0.
Proof.
  apply (wp_find (λ i e, _)). unfold read_reply.
  apply (wp_expire_or now "none"%string (λ e, mret (type_reply (e_value e)))).
  - intros c' Ha Hu. rewrite Hu.
    split; [reflexivity|]. exists None. split; [|done].
    unfold refreshed. destruct (lookup_entry c0 k) as [e|]; [|done]. simpl in Hu.
    by destruct (expired now e).
  - intros e He Hx. apply wp_ret. rewrite He. simpl. rewrite Hx. split; [done|].
    exists (Some e). split; [eauto with redistill|]. apply Accounted_same; [done|].
    rewrite <- He. by apply Step_refl.
Qed.

(** The entry a write or a removal replaces leaves its queue. *)
Lemma wp_dequeue_old c :
  Step k (lookup_entry c0 k) 0 c0 c →
  wp (if bool_decide (EVICTION_POLICY = AllKeysS3Fifo) then
        old ← shard_get (shard_of c0 k) k;
        match old with Some e => dequeue (shard_of c0 k) k e | None => mret tt end
      else mret tt)
    (λ _ c', Step k (lookup_entry c0 k) 0 c0 c') c.
Proof.
  intros HS. case_bool_decide; [|by apply wp_ret].
  wp_call (wp_shard_get c0 k Hwf _ _ _ HS) as o c1 (-> & HS1).
  destruct (lookup_entry c0 k); [by apply wp_dequeue|by apply wp_ret].
Qed.

Lemma wp_set value ttl now :
  wp (set k value ttl now)
    (λ r c', r = (λ e, calculate_entry_size (len k) (e_value e)) <$> lookup_entry c0 k ∧
             ∃ e, e_value e = EV_String value ∧ e_expiry e = (λ s, u64 (now + s)) <$> ttl ∧
                  Step k (Some e) 0 c0 c') c0.
Proof.
  unfold set. pose proof (Step_refl k c0 Hwf) as HS.
  wp_call (wp_hash c0 k _ _ _ HS) as i c1 (-> & HS1).
  wp_call (wp_quiet c0 k _ _ _ _ quiet_insert_timestamp HS1) as t c2 HS2.
  wp_call (wp_dequeue_old _ HS2) as [] c3 HS3. wp_call (wp_place _ _ _ _ HS3) as q c4 HS4.
  wp_call (wp_shard_insert c0 k Hwf _ _ _ _ HS4) as old c5 (-> & HS5).
  apply wp_ret. split; [done|]. eexists. split_and!; [..|exact HS5]; done.
Qed.

Lemma wp_delete_one now count :
  wp (delete_one now count k)
    (λ r c', r = (match unexpired now (lookup_entry c0 k) with
                  | Some _ => count + 1 | None => count end) ∧
             Accounted k None c0 c') c0.
Proof.
  unfold delete_one. pose proof (Step_refl k c0 Hwf) as HS.
  wp_call (wp_hash c0 k _ _ _ HS) as i c1 (-> & HS1).
  wp_call (wp_dequeue_old _ HS1) as [] c3 HS3. unfold shard_remove.
  wp_call (wp_shard_remove_if c0 k Hwf _ _ _ _ HS3) as r c4 HS4.
  destruct (lookup_entry c0 k) as [e|] eqn:He; destruct HS4 as [-> HS4].
  - wp_call (wp_track_sub c0 k _ _ _ _ HS4) as [] c5 HS5. apply wp_ret. simpl.
    split; [by destruct (expired now e)|]. eapply Step_delta; [done|]. rewrite He. done.
  - apply wp_ret. split; [done|]. by apply Accounted_same.
Qed.

Lemma wp_exists_one now count :
  wp (exists_one now count k)
    (λ r c', r = (match unexpired now (lookup_entry c0 k) with
                  | Some _ => count + 1 | None => count end) ∧ c' = c0) c0.
Proof.
  apply (wp_find (λ i e, _)), wp_ret. split; [|done].
  destruct (lookup_entry c0 k) as [e|]; [|done]. simpl. by destruct (expired now e).
Qed.

Lemma wp_get_existing_size now :
  wp (get_existing_size k now)
    (λ r c', r = (λ e, esize k (Some e)) <$> unexpired now (lookup_entry c0 k) ∧ c' = c0) c0.
Proof.
  apply (wp_find (λ i e, _)), wp_ret. split; [|done].
  destruct (lookup_entry c0 k) as [e|]; [|done]. simpl. by destruct (expired now e).
Qed.

(** What [HSET] leaves, and its reply. *)
Definition hset_post (fields : list (bytes * bytes)) (now : Z) (r : Result Z bytes)
    (o' : option Entry) : Prop :=
  match unexpired now (lookup_entry c0 k) with
  | Some e =>
      match e_value e with
      | EV_Hash h =>
          let h' := put_fields fields h in
          r = Ok (zsize h' - zsize h) ∧ o' = Some (with_value (EV_Hash h') e)
      | EV_String _ => r = Err WRONGTYPE ∧ o' = Some e
      end
  | None =>
      let h' := put_fields fields ∅ in
      r = Ok (zsize h') ∧ ∃ e', o' = Some e' ∧ e_value e' = EV_Hash h' ∧ e_expiry e' = None
  end.

Lemma wp_hset_vacant t o d c :
  Step k o d c0 c →
  wp (hset_vacant (shard_of c0 k) k t)
    (λ _ c', ∃ q, Step k (Some (mkEntry (EV_Hash ∅) None t q 0)) d c0 c') c.
Proof.
  intros HS. unfold hset_vacant. wp_call (wp_place _ _ _ _ HS) as q c1 HS1.
  wp_call (wp_shard_insert c0 k Hwf _ _ _ _ HS1) as old c2 (_ & HS2).
  apply wp_ret. eauto.
Qed.

Lemma wp_hset_entry t now c :
  Step k (lookup_entry c0 k) 0 c0 c →
  wp (hset_entry (shard_of c0 k) k t now)
    (λ r c', match unexpired now (lookup_entry c0 k) with
      | Some e =>
          Step k (Some e) 0 c0 c' ∧
          r = match e_value e with
              | EV_Hash h => Ok (h, Some (esize k (Some e)))
              | EV_String _ => Err WRONGTYPE
              end
      | None => r = Ok (∅, None) ∧
                ∃ e', e_value e' = EV_Hash ∅ ∧ e_expiry e' = None ∧
                      Step k (Some e') (- esize k (lookup_entry c0 k)) c0 c'
      end) c.
Proof.
  intros HS. unfold hset_entry. wp_call (wp_shard_get c0 k Hwf _ _ _ HS) as e c1 (-> & HS1).
  destruct (lookup_entry c0 k) as [e|] eqn:He.
  - simpl. destruct (expired now e) eqn:Hx.
    + apply wp_bind. eapply wp_mono with (P := λ _ c', Step k (Some e) 0 c0 c').
      { case_bool_decide; [by apply wp_dequeue|by apply wp_ret]. }
      intros [] c2 HS2. unfold shard_remove.
      wp_call (wp_shard_remove_if c0 k Hwf _ _ _ _ HS2) as r c3 [_ HS3].
      wp_call (wp_track_sub c0 k _ _ _ _ HS3) as [] c4 HS4.
      wp_call (wp_hset_vacant _ _ _ _ HS4) as [] c5 [q HS5].
      apply wp_ret. split; [done|]. eexists. split_and!; [..|exact HS5]; done.
    + destruct (e_value e) eqn:Hv; apply wp_ret; by rewrite ?Hv.
  - wp_call (wp_hset_vacant _ _ _ _ HS1) as [] c5 [q HS5].
    apply wp_ret. split; [done|]. eexists. split_and!; [..|exact HS5]; done.
Qed.

Lemma wp_hset fields now :
  wp (hset k fields now)
    (λ r c', ∃ o', hset_post fields now r o' ∧ Accounted k o' c0 c') c0.
Proof.
  unfold hset, hset_post. pose proof (Step_refl k c0 Hwf) as HS.
  wp_call (wp_hash c0 k _ _ _ HS) as i c1 (-> & HS1).
  wp_call (wp_quiet c0 k _ _ _ _ quiet_insert_timestamp HS1) as t c2 HS2.
  wp_call (wp_hset_entry t now _ HS2) as r c3 HS3. unfold Accounted.
  assert (∀ e, unexpired now (lookup_entry c0 k) = Some e → lookup_entry c0 k = Some e) as Hun.
  { intros e. destruct (lookup_entry c0 k) as [e'|]; simpl; [|done].
    by destruct (expired now e'). }
  destruct (unexpired now (lookup_entry c0 k)) as [e|] eqn:He.
  - specialize (Hun e eq_refl). destruct HS3 as [HS3 ->].
    destruct (e_value e) as [v|h] eqn:Hv.
    { apply wp_ret. exists (Some e). split; [done|]. eapply Step_delta; [done|].
      rewrite Hun. lia. }
    rewrite insert_fields_spec. wp_call (wp_shard_alter c0 k Hwf _ _ _ _ HS3) as [] c4 HS4.
    rewrite Hun. simpl in HS4. apply wp_bind.
    eapply wp_mono with (P := λ _ c', Step k _ (esize k (Some (with_value (EV_Hash (put_fields fields h)) e)) - esize k (Some e)) c0 c').
    { case_match; (eapply wp_mono; [apply (wp_track_add c0 k _ _ _ _ HS4) ||
        apply (wp_track_sub c0 k _ _ _ _ HS4)|]); intros [] c5 HS5;
        (eapply Step_delta; [apply HS5|]); cbn -[calculate_entry_size]; lia. }
    intros [] c5 HS5. apply wp_ret. eexists. split; [|exact HS5]. by rewrite Z.add_0_l.
  - destruct HS3 as [-> (e & Hv & Hx & HS3)]. rewrite insert_fields_spec.
    wp_call (wp_shard_alter c0 k Hwf _ _ _ _ HS3) as [] c4 HS4.
    wp_call (wp_track_add c0 k _ _ _ _ HS4) as [] c5 HS5. apply wp_ret.
    eexists. split; [|eapply Step_delta; [exact HS5|]; cbn -[calculate_entry_size]; lia].
    split; [f_equal; unfold zsize at 2; rewrite map_size_empty; lia|]. eexists. done.
Qed.

(** [HDEL] empties the hash. *)
Definition emptied (fields : list bytes) (h : gmap bytes bytes) : bool :=
  (0 <? zsize h - zsize (drop_fields fields h)) && bool_decide (drop_fields fields h = ∅).

Definition hdel_post (fields : list bytes) (now : Z) (r : Result Z bytes)
    (o' : option Entry) : Prop :=
  match unexpired now (lookup_entry c0 k) with
  | Some e =>
      match e_value e with
      | EV_Hash h =>
          let h' := drop_fields fields h in
          r = Ok (zsize h - zsize h') ∧
          o' = (if emptied fields h then None else Some (with_value (EV_Hash h') e))
      | EV_String _ => r = Err WRONGTYPE ∧ o' = Some e
      end
  | None => r = Ok 0 ∧ o' = None
  end.

(** The bytes [hdel] subtracts: exact unless the hash is emptied, when only the
    size of the empty hash is subtracted. *)
Definition hdel_delta (fields : list bytes) (now : Z) (o' : option Entry) : Z :=
  match unexpired now (lookup_entry c0 k) with
  | Some (mkEntry (EV_Hash h) _ _ _ _) =>
      if emptied fields h then - calculate_entry_size (len k) (EV_Hash ∅)
      else esize k o' - esize k (lookup_entry c0 k)
  | _ => esize k o' - esize k (lookup_entry c0 k)
  end.

(** Sizes are [usize] sums of bytes held in memory: they do not wrap. *)
Definition fits (o : option Entry) : Prop :=
  match o with
  | Some (mkEntry (EV_Hash h) _ _ _ _) => len k + 64 + 128 + map_sum field_bytes h < U64_MOD
  | _ => True
  end.

Lemma hash_size_small h :
  len k + 64 + 128 + map_sum field_bytes h < U64_MOD →
  calculate_entry_size (len k) (EV_Hash h) = len k + 64 + 128 + map_sum field_bytes h.
Proof.
  intros Hs. simpl. apply usize_small.
  assert (0 ≤ map_sum field_bytes h) by (apply map_sum_nonneg; unfold field_bytes, len; lia).
  unfold is_u64, len in *. lia.
Qed.

Lemma drop_fields_size fields h : zsize (drop_fields fields h) ≤ zsize h.
Proof.
  pose proof (map_filter_subseteq (λ kv : bytes * bytes, kv.1 ∉ fields) h) as Hsub.
  apply map_subseteq_size in Hsub. unfold zsize, drop_fields. lia.
Qed.

Lemma drop_fields_unchanged fields h :
  zsize (drop_fields fields h) = zsize h → drop_fields fields h = h.
Proof.
  revert h. induction fields as [|f fields IH]; intros h; [by rewrite drop_fields_nil|].
  rewrite drop_fields_cons. destruct (h !! f) as [v|] eqn:Hf.
  - intros Hs. exfalso. pose proof (drop_fields_size fields (base.delete f h)).
    unfold zsize in *. rewrite map_size_delete_Some in * by eauto.
    assert (size h ≠ 0%nat) by (rewrite map_size_empty_iff; intros ->; by rewrite lookup_empty in Hf).
    lia.
  - rewrite delete_id by done. apply IH.
Qed.

Lemma wp_hdel_account e h h' c :
  e_value e = EV_Hash h → map_sum field_bytes h' ≤ map_sum field_bytes h →
  Step k (Some (with_value (EV_Hash h') e)) 0 c0 c →
  wp (hdel_account (shard_of c0 k) k (calculate_entry_size (len k) (EV_Hash h)) h')
    (λ _ c', if bool_decide (h' = ∅)
             then Step k None (- calculate_entry_size (len k) (EV_Hash ∅)) c0 c'
             else ∃ d, Step k (Some (with_value (EV_Hash h') e)) d c0 c' ∧
                       (fits (Some e) → d = esize k (Some (with_value (EV_Hash h') e))
                                            - esize k (Some e))) c.
Proof.
  intros Hv Hle HS. unfold hdel_account. destruct e as [v x la q a]; simpl in Hv. subst v.
  case_bool_decide as Hh.
  - subst h'. wp_call (wp_shard_remove_if c0 k Hwf _ _ _ _ HS) as r c1 [-> HS1].
    apply (wp_track_sub c0 k _ _ _ _ HS1).
  - cbn -[calculate_entry_size]. case_match eqn:Hlt.
    + eapply wp_mono; [apply (wp_track_sub c0 k _ _ _ _ HS)|]. intros [] c1 HS1.
      eexists. split; [done|]. lia.
    + apply wp_ret. exists 0. split; [done|]. revert Hlt. intros Hlt Hfit.
      revert Hlt. rewrite !hash_size_small by lia. lia.
Qed.

Lemma wp_hdel fields now :
  wp (hdel k fields now)
    (λ r c', ∃ o' d, hdel_post fields now r o' ∧ Step k o' d c0 c' ∧
                     (fits (lookup_entry c0 k) → d = hdel_delta fields now o')) c0.
Proof.
  apply (wp_find (λ i e, _)). unfold hdel_post, hdel_delta.
  apply (wp_expire_or now (Ok 0) (λ e, _)).
  { intros c' Ha Hu. rewrite Hu. by exists None, (- esize k (lookup_entry c0 k)). }
  intros e He Hx. rewrite He in *. simpl. rewrite Hx.
  pose proof (Step_refl k c0 Hwf) as HS. rewrite He in HS.
  destruct e as [[v|h] x la q a]; cbn -[calculate_entry_size esize].
  { apply wp_ret. do 2 eexists. split; [split; reflexivity|]. split; [exact HS|].
    simpl. lia. }
  rewrite remove_fields_spec.
  wp_call (wp_shard_alter c0 k Hwf _ _ _ _ HS) as [] c1 HS1. unfold emptied.
  apply wp_bind. simpl (0 + _). destruct (0 <? _) eqn:Hr; cbn -[calculate_entry_size esize].
  - eapply wp_mono; [eapply (wp_hdel_account _ h); [|apply drop_fields_bytes|apply HS1]; done|].
    intros [] c2 HS2. apply wp_ret. case_bool_decide.
    + do 2 eexists. split; [split; reflexivity|]. done.
    + destruct HS2 as (d & HS2 & Hd). do 2 eexists. split; [split; reflexivity|]. done.
  - apply wp_ret, wp_ret. do 2 eexists. split; [split; reflexivity|].
    split; [exact HS1|]. intros _. cbn -[calculate_entry_size].
    rewrite drop_fields_unchanged; [lia|].
    pose proof (drop_fields_size fields h). lia.
Qed.

End At.

End Ops.
