(* ===== verification/StoreSpec.v ===== *)
(** * The store implements a map with expiry times

    The abstract contract of [ShardedStore]: one finite map from keys to a value
    and an expiry time, in which a key is visible while its expiry lies in the
    future.  Shards, lazy deletion, access bookkeeping, S3-FIFO queues and the
    memory counter are invisible through it: [store_refines] is a simulation of
    every sequence of operations, at any nondecreasing times. *)

From S2P Require Import Prelude Config S3Fifo State Store Steps StoreOps Demo.

(** ** The abstract database *)

Abbreviation Db := (gmap bytes (EntryValue * option Z)).

Definition past (now : Z) (x : option Z) : bool :=
  match x with Some exp => exp <=? now | None => false end.

Definition db_live (now : Z) (db : Db) (k : bytes) : option (EntryValue * option Z) :=
  match db !! k with
  | Some (v, x) => if past now x then None else Some (v, x)
  | None => None
  end.

Inductive StoreOp :=
| OSet (k v : bytes) (ttl : option Z)
| OGet (k : bytes)
| OType (k : bytes)
| ODelete (ks : list bytes)
| OExists (ks : list bytes)
| OHSet (k : bytes) (fields : list (bytes * bytes))
| OHGet (k field : bytes)
| OHGetAll (k : bytes)
| OHDel (k : bytes) (fields : list bytes).

Inductive Reply :=
| RUnit
| RValue (v : option bytes)
| RType (t : string)
| RCount (n : Z)
| RFieldCount (r : Result Z bytes)
| RField (r : Result (option bytes) bytes)
| RFields (r : Result (list bytes) bytes).

Section Spec.
Context {P : Platform} {CFG : HasConfig}.

Definition db_read {A : Type} (now : Z) (db : Db) (k : bytes) (dead : A) (val : EntryValue → A) : A :=
  match db_live now db k with Some (v, _) => val v | None => dead end.

Definition db_count (now : Z) (db : Db) (k : bytes) : Z :=
  match db_live now db k with Some _ => 1 | None => 0 end.

Fixpoint db_delete (now : Z) (db : Db) (ks : list bytes) (n : Z) : Z * Db :=
  match ks with
  | [] => (n, db)
  | k :: ks => db_delete now (base.delete k db) ks (n + db_count now db k)
  end.

Definition db_hset (now : Z) (db : Db) (k : bytes) (fields : list (bytes * bytes))
    : Result Z bytes * Db :=
  match db_live now db k with
  | Some (EV_Hash h, x) =>
      let h' := put_fields fields h in (Ok (zsize h' - zsize h), <[k:=(EV_Hash h', x)]> db)
  | Some (EV_String _, _) => (Err WRONGTYPE, db)
  | None => let h' := put_fields fields ∅ in (Ok (zsize h'), <[k:=(EV_Hash h', None)]> db)
  end.

Definition db_hdel (now : Z) (db : Db) (k : bytes) (fields : list bytes)
    : Result Z bytes * Db :=
  match db_live now db k with
  | Some (EV_Hash h, x) =>
      let h' := drop_fields fields h in
      (Ok (zsize h - zsize h'),
       if emptied fields h then base.delete k db else <[k:=(EV_Hash h', x)]> db)
  | Some (EV_String _, _) => (Err WRONGTYPE, db)
  | None => (Ok 0, db)
  end.

(** The abstract machine. *)
Definition spec_op (op : StoreOp) (now : Z) (db : Db) : Reply * Db :=
  match op with
  | OSet k v ttl => (RUnit, <[k:=(EV_String v, (λ s, u64 (now + s)) <$> ttl)]> db)
  | OGet k => (RValue (db_read now db k None string_reply), db)
  | OType k => (RType (db_read now db k "none"%string type_reply), db)
  | ODelete ks => let r := db_delete now db ks 0 in (RCount r.1, r.2)
  | OExists ks => (RCount (zsum (db_count now db) ks), db)
  | OHSet k fields => let r := db_hset now db k fields in (RFieldCount r.1, r.2)
  | OHGet k f => (RField (db_read now db k (Ok None) (field_reply f)), db)
  | OHGetAll k => (RFields (db_read now db k (Ok []) fields_reply), db)
  | OHDel k fields => let r := db_hdel now db k fields in (RFieldCount r.1, r.2)
  end.

(** The program. *)
Definition run_op (op : StoreOp) (now : Z) : M Reply :=
  match op with
  | OSet k v ttl => set k v ttl now;; mret RUnit
  | OGet k => r ← get k now; mret (RValue r)
  | OType k => r ← key_type k now; mret (RType r)
  | ODelete ks => r ← delete ks now; mret (RCount r)
  | OExists ks => r ← exists_ ks now; mret (RCount r)
  | OHSet k fields => r ← hset k fields now; mret (RFieldCount r)
  | OHGet k f => r ← hget k f now; mret (RField r)
  | OHGetAll k => r ← hgetall k now; mret (RFields r)
  | OHDel k fields => r ← hdel k fields now; mret (RFieldCount r)
  end.

Fixpoint spec_ops (ops : list (Z * StoreOp)) (db : Db) : list Reply * Db :=
  match ops with
  | [] => ([], db)
  | (now, op) :: ops =>
      let r := spec_op op now db in
      let rs := spec_ops ops r.2 in (r.1 :: rs.1, rs.2)
  end.

Fixpoint run_ops (ops : list (Z * StoreOp)) : M (list Reply) :=
  match ops with
  | [] => mret []
  | (now, op) :: ops => r ← run_op op now; rs ← run_ops ops; mret (r :: rs)
  end.

(** Times never go back, starting from [t]. *)
Fixpoint in_order (t : Z) (ops : list (Z * StoreOp)) : Prop :=
  match ops with
  | [] => True
  | (now, _) :: ops => t ≤ now ∧ in_order now ops
  end.

Definition end_time (t : Z) (ops : list (Z * StoreOp)) : Z := default t (last (map fst ops)).

(** ** The simulation relation *)

Definition data (e : Entry) : EntryValue * option Z := (e_value e, e_expiry e).

Definition live (now : Z) (c : Core) (k : bytes) : option (EntryValue * option Z) :=
  data <$> unexpired now (lookup_entry c k).

(** What is stored under a key is what the database has; what is not stored is not
    visible any more (the database keeps expired entries, the store drops them). *)
Definition agrees (now : Z) (o : option Entry) (db : Db) (k : bytes) : Prop :=
  match o with Some e => db !! k = Some (data e) | None => db_live now db k = None end.

(** From [now] on, clients of the store and of the database see the same ([sim_live]). *)
Definition sim (now : Z) (c : Core) (db : Db) : Prop :=
  core_wf c ∧ ∀ k, agrees now (lookup_entry c k) db k.

Lemma past_mono t t' x : t ≤ t' → past t x = true → past t' x = true.
Proof. destruct x; simpl; lia. Qed.

Lemma db_live_later t t' db k : t ≤ t' → db_live t db k = None → db_live t' db k = None.
Proof.
  intros Ht. unfold db_live. destruct (db !! k) as [[v x]|]; [|done].
  destruct (past t x) eqn:E; [|done]. by rewrite (past_mono t t').
Qed.

Lemma agrees_later t t' o db k : t ≤ t' → agrees t o db k → agrees t' o db k.
Proof. destruct o; [done|]. apply db_live_later. Qed.

Lemma sim_later t t' c db : t ≤ t' → sim t c db → sim t' c db.
Proof. intros Hle [Hwf Hl]. split; [done|]. intros k. by eapply agrees_later. Qed.

Lemma expired_past now e : expired now e = past now (e_expiry e).
Proof. done. Qed.

Lemma agrees_live now o db k : agrees now o db k → db_live now db k = data <$> unexpired now o.
Proof.
  unfold agrees, db_live. destruct o as [e|]; [|done]. intros ->. cbn. rewrite expired_past.
  by destruct (past _ _).
Qed.

Lemma agrees_insert now e db k : agrees now (Some e) (<[k:=data e]> db) k.
Proof. cbn. by rewrite lookup_insert_eq. Qed.

Lemma agrees_delete now db k : agrees now None (base.delete k db) k.
Proof. cbn. unfold db_live. by rewrite lookup_delete_eq. Qed.

Lemma agrees_ne now o db db' k : db' !! k = db !! k → agrees now o db k → agrees now o db' k.
Proof. unfold agrees, db_live. by intros ->. Qed.

(** Reads leave the entry as it is up to bookkeeping, or drop it once expired. *)
Lemma agrees_refreshed now o o' db k : agrees now o db k → refreshed now o o' → agrees now o' db k.
Proof.
  unfold refreshed. destruct o as [e|]; [|by intros ? ->]. destruct (expired now e) eqn:Hx.
  - intros Ha ->. apply agrees_live in Ha. cbn in Ha |- *. by rewrite Hx in Ha.
  - intros Ha (e' & -> & Hv & Hx'). cbn in *. rewrite Ha. unfold data. by rewrite Hv, Hx'.
Qed.

Lemma live_db now c db k : sim now c db → db_live now db k = data <$> unexpired now (lookup_entry c k).
Proof. intros [_ Hl]. by apply agrees_live. Qed.

Lemma sim_live now c db t k : sim now c db → now ≤ t → live t c k = db_live t db k.
Proof. intros Hs Ht. symmetry. by apply live_db, (sim_later now). Qed.

(** A step on [k] simulates a change of [k] alone. *)
Lemma sim_step now k o d c c' db db' :
  sim now c db → Step k o d c c' → agrees now o db' k →
  (∀ k', k' ≠ k → db' !! k' = db !! k') → sim now c' db'.
Proof.
  intros [Hwf Hl] HS Hk Hne. split; [by eapply Step_wf|].
  intros k'. destruct (decide (k' = k)) as [->|Hk'].
  - by rewrite (Step_lookup _ _ _ _ _ Hwf HS).
  - rewrite (Step_lookup_ne _ _ _ _ _ _ Hwf HS Hk'). eapply agrees_ne; [by apply Hne|]. apply Hl.
Qed.

(** Storing an entry, dropping one. *)
Lemma sim_insert now k e d c c' db :
  sim now c db → Step k (Some e) d c c' → sim now c' (<[k:=data e]> db).
Proof.
  intros Hs HS. eapply sim_step; [done..|apply agrees_insert|by intros; rewrite lookup_insert_ne].
Qed.

Lemma sim_delete now k d c c' db :
  sim now c db → Step k None d c c' → sim now c' (base.delete k db).
Proof.
  intros Hs HS. eapply sim_step; [done..|apply agrees_delete|by intros; rewrite lookup_delete_ne].
Qed.

(** A read changes nothing visible. *)
Lemma sim_refreshed now k o' d c c' db :
  sim now c db → refreshed now (lookup_entry c k) o' → Step k o' d c c' → sim now c' db.
Proof.
  intros Hs Hr HS. eapply sim_step; [done..| |done]. eapply agrees_refreshed; [apply Hs|done].
Qed.

Lemma read_reply_db {A : Type} now c db k (dead : A) val :
  sim now c db → read_reply c k now dead val = db_read now db k dead val.
Proof.
  intros Hs. unfold read_reply, db_read. rewrite (live_db now c db k Hs).
  by destruct (unexpired _ _).
Qed.

(** ** Each operation simulates the abstract one *)

Definition simulates (now : Z) (op : StoreOp) : Prop :=
  ∀ c db, sim now c db →
  wp (run_op op now) (λ r c', r = (spec_op op now db).1 ∧ sim now c' (spec_op op now db).2) c.

(** All the reads at once. *)
Lemma simulates_read {A : Type} now k (m : M A) dead val (C : A → Reply) c db :
  sim now c db →
  wp m (λ r c', r = read_reply c k now dead val ∧
                ∃ o', refreshed now (lookup_entry c k) o' ∧ Accounted k o' c c') c →
  wp (r ← m; mret (C r)) (λ r c', r = C (db_read now db k dead val) ∧ sim now c' db) c.
Proof.
  intros Hs Hm. apply wp_bind. eapply wp_mono; [exact Hm|].
  intros r c1 (-> & o' & Hr & HS). apply wp_ret. rewrite (read_reply_db _ _ _ _ _ _ Hs).
  split; [done|]. by eapply sim_refreshed.
Qed.

Lemma simulates_set now k v ttl : simulates now (OSet k v ttl).
Proof.
  intros c db Hs. apply wp_bind. eapply wp_mono; [apply wp_set, Hs|].
  intros r c1 (_ & e & Hv & Hx & HS). apply wp_ret. split; [done|]. simpl.
  replace (EV_String v, _) with (data e) by (unfold data; by rewrite Hv, Hx).
  by eapply sim_insert.
Qed.

Lemma wp_delete now ks n c db :
  sim now c db →
  wp (mfold (delete_one now) n ks)
    (λ r c', r = (db_delete now db ks n).1 ∧ sim now c' (db_delete now db ks n).2) c.
Proof.
  revert n c db. induction ks as [|k ks IH]; intros n c db Hs; [by apply wp_ret|].
  cbn [mfold db_delete]. apply wp_bind. eapply wp_mono; [apply wp_delete_one, Hs|].
  intros r c1 (-> & HS). unfold db_count. rewrite (live_db now c db k Hs).
  replace (match unexpired now (lookup_entry c k) with Some _ => n + 1 | None => n end)
    with (n + match data <$> unexpired now (lookup_entry c k) with Some _ => 1 | None => 0 end)
    by (destruct (unexpired _ _); simpl; lia).
  apply IH. by eapply sim_delete.
Qed.

Lemma wp_exists now ks n c db :
  sim now c db →
  wp (mfold (exists_one now) n ks) (λ r c', r = n + zsum (db_count now db) ks ∧ c' = c) c.
Proof.
  revert n. induction ks as [|k ks IH]; intros n Hs; [apply wp_ret; simpl; split; [lia|done]|].
  cbn [mfold]. apply wp_bind. eapply wp_mono; [apply wp_exists_one|].
  intros r c1 (-> & ->). eapply wp_mono; [apply IH, Hs|].
  intros r c1 (-> & ->). split; [|done]. unfold zsum at 2. simpl. fold (zsum (db_count now db) ks).
  unfold db_count at 2. rewrite (live_db now c db k Hs). destruct (unexpired _ _); simpl; lia.
Qed.

Lemma refreshed_live now o e : unexpired now o = Some e → refreshed now o (Some e).
Proof.
  unfold unexpired, refreshed. destruct o as [e'|]; [|done]. destruct (expired now e'); [done|].
  intros [= <-]. eauto with redistill.
Qed.

Lemma simulates_hset now k fields : simulates now (OHSet k fields).
Proof.
  intros c db Hs. apply wp_bind. eapply wp_mono; [apply wp_hset, Hs|].
  intros r c1 (o' & Hp & HS). apply wp_ret. simpl. unfold hset_post, db_hset in *.
  rewrite (live_db now c db k Hs).
  destruct (unexpired now (lookup_entry c k)) as [e|] eqn:Hu; simpl.
  - unfold data. destruct (e_value e) as [v|h] eqn:Hv; destruct Hp as [-> ->]; (split; [done|]).
    + eapply sim_refreshed; [done| |done]. by apply refreshed_live.
    + by eapply (sim_insert _ _ (with_value _ e)).
  - destruct Hp as (-> & e' & -> & Hv & Hx). split; [done|]. simpl.
    replace (EV_Hash _, None) with (data e') by (unfold data; by rewrite Hv, Hx).
    by eapply sim_insert.
Qed.

Lemma simulates_hdel now k fields : simulates now (OHDel k fields).
Proof.
  intros c db Hs. apply wp_bind. eapply wp_mono; [apply wp_hdel, Hs|].
  intros r c1 (o' & d & Hp & HS & _). apply wp_ret. simpl. unfold hdel_post, db_hdel in *.
  rewrite (live_db now c db k Hs).
  destruct (unexpired now (lookup_entry c k)) as [e|] eqn:Hu; simpl.
  - unfold data. destruct (e_value e) as [v|h] eqn:Hv; destruct Hp as [-> ->]; (split; [done|]).
    { eapply sim_refreshed; [done| |done]. by apply refreshed_live. }
    simpl. destruct (emptied fields h).
    + by eapply sim_delete.
    + by eapply (sim_insert _ _ (with_value _ e)).
  - destruct Hp as (-> & ->). split; [done|]. eapply sim_refreshed; [done| |done].
    unfold refreshed, unexpired in *. destruct (lookup_entry c k) as [e'|]; [|done].
    by destruct (expired now e').
Qed.

Lemma simulates_op now op : simulates now op.
Proof.
  destruct op as [k v ttl|k|k|ks|ks|k fields|k f|k|k fields].
  - apply simulates_set.
  - intros c db Hs. eapply simulates_read; [done|apply wp_get, Hs].
  - intros c db Hs. eapply simulates_read; [done|apply wp_key_type, Hs].
  - intros c db Hs. apply wp_bind. eapply wp_mono; [apply wp_delete, Hs|].
    intros r c1 (-> & Hs'). by apply wp_ret.
  - intros c db Hs. apply wp_bind. eapply wp_mono; [apply wp_exists, Hs|].
    intros r c1 (-> & ->). by apply wp_ret.
  - apply simulates_hset.
  - intros c db Hs. eapply simulates_read; [done|apply wp_hget, Hs].
  - intros c db Hs. eapply simulates_read; [done|apply wp_hgetall, Hs].
  - apply simulates_hdel.
Qed.

Lemma end_time_cons t now op ops : end_time t ((now, op) :: ops) = end_time now ops.
Proof. unfold end_time. simpl. rewrite last_cons. by destruct (last _). Qed.

Lemma run_ops_sim t ops c db :
  sim t c db → in_order t ops →
  wp (run_ops ops) (λ rs c', rs = (spec_ops ops db).1 ∧ sim (end_time t ops) c' (spec_ops ops db).2) c.
Proof.
  revert t c db. induction ops as [|[now op] ops IH]; intros t c db Hs Ho.
  - by apply wp_ret.
  - destruct Ho as [Ht Ho]. cbn [run_ops spec_ops]. rewrite end_time_cons. apply wp_bind.
    eapply wp_mono; [apply simulates_op; by eapply sim_later|].
    intros r c1 (-> & Hs1). apply wp_bind. eapply wp_mono; [by eapply IH|].
    intros rs c2 (-> & Hs2). by apply wp_ret.
Qed.

(** ** The empty store *)

Lemma new_wf n : 0 < n → core_wf (new n).
Proof.
  intros Hn. unfold new. destruct (queue_capacities n) as [[s m] g]. split; simpl.
  - done.
  - by rewrite length_replicate.
  - by rewrite length_replicate.
  - intros i sh k Hi. apply lookup_replicate in Hi as [-> _]. rewrite lookup_empty.
    by intros [? ?].
  - apply Forall_replicate. auto with redistill.
  - done.
Qed.

Lemma lookup_entry_new n k : lookup_entry (new n) k = None.
Proof.
  unfold lookup_entry, shard_at, new. destruct (queue_capacities n) as [[s m] g]. simpl.
  destruct (replicate _ _ !! _) eqn:Hi; [|done].
  by apply lookup_replicate in Hi as [-> _].
Qed.

Lemma sim_new n t : 0 < n → sim t (new n) ∅.
Proof.
  intros Hn. split; [by apply new_wf|]. intros k. by rewrite lookup_entry_new.
Qed.

(** ** [KEYS] *)

Lemma elem_of_map_iter {V : Type} (m : gmap bytes V) kv :
  PlatformOk P → kv ∈ map_iter m ↔ m !! kv.1 = Some kv.2.
Proof.
  intros Hok. rewrite (map_iter_perm V m). destruct kv. apply elem_of_map_to_list.
Qed.

Lemma elem_of_shards_keys (p : bytes * Entry → Prop) `{!∀ kv, Decision (p kv)} k s :
  PlatformOk P →
  k ∈ (s ≫= λ m : Shard, (filter p (map_iter m)).*1) ↔
  ∃ i m e, s !! i = Some m ∧ m !! k = Some e ∧ p (k, e).
Proof.
  intros Hok. rewrite list_elem_of_bind. split.
  - intros (m & Hk & Hm). apply list_elem_of_fmap in Hk as ([k' e] & -> & Hk).
    apply list_elem_of_filter in Hk as [Hp Hk]. apply (elem_of_map_iter m _ Hok) in Hk.
    apply list_elem_of_lookup in Hm as [i Hi]. by exists i, m, e.
  - intros (i & m & e & Hi & Hm & Hp). exists m. split; [|by eapply list_elem_of_lookup_2].
    apply list_elem_of_fmap. exists (k, e). split; [done|]. apply list_elem_of_filter.
    split; [done|]. by apply (elem_of_map_iter m _ Hok).
Qed.

(** An entry of any shard is the one [lookup_entry] finds. *)
Lemma lookup_entry_placed c i m k e :
  core_wf c → shards c !! i = Some m → m !! k = Some e → lookup_entry c k = Some e.
Proof.
  intros Hwf Hi Hk. unfold lookup_entry, shard_at.
  by rewrite (wf_placed c Hwf i m k Hi (ltac:(eauto))), Hi.
Qed.

Lemma lookup_entry_shard c k e :
  lookup_entry c k = Some e → ∃ m, shards c !! shard_of c k = Some m ∧ m !! k = Some e.
Proof.
  unfold lookup_entry, shard_at. destruct (shards c !! _) as [m|]; simpl; [eauto|].
  by rewrite lookup_empty.
Qed.

Lemma unexpired_Some now o e : unexpired now o = Some e ↔ o = Some e ∧ expired now e = false.
Proof.
  destruct o as [e'|]; simpl; [|naive_solver].
  destruct (expired now e') eqn:Hx; naive_solver congruence.
Qed.

Lemma elem_of_keys now c k :
  PlatformOk P → core_wf c → k ∈ (keys now c).1 ↔ is_Some (live now c k).
Proof.
  intros Hok Hwf. unfold keys, live. simpl. rewrite elem_of_shards_keys by done.
  rewrite fmap_is_Some. split.
  - intros (i & m & e & Hi & Hm & Hp). exists e. rewrite unexpired_Some.
    split; [by eapply lookup_entry_placed|done].
  - intros [e [He Hx]%unexpired_Some]. apply lookup_entry_shard in He as (m & Hi & Hm).
    by exists (shard_of c k), m, e.
Qed.

Lemma NoDup_shard_keys (p : bytes * Entry → Prop) `{!∀ kv, Decision (p kv)} (m : Shard) :
  PlatformOk P → NoDup (filter p (map_iter m)).*1.
Proof.
  intros Hok. apply (NoDup_fmap_fst (filter p (map_iter m))).
  - intros k e e' He He'. apply list_elem_of_filter in He as [_ He], He' as [_ He'].
    apply (elem_of_map_iter m _ Hok) in He, He'. simpl in *. congruence.
  - apply NoDup_filter. rewrite (map_iter_perm Entry m). apply NoDup_map_to_list.
Qed.

Lemma NoDup_keys now c : PlatformOk P → core_wf c → NoDup (keys now c).1.
Proof.
  intros Hok Hwf. apply NoDup_bind_index; [|intros; by apply NoDup_shard_keys].
  intros i j m m' k Hi Hj Hk Hk'.
  assert (∀ i m, shards c !! i = Some m →
            k ∈ (filter (λ kv, expired now kv.2 = false) (map_iter m)).*1 → shard_of c k = i) as Hp.
  { intros i' m0 Hi' ([k0 e] & -> & He)%list_elem_of_fmap. apply (wf_placed c Hwf _ m0); [done|].
    apply list_elem_of_filter in He as [_ He]. apply (elem_of_map_iter m0 _ Hok) in He. eauto. }
  by rewrite <- (Hp i m), <- (Hp j m').
Qed.

(** ** Iterating over the store *)

Lemma elem_of_store_entries c k e :
  PlatformOk P → core_wf c → (k, e) ∈ store_entries c ↔ lookup_entry c k = Some e.
Proof.
  intros Hok Hwf. unfold store_entries. rewrite list_elem_of_bind. split.
  - intros (m & Hk%(elem_of_map_iter m _ Hok) & [i Hi]%list_elem_of_lookup).
    by eapply lookup_entry_placed.
  - intros (m & Hi & Hm)%lookup_entry_shard. exists m.
    split; [by apply (elem_of_map_iter m _ Hok)|by eapply list_elem_of_lookup_2].
Qed.

Lemma NoDup_store_entries c : PlatformOk P → core_wf c → NoDup (store_entries c).*1.
Proof.
  intros Hok Hwf. apply NoDup_fmap_fst.
  - intros k e e' He%elem_of_store_entries He'%elem_of_store_entries; [congruence|done..].
  - apply NoDup_bind_index.
    + intros i j m m' [k e] Hi Hj Hk%(elem_of_map_iter m _ Hok) Hk'%(elem_of_map_iter m' _ Hok).
      rewrite <- (wf_placed c Hwf i m k), <- (wf_placed c Hwf j m' k); eauto.
    + intros m Hm. pose proof (map_iter_perm Entry m) as ->. apply NoDup_map_to_list.
Qed.

End Spec.

(** ** Theorems *)

Section Claims.
Context {P : Platform} {CFG : HasConfig}.

(** C3: the store refines a map with expiry times.  Starting from an empty store
    with any number of shards, under any configuration, every sequence of [SET],
    [GET], [TYPE], [DEL], [EXISTS], [HSET], [HGET], [HGETALL] and [HDEL] at
    nondecreasing times returns exactly the replies of the abstract database, and
    ends in a store that shows the same live keys, values and expiry times.  The order
    of the fields in the reply of [HGETALL] is the one in which the platform iterates
    over a map of that contents ([map_iter]), which is not specified further. *)
Theorem store_refines n t ops :
  0 < n → in_order t ops →
  (run_ops ops (new n)).1 = (spec_ops ops ∅).1 ∧
  sim (end_time t ops) (run_ops ops (new n)).2 (spec_ops ops ∅).2.
Proof. intros Hn Ho. by apply (run_ops_sim t ops (new n) ∅); [apply sim_new|]. Qed.

(** One operation at a time: from any well-formed store that shows the same as a
    database, the reply is the database's, and the resulting store is well formed
    (every key in its own shard, queues and counters in range) and shows the same as
    the resulting database, now and at every later time. *)
Theorem store_op_refines now op c db :
  sim now c db →
  (run_op op now c).1 = (spec_op op now db).1 ∧ sim now (run_op op now c).2 (spec_op op now db).2.
Proof. intros Hs. apply (simulates_op now op c db Hs). Qed.

(** [KEYS] lists every live key exactly once and nothing else. *)
Theorem keys_correct now c :
  PlatformOk P → core_wf c →
  NoDup (keys now c).1 ∧ ∀ k, k ∈ (keys now c).1 ↔ is_Some (live now c k).
Proof. intros. split; [by apply NoDup_keys|]. intros. by apply elem_of_keys. Qed.

End Claims.

#[local] Existing Instance demo_platform.
#[local] Existing Instance demo_s3fifo.

Definition demo_ops : list (Z * StoreOp) :=
  [(100, OSet (bs "a") (bs "1") (Some 10)); (101, OHSet (bs "h") [(bs "f", bs "x")]);
   (105, OGet (bs "a")); (111, OGet (bs "a")); (111, OHDel (bs "h") [bs "f"; bs "f"]);
   (112, OExists [bs "a"; bs "h"])].

Lemma store_refines_witness :
  (run_ops demo_ops (new 4)).1 = (spec_ops demo_ops ∅).1 ∧
  sim (end_time 100 demo_ops) (run_ops demo_ops (new 4)).2 (spec_ops demo_ops ∅).2.
Proof. apply (store_refines 4 100 demo_ops); [lia|]. cbn. lia. Defined.

Lemma store_op_refines_witness :
  (run_op (OGet (bs "a")) 5 (new 4)).1 = (spec_op (OGet (bs "a")) 5 ∅).1 ∧
  sim 5 (run_op (OGet (bs "a")) 5 (new 4)).2 (spec_op (OGet (bs "a")) 5 ∅).2.
Proof. apply (store_op_refines 5 (OGet (bs "a")) (new 4) ∅). by apply sim_new. Defined.

Lemma keys_correct_witness :
  NoDup (keys 50 (new 4)).1 ∧ ∀ k, k ∈ (keys 50 (new 4)).1 ↔ is_Some (live 50 (new 4) k).
Proof. apply (keys_correct 50 (new 4)); [apply demo_platform_ok|by apply new_wf]. Defined.
