(* ===== verification/Contents.v ===== *)
(** * The database a store holds

    StoreSpec.v relates a store to the databases that look the same to clients from some
    time on.  One of them is what is stored: it does not depend on the time, and every step
    of the store changes it as it changes the store. *)

From S2P Require Import Prelude Config S3Fifo State Store Steps StoreOps StoreSpec.

Section Contents.
Context {P : Platform} {CFG : HasConfig}.

Definition contents (c : Core) : Db := foldr (λ m db, (data <$> m) ∪ db) ∅ (shards c).

Lemma foldr_contents (l : list Shard) i k :
  (∀ j m, l !! j = Some m → j ≠ i → m !! k = None) →
  foldr (λ m (db : Db), (data <$> m) ∪ db) ∅ l !! k = data <$> (default ∅ (l !! i) !! k).
Proof.
  revert i. induction l as [|m l IH]; intros i Hl; cbn [foldr].
  - by rewrite lookup_nil, !lookup_empty.
  - destruct i as [|i]; cbn [lookup list_lookup].
    + rewrite lookup_union, lookup_fmap. cbn [default]. unfold id.
      destruct (m !! k) as [e|] eqn:E; cbn; [by rewrite union_Some_l|].
      rewrite (left_id_L None _), (IH (length l)).
      * rewrite lookup_ge_None_2 by done. cbn. by rewrite lookup_empty.
      * intros j m' Hj Hne. by apply (Hl (S j)).
    + rewrite lookup_union, lookup_fmap, (Hl 0%nat m) by done. cbn. rewrite (left_id_L None _). apply IH.
      intros j m' Hj Hne. apply (Hl (S j)); [done|lia].
Qed.

Lemma contents_lookup c k : core_wf c → contents c !! k = data <$> lookup_entry c k.
Proof.
  intros Hwf. apply (foldr_contents (shards c) (shard_of c k)). intros j m Hm Hne.
  destruct (m !! k) as [e|] eqn:E; [|done]. destruct Hne. symmetry. apply (wf_placed c Hwf j m); eauto.
Qed.

Lemma size_foldr_contents (l : list Shard) :
  (∀ i j m m' k, l !! i = Some m → l !! j = Some m' → is_Some (m !! k) → is_Some (m' !! k) → i = j) →
  Z.of_nat (size (foldr (λ m (db : Db), (data <$> m) ∪ db) ∅ l)) = zsum (λ m, Z.of_nat (size m)) l.
Proof.
  induction l as [|m l IH]; intros Hl; [done|]. cbn [foldr]. rewrite map_size_disj_union.
  - rewrite map_size_fmap, Nat2Z.inj_add, IH; [done|].
    intros i j m1 m2 k H1 H2 Hk1 Hk2. by injection (Hl (S i) (S j) m1 m2 k H1 H2 Hk1 Hk2).
  - apply map_disjoint_alt. intros k. rewrite lookup_fmap. destruct (m !! k) as [e|] eqn:E; [right|by left].
    rewrite (foldr_contents l (length l)); [by rewrite lookup_ge_None_2 by done|].
    intros j m' Hj _. destruct (m' !! k) eqn:E'; [|done].
    by discriminate (Hl 0%nat (S j) m m' k eq_refl Hj ltac:(eauto) ltac:(eauto)).
Qed.

(** [DBSIZE] counts what is stored. *)
Lemma size_contents c : core_wf c → Z.of_nat (size (contents c)) = (store_len c).1.
Proof.
  intros Hwf. apply size_foldr_contents. intros i j m m' k Hi Hj Hk Hk'.
  by rewrite <- (wf_placed c Hwf i m k Hi Hk), <- (wf_placed c Hwf j m' k Hj Hk').
Qed.

Lemma contents_step k o d c c' :
  core_wf c → Step k o d c c' → contents c' = partial_alter (λ _, data <$> o) k (contents c).
Proof.
  intros Hwf HS. apply map_eq. intros k'. rewrite contents_lookup by (by eapply Step_wf).
  destruct (decide (k' = k)) as [->|Hne].
  - by rewrite lookup_partial_alter_eq, (Step_lookup _ _ _ _ _ Hwf HS).
  - rewrite lookup_partial_alter_ne by done. rewrite contents_lookup by done.
    by rewrite (Step_lookup_ne _ _ _ _ _ _ Hwf HS).
Qed.

Lemma contents_live now c k : core_wf c → db_live now (contents c) k = data <$> unexpired now (lookup_entry c k).
Proof. intros Hwf. apply agrees_live. unfold agrees. rewrite contents_lookup by done.
  destruct (lookup_entry c k) as [e|] eqn:E; [done|]. unfold db_live. by rewrite contents_lookup, E. Qed.

Lemma contents_insert k e d c c' :
  core_wf c → Step k (Some e) d c c' → contents c' = <[k:=data e]> (contents c).
Proof. intros Hwf HS. by rewrite (contents_step _ _ _ _ _ Hwf HS). Qed.

Lemma contents_delete k d c c' : core_wf c → Step k None d c c' → contents c' = base.delete k (contents c).
Proof. intros Hwf HS. by rewrite (contents_step _ _ _ _ _ Hwf HS). Qed.

Lemma contents_same k e e' d c c' :
  core_wf c → lookup_entry c k = Some e → same_data e e' → Step k (Some e') d c c' → contents c' = contents c.
Proof.
  intros Hwf He [Hv Hx] HS. rewrite (contents_insert _ _ _ _ _ Hwf HS). apply insert_id.
  rewrite contents_lookup, He by done. cbn. unfold data. by rewrite Hv, Hx.
Qed.

Lemma contents_still k c c' : core_wf c → Step k (lookup_entry c k) 0 c c' → contents c' = contents c.
Proof.
  intros Hwf HS. rewrite (contents_step _ _ _ _ _ Hwf HS). apply map_eq. intros k'.
  destruct (decide (k' = k)) as [->|Hne]; [|by rewrite lookup_partial_alter_ne].
  by rewrite lookup_partial_alter_eq, contents_lookup.
Qed.
End Contents.
