(* ===== verification/Memory.v ===== *)
(** * Memory accounting

    [MEMORY_USED] against the bytes the store really holds: which operations keep
    the counter exact, and by how much [HDEL] drifts when it empties a hash. *)

From S2P Require Import Prelude Config S3Fifo State Store Steps StoreOps StoreSpec Demo.

Section Memory.
Context {P : Platform} {CFG : HasConfig}.

(** The sizes of all entries. *)
Definition entry_bytes (k : bytes) (e : Entry) : Z := calculate_entry_size (len k) (e_value e).

Definition bytes_stored (c : Core) : Z := zsum (map_sum entry_bytes) (shards c).

(** When memory is tracked, that is under a memory limit, the counter is the number of
    bytes stored, as a [u64].  Without a limit this says nothing: nothing is counted. *)
Definition mem_ok (c : Core) : Prop :=
  tracks_memory = true → MEMORY_USED c = u64 (bytes_stored c).

Lemma map_sum_partial_alter (m : Shard) k o :
  map_sum entry_bytes (partial_alter (λ _, o) k m) =
  map_sum entry_bytes m - esize k (m !! k) + esize k o.
Proof.
  destruct o as [e|].
  - change (partial_alter (λ _, Some e) k m) with (<[k:=e]> m). rewrite map_sum_insert.
    by destruct (m !! k).
  - change (partial_alter (λ _, None) k m) with (base.delete k m). rewrite map_sum_delete.
    destruct (m !! k); simpl; unfold entry_bytes; lia.
Qed.

Lemma bytes_stored_step k o d c c' :
  core_wf c → Step k o d c c' →
  bytes_stored c' = bytes_stored c - esize k (lookup_entry c k) + esize k o.
Proof.
  intros Hwf HS. unfold bytes_stored. rewrite (step_shards _ _ _ _ _ HS). unfold store_entry.
  fold (shard_of c k). pose proof (shards_lookup c k Hwf) as Hi.
  rewrite (zsum_alter _ _ _ _ _ Hi), map_sum_partial_alter. unfold lookup_entry. lia.
Qed.

(** How far the counter is ahead of the bytes stored. *)
Definition drift (c : Core) : Z := u64 (MEMORY_USED c - bytes_stored c).

Lemma mem_ok_drift c : core_wf c → mem_ok c ↔ (tracks_memory = true → drift c = 0).
Proof.
  intros Hwf. pose proof (wf_memory c Hwf) as Hu. unfold mem_ok, drift. split; intros H Ht.
  - rewrite (H Ht), u64_u64_sub_l, Z.sub_diag. done.
  - specialize (H Ht). rewrite <- (u64_small _ Hu).
    replace (MEMORY_USED c) with (MEMORY_USED c - bytes_stored c + bytes_stored c) by lia.
    rewrite <- u64_u64_add_l, H. done.
Qed.

Lemma drift_step k o d c c' :
  core_wf c → Step k o d c c' → tracks_memory = true →
  drift c' = u64 (drift c + d - (esize k o - esize k (lookup_entry c k))).
Proof.
  intros Hwf HS Ht. unfold drift. rewrite (bytes_stored_step _ _ _ _ _ Hwf HS).
  rewrite <- u64_u64_sub_l, (step_memory _ _ _ _ _ HS Ht), u64_u64_sub_l.
  rewrite <- (Z.add_sub_assoc (u64 (MEMORY_USED c - bytes_stored c))), u64_u64_add_l. f_equal. lia.
Qed.

Lemma drift_accounted k o c c' :
  core_wf c → Accounted k o c c' → tracks_memory = true → drift c' = drift c.
Proof.
  intros Hwf HS Ht. rewrite (drift_step _ _ _ _ _ Hwf HS Ht). unfold drift.
  rewrite <- Z.add_sub_assoc, Z.sub_diag, Z.add_0_r. apply u64_u64.
Qed.

Lemma mem_ok_accounted k o c c' : core_wf c → Accounted k o c c' → mem_ok c → mem_ok c'.
Proof.
  intros Hwf HS Hm. apply mem_ok_drift; [by eapply Step_wf|]. intros Ht.
  rewrite (drift_accounted _ _ _ _ Hwf HS Ht). by apply mem_ok_drift.
Qed.

Lemma mem_ok_step k o d c c' :
  core_wf c → Step k o d c c' → d = esize k o - esize k (lookup_entry c k) →
  mem_ok c → mem_ok c'.
Proof. intros Hwf HS ->. by eapply mem_ok_accounted. Qed.

(** ** The store's own operations *)

Lemma wp_delete_mem now ks n c :
  core_wf c ∧ mem_ok c → wp (mfold (delete_one now) n ks) (λ _ c', core_wf c' ∧ mem_ok c') c.
Proof.
  apply (wp_mfold (λ c', core_wf c' ∧ mem_ok c')). intros b k c' [Hwf Hm].
  eapply wp_mono; [by apply wp_delete_one|]. intros r c2 (_ & HS).
  split; [by eapply Step_wf|by eapply mem_ok_accounted].
Qed.

Lemma wp_exists_same now ks n c : wp (mfold (exists_one now) n ks) (λ _ c', c' = c) c.
Proof.
  apply (wp_mfold (λ c', c' = c)); [|done]. intros b k c' ->.
  eapply wp_mono; [apply wp_exists_one|]. by intros r c2 (_ & ->).
Qed.

(** [SET] leaves the accounting to its callers, and [HDEL] is exact unless it
    empties the hash. *)
Definition accounts (op : StoreOp) (now : Z) (c : Core) : Prop :=
  match op with
  | OSet _ _ _ => False
  | OHDel k fields =>
      fits k (lookup_entry c k) ∧
      match unexpired now (lookup_entry c k) with
      | Some e => match e_value e with EV_Hash h => emptied fields h = false | _ => True end
      | None => True
      end
  | _ => True
  end.

Lemma wp_read_mem {A : Type} k (m : M A) (R : A → Prop) (Q : option Entry → Prop) (C : A → Reply) c :
  core_wf c → mem_ok c →
  wp m (λ r c', R r ∧ ∃ o', Q o' ∧ Accounted k o' c c') c →
  wp (r ← m; mret (C r)) (λ _ c', mem_ok c') c.
Proof.
  intros Hwf Hm Hw. apply wp_bind. eapply wp_mono; [exact Hw|].
  intros r c' (_ & o' & _ & HS). apply wp_ret. by eapply mem_ok_accounted.
Qed.

Lemma hdel_delta_exact k fields now c o' r :
  hdel_post c k fields now r o' →
  match unexpired now (lookup_entry c k) with
  | Some e => match e_value e with EV_Hash h => emptied fields h = false | _ => True end
  | None => True
  end → hdel_delta c k fields now o' = esize k o' - esize k (lookup_entry c k).
Proof.
  unfold hdel_post, hdel_delta. destruct (unexpired _ _) as [[[v|h] x la q a]|]; simpl; try done.
  intros _ ->. done.
Qed.

Lemma wp_store_op_mem op now c :
  core_wf c → mem_ok c → accounts op now c → wp (run_op op now) (λ _ c', mem_ok c') c.
Proof.
  intros Hwf Hm Ha. destruct op as [k v ttl|k|k|ks|ks|k fields|k f|k|k fields]; cbn [run_op].
  - done.
  - eapply wp_read_mem; [done..|by apply wp_get].
  - eapply wp_read_mem; [done..|by apply wp_key_type].
  - apply wp_bind. eapply wp_mono; [by apply wp_delete_mem|]. intros r c' [_ ?]. by apply wp_ret.
  - apply wp_bind. eapply wp_mono; [by apply wp_exists_same|]. intros r c' ->. by apply wp_ret.
  - apply wp_bind. eapply wp_mono; [by apply wp_hset|]. intros r c' (o' & _ & HS).
    apply wp_ret. by eapply mem_ok_accounted.
  - eapply wp_read_mem; [done..|by apply wp_hget].
  - eapply wp_read_mem; [done..|by apply wp_hgetall].
  - apply wp_bind. eapply wp_mono; [by apply wp_hdel|]. destruct Ha as [Hfit Hne].
    intros r c' (o' & d & Hp & HS & Hd). apply wp_ret. eapply mem_ok_step; [done..| |done].
    rewrite (Hd Hfit). by eapply hdel_delta_exact.
Qed.

End Memory.

(** ** Theorems *)

Section Claims.
Context {P : Platform} {CFG : HasConfig}.

(** Memory accounting is exact: if [MEMORY_USED] is the number of bytes stored
    (modulo [2^64]), it still is after any store operation other than [SET] (whose
    callers account for it) and an [HDEL] that empties its hash. *)
Theorem store_op_mem_ok op now c :
  core_wf c → mem_ok c → accounts op now c → mem_ok (run_op op now c).2.
Proof. intros Hwf Hm Ha. apply (wp_store_op_mem op now c Hwf Hm Ha). Qed.

(** An [HDEL] that removes the last field leaks.  The key is gone, but
    [MEMORY_USED] stays too high by all the bytes of the fields and values that were
    removed. *)
Theorem hdel_leaks k fields now c e h :
  core_wf c → mem_ok c → tracks_memory = true →
  lookup_entry c k = Some e → expired now e = false → e_value e = EV_Hash h →
  fits k (Some e) → emptied fields h = true →
  let c' := (hdel k fields now c).2 in
  lookup_entry c' k = None ∧
  MEMORY_USED c' = u64 (bytes_stored c' + map_sum field_bytes h).
Proof.
  intros Hwf Hm Ht He Hx Hv Hfit Hemp c'.
  destruct (wp_run _ _ _ (wp_hdel c k Hwf fields now)) as (o' & d & Hp & HS & Hd). fold c' in HS.
  unfold hdel_post, hdel_delta in *. rewrite He in *. cbn [unexpired] in Hp, Hd.
  rewrite Hx in Hp, Hd. specialize (Hd Hfit).
  destruct e as [v x la q a]. simpl in Hv. subst v. simpl in Hp, Hfit.
  rewrite Hemp in *. destruct Hp as [_ ->]. split; [by eapply Step_lookup|].
  rewrite <- (u64_small (MEMORY_USED c')) by (apply wf_memory; by eapply Step_wf).
  rewrite (step_memory _ _ _ _ _ HS Ht), (Hm Ht), u64_u64_add_l, Hd.
  rewrite (bytes_stored_step _ _ _ _ _ Hwf HS), He. cbn [esize e_value].
  assert (0 ≤ map_sum field_bytes h) by (apply map_sum_nonneg; unfold field_bytes, len; lia).
  rewrite (hash_size_small k h Hfit), (hash_size_small k ∅) by (rewrite map_sum_empty; lia).
  rewrite map_sum_empty. f_equal. lia.
Qed.

End Claims.

#[local] Existing Instance demo_platform.
#[local] Existing Instance demo_lru.

(** One hash with one field, in an otherwise empty store. *)
Definition hash_demo_store : Core := (hset (bs "h") [(bs "f", bs "value")] 100 (new 2)).2.

Lemma hash_demo_ok : core_wf hash_demo_store ∧ mem_ok hash_demo_store.
Proof.
  split.
  - destruct (wp_run _ _ _ (wp_hset (new 2) (bs "h") (new_wf 2 ltac:(lia)) [(bs "f", bs "value")] 100))
      as (o' & _ & HS). by eapply Step_wf; [apply new_wf|apply HS].
  - intros _. vm_compute. reflexivity.
Qed.

Lemma store_op_mem_ok_witness : mem_ok (run_op (OHGet (bs "h") (bs "f")) 101 hash_demo_store).2.
Proof.
  apply (store_op_mem_ok (OHGet (bs "h") (bs "f")) 101 hash_demo_store);
    [apply hash_demo_ok|apply hash_demo_ok|exact I].
Defined.

Lemma hdel_leaks_witness :
  let c' := (hdel (bs "h") [bs "f"] 101 hash_demo_store).2 in
  lookup_entry c' (bs "h") = None ∧
  MEMORY_USED c' = u64 (bytes_stored c' + map_sum field_bytes {[bs "f" := bs "value"]}).
Proof.
  apply (hdel_leaks (bs "h") [bs "f"] 101 hash_demo_store
           (mkEntry (EV_Hash {[bs "f" := bs "value"]}) None 0 0 0)).
  - apply hash_demo_ok.
  - apply hash_demo_ok.
  - reflexivity.
  - vm_compute. reflexivity.
  - reflexivity.
  - reflexivity.
  - vm_compute. reflexivity.
  - vm_compute. reflexivity.
Defined.
