(* ===== verification/Scan.v ===== *)
(** * [SCAN] ([ShardedStore::scan] of [src/store.rs])

    The cursor iteration as the code has it, and what one page returns: the keys
    of a prefix of what the cursor has left to visit, in visiting order.  A page
    that stops early resumes one entry too far ([scan_page]), so a full iteration
    can miss a key ([scan_misses_a_key]). *)

From S2P Require Import Prelude Glob Config S3Fifo State Store Steps StoreOps StoreSpec Demo.

(** A cursor is [shard_idx * 1_000_000_000 + position_in_shard]. *)
Definition CURSOR_STRIDE : Z := 1000000000.

Section Scan.
Context {P : Platform} {CFG : HasConfig}.

(** The entries are visited in this order; [wanted] is the test of the loop body. *)
Definition wanted (now : Z) (pattern : option bytes) (kv : bytes * Entry) : bool :=
  negb (expired now kv.2) &&
  match pattern with Some pat => matches_pattern kv.1 pat | None => true end.

(** The cursor returned when the page is full before the entry at [pos]. *)
Definition next_cursor (n shard elen pos : Z) : Z :=
  if pos + 1 <? elen then u64 (shard * CURSOR_STRIDE + (pos + 1))
  else if shard + 1 <? n then u64 ((shard + 1) * CURSOR_STRIDE)
  else 0.

(** The inner loop: [inl] is the early return, [inr] falls through to the next
    shard with the result so far and [keys_checked]. *)
Fixpoint scan_entries (count now : Z) (pattern : option bytes) (n shard elen pos : Z)
    (entries : list (bytes * Entry)) (result : list bytes) (keys_checked : Z)
    : (Z * list bytes) + (list bytes * Z) :=
  match entries with
  | [] => inr (result, keys_checked)
  | kv :: entries =>
      if (count <=? len result) || (count * 3 <=? keys_checked) then
        inl (next_cursor n shard elen pos, result)
      else
        scan_entries count now pattern n shard elen (pos + 1) entries
          (if wanted now pattern kv then result ++ [kv.1] else result) (keys_checked + 1)
  end.

(** The outer loop over the shards from [shard] on; [pos] entries of the first are
    skipped. *)
Fixpoint scan_shards (count now : Z) (pattern : option bytes) (n shard : Z) (pos : Z)
    (ms : list Shard) (result : list bytes) (keys_checked : Z) : Z * list bytes :=
  match ms with
  | [] => (0, result)
  | m :: ms =>
      let entries := map_iter m in
      match scan_entries count now pattern n shard (len entries) pos
              (drop (Z.to_nat pos) entries) result keys_checked with
      | inl r => r
      | inr (result, keys_checked) =>
          scan_shards count now pattern n (shard + 1) 0 ms result keys_checked
      end
  end.

Definition scan (cursor count_hint : Z) (pattern : option bytes) (now : Z)
    : M (Z * list bytes) :=
  gets (λ c,
    let count := Z.min (Z.max count_hint 10) 1000 in
    let start_shard := cursor / CURSOR_STRIDE in
    let start_position := cursor mod CURSOR_STRIDE in
    if num_shards c <=? start_shard then (0, [])
    else scan_shards count now pattern (num_shards c) start_shard start_position
           (drop (Z.to_nat start_shard) (shards c)) [] 0).

(** A client's full iteration: [SCAN] until the cursor is 0. *)
Fixpoint full_scan (fuel : nat) (cursor count_hint now : Z) : M (option (list bytes)) :=
  match fuel with
  | O => mret None
  | S fuel =>
      r ← scan cursor count_hint None now;
      if r.1 =? 0 then mret (Some r.2)
      else rest ← full_scan fuel r.1 count_hint now;
           mret (app r.2 <$> rest)
  end.

(** ** What a cursor has left to visit *)

Definition pending_from (ms : list Shard) (pos : Z) : list (bytes * Entry) :=
  match ms with
  | [] => []
  | m :: ms => drop (Z.to_nat pos) (map_iter m) ++ (ms ≫= map_iter)
  end.

Definition pending (c : Core) (cursor : Z) : list (bytes * Entry) :=
  pending_from (drop (Z.to_nat (cursor / CURSOR_STRIDE)) (shards c)) (cursor mod CURSOR_STRIDE).

Definition accept (now : Z) (pattern : option bytes) (l : list (bytes * Entry)) : list bytes :=
  (filter (λ kv, wanted now pattern kv = true) l).*1.

Lemma accept_app now pattern l l' :
  accept now pattern (l ++ l') = accept now pattern l ++ accept now pattern l'.
Proof. unfold accept. by rewrite filter_app, fmap_app. Qed.

Lemma accept_cons now pattern kv l :
  accept now pattern (kv :: l) =
    (if wanted now pattern kv then [kv.1] else []) ++ accept now pattern l.
Proof.
  unfold accept. rewrite filter_cons.
  case_decide as H; [by rewrite H|]. by destruct (wanted _ _ _).
Qed.

Lemma accept_length now pattern l : len (accept now pattern l) ≤ len l.
Proof.
  unfold len, accept. rewrite length_fmap.
  pose proof (length_filter (λ kv, wanted now pattern kv = true) l). lia.
Qed.

Lemma len_app_if (b : bool) (l : list bytes) k :
  len (if b then l ++ [k] else l) = len l + (if b then 1 else 0).
Proof. destruct b; unfold len; rewrite ?length_app; simpl; lia. Qed.

(** The inner loop: it takes all entries, or the first [j] and then stops. *)
Lemma scan_entries_spec count now pattern n shard elen pos l res chk :
  len res ≤ count →
  match scan_entries count now pattern n shard elen pos l res chk with
  | inr (res', chk') =>
      res' = res ++ accept now pattern l ∧ chk' = chk + len l ∧ len res' ≤ count
  | inl (cur, res') =>
      ∃ j, (j < length l)%nat ∧ res' = res ++ accept now pattern (take j l) ∧
           cur = next_cursor n shard elen (pos + Z.of_nat j) ∧ len res' ≤ count ∧
           (count ≤ len res' ∨ count * 3 ≤ chk + Z.of_nat j)
  end.
Proof.
  revert pos res chk. induction l as [|kv l IH]; intros pos res chk Hlen; cbn [scan_entries].
  { split_and!; [by rewrite app_nil_r|unfold len; simpl; lia|done]. }
  destruct (_ || _) eqn:Hstop.
  { exists 0%nat. simpl. rewrite app_nil_r, Z.add_0_r. split_and!; try done; [lia|].
    apply orb_true_iff in Hstop. lia. }
  apply orb_false_iff in Hstop as [H1 H2].
  specialize (IH (pos + 1) (if wanted now pattern kv then res ++ [kv.1] else res) (chk + 1)).
  rewrite len_app_if in IH. specialize (IH ltac:(destruct (wanted _ _ _); lia)).
  assert (∀ l, (if wanted now pattern kv then res ++ [kv.1] else res) ++ l =
               res ++ (if wanted now pattern kv then [kv.1] else []) ++ l) as Ha.
  { intros l'. destruct (wanted _ _ _); by rewrite <- ?app_assoc. }
  destruct (scan_entries _ _ _ _ _ _ _ l _ _) as [[cur res']|[res' chk']].
  - destruct IH as (j & Hj & -> & -> & Hc & Hs). exists (S j). cbn [take]. rewrite accept_cons, <- Ha.
    split_and!; try done; simpl; [lia|f_equal; lia|lia].
  - destruct IH as (-> & -> & Hc). rewrite accept_cons, <- Ha. split_and!; try done.
    unfold len. simpl. lia.
Qed.

(** Shards small enough for the cursor encoding. *)
Definition cursor_ok (c : Core) : Prop :=
  num_shards c * CURSOR_STRIDE < U64_MOD ∧
  ∀ i m, shards c !! i = Some m → len (map_iter m) ≤ CURSOR_STRIDE.

Lemma next_cursor_spec c shard m p :
  core_wf c → cursor_ok c → 0 ≤ shard → shards c !! Z.to_nat shard = Some m →
  0 ≤ p < len (map_iter m) →
  let cur := next_cursor (num_shards c) shard (len (map_iter m)) p in
  (cur = 0 ∧ pending_from (drop (Z.to_nat shard) (shards c)) (p + 1) = []) ∨
  (shard * CURSOR_STRIDE + p < cur ∧ cur / CURSOR_STRIDE < num_shards c ∧
   pending c cur = pending_from (drop (Z.to_nat shard) (shards c)) (p + 1)).
Proof.
  intros Hwf [Hn Hsz] Hs Hm Hp. specialize (Hsz _ _ Hm). unfold next_cursor, pending.
  pose proof (lookup_lt_Some _ _ _ Hm) as Hlt. rewrite (wf_shards c Hwf) in Hlt.
  rewrite (drop_S _ _ _ Hm). cbn [pending_from]. unfold CURSOR_STRIDE in *.
  assert ((shard + 1) * 1000000000 < U64_MOD) by nia.
  destruct (p + 1 <? len (map_iter m)) eqn:Hp1; [|destruct (shard + 1 <? num_shards c) eqn:Hs1].
  - right. rewrite u64_small by (unfold is_u64; lia).
    rewrite Z.div_add_l, Z.div_small, Z.add_0_r by lia.
    rewrite Z.add_comm, (Z.add_comm _ (p + 1)), Z.mod_add, Z.mod_small by lia.
    split_and!; [lia|lia|]. by rewrite (drop_S _ _ _ Hm).
  - right. rewrite u64_small by (unfold is_u64; lia). rewrite Z.div_mul, Z.mod_mul by lia.
    split_and!; [lia|lia|]. replace (Z.to_nat (shard + 1)) with (S (Z.to_nat shard)) by lia.
    rewrite (drop_ge (map_iter m)) by (unfold len in *; lia).
    by destruct (drop (S (Z.to_nat shard)) (shards c)).
  - left. split; [done|]. rewrite (drop_ge (map_iter m)) by (unfold len in *; lia).
    rewrite drop_ge; [done|]. rewrite (wf_shards c Hwf). lia.
Qed.

(** A page: the wanted keys among the first [j] pending entries.  Either nothing
    is left, or the page stopped before entry [j] and the new cursor is past it. *)
Definition page (c : Core) (count now : Z) (pattern : option bytes) (cursor chk : Z)
    (todo : list (bytes * Entry)) (res : list bytes) (r : Z * list bytes) : Prop :=
  ∃ j, r.2 = res ++ accept now pattern (take j todo) ∧ len r.2 ≤ count ∧
    ((j = length todo ∧ r.1 = 0) ∨
     ((j < length todo)%nat ∧ (count ≤ len r.2 ∨ count * 3 ≤ chk + Z.of_nat j) ∧
      ((r.1 = 0 ∧ drop (S j) todo = []) ∨
       (cursor < r.1 ∧ r.1 / CURSOR_STRIDE < num_shards c ∧ pending c r.1 = drop (S j) todo)))).

Lemma scan_shards_spec c count now pattern shard pos ms res chk :
  core_wf c → cursor_ok c → 0 ≤ shard → 0 ≤ pos < CURSOR_STRIDE → ms = drop (Z.to_nat shard) (shards c) →
  len res ≤ count →
  page c count now pattern (shard * CURSOR_STRIDE + pos) chk (pending_from ms pos) res
    (scan_shards count now pattern (num_shards c) shard pos ms res chk).
Proof.
  intros Hwf Hok Hs. revert shard Hs pos res chk.
  induction ms as [|m ms IH]; intros shard Hs pos res chk Hpos Hms Hlen.
  { exists 0%nat. simpl. rewrite app_nil_r. auto. }
  assert (shards c !! Z.to_nat shard = Some m) as Hm.
  { rewrite <- (Nat.add_0_r (Z.to_nat shard)), <- lookup_drop, <- Hms. done. }
  assert (ms = drop (Z.to_nat (shard + 1)) (shards c)) as Hms'.
  { rewrite (drop_S _ _ _ Hm) in Hms. injection Hms as ->. f_equal. lia. }
  cbn [scan_shards pending_from].
  pose proof (scan_entries_spec count now pattern (num_shards c) shard (len (map_iter m)) pos
                (drop (Z.to_nat pos) (map_iter m)) res chk Hlen) as He.
  destruct (scan_entries _ _ _ _ _ _ _ _ _ _) as [[cur res']|[res' chk']].
  - destruct He as (j & Hj & -> & -> & Hc & Hst). rewrite length_drop in Hj.
    exists j. cbn [fst snd]. rewrite take_app_le by (rewrite length_drop; lia).
    split; [done|]. split; [done|]. right. rewrite length_app, length_drop. split; [lia|].
    split; [done|].
    destruct (next_cursor_spec c shard m (pos + Z.of_nat j)) as [[H1 H2]|(H1 & H2 & H3)]; try done.
    { unfold len. lia. }
    + left. split; [done|]. rewrite <- Hms in H2. cbn [pending_from] in H2.
      rewrite drop_app_le by (rewrite length_drop; lia). rewrite drop_drop.
      replace (Z.to_nat pos + S j)%nat with (Z.to_nat (pos + Z.of_nat j + 1)) by lia. done.
    + right. split; [lia|]. split; [done|]. rewrite H3, <- Hms. cbn [pending_from].
      rewrite drop_app_le by (rewrite length_drop; lia). rewrite drop_drop.
      f_equal. f_equal. lia.
  - destruct He as (-> & -> & Hc).
    destruct (IH (shard + 1) ltac:(lia) 0 _ (chk + len (drop (Z.to_nat pos) (map_iter m)))
                ltac:(done) Hms' Hc) as (j & Hr & Hcnt & Hcase).
    assert (pending_from ms 0 = ms ≫= map_iter) as Hp0 by (by destruct ms).
    rewrite Hp0 in *. exists (length (drop (Z.to_nat pos) (map_iter m)) + j)%nat.
    rewrite take_app_add, accept_app, app_assoc. split; [done|]. split; [done|].
    rewrite length_app. destruct Hcase as [[-> ?]|(? & ? & Hcase)]; [left; auto|right].
    split; [lia|]. split; [unfold len in *; lia|].
    rewrite <- Nat.add_succ_r, drop_app_add. destruct Hcase as [?|(? & ? & ?)]; [by left|right].
    split_and!; [|done..]. lia.
Qed.

Definition clamp (count_hint : Z) : Z := Z.min (Z.max count_hint 10) 1000.

Lemma scan_page_lemma c cursor count_hint pattern now :
  core_wf c → cursor_ok c → 0 ≤ cursor → cursor / CURSOR_STRIDE < num_shards c →
  page c (clamp count_hint) now pattern cursor 0 (pending c cursor) []
    (scan cursor count_hint pattern now c).1.
Proof.
  intros Hwf Hok Hc Hlt. unfold scan. cbn [gets fst].
  destruct (_ <=? _) eqn:H; [lia|]. unfold pending.
  rewrite (Z.div_mod cursor CURSOR_STRIDE) at 1 by done. rewrite (Z.mul_comm CURSOR_STRIDE).
  apply scan_shards_spec; try done.
  - by apply Z.div_pos.
  - by apply Z.mod_pos_bound.
  - unfold clamp, len. simpl. lia.
Qed.

Lemma scan_past_end c cursor count_hint pattern now :
  num_shards c ≤ cursor / CURSOR_STRIDE → scan cursor count_hint pattern now c = ((0, []), c).
Proof. intros H. unfold scan, gets. cbv beta zeta. by destruct (_ <=? _) eqn:?; [|lia]. Qed.

(** Whatever the cursors are: the wanted keys among the first [j] pending entries, and
    cursor 0 when that is all of them. *)
Lemma scan_shards_taken count now pattern n shard pos ms res chk :
  len res ≤ count →
  let r := scan_shards count now pattern n shard pos ms res chk in
  ∃ j, r.2 = res ++ accept now pattern (take j (pending_from ms pos)) ∧ len r.2 ≤ count ∧
    ((j = length (pending_from ms pos) ∧ r.1 = 0) ∨
     ((j < length (pending_from ms pos))%nat ∧ (count ≤ len r.2 ∨ count * 3 ≤ chk + Z.of_nat j))).
Proof.
  revert shard pos res chk. induction ms as [|m ms IH]; intros shard pos res chk Hlen; cbn [scan_shards].
  { exists 0%nat. cbn. rewrite app_nil_r. auto. }
  cbn [pending_from]. set (l := drop (Z.to_nat pos) (map_iter m)).
  pose proof (scan_entries_spec count now pattern n shard (len (map_iter m)) pos l res chk Hlen) as He.
  destruct (scan_entries _ _ _ _ _ _ _ l _ _) as [[cur res']|[res' chk']].
  - destruct He as (j & Hj & -> & _ & Hc & Hst). exists j. cbn [fst snd].
    rewrite take_app_le by lia. split_and!; [done..|]. right. rewrite length_app. split; [lia|done].
  - destruct He as (-> & -> & Hc). destruct (IH (shard + 1) 0 _ (chk + len l) Hc) as (j & Hr & Hcnt & Hcase).
    assert (pending_from ms 0 = ms ≫= map_iter) as Hp0 by (by destruct ms). rewrite Hp0 in *.
    exists (length l + j)%nat. rewrite take_app_add, accept_app, app_assoc, length_app.
    split_and!; [done..|]. destruct Hcase as [[-> ?]|[? ?]]; [left; auto|right]. unfold len in *. lia.
Qed.

Lemma scan_taken c cursor count_hint pattern now :
  core_wf c →
  let r := (scan cursor count_hint pattern now c).1 in
  ∃ j, r.2 = accept now pattern (take j (pending c cursor)) ∧ len r.2 ≤ clamp count_hint ∧
    ((j = length (pending c cursor) ∧ r.1 = 0) ∨
     (clamp count_hint ≤ Z.of_nat j ∧ (j < length (pending c cursor))%nat)).
Proof.
  intros Hwf. destruct (decide (cursor / CURSOR_STRIDE < num_shards c)) as [Hlt|Hge].
  2:{ rewrite scan_past_end by lia. exists 0%nat. unfold pending. rewrite drop_ge by (rewrite (wf_shards c Hwf); lia).
      unfold clamp, len. cbn. split_and!; [done|lia|by left]. }
  unfold scan. cbn [gets fst]. destruct (_ <=? _) eqn:H; [lia|].
  destruct (scan_shards_taken (clamp count_hint) now pattern (num_shards c) (cursor / CURSOR_STRIDE)
              (cursor mod CURSOR_STRIDE) (drop (Z.to_nat (cursor / CURSOR_STRIDE)) (shards c)) [] 0)
    as (j & Hr & Hc & Hcase); [unfold clamp, len; cbn; lia|].
  exists j. split_and!; [done..|]. destruct Hcase as [?|[Hj Hst]]; [by left|right]. split; [|done].
  rewrite Hr in Hst. fold (pending c cursor) in Hst. cbn [app] in Hst.
  pose proof (accept_length now pattern (take j (pending c cursor))) as Hl. unfold len in *.
  rewrite length_take in Hl. unfold clamp in *. lia.
Qed.

Lemma pending_sublist c cursor : pending c cursor `sublist_of` store_entries c.
Proof.
  unfold pending, store_entries. set (i := Z.to_nat _).
  assert (∀ (l : list Shard), (drop i l ≫= map_iter) `sublist_of` (l ≫= map_iter)) as H.
  { intros l. rewrite <- (take_drop i l) at 2. rewrite bind_app. apply sublist_inserts_l. done. }
  etrans; [|apply H]. destruct (drop i (shards c)) as [|m ms]; [done|]. cbn.
  apply sublist_app; [|done]. apply sublist_drop.
Qed.

Lemma NoDup_accept c cursor now pattern j :
  PlatformOk P → core_wf c → NoDup (accept now pattern (take j (pending c cursor))).
Proof.
  intros Hok Hwf. eapply sublist_NoDup; [by apply (NoDup_store_entries c)|]. unfold accept.
  apply fmap_sublist. etrans; [apply sublist_filter|]. etrans; [apply sublist_take|]. apply pending_sublist.
Qed.

Lemma elem_of_pending c cursor kv :
  PlatformOk P → core_wf c → kv ∈ pending c cursor → lookup_entry c kv.1 = Some kv.2.
Proof.
  intros Hok Hwf Hin. unfold pending, pending_from in Hin.
  destruct (drop _ (shards c)) as [|m ms] eqn:Hd; [by apply elem_of_nil in Hin|].
  assert (∃ m', m' ∈ m :: ms ∧ kv ∈ map_iter m') as (m' & Hm & Hkv).
  { apply elem_of_app in Hin as [Hin|Hin].
    - exists m. split; [set_solver|]. by eapply elem_of_drop_weak.
    - apply list_elem_of_bind in Hin as (m' & ? & ?). exists m'. set_solver. }
  rewrite <- Hd in Hm. apply elem_of_drop_weak, list_elem_of_lookup in Hm as [i Hi].
  apply (elem_of_map_iter _ _ Hok) in Hkv. by eapply lookup_entry_placed.
Qed.

Lemma elem_of_accept now pattern l k :
  k ∈ accept now pattern l ↔ ∃ e, (k, e) ∈ l ∧ wanted now pattern (k, e) = true.
Proof.
  unfold accept. rewrite list_elem_of_fmap. split.
  - intros ([k' e] & -> & H%list_elem_of_filter). naive_solver.
  - intros (e & He & Hw). exists (k, e). split; [done|]. by apply list_elem_of_filter.
Qed.

(** Every entry is pending at cursor 0. *)
Lemma pending_0 c k e :
  PlatformOk P → core_wf c → lookup_entry c k = Some e → (k, e) ∈ pending c 0.
Proof.
  intros Hok Hwf He. apply lookup_entry_shard in He as (m & Hm & Hk).
  assert (kv_in : (k, e) ∈ map_iter m) by (by apply (elem_of_map_iter m (k, e) Hok)).
  unfold pending. rewrite Z.div_0_l, Z.mod_0_l by done. simpl. rewrite drop_0.
  apply list_elem_of_lookup_2 in Hm. unfold pending_from.
  destruct (shards c) as [|m0 ms]; [by apply elem_of_nil in Hm|].
  rewrite Z2Nat.inj_0, drop_0. apply elem_of_cons in Hm as [->|Hm]; apply elem_of_app; [by left|].
  right. apply list_elem_of_bind. eauto.
Qed.

(** Every live key is pending at cursor 0. *)
Lemma all_accepted c now pattern k :
  PlatformOk P → core_wf c → is_Some (live now c k) →
  match pattern with Some pat => Glob pat k | None => True end → k ∈ accept now pattern (pending c 0).
Proof.
  intros HP Hwf [x Hx] Hm. unfold live in Hx. apply fmap_Some in Hx as (e & [He Hx]%unexpired_Some & _).
  apply elem_of_accept. exists e. split; [by apply pending_0|]. unfold wanted. simpl. rewrite Hx.
  destruct pattern; [by apply matches_pattern_Glob|done].
Qed.

Lemma elem_of_accept_pending c cursor now pattern j k :
  PlatformOk P → core_wf c → k ∈ accept now pattern (take j (pending c cursor)) →
  is_Some (live now c k) ∧ match pattern with Some pat => Glob pat k | None => True end.
Proof.
  intros Hok Hwf (e & He & Hw)%elem_of_accept. apply elem_of_take in He as (i & Hi & _).
  apply list_elem_of_lookup_2 in Hi. apply (elem_of_pending _ _ _ Hok Hwf) in Hi.
  unfold wanted in Hw. apply andb_true_iff in Hw as [Hx Hw]. simpl in *.
  split; [|destruct pattern; [by apply matches_pattern_Glob|done]].
  unfold live. rewrite Hi. simpl. destruct (expired now e); [done|]. eauto.
Qed.

Lemma full_scan_total_lemma c fuel cursor count_hint now :
  core_wf c → cursor_ok c → 0 ≤ cursor → (length (pending c cursor) < fuel)%nat →
  ∃ l, full_scan fuel cursor count_hint now c = (Some l, c).
Proof.
  intros Hwf Hok. revert cursor. induction fuel as [|fuel IH]; intros cursor Hc Hf; [lia|].
  cbn [full_scan]. unfold mbind, M_bind. cbv zeta.
  destruct (decide (cursor / CURSOR_STRIDE < num_shards c)) as [Hlt|Hge].
  2:{ rewrite scan_past_end by lia. simpl. by eexists. }
  pose proof (scan_page_lemma c cursor count_hint None now Hwf Hok Hc Hlt) as Hp.
  change ((scan cursor count_hint None now c).2) with c.
  destruct (scan cursor count_hint None now c).1 as [cur ks].
  destruct Hp as (j & _ & _ & [[_ H0]|(Hj & _ & [[H0 _]|(H1 & H2 & H3)])]); simpl in *.
  1,2: subst; simpl; by eexists.
  destruct (cur =? 0) eqn:Hz; [by eexists|].
  destruct (IH cur ltac:(lia)) as [l Hl]; [rewrite H3, length_drop; lia|].
  rewrite Hl. simpl. by eexists.
Qed.

End Scan.

(** ** Theorems *)

Section Claims.
Context {P : Platform} {CFG : HasConfig}.

(** C33: one call of [SCAN] returns the live keys matching the pattern among the
    first [j] entries the cursor has left, at most [COUNT] (clamped to 10..1000) of
    them.  It finishes with cursor 0 when nothing is left; when it stops before
    entry [j] because the page is full, the new cursor is greater and has exactly
    the entries after entry [j] left, so entry [j] itself is never visited. *)
Theorem scan_page c cursor count_hint pattern now :
  core_wf c → cursor_ok c → 0 ≤ cursor → cursor / CURSOR_STRIDE < num_shards c →
  page c (clamp count_hint) now pattern cursor 0 (pending c cursor) []
    (scan cursor count_hint pattern now c).1.
Proof. apply scan_page_lemma. Qed.

(** Every key [SCAN] returns, from any cursor, is a live key of the store and
    matches the pattern. *)
Theorem scan_sound c cursor count_hint pattern now k :
  PlatformOk P → core_wf c → cursor_ok c → 0 ≤ cursor →
  k ∈ (scan cursor count_hint pattern now c).1.2 →
  is_Some (live now c k) ∧ match pattern with Some pat => Glob pat k | None => True end.
Proof.
  intros HP Hwf Hok Hc Hk. destruct (decide (cursor / CURSOR_STRIDE < num_shards c)) as [Hlt|Hge].
  - destruct (scan_page_lemma c cursor count_hint pattern now Hwf Hok Hc Hlt) as (j & Hr & _).
    rewrite Hr in Hk. by eapply elem_of_accept_pending.
  - rewrite scan_past_end in Hk by lia. by apply elem_of_nil in Hk.
Qed.

(** A full iteration ([SCAN] until it returns cursor 0) ends after at most one
    call more than there are entries. *)
Theorem full_scan_total c cursor count_hint now :
  core_wf c → cursor_ok c → 0 ≤ cursor →
  ∃ l, full_scan (S (length (pending c cursor))) cursor count_hint now c = (Some l, c).
Proof. intros. apply full_scan_total_lemma; try done. lia. Qed.

(** A store with at most [COUNT] entries is returned completely by the first
    page: cursor 0 and exactly the live keys that match. *)
Theorem scan_small_complete c count_hint pattern now :
  PlatformOk P → core_wf c → cursor_ok c → len (pending c 0) ≤ clamp count_hint →
  (scan 0 count_hint pattern now c).1.1 = 0 ∧
  ∀ k, is_Some (live now c k) → match pattern with Some pat => Glob pat k | None => True end →
       k ∈ (scan 0 count_hint pattern now c).1.2.
Proof.
  intros HP Hwf Hok Hsmall. pose proof (wf_pos c Hwf) as Hpos.
  destruct (scan_page_lemma c 0 count_hint pattern now Hwf Hok) as (j & Hr & Hc & Hcase); [lia|done|].
  assert (j = length (pending c 0) ∧ (scan 0 count_hint pattern now c).1.1 = 0) as [-> H0].
  { destruct Hcase as [?|(Hj & Hst & _)]; [done|]. exfalso. rewrite Hr in Hst.
    pose proof (accept_length now pattern (take j (pending c 0))).
    unfold len in *. simpl in *. rewrite length_take in *. lia. }
  split; [done|]. intros k Hk Hm. rewrite Hr, firstn_all. by apply all_accepted.
Qed.

End Claims.

(** ** A key no page returns *)

#[local] Existing Instance demo_platform.
#[local] Existing Instance demo_default.

(** Twelve string keys [a], ..., [l] in a store of one shard. *)
Definition scan_demo_keys : list bytes :=
  map (λ i, [u8_of (97 + Z.of_nat i)]) (seq 0 12).

Definition scan_demo_store : Core :=
  (mfold (λ _ k, set k (bs "v") None 1000) None scan_demo_keys (new 1)).2.

(** An iteration with [COUNT 10] over a store with 12 live keys ends with
    cursor 0 and has returned only 11 of them: a key that was in the store all the
    time is missing. *)
Theorem scan_misses_a_key :
  ∃ l, (full_scan 3 0 10 1000 scan_demo_store).1 = Some l ∧
       (∀ k, k ∈ scan_demo_keys → live 1000 scan_demo_store k = Some (EV_String (bs "v"), None)) ∧
       length scan_demo_keys = 12%nat ∧ length l = 11%nat ∧ bs "b" ∈ scan_demo_keys ∧ (bs "b" ∉ l).
Proof.
  exists (filter (.≠ bs "b") (reverse scan_demo_keys)).
  split; [vm_compute; reflexivity|]. split.
  { apply Forall_forall. repeat (constructor; [vm_compute; reflexivity|]). constructor. }
  split_and!; [reflexivity|reflexivity| |];
    [by apply (list_elem_of_lookup_2 _ 1)|].
  intros [Hne _]%list_elem_of_filter. by apply Hne.
Qed.

(** ** The theorems apply *)

(** The demonstration store is well formed, and its cursors fit. *)
Lemma scan_demo_wf :
  core_wf scan_demo_store ∧ cursor_ok scan_demo_store.
Proof.
  split.
  - unfold scan_demo_store. apply (wp_mfold core_wf); [|by apply new_wf].
    intros b k c Hwf. eapply wp_mono; [by apply wp_set|].
    intros r c' (_ & e & _ & _ & HS). by eapply Step_wf.
  - split; [vm_compute; reflexivity|]. intros i m Hi.
    assert (Forall (λ m, len (map_iter m) ≤ CURSOR_STRIDE) (shards scan_demo_store)) as HF.
    { apply (bool_decide_unpack _). vm_compute. exact I. }
    by apply (Forall_lookup_1 _ _ _ _ HF Hi).
Qed.

Lemma scan_page_witness :
  page scan_demo_store (clamp 10) 1000 None 0 0 (pending scan_demo_store 0) []
    (scan 0 10 None 1000 scan_demo_store).1.
Proof.
  destruct scan_demo_wf as [Hwf Hok].
  apply (scan_page scan_demo_store 0 10 None 1000 Hwf Hok); [lia|vm_compute; reflexivity].
Defined.

Lemma scan_sound_witness :
  is_Some (live 1000 scan_demo_store (bs "c")) ∧ Glob (bs "?") (bs "c").
Proof.
  destruct scan_demo_wf as [Hwf Hok].
  apply (scan_sound scan_demo_store 0 10 (Some (bs "?")) 1000 (bs "c") demo_platform_ok Hwf Hok);
    [lia|].
  apply (bool_decide_unpack _). vm_compute. exact I.
Defined.

Lemma full_scan_total_witness :
  ∃ l, full_scan (S (length (pending scan_demo_store 0))) 0 10 1000 scan_demo_store =
       (Some l, scan_demo_store).
Proof.
  destruct scan_demo_wf as [Hwf Hok].
  apply (full_scan_total scan_demo_store 0 10 1000 Hwf Hok). lia.
Defined.

Lemma scan_small_complete_witness :
  (scan 0 20 None 1000 scan_demo_store).1.1 = 0 ∧
  ∀ k, is_Some (live 1000 scan_demo_store k) → True →
       k ∈ (scan 0 20 None 1000 scan_demo_store).1.2.
Proof.
  destruct scan_demo_wf as [Hwf Hok].
  apply (scan_small_complete scan_demo_store 20 None 1000 demo_platform_ok Hwf Hok).
  vm_compute. discriminate.
Defined.
