(* ===== verification/Eviction.v ===== *)
(** * Eviction and passive expiry ([evict_*], [expire_random_keys] of [src/store.rs])

    The three eviction policies, the admission test every write goes through, and
    the background expiry.  All of them only drop whole entries and account for
    them exactly; what they may drop differs. *)

From S2P Require Import Prelude Config S3Fifo State Store Steps StoreOps StoreSpec Memory Demo.

Section Eviction.
Context {P : Platform} {CFG : HasConfig}.

(** ** Definitions *)

(** [fastrand::usize(..store.num_shards)] and [fastrand::usize(..len)] on a shard:
    the entry sampled, with its shard. *)
Definition sample_shard : M nat :=
  n ← gets num_shards; r ← rand_usize n; mret (Z.to_nat r).
Definition sample_entry (i : nat) : M (option (bytes * Entry)) :=
  m ← gets (λ c, shard_at c i);
  if (size m =? 0)%nat then mret None
  else skip ← rand_usize (Z.of_nat (size m)); mret (map_iter m !! Z.to_nat skip).

(** Remove a victim from its shard, with the counters. *)
Definition evict_at (i : nat) (key : bytes) : M (option Z) :=
  removed ← shard_remove i key;
  match removed with
  | Some e =>
      let sz := calculate_entry_size (len key) (e_value e) in
      memory_fetch_sub sz;; evicted_fetch_add1;; mret (Some sz)
  | None => mret None
  end.

(** One round of the sampling loop of [evict_lru]: the oldest key so far, its
    time and its shard. *)
Definition lru_round (acc : option bytes * Z * nat) (_ : nat) : M (option bytes * Z * nat) :=
  let '(oldest_key, oldest_time, oldest_shard_idx) := acc in
  i ← sample_shard;
  e ← sample_entry i;
  mret (match e with
        | Some (key, e) =>
            if (match oldest_key with None => true | Some _ => false end)
               || (last_accessed e <? oldest_time)
            then (Some key, last_accessed e, i) else acc
        | None => acc
        end).

Definition evict_lru : M Z :=
  r ← mfold lru_round (None, U32_MAX, 0%nat)
        (seq 0 (Z.to_nat (eviction_sample_size (memory CONFIG))));
  match r with
  | (Some key, _, i) => sz ← evict_at i key; mret (default 0 sz)
  | (None, _, _) => mret 0
  end.

Definition evict_random : M Z :=
  i ← sample_shard;
  e ← sample_entry i;
  match e with
  | Some (key, _) => sz ← evict_at i key; mret (default 0 sz)
  | None => mret 0
  end.

(** The victim of a shard's queues, taken under the queue lock. *)
Definition take_victim (i : nat) : M (option bytes) :=
  q ← gets (λ c, queues_at c i);
  now ← (match small_queue q with _ :: _ => get_timestamp | [] => mret 0 end);
  modify (put_queues i (pop_victim ahash now q).2);;
  mret (pop_victim ahash now q).1.

(** [for _ in 0..store.num_shards], returning at the first entry removed. *)
Fixpoint evict_s3fifo_rounds (rounds : nat) : M Z :=
  match rounds with
  | O => mret 0
  | S rounds =>
      i ← sample_shard;
      victim ← take_victim i;
      match victim with
      | Some key =>
          evicted ← evict_at i key;
          match evicted with
          | Some sz => mret sz
          | None => evict_s3fifo_rounds rounds
          end
      | None => evict_s3fifo_rounds rounds
      end
  end.

Definition evict_s3fifo : M Z := n ← gets num_shards; evict_s3fifo_rounds (Z.to_nat n).

Definition evict_one (policy : EvictionPolicy) : M Z :=
  match policy with
  | AllKeysLru => evict_lru
  | AllKeysRandom => evict_random
  | AllKeysS3Fifo => evict_s3fifo
  | NoEviction => mret 0
  end.

(** The [while freed < needed_size && attempts < max_attempts] loop; the attempts
    left are the fuel. *)
Fixpoint evict_loop (attempts : nat) (freed needed_size : Z) : M unit :=
  match attempts with
  | O => mret tt
  | S attempts =>
      if freed <? needed_size then
        evicted ← evict_one EVICTION_POLICY;
        if evicted =? 0 then mret tt
        else evict_loop attempts (usize (freed + evicted)) needed_size
      else mret tt
  end.

Definition MAX_ATTEMPTS : nat := 100.

Definition evict_if_needed (needed_size : Z) : M bool :=
  let max_mem := max_memory (memory CONFIG) in
  if max_mem =? 0 then mret true else
  current ← gets MEMORY_USED;
  if u64 (current + needed_size) <=? max_mem then mret true else
  if bool_decide (EVICTION_POLICY = NoEviction) then mret false else
  evict_loop MAX_ATTEMPTS 0 needed_size;;
  final_used ← gets MEMORY_USED;
  mret (u64 (final_used + needed_size) <=? max_mem).

(** One round of [expire_random_keys]. *)
Definition expire_round (now : Z) (expired_count : Z) (_ : nat) : M Z :=
  i ← sample_shard;
  e ← sample_entry i;
  match e with
  | Some (key, e) =>
      if expired now e then
        removed ← remove_if_expired i key now;
        mret (if (removed : bool) then expired_count + 1 else expired_count)
      else mret expired_count
  | None => mret expired_count
  end.

Definition expire_random_keys (count : Z) : M Z :=
  now ← get_timestamp;
  mfold (expire_round now) 0 (seq 0 (Z.to_nat count)).

(** ** Dropping entries *)

(** From [c] to [c'] some entries satisfying [p] are dropped, [freed] bytes in all;
    everything else is as before and the accounting stays exact. *)
Record drops (p : bytes → Entry → Prop) (freed : Z) (c c' : Core) : Prop := {
  drops_wf : core_wf c';
  drops_entry k : lookup_entry c' k = lookup_entry c k ∨
                  (lookup_entry c' k = None ∧ ∃ e, lookup_entry c k = Some e ∧ p k e);
  drops_bytes : bytes_stored c' = bytes_stored c - freed;
  drops_pos : 0 ≤ freed;
  drops_drift : tracks_memory = true → drift c' = drift c
}.

Lemma drops_refl p c : core_wf c → drops p 0 c c.
Proof. intros. split; auto; lia. Qed.

Lemma drops_trans p f1 f2 c1 c2 c3 :
  drops p f1 c1 c2 → drops p f2 c2 c3 → drops p (f1 + f2) c1 c3.
Proof.
  intros [W1 E1 B1 N1 M1] [W2 E2 B2 N2 M2]. split; [done| |lia|lia|].
  2:{ intros Ht. by rewrite M2, M1. }
  intros k. destruct (E1 k) as [H1|(H1 & e & He & Hp)], (E2 k) as [H2|(H2 & e' & He' & Hp')];
    rewrite ?H1 in *; eauto 6; congruence.
Qed.

Lemma drops_quiet {A} (m : M A) p f c0 c :
  quiet m → drops p f c0 c → wp m (λ _ c', drops p f c0 c') c.
Proof.
  intros Hq [W E B N Mm]. destruct (Hq c) as (Hs & Hqs & Hn & Hu). unfold wp.
  assert (lookup_entry (m c).2 = lookup_entry c) as HL.
  { unfold lookup_entry, shard_at, shard_of. by rewrite Hs, Hn. }
  split.
  - destruct W. split; unfold shard_of in *; rewrite ?Hs, ?Hqs, ?Hn, ?Hu; done.
  - intros k. rewrite HL. apply E.
  - unfold bytes_stored in *. by rewrite Hs.
  - done.
  - intros Ht. rewrite <- (Mm Ht). unfold drift, bytes_stored. by rewrite Hs, Hu.
Qed.

Lemma esize_nonneg k o : 0 ≤ esize k o.
Proof.
  destruct o as [e|]; simpl; [|done]. unfold calculate_entry_size, entry_size.
  destruct (e_value e); apply Z.mod_pos_bound; done.
Qed.

(** Removing one entry. *)
Lemma drops_step (p : bytes → Entry → Prop) k e c c' :
  core_wf c → lookup_entry c k = Some e → p k e → Accounted k None c c' →
  drops p (esize k (Some e)) c c'.
Proof.
  intros Hwf He Hp HS. split.
  - by eapply Step_wf.
  - intros k'. destruct (decide (k' = k)) as [->|Hne].
    + right. split; [by eapply Step_lookup|eauto].
    + left. by eapply Step_lookup_ne.
  - rewrite (bytes_stored_step _ _ _ _ _ Hwf HS), He. simpl. lia.
  - apply esize_nonneg.
  - by apply (drift_accounted k None).
Qed.

Lemma drops_mem p f c c' : core_wf c → drops p f c c' → mem_ok c → mem_ok c'.
Proof.
  intros Hwf [W E B N Mm] Hm. apply mem_ok_drift; [done|]. intros Ht. rewrite (Mm Ht). by apply mem_ok_drift.
Qed.

Definition anything (k : bytes) (e : Entry) : Prop := True.

Lemma quiet_sample_shard : quiet sample_shard.
Proof. done. Qed.

Lemma quiet_sample_entry i : quiet (sample_entry i).
Proof.
  apply quiet_bind; [done|]. intros m. destruct (size m =? 0)%nat; [apply quiet_ret|].
  by apply quiet_bind.
Qed.

Lemma quiet_evicted : quiet evicted_fetch_add1.
Proof. done. Qed.

Lemma quiet_mfold {A B} (f : B → A → M B) b l : (∀ b x, quiet (f b x)) → quiet (mfold f b l).
Proof.
  intros Hf. revert b. induction l as [|x l IH]; intros b; [apply quiet_ret|].
  by apply quiet_bind.
Qed.

(** A key is found only in its own shard. *)
Lemma wp_shard_remove_any i k p c (Q : option Entry → Core → Prop) :
  core_wf c → Q None c →
  (∀ e c', lookup_entry c k = Some e → p e = true → Step k None 0 c c' → Q (Some e) c') →
  wp (shard_remove_if i k p) Q c.
Proof.
  intros Hwf Hnone Hsome. destruct (shard_at c i !! k) as [e|] eqn:He.
  - assert (i = shard_of c k) as ->.
    { unfold shard_at in He. destruct (shards c !! i) as [m|] eqn:Hm; simpl in He.
      - symmetry. apply (wf_placed c Hwf i m); eauto.
      - by rewrite lookup_empty in He. }
    pose proof (Step_refl k c Hwf) as HS. unfold lookup_entry in HS. rewrite He in HS.
    destruct (p e) eqn:Hp.
    + eapply wp_mono; [apply (wp_shard_remove_if c k Hwf p _ _ _ HS)|].
      cbv beta iota. rewrite Hp. intros r c' [-> HS']. by apply Hsome.
    + unfold shard_remove_if, shard_get. apply wp_bind, wp_gets. rewrite He, Hp. by apply wp_ret.
  - unfold shard_remove_if, shard_get. apply wp_bind, wp_gets. rewrite He. by apply wp_ret.
Qed.

Lemma wp_evict_at i k c :
  core_wf c → wp (evict_at i k) (λ r c', drops anything (default 0 r) c c') c.
Proof.
  intros Hwf. unfold evict_at. apply wp_bind, wp_shard_remove_any; [done| |].
  - apply wp_ret. by apply drops_refl.
  - intros e c1 He _ HS. apply wp_bind, wp_modify, wp_bind.
    eapply wp_mono; [apply drops_quiet; [apply quiet_evicted|]|].
    { eapply (drops_step anything k e c); [done..|]. unfold Accounted. rewrite He.
      destruct HS as [Hn Hs Hm Hq Hf Hu]. split; simpl; try done; [|intros; apply u64_range].
      intros Ht. rewrite u64_u64, <- u64_u64_sub_l, (Hm Ht), u64_u64_sub_l. f_equal. lia. }
    intros [] c2 Hd. apply wp_ret. exact Hd.
Qed.

(** The same after quiet steps. *)
Lemma wp_evict_at_from p f i k c0 c :
  drops anything f c0 c → p = anything →
  wp (evict_at i k) (λ r c', drops p (f + default 0 r) c0 c') c.
Proof.
  intros Hd ->. eapply wp_mono; [apply wp_evict_at, Hd|]. intros r c' Hd'.
  by eapply drops_trans.
Qed.

Lemma quiet_lru_round acc x : quiet (lru_round acc x).
Proof.
  destruct acc as [[k t] i]. unfold lru_round. apply quiet_bind; [apply quiet_sample_shard|].
  intros j. apply quiet_bind; [apply quiet_sample_entry|]. intros e. apply quiet_ret.
Qed.

Lemma wp_evict_lru c : core_wf c → wp evict_lru (λ r c', drops anything r c c') c.
Proof.
  intros Hwf. unfold evict_lru. apply wp_bind.
  eapply wp_mono; [apply drops_quiet; [apply quiet_mfold, quiet_lru_round|by apply drops_refl]|].
  intros [[[k|] t] i] c1 Hd; [|by apply wp_ret].
  apply wp_bind. eapply wp_mono; [by eapply wp_evict_at_from|].
  intros r c2 Hd2. by apply wp_ret.
Qed.

Lemma wp_evict_random c : core_wf c → wp evict_random (λ r c', drops anything r c c') c.
Proof.
  intros Hwf. unfold evict_random. apply wp_bind.
  eapply wp_mono; [apply drops_quiet; [apply quiet_sample_shard|by apply drops_refl]|].
  intros i c1 Hd1. apply wp_bind.
  eapply wp_mono; [apply drops_quiet; [apply (quiet_sample_entry i)|exact Hd1]|].
  intros [[k e]|] c2 Hd2; [|by apply wp_ret].
  apply wp_bind. eapply wp_mono; [by eapply wp_evict_at_from|].
  intros r c3 Hd3. by apply wp_ret.
Qed.

(** Taking a victim changes the queues only. *)
Lemma drops_put_queues p f c0 c i q :
  queues_ok q → drops p f c0 c → drops p f c0 (put_queues i q c).
Proof.
  intros Hq [W E B N Mm]. split; [|done..]. destruct W as [W1 W2 W3 W4 W5 W6].
  split; simpl; [done|done| |done| |done]; [by rewrite length_insert|].
  destruct (decide (i < length (s3fifo_queues c))%nat); [by apply Forall_insert|].
  by rewrite list_insert_ge by lia.
Qed.

Lemma queues_at_ok c i : core_wf c → queues_ok (queues_at c i).
Proof.
  intros Hwf. unfold queues_at. destruct (s3fifo_queues c !! i) as [q|] eqn:Hi; simpl.
  - by apply (Forall_lookup_1 _ _ _ _ (wf_fifo c Hwf) Hi).
  - apply queues_new_ok.
Qed.

Lemma wp_take_victim p f i c0 c :
  drops p f c0 c → wp (take_victim i) (λ _ c', drops p f c0 c') c.
Proof.
  intros Hd. unfold take_victim. pose proof (queues_at_ok c i (drops_wf _ _ _ _ Hd)) as Hq.
  apply wp_bind, wp_gets, wp_bind.
  eapply wp_mono; [apply drops_quiet; [|exact Hd]|].
  { destruct (small_queue _); [apply quiet_ret|apply quiet_get_timestamp]. }
  intros t c1 Hd1. apply wp_bind, wp_modify, wp_ret. apply drops_put_queues; [|done].
  by apply pop_victim_ok.
Qed.

Lemma wp_evict_s3fifo_rounds n f c0 c :
  drops anything f c0 c →
  wp (evict_s3fifo_rounds n) (λ r c', drops anything (f + r) c0 c') c.
Proof.
  revert c. induction n as [|n IH]; intros c Hd; cbn [evict_s3fifo_rounds].
  { apply wp_ret. by rewrite Z.add_0_r. }
  apply wp_bind. eapply wp_mono; [apply drops_quiet; [apply quiet_sample_shard|exact Hd]|].
  intros i c1 Hd1. apply wp_bind. eapply wp_mono; [eapply wp_take_victim, Hd1|].
  intros [k|] c2 Hd2; [|by apply IH]. apply wp_bind.
  eapply wp_mono; [by eapply wp_evict_at_from|]. intros [sz|] c3 Hd3; [by apply wp_ret|].
  apply IH. by rewrite Z.add_0_r in Hd3.
Qed.

Lemma wp_evict_one pol c : core_wf c → wp (evict_one pol) (λ r c', drops anything r c c') c.
Proof.
  intros Hwf. destruct pol; cbn [evict_one].
  - apply wp_ret. by apply drops_refl.
  - by apply wp_evict_lru.
  - by apply wp_evict_random.
  - apply wp_bind, wp_gets. apply (wp_evict_s3fifo_rounds _ 0). by apply drops_refl.
Qed.

Lemma wp_evict_loop n freed needed f c0 c :
  drops anything f c0 c →
  wp (evict_loop n freed needed) (λ _ c', ∃ f', drops anything f' c0 c') c.
Proof.
  revert freed f c. induction n as [|n IH]; intros freed f c Hd; cbn [evict_loop].
  { apply wp_ret. eauto. }
  destruct (_ <? _); [|apply wp_ret; eauto]. apply wp_bind.
  eapply wp_mono; [apply wp_evict_one, Hd|]. intros r c1 Hd1. cbv beta in Hd1.
  pose proof (drops_trans _ _ _ _ _ _ Hd Hd1) as Hd2.
  destruct (r =? 0); [apply wp_ret; eauto|by eapply IH].
Qed.

Lemma wp_evict_if_needed needed c :
  core_wf c →
  wp (evict_if_needed needed)
    (λ ok c', (∃ f, drops anything f c c') ∧
              (ok = true → max_memory (memory CONFIG) ≠ 0 →
               u64 (MEMORY_USED c' + needed) ≤ max_memory (memory CONFIG)) ∧
              (max_memory (memory CONFIG) = 0 → ok = true) ∧
              (EVICTION_POLICY = NoEviction ∨ max_memory (memory CONFIG) = 0 → c' = c)) c.
Proof.
  intros Hwf. pose proof (drops_refl anything c Hwf) as Hd. unfold evict_if_needed.
  destruct (_ =? 0) eqn:Hz; [apply wp_ret; split_and!; eauto; lia|].
  apply wp_bind, wp_gets. destruct (_ <=? _) eqn:Hle; [apply wp_ret; split_and!; eauto; lia|].
  case_bool_decide as Hp; [apply wp_ret; split_and!; eauto; lia|].
  apply wp_bind. eapply wp_mono; [by eapply wp_evict_loop|]. intros [] c1 Hd1.
  apply wp_bind, wp_gets, wp_ret. split_and!; [done|lia|lia|]. intros [?|?]; [done|lia].
Qed.

Lemma bytes_stored_nonneg c : 0 ≤ bytes_stored c.
Proof.
  unfold bytes_stored. induction (shards c) as [|m ms IH]; [done|]. unfold zsum in *. simpl.
  assert (0 ≤ map_sum entry_bytes m); [|lia].
  apply map_sum_nonneg. intros k e. apply (esize_nonneg k (Some e)).
Qed.

(** ** Passive expiry *)

Definition is_expired (now : Z) (k : bytes) (e : Entry) : Prop := expired now e = true.

Lemma wp_remove_if_expired_any i k now f c0 c :
  drops (is_expired now) f c0 c →
  wp (remove_if_expired i k now) (λ _ c', ∃ f', drops (is_expired now) f' c0 c') c.
Proof.
  intros Hd. pose proof (drops_wf _ _ _ _ Hd) as Hwf. unfold remove_if_expired. apply wp_bind.
  apply wp_shard_remove_any; [done|apply wp_ret; eauto|].
  intros e c1 He Hx HS. apply wp_bind. eapply wp_mono; [apply (wp_track_sub c k _ _ _ _ HS)|].
  intros [] c2 HS2. apply wp_ret. eexists. eapply drops_trans; [exact Hd|].
  eapply drops_step; [done|exact He|done|]. unfold Accounted. by rewrite He.
Qed.

Lemma wp_expire_round now n x c0 c :
  (∃ f, drops (is_expired now) f c0 c) →
  wp (expire_round now n x) (λ _ c', ∃ f', drops (is_expired now) f' c0 c') c.
Proof.
  intros [f Hd]. unfold expire_round. apply wp_bind.
  eapply wp_mono; [apply drops_quiet; [apply quiet_sample_shard|exact Hd]|].
  intros i c1 Hd1. apply wp_bind.
  eapply wp_mono; [apply drops_quiet; [apply (quiet_sample_entry i)|exact Hd1]|].
  intros [[k e]|] c2 Hd2; [|apply wp_ret; eauto].
  destruct (expired now e); [|apply wp_ret; eauto].
  apply wp_bind. eapply wp_mono; [by eapply wp_remove_if_expired_any|].
  intros b c3 Hd3. by apply wp_ret.
Qed.

Lemma wp_expire_random_keys count c :
  core_wf c →
  wp (expire_random_keys count)
    (λ _ c', ∃ f, drops (is_expired (system_time (ticks c))) f c c') c.
Proof.
  intros Hwf. unfold expire_random_keys. apply wp_bind.
  eapply wp_mono with (P := λ t c', t = system_time (ticks c) ∧ drops (is_expired t) 0 c c').
  { split; [done|]. apply (drops_quiet get_timestamp); [done|by apply drops_refl]. }
  intros t c1 [-> Hd].
  apply (wp_mfold (λ c', ∃ f, drops (is_expired (system_time (ticks c))) f c c')); [|eauto].
  intros n x c2. apply wp_expire_round.
Qed.

(** Dropping what is expired at [now] is invisible from [now] on. *)
Lemma drops_expired_live now f c c' t k :
  drops (is_expired now) f c c' → now ≤ t → live t c' k = live t c k.
Proof.
  intros Hd Ht. unfold live. destruct (drops_entry _ _ _ _ Hd k) as [->|(-> & e & -> & Hx)]; [done|].
  unfold is_expired in Hx. simpl. rewrite expired_past in *. by rewrite (past_mono now t).
Qed.

End Eviction.

(** ** Theorems *)

Section Claims.
Context {P : Platform} {CFG : HasConfig}.

(** Eviction only ever drops whole entries and accounts for them exactly: after
    [evict_if_needed], by whichever policy, every key has its old entry or none, the
    store is well formed and [MEMORY_USED] is still the number of bytes stored. *)
Theorem evict_if_needed_drops needed c :
  core_wf c → mem_ok c →
  let c' := (evict_if_needed needed c).2 in
  core_wf c' ∧ mem_ok c' ∧
  ∀ k, lookup_entry c' k = lookup_entry c k ∨ lookup_entry c' k = None.
Proof.
  intros Hwf Hm. destruct (wp_run _ _ _ (wp_evict_if_needed needed c Hwf)) as ((f & Hd) & _).
  pose proof (drops_mem _ _ _ _ Hwf Hd) as Hmem. destruct Hd as [W E B N Mm]. split_and!; [done|auto|].
  intros k. destruct (E k) as [?|[? _]]; auto.
Qed.

(** Under a limit the answer is the test on the counter, as eviction leaves it. *)
Lemma evict_if_needed_answer needed c :
  tracks_memory = true →
  let r := evict_if_needed needed c in
  r.1 = (u64 (MEMORY_USED r.2 + needed) <=? max_memory (memory CONFIG)) ∧
  (u64 (MEMORY_USED c + needed) ≤ max_memory (memory CONFIG) → r = (true, c)).
Proof.
  unfold tracks_memory, evict_if_needed. intros Ht. destruct (Z.eqb_spec (max_memory (memory CONFIG)) 0); [lia|].
  unfold mbind, M_bind, gets. cbn [fst snd].
  destruct (u64 (MEMORY_USED c + needed) <=? max_memory (memory CONFIG)) eqn:Hle; [cbn; by rewrite Hle|].
  case_bool_decide; cbn [fst snd mret M_ret]; (split; [|lia]); [by rewrite Hle|done].
Qed.

(** C20: admission control.  Under a memory limit, with the counter equal to the bytes stored
    and a write of [needed] bytes that does not overflow 64 bits with them,
    [evict_if_needed], by whichever policy, lets the write through exactly if the bytes it
    leaves stored and the write together fit in the limit; if they fit from the start it
    evicts nothing; it only ever drops whole entries, and the counter it leaves is again the
    bytes stored. *)
Theorem evict_if_needed_admits needed c :
  core_wf c → tracks_memory = true → MEMORY_USED c = u64 (bytes_stored c) →
  0 ≤ needed → bytes_stored c + needed < U64_MOD →
  let r := evict_if_needed needed c in
  (r.1 = true ↔ bytes_stored r.2 + needed ≤ max_memory (memory CONFIG)) ∧
  (bytes_stored c + needed ≤ max_memory (memory CONFIG) → r = (true, c)) ∧
  MEMORY_USED r.2 = u64 (bytes_stored r.2) ∧
  ∀ k, lookup_entry r.2 k = lookup_entry c k ∨ lookup_entry r.2 k = None.
Proof.
  intros Hwf Ht Hm Hn Hs r. assert (mem_ok c) as Hmc by exact (λ _, Hm).
  destruct (wp_run _ _ _ (wp_evict_if_needed needed c Hwf)) as ((f & Hd) & _).
  pose proof (drops_mem _ _ _ _ Hwf Hd Hmc Ht) as Hmem. destruct Hd as [W E Hb N Mm]. fold r in W, E, Hb, Hmem.
  destruct (evict_if_needed_answer needed c Ht) as [Ha Hfit]. fold r in Ha, Hfit. rewrite Hm in Hfit.
  pose proof (bytes_stored_nonneg r.2). pose proof (bytes_stored_nonneg c).
  rewrite Hmem, u64_u64_add_l, u64_small in Ha by (unfold is_u64; lia).
  rewrite u64_u64_add_l, u64_small in Hfit by (unfold is_u64; lia).
  rewrite Ha, Z.leb_le. split_and!; [done..|]. intros k. destruct (E k) as [?|[? _]]; auto.
Qed.

(** With [noeviction] no key is ever evicted: [evict_if_needed] leaves the store
    as it is. *)
Theorem noeviction_keeps_everything needed c :
  core_wf c → EVICTION_POLICY = NoEviction → (evict_if_needed needed c).2 = c.
Proof.
  intros Hwf Hp. destruct (wp_run _ _ _ (wp_evict_if_needed needed c Hwf)) as (_ & _ & _ & Hc).
  auto.
Qed.

(** Background expiry is invisible: from the time it runs on, every key has the
    same live value before and after, and [MEMORY_USED] stays exact. *)
Theorem expire_random_keys_invisible count c t k :
  core_wf c → mem_ok c → system_time (ticks c) ≤ t →
  let c' := (expire_random_keys count c).2 in
  core_wf c' ∧ mem_ok c' ∧ live t c' k = live t c k.
Proof.
  intros Hwf Hm Ht. destruct (wp_run _ _ _ (wp_expire_random_keys count c Hwf)) as [f Hd].
  pose proof (drops_mem _ _ _ _ Hwf Hd) as Hmem. pose proof Hd as [W E B N Mm]. split_and!; auto. by eapply drops_expired_live.
Qed.

End Claims.

(** ** Examples *)

#[local] Existing Instance demo_platform.

(** One-byte string keys [a], [b], ..., each entry 66 bytes, in a store of one shard;
    [b] expires at time 901. *)
Definition evict_demo_put `{HasConfig} (k : bytes) : M unit :=
  set k (bs "v") (if bool_decide (k = bs "b") then Some 1 else None) 900;;
  track_add (entry_size 1 1).

Definition evict_demo_store `{HasConfig} (n : nat) : Core :=
  (mfold (λ _ i, evict_demo_put [u8_of (97 + Z.of_nat i)]) tt (seq 0 n) (new 1)).2.

Lemma evict_demo_wf `{HasConfig} n : core_wf (evict_demo_store n).
Proof.
  apply (wp_mfold core_wf); [|by apply new_wf].
  intros b i c Hwf. apply wp_bind. eapply wp_mono; [by apply wp_set|].
  intros r c' (_ & e & _ & _ & HS).
  eapply wp_mono; [apply (wp_track_add c _ _ _ _ _ HS)|]. intros [] c2 HS2. by eapply Step_wf.
Qed.

Section Lru.
#[local] Existing Instance demo_lru.

Lemma evict_if_needed_drops_witness :
  let c' := (evict_if_needed 66 (evict_demo_store 15)).2 in
  core_wf c' ∧ mem_ok c' ∧
  ∀ k, lookup_entry c' k = lookup_entry (evict_demo_store 15) k ∨ lookup_entry c' k = None.
Proof.
  apply (evict_if_needed_drops 66 (evict_demo_store 15)).
  - apply evict_demo_wf.
  - intros _. vm_compute. reflexivity.
Defined.

Lemma evict_if_needed_admits_witness :
  let r := evict_if_needed 66 (evict_demo_store 15) in
  (r.1 = true ↔ bytes_stored r.2 + 66 ≤ max_memory (memory CONFIG)) ∧
  (bytes_stored (evict_demo_store 15) + 66 ≤ max_memory (memory CONFIG) → r = (true, evict_demo_store 15)) ∧
  MEMORY_USED r.2 = u64 (bytes_stored r.2) ∧
  ∀ k, lookup_entry r.2 k = lookup_entry (evict_demo_store 15) k ∨ lookup_entry r.2 k = None.
Proof.
  apply (evict_if_needed_admits 66 (evict_demo_store 15)).
  - apply evict_demo_wf.
  - reflexivity.
  - vm_compute. reflexivity.
  - lia.
  - vm_compute. reflexivity.
Defined.

Lemma expire_random_keys_invisible_witness :
  let c' := (expire_random_keys 20 (evict_demo_store 3)).2 in
  core_wf c' ∧ mem_ok c' ∧ live 2000 c' (bs "a") = live 2000 (evict_demo_store 3) (bs "a").
Proof.
  apply (expire_random_keys_invisible 20 (evict_demo_store 3) 2000 (bs "a")).
  - apply evict_demo_wf.
  - intros _. vm_compute. reflexivity.
  - vm_compute. discriminate.
Defined.

End Lru.

Section NoEviction.
#[local] Instance demo_noeviction : HasConfig := demo_config 1000 NoEviction.

Lemma noeviction_keeps_everything_witness :
  (evict_if_needed 66 (evict_demo_store 15)).2 = evict_demo_store 15.
Proof.
  apply (noeviction_keeps_everything 66 (evict_demo_store 15)).
  - apply evict_demo_wf.
  - reflexivity.
Defined.

End NoEviction.

Section S3Fifo.
#[local] Existing Instance demo_s3fifo.

(** S3-FIFO loses track of keys.  The Small queue of a shard holds 10 keys; the
    eleventh key pushed drops the oldest from the queue but leaves it in the store.
    Ten evictions later [evict_s3fifo] frees nothing, although a live key is still
    stored. *)
Theorem s3fifo_orphans_a_key :
  let c := (mfold (λ n _, sz ← evict_s3fifo; mret (n + sz)) 0 (seq 0 10) (evict_demo_store 11)).2 in
  bytes_stored c = 66 ∧ live 1000 c (bs "a") = Some (EV_String (bs "v"), None) ∧
  (evict_s3fifo c).1 = 0.
Proof. vm_compute. split_and!; reflexivity. Qed.

End S3Fifo.
