(* ===== verification/Handlers.v ===== *)
(** * Command handlers ([handle_*] of [src/main.rs])

    Each handler of a command on the store, as a function of the command's
    arguments, the time [now] and the writer's buffer [w]: it runs on the shared
    state and returns the buffer with the reply appended. *)

From S2P Require Import Prelude Decimal Protocol Glob Config S3Fifo State Store Scan Eviction.

(** ** Messages *)

Definition WRONG_ARGS : bytes := bs "wrong number of arguments".
Definition SYNTAX_ERROR : bytes := bs "syntax error".
Definition NOT_INTEGER : bytes := bs "value is not an integer or out of range".
Definition OOM : bytes := bs "OOM command not allowed when used memory > 'maxmemory'".

(** [Some(v) => write_bulk_string(v), None => write_null()]. *)
Definition write_opt (w : bytes) (o : option bytes) : bytes :=
  match o with Some v => write_bulk_string w v | None => write_null w end.

(** ** Option parsing *)

Record SetOpts := mkSetOpts { so_ttl : option Z; so_nx : bool; so_xx : bool; so_get : bool }.

Definition eqc (b : byte) (c : byte) : bool := bool_decide (or_0x20 b = c).

(** The option loop of [handle_set]. *)
Fixpoint parse_set_opts (opts : list bytes) (o : SetOpts) : Result SetOpts bytes :=
  match opts with
  | [] => Ok o
  | opt :: opts =>
      match opt with
      | [a; b] =>
          if eqc a x65 && eqc b x78 (* ex *) then
            match opts with
            | [] => Err SYNTAX_ERROR
            | arg :: opts =>
                match parse_u64 arg with
                | Some v =>
                    if 0 <? v then parse_set_opts opts (mkSetOpts (Some v) (so_nx o) (so_xx o) (so_get o))
                    else Err NOT_INTEGER
                | None => Err NOT_INTEGER
                end
            end
          else if eqc a x70 && eqc b x78 (* px *) then
            match opts with
            | [] => Err SYNTAX_ERROR
            | arg :: opts =>
                match parse_u64 arg with
                | Some v =>
                    if 0 <? v then
                      parse_set_opts opts
                        (mkSetOpts (Some ((v + 999) / 1000)) (so_nx o) (so_xx o) (so_get o))
                    else Err NOT_INTEGER
                | None => Err NOT_INTEGER
                end
            end
          else if eqc a x6e && eqc b x78 (* nx *) then
            parse_set_opts opts (mkSetOpts (so_ttl o) true (so_xx o) (so_get o))
          else if eqc a x78 && eqc b x78 (* xx *) then
            parse_set_opts opts (mkSetOpts (so_ttl o) (so_nx o) true (so_get o))
          else Err SYNTAX_ERROR
      | [a; b; c] =>
          if eqc a x67 && eqc b x65 && eqc c x74 (* get *) then
            parse_set_opts opts (mkSetOpts (so_ttl o) (so_nx o) (so_xx o) true)
          else Err SYNTAX_ERROR
      | _ => Err SYNTAX_ERROR
      end
  end.

(** The option loop of [handle_scan]: [count_hint] and [pattern]. *)
Fixpoint parse_scan_opts (opts : list bytes) (count_hint : Z) (pattern : option bytes)
    : Result (Z * option bytes) bytes :=
  match opts with
  | [] => Ok (count_hint, pattern)
  | arg :: opts =>
      match opts with
      | [] => Err SYNTAX_ERROR
      | v :: opts =>
          if bool_decide (map or_0x20 arg = bs "match") then parse_scan_opts opts count_hint (Some v)
          else if bool_decide (map or_0x20 arg = bs "count") then
            match parse_u64 v with
            | Some c => parse_scan_opts opts c pattern
            | None => Err NOT_INTEGER
            end
          else Err SYNTAX_ERROR
      end
  end.

(** [command[i], command[i+1], ...] as pairs. *)
Fixpoint pairs_of (l : list bytes) : list (bytes * bytes) :=
  match l with
  | a :: b :: l => (a, b) :: pairs_of l
  | _ => []
  end.

Section Handlers.
Context {P : Platform} {CFG : HasConfig}.

(** ** Writes *)

(** The accounting that follows [store.set]. *)
Definition account_set (old_size : option Z) (size : Z) : M unit :=
  if tracks_memory then
    match old_size with Some old => memory_fetch_sub old | None => mret tt end;;
    memory_fetch_add size
  else mret tt.

(** The live string value of a key, for [NX], [XX] and [GET]. *)
Definition live_string (i : nat) (key : bytes) (now : Z) : M (option bytes) :=
  e ← shard_get i key;
  mret (match e with
        | Some e =>
            if expired now e then None
            else match e_value e with EV_String v => Some v | EV_Hash _ => None end
        | None => None
        end).

Definition handle_set (command : list bytes) (w : bytes) (now : Z) : M bytes :=
  match command with
  | _ :: key :: value :: opts =>
      let size := entry_size (len key) (len value) in
      ok ← evict_if_needed size;
      if negb ok then mret (write_error w OOM) else
      match parse_set_opts opts (mkSetOpts None false false false) with
      | Err e => mret (write_error w e)
      | Ok (mkSetOpts ttl nx xx get) =>
          if nx && xx then
            mret (write_error w (bs "XX and NX options at the same time are not compatible"))
          else
            i ← hash key;
            old_value ← (if nx || xx || get then live_string i key now else mret None);
            let key_exists := bool_decide (is_Some old_value) in
            if nx && key_exists then
              mret (if get then write_opt w old_value else write_null w)
            else if xx && negb key_exists then mret (write_null w)
            else
              old_size ← set key value ttl now;
              account_set old_size size;;
              mret (if get then write_opt w old_value else write_simple_string w (bs "OK"))
      end
  | _ => mret (write_error w WRONG_ARGS)
  end.

(** What [handle_incr] reads first: the current value, the TTL to keep and the
    size of the entry it replaces; or the error it replies. *)
Definition incr_current (key : bytes) (now : Z) : M (Result (Z * option Z * Z) bytes) :=
  i ← hash key;
  e ← shard_get i key;
  match e with
  | Some e =>
      match e_value e with
      | EV_Hash _ => mret (Err WRONGTYPE)
      | EV_String s =>
          let parsed ttl :=
            match parse_i64 s with
            | Some v => Ok (v, ttl, calculate_entry_size (len key) (e_value e))
            | None => Err NOT_INTEGER
            end in
          match e_expiry e with
          | Some expiry =>
              if expiry <=? now then remove_if_expired i key now;; mret (Ok (0, None, 0))
              else mret (parsed (Some (sat_u64 (expiry - now))))
          | None => mret (parsed None)
          end
      end
  | None => mret (Ok (0, None, 0))
  end.

Definition handle_incr (command : list bytes) (w : bytes) (now delta : Z) : M bytes :=
  match command with
  | _ :: key :: _ =>
      r ← incr_current key now;
      match r with
      | Err e => mret (write_error w e)
      | Ok (current, existing_ttl, old_size_for_eviction) =>
          match checked_i64 (current + delta) with
          | None =>
              mret (write_error w (if 0 <? delta then bs "increment would produce overflow"
                                   else bs "decrement would produce overflow"))
          | Some new_val =>
              let val_bytes := fmt_signed new_val in
              let size := entry_size (len key) (len val_bytes) in
              let net_size := sat_u64 (size - old_size_for_eviction) in
              ok ← (if 0 <? net_size then evict_if_needed net_size else mret true);
              if negb ok then mret (write_error w OOM) else
              old_size ← set key val_bytes existing_ttl now;
              account_set old_size size;;
              mret (write_signed_integer w new_val)
          end
      end
  | _ => mret (write_error w WRONG_ARGS)
  end.

Definition handle_incrby (command : list bytes) (w : bytes) (now : Z) : M bytes :=
  match command with
  | _ :: _ :: n :: _ =>
      match parse_i64 n with
      | Some increment => handle_incr command w now increment
      | None => mret (write_error w NOT_INTEGER)
      end
  | _ => mret (write_error w WRONG_ARGS)
  end.

Definition handle_decrby (command : list bytes) (w : bytes) (now : Z) : M bytes :=
  match command with
  | _ :: _ :: n :: _ =>
      match parse_i64 n with
      | Some decrement =>
          if decrement =? I64_MIN then mret (write_error w NOT_INTEGER)
          else handle_incr command w now (- decrement)
      | None => mret (write_error w NOT_INTEGER)
      end
  | _ => mret (write_error w WRONG_ARGS)
  end.

(** The net size of an [MSET], an [i64] sum. *)
Definition mset_net (now : Z) (net_size : Z) (kv : bytes * bytes) : M Z :=
  old ← get_existing_size kv.1 now;
  mret (i64 (net_size + i64 (i64 (entry_size (len kv.1) (len kv.2)) - i64 (default 0 old)))).

Definition mset_one (now : Z) (_ : unit) (kv : bytes * bytes) : M unit :=
  old_size ← set kv.1 kv.2 None now;
  account_set old_size (entry_size (len kv.1) (len kv.2)).

Definition handle_mset (command : list bytes) (w : bytes) (now : Z) : M bytes :=
  if (len command <? 3) || negb ((len command - 1) mod 2 =? 0) then
    mret (write_error w (bs "wrong number of arguments for MSET"))
  else
    let kvs := pairs_of (drop 1 command) in
    net_size ← mfold (mset_net now) 0 kvs;
    ok ← (if 0 <? net_size then evict_if_needed (usize net_size) else mret true);
    if negb ok then mret (write_error w OOM) else
    mfold (mset_one now) tt kvs;;
    mret (write_simple_string w (bs "OK")).

(** ** Expiry *)

Definition ttl_reply (command : list bytes) (w : bytes) (now : Z) (remaining : Z → Z) : M bytes :=
  match command with
  | _ :: key :: _ =>
      i ← hash key;
      e ← shard_get i key;
      match e with
      | Some e =>
          match e_expiry e with
          | Some expiry =>
              if expiry <=? now then
                remove_if_expired i key now;; mret (write_signed_integer w (-2))
              else mret (write_signed_integer w (remaining expiry))
          | None => mret (write_signed_integer w (-1))
          end
      | None => mret (write_signed_integer w (-2))
      end
  | _ => mret (write_error w WRONG_ARGS)
  end.

Definition handle_ttl (command : list bytes) (w : bytes) (now : Z) : M bytes :=
  ttl_reply command w now (λ expiry, i64 (u64 (expiry - now))).

Definition handle_pttl (command : list bytes) (w : bytes) (now : Z) : M bytes :=
  ttl_reply command w now
    (λ expiry, Z.min (sat_u64 (sat_u64 (expiry - now) * 1000)) I64_MAX).

Definition handle_expire (command : list bytes) (w : bytes) (now : Z) : M bytes :=
  match command with
  | _ :: key :: n :: _ =>
      match parse_i64 n with
      | None => mret (write_error w NOT_INTEGER)
      | Some v =>
          if 0 <? v then
            i ← hash key;
            e ← shard_get i key;
            match e with
            | Some e =>
                if expired now e then remove_if_expired i key now;; mret (write_integer w 0)
                else
                  shard_alter i key (with_expiry (Some (u64 (now + v))));;
                  mret (write_integer w 1)
            | None => mret (write_integer w 0)
            end
          else
            count ← delete [key] now;
            mret (write_integer w count)
      end
  | _ => mret (write_error w WRONG_ARGS)
  end.

Definition handle_persist (command : list bytes) (w : bytes) (now : Z) : M bytes :=
  match command with
  | _ :: key :: _ =>
      i ← hash key;
      e ← shard_get i key;
      match e with
      | Some e =>
          match e_expiry e with
          | Some expiry =>
              if expiry <=? now then remove_if_expired i key now;; mret (write_integer w 0)
              else shard_alter i key (with_expiry None);; mret (write_integer w 1)
          | None => mret (write_integer w 0)
          end
      | None => mret (write_integer w 0)
      end
  | _ => mret (write_error w WRONG_ARGS)
  end.

(** ** Reads *)

Definition handle_get (command : list bytes) (w : bytes) (now : Z) : M bytes :=
  match command with
  | _ :: key :: _ => v ← get key now; mret (write_opt w v)
  | _ => mret (write_error w WRONG_ARGS)
  end.

Definition handle_del (command : list bytes) (w : bytes) (now : Z) : M bytes :=
  count ← delete (drop 1 command) now; mret (write_integer w count).

Definition handle_exists (command : list bytes) (w : bytes) (now : Z) : M bytes :=
  match command with
  | _ :: _ :: _ => count ← exists_ (drop 1 command) now; mret (write_integer w count)
  | _ => mret (write_error w WRONG_ARGS)
  end.

Definition handle_type (command : list bytes) (w : bytes) (now : Z) : M bytes :=
  match command with
  | _ :: key :: _ => t ← key_type key now; mret (write_simple_string w (bs t))
  | _ => mret (write_error w WRONG_ARGS)
  end.

Definition handle_mget (command : list bytes) (w : bytes) (now : Z) : M bytes :=
  match command with
  | _ :: _ :: _ =>
      mfold (λ w key, v ← get key now; mret (write_opt w v))
        (write_array_header w (len command - 1)) (drop 1 command)
  | _ => mret (write_error w WRONG_ARGS)
  end.

Definition handle_scan (command : list bytes) (w : bytes) (now : Z) : M bytes :=
  match command with
  | _ :: c :: opts =>
      match parse_u64 c with
      | None => mret (write_error w (bs "invalid cursor"))
      | Some cursor =>
          match parse_scan_opts opts 10 None with
          | Err e => mret (write_error w e)
          | Ok (count_hint, pattern) =>
              r ← scan cursor count_hint pattern now;
              let w := write_array_header w 2 in
              let w := write_bulk_string w (fmt_unsigned r.1) in
              mret (fold_left write_bulk_string r.2 (write_array_header w (len r.2)))
          end
      end
  | _ => mret (write_error w (bs "wrong number of arguments for 'scan' command"))
  end.

(** ** Hashes *)

Definition handle_hset (command : list bytes) (w : bytes) (now : Z) : M bytes :=
  if (len command <? 4) || negb ((len command - 2) mod 2 =? 0) then
    mret (write_error w (bs "wrong number of arguments for 'hset' command"))
  else
    r ← hset (nth 1 command []) (pairs_of (drop 2 command)) now;
    mret (match r with Ok count => write_integer w count | Err e => write_error w e end).

Definition handle_hget (command : list bytes) (w : bytes) (now : Z) : M bytes :=
  match command with
  | _ :: key :: field :: _ =>
      r ← hget key field now;
      mret (match r with Ok v => write_opt w v | Err e => write_error w e end)
  | _ => mret (write_error w (bs "wrong number of arguments for 'hget' command"))
  end.

Definition handle_hgetall (command : list bytes) (w : bytes) (now : Z) : M bytes :=
  match command with
  | _ :: key :: _ =>
      r ← hgetall key now;
      mret (match r with Ok l => write_array w l | Err e => write_error w e end)
  | _ => mret (write_error w (bs "wrong number of arguments for 'hgetall' command"))
  end.

Definition handle_hdel (command : list bytes) (w : bytes) (now : Z) : M bytes :=
  match command with
  | _ :: key :: field :: fields =>
      r ← hdel key (field :: fields) now;
      mret (match r with Ok count => write_integer w count | Err e => write_error w e end)
  | _ => mret (write_error w (bs "wrong number of arguments for 'hdel' command"))
  end.

(** ** [FLUSHDB] and [FLUSHALL] *)

(** The bytes of the entries that are live at [now]. *)
Definition live_bytes (now : Z) (c : Core) : Z :=
  fold_left (λ acc kv, u64 (acc + calculate_entry_size (len kv.1) (e_value kv.2)))
    (filter (λ kv, expired now kv.2 = false) (store_entries c)) 0.

(** The compare-and-swap loop ends at its first attempt when no other thread
    touches [MEMORY_USED]. *)
Definition handle_flush (w : bytes) : M bytes :=
  now ← get_timestamp;
  actual_memory ← gets (live_bytes now);
  clear;;
  modify (λ c, set_memory (if MEMORY_USED c <=? actual_memory then 0
                           else MEMORY_USED c - actual_memory) c);;
  mret (write_simple_string w (bs "OK")).

End Handlers.
