(* ===== verification/HandlerSpec.v ===== *)
(** * What the command handlers do

    The handlers of Handlers.v against the abstract database of StoreSpec.v: the
    reply they write and the database they leave, with the keys eviction may have
    dropped made explicit; and their memory accounting. *)

From S2P Require Import Prelude Decimal Protocol Glob Config S3Fifo State Store Steps StoreOps.
From S2P Require Import StoreSpec Memory Scan Eviction Handlers Demo.

Section Spec.
Context {P : Platform} {CFG : HasConfig}.

(** ** [SET] with its accounting *)

Lemma wp_account_set k old size o d c0 c :
  Step k o d c0 c →
  wp (account_set old size) (λ _ c', Step k o (d - default 0 old + size) c0 c') c.
Proof.
  intros [Hn Hs Hm Hq Hf Hu]. unfold account_set. destruct tracks_memory eqn:Ht.
  - specialize (Hm eq_refl). destruct old as [old|]; apply wp_bind.
    + apply wp_modify, wp_modify. split; simpl; try done; [|intros; apply u64_range].
      intros _. rewrite u64_u64, u64_u64_add_l.
      replace (MEMORY_USED c0 + (d - old + size)) with ((MEMORY_USED c0 + d) + (size - old)) by lia.
      rewrite <- (u64_u64_add_l (MEMORY_USED c0 + d)), <- Hm, u64_u64_add_l. f_equal. lia.
    + apply wp_ret, wp_modify. split; simpl; try done; [|intros; apply u64_range].
      intros _. rewrite u64_u64.
      replace (MEMORY_USED c0 + (d - 0 + size)) with ((MEMORY_USED c0 + d) + size) by lia.
      by rewrite <- (u64_u64_add_l (MEMORY_USED c0 + d)), <- Hm, u64_u64_add_l.
  - apply wp_ret. split; try done. congruence.
Qed.

(** [store.set] and the accounting after it, as every caller does them. *)
Definition set_accounted (k v : bytes) (ttl : option Z) (now : Z) : M unit :=
  old_size ← set k v ttl now; account_set old_size (entry_size (len k) (len v)).

Lemma wp_set_accounted k v ttl now c :
  core_wf c →
  wp (set_accounted k v ttl now)
    (λ _ c', ∃ e, e_value e = EV_String v ∧ e_expiry e = (λ s, u64 (now + s)) <$> ttl ∧
                  Accounted k (Some e) c c') c.
Proof.
  intros Hwf. apply wp_bind. eapply wp_mono; [by apply wp_set|].
  intros old c1 (-> & e & Hv & Hx & HS). eapply wp_mono; [apply (wp_account_set k _ _ _ _ _ _ HS)|].
  intros [] c2 HS2. exists e. split_and!; [done..|]. eapply Step_delta; [exact HS2|].
  cbn [esize]. rewrite Hv. cbn [calculate_entry_size].
  destruct (lookup_entry c k); simpl; lia.
Qed.

(** ** Eviction against the database *)

(** Dropping entries leaves a sub-database. *)
Lemma drops_sim p f now c c1 db :
  drops p f c c1 → sim now c db → ∃ db1, db1 ⊆ db ∧ sim now c1 db1.
Proof.
  intros Hd [_ Hl]. exists (filter (λ kv, is_Some (lookup_entry c1 kv.1)) db).
  split; [apply map_filter_subseteq|]. split; [apply (drops_wf _ _ _ _ Hd)|].
  intros k. specialize (Hl k). destruct (lookup_entry c1 k) as [e|] eqn:E1.
  - assert (lookup_entry c k = Some e) as Ek
      by (destruct (drops_entry _ _ _ _ Hd k) as [He|(He & _)]; congruence).
    rewrite Ek in Hl. cbn in *. apply map_lookup_filter_Some. split; [done|]. by exists e.
  - cbn. unfold db_live. rewrite map_lookup_filter_None_2; [done|]. right. intros x _ [e He].
    change (lookup_entry c1 k = Some e) in He. congruence.
Qed.

(** Dropping expired entries changes nothing visible. *)
Lemma drops_expired_sim t now f c c' db :
  drops (is_expired t) f c c' → t ≤ now → sim now c db → sim now c' db.
Proof.
  intros Hd Ht Hs. split; [apply (drops_wf _ _ _ _ Hd)|]. intros k.
  destruct (drops_entry _ _ _ _ Hd k) as [->|(-> & e & Hk & Hx)]; [apply Hs|].
  cbn. rewrite (live_db now c db k Hs), Hk. cbn. unfold is_expired in Hx.
  rewrite expired_past in *. by rewrite (past_mono t now).
Qed.

Lemma wp_evict_sim needed now c db :
  sim now c db →
  wp (evict_if_needed needed)
    (λ ok c', ∃ db1, db1 ⊆ db ∧ sim now c' db1 ∧
                     (max_memory (memory CONFIG) = 0 → ok = true ∧ db1 = db)) c.
Proof.
  intros Hs. eapply wp_mono; [apply wp_evict_if_needed, Hs|].
  intros ok c' ((f & Hd) & _ & Hz & Hsame).
  destruct (decide (max_memory (memory CONFIG) = 0)) as [H0|H0].
  - rewrite Hsame by auto. exists db. split_and!; auto.
  - destruct (drops_sim _ _ _ _ _ _ Hd Hs) as (db1 & ? & ?). exists db1. by split_and!.
Qed.

(** ** [SET] *)

Definition db_string (now : Z) (db : Db) (k : bytes) : option bytes :=
  db_read now db k None string_reply.

(** [SET key value] with parsed options: the reply and the database it leaves. *)
Definition db_set (now : Z) (db : Db) (key value : bytes) (o : SetOpts) (w : bytes) : bytes * Db :=
  let old := if so_nx o || so_xx o || so_get o then db_string now db key else None in
  let old_reply := if so_get o then write_opt w old else write_null w in
  match so_nx o, so_xx o, old with
  | true, _, Some _ => (old_reply, db)
  | false, true, None => (write_null w, db)
  | _, _, _ =>
      (if so_get o then write_opt w old else write_simple_string w (bs "OK"),
       <[key:=(EV_String value, (λ s, u64 (now + s)) <$> so_ttl o)]> db)
  end.

(** The outcome of a write that goes through admission control: eviction may first
    drop keys, leaving [db1]; then the write is refused, or done on [db1]. *)
Definition admitted (db : Db) (w w' : bytes) (c' : Core) (now : Z) (act : Db → bytes * Db) : Prop :=
  ∃ db1, db1 ⊆ db ∧ (max_memory (memory CONFIG) = 0 → db1 = db) ∧
    ((w' = write_error w OOM ∧ max_memory (memory CONFIG) ≠ 0 ∧ sim now c' db1) ∨
     (w' = (act db1).1 ∧ sim now c' (act db1).2)).

Lemma wp_live_string c k now db :
  sim now c db →
  wp (live_string (shard_of c k) k now) (λ r c', r = db_string now db k ∧ c' = c) c.
Proof.
  intros Hs. apply wp_bind, wp_gets, wp_ret. split; [|done]. unfold db_string, db_read.
  rewrite (live_db now c db k Hs). fold (lookup_entry c k).
  destruct (lookup_entry c k) as [e|]; simpl; [|done]. by destruct (expired now e).
Qed.

(** The options of [SET], as the handler reads them. *)
Definition set_act (now : Z) (key value : bytes) (opts : list bytes) (w : bytes) (db : Db)
    : bytes * Db :=
  match parse_set_opts opts (mkSetOpts None false false false) with
  | Err e => (write_error w e, db)
  | Ok o =>
      if so_nx o && so_xx o then
        (write_error w (bs "XX and NX options at the same time are not compatible"), db)
      else db_set now db key value o w
  end.

Lemma sim_set_accounted now k v ttl c db :
  sim now c db →
  wp (set_accounted k v ttl now)
    (λ _ c', sim now c' (<[k:=(EV_String v, (λ s, u64 (now + s)) <$> ttl)]> db)) c.
Proof.
  intros Hs. eapply wp_mono; [apply wp_set_accounted, Hs|].
  intros [] c' (e & Hv & Hx & HS). rewrite <- Hx, <- Hv. by eapply sim_insert.
Qed.

(** A refused write, a write done. *)
Lemma admitted_oom db db1 w c' now act :
  db1 ⊆ db → (max_memory (memory CONFIG) = 0 → false = true ∧ db1 = db) → sim now c' db1 →
  admitted db w (write_error w OOM) c' now act.
Proof.
  intros Hsub Hz Hs. exists db1. split; [done|]. split; [by intros [? ?]%Hz|].
  left. split_and!; [done| |done]. by intros [? ?]%Hz.
Qed.

Lemma admitted_done db db1 w w' c' now act :
  db1 ⊆ db → (max_memory (memory CONFIG) = 0 → true = true ∧ db1 = db) →
  w' = (act db1).1 → sim now c' (act db1).2 → admitted db w w' c' now act.
Proof.
  intros Hsub Hz Hw Hs. exists db1. split; [done|]. split; [by intros [_ ?]%Hz|]. by right.
Qed.

(** [SET] after admission: the conditions, then the store. *)
Lemma wp_set_body key value o w now c db :
  so_nx o && so_xx o = false → sim now c db →
  wp (i ← hash key;
      old_value ← (if so_nx o || so_xx o || so_get o then live_string i key now else mret None);
      let key_exists := bool_decide (is_Some old_value) in
      if so_nx o && key_exists then
        mret (if so_get o then write_opt w old_value else write_null w)
      else if so_xx o && negb key_exists then mret (write_null w)
      else
        old_size ← set key value (so_ttl o) now;
        account_set old_size (entry_size (len key) (len value));;
        mret (if so_get o then write_opt w old_value else write_simple_string w (bs "OK")))
    (λ w' c', w' = (db_set now db key value o w).1 ∧
              sim now c' (db_set now db key value o w).2) c.
Proof.
  destruct o as [ttl nx xx get]; cbn [so_nx so_xx so_get so_ttl]. intros Hnx Hs.
  apply wp_bind, wp_gets, wp_bind. fold (shard_of c key).
  eapply wp_mono with
    (P := λ r c', r = (if nx || xx || get then db_string now db key else None) ∧ c' = c).
  { destruct (nx || xx || get); [by apply wp_live_string|by apply wp_ret]. }
  intros old c2 (Hold & ->). unfold db_set. cbn [so_nx so_xx so_get so_ttl].
  rewrite <- Hold. clear Hold. cbv zeta.
  destruct nx, xx, old as [v|]; try done; cbn [andb negb];
    rewrite ?bool_decide_true, ?bool_decide_false by (eauto || by intros [? ?]); cbn [negb];
    try by apply wp_ret.
  all: apply wp_assoc;
    (eapply wp_mono; [exact (sim_set_accounted now key value ttl c db Hs)|]);
    intros [] c3 Hs3; by apply wp_ret.
Qed.

Lemma wp_handle_set name key value opts w now c db :
  sim now c db →
  wp (handle_set (name :: key :: value :: opts) w now)
    (λ w' c', admitted db w w' c' now (set_act now key value opts w)) c.
Proof.
  intros Hs. cbn [handle_set]. apply wp_bind. eapply wp_mono; [by apply wp_evict_sim|].
  intros [] c1 (db1 & Hsub & Hs1 & Hz); cbn [negb]; [|by apply wp_ret, (admitted_oom _ db1)].
  destruct (parse_set_opts opts _) as [o|e] eqn:Ho.
  2:{ apply wp_ret, (admitted_done _ db1); unfold set_act; by rewrite ?Ho. }
  destruct (so_nx o && so_xx o) eqn:Hnx; destruct o as [ttl nx xx get]; cbn [so_nx so_xx] in Hnx;
    rewrite Hnx.
  { apply wp_ret, (admitted_done _ db1); unfold set_act; rewrite ?Ho; cbn [so_nx so_xx];
      by rewrite ?Hnx. }
  eapply wp_mono; [by apply (wp_set_body key value (mkSetOpts ttl nx xx get) w now c1 db1)|].
  intros w' c2 [Hw Hs2]. apply (admitted_done _ db1); [done..| |];
    unfold set_act; rewrite Ho; cbn [so_nx so_xx]; by rewrite Hnx.
Qed.

(** ** Commands without admission control *)

(** The handler [h] does what [act] does to the database. *)
Definition refines (now : Z) (h : M bytes) (act : Db → bytes * Db) : Prop :=
  ∀ c db, sim now c db → wp h (λ w' c', w' = (act db).1 ∧ sim now c' (act db).2) c.

Lemma refines_ret now w : refines now (mret w) (λ db, (w, db)).
Proof. intros c db Hs. by apply wp_ret. Qed.

(** From a store operation and the encoding of its reply. *)
Lemma refines_op {A : Type} (now : Z) (op : StoreOp) (m : M A) (C : A → Reply) (enc : A → bytes) (sp : Db → A) :
  (∀ r r', C r = C r' → r = r') → run_op op now = (r ← m; mret (C r)) →
  (∀ db, (spec_op op now db).1 = C (sp db)) →
  refines now (r ← m; mret (enc r)) (λ db, (enc (sp db), (spec_op op now db).2)).
Proof.
  intros Hinj Hrun Hsp c db Hs. pose proof (simulates_op now op c db Hs) as Hw.
  rewrite Hrun in Hw. unfold wp, mbind, M_bind in *. cbv zeta in *. simpl in *.
  destruct Hw as [Hr Hs']. split; [|done]. f_equal. apply Hinj. by rewrite Hr, Hsp.
Qed.

(** Commands that look one key up and treat an expired one as absent. *)
Lemma wp_expired_gone {A : Type} c k now e (a : A) :
  core_wf c → lookup_entry c k = Some e → expired now e = true →
  wp (remove_if_expired (shard_of c k) k now;; mret a)
    (λ r c', r = a ∧ Accounted k None c c') c.
Proof.
  intros Hwf He Hx. pose proof (Step_refl k c Hwf) as HS. rewrite He in HS.
  apply wp_bind. eapply wp_mono; [apply (wp_remove_if_expired c k Hwf now _ _ _ HS)|].
  cbv beta iota. rewrite Hx. intros b c' HS'. apply wp_ret. split; [done|].
  unfold Accounted. by rewrite He.
Qed.

Lemma sim_gone now c k e d c' db :
  sim now c db → lookup_entry c k = Some e → expired now e = true → Step k None d c c' →
  sim now c' db.
Proof.
  intros Hs He Hx HS. eapply sim_refreshed; [done| |done]. rewrite He. simpl. by rewrite Hx.
Qed.

Lemma db_live_gone now c k e db :
  sim now c db → lookup_entry c k = Some e → expired now e = true → db_live now db k = None.
Proof. intros Hs He Hx. rewrite (live_db now c db k Hs), He. simpl. by rewrite Hx. Qed.

Lemma db_live_here now c k e db :
  sim now c db → lookup_entry c k = Some e → expired now e = false →
  db_live now db k = Some (data e).
Proof. intros Hs He Hx. rewrite (live_db now c db k Hs), He. simpl. by rewrite Hx. Qed.

Lemma db_live_none now c k db :
  sim now c db → lookup_entry c k = None → db_live now db k = None.
Proof. intros Hs He. by rewrite (live_db now c db k Hs), He. Qed.

(** [TTL] and [PTTL]. *)
Definition db_ttl (now : Z) (db : Db) (k : bytes) (remaining : Z → Z) : Z :=
  match db_live now db k with
  | Some (_, Some x) => remaining x
  | Some (_, None) => -1
  | None => -2
  end.

Lemma refines_ttl_reply name key rest w now remaining :
  refines now (ttl_reply (name :: key :: rest) w now remaining)
    (λ db, (write_signed_integer w (db_ttl now db key remaining), db)).
Proof.
  intros c db Hs. cbn [ttl_reply]. apply (wp_find c key (λ i e, _)). unfold db_ttl.
  destruct (lookup_entry c key) as [e|] eqn:He.
  2:{ rewrite (db_live_none now c key db Hs He). by apply wp_ret. }
  destruct (expired now e) eqn:Hx.
  - rewrite (db_live_gone now c key e db Hs He Hx). unfold expired in Hx.
    destruct (e_expiry e) as [x|] eqn:Ex; [|done]. rewrite Hx.
    eapply wp_mono; [eapply wp_expired_gone; [apply Hs|done|unfold expired; by rewrite Ex]|].
    intros r c' [-> HS]. split; [done|]. eapply sim_gone; [done..| |done]. unfold expired. by rewrite Ex.
  - rewrite (db_live_here now c key e db Hs He Hx). unfold expired, data in *.
    destruct (e_expiry e) as [x|]; [rewrite Hx|]; by apply wp_ret.
Qed.

(** [EXPIRE]. *)
Definition db_expire (now : Z) (db : Db) (k : bytes) (v : Z) : Z * Db :=
  if 0 <? v then
    match db_live now db k with
    | Some (val, _) => (1, <[k:=(val, Some (u64 (now + v)))]> db)
    | None => (0, db)
    end
  else (db_count now db k, base.delete k db).

Lemma wp_shard_alter_same c k f e :
  core_wf c → lookup_entry c k = Some e → e_value (f e) = e_value e →
  wp (shard_alter (shard_of c k) k f) (λ _ c', Accounted k (Some (f e)) c c') c.
Proof.
  intros Hwf He Hv. pose proof (Step_refl k c Hwf) as HS. rewrite He in HS.
  eapply wp_mono; [apply (wp_shard_alter c k Hwf f _ _ _ HS)|].
  intros [] c' HS'. eapply Step_delta; [exact HS'|]. rewrite He. simpl. rewrite Hv. lia.
Qed.

Lemma refines_expire name key n v rest w now :
  parse_i64 n = Some v →
  refines now (handle_expire (name :: key :: n :: rest) w now)
    (λ db, (write_integer w (db_expire now db key v).1, (db_expire now db key v).2)).
Proof.
  intros Hn c db Hs. cbn [handle_expire]. rewrite Hn. unfold db_expire. destruct (0 <? v).
  2:{ apply wp_bind. eapply wp_mono; [by apply (wp_delete now [key] 0)|].
      intros r c' [-> Hs']. apply wp_ret. cbn in *. done. }
  apply (wp_find c key (λ i e, _)). destruct (lookup_entry c key) as [e|] eqn:He.
  2:{ rewrite (db_live_none now c key db Hs He). by apply wp_ret. }
  destruct (expired now e) eqn:Hx.
  - rewrite (db_live_gone now c key e db Hs He Hx).
    eapply wp_mono; [by eapply wp_expired_gone; [apply Hs|..]|].
    intros r c' [-> HS]. split; [done|]. by eapply sim_gone.
  - rewrite (db_live_here now c key e db Hs He Hx). apply wp_bind.
    eapply wp_mono; [by apply (wp_shard_alter_same c key _ e); [apply Hs|..]|].
    intros [] c' HS. apply wp_ret. split; [done|]. by eapply (sim_insert now key (with_expiry _ e)).
Qed.

(** [PERSIST]. *)
Definition db_persist (now : Z) (db : Db) (k : bytes) : Z * Db :=
  match db_live now db k with
  | Some (val, Some _) => (1, <[k:=(val, None)]> db)
  | _ => (0, db)
  end.

Lemma refines_persist name key rest w now :
  refines now (handle_persist (name :: key :: rest) w now)
    (λ db, (write_integer w (db_persist now db key).1, (db_persist now db key).2)).
Proof.
  intros c db Hs. cbn [handle_persist]. unfold db_persist.
  apply (wp_find c key (λ i e, _)). destruct (lookup_entry c key) as [e|] eqn:He.
  2:{ rewrite (db_live_none now c key db Hs He). by apply wp_ret. }
  destruct (expired now e) eqn:Hx.
  - rewrite (db_live_gone now c key e db Hs He Hx). unfold expired in Hx.
    destruct (e_expiry e) as [x|] eqn:Ex; [|done]. rewrite Hx.
    eapply wp_mono; [eapply wp_expired_gone; [apply Hs|done|unfold expired; by rewrite Ex]|].
    intros r c' [-> HS]. split; [done|]. eapply sim_gone; [done..| |done]. unfold expired. by rewrite Ex.
  - rewrite (db_live_here now c key e db Hs He Hx). unfold expired, data in *.
    destruct (e_expiry e) as [x|]; [rewrite Hx|by apply wp_ret]. apply wp_bind.
    eapply wp_mono; [by apply (wp_shard_alter_same c key _ e); [apply Hs|..]|].
    intros [] c' HS. apply wp_ret. split; [done|]. by eapply (sim_insert now key (with_expiry _ e)).
Qed.

(** The commands that are one store operation. *)

Lemma refines_get name key rest w now :
  refines now (handle_get (name :: key :: rest) w now)
    (λ db, (write_opt w (db_string now db key), db)).
Proof. by apply (refines_op now (OGet key) _ RValue (write_opt w)); [intros ? ? [= ->]|..]. Qed.

Lemma refines_type name key rest w now :
  refines now (handle_type (name :: key :: rest) w now)
    (λ db, (write_simple_string w (bs (db_read now db key "none"%string type_reply)), db)).
Proof.
  by apply (refines_op now (OType key) _ RType (λ t, write_simple_string w (bs t)));
    [intros ? ? [= ->]|..].
Qed.

Lemma refines_del command w now :
  refines now (handle_del command w now)
    (λ db, (write_integer w (db_delete now db (drop 1 command) 0).1,
            (db_delete now db (drop 1 command) 0).2)).
Proof.
  by apply (refines_op now (ODelete (drop 1 command)) _ RCount (write_integer w));
    [intros ? ? [= ->]|..].
Qed.

Lemma refines_exists name key rest w now :
  refines now (handle_exists (name :: key :: rest) w now)
    (λ db, (write_integer w (zsum (db_count now db) (key :: rest)), db)).
Proof.
  by apply (refines_op now (OExists (key :: rest)) _ RCount (write_integer w));
    [intros ? ? [= ->]|..].
Qed.

Definition write_result {A : Type} (enc : bytes → A → bytes) (w : bytes) (r : Result A bytes) : bytes :=
  match r with Ok a => enc w a | Err e => write_error w e end.

Lemma refines_hget name key field rest w now :
  refines now (handle_hget (name :: key :: field :: rest) w now)
    (λ db, (write_result write_opt w (db_read now db key (Ok None) (field_reply field)), db)).
Proof.
  by apply (refines_op now (OHGet key field) _ RField (write_result write_opt w));
    [intros ? ? [= ->]|..].
Qed.

Lemma refines_hgetall name key rest w now :
  refines now (handle_hgetall (name :: key :: rest) w now)
    (λ db, (write_result write_array w (db_read now db key (Ok []) fields_reply), db)).
Proof.
  by apply (refines_op now (OHGetAll key) _ RFields (write_result write_array w));
    [intros ? ? [= ->]|..].
Qed.

Lemma refines_hdel name key field fields w now :
  refines now (handle_hdel (name :: key :: field :: fields) w now)
    (λ db, (write_result write_integer w (db_hdel now db key (field :: fields)).1,
            (db_hdel now db key (field :: fields)).2)).
Proof.
  by apply (refines_op now (OHDel key (field :: fields)) _ RFieldCount (write_result write_integer w));
    [intros ? ? [= ->]|..].
Qed.

Lemma refines_hset command w now :
  4 ≤ len command → (len command - 2) mod 2 = 0 →
  let key := nth 1 command [] in
  let fields := pairs_of (drop 2 command) in
  refines now (handle_hset command w now)
    (λ db, (write_result write_integer w (db_hset now db key fields).1,
            (db_hset now db key fields).2)).
Proof.
  intros Hl Hm key fields. unfold handle_hset.
  destruct (_ || _) eqn:Hg; [apply orb_true_iff in Hg as [?|?%negb_true_iff]; lia|].
  by apply (refines_op now (OHSet key fields) _ RFieldCount (write_result write_integer w));
    [intros ? ? [= ->]|..].
Qed.

Lemma refines_mget_loop now ks w :
  refines now (mfold (λ w key, v ← get key now; mret (write_opt w v)) w ks)
    (λ db, (fold_left (λ w key, write_opt w (db_string now db key)) ks w, db)).
Proof.
  revert w. induction ks as [|k ks IH]; intros w c db Hs; [by apply wp_ret|].
  cbn [mfold fold_left]. apply wp_bind. eapply wp_mono; [by apply (refines_get [] k [] w now)|].
  intros w' c' [-> Hs']. by apply IH.
Qed.

Lemma refines_mget name key rest w now :
  refines now (handle_mget (name :: key :: rest) w now)
    (λ db, (fold_left (λ w key, write_opt w (db_string now db key)) (key :: rest)
              (write_array_header w (len (key :: rest))), db)).
Proof.
  cbn [handle_mget]. replace (len (name :: key :: rest) - 1) with (len (key :: rest))
    by (unfold len; simpl; lia).
  apply (refines_mget_loop now (key :: rest)).
Qed.

(** ** [MSET] *)

Definition db_mset (kvs : list (bytes * bytes)) (db : Db) : Db :=
  fold_left (λ db kv, <[kv.1:=(EV_String kv.2, None)]> db) kvs db.

Lemma wp_mset_net now n kvs c : wp (mfold (mset_net now) n kvs) (λ _ c', c' = c) c.
Proof.
  apply (wp_mfold (λ c', c' = c)); [|done]. intros b kv c' ->. apply wp_bind.
  eapply wp_mono; [apply wp_get_existing_size|]. intros r c2 (_ & ->). by apply wp_ret.
Qed.

Lemma wp_mset_loop now kvs c db :
  sim now c db → wp (mfold (mset_one now) tt kvs) (λ _ c', sim now c' (db_mset kvs db)) c.
Proof.
  revert c db. induction kvs as [|[k v] kvs IH]; intros c db Hs; [by apply wp_ret|].
  cbn [mfold]. apply wp_bind.
  eapply wp_mono; [exact (sim_set_accounted now k v None c db Hs)|].
  intros [] c' Hs'. by apply IH.
Qed.

Lemma wp_handle_mset command w now c db :
  3 ≤ len command → (len command - 1) mod 2 = 0 → sim now c db →
  wp (handle_mset command w now)
    (λ w' c', admitted db w w' c' now
       (λ db1, (write_simple_string w (bs "OK"), db_mset (pairs_of (drop 1 command)) db1))) c.
Proof.
  intros Hl Hm Hs. unfold handle_mset.
  destruct (_ || _) eqn:Hg; [apply orb_true_iff in Hg as [?|?%negb_true_iff]; lia|].
  cbv zeta. apply wp_bind. eapply wp_mono; [apply wp_mset_net|]. intros net c' ->.
  apply wp_bind. eapply wp_mono with (P := λ ok c', ∃ db1, db1 ⊆ db ∧ sim now c' db1 ∧
                     (max_memory (memory CONFIG) = 0 → ok = true ∧ db1 = db)).
  { destruct (0 <? net); [by apply wp_evict_sim|]. apply wp_ret. by exists db. }
  intros [] c1 (db1 & Hsub & Hs1 & Hz); cbn [negb]; [|by apply wp_ret, (admitted_oom _ db1)].
  apply wp_bind. eapply wp_mono; [by apply wp_mset_loop|]. intros [] c2 Hs2.
  apply wp_ret. by apply (admitted_done _ db1).
Qed.

(** ** [INCR] and its relatives *)

(** The number a key holds for [INCR], with the expiry to keep. *)
Definition db_number (now : Z) (db : Db) (k : bytes) : Result (Z * option Z) bytes :=
  match db_live now db k with
  | Some (EV_String s, x) =>
      match parse_i64 s with Some v => Ok (v, x) | None => Err NOT_INTEGER end
  | Some (EV_Hash _, _) => Err WRONGTYPE
  | None => Ok (0, None)
  end.

(** The type is checked before the expiry. *)
Definition no_expired_hash (now : Z) (c : Core) (k : bytes) : Prop :=
  match lookup_entry c k with
  | Some e => match e_value e with EV_Hash _ => expired now e = false | EV_String _ => True end
  | None => True
  end.

Lemma wp_incr_current key now c db :
  sim now c db → no_expired_hash now c key →
  wp (incr_current key now)
    (λ r c', sim now c' db ∧
       match db_number now db key with
       | Ok (v, x) => ∃ sz, r = Ok (v, (λ x, sat_u64 (x - now)) <$> x, sz)
       | Err e => r = Err e
       end) c.
Proof.
  intros Hs Hh. apply (wp_find c key (λ i e, _)). unfold db_number, no_expired_hash in *.
  destruct (lookup_entry c key) as [e|] eqn:He.
  2:{ rewrite (db_live_none now c key db Hs He). apply wp_ret. split; [done|]. by eexists. }
  destruct (expired now e) eqn:Hx.
  - rewrite (db_live_gone now c key e db Hs He Hx). destruct (e_value e) as [s|h]; [|done].
    pose proof Hx as Hx'. unfold expired in Hx'. destruct (e_expiry e) as [x|]; [|done].
    rewrite Hx'. eapply wp_mono; [by eapply wp_expired_gone; [apply Hs|..]|].
    intros r c' [-> HS]. split; [by eapply sim_gone|]. by eexists.
  - rewrite (db_live_here now c key e db Hs He Hx). unfold data.
    destruct (e_value e) as [s|h]; [|by apply wp_ret].
    unfold expired in Hx. destruct (e_expiry e) as [x|]; [rewrite Hx|];
      apply wp_ret; destruct (parse_i64 s); (split; [done|]); try done; by eexists.
Qed.

(** [INCRBY delta]: nothing happens unless the key holds a number and the sum is an
    [i64]; then the key holds the sum and keeps its expiry. *)
Definition incr_post (now : Z) (db : Db) (key : bytes) (delta : Z) (w w' : bytes) (c' : Core) : Prop :=
  match db_number now db key with
  | Err e => w' = write_error w e ∧ sim now c' db
  | Ok (v, x) =>
      match checked_i64 (v + delta) with
      | None =>
          w' = write_error w (if 0 <? delta then bs "increment would produce overflow"
                              else bs "decrement would produce overflow") ∧ sim now c' db
      | Some n =>
          admitted db w w' c' now
            (λ db1, (write_signed_integer w n, <[key:=(EV_String (fmt_signed n), x)]> db1))
      end
  end.

Lemma keep_expiry now x : 0 ≤ now → is_u64 x → now < x → u64 (now + sat_u64 (x - now)) = x.
Proof.
  unfold is_u64. intros. unfold sat_u64. rewrite Z.min_l, Z.max_r by lia.
  replace (now + (x - now)) with x by lia. by apply u64_small.
Qed.

Lemma wp_handle_incr name key rest w now delta c db :
  sim now c db → no_expired_hash now c key → 0 ≤ now →
  (∀ v x, db_live now db key = Some (v, Some x) → is_u64 x) →
  wp (handle_incr (name :: key :: rest) w now delta)
    (λ w' c', incr_post now db key delta w w' c') c.
Proof.
  intros Hs Hh Hnow Hu. cbn [handle_incr]. apply wp_bind.
  eapply wp_mono; [by apply wp_incr_current|]. intros r c1 [Hs1 Hr]. unfold incr_post.
  destruct (db_number now db key) as [[v x]|e] eqn:Hnum; [|subst r; by apply wp_ret].
  destruct Hr as [sz ->]. destruct (checked_i64 (v + delta)) as [n|] eqn:Hn; [|by apply wp_ret].
  assert ((λ s, u64 (now + s)) <$> ((λ x, sat_u64 (x - now)) <$> x) = x) as Hx.
  { destruct x as [x|]; [|done]. simpl. f_equal. unfold db_number in Hnum.
    destruct (db_live now db key) as [[[s|h] x']|] eqn:Hl; try done.
    destruct (parse_i64 s); simplify_eq. apply keep_expiry; [done|by eapply Hu|].
    unfold db_live in Hl. destruct (db !! key) as [[v' x']|]; [|done].
    destruct (past now x') eqn:Hp; [done|]. simplify_eq. simpl in Hp. lia. }
  cbv zeta. apply wp_bind.
  eapply wp_mono with (P := λ ok c', ∃ db1, db1 ⊆ db ∧ sim now c' db1 ∧
                     (max_memory (memory CONFIG) = 0 → ok = true ∧ db1 = db)).
  { destruct (0 <? _); [by apply wp_evict_sim|]. apply wp_ret. by exists db. }
  intros [] c2 (db1 & Hsub & Hs2 & Hz); cbn [negb]; [|by apply wp_ret, (admitted_oom _ db1)].
  apply wp_assoc.
  eapply wp_mono; [exact (sim_set_accounted now key (fmt_signed n) _ c2 db1 Hs2)|].
  intros [] c3 Hs3. rewrite Hx in Hs3. apply wp_ret. by apply (admitted_done _ db1).
Qed.

End Spec.
