(* ===== verification/HandlerMem.v ===== *)
(** * Memory accounting of the command handlers

    [inv]: the store is well formed and [MEMORY_USED] is exact.  Every handler
    keeps it, except [HDEL] when it empties a hash and [FLUSHDB]/[FLUSHALL] when
    expired entries are still stored. *)

From S2P Require Import Prelude Decimal Protocol Glob Config S3Fifo State Store Steps StoreOps.
From S2P Require Import StoreSpec Memory Scan Eviction Handlers HandlerSpec Demo.

Section Mem.
Context {P : Platform} {CFG : HasConfig}.

Definition inv (c : Core) : Prop := core_wf c ∧ mem_ok c.

Definition keeps {A} (m : M A) : Prop := ∀ c, inv c → wp m (λ _ c', inv c') c.

Lemma keeps_ret {A} (a : A) : keeps (mret a).
Proof. intros c Hi. by apply wp_ret. Qed.

Lemma keeps_bind {A B} (m : M A) (f : A → M B) :
  keeps m → (∀ a, keeps (f a)) → keeps (x ← m; f x).
Proof. intros Hm Hf c Hi. apply wp_bind. eapply wp_mono; [by apply Hm|]. intros a c'. apply Hf. Qed.

Lemma keeps_assoc {A B C} (m : M A) (f : A → M B) (g : B → M C) :
  keeps (x ← m; f x) → (∀ b, keeps (g b)) → keeps (x ← m; y ← f x; g y).
Proof. intros Hm Hg c Hi. apply wp_assoc. eapply wp_mono; [by apply Hm|]. intros b c'. apply Hg. Qed.

Lemma keeps_gets {A} (f : Core → A) : keeps (gets f).
Proof. intros c Hi. by apply wp_gets. Qed.

Lemma keeps_mfold {A B} (f : B → A → M B) b l : (∀ b x, keeps (f b x)) → keeps (mfold f b l).
Proof. intros Hf c Hi. apply (wp_mfold inv); [|done]. intros. by apply Hf. Qed.

Lemma keeps_if {A} (b : bool) (m m' : M A) : keeps m → keeps m' → keeps (if b then m else m').
Proof. by destruct b. Qed.

Lemma inv_accounted k o c c' : inv c → Accounted k o c c' → inv c'.
Proof.
  intros [Hwf Hm] HS. split; [by eapply Step_wf|by eapply mem_ok_accounted].
Qed.

Lemma keeps_accounted {A} (m : M A) (k : bytes) :
  (∀ c, core_wf c → wp m (λ _ c', ∃ o, Accounted k o c c') c) → keeps m.
Proof.
  intros Hm c Hi. eapply wp_mono; [apply Hm, Hi|]. intros a c' [o HS]. by eapply inv_accounted.
Qed.

Lemma keeps_evict n : keeps (evict_if_needed n).
Proof.
  intros c [Hwf Hm]. eapply wp_mono; [by apply wp_evict_if_needed|].
  intros ok c' ((f & Hd) & _). split; [apply Hd|by eapply drops_mem].
Qed.

Lemma keeps_expire_random_keys n : keeps (expire_random_keys n).
Proof.
  intros c [Hwf Hm]. eapply wp_mono; [by apply wp_expire_random_keys|].
  intros r c' (f & Hd). split; [apply Hd|by eapply drops_mem].
Qed.

Lemma keeps_set_accounted k v ttl now : keeps (set_accounted k v ttl now).
Proof.
  apply (keeps_accounted _ k). intros c Hwf. eapply wp_mono; [by apply wp_set_accounted|].
  intros [] c' (e & _ & _ & HS). eauto.
Qed.

(** The store operations. *)

Lemma keeps_read {A} k (m : M A) (R : Core → A → Prop) (Q : Core → option Entry → Prop) :
  (∀ c, core_wf c → wp m (λ r c', R c r ∧ ∃ o', Q c o' ∧ Accounted k o' c c') c) → keeps m.
Proof.
  intros Hm. apply (keeps_accounted _ k). intros c Hwf. eapply wp_mono; [by apply Hm|].
  intros r c' (_ & o' & _ & HS). eauto.
Qed.

Lemma keeps_get k now : keeps (get k now).
Proof. eapply (keeps_read k (get k now) (λ c r, _) (λ c o', _)). intros c Hwf. by apply (wp_get c k). Qed.

Lemma keeps_key_type k now : keeps (key_type k now).
Proof. eapply (keeps_read k _ (λ c r, _) (λ c o', _)). intros c Hwf. by apply (wp_key_type c k). Qed.

Lemma keeps_hget k f now : keeps (hget k f now).
Proof. eapply (keeps_read k _ (λ c r, _) (λ c o', _)). intros c Hwf. by apply (wp_hget c k). Qed.

Lemma keeps_hgetall k now : keeps (hgetall k now).
Proof. eapply (keeps_read k _ (λ c r, _) (λ c o', _)). intros c Hwf. by apply (wp_hgetall c k). Qed.

Lemma keeps_hset k fields now : keeps (hset k fields now).
Proof.
  apply (keeps_accounted _ k). intros c Hwf. eapply wp_mono; [by apply wp_hset|].
  intros r c' (o' & _ & HS). eauto.
Qed.

Lemma keeps_delete ks now : keeps (delete ks now).
Proof. intros c Hi. by apply wp_delete_mem. Qed.

Lemma keeps_exists ks now : keeps (exists_ ks now).
Proof. intros c Hi. eapply wp_mono; [apply wp_exists_same|]. by intros r c' ->. Qed.

(** ** Looking a key up, dropping it when it has expired *)

Lemma keeps_find {A} key (none : A) (some : Entry → nat → M A) :
  (∀ c e, core_wf c → lookup_entry c key = Some e →
     wp (some e (shard_of c key)) (λ _ c', ∃ o, Accounted key o c c') c) →
  keeps (i ← hash key; e ← shard_get i key;
         match e with Some e => some e i | None => mret none end).
Proof.
  intros Hs. apply (keeps_accounted _ key). intros c Hwf. apply (wp_find c key (λ i e, _)).
  destruct (lookup_entry c key) as [e|] eqn:He; [by apply Hs|]. apply wp_ret.
  exists None. apply Accounted_same; [done|]. rewrite <- He. by apply Step_refl.
Qed.

Lemma wp_gone {A} c key now e (a : A) :
  core_wf c → lookup_entry c key = Some e → expired now e = true →
  wp (remove_if_expired (shard_of c key) key now;; mret a) (λ _ c', ∃ o, Accounted key o c c') c.
Proof.
  intros Hwf He Hx. eapply wp_mono; [by eapply wp_expired_gone|]. intros r c' [_ HS]. eauto.
Qed.

Lemma wp_same {A} c key e (a : A) :
  core_wf c → lookup_entry c key = Some e → wp (mret a) (λ _ c', ∃ o, Accounted key o c c') c.
Proof.
  intros Hwf He. apply wp_ret. exists (Some e). apply Accounted_same; [done|].
  rewrite <- He. by apply Step_refl.
Qed.

Lemma wp_alter_then {A} c key f e (a : A) :
  core_wf c → lookup_entry c key = Some e → e_value (f e) = e_value e →
  wp (shard_alter (shard_of c key) key f;; mret a) (λ _ c', ∃ o, Accounted key o c c') c.
Proof.
  intros Hwf He Hv. apply wp_bind. eapply wp_mono; [by apply (wp_shard_alter_same c key f e)|].
  intros [] c' HS. apply wp_ret. eauto.
Qed.

(** A match on the expiry is a test of [expired]. *)
Ltac by_expiry e now :=
  destruct (expired now e) eqn:Hx; unfold expired in Hx;
  destruct (e_expiry e) as [x|] eqn:Ex; try done; rewrite ?Hx.

Lemma expired_at now e x : e_expiry e = Some x → (x <=? now) = true → expired now e = true.
Proof. unfold expired. by intros ->. Qed.

Lemma keeps_ttl_reply command w now remaining : keeps (ttl_reply command w now remaining).
Proof.
  destruct command as [|name [|key rest]]; [apply keeps_ret..|].
  apply (keeps_find key (write_signed_integer w (-2)) (λ e i, _)). intros c e Hwf He.
  by_expiry e now; [|by eapply wp_same..]. eapply wp_gone; [done..|]. by eapply expired_at.
Qed.

Lemma keeps_handle_persist command w now : keeps (handle_persist command w now).
Proof.
  destruct command as [|name [|key rest]]; [apply keeps_ret..|].
  apply (keeps_find key (write_integer w 0) (λ e i, _)). intros c e Hwf He.
  by_expiry e now; [|by eapply wp_alter_then|by eapply wp_same].
  eapply wp_gone; [done..|]. by eapply expired_at.
Qed.

Lemma keeps_handle_expire command w now : keeps (handle_expire command w now).
Proof.
  destruct command as [|name [|key [|n rest]]]; [apply keeps_ret..|]. cbn [handle_expire].
  destruct (parse_i64 n) as [v|]; [|apply keeps_ret]. destruct (0 <? v).
  - apply (keeps_find key (write_integer w 0) (λ e i, _)). intros c e Hwf He.
    destruct (expired now e) eqn:Hx; [by eapply wp_gone|by eapply wp_alter_then].
  - apply keeps_bind; [apply keeps_delete|]. intros. apply keeps_ret.
Qed.

Lemma keeps_handle_set command w now : keeps (handle_set command w now).
Proof.
  destruct command as [|name [|key [|value opts]]]; [apply keeps_ret..|]. cbn [handle_set].
  apply keeps_bind; [apply keeps_evict|]. intros []; cbn [negb]; [|apply keeps_ret].
  destruct (parse_set_opts opts _) as [[ttl nx xx get]|e]; [|apply keeps_ret].
  apply keeps_if; [apply keeps_ret|]. apply keeps_bind; [apply keeps_gets|]. intros i.
  apply keeps_bind.
  { apply keeps_if; [|apply keeps_ret]. apply keeps_bind; [apply keeps_gets|].
    intros. apply keeps_ret. }
  intros old. cbv zeta. apply keeps_if; [apply keeps_ret|]. apply keeps_if; [apply keeps_ret|].
  apply keeps_assoc; [exact (keeps_set_accounted key value ttl now)|]. intros. apply keeps_ret.
Qed.

Lemma keeps_incr_current key now : keeps (incr_current key now).
Proof.
  apply (keeps_find key (Ok (0, None, 0)) (λ e i, _)). intros c e Hwf He.
  destruct (e_value e); [|by eapply wp_same]. cbv zeta.
  by_expiry e now; [|by eapply wp_same..]. eapply wp_gone; [done..|]. by eapply expired_at.
Qed.

Lemma keeps_handle_incr command w now delta : keeps (handle_incr command w now delta).
Proof.
  destruct command as [|name [|key rest]]; [apply keeps_ret..|]. cbn [handle_incr].
  apply keeps_bind; [apply keeps_incr_current|]. intros [[[v ttl] sz]|e]; [|apply keeps_ret].
  destruct (checked_i64 (v + delta)) as [n|]; [|apply keeps_ret]. cbv zeta.
  apply keeps_bind; [apply keeps_if; [apply keeps_evict|apply keeps_ret]|].
  intros []; cbn [negb]; [|apply keeps_ret].
  apply keeps_assoc; [exact (keeps_set_accounted key (fmt_signed n) ttl now)|]. intros. apply keeps_ret.
Qed.

Lemma keeps_handle_incrby command w now : keeps (handle_incrby command w now).
Proof.
  destruct command as [|name [|key [|n rest]]]; [apply keeps_ret..|]. cbn [handle_incrby].
  destruct (parse_i64 n); [apply keeps_handle_incr|apply keeps_ret].
Qed.

Lemma keeps_handle_decrby command w now : keeps (handle_decrby command w now).
Proof.
  destruct command as [|name [|key [|n rest]]]; [apply keeps_ret..|]. cbn [handle_decrby].
  destruct (parse_i64 n); [|apply keeps_ret].
  apply keeps_if; [apply keeps_ret|apply keeps_handle_incr].
Qed.

Lemma keeps_handle_mset command w now : keeps (handle_mset command w now).
Proof.
  unfold handle_mset. apply keeps_if; [apply keeps_ret|]. cbv zeta. apply keeps_bind.
  { apply keeps_mfold. intros b kv c Hi. apply wp_bind.
    eapply wp_mono; [apply wp_get_existing_size|]. intros r c' (_ & ->). by apply wp_ret. }
  intros net. apply keeps_bind; [apply keeps_if; [apply keeps_evict|apply keeps_ret]|].
  intros []; cbn [negb]; [|apply keeps_ret]. apply keeps_bind; [|intros; apply keeps_ret].
  apply keeps_mfold. intros [] [k v]. exact (keeps_set_accounted k v None now).
Qed.

Lemma keeps_handle_mget command w now : keeps (handle_mget command w now).
Proof.
  destruct command as [|name [|key rest]]; [apply keeps_ret..|]. apply keeps_mfold.
  intros w' k. apply keeps_bind; [apply keeps_get|]. intros. apply keeps_ret.
Qed.

Lemma keeps_handle_scan command w now : keeps (handle_scan command w now).
Proof.
  destruct command as [|name [|c opts]]; [apply keeps_ret..|]. cbn [handle_scan].
  destruct (parse_u64 c); [|apply keeps_ret].
  destruct (parse_scan_opts opts 10 None) as [[n pat]|]; [|apply keeps_ret].
  apply keeps_bind; [apply keeps_gets|]. intros. apply keeps_ret.
Qed.

Lemma keeps_handle_hset command w now : keeps (handle_hset command w now).
Proof.
  unfold handle_hset. apply keeps_if; [apply keeps_ret|].
  apply keeps_bind; [apply keeps_hset|]. intros. apply keeps_ret.
Qed.

Lemma keeps_handle_hget command w now : keeps (handle_hget command w now).
Proof.
  destruct command as [|name [|key [|f rest]]]; [apply keeps_ret..|].
  apply keeps_bind; [apply keeps_hget|]. intros. apply keeps_ret.
Qed.

Lemma keeps_handle_hgetall command w now : keeps (handle_hgetall command w now).
Proof.
  destruct command as [|name [|key rest]]; [apply keeps_ret..|].
  apply keeps_bind; [apply keeps_hgetall|]. intros. apply keeps_ret.
Qed.

Lemma keeps_handle_get command w now : keeps (handle_get command w now).
Proof.
  destruct command as [|name [|key rest]]; [apply keeps_ret..|].
  apply keeps_bind; [apply keeps_get|]. intros. apply keeps_ret.
Qed.

Lemma keeps_handle_del command w now : keeps (handle_del command w now).
Proof. apply keeps_bind; [apply keeps_delete|]. intros. apply keeps_ret. Qed.

Lemma keeps_handle_exists command w now : keeps (handle_exists command w now).
Proof.
  destruct command as [|name [|key rest]]; [apply keeps_ret..|].
  apply keeps_bind; [apply keeps_exists|]. intros. apply keeps_ret.
Qed.

Lemma keeps_handle_type command w now : keeps (handle_type command w now).
Proof.
  destruct command as [|name [|key rest]]; [apply keeps_ret..|].
  apply keeps_bind; [apply keeps_key_type|]. intros. apply keeps_ret.
Qed.

(** ** [FLUSHDB] and [FLUSHALL] *)

Lemma clear_wf c : core_wf c → core_wf (clear c).2.
Proof.
  intros [W1 W2 W3 W4 W5 W6]. split; simpl; try done.
  - by rewrite length_fmap.
  - intros i m k. rewrite list_lookup_fmap.
    intros (m0 & _ & ->)%fmap_Some_1. rewrite lookup_empty. by intros [? ?].
Qed.

Lemma clear_bytes c : bytes_stored (clear c).2 = 0.
Proof.
  unfold bytes_stored. cbn [clear modify set_shards shards snd].
  induction (shards c) as [|m ms IH]; [done|]. rewrite fmap_cons. unfold zsum in *.
  cbn [foldr]. rewrite map_sum_empty, IH. done.
Qed.

(** The live bytes, as a sum. *)
Definition live_sum (now : Z) (m : Shard) : Z :=
  map_sum (λ k e, if expired now e then 0 else entry_bytes k e) m.

Definition expired_sum (now : Z) (m : Shard) : Z :=
  map_sum (λ k e, if expired now e then entry_bytes k e else 0) m.

Lemma live_expired_sum (now : Z) (m : Shard) :
  live_sum now m + expired_sum now m = map_sum entry_bytes m.
Proof.
  unfold live_sum, expired_sum. induction m as [|k e m Hk IH] using map_ind.
  { by rewrite !map_sum_empty. }
  rewrite !map_sum_insert_None by done. destruct (expired now e); lia.
Qed.

Lemma zsum_map_sum (f : bytes → Entry → Z) (m : Shard) :
  PlatformOk P → zsum (λ kv, f kv.1 kv.2) (map_iter m) = map_sum f m.
Proof.
  intros Hok. transitivity (zsum (λ kv, f kv.1 kv.2) (map_to_list m)).
  - assert (∀ l l', l ≡ₚ l' → zsum (λ kv : bytes * Entry, f kv.1 kv.2) l = zsum (λ kv, f kv.1 kv.2) l')
      as Hperm; [|apply Hperm, (map_iter_perm Entry m)].
    induction 1; unfold zsum in *; simpl; lia.
  - unfold map_sum. rewrite map_fold_foldr. unfold zsum. induction (map_to_list m) as [|[k e] l IH];
      simpl; [done|]. by rewrite IH.
Qed.

Lemma fold_u64_sum (now : Z) (l : list (bytes * Entry)) (acc : Z) :
  u64 (fold_left (λ acc (kv : bytes * Entry),
         u64 (acc + calculate_entry_size (len kv.1) (e_value kv.2))) 
         (filter (λ kv : bytes * Entry, expired now kv.2 = false) l) acc) =
  u64 (acc + zsum (λ kv, if expired now kv.2 then 0 else entry_bytes kv.1 kv.2) l).
Proof.
  revert acc. induction l as [|kv l IH]; intros acc; [simpl; f_equal; lia|].
  rewrite filter_cons. unfold zsum. cbn [foldr]. fold (zsum (λ kv : bytes * Entry, if expired now kv.2 then 0 else entry_bytes kv.1 kv.2) l).
  case_decide as Hx.
  - cbn [fold_left]. rewrite IH, u64_u64_add_l, Hx. f_equal. unfold entry_bytes. lia.
  - destruct (expired now kv.2); [|done]. rewrite IH. f_equal.
Qed.

Lemma live_bytes_u64 now c : is_u64 (live_bytes now c).
Proof.
  unfold live_bytes. generalize (filter (λ kv : bytes * Entry, expired now kv.2 = false)
    (store_entries c)). intros l.
  assert (∀ acc, is_u64 acc → is_u64 (fold_left (λ acc (kv : bytes * Entry),
    u64 (acc + calculate_entry_size (len kv.1) (e_value kv.2))) l acc)) as H; [|by apply H].
  induction l as [|kv l IH]; intros acc Ha; [done|]. apply IH, u64_range.
Qed.

Lemma live_bytes_sum now c :
  PlatformOk P → live_bytes now c = u64 (zsum (live_sum now) (shards c)).
Proof.
  intros Hok. rewrite <- (u64_small _ (live_bytes_u64 now c)). unfold live_bytes.
  unfold store_entries. rewrite fold_u64_sum, Z.add_0_l, zsum_bind. f_equal. apply zsum_ext. intros m.
  by rewrite (zsum_map_sum (λ k e, if expired now e then 0 else entry_bytes k e)).
Qed.

Lemma bytes_stored_split now c :
  bytes_stored c = zsum (live_sum now) (shards c) + zsum (expired_sum now) (shards c).
Proof.
  rewrite <- zsum_add. apply zsum_ext. intros m. by rewrite live_expired_sum.
Qed.

Lemma expired_sum_nonneg now m : 0 ≤ expired_sum now m.
Proof.
  apply map_sum_nonneg. intros k e. destruct (expired now e); [|done].
  apply (esize_nonneg k (Some e)).
Qed.

Lemma live_sum_nonneg now m : 0 ≤ live_sum now m.
Proof.
  apply map_sum_nonneg. intros k e. destruct (expired now e); [done|].
  apply (esize_nonneg k (Some e)).
Qed.

Lemma wp_handle_flush w c :
  PlatformOk P → core_wf c → mem_ok c → tracks_memory = true → bytes_stored c < U64_MOD →
  wp (handle_flush w)
    (λ w' c', w' = write_simple_string w (bs "OK") ∧ core_wf c' ∧ bytes_stored c' = 0 ∧
              MEMORY_USED c' = zsum (expired_sum (system_time (ticks c))) (shards c)) c.
Proof.
  intros Hok Hwf Hm Ht Hb. unfold handle_flush.
  apply wp_bind. unfold wp at 1. cbn [get_timestamp fst snd]. set (now := system_time (ticks c)).
  apply wp_bind, wp_gets. apply wp_bind. unfold wp at 1. cbn [clear modify fst snd].
  apply wp_bind, wp_modify, wp_ret. split; [done|].
  pose proof (clear_wf c Hwf) as Hwf'. pose proof (clear_bytes c) as Hb'.
  change (live_bytes now (tick c)) with (live_bytes now c).
  assert (zsum (expired_sum now) (shards c) =
          if MEMORY_USED c <=? live_bytes now c then 0 else MEMORY_USED c - live_bytes now c) as ->.
  { rewrite (Hm Ht), (live_bytes_sum now c Hok). pose proof (bytes_stored_split now c) as Hsp.
    pose proof (zsum_nonneg (expired_sum now) (shards c) (expired_sum_nonneg now)).
    pose proof (zsum_nonneg (live_sum now) (shards c) (live_sum_nonneg now)).
    rewrite !u64_small by (unfold is_u64; lia). destruct (_ <=? _) eqn:?; lia. }
  split_and!; [|exact Hb'|done].
  destruct Hwf' as [W1 W2 W3 W4 W5 W6]. split; try done. simpl.
  pose proof (wf_memory c Hwf) as [? ?]. pose proof (live_bytes_u64 now c) as [? ?].
  unfold is_u64. destruct (_ <=? _) eqn:?; lia.
Qed.

End Mem.

(** ** Theorems *)

Section Claims.
Context {P : Platform} {CFG : HasConfig}.

(** [FLUSHALL] (and [FLUSHDB]) empties the store but leaves [MEMORY_USED] at the
    size of the entries that had expired without being removed yet: these bytes stay
    accounted for ever, so the counter is exact afterwards only if there were none. *)
Theorem flush_leaks_expired w c :
  PlatformOk P → core_wf c → mem_ok c → tracks_memory = true → bytes_stored c < U64_MOD →
  let c' := (handle_flush w c).2 in
  bytes_stored c' = 0 ∧
  MEMORY_USED c' = zsum (expired_sum (system_time (ticks c))) (shards c).
Proof.
  intros Hok Hwf Hm Ht Hb.
  destruct (wp_run _ _ _ (wp_handle_flush w c Hok Hwf Hm Ht Hb)) as (_ & _ & ? & ?). done.
Qed.

End Claims.

#[local] Existing Instance demo_platform.
#[local] Existing Instance demo_lru.

Lemma flush_leaks_expired_witness :
  let c' := (handle_flush [] (evict_demo_store 3)).2 in
  bytes_stored c' = 0 ∧
  MEMORY_USED c' =
    zsum (expired_sum (system_time (ticks (evict_demo_store 3)))) (shards (evict_demo_store 3)).
Proof.
  apply (flush_leaks_expired [] (evict_demo_store 3)).
  - apply demo_platform_ok.
  - apply evict_demo_wf.
  - intros _. vm_compute. reflexivity.
  - reflexivity.
  - vm_compute. reflexivity.
Defined.
