(* ===== verification/Aof.v ===== *)
(** * The append-only file ([src/aof.rs])

    The log as bytes: the framing of a command, the reader that replays the file,
    the writer with its buffer, the kernel's copy and the disk, and the rewrite
    that replaces the log by the live contents of the store.  File operations
    succeed here, and a crash keeps what was synced; Faults.v has the same operations
    with calls that fail, RewriteRace.v the rewrite beside other commands. *)

From S2P Require Import Prelude Decimal Protocol Config S3Fifo State Store Steps.

(** ** Fsync policy *)

Inductive FsyncPolicy := Always | EverySec | No.

#[global] Instance FsyncPolicy_eq_dec : EqDecision FsyncPolicy.
Proof. solve_decision. Defined.

Definition fsync_parse (s : string) : Result FsyncPolicy string :=
  let l := to_lowercase s in
  if String.eqb l "always" then Ok Always
  else if String.eqb l "everysec" then Ok EverySec
  else if String.eqb l "no" then Ok No
  else Err (String.append "invalid aof_fsync policy: '"
              (String.append l "' (expected always|everysec|no)")).

Definition fsync_as_str (p : FsyncPolicy) : string :=
  match p with Always => "always" | EverySec => "everysec" | No => "no" end.

(** ** Framing *)

(** The pieces [write_resp_array] hands to [write_all], in order; it returns the
    sum of their lengths. *)
Definition frame_pieces (command : list bytes) : list bytes :=
  (bs "*" ++ fmt_unsigned (len command) ++ CRLF) ::
  concat (map (λ part, [bs "$" ++ fmt_unsigned (len part) ++ CRLF; part; CRLF]) command).

(** [BufWriter::write_all] with the given capacity: the buffer and what reached the
    kernel. *)
Definition bufwriter_write (cap : Z) (w : bytes * bytes) (d : bytes) : bytes * bytes :=
  let '(buf, kernel) := w in
  if len d <? cap - len buf then (buf ++ d, kernel)
  else
    let '(buf, kernel) := if cap - len buf <? len d then ([], kernel ++ buf) else (buf, kernel) in
    if cap <=? len d then (buf, kernel ++ d) else (buf ++ d, kernel).

Definition write_resp_array (cap : Z) (w : bytes * bytes) (command : list bytes)
    : (bytes * bytes) * Z :=
  (fold_left (bufwriter_write cap) (frame_pieces command) w, zsum len (frame_pieces command)).

(** ** The log *)

Record Aof := mkAof {
  aof_buf : bytes;                 (* BufWriter buffer *)
  aof_kernel : bytes;              (* written to the file, not yet synced *)
  aof_disk : bytes;                (* synced *)
  fsync : FsyncPolicy;
  dirty : bool;
  size_bytes : Z;
  last_rewrite_size : Z;
  rewrite_in_progress : bool
}.

Definition AOF_CAPACITY : Z := 64 * 1024.

(** Everything appended so far. *)
Definition aof_log_bytes (a : Aof) : bytes := aof_disk a ++ aof_kernel a ++ aof_buf a.

(** [Aof::open] on a file with the given contents. *)
Definition aof_open (contents : bytes) (policy : FsyncPolicy) : Aof :=
  mkAof [] [] contents policy false (len contents) (len contents) false.

(** [w.flush()] and [sync_data()]. *)
Definition flush_sync (a : Aof) : Aof :=
  mkAof [] [] (aof_disk a ++ aof_kernel a ++ aof_buf a) (fsync a) (dirty a) (size_bytes a)
    (last_rewrite_size a) (rewrite_in_progress a).

Definition set_dirty (b : bool) (a : Aof) : Aof :=
  mkAof (aof_buf a) (aof_kernel a) (aof_disk a) (fsync a) b (size_bytes a)
    (last_rewrite_size a) (rewrite_in_progress a).

(** [Aof::append]. *)
Definition append (command : list bytes) (a : Aof) : Aof :=
  let '((buf, kernel), written) :=
    write_resp_array AOF_CAPACITY (aof_buf a, aof_kernel a) command in
  let a := mkAof buf kernel (aof_disk a) (fsync a) (dirty a) (size_bytes a)
             (last_rewrite_size a) (rewrite_in_progress a) in
  let a := match fsync a with Always => flush_sync a | EverySec | No => set_dirty true a end in
  mkAof (aof_buf a) (aof_kernel a) (aof_disk a) (fsync a) (dirty a) (u64 (size_bytes a + written))
    (last_rewrite_size a) (rewrite_in_progress a).

(** [Aof::sync]. *)
Definition sync (a : Aof) : Aof := set_dirty false (flush_sync a).

(** One tick of [everysec_task]. *)
Definition everysec_tick (a : Aof) : Aof := if dirty a then sync a else a.

Definition should_rewrite (min_size_bytes percentage : Z) (a : Aof) : bool :=
  if size_bytes a <? min_size_bytes then false
  else
    let base := Z.max (last_rewrite_size a) min_size_bytes in
    let trigger := sat_u64 (base + sat_u64 (base * percentage) / 100) in
    trigger <=? size_bytes a.

(** ** Rewriting *)

(** What [write_resp_array_raw] writes; it returns the number of bytes. *)
Definition write_resp_array_raw (parts : list bytes) : bytes := concat (frame_pieces parts).

Definition emit_set (key value : bytes) : bytes := write_resp_array_raw [bs "SET"; key; value].
Definition emit_hset (key : bytes) (pairs : list (bytes * bytes)) : bytes :=
  write_resp_array_raw (bs "HSET" :: key :: concat (map (λ fv, [fv.1; fv.2]) pairs)).
Definition emit_expire (key : bytes) (ttl_secs : Z) : bytes :=
  write_resp_array_raw [bs "EXPIRE"; key; fmt_unsigned ttl_secs].

Record RewriteStats := mkRewriteStats {
  keys_written : Z; bytes_written : Z; previous_bytes : Z
}.

Section Rewrite.
Context {P : Platform}.

(** The entry loop of [write_store_snapshot]: the file, [keys] and [bytes]. *)
Fixpoint write_store_snapshot (now : Z) (entries : list (bytes * Entry)) (file : bytes)
    (keys nbytes : Z) : bytes * Z * Z :=
  match entries with
  | [] => (file, keys, nbytes)
  | (key, e) :: entries =>
      if expired now e then write_store_snapshot now entries file keys nbytes
      else
        let emitted :=
          match e_value e with
          | EV_String v => Some (emit_set key v)
          | EV_Hash h =>
              let pairs := map_iter h in
              if bool_decide (pairs = []) then None else Some (emit_hset key pairs)
          end in
        match emitted with
        | None => write_store_snapshot now entries file keys nbytes
        | Some n =>
            let file := file ++ n in
            let nbytes := u64 (nbytes + len n) in
            let '(file, nbytes) :=
              match e_expiry e with
              | Some exp =>
                  let remaining := sat_u64 (exp - now) in
                  if 0 <? remaining then
                    let n := emit_expire key remaining in (file ++ n, u64 (nbytes + len n))
                  else (file, nbytes)
              | None => (file, nbytes)
              end in
            write_store_snapshot now entries file (u64 (keys + 1)) nbytes
        end
  end.

(** [rewrite_inner]: the new file replaces the log, the buffered tail of the old
    one is flushed to the unlinked file. *)
Definition rewrite_inner (now : Z) (c : Core) (a : Aof) : RewriteStats * Aof :=
  let '(file, keys, bytes) := write_store_snapshot now (store_entries c) [] 0 0 in
  (mkRewriteStats keys bytes (size_bytes a),
   mkAof [] [] file (fsync a) false bytes bytes (rewrite_in_progress a)).

(** [Aof::rewrite], run to its end. *)
Definition rewrite (a : Aof) : M (option RewriteStats * Aof) :=
  if rewrite_in_progress a then mret (None, a)
  else
    now ← get_timestamp;
    c ← gets id;
    let '(stats, a) := rewrite_inner now c a in
    mret (Some stats,
          mkAof (aof_buf a) (aof_kernel a) (aof_disk a) (fsync a) (dirty a) (size_bytes a)
            (last_rewrite_size a) false).

End Rewrite.

(** ** Replay *)

Inductive AofError :=
| ExpectedCRLF | ExpectedArray | BadNumber | EofMidArray | ExpectedBulk | ShortRead
| ExpectedBulkCRLF.

(** [read_until(b'\n')]: the line with its terminator, and the rest. *)
Fixpoint read_until_nl (l : bytes) : bytes * bytes :=
  match l with
  | [] => ([], [])
  | b :: l =>
      if bool_decide (b = x0a) then ([b], l)
      else let '(line, rest) := read_until_nl l in (b :: line, rest)
  end.

Definition ends_with_crlf (line : bytes) : bool :=
  (2 <=? len line) && bool_decide (drop (length line - 2) line = CRLF).

(** [parse_num]: UTF-8, then [usize::from_str]. *)
Definition parse_num (l : bytes) : option Z := parse_uint U64_MOD l.

(** [line[1..line.len() - 2]]. *)
Definition header_body (line : bytes) : bytes := take (length line - 3) (drop 1 line).

(** [read_exact] of [n] bytes. *)
Definition read_exact (n : Z) (l : bytes) : option (bytes * bytes) :=
  if len l <? n then None else Some (take (Z.to_nat n) l, drop (Z.to_nat n) l).

Fixpoint read_parts (count : nat) (l : bytes) (parts : list bytes)
    : Result (list bytes * bytes) AofError :=
  match count with
  | O => Ok (parts, l)
  | S count =>
      let '(line, l) := read_until_nl l in
      if bool_decide (line = []) then Err EofMidArray
      else if negb (ends_with_crlf line) || negb (bool_decide (head line = Some x24)) then
        Err ExpectedBulk
      else
        match parse_num (header_body line) with
        | None => Err BadNumber
        | Some blen =>
            match read_exact blen l with
            | None => Err ShortRead
            | Some (buf, l) =>
                match read_exact 2 l with
                | None => Err ShortRead
                | Some (crlf, l) =>
                    if bool_decide (crlf = CRLF) then read_parts count l (parts ++ [buf])
                    else Err ExpectedBulkCRLF
                end
            end
        end
  end.

(** [CommandReader::next_command] on what is left of the file. *)
Definition next_command (l : bytes) : Result (option (list bytes * bytes)) AofError :=
  let '(line, l) := read_until_nl l in
  if bool_decide (line = []) then Ok None
  else if negb (ends_with_crlf line) then Err ExpectedCRLF
  else if negb (bool_decide (head line = Some x2a)) then Err ExpectedArray
  else
    match parse_num (header_body line) with
    | None => Err BadNumber
    | Some count =>
        match read_parts (Z.to_nat count) l [] with
        | Ok (parts, l) => Ok (Some (parts, l))
        | Err e => Err e
        end
    end.

(** The replay loop of [main] on its own: the commands read before the end of the
    file, or before the error that makes the server refuse to start. *)
Fixpoint read_all (fuel : nat) (l : bytes) : list (list bytes) * option AofError :=
  match fuel with
  | O => ([], None)
  | S fuel =>
      match next_command l with
      | Ok None => ([], None)
      | Ok (Some (cmd, l)) => let r := read_all fuel l in (cmd :: r.1, r.2)
      | Err e => ([], Some e)
      end
  end.

(** ** Framing is RESP *)

Definition frame (command : list bytes) : bytes := concat (frame_pieces command).

Lemma frame_resp command : frame command = resp_array command.
Proof.
  unfold frame, frame_pieces, resp_array. cbn [concat]. rewrite <- !app_assoc. do 3 f_equal.
  generalize command. clear command.
  induction command as [|part command IH]; [done|]. cbn [map concat app]. rewrite IH.
  unfold resp_bulk. by rewrite <- !app_assoc.
Qed.

Lemma zsum_len_concat (ls : list bytes) : zsum len ls = len (concat ls).
Proof.
  unfold zsum. induction ls as [|l ls IH]; simpl; [done|]. rewrite IH.
  unfold len. rewrite length_app. lia.
Qed.

(** A [BufWriter] loses and reorders nothing. *)
Lemma bufwriter_write_bytes cap buf kernel d :
  let w' := bufwriter_write cap (buf, kernel) d in w'.2 ++ w'.1 = kernel ++ buf ++ d.
Proof.
  unfold bufwriter_write. destruct (len d <? cap - len buf) eqn:H1; simpl; [done|].
  destruct (cap - len buf <? len d) eqn:H2; destruct (cap <=? len d) eqn:H3; simpl;
    try by rewrite <- ?app_assoc, ?app_nil_r.
  assert (buf = []) as ->; [|by rewrite app_nil_r].
  destruct buf as [|b buf]; [done|]. rewrite len_cons in *. pose proof (len_nonneg buf). lia.
Qed.

Lemma bufwriter_fold cap pieces buf kernel :
  let w' := fold_left (bufwriter_write cap) pieces (buf, kernel) in
  w'.2 ++ w'.1 = kernel ++ buf ++ concat pieces.
Proof.
  revert buf kernel. induction pieces as [|d pieces IH]; intros buf kernel; cbv zeta.
  { simpl. by rewrite app_nil_r. }
  cbn [fold_left concat]. pose proof (bufwriter_write_bytes cap buf kernel d) as Hw. cbv zeta in Hw.
  destruct (bufwriter_write cap (buf, kernel) d) as [buf' kernel']. cbn [fst snd] in Hw.
  rewrite IH, (app_assoc kernel' buf'), Hw. by rewrite <- !app_assoc.
Qed.

(** [append] adds exactly one frame to the log, and counts its bytes. *)
Lemma append_log command a :
  aof_log_bytes (append command a) = aof_log_bytes a ++ frame command ∧
  size_bytes (append command a) = u64 (size_bytes a + len (frame command)) ∧
  fsync (append command a) = fsync a ∧
  (fsync a = Always → aof_disk (append command a) = aof_log_bytes (append command a)).
Proof.
  unfold append, write_resp_array, frame.
  pose proof (bufwriter_fold AOF_CAPACITY (frame_pieces command) (aof_buf a) (aof_kernel a)) as Hw.
  cbv zeta in Hw. destruct (fold_left _ _ _) as [buf kernel]. simpl in Hw.
  rewrite zsum_len_concat. unfold aof_log_bytes.
  destruct (fsync a) eqn:Hp; cbn; rewrite ?Hp; cbn; rewrite ?app_nil_r;
    (split_and!; [|done|done|try done]); rewrite Hw; by rewrite <- !app_assoc.
Qed.

Lemma sync_log a :
  aof_log_bytes (sync a) = aof_log_bytes a ∧ size_bytes (sync a) = size_bytes a ∧
  fsync (sync a) = fsync a ∧ aof_disk (sync a) = aof_log_bytes a ∧ dirty (sync a) = false.
Proof. unfold aof_log_bytes. cbn. by rewrite !app_nil_r. Qed.

(** ** Reading a log back *)

Lemma read_until_nl_line s rest :
  x0a ∉ s → read_until_nl (s ++ x0a :: rest) = (s ++ [x0a], rest).
Proof.
  induction s as [|b s IH]; intros Hn; simpl; [done|].
  rewrite bool_decide_false by (intros ->; set_solver). rewrite IH by set_solver. done.
Qed.

Lemma digits_no_nl ds : digits ds → (x0a ∉ ds) ∧ (x0d ∉ ds).
Proof.
  intros Hd. rewrite Forall_forall in Hd. split; intros H%Hd; done.
Qed.

(** The header line [<c><n>\r\n]. *)
Lemma read_header c n rest :
  c ≠ x0a → 0 ≤ n →
  read_until_nl (c :: fmt_unsigned n ++ CRLF ++ rest) = (c :: fmt_unsigned n ++ CRLF, rest).
Proof.
  intros Hc Hn. destruct (digits_no_nl _ (fmt_unsigned_digits n Hn)) as [H1 H2].
  change (CRLF ++ rest) with ([x0d] ++ x0a :: rest). rewrite app_assoc.
  change (c :: ?l ++ x0a :: rest) with ((c :: l) ++ x0a :: rest).
  rewrite read_until_nl_line; [|set_solver]. unfold CRLF. simpl. by rewrite <- app_assoc.
Qed.

Lemma header_ends c n : ends_with_crlf (c :: fmt_unsigned n ++ CRLF) = true.
Proof.
  unfold ends_with_crlf. apply andb_true_iff. split.
  - rewrite len_cons, len_app. change (len CRLF) with 2. pose proof (len_nonneg (fmt_unsigned n)). lia.
  - apply bool_decide_eq_true. change (c :: ?l ++ CRLF) with ((c :: l) ++ CRLF).
    rewrite length_app, Nat.add_sub. by rewrite drop_app_length.
Qed.

Lemma header_body_fmt c n : header_body (c :: fmt_unsigned n ++ CRLF) = fmt_unsigned n.
Proof.
  unfold header_body. simpl. rewrite drop_0, length_app. simpl.
  replace (length (fmt_unsigned n) + 2 - 2)%nat with (length (fmt_unsigned n)) by lia.
  by rewrite take_app_length.
Qed.

Lemma read_exact_app s rest : read_exact (len s) (s ++ rest) = Some (s, rest).
Proof.
  unfold read_exact, len. rewrite length_app. destruct (Z.ltb_spec (Z.of_nat (length s + length rest)) (Z.of_nat (length s))); [lia|].
  by rewrite Nat2Z.id, take_app_length, drop_app_length.
Qed.

Lemma read_parts_resp cmd parts rest :
  Forall (λ s, is_u64 (len s)) cmd →
  read_parts (length cmd) (concat (map resp_bulk cmd) ++ rest) parts = Ok (parts ++ cmd, rest).
Proof.
  intros Hs. revert parts. induction Hs as [|s cmd Hs _ IH]; intros parts.
  { by rewrite app_nil_r. }
  cbn [length read_parts map concat]. unfold resp_bulk at 1. rewrite <- !app_assoc.
  change (bs "$" ++ ?l) with (x24 :: l).
  rewrite read_header by (done || apply len_nonneg).
  rewrite bool_decide_false by done. rewrite header_ends.
  rewrite bool_decide_true by done. cbn [negb orb]. rewrite header_body_fmt.
  unfold parse_num. rewrite parse_uint_fmt by apply Hs.
  rewrite read_exact_app. change 2 with (len CRLF). rewrite read_exact_app.
  rewrite bool_decide_true by done. rewrite IH. by rewrite <- app_assoc.
Qed.

Definition loggable (cmd : list bytes) : Prop :=
  is_u64 (len cmd) ∧ Forall (λ s, is_u64 (len s)) cmd.

Lemma next_command_frame cmd rest :
  loggable cmd → next_command (frame cmd ++ rest) = Ok (Some (cmd, rest)).
Proof.
  intros [Hn Hs]. rewrite frame_resp. unfold next_command, resp_array. rewrite <- !app_assoc.
  change (bs "*" ++ ?l) with (x2a :: l).
  rewrite read_header by (done || apply len_nonneg).
  rewrite bool_decide_false by done. rewrite header_ends. cbn [negb].
  rewrite bool_decide_true by done. cbn [negb]. rewrite header_body_fmt.
  unfold parse_num. rewrite parse_uint_fmt by apply Hn.
  unfold len at 1. rewrite Nat2Z.id, read_parts_resp by done. done.
Qed.

Lemma read_all_frames cmds fuel :
  Forall loggable cmds → (length cmds < fuel)%nat →
  read_all fuel (concat (map frame cmds)) = (cmds, None).
Proof.
  intros Hl. revert fuel. induction Hl as [|cmd cmds Hc _ IH]; intros [|fuel] Hf;
    cbn [length] in Hf; try lia; [done|]. cbn [map concat read_all].
  rewrite next_command_frame by done. rewrite IH by lia. done.
Qed.

(** ** Reading a cut log *)

Lemma read_until_nl_mono p q :
  x0a ∈ (read_until_nl p).1 →
  read_until_nl (p ++ q) = ((read_until_nl p).1, (read_until_nl p).2 ++ q).
Proof.
  induction p as [|b p IH]; simpl; [by intros ?%elem_of_nil|].
  case_bool_decide as Hb; [done|]. destruct (read_until_nl p) as [line rest]. simpl in *.
  intros [Heq|Hin]%elem_of_cons; [by symmetry in Heq|]. by rewrite IH.
Qed.

Lemma ends_with_crlf_nl line : ends_with_crlf line = true → x0a ∈ line.
Proof.
  unfold ends_with_crlf. intros [_ H%bool_decide_eq_true]%andb_true_iff.
  eapply elem_of_drop_weak. rewrite H. unfold CRLF. set_solver.
Qed.

Lemma read_exact_mono n p q s r :
  read_exact n p = Some (s, r) → read_exact n (p ++ q) = Some (s, r ++ q).
Proof.
  unfold read_exact. rewrite len_app. pose proof (len_nonneg q).
  destruct (Z.ltb_spec (len p) n); [done|]. destruct (Z.ltb_spec (len p + len q) n); [lia|].
  intros [= <- <-]. unfold len in *. rewrite take_app_le, drop_app_le by lia. done.
Qed.

Lemma read_parts_mono count p q parts r l :
  read_parts count p parts = Ok (r, l) → read_parts count (p ++ q) parts = Ok (r, l ++ q).
Proof.
  revert p parts. induction count as [|count IH]; intros p parts; cbn [read_parts].
  { by intros [= <- <-]. }
  pose proof (read_until_nl_mono p q) as Hm. destruct (read_until_nl p) as [line rest]. simpl in Hm.
  destruct (bool_decide (line = [])) eqn:Hl; [done|].
  destruct (ends_with_crlf line) eqn:He; [|done].
  rewrite Hm by by apply ends_with_crlf_nl. rewrite Hl, He.
  cbn [negb orb]. destruct (negb _); [done|].
  destruct (parse_num _) as [n|]; [|done].
  destruct (read_exact n rest) as [[s r1]|] eqn:E1; [|done].
  rewrite (read_exact_mono _ _ _ _ _ E1).
  destruct (read_exact 2 r1) as [[s2 r2]|] eqn:E2; [|done].
  rewrite (read_exact_mono _ _ _ _ _ E2). destruct (bool_decide (s2 = _)); [apply IH|done].
Qed.

Lemma next_command_mono p q cmd l :
  next_command p = Ok (Some (cmd, l)) → next_command (p ++ q) = Ok (Some (cmd, l ++ q)).
Proof.
  unfold next_command. pose proof (read_until_nl_mono p q) as Hm.
  destruct (read_until_nl p) as [line rest]. simpl in Hm.
  destruct (bool_decide (line = [])) eqn:Hl; [done|].
  destruct (ends_with_crlf line) eqn:He; [|done].
  rewrite Hm by by apply ends_with_crlf_nl. rewrite Hl, He.
  cbn [negb]. destruct (negb _); [done|].
  destruct (parse_num _) as [n|]; [|done].
  destruct (read_parts _ rest []) as [[r l']|] eqn:E; [|done].
  rewrite (read_parts_mono _ _ _ _ _ _ E). by intros [= <- <-].
Qed.

Lemma read_until_nl_nil p : (read_until_nl p).1 = [] → p = [].
Proof.
  destruct p as [|b p]; [done|]. simpl. case_bool_decide; [done|].
  by destruct (read_until_nl p).
Qed.

Lemma next_command_eof p : next_command p = Ok None → p = [].
Proof.
  unfold next_command. pose proof (read_until_nl_nil p) as Hn.
  destruct (read_until_nl p) as [line rest]. simpl in Hn. case_bool_decide as Hl; [auto|].
  repeat (case_match; try done).
Qed.

(** Every command read is taken off the file, so the length of the file is enough
    fuel for reading it to the end. *)
Lemma read_until_nl_app l : (read_until_nl l).1 ++ (read_until_nl l).2 = l.
Proof.
  induction l as [|b l IH]; simpl; [done|]. case_bool_decide; [done|].
  destruct (read_until_nl l) as [line rest]. simpl in *. by rewrite IH.
Qed.

Lemma read_exact_le n l s r : read_exact n l = Some (s, r) → (length r <= length l)%nat.
Proof.
  unfold read_exact. destruct (_ <? _); [done|]. intros [= _ <-]. rewrite length_drop. lia.
Qed.

Lemma read_parts_le count l parts r l' :
  read_parts count l parts = Ok (r, l') → (length l' <= length l)%nat.
Proof.
  revert l parts. induction count as [|count IH]; intros l parts; cbn [read_parts].
  { by intros [= <- <-]. }
  pose proof (read_until_nl_app l) as Hl. destruct (read_until_nl l) as [line rest].
  apply (f_equal length) in Hl. rewrite length_app in Hl. cbn in Hl.
  destruct (bool_decide _); [done|]. destruct (_ || _); [done|].
  destruct (parse_num _) as [n|]; [|done].
  destruct (read_exact n rest) as [[s1 r1]|] eqn:E1; [|done]. apply read_exact_le in E1.
  destruct (read_exact 2 r1) as [[s2 r2]|] eqn:E2; [|done]. apply read_exact_le in E2.
  destruct (bool_decide _); [|done]. intros H%IH. lia.
Qed.

Lemma next_command_shrinks l cmd l' :
  next_command l = Ok (Some (cmd, l')) → (length l' < length l)%nat.
Proof.
  unfold next_command. pose proof (read_until_nl_app l) as Hl.
  destruct (read_until_nl l) as [line rest]. apply (f_equal length) in Hl.
  rewrite length_app in Hl. cbn in Hl. destruct (bool_decide (line = [])) eqn:E; [done|].
  apply bool_decide_eq_false in E. destruct line as [|b line]; [done|]. cbn in Hl.
  destruct (negb _); [done|]. destruct (negb _); [done|]. destruct (parse_num _); [|done].
  destruct (read_parts _ rest []) as [[r l2]|] eqn:Er; [|done].
  apply read_parts_le in Er. intros [= _ <-]. lia.
Qed.

Lemma next_command_torn cmd p q :
  loggable cmd → frame cmd = p ++ q → p ≠ [] → q ≠ [] → ∃ e, next_command p = Err e.
Proof.
  intros Hl Hpq Hp Hq. destruct (next_command p) as [[[c l]|]|e] eqn:E; [| |eauto].
  - exfalso. apply (next_command_mono _ q) in E. rewrite <- Hpq in E.
    pose proof (next_command_frame cmd [] Hl) as Hf. rewrite app_nil_r, E in Hf.
    injection Hf as -> Hnil. apply Hq. by apply app_eq_nil in Hnil as [_ ->].
  - by apply next_command_eof in E.
Qed.

(** A log cut anywhere is some whole commands and a rest that is empty or a torn frame. *)
Lemma frames_cut cmds p q :
  Forall loggable cmds → concat (map frame cmds) = p ++ q →
  ∃ n r, (n ≤ length cmds)%nat ∧ p = concat (map frame (take n cmds)) ++ r ∧
         (r = [] ∨ ∃ e, next_command r = Err e).
Proof.
  intros Hl. revert p. induction Hl as [|cmd cmds Hc _ IH]; intros p Hpq.
  { symmetry in Hpq. apply app_eq_nil in Hpq as [-> ->]. exists 0%nat, []. split_and!; auto. }
  cbn [map concat] in Hpq. destruct (app_split_cases _ _ _ _ Hpq) as [(e & -> & _ & He)|(e & Hp & He)].
  - destruct (IH e He) as (n & r & Hn & -> & Hr). exists (S n), r. cbn [take map concat length].
    rewrite <- app_assoc. split_and!; [lia|done..].
  - destruct (decide (p = [])) as [->|Hne]; [exists 0%nat, []; split_and!; [lia|done|by left]|].
    destruct (decide (e = [])) as [->|Hne'].
    + rewrite app_nil_r in Hp. subst p. exists 1%nat, []. cbn [take map concat length].
      rewrite take_0, !app_nil_r. split_and!; [lia|done|by left].
    + exists 0%nat, p. split_and!; [lia|done|]. right. by apply (next_command_torn cmd p e).
Qed.

Lemma read_all_torn cmds r e fuel :
  Forall loggable cmds → next_command r = Err e → (length cmds < fuel)%nat →
  read_all fuel (concat (map frame cmds) ++ r) = (cmds, Some e).
Proof.
  intros Hl He. revert fuel. induction Hl as [|cmd cmds Hc _ IH]; intros [|fuel] Hf;
    cbn [length] in Hf; try lia; cbn [map concat read_all]; [by rewrite app_nil_l, He|].
  rewrite <- app_assoc, next_command_frame by done. rewrite IH by lia. done.
Qed.

Lemma frames_length cmds : (length cmds ≤ length (concat (map frame cmds)))%nat.
Proof.
  induction cmds as [|cmd cmds IH]; [done|]. cbn [map concat length]. rewrite length_app.
  assert (1 ≤ length (frame cmd))%nat; [|lia]. unfold frame, frame_pieces. cbn [concat].
  rewrite !length_app. change (length (bs "*")) with 1%nat. lia.
Qed.

(** Commands whose frames are whole in a cut log are before the cut. *)
Lemma frames_whole cmds n r m q :
  Forall loggable cmds → (m ≤ length cmds)%nat → r = [] ∨ (∃ e, next_command r = Err e) →
  concat (map frame (take n cmds)) ++ r = concat (map frame (take m cmds)) ++ q → (m ≤ n)%nat.
Proof.
  intros Hl. revert n m. induction Hl as [|cmd cmds Hc Hl IH]; intros n m Hm Hr Heq; cbn [length] in Hm; [lia|].
  destruct m as [|m]; [lia|]. destruct n as [|n].
  - exfalso. cbn [take map concat app] in Heq. rewrite <- app_assoc in Heq.
    pose proof (next_command_frame cmd (concat (map frame (take m cmds)) ++ q) Hc) as Hn. rewrite <- Heq in Hn.
    destruct Hr as [->|[e He]]; [done|congruence].
  - cbn [take map concat] in Heq. rewrite <- !app_assoc in Heq. apply app_inv_head in Heq.
    apply le_n_S, IH; [lia|done|done].
Qed.

(** Of a log cut anywhere, the whole commands before the cut are read back, and no other;
    the end is clean exactly when the cut is between two commands. *)
Lemma read_all_cut cmds p q :
  Forall loggable cmds → concat (map frame cmds) = p ++ q →
  ∃ n, (n ≤ length cmds)%nat ∧ (read_all (S (length p)) p).1 = take n cmds ∧
       ((read_all (S (length p)) p).2 = None ↔ p = concat (map frame (take n cmds))) ∧
       ∀ m, (m ≤ length cmds)%nat → concat (map frame (take m cmds)) `prefix_of` p → (m ≤ n)%nat.
Proof.
  intros Hl Hpq. destruct (frames_cut cmds p q Hl Hpq) as (n & r & Hn & -> & Hr).
  set (p := concat (map frame (take n cmds)) ++ r).
  assert (Forall loggable (take n cmds)) as Hl' by by apply Forall_take.
  assert (length (take n cmds) < S (length p))%nat.
  { pose proof (frames_length (take n cmds)). unfold p. rewrite length_app. lia. }
  assert ((read_all (S (length p)) p).1 = take n cmds ∧
          ((read_all (S (length p)) p).2 = None ↔ p = concat (map frame (take n cmds)))) as [H1 H2].
  { unfold p in *. destruct Hr as [->|[e He]]; [by rewrite app_nil_r in *; rewrite read_all_frames|].
    rewrite (read_all_torn _ _ e) by done. split; [done|]. cbn [snd]. split; [done|].
    intros Hnil. rewrite <- (app_nil_r (concat _)) in Hnil at 2. apply app_inv_head in Hnil as ->.
    by cbn in He. }
  exists n. split_and!; [done..|]. intros m Hm [x Hx]. exact (frames_whole cmds n r m x Hl Hm Hr Hx).
Qed.

(** ** The life of a log *)

(** A log that holds these commands. *)
Record aof_ok (policy : FsyncPolicy) (cmds : list (list bytes)) (a : Aof) : Prop := {
  aof_ok_loggable : Forall loggable cmds;
  aof_ok_log : aof_log_bytes a = concat (map frame cmds);
  aof_ok_size : size_bytes a = u64 (len (aof_log_bytes a));
  aof_ok_policy : fsync a = policy;
  aof_ok_always : policy = Always → aof_disk a = aof_log_bytes a;
  aof_ok_dirty : policy ≠ Always → dirty a = false → aof_disk a = aof_log_bytes a
}.

Lemma append_dirty cmd a : fsync a ≠ Always → dirty (append cmd a) = true.
Proof.
  unfold append, write_resp_array. destruct (fold_left _ _ _). intros Hp.
  cbn. by destruct (fsync a).
Qed.

Lemma aof_ok_append policy cmds a cmd :
  loggable cmd → aof_ok policy cmds a → aof_ok policy (cmds ++ [cmd]) (append cmd a).
Proof.
  intros Hc [Hl Hg Hs Hp Ha Hd]. destruct (append_log cmd a) as (Hlog & Hsize & Hpol & Hdisk).
  split.
  - apply Forall_app. auto.
  - rewrite Hlog, Hg, map_app, concat_app. simpl. by rewrite app_nil_r.
  - rewrite Hsize, Hlog, Hs, u64_u64_add_l, len_app. done.
  - congruence.
  - intros ->. auto.
  - intros Hne. rewrite append_dirty; [done|congruence].
Qed.

Lemma aof_ok_sync policy cmds a : aof_ok policy cmds a → aof_ok policy cmds (sync a).
Proof.
  intros [Hl Hg Hs Hp Ha Hd]. destruct (sync_log a) as (Hlog & Hsize & Hpol & Hdisk & _).
  split; rewrite ?Hlog, ?Hsize, ?Hpol; auto.
Qed.

Lemma aof_open_ok policy cmds :
  Forall loggable cmds → len (concat (map frame cmds)) < U64_MOD →
  aof_ok policy cmds (aof_open (concat (map frame cmds)) policy).
Proof.
  intros Hl Hlen.
  assert (aof_log_bytes (aof_open (concat (map frame cmds)) policy) = concat (map frame cmds)) as Hg.
  { unfold aof_log_bytes. cbn. by rewrite app_nil_r. }
  split; rewrite ?Hg; try done. symmetry. apply u64_small. split; [apply len_nonneg|done].
Qed.

Lemma aof_ok_synced policy cmds a s q :
  aof_ok policy cmds a → aof_kernel a = s ++ q → policy = Always ∨ dirty a = false →
  aof_disk a ++ s = concat (map frame cmds).
Proof.
  intros Hok Hk Hd.
  assert (aof_disk a = aof_log_bytes a) as Hsame.
  { destruct (decide (policy = Always)) as [Hp|Hp]; [by apply (aof_ok_always _ _ _ Hok)|].
    destruct Hd; [done|]. by apply (aof_ok_dirty _ _ _ Hok). }
  pose proof (aof_ok_log _ _ _ Hok) as Hg. rewrite <- Hsame in Hg. rewrite <- Hg.
  unfold aof_log_bytes in Hsame. rewrite Hk in Hsame.
  rewrite <- (app_nil_r (aof_disk a)) in Hsame at 1. apply app_inv_head in Hsame.
  symmetry in Hsame. apply app_eq_nil in Hsame as [[-> _]%app_eq_nil _]. by rewrite app_nil_r.
Qed.

(** What a crash leaves of the file: all that was synced and some prefix of what the
    kernel had been given since. *)
Definition crash_image (a : Aof) (p : bytes) : Prop :=
  ∃ s q, aof_kernel a = s ++ q ∧ p = aof_disk a ++ s.
