(* ===== verification/Snapshot.v ===== *)
(** * Snapshots ([src/persistence.rs])

    The snapshot file as bytes: the header, the length-prefixed entries, and the
    loader with its error paths.  [bincode] is a parameter: an encoder and the two
    decoders the loader tries, related by the round trip they document.  File
    operations succeed here (Faults.v has the save with calls that fail); a file may
    have been cut short. *)

From S2P Require Import Prelude Config S3Fifo State Store Steps StoreOps StoreSpec Memory.
From S2P Require Import HandlerMem Aof Demo.

(** ** The format *)

Definition SNAPSHOT_MAGIC : bytes := bs "RDST".
Definition SNAPSHOT_VERSION : Z := 1.

Inductive SnapshotValue :=
| SV_String (b : bytes)
| SV_Hash (fields : list (bytes * bytes)).

Record SnapshotEntry := mkSnapshotEntry {
  se_key : bytes; se_value : SnapshotValue; se_expiry : option Z
}.

(** The format without a type discriminator. *)
Record LegacySnapshotEntry := mkLegacyEntry {
  le_key : bytes; le_value : bytes; le_expiry : option Z
}.

Class Bincode := {
  serialize : SnapshotEntry → Result bytes bytes;   (* or the error's text *)
  deserialize : bytes → option SnapshotEntry;
  deserialize_legacy : bytes → option LegacySnapshotEntry
}.

Class BincodeOk (B : Bincode) : Prop := {
  serialize_total e : ∃ b, serialize e = Ok b;
  deserialize_serialize e b : serialize e = Ok b → len b < 2 ^ 32 → deserialize b = Some e
}.

(** [to_le_bytes] and [from_le_bytes] of an [n]-byte integer. *)
Fixpoint to_le_bytes (n : nat) (x : Z) : bytes :=
  match n with O => [] | S n => u8_of x :: to_le_bytes n (x / 256) end.
Fixpoint from_le_bytes (l : bytes) : Z :=
  match l with [] => 0 | b :: l => u8_val b + 256 * from_le_bytes l end.

(** ** Saving *)

Section Save.
Context {P : Platform} {B : Bincode}.

Definition snapshot_value (v : EntryValue) : SnapshotValue :=
  match v with
  | EV_String b => SV_String b
  | EV_Hash h => SV_Hash (map_iter h)
  end.

Definition snapshot_entry (k : bytes) (e : Entry) : SnapshotEntry :=
  mkSnapshotEntry k (snapshot_value (e_value e)) (e_expiry e).

(** The entry loop: what has been written, and [count]. *)
Fixpoint write_entries (now : Z) (entries : list (bytes * Entry)) (file : bytes) (count : Z)
    : Result (bytes * Z) bytes :=
  match entries with
  | [] => Ok (file, count)
  | (k, e) :: entries =>
      if expired now e then write_entries now entries file count
      else
        match serialize (snapshot_entry k e) with
        | Err e => Err (bs "Failed to serialize entry: " ++ e)
        | Ok encoded =>
            write_entries now entries (file ++ to_le_bytes 4 (u32 (len encoded)) ++ encoded)
              (u64 (count + 1))
        end
  end.

(** [seek] to [pos], then [write_all]. *)
Definition overwrite (pos : nat) (d file : bytes) : bytes :=
  take pos file ++ d ++ drop (pos + length d) file.

(** The header before the count, and the count written over its placeholder. *)
Definition snapshot_header (now : Z) : bytes :=
  SNAPSHOT_MAGIC ++ [u8_of SNAPSHOT_VERSION] ++ to_le_bytes 8 now.

Definition snapshot_end (now : Z) (r : Result (bytes * Z) bytes) : Result (bytes * Z) bytes :=
  match r with
  | Ok (file, count) => Ok (overwrite (length (snapshot_header now)) (to_le_bytes 8 count) file, count)
  | Err e => Err e
  end.

(** The file of the entries in the order they are visited, and the count
    [save_snapshot_sync] returns; or its error when an entry does not serialize. *)
Definition entries_file (now : Z) (entries : list (bytes * Entry)) : Result (bytes * Z) bytes :=
  snapshot_end now (write_entries now entries (snapshot_header now ++ to_le_bytes 8 0) 0).

(** The file [save_snapshot_sync] renames into place. *)
Definition snapshot_file (now : Z) (c : Core) : Result (bytes * Z) bytes :=
  entries_file now (store_entries c).

End Save.

(** ** Loading *)

Inductive SnapshotError :=
| ReadFailed | InvalidMagic | UnsupportedVersion (v : Z) | DeserializeFailed.

Section Load.
Context {P : Platform} {CFG : HasConfig} {B : Bincode}.

Definition loaded_value (v : SnapshotValue) : EntryValue :=
  match v with
  | SV_String b => EV_String b
  | SV_Hash fields => EV_Hash (fold_left (λ m fv, <[fv.1:=fv.2]> m) fields ∅)
  end.

(** The new format first, then the legacy one. *)
Definition decode_entry (entry_data : bytes) : option (bytes * EntryValue * option Z) :=
  match deserialize entry_data with
  | Some se => Some (se_key se, loaded_value (se_value se), se_expiry se)
  | None =>
      (λ le, (le_key le, EV_String (le_value le), le_expiry le)) <$> deserialize_legacy entry_data
  end.

Definition load_entry (key : bytes) (value : EntryValue) (expiry : option Z) (now : Z) : M unit :=
  let ttl := match expiry with
             | Some exp => if now <? exp then Some (exp - now) else None
             | None => None
             end in
  (if tracks_memory then memory_fetch_add (calculate_entry_size (len key) value) else mret tt);;
  shard_idx ← hash key;
  shard_insert shard_idx key (mkEntry value ((λ t, u64 (now + t)) <$> ttl) 0 0 0);;
  mret tt.

Fixpoint load_entries (entry_count : nat) (l : bytes) (now loaded : Z)
    : M (Result Z SnapshotError) :=
  match entry_count with
  | O => mret (Ok loaded)
  | S entry_count =>
      match read_exact 4 l with
      | None => mret (Ok loaded)
      | Some (len_bytes, l) =>
          match read_exact (from_le_bytes len_bytes) l with
          | None => mret (Err ReadFailed)
          | Some (entry_data, l) =>
              match decode_entry entry_data with
              | None => mret (Err DeserializeFailed)
              | Some (key, value, expiry) =>
                  if past now expiry then load_entries entry_count l now loaded
                  else
                    load_entry key value expiry now;;
                    load_entries entry_count l now (loaded + 1)
              end
          end
      end
  end.

(** [load_snapshot] on the file at [path], [None] when there is none. *)
Definition load_snapshot (file : option bytes) : M (Result Z SnapshotError) :=
  match file with
  | None => mret (Ok 0)
  | Some l =>
      match read_exact 4 l with
      | None => mret (Err ReadFailed)
      | Some (magic, l) =>
          if negb (bool_decide (magic = SNAPSHOT_MAGIC)) then mret (Err InvalidMagic) else
          match read_exact 1 l with
          | None => mret (Err ReadFailed)
          | Some (version, l) =>
              if negb (from_le_bytes version =? SNAPSHOT_VERSION) then
                mret (Err (UnsupportedVersion (from_le_bytes version)))
              else
                match read_exact 8 l with
                | None => mret (Err ReadFailed)
                | Some (_, l) =>
                    match read_exact 8 l with
                    | None => mret (Err ReadFailed)
                    | Some (count_bytes, l) =>
                        now ← get_timestamp;
                        load_entries (Z.to_nat (from_le_bytes count_bytes)) l now 0
                    end
                end
          end
      end
  end.

End Load.

(** ** Little-endian integers *)

Lemma length_le n x : length (to_le_bytes n x) = n.
Proof. revert x. induction n as [|n IH]; intros x; simpl; [done|]. by rewrite IH. Qed.

Lemma len_le n x : len (to_le_bytes n x) = Z.of_nat n.
Proof. unfold len. by rewrite length_le. Qed.

Lemma u8_val_u8_of x : u8_val (u8_of x) = x mod 256.
Proof.
  unfold u8_of. replace (x mod 256) with ((x mod 256) mod 256) at 1 by (by rewrite Zmod_mod).
  fold (u8_of (x mod 256)). apply u8_val_of, Z.mod_pos_bound. lia.
Qed.

Lemma from_to_le n x : 0 ≤ x < 256 ^ Z.of_nat n → from_le_bytes (to_le_bytes n x) = x.
Proof.
  revert x. induction n as [|n IH]; intros x Hx; cbn [to_le_bytes from_le_bytes].
  { change (256 ^ Z.of_nat 0) with 1 in Hx. lia. }
  rewrite Nat2Z.inj_succ, Z.pow_succ_r in Hx by lia.
  rewrite IH; [|split; [apply Z.div_pos; lia|apply Z.div_lt_upper_bound; lia]].
  rewrite u8_val_u8_of. pose proof (Z.div_mod x 256). lia.
Qed.

(** Reading from the front of a file that may be cut. *)
Lemma read_exact_cut x y p q :
  x ++ y = p ++ q →
  (read_exact (len x) p = None ∧ q ≠ []) ∨
  ∃ p', p = x ++ p' ∧ y = p' ++ q ∧ read_exact (len x) p = Some (x, p').
Proof.
  intros Heq. unfold read_exact. destruct (Z.ltb_spec (len p) (len x)) as [Hlt|Hge].
  - left. split; [done|]. intros ->. apply (f_equal len) in Heq.
    rewrite !len_app, len_nil in Heq. pose proof (len_nonneg y). lia.
  - right. exists (drop (length x) p). unfold len in Hge.
    assert (take (length x) p = x) as Hx.
    { transitivity (take (length x) (p ++ q)); [by rewrite take_app_le by lia|].
      by rewrite <- Heq, take_app_length. }
    split_and!.
    + by rewrite <- Hx at 1; rewrite take_drop.
    + transitivity (drop (length x) (p ++ q)); [by rewrite <- Heq, drop_app_length|].
      by rewrite drop_app_le by lia.
    + unfold len. by rewrite Nat2Z.id, Hx.
Qed.

(** ** Inserting a list of pairs *)

Section Inserts.
Context {V : Type}.
Implicit Types (l : list (bytes * V)) (m : gmap bytes V).

Definition insert_all l m : gmap bytes V := fold_left (λ m kv, <[kv.1:=kv.2]> m) l m.

Lemma insert_all_other l m k : k ∉ l.*1 → insert_all l m !! k = m !! k.
Proof.
  unfold insert_all. revert m. induction l as [|[k' v] l IH]; intros m Hk; simpl; [done|].
  rewrite IH by set_solver. apply lookup_insert_ne. set_solver.
Qed.

Lemma insert_all_lookup l m k v : NoDup l.*1 → (k, v) ∈ l → insert_all l m !! k = Some v.
Proof.
  revert m. induction l as [|[k' v'] l IH]; intros m Hd Hin; [by apply elem_of_nil in Hin|].
  apply NoDup_cons in Hd as [Hn Hd]. apply elem_of_cons in Hin as [[= -> ->]|Hin].
  - change (insert_all ((k', v') :: l) m) with (insert_all l (<[k':=v']> m)).
    rewrite insert_all_other by done. apply lookup_insert_eq.
  - by apply (IH (<[k':=v']> m)).
Qed.

Lemma NoDup_map_iter {P : Platform} m : PlatformOk P → NoDup (map_iter m).*1.
Proof. intros HP. rewrite (map_iter_perm _ m). apply NoDup_fst_map_to_list. Qed.

(** Iterating a map and inserting what one sees rebuilds it. *)
Lemma insert_all_iter {P : Platform} m : PlatformOk P → insert_all (map_iter m) ∅ = m.
Proof.
  intros HP. apply map_eq. intros k. destruct (m !! k) as [v|] eqn:Hk.
  - apply insert_all_lookup; [by apply NoDup_map_iter|]. by apply elem_of_map_iter.
  - rewrite insert_all_other; [done|]. intros ([k' v] & -> & Hin)%list_elem_of_fmap.
    apply elem_of_map_iter in Hin; [|done]. simpl in *. congruence.
Qed.

End Inserts.

(** ** What a snapshot says *)

Section Roundtrip.
Context {P : Platform} {CFG : HasConfig} {B : Bincode} (HP : PlatformOk P) (HB : BincodeOk B).

Definition live_entries (now : Z) (l : list (bytes * Entry)) : list (bytes * Entry) :=
  filter (λ kv, expired now kv.2 = false) l.

Definition encode_entry (kv : bytes * Entry) : bytes :=
  match serialize (snapshot_entry kv.1 kv.2) with Ok b => b | Err _ => [] end.

Definition entry_record (kv : bytes * Entry) : bytes :=
  to_le_bytes 4 (u32 (len (encode_entry kv))) ++ encode_entry kv.

Lemma serialize_encode k e : serialize (snapshot_entry k e) = Ok (encode_entry (k, e)).
Proof. unfold encode_entry. simpl. by destruct (serialize_total (snapshot_entry k e)) as [b ->]. Qed.

Lemma write_entries_spec now l file count :
  is_u64 count →
  write_entries now l file count =
    Ok (file ++ concat (map entry_record (live_entries now l)),
          u64 (count + len (live_entries now l))).
Proof.
  revert file count. induction l as [|[k e] l IH]; intros file count Hc; cbn [write_entries].
  { unfold live_entries, len. cbn [filter list_filter map concat length Z.of_nat].
    by rewrite app_nil_r, Z.add_0_r, u64_small. }
  unfold live_entries. rewrite filter_cons. cbn [snd].
  destruct (expired now e); cbn [decide].
  - rewrite decide_False by done. by apply IH.
  - rewrite decide_True by done. rewrite serialize_encode, IH by apply u64_range.
    cbn [map concat]. rewrite len_cons, u64_u64_add_l. unfold entry_record at 2.
    rewrite <- !app_assoc. do 3 f_equal. unfold live_entries. lia.
Qed.

Lemma decode_encode k e :
  len (encode_entry (k, e)) < 2 ^ 32 →
  decode_entry (encode_entry (k, e)) = Some (k, e_value e, e_expiry e).
Proof.
  intros Hl. unfold decode_entry.
  rewrite (deserialize_serialize _ _ (serialize_encode k e) Hl). simpl.
  do 3 f_equal. destruct (e_value e) as [b|h]; [done|]. cbn. f_equal. by apply insert_all_iter.
Qed.

(** ** Loading *)

Lemma wp_load_entry k v x now c db :
  lookup_entry c k = None → inv c → sim now c db → is_u64 now →
  (∀ y, x = Some y → is_u64 y) → past now x = false →
  wp (load_entry k v x now)
    (λ _ c', inv c' ∧ sim now c' (<[k:=(v, x)]> db) ∧
             ∀ k', k' ≠ k → lookup_entry c' k' = lookup_entry c k') c.
Proof.
  intros Hk [Hwf Hm] Hs Hn Hx Hp. unfold load_entry. cbv zeta. apply wp_bind.
  pose proof (Step_refl k c Hwf) as HS. rewrite Hk in HS.
  eapply wp_mono; [apply (wp_track_add c k (calculate_entry_size (len k) v) _ _ _ HS)|].
  intros [] c1 HS1. wp_call (wp_hash c k None) as i c2 (-> & HS2); [exact HS1|].
  apply wp_bind. eapply wp_mono; [by apply (wp_shard_insert c k Hwf _ _ _ _ HS2)|].
  intros old c3 (_ & HS3). apply wp_ret.
  assert ((λ t, u64 (now + t)) <$>
            (match x with Some exp => if now <? exp then Some (exp - now) else None | None => None end)
          = x) as Hexp.
  { destruct x as [y|]; [|done]. simpl in Hp. specialize (Hx y eq_refl).
    destruct (now <? y) eqn:Hlt; [|lia]. cbn. f_equal.
    replace (now + (y - now)) with y by lia. by apply u64_small. }
  rewrite Hexp in HS3. split_and!.
  - eapply inv_accounted; [by split|]. eapply Step_delta; [exact HS3|]. rewrite Hk. cbn. lia.
  - eapply (sim_insert now k (mkEntry v x 0 0 0)); [done|exact HS3].
  - intros k' Hne. by eapply Step_lookup_ne.
Qed.

Definition entries_db (now : Z) (l : list (bytes * Entry)) (db : Db) : Db :=
  insert_all (map (λ kv, (kv.1, data kv.2)) (live_entries now l)) db.

Lemma entries_db_cons now k e l db :
  entries_db now ((k, e) :: l) db =
    entries_db now l (if expired now e then db else <[k:=data e]> db).
Proof.
  unfold entries_db, live_entries. rewrite filter_cons. cbn [snd].
  destruct (expired now e); [by rewrite decide_False|by rewrite decide_True].
Qed.

Definition entry_fits (kv : bytes * Entry) : Prop :=
  len (encode_entry kv) < 2 ^ 32 ∧ (∀ x, e_expiry kv.2 = Some x → is_u64 x).

Lemma read_record kv tail p q :
  entry_fits kv → entry_record kv ++ tail = p ++ q →
  (q ≠ [] ∧ (read_exact 4 p = None ∨
    ∃ lb p', read_exact 4 p = Some (lb, p') ∧ read_exact (from_le_bytes lb) p' = None)) ∨
  ∃ lb p1 p2, read_exact 4 p = Some (lb, p1) ∧
    read_exact (from_le_bytes lb) p1 = Some (encode_entry kv, p2) ∧ tail = p2 ++ q.
Proof.
  intros [Hl _] Heq. unfold entry_record in Heq. rewrite <- app_assoc in Heq.
  set (lb := to_le_bytes 4 (u32 (len (encode_entry kv)))) in *.
  assert (len lb = 4) as Hlb by apply len_le.
  assert (from_le_bytes lb = len (encode_entry kv)) as Hfl.
  { unfold lb. pose proof (len_nonneg (encode_entry kv)). unfold u32. rewrite Z.mod_small by lia.
    apply from_to_le. cbn. lia. }
  destruct (read_exact_cut lb _ p q Heq) as [[Hr Hq]|(p1 & -> & Hp1 & Hr)]; rewrite Hlb in Hr.
  { left. auto. }
  destruct (read_exact_cut _ _ p1 q Hp1) as [[Hr1 Hq]|(p2 & -> & Hp2 & Hr1)]; rewrite <- Hfl in Hr1.
  - left. split; [done|]. right. eauto.
  - right. eauto 7.
Qed.

Lemma wp_load_entries l p q now loaded c db :
  Forall entry_fits l → is_u64 now → concat (map entry_record l) = p ++ q →
  NoDup l.*1 → (∀ k, k ∈ l.*1 → lookup_entry c k = None) → inv c → sim now c db →
  wp (load_entries (length l) p now loaded)
    (λ r c', ∃ n, inv c' ∧ sim now c' (entries_db now (take n l) db) ∧
                  (q = [] → r = Ok (loaded + len (live_entries now l)) ∧ n = length l)) c.
Proof.
  intros Hf Hn. revert p loaded c db.
  induction Hf as [|[k e] l Hfit Hf IH]; intros p loaded c db Heq Hd Hfresh Hi Hs;
    cbn [length load_entries map concat] in *.
  { apply wp_ret. exists 0%nat. split_and!; [done..|]. intros _. split; [|done]. f_equal.
    unfold live_entries, len. cbn. lia. }
  apply NoDup_cons in Hd as [Hk Hd].
  destruct (read_record (k, e) _ p q Hfit Heq) as
    [(Hq & [Hr|(lb & p1 & Hr & Hr1)])|(lb & p1 & p2 & Hr & Hr1 & Hp2)]; rewrite Hr, ?Hr1.
  1,2: by apply wp_ret; exists 0%nat; split_and!.
  rewrite decode_encode by apply Hfit. unfold live_entries. rewrite filter_cons. cbn [snd].
  rewrite <- expired_past. destruct (expired now e) eqn:Hx.
  - rewrite decide_False by done.
    eapply wp_mono; [apply (IH p2 loaded c db); try done; intros; apply Hfresh, elem_of_cons; auto|].
    intros r c' (n & ? & Hs' & Hall). exists (S n). cbn [take]. rewrite entries_db_cons, Hx.
    split_and!; [done..|]. intros Hq. destruct (Hall Hq) as [-> ->]. done.
  - rewrite decide_True by done. apply wp_bind.
    eapply wp_mono; [apply (wp_load_entry k (e_value e) (e_expiry e) now c db); try done|].
    { apply Hfresh, elem_of_cons. auto. } { apply Hfit. }
    intros [] c1 (Hi1 & Hs1 & Hne).
    eapply wp_mono; [apply (IH p2 (loaded + 1) c1 (<[k:=data e]> db)); try done|].
    { intros k' Hk'. rewrite Hne by (intros ->; done). apply Hfresh, elem_of_cons. auto. }
    intros r c' (n & ? & Hs' & Hall). exists (S n). cbn [take]. rewrite entries_db_cons, Hx.
    split_and!; [done..|]. intros Hq. destruct (Hall Hq) as [-> ->]. rewrite len_cons.
    split; [|done]. f_equal. unfold live_entries. lia.
Qed.

(** ** A whole snapshot *)

Definition snapshot_fits (c : Core) : Prop :=
  Forall entry_fits (store_entries c) ∧ len (store_entries c) < U64_MOD.

Lemma overwrite_mid (a b d r : bytes) :
  length b = length d → overwrite (length a) d (a ++ b ++ r) = a ++ d ++ r.
Proof.
  intros Hl. unfold overwrite. rewrite take_app_length. do 2 f_equal.
  rewrite <- Hl, <- length_app, app_assoc. apply drop_app_length.
Qed.

Lemma entries_file_spec now entries :
  let l := live_entries now entries in
  len l < U64_MOD →
  entries_file now entries =
    Ok (SNAPSHOT_MAGIC ++ [u8_of SNAPSHOT_VERSION] ++ to_le_bytes 8 now ++
          to_le_bytes 8 (len l) ++ concat (map entry_record l), len l).
Proof.
  intros l Hlen. unfold entries_file. rewrite write_entries_spec by done. fold l. cbn [snapshot_end].
  assert (is_u64 (len l)) as Hu by (split; [apply len_nonneg|done]).
  rewrite Z.add_0_l, (u64_small _ Hu), <- app_assoc, overwrite_mid by done. unfold snapshot_header.
  by rewrite <- !app_assoc.
Qed.

Lemma live_entries_length now l : len (live_entries now l) ≤ len l.
Proof. unfold live_entries, len. pose proof (length_filter (λ kv : bytes * Entry, expired now kv.2 = false) l). lia. Qed.

Lemma snapshot_file_spec now c :
  len (store_entries c) < U64_MOD →
  let l := live_entries now (store_entries c) in
  snapshot_file now c =
    Ok (SNAPSHOT_MAGIC ++ [u8_of SNAPSHOT_VERSION] ++ to_le_bytes 8 now ++
          to_le_bytes 8 (len l) ++ concat (map entry_record l), len l).
Proof.
  intros Hlen l. apply entries_file_spec. pose proof (live_entries_length now (store_entries c)). lia.
Qed.

Lemma insert_all_elem {V : Type} (l : list (bytes * V)) m k v :
  insert_all l m !! k = Some v → (k, v) ∈ l ∨ m !! k = Some v.
Proof.
  revert m. induction l as [|[k' v'] l IH]; intros m; cbn; [by right|].
  intros [?|H]%(IH (<[k':=v']> m)); [left; by right|].
  apply lookup_insert_Some in H as [[<- <-]|[_ ?]]; [left; by left|by right].
Qed.

Lemma elem_of_live_entries now kv l :
  kv ∈ live_entries now l ↔ expired now kv.2 = false ∧ kv ∈ l.
Proof. unfold live_entries. by rewrite list_elem_of_filter. Qed.

Lemma NoDup_live_entries now (l : list (bytes * Entry)) : NoDup l.*1 → NoDup (live_entries now l).*1.
Proof.
  intros Hd. eapply sublist_NoDup; [exact Hd|]. apply fmap_sublist, sublist_filter.
Qed.

(** Every binding of a loaded snapshot is an entry of the saved store. *)
Lemma entries_db_elem now l k x :
  entries_db now l ∅ !! k = Some x → ∃ e, (k, e) ∈ l ∧ expired now e = false ∧ x = data e.
Proof.
  intros [Hin|H]%insert_all_elem; [|by rewrite lookup_empty in H].
  apply list_elem_of_fmap in Hin as ([k' e] & [= -> ->] & [He Hin]%elem_of_live_entries). eauto.
Qed.

Lemma entries_db_lookup now l k e :
  NoDup l.*1 → (k, e) ∈ l → expired now e = false → entries_db now l ∅ !! k = Some (data e).
Proof.
  intros Hd Hin Hx. apply insert_all_lookup.
  - rewrite <- list_fmap_compose. by apply NoDup_live_entries.
  - apply list_elem_of_fmap. exists (k, e). split; [done|]. by apply elem_of_live_entries.
Qed.

Lemma snapshot_subset now now' n c db :
  sim now c db → now ≤ now' →
  entries_db now' (take n (live_entries now (store_entries c))) ∅ ⊆ db.
Proof.
  intros Hs Hle. apply map_subseteq_spec. intros k x (e & Hin & Hx & ->)%entries_db_elem.
  apply elem_of_take in Hin as (i & Hi%list_elem_of_lookup_2 & _).
  apply elem_of_live_entries in Hi as [_ Hin]. apply elem_of_store_entries in Hin; [|done|apply Hs].
  pose proof (live_db now' c db k (sim_later _ _ _ _ Hle Hs)) as Hl. rewrite Hin in Hl.
  cbn in Hl. rewrite Hx in Hl. unfold db_live in Hl. destruct (db !! k) as [[v y]|]; [|done].
  by destruct (past now' y).
Qed.

Lemma snapshot_all now now' c c' db :
  sim now c db → now ≤ now' →
  sim now' c' (entries_db now' (live_entries now (store_entries c)) ∅) → sim now' c' db.
Proof.
  intros Hs Hle Hs'. pose proof (snapshot_subset now now' (length (live_entries now (store_entries c)))
    c db Hs Hle) as Hsub. rewrite take_ge in Hsub by done.
  split; [apply Hs'|]. intros k. pose proof (proj2 Hs' k) as Ha.
  destruct (lookup_entry c' k) as [e'|]; cbn in *; [by eapply lookup_weaken|].
  rewrite (live_db now' c db k) by (by eapply sim_later).
  destruct (unexpired now' (lookup_entry c k)) as [e|] eqn:Hu; [|done].
  apply unexpired_Some in Hu as [He Hx]. unfold db_live in Ha.
  rewrite (entries_db_lookup now' _ k e) in Ha.
  - unfold data in Ha. rewrite <- expired_past, Hx in Ha. done.
  - apply NoDup_live_entries, NoDup_store_entries; [done|apply Hs].
  - apply elem_of_live_entries. split; [|by apply elem_of_store_entries; [|apply Hs|]].
    destruct (expired now e) eqn:Hx'; [|done]. rewrite expired_past in *.
    by rewrite (past_mono now now') in Hx.
  - done.
Qed.

(** A store without entries, as [main] loads into. *)
Definition fresh (c : Core) : Prop := inv c ∧ ∀ k, lookup_entry c k = None.

Lemma fresh_sim t c : fresh c → sim t c ∅.
Proof.
  intros [[Hwf _] Hk]. split; [done|]. intros k. by rewrite Hk.
Qed.

Lemma fresh_tick c : fresh c → fresh (tick c).
Proof. intros [[Hwf Hm] Hk]. split; [|done]. split; [|done]. by destruct Hwf; constructor. Qed.

Lemma fresh_new n : 0 < n → fresh (new n).
Proof.
  intros Hn. split; [|by apply lookup_entry_new]. split; [by apply new_wf|]. intros _.
  unfold bytes_stored, new. destruct (queue_capacities n) as [[a b] g]. cbn [MEMORY_USED shards].
  assert (∀ j, zsum (map_sum entry_bytes) (replicate j (∅ : Shard)) = 0) as ->; [|done].
  induction j as [|j IH]; [done|]. unfold zsum in *. cbn [replicate foldr].
  by rewrite map_sum_empty, IH.
Qed.

(** The header, possibly cut: the load fails, or goes on to the entries. *)
Lemma wp_load_header now (count : nat) body p q (Q : Result Z SnapshotError → Core → Prop) c0 :
  Z.of_nat count < U64_MOD →
  p ++ q = SNAPSHOT_MAGIC ++ [u8_of SNAPSHOT_VERSION] ++ to_le_bytes 8 now ++
           to_le_bytes 8 (Z.of_nat count) ++ body →
  (∀ e, q ≠ [] → Q (Err e) c0) →
  (∀ p', body = p' ++ q → wp (load_entries count p' (system_time (ticks c0)) 0) Q (tick c0)) →
  wp (load_snapshot (Some p)) Q c0.
Proof.
  intros Hc Hfile%symmetry Hfail Hgo. cbn [load_snapshot].
  destruct (read_exact_cut _ _ p q Hfile) as [[Hr ?]|(p1 & -> & Hp1 & Hr)];
    change (len SNAPSHOT_MAGIC) with 4 in Hr; rewrite Hr; [by apply wp_ret, Hfail|].
  rewrite bool_decide_true by done. cbn [negb].
  destruct (read_exact_cut _ _ p1 q Hp1) as [[Hr1 ?]|(p2 & -> & Hp2 & Hr1)];
    change (len [u8_of SNAPSHOT_VERSION]) with 1 in Hr1; rewrite Hr1; [by apply wp_ret, Hfail|].
  change (from_le_bytes [u8_of SNAPSHOT_VERSION] =? SNAPSHOT_VERSION) with true. cbn [negb].
  destruct (read_exact_cut _ _ p2 q Hp2) as [[Hr2 ?]|(p3 & -> & Hp3 & Hr2)];
    rewrite len_le in Hr2; change (Z.of_nat 8) with 8 in Hr2; rewrite Hr2; [by apply wp_ret, Hfail|].
  destruct (read_exact_cut _ _ p3 q Hp3) as [[Hr3 ?]|(p4 & -> & Hp4 & Hr3)];
    rewrite len_le in Hr3; change (Z.of_nat 8) with 8 in Hr3; rewrite Hr3; [by apply wp_ret, Hfail|].
  rewrite from_to_le, Nat2Z.id by (change (256 ^ Z.of_nat 8) with U64_MOD; lia).
  apply wp_bind. by apply (Hgo p4).
Qed.

(** Loading the file of some entries, possibly cut. *)
Lemma wp_load_file now entries c0 f n p q :
  let now' := system_time (ticks c0) in
  let l := live_entries now entries in
  Forall entry_fits l → len l < U64_MOD → NoDup entries.*1 → fresh c0 →
  entries_file now entries = Ok (f, n) → f = p ++ q →
  wp (load_snapshot (Some p))
    (λ r c', ∃ m, inv c' ∧ sim now' c' (entries_db now' (take m l) ∅) ∧
       (q = [] → (∃ loaded, r = Ok loaded) ∧ take m l = l)) c0.
Proof.
  intros now' l Hfit Hlen Hd Hf Hfile Hpq. rewrite entries_file_spec in Hfile by done.
  injection Hfile as Hfile _. rewrite Hpq in Hfile. symmetry in Hfile. fold l in Hfile.
  eapply (wp_load_header now (length l)); [done|exact Hfile| |].
  { intros e Hq. exists 0%nat. split_and!; [apply Hf|by apply fresh_sim|done]. }
  intros p' Hp. eapply wp_mono; [apply (wp_load_entries l p' q now' 0 (tick c0) ∅); try done|].
  - apply system_time_u64.
  - by apply NoDup_live_entries.
  - intros k _. apply (fresh_tick _ Hf).
  - apply (fresh_tick _ Hf).
  - by apply fresh_sim, fresh_tick.
  - intros r c' (m & Hi & Hs' & Hall). exists m. split_and!; [done..|].
    intros Hq. destruct (Hall Hq) as [-> ->]. split; [eauto|]. by rewrite firstn_all.
Qed.

(** Loading a snapshot, possibly cut. *)
Lemma wp_load_snapshot now c db c0 f n p q :
  let now' := system_time (ticks c0) in
  let l := live_entries now (store_entries c) in
  sim now c db → snapshot_fits c → fresh c0 → now ≤ now' →
  snapshot_file now c = Ok (f, n) → f = p ++ q →
  wp (load_snapshot (Some p))
    (λ r c', ∃ m, inv c' ∧ sim now' c' (entries_db now' (take m l) ∅) ∧
       (q = [] → (∃ loaded, r = Ok loaded) ∧ take m l = l)) c0.
Proof.
  intros now' l Hs [Hfit Hlen] Hf Hle Hfile Hpq. eapply wp_load_file; [..|exact Hfile|exact Hpq].
  - rewrite Forall_forall in *. intros kv [_ ?]%elem_of_live_entries. auto.
  - pose proof (live_entries_length now (store_entries c)). lia.
  - apply NoDup_store_entries; [done|apply Hs].
  - done.
Qed.

Lemma load_saved_snapshot now c db c0 :
  sim now c db → snapshot_fits c → fresh c0 → now ≤ system_time (ticks c0) →
  ∃ f n loaded, snapshot_file now c = Ok (f, n) ∧
    let r := load_snapshot (Some f) c0 in
    r.1 = Ok loaded ∧ sim (system_time (ticks c0)) r.2 db ∧ mem_ok r.2.
Proof.
  intros Hs Hfit Hf Hle. pose proof (snapshot_file_spec now c (proj2 Hfit)) as Hfile.
  pose proof (wp_load_snapshot _ _ _ _ _ _ _ [] Hs Hfit Hf Hle Hfile (eq_sym (app_nil_r _))) as Hw.
  apply wp_run in Hw. destruct Hw as (m & [_ Hm] & Hs' & Hall).
  destruct (Hall eq_refl) as [[loaded Hr] Htake]. rewrite Htake in Hs'.
  do 3 eexists. split; [exact Hfile|]. cbv zeta. split_and!; [exact Hr| |done].
  by apply (snapshot_all now _ c).
Qed.

(** C6: saving a snapshot and loading it into an empty store restores the database: if
    no entry encodes to 4 GiB or more, the save succeeds, the load succeeds at any
    later time, and from then on clients see exactly what they would have seen, expiry
    times included; under a memory limit, the memory counter again counts exactly the
    bytes stored. *)
Theorem snapshot_roundtrip now c db c0 :
  sim now c db → snapshot_fits c → fresh c0 → now ≤ system_time (ticks c0) →
  ∃ f n loaded, snapshot_file now c = Ok (f, n) ∧
    let r := load_snapshot (Some f) c0 in
    r.1 = Ok loaded ∧ sim (system_time (ticks c0)) r.2 db ∧ mem_ok r.2.
Proof. apply load_saved_snapshot. Qed.

(** C21: a snapshot cut short anywhere never yields a wrong database.  Take a snapshot of
    a store in which no entry encodes to 4 GiB or more and load any prefix of the file,
    into an empty store, at any later time: whether the load fails or succeeds, every key
    it leaves in the store has the value and the expiry time it was saved with and, under
    a memory limit, the memory accounting is exact. *)
Theorem snapshot_cut_sound now c db c0 f n p q :
  sim now c db → snapshot_fits c → fresh c0 → now ≤ system_time (ticks c0) →
  snapshot_file now c = Ok (f, n) → f = p ++ q →
  let c' := (load_snapshot (Some p) c0).2 in
  mem_ok c' ∧ ∃ db', db' ⊆ db ∧ sim (system_time (ticks c0)) c' db'.
Proof.
  intros Hs Hfit Hf Hle Hfile Hpq.
  pose proof (wp_load_snapshot _ _ _ _ _ _ _ _ Hs Hfit Hf Hle Hfile Hpq) as Hw.
  apply wp_run in Hw. destruct Hw as (m & [_ Hm] & Hs' & _). cbv zeta. split; [done|].
  eexists. split; [|exact Hs']. by apply snapshot_subset.
Qed.
End Roundtrip.

(** ** An example *)

Section Examples.

(** A codec with the round trip: the entry as a binary number, a bit per byte. *)
Definition entry_sum (e : SnapshotEntry) : bytes * (bytes + list (bytes * bytes)) * option Z :=
  (se_key e, match se_value e with SV_String b => inl b | SV_Hash l => inr l end, se_expiry e).

Definition sum_entry (x : bytes * (bytes + list (bytes * bytes)) * option Z) : SnapshotEntry :=
  let '(k, v, t) := x in
  mkSnapshotEntry k (match v with inl b => SV_String b | inr l => SV_Hash l end) t.

Fixpoint pos_bits (p : positive) : bytes :=
  match p with xH => [] | xO p => x00 :: pos_bits p | xI p => x01 :: pos_bits p end.

Fixpoint bits_pos (l : bytes) : positive :=
  match l with
  | [] => xH
  | b :: l => if bool_decide (b = x00) then xO (bits_pos l) else xI (bits_pos l)
  end.

Definition demo_bincode : Bincode := {|
  serialize e := Ok (pos_bits (encode (entry_sum e)));
  deserialize b := sum_entry <$> decode (bits_pos b);
  deserialize_legacy _ := None
|}.

Lemma bits_pos_bits p : bits_pos (pos_bits p) = p.
Proof.
  induction p as [p IH|p IH|]; cbn [pos_bits bits_pos]; [| |done]; rewrite IH; reflexivity.
Qed.

Lemma demo_bincode_ok : BincodeOk demo_bincode.
Proof.
  split; [by intros e; eexists|]. intros [k v t] b [= <-] _. unfold deserialize, demo_bincode.
  rewrite bits_pos_bits, countable.decode_encode. by destruct v.
Qed.

#[local] Existing Instance demo_platform.
#[local] Existing Instance demo_default.
#[local] Existing Instance demo_bincode.

Definition saved_store : Core := (set (bs "k") (bs "v") (Some 500) 100 (new 2)).2.
Definition saved_db : Db := <[bs "k":=(EV_String (bs "v"), Some 600)]> ∅.

Lemma saved_store_sim : sim 100 saved_store saved_db.
Proof. apply (simulates_op 100 (OSet (bs "k") (bs "v") (Some 500)) (new 2) ∅), sim_new. done. Qed.

Lemma saved_store_fits : snapshot_fits saved_store.
Proof.
  split; [|done]. apply Forall_forall. intros [k e] Hin.
  assert (store_entries saved_store = [(bs "k", mkEntry (EV_String (bs "v")) (Some 600) 0 0 0)]) as E
    by reflexivity.
  rewrite E in Hin. apply list_elem_of_singleton in Hin as [= -> ->]. split; [done|].
  by intros x [= <-].
Qed.

Definition saved_file : bytes * Z :=
  match snapshot_file 100 saved_store with Ok r => r | Err _ => ([], 0) end.

Lemma saved_store_later : 100 ≤ system_time (ticks (new 4)).
Proof. by vm_compute. Qed.

Lemma snapshot_roundtrip_witness :
  ∃ f n loaded, snapshot_file 100 saved_store = Ok (f, n) ∧
    let r := load_snapshot (Some f) (new 4) in
    r.1 = Ok loaded ∧ sim (system_time (ticks (new 4))) r.2 saved_db ∧ mem_ok r.2.
Proof.
  apply (snapshot_roundtrip demo_platform_ok demo_bincode_ok).
  - exact saved_store_sim.
  - exact saved_store_fits.
  - by apply fresh_new.
  - exact saved_store_later.
Defined.

Lemma snapshot_cut_sound_witness :
  let p := take 30 saved_file.1 in
  let c' := (load_snapshot (Some p) (new 4)).2 in
  mem_ok c' ∧ ∃ db', db' ⊆ saved_db ∧ sim (system_time (ticks (new 4))) c' db'.
Proof.
  intros p.
  apply (snapshot_cut_sound demo_platform_ok demo_bincode_ok 100 saved_store saved_db (new 4)
           saved_file.1
           saved_file.2 p
           (drop 30 saved_file.1)).
  - exact saved_store_sim.
  - exact saved_store_fits.
  - by apply fresh_new.
  - exact saved_store_later.
  - by vm_compute.
  - unfold p. by rewrite take_drop.
Defined.

End Examples.
