(* ===== verification/Server.v ===== *)
(** * The server ([execute_command], the persistence commands and startup of
    [src/main.rs], [src/persistence.rs], [src/server.rs])

    The process state around the store: the append-only file, the snapshot file
    and the flags of the background save, the statistics counters, the jobs handed
    to other threads, and the authentication state of a connection.  Commands run
    in a state monad [SM] over it. *)

From Stdlib Require Import SpecFloat.
From S2P Require Import Prelude Decimal Protocol Config S3Fifo State Store Scan Eviction.
From S2P Require Import Handlers Aof Snapshot.

(** ** State *)

(** Work handed to another thread and not yet begun. *)
Inductive Job := BgSave | BgRewrite.

Record Server := mkServer {
  core : Core;
  AOF : option Aof;
  snapshot_at_path : option bytes;      (* the file at [snapshot_path] *)
  SAVE_IN_PROGRESS : bool;
  LAST_SAVE_TIME : Z;
  TOTAL_COMMANDS : Z;
  LOCAL_CMD_COUNT : Z;                  (* of the worker thread that runs commands *)
  TOTAL_CONNECTIONS : Z;
  ACTIVE_CONNECTIONS : Z;
  REJECTED_CONNECTIONS : Z;
  jobs : list Job
}.

Definition set_core (c : Core) (s : Server) : Server :=
  mkServer c (AOF s) (snapshot_at_path s) (SAVE_IN_PROGRESS s) (LAST_SAVE_TIME s) (TOTAL_COMMANDS s)
    (LOCAL_CMD_COUNT s) (TOTAL_CONNECTIONS s) (ACTIVE_CONNECTIONS s) (REJECTED_CONNECTIONS s) (jobs s).
Definition set_aof (a : option Aof) (s : Server) : Server :=
  mkServer (core s) a (snapshot_at_path s) (SAVE_IN_PROGRESS s) (LAST_SAVE_TIME s) (TOTAL_COMMANDS s)
    (LOCAL_CMD_COUNT s) (TOTAL_CONNECTIONS s) (ACTIVE_CONNECTIONS s) (REJECTED_CONNECTIONS s) (jobs s).
Definition set_saving (b : bool) (s : Server) : Server :=
  mkServer (core s) (AOF s) (snapshot_at_path s) b (LAST_SAVE_TIME s) (TOTAL_COMMANDS s)
    (LOCAL_CMD_COUNT s) (TOTAL_CONNECTIONS s) (ACTIVE_CONNECTIONS s) (REJECTED_CONNECTIONS s) (jobs s).
Definition set_snapshot (f : bytes) (now : Z) (s : Server) : Server :=
  mkServer (core s) (AOF s) (Some f) (SAVE_IN_PROGRESS s) now (TOTAL_COMMANDS s)
    (LOCAL_CMD_COUNT s) (TOTAL_CONNECTIONS s) (ACTIVE_CONNECTIONS s) (REJECTED_CONNECTIONS s) (jobs s).
Definition set_counts (total loc : Z) (s : Server) : Server :=
  mkServer (core s) (AOF s) (snapshot_at_path s) (SAVE_IN_PROGRESS s) (LAST_SAVE_TIME s) total
    loc (TOTAL_CONNECTIONS s) (ACTIVE_CONNECTIONS s) (REJECTED_CONNECTIONS s) (jobs s).
Definition set_connections (total active rejected : Z) (s : Server) : Server :=
  mkServer (core s) (AOF s) (snapshot_at_path s) (SAVE_IN_PROGRESS s) (LAST_SAVE_TIME s)
    (TOTAL_COMMANDS s) (LOCAL_CMD_COUNT s) total active rejected (jobs s).
Definition set_jobs (l : list Job) (s : Server) : Server :=
  mkServer (core s) (AOF s) (snapshot_at_path s) (SAVE_IN_PROGRESS s) (LAST_SAVE_TIME s)
    (TOTAL_COMMANDS s) (LOCAL_CMD_COUNT s) (TOTAL_CONNECTIONS s) (ACTIVE_CONNECTIONS s)
    (REJECTED_CONNECTIONS s) l.

Record ConnectionState := mkConn { authenticated : bool }.

Definition SM (A : Type) : Type := Server → A * Server.

#[global] Instance SM_ret : MRet SM := λ A a s, (a, s).
#[global] Instance SM_bind : MBind SM := λ A B f m s, let r := m s in f r.1 r.2.

Definition get_s {A} (f : Server → A) : SM A := λ s, (f s, s).
Definition modify_s (f : Server → Server) : SM unit := λ s, (tt, f s).

(** An operation on the store. *)
Definition lift {A} (m : M A) : SM A := λ s, let r := m (core s) in (r.1, set_core r.2 s).

(** The case-insensitive comparison of a command name: [eq_ignore_case_3],
    [eq_ignore_case_6], their variants with a fourth letter, and the [lower]
    arrays. *)
Definition name_is (cmd : bytes) (name : string) : bool := bool_decide (map or_0x20 cmd = bs name).

(** ** Text *)

(** [n / d] rounded half to even. *)
Definition round_half_even (n d : Z) : Z :=
  let q := n / d in
  let r := n mod d in
  if 2 * r <? d then q else if d <? 2 * r then q + 1 else if Z.even q then q else q + 1.

(** [format!("{:.2}", x)] of a finite nonnegative [f64]. *)
Definition fmt_f64_2 (x : spec_float) : bytes :=
  match x with
  | S754_finite _ m e =>
      let h := round_half_even (Zpos m * 100 * 2 ^ Z.max 0 e) (2 ^ Z.max 0 (- e)) in
      fmt_unsigned (h / 100) ++ bs "." ++ [digit (h / 10 mod 10); digit (h mod 10)]
  | _ => bs "0.00"
  end.

Definition format_bytes (n : Z) : bytes :=
  let KB := 1024 in
  let MB := 1024 * KB in
  let GB := 1024 * MB in
  let div d := SFdiv 53 1024 (f64_of_u64 n) (f64_of_u64 d) in
  if GB <=? n then fmt_f64_2 (div GB) ++ bs "GB"
  else if MB <=? n then fmt_f64_2 (div MB) ++ bs "MB"
  else if KB <=? n then fmt_f64_2 (div KB) ++ bs "KB"
  else fmt_unsigned n ++ bs "B".

(** Lines, each ended by CRLF. *)
Definition lines (l : list bytes) : bytes := concat (map (λ x, x ++ CRLF) l).

Section Server.
Context {P : Platform} {CFG : HasConfig} {B : Bincode}.

(** [ConnectionState::new]. *)
Definition connection_new : ConnectionState :=
  mkConn (bool_decide (password (security CONFIG) = ""%string)).

(** ** Persistence commands *)

Definition aof_log (command : list bytes) : SM unit :=
  modify_s (λ s, set_aof (append command <$> AOF s) s).

(** [save_snapshot_sync], run to its end. *)
Definition save_snapshot_sync : SM (Result Z bytes) :=
  busy ← get_s SAVE_IN_PROGRESS;
  modify_s (set_saving true);;
  if busy : bool then mret (Err (bs "Background save already in progress"))
  else
    now ← lift get_timestamp;
    c ← get_s core;
    result ← (match snapshot_file now c with
              | Ok (file, count) => modify_s (set_snapshot file now);; mret (Ok (usize count))
              | Err e => mret (Err e)
              end);
    modify_s (set_saving false);;
    mret result.

Definition handle_save (w : bytes) : SM bytes :=
  if negb (enabled (persistence CONFIG)) then mret (write_error w (bs "persistence is disabled"))
  else
    r ← save_snapshot_sync;
    mret (match r with Ok _ => write_simple_string w (bs "OK") | Err e => write_error w e end).

Definition handle_bgsave (w : bytes) : SM bytes :=
  if negb (enabled (persistence CONFIG)) then mret (write_error w (bs "persistence is disabled"))
  else
    busy ← get_s SAVE_IN_PROGRESS;
    modify_s (set_saving true);;
    if busy : bool then mret (write_error w (bs "Background save already in progress"))
    else
      modify_s (λ s, set_jobs (jobs s ++ [BgSave]) s);;
      mret (write_simple_string w (bs "Background saving started")).

(** The calling thread is one of the runtime's, so [try_current] succeeds. *)
Definition handle_bgrewriteaof (w : bytes) : SM bytes :=
  a ← get_s AOF;
  match a with
  | None => mret (write_error w (bs "AOF is disabled"))
  | Some a =>
      if rewrite_in_progress a then
        mret (write_error w (bs "Background append only file rewriting already in progress"))
      else
        modify_s (λ s, set_jobs (jobs s ++ [BgRewrite]) s);;
        mret (write_simple_string w (bs "Background append only file rewriting started"))
  end.

(** The body of a spawned job. *)
Definition run_job (j : Job) : SM unit :=
  match j with
  | BgSave => modify_s (set_saving false);; save_snapshot_sync;; mret tt
  | BgRewrite =>
      a ← get_s AOF;
      match a with
      | None => mret tt
      | Some a => r ← lift (rewrite a); modify_s (set_aof (Some r.2))
      end
  end.

(** ** Connection commands *)

(** [ct_eq] compares in constant time; its result is equality. *)
Definition handle_auth (command : list bytes) (w : bytes) (st : ConnectionState)
    : bytes * ConnectionState :=
  if bool_decide (password (security CONFIG) = ""%string) then
    (write_error w (bs "ERR Client sent AUTH, but no password is set"), st)
  else
    match command with
    | _ :: provided :: _ =>
        if bool_decide (provided = bs (password (security CONFIG))) then
          (write_simple_string w (bs "OK"), mkConn true)
        else (write_error w (bs "ERR invalid password"), st)
    | _ => (write_error w (bs "ERR wrong number of arguments for 'auth' command"), st)
    end.

Definition info_text (s : Server) (uptime db_size : Z) : bytes :=
  let n := fmt_unsigned in
  let max := max_memory (memory CONFIG) in
  lines [
    bs "# Server"; bs "redis_version:7.0.0"; bs "redis_mode:standalone"; bs "os:Redistill";
    bs "arch_bits:64"; bs "process_id:" ++ n process_id; bs "uptime_in_seconds:" ++ n uptime; [];
    bs "# Clients"; bs "connected_clients:" ++ n (ACTIVE_CONNECTIONS s); [];
    bs "# Memory"; bs "used_memory:" ++ n (MEMORY_USED (core s));
    bs "used_memory_human:" ++ format_bytes (MEMORY_USED (core s));
    bs "maxmemory:" ++ n max;
    bs "maxmemory_human:" ++ (if 0 <? max then format_bytes max else bs "unlimited");
    bs "maxmemory_policy:" ++ bs (as_str EVICTION_POLICY);
    bs "evicted_keys:" ++ n (EVICTED_KEYS (core s)); [];
    bs "# Stats"; bs "total_connections_received:" ++ n (TOTAL_CONNECTIONS s);
    bs "total_commands_processed:" ++ n (TOTAL_COMMANDS s);
    bs "rejected_connections:" ++ n (REJECTED_CONNECTIONS s); [];
    bs "# Keyspace"; bs "db0:keys=" ++ n db_size ++ bs ",expires=0,avg_ttl=0"].

Definition handle_info (w : bytes) : SM bytes :=
  uptime ← lift (λ c, (elapsed (ticks c), tick c));
  db_size ← lift store_len;
  info ← get_s (λ s, info_text s uptime db_size);
  mret (write_bulk_string w info).

(** ** Dispatch *)

(** The thread's counter, added to the global one every 256 commands. *)
Definition count_command : SM unit :=
  modify_s (λ s,
    let new_count := LOCAL_CMD_COUNT s + 1 in
    if 256 <=? new_count then set_counts (u64 (TOTAL_COMMANDS s + 256)) 0 s
    else set_counts (TOTAL_COMMANDS s) new_count s).

Definition requires_auth (cmd : bytes) : bool := negb (name_is cmd "auth") && negb (name_is cmd "ping").

Section Dispatch.
Context (command : list bytes) (w : bytes) (st : ConnectionState) (now : Z).

(** A command that leaves the connection state alone; one that is then logged. *)
Definition reply (m : SM bytes) : SM (bytes * ConnectionState) := w ← m; mret (w, st).
Definition logged (m : SM bytes) : SM (bytes * ConnectionState) :=
  w ← m; aof_log command;; mret (w, st).

Definition two_args : bool := 2 <=? len command.

(** The arms of [match cmd.len()] in [execute_command]: the tests of each in order, with
    what each command does. *)
Definition commands_3 : list (string * SM (bytes * ConnectionState)) := [
  ("set", logged (lift (handle_set command w now)));
  ("ttl", reply (lift (handle_ttl command w now)));
  ("get", reply (lift (handle_get command w now)));
  ("del", if two_args then logged (lift (handle_del command w now))
          else reply (mret (write_error w WRONG_ARGS)))]%string.

Definition commands_4 : list (string * SM (bytes * ConnectionState)) := [
  ("ping", reply (mret (write_simple_string w (bs "PONG"))));
  ("keys", reply (ks ← lift (keys now); mret (write_array w ks)));
  ("save", reply (handle_save w));
  ("incr", logged (lift (handle_incr command w now 1)));
  ("decr", logged (lift (handle_incr command w now (-1))));
  ("pttl", reply (lift (handle_pttl command w now)));
  ("mget", reply (lift (handle_mget command w now)));
  ("mset", logged (lift (handle_mset command w now)));
  ("auth", mret (handle_auth command w st));
  ("info", reply (handle_info w));
  ("scan", reply (lift (handle_scan command w now)));
  ("hset", logged (lift (handle_hset command w now)));
  ("hget", reply (lift (handle_hget command w now)));
  ("hdel", logged (lift (handle_hdel command w now)));
  ("type", reply (lift (handle_type command w now)))]%string.

Definition commands_6 : list (string * SM (bytes * ConnectionState)) := [
  ("exists", reply (lift (handle_exists command w now)));
  ("bgsave", reply (handle_bgsave w));
  ("dbsize", reply (n ← lift store_len; mret (write_integer w n)));
  ("config", reply (mret (write_array w [])));
  ("incrby", logged (lift (handle_incrby command w now)));
  ("decrby", logged (lift (handle_decrby command w now)));
  ("expire", logged (lift (handle_expire command w now)))]%string.

Definition commands_7 : list (string * SM (bytes * ConnectionState)) := [
  ("flushdb", reply (lift (handle_flush w)));
  ("command", reply (mret (write_array w [])));
  ("persist", logged (lift (handle_persist command w now)));
  ("hgetall", reply (lift (handle_hgetall command w now)))]%string.

Definition commands_8 : list (string * SM (bytes * ConnectionState)) := [
  ("lastsave", reply (t ← get_s LAST_SAVE_TIME; mret (write_integer w t)));
  ("flushall", reply (lift (handle_flush w)))]%string.

Definition commands_12 : list (string * SM (bytes * ConnectionState)) := [
  ("bgrewriteaof", reply (handle_bgrewriteaof w))]%string.

Definition commands : list (string * SM (bytes * ConnectionState)) :=
  commands_3 ++ commands_4 ++ commands_6 ++ commands_7 ++ commands_8 ++ commands_12.

Definition dispatch (cmd : bytes) (table : list (string * SM (bytes * ConnectionState)))
    : SM (bytes * ConnectionState) :=
  match List.find (λ e, name_is cmd e.1) table with
  | Some (_, h) => h
  | None => mret (write_error w (bs "unknown command"), st)
  end.

Definition execute_command : SM (bytes * ConnectionState) :=
  count_command;;
  match command with
  | [] => mret (write_error w (bs "empty command"), st)
  | cmd :: _ =>
      if requires_auth cmd && negb (authenticated st) then
        mret (write_error w (bs "NOAUTH Authentication required"), st)
      else dispatch cmd commands
  end.

End Dispatch.

(** ** Background tasks and shutdown *)

(** [snapshot_task], spawned when snapshots are enabled with an interval. *)
Definition snapshot_tick : SM unit :=
  if enabled (persistence CONFIG) && (0 <? snapshot_interval (persistence CONFIG))
  then save_snapshot_sync;; mret tt
  else mret tt.

(** [everysec_task], spawned under that policy. *)
Definition sync_tick : SM unit :=
  modify_s (λ s, set_aof ((λ a, if bool_decide (fsync a = EverySec) then everysec_tick a else a)
                            <$> AOF s) s).

(** [rewrite_supervisor_task]; the blocking task it spawns is run at once. *)
Definition rewrite_tick : SM unit :=
  a ← get_s AOF;
  match a with
  | Some a =>
      if negb (aof_rewrite_percentage (persistence CONFIG) =? 0) &&
         should_rewrite (aof_rewrite_min_size (persistence CONFIG))
           (aof_rewrite_percentage (persistence CONFIG)) a && negb (rewrite_in_progress a)
      then run_job BgRewrite
      else mret tt
  | None => mret tt
  end.

(** A thread takes the oldest spawned job. *)
Definition run_next_job : SM unit :=
  js ← get_s jobs;
  match js with
  | [] => mret tt
  | j :: js => modify_s (set_jobs js);; run_job j
  end.

(** What can happen: a command of some connection, with its writer's buffer and the
    time the connection took; and the background tasks. *)
Inductive Event :=
| Command (command : list bytes) (w : bytes) (st : ConnectionState) (now : Z)
| ExpireTick | JobRun | SnapshotTick | SyncTick | RewriteTick.

(** The event, with the reply of a command. *)
Definition run_event (e : Event) : SM (option (bytes * ConnectionState)) :=
  match e with
  | Command command w st now => r ← execute_command command w st now; mret (Some r)
  | ExpireTick => lift (expire_random_keys 20);; mret None
  | JobRun => run_next_job;; mret None
  | SnapshotTick => snapshot_tick;; mret None
  | SyncTick => sync_tick;; mret None
  | RewriteTick => rewrite_tick;; mret None
  end.

(** The last steps of [main]: the final log sync and the final snapshot. *)
Definition shutdown : SM unit :=
  modify_s (λ s, set_aof (sync <$> AOF s) s);;
  if enabled (persistence CONFIG) && save_on_shutdown (persistence CONFIG)
  then save_snapshot_sync;; mret tt
  else mret tt.

(** ** Startup *)

(** The replay loop, to the end of the file; [Err] makes [main] exit. *)
Fixpoint replay (fuel : nat) (l : bytes) (replay_now : Z) (st : ConnectionState) (replayed : Z)
    : SM (Result Z AofError) :=
  match fuel with
  | O => mret (Ok replayed)
  | S fuel =>
      match next_command l with
      | Ok (Some (cmd, l)) =>
          r ← execute_command cmd [] st replay_now;
          replay fuel l replay_now r.2 (replayed + 1)
      | Ok None => mret (Ok replayed)
      | Err e => mret (Err e)
      end
  end.

Inductive StartError := BadFsyncPolicy (e : string) | CorruptAof (e : AofError).

(** The store and the log [main] starts with, given the files at [snapshot_path]
    and [aof_path]. *)
Definition start_store (snapshot : option bytes) : SM unit :=
  if enabled (persistence CONFIG) then lift (load_snapshot snapshot);; mret tt else mret tt.

Definition start_aof (aof_file : option bytes) : SM (Result unit StartError) :=
  if aof_enabled (persistence CONFIG) then
    match fsync_parse (aof_fsync (persistence CONFIG)) with
    | Err e => mret (Err (BadFsyncPolicy e))
    | Ok policy =>
        r ← (match aof_file with
             | Some l =>
                 replay_now ← lift get_timestamp;
                 replay (S (length l)) l replay_now (mkConn true) 0
             | None => mret (Ok 0)
             end);
        match r with
        | Err e => mret (Err (CorruptAof e))
        | Ok _ =>
            modify_s (set_aof (Some (aof_open (default [] aof_file) policy)));; mret (Ok tt)
        end
    end
  else mret (Ok tt).

(** The process at the start of [main]. *)
Definition boot (snapshot : option bytes) (i : nat) : Server :=
  let c := new (cfg_num_shards (server CONFIG)) in
  mkServer (mkCore (shards c) (s3fifo_queues c) (num_shards c) 0 0 None i)
    None snapshot false 0 0 0 0 0 0 [].

Definition start (snapshot aof_file : option bytes) (i : nat) : Result Server StartError :=
  let s := (start_store snapshot (boot snapshot i)).2 in
  let r := start_aof aof_file s in
  match r.1 with Ok _ => Ok r.2 | Err e => Err e end.

End Server.

(** The table, row by row. *)
Ltac unfold_commands := unfold commands, commands_3, commands_4, commands_6, commands_7, commands_8, commands_12; cbn [app].
