(* ===== verification/ServerSpec.v ===== *)
(** * What the server promises its clients

    The contract of every command as a relation on the abstract database of
    StoreSpec.v, in a table parallel to the dispatch table of Server.v, and the
    simulation theorem that [execute_command] and the background tasks implement
    it. *)

From S2P Require Import Prelude Decimal Protocol Glob Config S3Fifo State Store Steps StoreOps.
From S2P Require Import StoreSpec Contents Memory Scan Eviction Handlers HandlerSpec HandlerMem Aof.
From S2P Require Import Snapshot Server Demo.

(** ** Contracts *)

(** What a command may reply and leave behind. *)
Abbreviation CmdSpec := (Db → bytes → Db → Prop).

Definition does (act : Db → bytes * Db) : CmdSpec := λ db w' db', (w', db') = act db.
Definition replies (w : bytes) : CmdSpec := does (λ db, (w, db)).

(** A reply of some form, and no effect. *)
Definition observes (allowed : Db → bytes → Prop) : CmdSpec := λ db w' db', db' = db ∧ allowed db w'.

(** Expiry times are [u64]s. *)
Definition typed (db : Db) : Prop := ∀ k v x, db !! k = Some (v, Some x) → is_u64 x.

(** Keys that have expired at [now] may be forgotten. *)
Definition forgets (now : Z) (db db' : Db) : Prop :=
  ∀ k, db' !! k = db !! k ∨ db' !! k = None ∧ db_live now db k = None.

Section Contracts.
Context {P : Platform} {CFG : HasConfig}.

(** A write behind admission control: under a memory limit, keys may be dropped
    first, and the write may be refused. *)
Definition admits (w : bytes) (act : Db → bytes * Db) : CmdSpec := λ db w' db',
  ∃ db1, db1 ⊆ db ∧ (max_memory (memory CONFIG) = 0 → db1 = db) ∧
    ((w' = write_error w OOM ∧ max_memory (memory CONFIG) ≠ 0 ∧ db' = db1) ∨ (w', db') = act db1).

Section Commands.
Context (command : list bytes) (w : bytes) (now : Z).

Definition errs (e : bytes) : CmdSpec := replies (write_error w e).

Definition with_key (e : bytes) (f : bytes → CmdSpec) : CmdSpec :=
  match command with _ :: key :: _ => f key | _ => errs e end.

Definition spec_set : CmdSpec :=
  match command with
  | _ :: key :: value :: opts => admits w (set_act now key value opts w)
  | _ => errs WRONG_ARGS
  end.

(** An expired hash that is still in the store answers [WRONGTYPE]. *)
Definition expired_hash (db : Db) (key : bytes) : Prop :=
  ∃ h x, db !! key = Some (EV_Hash h, x) ∧ past now x = true.

Definition spec_incr_key (key : bytes) (delta : Z) : CmdSpec := λ db w' db',
  (expired_hash db key ∧ errs WRONGTYPE db w' db') ∨
  match db_number now db key with
  | Err e => errs e db w' db'
  | Ok (v, x) =>
      match checked_i64 (v + delta) with
      | None => errs (if 0 <? delta then bs "increment would produce overflow"
                      else bs "decrement would produce overflow") db w' db'
      | Some n =>
          admits w (λ db, (write_signed_integer w n, <[key:=(EV_String (fmt_signed n), x)]> db))
            db w' db'
      end
  end.

Definition spec_incr (delta : Z) : CmdSpec := with_key WRONG_ARGS (λ key, spec_incr_key key delta).

(** [INCRBY] and [DECRBY], by [sign] times the argument. *)
Definition spec_by (sign : Z) : CmdSpec :=
  match command with
  | _ :: key :: n :: _ =>
      match parse_i64 n with
      | Some d => spec_incr_key key (sign * d)
      | None => errs NOT_INTEGER
      end
  | _ => errs WRONG_ARGS
  end.

Definition spec_mset : CmdSpec :=
  if (len command <? 3) || negb ((len command - 1) mod 2 =? 0)
  then errs (bs "wrong number of arguments for MSET")
  else admits w (λ db, (write_simple_string w (bs "OK"), db_mset (pairs_of (drop 1 command)) db)).

Definition spec_ttl (remaining : Z → Z) : CmdSpec :=
  with_key WRONG_ARGS (λ key,
    does (λ db, (write_signed_integer w (db_ttl now db key remaining), db))).

Definition spec_expire : CmdSpec :=
  match command with
  | _ :: key :: n :: _ =>
      match parse_i64 n with
      | Some v => does (λ db, (write_integer w (db_expire now db key v).1, (db_expire now db key v).2))
      | None => errs NOT_INTEGER
      end
  | _ => errs WRONG_ARGS
  end.

Definition spec_persist : CmdSpec :=
  with_key WRONG_ARGS (λ key,
    does (λ db, (write_integer w (db_persist now db key).1, (db_persist now db key).2))).

Definition spec_del : CmdSpec :=
  if 2 <=? len command then
    does (λ db, (write_integer w (db_delete now db (drop 1 command) 0).1,
                 (db_delete now db (drop 1 command) 0).2))
  else errs WRONG_ARGS.

Definition spec_hset : CmdSpec :=
  if (len command <? 4) || negb ((len command - 2) mod 2 =? 0)
  then errs (bs "wrong number of arguments for 'hset' command")
  else
    does (λ db, let r := db_hset now db (nth 1 command []) (pairs_of (drop 2 command)) in
                (write_result write_integer w r.1, r.2)).

Definition spec_hget : CmdSpec :=
  match command with
  | _ :: key :: field :: _ =>
      does (λ db, (write_result write_opt w (db_read now db key (Ok None) (field_reply field)), db))
  | _ => errs (bs "wrong number of arguments for 'hget' command")
  end.

Definition spec_hdel : CmdSpec :=
  match command with
  | _ :: key :: field :: fields =>
      does (λ db, let r := db_hdel now db key (field :: fields) in
                  (write_result write_integer w r.1, r.2))
  | _ => errs (bs "wrong number of arguments for 'hdel' command")
  end.

Definition spec_hgetall : CmdSpec :=
  with_key (bs "wrong number of arguments for 'hgetall' command") (λ key,
    does (λ db, (write_result write_array w (db_read now db key (Ok []) fields_reply), db))).

Definition spec_mget : CmdSpec :=
  match command with
  | _ :: key :: rest =>
      does (λ db, (fold_left (λ w key, write_opt w (db_string now db key)) (key :: rest)
                     (write_array_header w (len (key :: rest))), db))
  | _ => errs WRONG_ARGS
  end.

Definition spec_keys : CmdSpec := observes (λ db w',
  ∃ ks, w' = write_array w ks ∧ NoDup ks ∧ ∀ k, k ∈ ks ↔ is_Some (db_live now db k)).

(** [SCAN]: live keys that match, none twice and at most [COUNT] of them; from cursor 0
    all of them, and cursor 0 again, when the database is no larger than that. *)
Definition scan_reply (next : Z) (ks : list bytes) : bytes :=
  fold_left write_bulk_string ks
    (write_array_header (write_bulk_string (write_array_header w 2) (fmt_unsigned next)) (len ks)).

Definition selected (pattern : option bytes) (db : Db) (k : bytes) : Prop :=
  is_Some (db_live now db k) ∧ match pattern with Some pat => Glob pat k | None => True end.

Definition spec_scan : CmdSpec :=
  match command with
  | _ :: c :: opts =>
      match parse_u64 c with
      | None => errs (bs "invalid cursor")
      | Some cursor =>
          match parse_scan_opts opts 10 None with
          | Err e => errs e
          | Ok (count_hint, pattern) => observes (λ db w',
              ∃ next ks, w' = scan_reply next ks ∧ NoDup ks ∧ len ks ≤ clamp count_hint ∧
                (∀ k, k ∈ ks → selected pattern db k) ∧
                (cursor = 0 → Z.of_nat (size db) ≤ clamp count_hint →
                 next = 0 ∧ ∀ k, selected pattern db k → k ∈ ks))
          end
      end
  | _ => errs (bs "wrong number of arguments for 'scan' command")
  end.

(** [DBSIZE] and [INFO] count the keys that are stored; of the expired ones some may
    still be. *)
Definition spec_dbsize : CmdSpec := observes (λ db w',
  ∃ stored, forgets now db stored ∧ w' = write_integer w (Z.of_nat (size stored))).

Definition spec_info : CmdSpec := observes (λ db w',
  ∃ stored s uptime, forgets now db stored ∧
    w' = write_bulk_string w (info_text s uptime (Z.of_nat (size stored)))).

(** [SAVE], [BGSAVE], [BGREWRITEAOF] and [LASTSAVE] do not touch the database. *)
Definition spec_save : CmdSpec :=
  if enabled (persistence CONFIG) then
    observes (λ _ w', w' = write_simple_string w (bs "OK") ∨ ∃ e, w' = write_error w e)
  else errs (bs "persistence is disabled").

Definition spec_bgsave : CmdSpec :=
  if enabled (persistence CONFIG) then
    observes (λ _ w', w' = write_simple_string w (bs "Background saving started") ∨
                      w' = write_error w (bs "Background save already in progress"))
  else errs (bs "persistence is disabled").

Definition spec_bgrewriteaof : CmdSpec :=
  observes (λ _ w', w' = write_error w (bs "AOF is disabled") ∨
    w' = write_error w (bs "Background append only file rewriting already in progress") ∨
    w' = write_simple_string w (bs "Background append only file rewriting started")).

Definition spec_lastsave : CmdSpec := observes (λ _ w', ∃ t, w' = write_integer w t).

Section Connection.
Context (st : ConnectionState).

(** The contract of every command, in the order of the dispatch table. *)
Definition contracts : list (string * CmdSpec) := [
  ("set", spec_set);
  ("ttl", spec_ttl (λ expiry, i64 (u64 (expiry - now))));
  ("get", with_key WRONG_ARGS (λ key, does (λ db, (write_opt w (db_string now db key), db))));
  ("del", spec_del);
  ("ping", replies (write_simple_string w (bs "PONG")));
  ("keys", spec_keys);
  ("save", spec_save);
  ("incr", spec_incr 1);
  ("decr", spec_incr (-1));
  ("pttl", spec_ttl (λ expiry, Z.min (sat_u64 (sat_u64 (expiry - now) * 1000)) I64_MAX));
  ("mget", spec_mget);
  ("mset", spec_mset);
  ("auth", replies (handle_auth command w st).1);
  ("info", spec_info);
  ("scan", spec_scan);
  ("hset", spec_hset);
  ("hget", spec_hget);
  ("hdel", spec_hdel);
  ("type", with_key WRONG_ARGS (λ key, does (λ db,
      (write_simple_string w (bs (db_read now db key "none" type_reply)), db))));
  ("exists", with_key WRONG_ARGS (λ _, does (λ db,
      (write_integer w (zsum (db_count now db) (drop 1 command)), db))));
  ("bgsave", spec_bgsave);
  ("dbsize", spec_dbsize);
  ("config", replies (write_array w []));
  ("incrby", spec_by 1);
  ("decrby", spec_by (-1));
  ("expire", spec_expire);
  ("flushdb", does (λ _, (write_simple_string w (bs "OK"), ∅)));
  ("command", replies (write_array w []));
  ("persist", spec_persist);
  ("hgetall", spec_hgetall);
  ("lastsave", spec_lastsave);
  ("flushall", does (λ _, (write_simple_string w (bs "OK"), ∅)));
  ("bgrewriteaof", spec_bgrewriteaof)]%string.

(** The contract of a command of a connection. *)
Definition contract : CmdSpec :=
  match command with
  | [] => errs (bs "empty command")
  | cmd :: _ =>
      if requires_auth cmd && negb (authenticated st) then
        errs (bs "NOAUTH Authentication required")
      else
      match List.find (λ e, name_is cmd e.1) contracts with
      | Some (_, sp) => sp
      | None => errs (bs "unknown command")
      end
  end.

End Connection.
End Commands.
End Contracts.

(** ** Handlers implement their contracts *)

Section Refinement.
Context {P : Platform} {CFG : HasConfig}.

(** The store and the database agree from [now] on. *)
Record agree (now : Z) (c : Core) (db : Db) : Prop := {
  agree_sim : sim now c db;
  agree_typed : typed db
}.

Definition meets {A : Type} (now : Z) (m : M A) (sp : Db → A → Db → Prop) : Prop :=
  ∀ c db, agree now c db → wp m (λ a c', ∃ db', sp db a db' ∧ agree now c' db') c.

(** Typed databases stay so. *)
Lemma typed_insert db k v x : typed db → (∀ y, x = Some y → is_u64 y) → typed (<[k:=(v, x)]> db).
Proof.
  intros Ht Hx k' v' y. rewrite lookup_insert_Some. intros [[-> [= -> ->]]|[_ ?]]; [by apply Hx|by eapply Ht].
Qed.

Lemma typed_sub db db' : db' ⊆ db → typed db → typed db'.
Proof. intros Hs Ht k v x Hk. eapply Ht, lookup_weaken; done. Qed.

Lemma typed_delete db k : typed db → typed (base.delete k db).
Proof. intros Ht. eapply typed_sub; [apply delete_subseteq|done]. Qed.

Lemma typed_live now db k v x : typed db → db_live now db k = Some (v, Some x) → is_u64 x.
Proof.
  intros Ht. unfold db_live. destruct (db !! k) as [[v' x']|] eqn:Hk; [|done].
  destruct (past now x'); [done|]. intros [= -> ->]. by eapply Ht.
Qed.

Lemma meets_ret (now : Z) (w : bytes) : meets now (mret w) (replies w).
Proof. intros c db Ha. apply wp_ret. by exists db. Qed.

Lemma meets_refines (now : Z) h act :
  refines now h act → (∀ db, typed db → typed (act db).2) → meets now h (does act).
Proof.
  intros Hr Ht c db [Hs Hty]. eapply wp_mono; [by apply Hr|]. intros w' c' [-> Hs'].
  exists (act db).2. split; [symmetry; apply surjective_pairing|]. split; auto.
Qed.

Lemma admitted_admits db w w' c' now act :
  admitted db w w' c' now act → typed db → (∀ db, typed db → typed (act db).2) →
  ∃ db', admits w act db w' db' ∧ agree now c' db'.
Proof.
  intros (db1 & Hsub & Hz & Hcase) Ht Hact. pose proof (typed_sub _ _ Hsub Ht) as Ht1.
  destruct Hcase as [(-> & Hne & Hs)|[-> Hs]].
  - exists db1. split; [|by split]. exists db1. split; [done|]. split; [done|]. by left.
  - exists (act db1).2. split; [|split; auto]. exists db1. split_and!; [done..|].
    right. symmetry. apply surjective_pairing.
Qed.

Lemma typed_some_u64 (now : Z) (ttl : option Z) y : ((λ s, u64 (now + s)) <$> ttl) = Some y → is_u64 y.
Proof. destruct ttl; intros [= <-]. apply u64_range. Qed.

Lemma typed_set_act now key value opts w db : typed db → typed (set_act now key value opts w db).2.
Proof.
  intros Ht. unfold set_act. destruct (parse_set_opts _ _) as [o|e]; [|done].
  destruct (so_nx o && so_xx o); [done|]. unfold db_set. cbv zeta.
  destruct (so_nx o), (so_xx o); destruct (if _ || _ then _ else _); try done;
    apply typed_insert; eauto using typed_some_u64.
Qed.

Lemma meets_set command w now : meets now (handle_set command w now) (spec_set command w now).
Proof.
  unfold spec_set. destruct command as [|name [|key [|value opts]]]; try apply meets_ret.
  intros c db [Hs Ht]. eapply wp_mono; [by apply wp_handle_set|]. intros w' c' Hw.
  by eapply admitted_admits; eauto using typed_set_act.
Qed.

Lemma typed_mset kvs db : typed db → typed (db_mset kvs db).
Proof.
  unfold db_mset. revert db. induction kvs as [|kv kvs IH]; intros db Ht; [done|].
  apply IH, typed_insert; [done|]. done.
Qed.

Lemma meets_mset command w now : meets now (handle_mset command w now) (spec_mset command w).
Proof.
  unfold spec_mset. destruct (_ || _) eqn:Hg.
  { unfold handle_mset. rewrite Hg. apply meets_ret. }
  apply orb_false_iff in Hg as [H1%Z.ltb_ge H2%negb_false_iff%Z.eqb_eq].
  intros c db [Hs Ht]. eapply wp_mono; [by apply wp_handle_mset|]. intros w' c' Hw.
  eapply admitted_admits; eauto. intros. by apply typed_mset.
Qed.

Lemma incr_expired_hash name key rest w now delta c :
  ¬ no_expired_hash now c key →
  wp (handle_incr (name :: key :: rest) w now delta) (λ w' c', w' = write_error w WRONGTYPE ∧ c' = c) c.
Proof.
  intros Hh. cbn [handle_incr]. apply wp_bind. apply (wp_find c key (λ i e, _)).
  unfold no_expired_hash in Hh. destruct (lookup_entry c key) as [e|]; [|done].
  destruct (e_value e); [done|]. by apply wp_ret, wp_ret.
Qed.

#[global] Instance no_expired_hash_dec now c key : Decision (no_expired_hash now c key).
Proof.
  unfold no_expired_hash. destruct (lookup_entry c key) as [e|]; [|apply _]. destruct (e_value e); apply _.
Defined.

Lemma expired_hash_stored now c key db :
  ¬ no_expired_hash now c key → sim now c db → expired_hash now db key.
Proof.
  unfold no_expired_hash. intros Hh [_ Hl]. specialize (Hl key).
  destruct (lookup_entry c key) as [e|]; [|done]. cbn in Hl. unfold data in Hl.
  destruct (e_value e) as [v|h]; [done|]. do 2 eexists. split; [exact Hl|].
  rewrite <- expired_past. by destruct (expired now e).
Qed.

Lemma meets_incr_key name key rest w now delta :
  0 ≤ now → meets now (handle_incr (name :: key :: rest) w now delta) (spec_incr_key w now key delta).
Proof.
  intros Hn c db [Hs Ht]. destruct (decide (no_expired_hash now c key)) as [Hh|Hh].
  - eapply wp_mono; [apply (wp_handle_incr name key rest w now delta c db Hs Hh Hn)|].
    { intros v x. by apply typed_live. }
    intros w' c' Hw. unfold incr_post, spec_incr_key in *.
    destruct (db_number now db key) as [[v x]|e] eqn:Hnum.
    2:{ destruct Hw as [-> ?]. exists db. split; [by right|by split]. }
    destruct (checked_i64 (v + delta)) as [n|].
    2:{ destruct Hw as [-> ?]. exists db. split; [by right|by split]. }
    apply admitted_admits in Hw as (db' & Hw & Ha); [by exists db'; split; [right|]|done|].
    intros db2 Ht2. apply typed_insert; [done|]. intros y ->. unfold db_number in Hnum.
    destruct (db_live now db key) as [[[s|h] x']|] eqn:Hl; try done.
    destruct (parse_i64 s); [|done]. injection Hnum as -> ->. eapply typed_live; [exact Ht|exact Hl].
  - eapply wp_mono; [by apply incr_expired_hash|]. intros w' c' [-> ->]. exists db.
    split; [|by split]. left. split; [by eapply expired_hash_stored|done].
Qed.

Lemma meets_incr command w now delta :
  0 ≤ now → meets now (handle_incr command w now delta) (spec_incr command w now delta).
Proof.
  intros Hn. unfold spec_incr, with_key.
  destruct command as [|name [|key rest]]; try apply meets_ret. by apply meets_incr_key.
Qed.

Lemma meets_incrby command w now :
  0 ≤ now → meets now (handle_incrby command w now) (spec_by command w now 1).
Proof.
  intros Hn. unfold spec_by, handle_incrby.
  destruct command as [|name [|key [|n rest]]]; try apply meets_ret.
  destruct (parse_i64 n) as [d|]; [|apply meets_ret]. rewrite Z.mul_1_l. by apply meets_incr_key.
Qed.

Lemma meets_decrby command w now :
  0 ≤ now → meets now (handle_decrby command w now) (spec_by command w now (-1)).
Proof.
  intros Hn. unfold spec_by, handle_decrby.
  destruct command as [|name [|key [|n rest]]]; try apply meets_ret.
  destruct (parse_i64 n) as [d|] eqn:Hd; [|apply meets_ret].
  destruct (Z.eqb_spec d I64_MIN) as [->|_]; [by apply parse_i64_not_min in Hd|].
  replace (-1 * d) with (- d) by lia. by apply meets_incr_key.
Qed.

(** Commands that are one action on the database. *)

Lemma meets_ttl_reply command w now remaining :
  meets now (ttl_reply command w now remaining) (spec_ttl command w now remaining).
Proof.
  unfold spec_ttl, with_key. destruct command as [|name [|key rest]]; try apply meets_ret.
  apply meets_refines; [apply refines_ttl_reply|done].
Qed.

Lemma typed_db_delete now ks n db : typed db → typed (db_delete now db ks n).2.
Proof.
  revert n db. induction ks as [|k ks IH]; intros n db Ht; [done|]. by apply IH, typed_delete.
Qed.

Lemma meets_expire command w now : meets now (handle_expire command w now) (spec_expire command w now).
Proof.
  unfold spec_expire. destruct command as [|name [|key [|n rest]]]; try apply meets_ret.
  destruct (parse_i64 n) as [v|] eqn:Hv.
  2:{ unfold handle_expire. rewrite Hv. apply meets_ret. }
  apply meets_refines; [by apply refines_expire|]. intros db Ht. unfold db_expire.
  destruct (0 <? v); [|by apply typed_delete]. destruct (db_live now db key) as [[? ?]|]; [|done].
  apply typed_insert; [done|]. intros y [= <-]. apply u64_range.
Qed.

Lemma meets_persist command w now :
  meets now (handle_persist command w now) (spec_persist command w now).
Proof.
  unfold spec_persist, with_key. destruct command as [|name [|key rest]]; try apply meets_ret.
  apply meets_refines; [apply refines_persist|]. intros db Ht. unfold db_persist.
  destruct (db_live now db key) as [[? [?|]]|]; try done. by apply typed_insert.
Qed.

Lemma meets_del command w now :
  meets now (handle_del command w now)
    (does (λ db, (write_integer w (db_delete now db (drop 1 command) 0).1,
                  (db_delete now db (drop 1 command) 0).2))).
Proof. apply meets_refines; [apply refines_del|]. intros db Ht. by apply typed_db_delete. Qed.

Lemma meets_hset command w now : meets now (handle_hset command w now) (spec_hset command w now).
Proof.
  unfold spec_hset. destruct (_ || _) eqn:Hg.
  { unfold handle_hset. rewrite Hg. apply meets_ret. }
  apply orb_false_iff in Hg as [H1%Z.ltb_ge H2%negb_false_iff%Z.eqb_eq].
  apply meets_refines; [by apply refines_hset|]. intros db Ht. unfold db_hset.
  destruct (db_live now db _) as [[[?|?] x]|] eqn:Hl; try done; apply typed_insert; try done.
  intros y ->. eapply typed_live; [exact Ht|exact Hl].
Qed.

Lemma meets_hdel command w now : meets now (handle_hdel command w now) (spec_hdel command w now).
Proof.
  unfold spec_hdel. destruct command as [|name [|key [|field fields]]]; try apply meets_ret.
  apply meets_refines; [apply refines_hdel|]. intros db Ht. unfold db_hdel.
  destruct (db_live now db key) as [[[?|h] x]|] eqn:Hl; try done. cbn [snd].
  destruct (emptied (field :: fields) h); [by apply typed_delete|]. apply typed_insert; [done|].
  intros y ->. eapply typed_live; [exact Ht|exact Hl].
Qed.

Lemma meets_hget command w now : meets now (handle_hget command w now) (spec_hget command w now).
Proof.
  unfold spec_hget. destruct command as [|name [|key [|field fields]]]; try apply meets_ret.
  apply meets_refines; [apply refines_hget|done].
Qed.

Lemma meets_hgetall command w now :
  meets now (handle_hgetall command w now) (spec_hgetall command w now).
Proof.
  unfold spec_hgetall, with_key. destruct command as [|name [|key rest]]; try apply meets_ret.
  apply meets_refines; [apply refines_hgetall|done].
Qed.

Lemma meets_mget command w now : meets now (handle_mget command w now) (spec_mget command w now).
Proof.
  unfold spec_mget. destruct command as [|name [|key rest]]; try apply meets_ret.
  apply meets_refines; [apply refines_mget|done].
Qed.

Lemma meets_get command w now :
  meets now (handle_get command w now)
    (with_key command w WRONG_ARGS (λ key, does (λ db, (write_opt w (db_string now db key), db)))).
Proof.
  unfold with_key. destruct command as [|name [|key rest]]; try apply meets_ret.
  apply meets_refines; [apply refines_get|done].
Qed.

Lemma meets_type command w now :
  meets now (handle_type command w now)
    (with_key command w WRONG_ARGS (λ key, does (λ db,
      (write_simple_string w (bs (db_read now db key "none"%string type_reply)), db)))).
Proof.
  unfold with_key. destruct command as [|name [|key rest]]; try apply meets_ret.
  apply meets_refines; [apply refines_type|done].
Qed.

Lemma meets_exists command w now :
  meets now (handle_exists command w now)
    (with_key command w WRONG_ARGS (λ _, does (λ db,
      (write_integer w (zsum (db_count now db) (drop 1 command)), db)))).
Proof.
  unfold with_key. destruct command as [|name [|key rest]]; try apply meets_ret.
  apply (meets_refines now _ (λ db, (write_integer w (zsum (db_count now db) (key :: rest)), db)));
    [apply refines_exists|done].
Qed.

(** Commands that only look. *)

Lemma meets_keys now w :
  PlatformOk P → meets now (ks ← keys now; mret (write_array w ks)) (spec_keys w now).
Proof.
  intros HP c db Ha. unfold wp. cbn. exists db. split; [|done]. split; [done|]. eexists.
  pose proof (agree_sim _ _ _ Ha) as Hs. pose proof (proj1 Hs) as Hwf. split; [reflexivity|].
  split; [by apply (NoDup_keys now c)|]. intros k. rewrite <- (sim_live now c db now k Hs) by lia.
  by apply (elem_of_keys now c).
Qed.

(** What is stored of a database: all of it, but for some of the expired keys. *)
Lemma agree_forgets now c db : agree now c db → forgets now db (contents c).
Proof.
  intros [[Hwf Hs] Ht] k. specialize (Hs k). unfold agrees in Hs. rewrite contents_lookup by done.
  destruct (lookup_entry c k) as [e|]; [by left|by right].
Qed.

Lemma forgets_sub now db db' : forgets now db db' → db' ⊆ db.
Proof.
  intros Hf. apply map_subseteq_spec. intros k x Hk. destruct (Hf k) as [<-|[? _]]; [done|congruence].
Qed.

Lemma agree_size now c db : agree now c db → (store_len c).1 ≤ Z.of_nat (size db).
Proof.
  intros Ha. pose proof (agree_sim _ _ _ Ha) as [Hwf _]. rewrite <- size_contents by done.
  apply inj_le, map_subseteq_size. by eapply forgets_sub, agree_forgets.
Qed.

Lemma pending_size c : PlatformOk P → core_wf c → len (pending c 0) ≤ (store_len c).1.
Proof.
  intros HP Hwf. unfold len. pose proof (sublist_length _ _ (pending_sublist c 0)) as H.
  assert (Z.of_nat (length (store_entries c)) = (store_len c).1) as <-; [|lia]. clear H.
  unfold store_entries, store_len, gets. cbn. induction (shards c) as [|m l IH]; [done|]. cbn.
  rewrite length_app, Nat2Z.inj_add, IH. f_equal.
  by rewrite (Permutation_length (map_iter_perm Entry m)), length_map_to_list.
Qed.

Lemma meets_scan command w now :
  PlatformOk P → meets now (handle_scan command w now) (spec_scan command w now).
Proof.
  intros HP. unfold spec_scan. destruct command as [|name [|cur opts]]; try apply meets_ret.
  cbn [handle_scan]. destruct (parse_u64 cur) as [cursor|]; [|apply meets_ret].
  destruct (parse_scan_opts opts 10 None) as [[count_hint pattern]|e]; [|apply meets_ret].
  intros c db Ha. unfold wp. exists db. split; [|done]. split; [done|].
  pose proof (agree_sim _ _ _ Ha) as Hs. pose proof (proj1 Hs) as Hwf.
  destruct (scan_taken c cursor count_hint pattern now Hwf) as (j & Hr & Hc & Hcase).
  exists (scan cursor count_hint pattern now c).1.1, (scan cursor count_hint pattern now c).1.2.
  split; [reflexivity|]. rewrite Hr in *. split; [by apply NoDup_accept|]. split; [done|]. unfold selected. split.
  - intros k Hk. apply elem_of_accept_pending in Hk as [Hl Hm]; [|done..].
    by rewrite <- (sim_live now c db now k Hs) by lia.
  - intros -> Hsize. pose proof (agree_size _ _ _ Ha). pose proof (pending_size c HP Hwf).
    destruct Hcase as [[-> ->]|[? ?]]; [|unfold len in *; lia]. split; [done|]. intros k [Hl Hm].
    rewrite <- (sim_live now c db now k Hs) in Hl by lia. rewrite firstn_all. by apply all_accepted.
Qed.

(** [FLUSHDB] and [FLUSHALL]. *)
Lemma lookup_entry_clear c k : lookup_entry (clear c).2 k = None.
Proof.
  unfold lookup_entry, shard_at. cbn. rewrite list_lookup_fmap.
  destruct (shards c !! _); cbn; apply lookup_empty.
Qed.

Lemma wf_set_memory c n : core_wf c → is_u64 n → core_wf (set_memory n c).
Proof. intros [] Hn. by constructor. Qed.

Lemma meets_flush now w :
  meets now (handle_flush w) (does (λ _, (write_simple_string w (bs "OK"), ∅))).
Proof.
  intros c db [[Hwf _] _]. unfold handle_flush. apply wp_bind. unfold wp at 1.
  cbn [get_timestamp fst snd]. apply wp_bind, wp_gets, wp_bind. unfold wp at 1.
  apply wp_bind, wp_modify, wp_ret. exists ∅. split; [done|].
  split; [|by intros k v x; rewrite lookup_empty].
  assert (core_wf (tick c)) as Hwf' by (by destruct Hwf; constructor). split.
  - apply wf_set_memory; [by apply clear_wf|]. cbn [clear modify snd set_shards MEMORY_USED tick].
    pose proof (wf_memory c Hwf) as [? ?]. pose proof (live_bytes_u64 (system_time (ticks c)) (tick c)) as [? ?].
    destruct (_ <=? _) eqn:?; unfold is_u64 in *; lia.
  - intros k. change (lookup_entry (set_memory _ _) k) with (lookup_entry (clear (tick c)).2 k).
    by rewrite lookup_entry_clear.
Qed.

(** ** The dispatch table *)

Context {B : Bincode}.

(** A server command that meets its contract, whatever else it does. *)
Definition serves (now : Z) (h : SM (bytes * ConnectionState)) (sp : CmdSpec) : Prop :=
  ∀ s db, agree now (core s) db →
    ∃ db', sp db (h s).1.1 db' ∧ agree now (core (h s).2) db'.

Lemma serves_reply st now m sp : meets now m sp → serves now (reply st (lift m)) sp.
Proof. intros Hm s db Ha. apply (Hm (core s) db Ha). Qed.

Lemma serves_logged command st now m sp : meets now m sp → serves now (logged command st (lift m)) sp.
Proof. intros Hm s db Ha. apply (Hm (core s) db Ha). Qed.

Lemma serves_ret st now w : serves now (reply st (mret w)) (replies w).
Proof. intros s db Ha. by exists db. Qed.

Lemma agree_tick now c db : agree now c db → agree now (tick c) db.
Proof. intros [[Hwf Hl] Ht]. split; [|done]. split; [by destruct Hwf; constructor|done]. Qed.

(** At most the clock moves. *)
Definition still {A : Type} (h : SM A) : Prop :=
  ∀ s, core (h s).2 = core s ∨ core (h s).2 = tick (core s).

Lemma save_core s : core (save_snapshot_sync s).2 = core s ∨ core (save_snapshot_sync s).2 = tick (core s).
Proof.
  unfold save_snapshot_sync, mbind, SM_bind. cbn. destruct (SAVE_IN_PROGRESS s); [by left|]. right.
  cbn. destruct (snapshot_file _ _) as [[? ?]|]; done.
Qed.

Lemma still_save st w : still (reply st (handle_save w)).
Proof. intros s. unfold handle_save. destruct (negb _); [by left|]. apply save_core. Qed.

Lemma still_bgsave st w : still (reply st (handle_bgsave w)).
Proof.
  intros s. left. unfold handle_bgsave. destruct (negb _); [done|].
  unfold reply, mbind, SM_bind. cbn. by destruct (SAVE_IN_PROGRESS s).
Qed.

Lemma still_bgrewriteaof st w : still (reply st (handle_bgrewriteaof w)).
Proof.
  intros s. left. unfold reply, handle_bgrewriteaof, mbind, SM_bind. cbn.
  destruct (AOF s) as [a|]; [|done]. by destruct (rewrite_in_progress a).
Qed.

(** Commands that only look, and may move the clock. *)
Lemma serves_still now h allowed :
  still h → (∀ s db, agree now (core s) db → allowed db (h s).1.1) → serves now h (observes allowed).
Proof.
  intros Hc Hr s db Ha. exists db. split; [by split; [|apply Hr]|].
  destruct (Hc s) as [->| ->]; [done|by apply agree_tick].
Qed.

Section Table.
Context (HP : PlatformOk P) (command : list bytes) (w : bytes) (st : ConnectionState) (now : Z)
  (Hnow : 0 ≤ now).

Lemma serves_save : serves now (reply st (handle_save w)) (spec_save w).
Proof.
  pose proof (still_save st w) as Hst. unfold spec_save, handle_save in *.
  destruct (enabled _); cbn [negb] in *; [|apply serves_ret]. apply serves_still; [done|].
  intros s db _. unfold reply, mbind, SM_bind. cbv zeta. cbn [fst snd mret SM_ret].
  destruct (save_snapshot_sync s).1; eauto.
Qed.

Lemma serves_bgsave : serves now (reply st (handle_bgsave w)) (spec_bgsave w).
Proof.
  pose proof (still_bgsave st w) as Hst. unfold spec_bgsave, handle_bgsave in *.
  destruct (enabled _); cbn [negb] in *; [|apply serves_ret]. apply serves_still; [done|].
  intros s db _. unfold reply, mbind, SM_bind. cbn. destruct (SAVE_IN_PROGRESS s); auto.
Qed.

Lemma serves_bgrewriteaof : serves now (reply st (handle_bgrewriteaof w)) (spec_bgrewriteaof w).
Proof.
  apply serves_still; [apply still_bgrewriteaof|]. intros s db _.
  unfold reply, handle_bgrewriteaof, mbind, SM_bind. cbn.
  destruct (AOF s) as [a|]; [|by left]. destruct (rewrite_in_progress a); auto.
Qed.

Lemma serves_lastsave :
  serves now (reply st (t ← get_s LAST_SAVE_TIME; mret (write_integer w t))) (spec_lastsave w).
Proof. apply serves_still; [by left|]. intros s db _. by eexists. Qed.

Lemma serves_dbsize :
  serves now (reply st (n ← lift store_len; mret (write_integer w n))) (spec_dbsize w now).
Proof.
  apply serves_still; [by left|]. intros s db Ha. exists (contents (core s)).
  split; [by apply agree_forgets|]. by rewrite size_contents by apply (agree_sim _ _ _ Ha).
Qed.

Lemma serves_info : serves now (reply st (handle_info w)) (spec_info w now).
Proof.
  apply serves_still; [by right|]. intros s db Ha. do 3 eexists.
  split; [by apply (agree_forgets now (core s))|].
  rewrite size_contents by apply (agree_sim _ _ _ Ha). reflexivity.
Qed.

Lemma serves_auth : serves now (mret (handle_auth command w st)) (replies (handle_auth command w st).1).
Proof. intros s db Ha. by exists db. Qed.

Lemma serves_del :
  serves now (if two_args command then logged command st (lift (handle_del command w now))
              else reply st (mret (write_error w WRONG_ARGS))) (spec_del command w now).
Proof.
  unfold spec_del, two_args. destruct (2 <=? len command); [|apply serves_ret].
  apply serves_logged, meets_del.
Qed.

Lemma serves_keys : serves now (reply st (ks ← lift (keys now); mret (write_array w ks))) (spec_keys w now).
Proof. exact (serves_reply st now (ks ← keys now; mret (write_array w ks)) _ (meets_keys now w HP)). Qed.

Lemma table_serves :
  Forall2 (λ h sp, h.1 = sp.1 ∧ serves now h.2 sp.2)
    (commands command w st now) (contracts command w now st).
Proof.
  unfold_commands. unfold contracts.
  repeat (apply List.Forall2_cons; [split; [reflexivity|cbn [snd]]|]); [..|apply List.Forall2_nil].
  all: auto using serves_save, serves_bgsave, serves_bgrewriteaof, serves_del, serves_ret, serves_keys,
         serves_info, serves_auth, serves_dbsize, serves_lastsave;
    first [apply serves_reply | apply serves_logged];
    auto using meets_set, meets_ttl_reply, meets_get, meets_incr, meets_mget, meets_mset,
      meets_hset, meets_hget, meets_hdel, meets_type, meets_exists, meets_incrby, meets_decrby,
      meets_expire, meets_flush, meets_persist, meets_hgetall, meets_scan.
  all: apply meets_ttl_reply.
Qed.

Lemma dispatch_serves cmd table specs :
  Forall2 (λ h sp, h.1 = sp.1 ∧ serves now h.2 sp.2) table specs →
  serves now (dispatch w st cmd table)
    (match List.find (λ e, name_is cmd e.1) specs with
     | Some (_, sp) => sp
     | None => errs w (bs "unknown command")
     end).
Proof.
  unfold dispatch. induction 1 as [|[n h] [n' sp] table specs [Hn Hs] _ IH]; cbn.
  - intros s db Ha. by exists db.
  - cbn in Hn. subst n'. by destruct (name_is cmd n).
Qed.

(** [execute_command] meets the contract of the command. *)
Lemma execute_serves : serves now (execute_command command w st now) (contract command w now st).
Proof.
  intros s db Ha. unfold execute_command, contract, mbind, SM_bind. cbv zeta.
  assert (agree now (core (count_command s).2) db) as Ha'.
  { unfold count_command. cbn. by destruct (256 <=? _). }
  destruct command as [|cmd args] eqn:Hc; [by exists db|].
  destruct (requires_auth cmd && negb (authenticated st)); [by exists db|].
  rewrite <- Hc. apply dispatch_serves; [apply table_serves|done].
Qed.
End Table.

(** ** Runs of the server *)

Lemma job_core j s : core (run_job j s).2 = core s ∨ core (run_job j s).2 = tick (core s).
Proof.
  destruct j; cbn [run_job].
  - apply (save_core (set_saving false s)).
  - unfold mbind, SM_bind. cbn. destruct (AOF s) as [a|]; [|by left]. cbn.
    unfold rewrite. destruct (rewrite_in_progress a); [by left|]. right.
    unfold mbind, M_bind. cbn. by case_match.
Qed.

Lemma background_core e s :
  match e with Command _ _ _ _ | ExpireTick => True | _ =>
    core (run_event e s).2 = core s ∨ core (run_event e s).2 = tick (core s) end.
Proof.
  destruct e; try done; unfold run_event, mbind, SM_bind; cbn.
  - unfold run_next_job, mbind, SM_bind. cbn. destruct (jobs s) as [|j js]; [by left|].
    apply (job_core j (set_jobs js s)).
  - unfold snapshot_tick. destruct (_ && _); [apply save_core|by left].
  - by left.
  - unfold rewrite_tick, mbind, SM_bind. cbn. destruct (AOF s) as [a|]; [|by left].
    destruct (_ && _); [apply (job_core BgRewrite)|by left].
Qed.

Lemma expire_agree t s db :
  system_time (ticks (core s)) ≤ t → agree t (core s) db → agree t (core (run_event ExpireTick s).2) db.
Proof.
  intros Ht [Hs Hty]. split; [|done].
  destruct (wp_run _ _ _ (wp_expire_random_keys 20 (core s) (proj1 Hs))) as [f Hd].
  by eapply drops_expired_sim; [exact Hd| |exact Hs].
Qed.

(** Several events in a row, with the replies. *)
Fixpoint run_events (es : list Event) : SM (list (option (bytes * ConnectionState))) :=
  match es with
  | [] => mret []
  | e :: es => r ← run_event e; rs ← run_events es; mret (r :: rs)
  end.
End Refinement.

(** ** The empty process *)

Section Boot.
Context {P : Platform} {CFG : HasConfig}.

Lemma fresh_boot f i : 0 < cfg_num_shards (server CONFIG) → fresh (core (boot f i)).
Proof.
  intros Hn. destruct (fresh_new _ Hn) as [[Hwf Hm] Hk]. unfold boot. cbn [core].
  destruct (new (cfg_num_shards (server CONFIG))) as [s q n m e t j] eqn:E.
  assert (m = 0) as ->. { unfold new in E. destruct (queue_capacities _) as [[? ?] ?]. by injection E. }
  split; [|exact Hk]. split; [|exact Hm]. by destruct Hwf; constructor.
Qed.

End Boot.

(** ** Authentication *)

Section Auth.
Context {P : Platform} {CFG : HasConfig} {B : Bincode}.

Lemma name_is_eq cmd name : name_is cmd name = true → map or_0x20 cmd = bs name.
Proof. apply bool_decide_eq_true. Qed.

Lemma find_name {A : Type} cmd n (table : list (string * A)) :
  name_is cmd n = true →
  List.find (λ e, name_is cmd e.1) table = List.find (λ e, bool_decide (bs n = bs e.1)) table.
Proof.
  intros Hn%name_is_eq. induction table as [|[m h] table IH]; [done|]. cbn. unfold name_is at 1.
  by rewrite Hn, IH.
Qed.

(** The two commands a connection may send before it is authenticated. *)
Lemma execute_auth cmd args w st now s :
  name_is cmd "auth" = true →
  execute_command (cmd :: args) w st now s =
    (handle_auth (cmd :: args) w st, (count_command s).2).
Proof.
  intros Hn. unfold execute_command, mbind, SM_bind, requires_auth. cbv zeta. rewrite Hn. cbn [negb andb].
  unfold dispatch. by rewrite (find_name cmd "auth" _ Hn).
Qed.

Lemma execute_ping cmd args w st now s :
  name_is cmd "ping" = true →
  execute_command (cmd :: args) w st now s =
    ((write_simple_string w (bs "PONG"), st), (count_command s).2).
Proof.
  intros Hn. unfold execute_command, mbind, SM_bind, requires_auth. cbv zeta.
  rewrite Hn, andb_false_r. cbn [andb]. unfold dispatch. by rewrite (find_name cmd "ping" _ Hn).
Qed.

Lemma execute_refused cmd args w st now s :
  requires_auth cmd = true → authenticated st = false →
  execute_command (cmd :: args) w st now s =
    ((write_error w (bs "NOAUTH Authentication required"), st), (count_command s).2).
Proof.
  intros Hr Ha. unfold execute_command, mbind, SM_bind. cbv zeta. by rewrite Hr, Ha.
Qed.

Lemma auth_grants command w st :
  authenticated st = false → authenticated (handle_auth command w st).2 = true →
  password (security CONFIG) ≠ ""%string ∧
  ∃ name args, command = name :: bs (password (security CONFIG)) :: args.
Proof.
  intros Ha. unfold handle_auth. case_bool_decide as Hp; [cbn; congruence|].
  destruct command as [|name [|given args]]; cbn; try congruence.
  case_bool_decide as Hg; cbn; [|congruence]. subst given. eauto.
Qed.

(** What only an authenticated connection may change. *)
Definition protected (s : Server) :=
  (core s, AOF s, snapshot_at_path s, (SAVE_IN_PROGRESS s, LAST_SAVE_TIME s, jobs s)).

Lemma count_protected s : protected (count_command s).2 = protected s.
Proof. unfold count_command. cbn. by destruct (256 <=? _). Qed.

Lemma execute_unauthenticated command w st now :
  authenticated st = false →
  ∃ r, (∀ s, execute_command command w st now s = (r, (count_command s).2)) ∧
    (authenticated r.2 = true →
     password (security CONFIG) ≠ ""%string ∧
     ∃ name args, command = name :: bs (password (security CONFIG)) :: args ∧ name_is name "auth" = true).
Proof.
  intros Ha. destruct command as [|cmd args].
  { eexists. split; [done|]. cbn. congruence. }
  destruct (name_is cmd "auth") eqn:H1.
  { exists (handle_auth (cmd :: args) w st). split; [intros s'; by apply execute_auth|].
    intros (Hp & name & args' & [= -> ->])%auth_grants; [|done]. eauto. }
  destruct (name_is cmd "ping") eqn:H2.
  { eexists. split; [intros s'; by apply execute_ping|]. cbn. congruence. }
  eexists. split; [intros s'; apply execute_refused; [|done]|cbn; congruence].
  unfold requires_auth. by rewrite H1, H2.
Qed.

(** C16: authentication is enforced.  Whatever an unauthenticated connection sends, the
    store, the log, the snapshot and the background jobs stay as they are, the reply
    does not depend on any of them, and the connection becomes authenticated only by
    [AUTH] with exactly the configured, nonempty password. *)
Theorem auth_enforced command w st now s :
  authenticated st = false →
  protected (execute_command command w st now s).2 = protected s ∧
  (∀ s', (execute_command command w st now s').1 = (execute_command command w st now s).1) ∧
  (authenticated (execute_command command w st now s).1.2 = true →
   password (security CONFIG) ≠ ""%string ∧
   ∃ name args, command = name :: bs (password (security CONFIG)) :: args ∧ name_is name "auth" = true).
Proof.
  intros Ha. destruct (execute_unauthenticated command w st now Ha) as (r & Hr & Hg).
  rewrite !Hr. split_and!; [apply count_protected| |done]. intros s'. by rewrite Hr.
Qed.
End Auth.

(** ** The server as a database *)

Section Simulation.
Context {P : Platform} {CFG : HasConfig} {B : Bincode}.

(** [AUTH] is the only command that changes what is known of a client. *)
Definition next_state (command : list bytes) (st : ConnectionState) : ConnectionState :=
  match command with
  | cmd :: _ => if name_is cmd "auth" then (handle_auth command [] st).2 else st
  | [] => st
  end.

(** A reading of the clock. *)
Definition reading (now : Z) : Prop := ∃ j, now = system_time j.

(** What an event may reply and do to the database: a command meets its contract, at
    whatever time it comes with; a command and the expiry task may drop keys that have
    expired at their time; the other tasks do nothing. *)
Definition event_spec (e : Event) (db : Db) (r : option (bytes * ConnectionState)) (db' : Db) : Prop :=
  match e with
  | Command command w st now =>
      ∃ w' db1, r = Some (w', next_state command st) ∧
        contract command w now st db w' db1 ∧ forgets now db1 db'
  | ExpireTick => r = None ∧ ∃ now, reading now ∧ forgets now db db'
  | _ => r = None ∧ db' = db
  end.

Inductive spec_run : Db → list Event → list (option (bytes * ConnectionState)) → Db → Prop :=
| spec_done db : spec_run db [] [] db
| spec_event db e r db1 es rs db2 :
    event_spec e db r db1 → spec_run db1 es rs db2 → spec_run db (e :: es) (r :: rs) db2.

Lemma execute_state command w st now s : (execute_command command w st now s).1.2 = next_state command st.
Proof.
  destruct command as [|cmd args]; [done|]. unfold next_state. destruct (name_is cmd "auth") eqn:Ha.
  { rewrite execute_auth by done. cbn [fst snd]. unfold handle_auth. repeat case_match; done. }
  unfold execute_command, mbind, SM_bind. cbv zeta. destruct (_ && _); [done|].
  unfold dispatch. destruct (List.find _ _) as [[n h]|] eqn:Hf; [|done].
  apply List.find_some in Hf as [Hin Hn]. cbn [fst snd] in *.
  assert (Forall (λ e, e.1 = "auth"%string ∨ ∀ s, (e.2 s).1.2 = st) (commands (cmd :: args) w st now)) as H.
  { unfold_commands. repeat (apply List.Forall_cons; [|]); [..|apply List.Forall_nil]; cbn [fst snd];
      first [by left | right; intros s'; first [reflexivity | by destruct (two_args _)]]. }
  rewrite List.Forall_forall in H. destruct (H _ Hin) as [Hn'|Hs]; [cbn in Hn'; congruence|apply Hs].
Qed.

(** The store is in order, and so is the database it holds. *)
Definition sound (c : Core) : Prop := core_wf c ∧ typed (contents c).

Lemma sound_agree now c : sound c → agree now c (contents c).
Proof.
  intros [Hwf Ht]. split; [|done]. split; [done|]. intros k. unfold agrees, db_live.
  rewrite contents_lookup by done. by destruct (lookup_entry c k).
Qed.

Lemma agree_contents now c db : agree now c db → sound c ∧ forgets now db (contents c).
Proof.
  intros Ha. pose proof (agree_forgets _ _ _ Ha) as Hf. split; [|done].
  split; [apply (agree_sim _ _ _ Ha)|]. eapply typed_sub; [by eapply forgets_sub|apply Ha].
Qed.

Lemma sound_tick c : sound c → sound (tick c).
Proof. intros [Hwf Ht]. split; [by destruct Hwf|done]. Qed.

Context (HP : PlatformOk P).

(** A command meets its contract on what is stored. *)
Lemma execute_contents command w st now s :
  0 ≤ now → sound (core s) →
  let r := execute_command command w st now s in
  ∃ db', contract command w now st (contents (core s)) r.1.1 db' ∧
         forgets now db' (contents (core r.2)) ∧ sound (core r.2).
Proof.
  intros Hn Hs r.
  destruct (execute_serves HP command w st now Hn s _ (sound_agree now _ Hs)) as (db' & Hc & Ha).
  destruct (agree_contents _ _ _ Ha). by exists db'.
Qed.

Lemma expire_contents s :
  let s' := (run_event ExpireTick s).2 in
  sound (core s) → forgets (system_time (ticks (core s))) (contents (core s)) (contents (core s')) ∧ sound (core s').
Proof.
  intros s' Hs.
  by destruct (agree_contents _ _ _ (expire_agree _ s _ (Z.le_refl _) (sound_agree _ _ Hs))).
Qed.

Lemma event_contents e s :
  match e with Command _ _ _ now => 0 ≤ now | _ => True end → sound (core s) →
  event_spec e (contents (core s)) (run_event e s).1 (contents (core (run_event e s).2)) ∧
  sound (core (run_event e s).2).
Proof.
  intros Hn Hs. pose proof (background_core e s) as Hb. destruct e as [command w st now| | | | |].
  1:{ destruct (execute_contents command w st now s Hn Hs) as (db' & Hc & Hf & Hs'). split; [|done].
      pose proof (execute_state command w st now s) as Hst. exists (execute_command command w st now s).1.1, db'.
      split; [|done]. rewrite <- Hst, <- surjective_pairing. reflexivity. }
  1:{ destruct (expire_contents s Hs) as [Hf Hs']. split; [|done]. split; [done|].
      eexists. split; [by eexists|exact Hf]. }
  all: destruct Hb as [-> | ->]; (split; [by split|]); by try apply sound_tick.
Qed.

(** C2: the server refines its contract.  Take any well-formed state, and let commands of
    any connections, at any times in any order, interleave with rounds of the expiry task,
    background saves, log syncs and log rewrites, each event run to its end before the next.
    Then the replies and what the store holds at the end are those of a run of the abstract
    database in which every command meets its contract on what is stored, and keys disappear
    without a command only if they have expired at the time of a command or of an expiry
    round.  The contracts ([contracts]) give the exact reply and effect of every command that
    changes data and of every read of single keys, up to the keys a memory limit may evict
    and the writes it may refuse; [KEYS] and [SCAN] return live keys without repetition,
    [DBSIZE] counts what is stored, [AUTH] gives its exact reply and the new state of the
    connection, and [SAVE], [BGSAVE], [BGREWRITEAOF], [INFO] and [LASTSAVE] leave the
    database alone and give one of their replies. *)
Theorem server_refines es s :
  sound (core s) → Forall (λ e, match e with Command _ _ _ now => 0 ≤ now | _ => True end) es →
  spec_run (contents (core s)) es (run_events es s).1 (contents (core (run_events es s).2)) ∧
  sound (core (run_events es s).2).
Proof.
  intros Hs Hes. revert s Hs. induction Hes as [|e es He _ IH]; intros s Hs; [by split; [constructor|]|].
  destruct (event_contents e s He Hs) as [He' Hs']. destruct (IH _ Hs') as [Hr Hs2].
  split; [|done]. by econstructor.
Qed.
End Simulation.

(** ** Memory accounting *)

Section Accounting.
Context {P : Platform} {CFG : HasConfig} {B : Bincode}.

Definition preserves {A : Type} (m : SM A) : Prop := ∀ s, inv (core s) → inv (core (m s).2).

Lemma preserves_reply st m : keeps m → preserves (reply st (lift m)).
Proof. intros Hm s Hi. apply (Hm (core s) Hi). Qed.

Lemma preserves_logged command st m : keeps m → preserves (logged command st (lift m)).
Proof. intros Hm s Hi. apply (Hm (core s) Hi). Qed.

Lemma inv_tick c : inv c → inv (tick c).
Proof. intros [Hwf Hm]. split; [by destruct Hwf; constructor|done]. Qed.

Lemma preserves_still {A : Type} (m : SM A) :
  (∀ s, core (m s).2 = core s ∨ core (m s).2 = tick (core s)) → preserves m.
Proof. intros Hc s Hi. destruct (Hc s) as [->| ->]; [done|by apply inv_tick]. Qed.

(** The commands whose accounting is not exact. *)
Definition leaky (name : string) : bool :=
  bool_decide (name ∈ ["hdel"; "flushdb"; "flushall"]%string).

Lemma table_preserves command w st now :
  Forall (λ h, leaky h.1 = false → preserves h.2) (commands command w st now).
Proof.
  unfold_commands. repeat (apply List.Forall_cons; [cbn [fst snd]; intros Hk|]); [..|apply List.Forall_nil].
  all: try (by vm_compute in Hk); clear Hk.
  all: try (apply preserves_still; intros s; by left).
  all: try (by apply preserves_still; right).
  all: try first [apply preserves_reply | apply preserves_logged];
    auto using keeps_handle_set, keeps_ttl_reply, keeps_handle_get, keeps_handle_incr,
      keeps_handle_mget, keeps_handle_mset, keeps_handle_scan, keeps_handle_hset, keeps_handle_hget,
      keeps_handle_type, keeps_handle_exists, keeps_handle_incrby, keeps_handle_decrby,
      keeps_handle_expire, keeps_handle_persist, keeps_handle_hgetall.
  all: try apply keeps_ttl_reply.
  - destruct (two_args command); [apply preserves_logged, keeps_handle_del|].
    apply preserves_still. by left.
  - apply preserves_still, still_save.
  - apply preserves_still, still_bgsave.
  - apply preserves_still, still_bgrewriteaof.
Qed.

(** A command that is not leaky, under any of its spellings. *)
Definition exact (command : list bytes) : Prop :=
  match command with
  | cmd :: _ => Forall (λ n, name_is cmd n = false) ["hdel"; "flushdb"; "flushall"]%string
  | [] => True
  end.

Lemma execute_preserves command w st now : exact command → preserves (execute_command command w st now).
Proof.
  intros He s Hi. unfold execute_command, mbind, SM_bind. cbv zeta.
  assert (inv (core (count_command s).2)) as Hi'.
  { unfold count_command. cbn. by destruct (256 <=? _). }
  destruct command as [|cmd args] eqn:Hc; [done|].
  destruct (requires_auth cmd && negb (authenticated st)); [done|]. rewrite <- Hc. unfold dispatch.
  destruct (List.find _ _) as [[n h]|] eqn:Hf; [|done].
  apply List.find_some in Hf as [Hin Hn]. cbn in Hn.
  pose proof (table_preserves command w st now) as Ht. rewrite List.Forall_forall in Ht.
  apply (Ht _ Hin); [|done]. cbn [fst]. apply bool_decide_eq_false. intros Hl.
  cbn in He. rewrite Forall_forall in He. specialize (He _ Hl). congruence.
Qed.

Lemma event_preserves e :
  match e with Command command _ _ _ => exact command | _ => True end → preserves (run_event e).
Proof.
  intros He. pose proof (background_core e) as Hb. destruct e; try (by apply preserves_still).
  - intros s Hi. by apply (execute_preserves command w st now He s).
  - intros s Hi. apply (keeps_expire_random_keys 20 (core s) Hi).
Qed.

(** C11: under a memory limit the memory counter is exact.  (Without a limit the server
    does not count at all.)  Take a well-formed server whose [MEMORY_USED] is the bytes
    stored, as a [u64], and any run of it: whatever is stored, replaced, evicted, expired or
    deleted, [MEMORY_USED] is the bytes stored again at its end, as long as no [HDEL] and no
    [FLUSHDB] or [FLUSHALL] runs (both leak: [hdel_leaks], [flush_leaks_expired]).  Each event
    of the run ends before the next begins. *)
Theorem server_memory_exact es s :
  tracks_memory = true →
  Forall (λ e, match e with Command command _ _ _ => exact command | _ => True end) es →
  core_wf (core s) → MEMORY_USED (core s) = u64 (bytes_stored (core s)) →
  let c' := core (run_events es s).2 in
  core_wf c' ∧ MEMORY_USED c' = u64 (bytes_stored c').
Proof.
  intros Ht Hes Hwf Hm. assert (inv (core s)) as Hi by exact (conj Hwf (λ _, Hm)). clear Hwf Hm.
  enough (inv (core (run_events es s).2)) as [? Hm] by (split; [done|by apply Hm]). revert s Hi.
  induction Hes as [|e es He _ IH]; intros s Hi; [done|]. by apply IH, event_preserves.
Qed.
End Accounting.

(** ** Examples *)

Section Examples.
#[local] Existing Instance demo_platform.
#[local] Existing Instance demo_durable.
#[local] Existing Instance demo_bincode.

Definition demo_events : list Event := [
  Command [bs "SET"; bs "k"; bs "v"; bs "EX"; bs "60"] [] connection_new 2000; SyncTick; JobRun;
  Command [bs "get"; bs "k"] [] connection_new 1999; ExpireTick].

Lemma boot_sound : sound (core (boot None 0)).
Proof.
  apply (agree_contents 0 _ ∅). split; [by apply fresh_sim, fresh_boot|]. intros k v x. by rewrite lookup_empty.
Qed.

(** The second command comes with an earlier time than the first. *)
Lemma server_refines_witness :
  spec_run (contents (core (boot None 0))) demo_events (run_events demo_events (boot None 0)).1
    (contents (core (run_events demo_events (boot None 0)).2)) ∧
  sound (core (run_events demo_events (boot None 0)).2).
Proof.
  apply (server_refines demo_platform_ok demo_events (boot None 0)).
  - exact boot_sound.
  - unfold demo_events. repeat (apply List.Forall_cons; [first [exact I | lia]|]). apply List.Forall_nil.
Defined.

Lemma auth_enforced_witness :
  protected (execute_command [bs "GET"; bs "k"] [] (mkConn false) 100 (boot None 0)).2
    = protected (boot None 0) ∧
  (∀ s', (execute_command [bs "GET"; bs "k"] [] (mkConn false) 100 s').1
         = (execute_command [bs "GET"; bs "k"] [] (mkConn false) 100 (boot None 0)).1) ∧
  (authenticated (execute_command [bs "GET"; bs "k"] [] (mkConn false) 100 (boot None 0)).1.2 = true →
   password (security CONFIG) ≠ ""%string ∧
   ∃ name args, [bs "GET"; bs "k"] = name :: bs (password (security CONFIG)) :: args ∧
                name_is name "auth" = true).
Proof. by apply (auth_enforced [bs "GET"; bs "k"] [] (mkConn false) 100 (boot None 0)). Defined.

End Examples.

(** A limit of 1000 bytes and a first write that fits; the second evicts it. *)
Section Limited.
#[local] Existing Instance demo_platform.
#[local] Existing Instance demo_bincode.
#[local] Instance demo_limited : HasConfig := demo_snapshots 1000 AllKeysLru.

Definition limited_events : list Event := [
  Command [bs "SET"; bs "k"; bs "v"; bs "EX"; bs "60"] [] connection_new 2000; ExpireTick;
  Command [bs "SET"; bs "l"; replicate 900 x61] [] connection_new 2001].

Lemma server_memory_exact_witness :
  let c' := core (run_events limited_events (boot None 0)).2 in
  core_wf c' ∧ MEMORY_USED c' = u64 (bytes_stored c').
Proof.
  apply (server_memory_exact limited_events (boot None 0)).
  - reflexivity.
  - by repeat constructor.
  - by apply fresh_boot.
  - vm_compute. reflexivity.
Defined.

(** Both writes are answered OK, and only the second key is left. *)
Example limited_evicts :
  let r := run_events limited_events (boot None 0) in
  (map (option_map fst) r.1, (keys 2001 (core r.2)).1) =
    ([Some (bs "+OK" ++ CRLF); None; Some (bs "+OK" ++ CRLF)], [bs "l"]).
Proof. vm_compute. reflexivity. Qed.
End Limited.
