(* ===== verification/Recovery.v ===== *)
(** * Recovery: a rewritten log restores the database

    [Aof::rewrite] replaces the log by one command or two per live key; replaying
    the new log at the next start rebuilds the database, with every expiry time
    moved by the time that passed in between. *)

From S2P Require Import Prelude Decimal Protocol Config S3Fifo State Store Steps StoreOps.
From S2P Require Import StoreSpec Memory Eviction Handlers HandlerSpec HandlerMem Aof Snapshot.
From S2P Require Import Server ServerSpec Demo.

(** ** The commands of a rewritten log *)

Section Commands.
Context {P : Platform}.

Definition is_empty_value (v : EntryValue) : bool :=
  match v with EV_Hash h => bool_decide (h = ∅) | EV_String _ => false end.

Definition value_command (k : bytes) (v : EntryValue) : list bytes :=
  match v with
  | EV_String s => [bs "SET"; k; s]
  | EV_Hash h => bs "HSET" :: k :: concat (map (λ fv, [fv.1; fv.2]) (map_iter h))
  end.

Definition expire_commands (now : Z) (k : bytes) (x : option Z) : list (list bytes) :=
  match x with
  | Some exp => [[bs "EXPIRE"; k; fmt_unsigned (exp - now)]]
  | None => []
  end.

Definition entry_commands (now : Z) (kv : bytes * Entry) : list (list bytes) :=
  value_command kv.1 (e_value kv.2) :: expire_commands now kv.1 (e_expiry kv.2).

(** The entries a rewrite keeps. *)
Definition kept (now : Z) (kv : bytes * Entry) : Prop :=
  expired now kv.2 = false ∧ is_empty_value (e_value kv.2) = false.

#[global] Instance kept_dec now kv : Decision (kept now kv).
Proof. unfold kept. apply _. Defined.

Definition store_commands (now : Z) (l : list (bytes * Entry)) : list (list bytes) :=
  concat (map (entry_commands now) (filter (kept now) l)).

Lemma map_iter_nil {V : Type} (m : gmap bytes V) : PlatformOk P → map_iter m = [] ↔ m = ∅.
Proof.
  intros HP. pose proof (map_iter_perm V m) as Hp. split; intros H.
  - rewrite H in Hp. apply Permutation_nil_l in Hp. by apply map_to_list_empty_iff.
  - subst m. rewrite map_to_list_empty in Hp. by apply Permutation_nil_r in Hp.
Qed.

Lemma store_commands_cons now kv l :
  store_commands now (kv :: l) =
    if decide (kept now kv) then entry_commands now kv ++ store_commands now l
    else store_commands now l.
Proof. unfold store_commands. rewrite filter_cons. by case_decide. Qed.

Lemma emitted_frame k v :
  PlatformOk P →
  match v with
  | EV_String s => Some (emit_set k s)
  | EV_Hash h =>
      let pairs := map_iter h in if bool_decide (pairs = []) then None else Some (emit_hset k pairs)
  end = if is_empty_value v then None else Some (frame (value_command k v)).
Proof.
  intros HP. destruct v as [s|h]; [done|]. cbn.
  by rewrite (bool_decide_ext _ _ (map_iter_nil h HP)).
Qed.

Lemma remaining_ttl now x : is_u64 now → is_u64 x → past now (Some x) = false →
  sat_u64 (x - now) = x - now ∧ 0 < x - now.
Proof. unfold is_u64, sat_u64. cbn. intros. lia. Qed.

(** The file [write_store_snapshot] writes is the framing of these commands, and the
    size it counts is its length. *)
Lemma write_store_snapshot_file now l file keys n :
  PlatformOk P → is_u64 now → Forall (λ kv, ∀ x, e_expiry kv.2 = Some x → is_u64 x) l → is_u64 n →
  ∃ keys' n', write_store_snapshot now l file keys n =
    (file ++ concat (map frame (store_commands now l)), keys', n') ∧
    n' = u64 (n + len (concat (map frame (store_commands now l)))).
Proof.
  intros HP Hn Hl. revert file keys n.
  induction Hl as [|[k e] l Hx _ IH]; intros file keys n Hu; cbn [write_store_snapshot].
  { do 2 eexists. cbn. rewrite app_nil_r, Z.add_0_r, u64_small by done. done. }
  cbv zeta. rewrite store_commands_cons, emitted_frame by done.
  destruct (decide (kept now (k, e))) as [[He Hev]|Hk]; cbn [fst snd] in *.
  2:{ destruct (expired now e) eqn:He; [by apply IH|].
      destruct (is_empty_value (e_value e)) eqn:Hev; [by apply IH|]. by destruct Hk. }
  rewrite He, Hev, map_app, concat_app, len_app.
  unfold entry_commands. cbn [fst snd map concat]. rewrite len_app.
  unfold expired in He. destruct (e_expiry e) as [x|]; cbn [expire_commands map concat].
  - destruct (remaining_ttl now x Hn (Hx x eq_refl) He) as [-> Hpos].
    destruct (Z.ltb_spec 0 (x - now)); [|lia].
    edestruct IH as (keys' & n' & -> & Hn'); [apply u64_range|]. do 2 eexists.
    split; [by rewrite app_nil_r, <- !app_assoc|].
    rewrite Hn', app_nil_r, !u64_u64_add_l. rewrite <- !Z.add_assoc, u64_u64_add_l, <- !Z.add_assoc. done.
  - edestruct IH as (keys' & n' & -> & Hn'); [apply u64_range|]. do 2 eexists.
    split; [by rewrite app_nil_r, <- !app_assoc|].
    rewrite Hn', u64_u64_add_l. f_equal. rewrite len_nil. lia.
Qed.

(** The rewritten log. *)
Lemma rewrite_file a c :
  PlatformOk P → rewrite_in_progress a = false →
  Forall (λ kv, ∀ x, e_expiry kv.2 = Some x → is_u64 x) (store_entries c) →
  let l := concat (map frame (store_commands (system_time (ticks c)) (store_entries c))) in
  (rewrite a c).1.2 = mkAof [] [] l (fsync a) false (u64 (len l)) (u64 (len l)) false.
Proof.
  intros HP Hfree Hx l. unfold rewrite, mbind, M_bind. rewrite Hfree. cbn. unfold rewrite_inner.
  destruct (write_store_snapshot_file (system_time (ticks c)) (store_entries (tick c)) [] 0 0 HP
              (system_time_u64 _) Hx ltac:(done)) as (keys' & n' & -> & ->). reflexivity.
Qed.

(** ** The life of a log *)

(** The commands of the log, and the log.  A rewrite, when no other runs, replaces them by
    those of the store it sees; its sizes and expiry times are machine integers. *)
Inductive aof_step : list (list bytes) * Aof → list (list bytes) * Aof → Prop :=
| aof_append cmds a cmd :
    loggable cmd → aof_step (cmds, a) (cmds ++ [cmd], append cmd a)
| aof_sync cmds a : aof_step (cmds, a) (cmds, sync a)
| aof_tick cmds a : aof_step (cmds, a) (cmds, everysec_tick a)
| aof_rewrite cmds a c :
    rewrite_in_progress a = false →
    Forall loggable (store_commands (system_time (ticks c)) (store_entries c)) →
    Forall (λ kv, ∀ x, e_expiry kv.2 = Some x → is_u64 x) (store_entries c) →
    aof_step (cmds, a) (store_commands (system_time (ticks c)) (store_entries c), (rewrite a c).1.2).

Lemma aof_ok_rewrite policy cmds a c :
  PlatformOk P → rewrite_in_progress a = false →
  Forall loggable (store_commands (system_time (ticks c)) (store_entries c)) →
  Forall (λ kv, ∀ x, e_expiry kv.2 = Some x → is_u64 x) (store_entries c) → aof_ok policy cmds a →
  aof_ok policy (store_commands (system_time (ticks c)) (store_entries c)) (rewrite a c).1.2.
Proof.
  intros HP Hfree Hl Hx Hok. rewrite rewrite_file by done.
  split; unfold aof_log_bytes; cbn [aof_disk aof_kernel aof_buf fsync size_bytes app]; rewrite ?app_nil_r; try done.
  apply (aof_ok_policy _ _ _ Hok).
Qed.

Lemma aof_steps_ok policy cmds a cmds' a' :
  PlatformOk P → rtc aof_step (cmds, a) (cmds', a') → aof_ok policy cmds a → aof_ok policy cmds' a'.
Proof.
  intros HP Hr. remember (cmds, a) as s eqn:Es. remember (cmds', a') as s' eqn:Es'.
  revert cmds a cmds' a' Es Es'. induction Hr as [s|s s1 s' Hstep _ IH]; intros; simplify_eq; [done|].
  inversion Hstep; subst; eapply IH; try done.
  - by apply aof_ok_append.
  - by apply aof_ok_sync.
  - unfold everysec_tick. destruct (dirty a); [by apply aof_ok_sync|done].
  - by eapply aof_ok_rewrite.
Qed.

(** C9: whatever the fsync policy, whenever the machine stops, replaying the file yields a
    prefix of the logged commands.  Open a log that holds some commands, append any, sync it
    and let the background task sync it, and rewrite it any number of times (then the
    commands of the log are those of the store the rewrite sees); lengths and expiry times
    are [u64]s, and a rewrite runs to its end with no command beside it.  The machine stops, and of the
    bytes written since the last sync some prefix reached the disk.  Then reading the file
    gives the first commands of the log, in order and unaltered; it ends without error
    exactly when the file ends between two commands; a command whose frame was synced is
    among them; and under [always], and under the other policies when nothing was appended
    since the last sync, they are all of them. *)
Theorem crash_replay policy cmds0 cmds a p :
  PlatformOk P → Forall loggable cmds0 → len (concat (map frame cmds0)) < U64_MOD →
  rtc aof_step (cmds0, aof_open (concat (map frame cmds0)) policy) (cmds, a) → crash_image a p →
  ∃ n, (n ≤ length cmds)%nat ∧ (read_all (S (length p)) p).1 = take n cmds ∧
       ((read_all (S (length p)) p).2 = None ↔ p = concat (map frame (take n cmds))) ∧
       (∀ m, (m ≤ length cmds)%nat → concat (map frame (take m cmds)) `prefix_of` aof_disk a → (m ≤ n)%nat) ∧
       (policy = Always ∨ dirty a = false → read_all (S (length p)) p = (cmds, None)).
Proof.
  intros HP Hl0 Hlen0 Hr (x & q & Hk & ->).
  pose proof (aof_steps_ok policy _ _ _ _ HP Hr (aof_open_ok policy cmds0 Hl0 Hlen0)) as Hok.
  assert (concat (map frame cmds) = (aof_disk a ++ x) ++ q ++ aof_buf a) as Hg.
  { rewrite <- (aof_ok_log _ _ _ Hok). unfold aof_log_bytes. rewrite Hk. by rewrite <- !app_assoc. }
  destruct (read_all_cut cmds _ _ (aof_ok_loggable _ _ _ Hok) Hg) as (n & Hn & H1 & H2 & H3).
  exists n. split_and!; [done..| |].
  - intros m Hm Hp. apply H3; [done|]. by apply prefix_app_r.
  - intros Hd. rewrite (aof_ok_synced _ _ _ _ _ Hok Hk Hd). apply read_all_frames; [apply Hok|].
    pose proof (frames_length cmds). lia.
Qed.
End Commands.

(** ** Replaying commands *)

Section Replay.
Context {P : Platform} {CFG : HasConfig} {B : Bincode}.

(** Run commands as the replay does. *)
Definition run_commands (now : Z) (cmds : list (list bytes)) (s : Server) : Server :=
  fold_left (λ s cmd, (execute_command cmd [] (mkConn true) now s).2) cmds s.

(** The command leaves the replay connection authenticated. *)
Definition stays (now : Z) (cmd : list bytes) : Prop :=
  ∀ s, (execute_command cmd [] (mkConn true) now s).1.2 = mkConn true.

(** The fuel [start] gives [replay] is enough: more of it changes nothing. *)
Lemma replay_fuel fuel l now st n s :
  (length l < fuel)%nat → replay fuel l now st n s = replay (S (length l)) l now st n s.
Proof.
  assert (∀ f f' l st n s, (length l < f)%nat → (length l < f')%nat →
            replay f l now st n s = replay f' l now st n s) as H.
  { clear. induction f as [|f IH]; intros [|f'] l st n s Hf Hf'; try lia. cbn [replay].
    destruct (next_command l) as [[[cmd l']|]|e] eqn:E; [|done..].
    apply next_command_shrinks in E. unfold mbind, SM_bind.
    destruct (execute_command _ _ _ _ _) as [r s']. apply IH; lia. }
  intros. apply H; lia.
Qed.

Lemma replay_frames cmds fuel now n s :
  Forall loggable cmds → Forall (stays now) cmds → (length cmds < fuel)%nat →
  replay fuel (concat (map frame cmds)) now (mkConn true) n s =
    (Ok (n + len cmds), run_commands now cmds s).
Proof.
  intros Hl. revert fuel n s. induction Hl as [|cmd cmds Hc _ IH]; intros [|fuel] n s Hst Hf;
    cbn [length] in Hf; try lia; cbn [map concat replay].
  { cbn. by rewrite Z.add_0_r. }
  rewrite next_command_frame by done. inversion_clear Hst as [|? ? Hs Hst'].
  unfold mbind, SM_bind. cbv zeta. rewrite Hs, IH by (done || lia). rewrite len_cons.
  f_equal. f_equal. lia.
Qed.

(** The replay stops with an error at a frame that cannot be read. *)
Lemma replay_torn cmds r e fuel now n s :
  Forall loggable cmds → Forall (stays now) cmds → next_command r = Err e → (length cmds < fuel)%nat →
  (replay fuel (concat (map frame cmds) ++ r) now (mkConn true) n s).1 = Err e.
Proof.
  intros Hl Hst He. revert fuel n s Hst. induction Hl as [|cmd cmds Hc _ IH]; intros [|fuel] n s Hst Hf;
    cbn [length] in Hf; try lia; cbn [map concat replay]; [by rewrite app_nil_l, He|].
  rewrite <- app_assoc, next_command_frame by done. inversion_clear Hst as [|? ? Hs Hst'].
  unfold mbind, SM_bind. cbv zeta. rewrite Hs. apply IH; [done|lia].
Qed.

(** The three commands of a rewritten log. *)

Lemma count_agree now s db : agree now (core s) db → agree now (core (count_command s).2) db.
Proof. intros Ha. unfold count_command. cbn. by destruct (256 <=? _). Qed.

Section Three.
Context (now : Z) (k : bytes) (Hmax : max_memory (memory CONFIG) = 0).

Lemma admits_free w act db w' db' : admits w act db w' db' → (w', db') = act db.
Proof. intros (db1 & _ & Hz & [(_ & ? & _)|H]); [done|]. by rewrite <- Hz. Qed.

Lemma exec_set v s db :
  agree now (core s) db →
  agree now (core (execute_command [bs "SET"; k; v] [] (mkConn true) now s).2)
    (<[k:=(EV_String v, None)]> db).
Proof.
  intros Ha%count_agree.
  destruct (serves_logged [bs "SET"; k; v] (mkConn true) now _ _
              (meets_set [bs "SET"; k; v] [] now) _ db Ha) as (db' & Hsp & Ha').
  apply admits_free in Hsp. injection Hsp as _ ->. exact Ha'.
Qed.

Lemma pairs_of_concat (l : list (bytes * bytes)) : pairs_of (concat (map (λ fv, [fv.1; fv.2]) l)) = l.
Proof. induction l as [|[f v] l IH]; [done|]. cbn. by rewrite IH. Qed.

Lemma len_concat_pairs (l : list (bytes * bytes)) :
  len (concat (map (λ fv, [fv.1; fv.2]) l)) = 2 * len l.
Proof.
  induction l as [|fv l IH]; [done|]. cbn [map concat app]. rewrite !len_cons, IH. lia.
Qed.

Lemma put_all_fields h : PlatformOk P → put_fields (map_iter h) ∅ = h.
Proof.
  intros HP. unfold put_fields. rewrite (right_id_L ∅ (∪)).
  etrans; [|apply list_to_map_to_list]. apply list_to_map_proper.
  - rewrite (reverse_Permutation (map_iter h)). by apply NoDup_map_iter.
  - rewrite reverse_Permutation. apply map_iter_perm.
Qed.

Lemma exec_hset h s db :
  PlatformOk P → h ≠ ∅ → db !! k = None → agree now (core s) db →
  agree now (core (execute_command (value_command k (EV_Hash h)) [] (mkConn true) now s).2)
    (<[k:=(EV_Hash h, None)]> db).
Proof.
  intros HP Hh Hk Ha%count_agree. set (cmd := value_command k (EV_Hash h)).
  destruct (serves_logged cmd (mkConn true) now _ _ (meets_hset cmd [] now) _ db Ha) as (db' & Hsp & Ha').
  assert (len cmd = 2 + 2 * len (map_iter h)) as Hlen.
  { unfold cmd. cbn [value_command]. rewrite !len_cons, len_concat_pairs. lia. }
  assert (0 < len (map_iter h)) as Hpos.
  { destruct (map_iter h) eqn:E; [by apply map_iter_nil in E|]. rewrite len_cons.
    pose proof (len_nonneg l). lia. }
  unfold spec_hset in Hsp. rewrite Hlen in Hsp.
  replace ((2 + 2 * len (map_iter h) - 2) mod 2) with 0 in Hsp
    by (symmetry; apply Z.mod_divide; [lia|]; exists (len (map_iter h)); lia).
  destruct (Z.ltb_spec (2 + 2 * len (map_iter h)) 4); [lia|]. cbn [orb negb Z.eqb] in Hsp.
  injection Hsp as _ Hdb. unfold cmd in Hdb. cbn [value_command nth drop] in Hdb.
  rewrite drop_0, pairs_of_concat in Hdb. unfold db_hset, db_live in Hdb. rewrite Hk in Hdb.
  rewrite put_all_fields in Hdb by done. cbn [snd] in Hdb. subst db'. exact Ha'.
Qed.

Lemma exec_expire v x d s db :
  0 < d ≤ I64_MAX → db !! k = Some (v, x) → past now x = false → agree now (core s) db →
  agree now (core (execute_command [bs "EXPIRE"; k; fmt_unsigned d] [] (mkConn true) now s).2)
    (<[k:=(v, Some (u64 (now + d)))]> db).
Proof.
  intros Hd Hk Hx Ha%count_agree. set (cmd := [bs "EXPIRE"; k; fmt_unsigned d]).
  destruct (serves_logged cmd (mkConn true) now _ _ (meets_expire cmd [] now) _ db Ha)
    as (db' & Hsp & Ha').
  assert (parse_i64 (fmt_unsigned d) = Some d) as Hp.
  { replace (fmt_unsigned d) with (fmt_signed d) by (unfold fmt_signed; by destruct (Z.ltb_spec d 0); [lia|]).
    apply parse_i64_fmt. unfold I64_MIN. lia. }
  unfold spec_expire, cmd in Hsp. rewrite Hp in Hsp. unfold does, db_expire, db_live in Hsp.
  rewrite Hk, Hx in Hsp. destruct (Z.ltb_spec 0 d); [|lia]. injection Hsp as _ ->. exact Ha'.
Qed.

(** The entry, with its expiry time moved from [now0] to [now]. *)
Definition rebase (now0 : Z) (v : EntryValue * option Z) : EntryValue * option Z :=
  (v.1, (λ x, u64 (now + (x - now0))) <$> v.2).

Lemma exec_entry now0 e s db :
  PlatformOk P → kept now0 (k, e) → (∀ x, e_expiry e = Some x → x - now0 ≤ I64_MAX) →
  db !! k = None → agree now (core s) db →
  agree now (core (run_commands now (entry_commands now0 (k, e)) s))
    (<[k:=rebase now0 (data e)]> db).
Proof.
  intros HP [Hx Hv] Hmaxx Hk Ha. unfold entry_commands, rebase, data. cbn [fst snd] in *.
  assert (agree now (core (execute_command (value_command k (e_value e)) [] (mkConn true) now s).2)
            (<[k:=(e_value e, None)]> db)) as Ha1.
  { destruct (e_value e) as [v|h]; [by apply exec_set|].
    apply exec_hset; try done. cbn in Hv. by apply bool_decide_eq_false in Hv. }
  unfold expired in Hx. destruct (e_expiry e) as [x|]; [|exact Ha1].
  change (((λ x0, u64 (now + (x0 - now0))) <$> Some x)) with (Some (u64 (now + (x - now0)))).
  rewrite <- (insert_insert_eq db k (e_value e, Some _) (e_value e, None)).
  apply (exec_expire (e_value e) None); [|by rewrite lookup_insert_eq|done|done].
  specialize (Hmaxx x eq_refl). lia.
Qed.
End Three.

Lemma run_commands_app now l l' s : run_commands now (l ++ l') s = run_commands now l' (run_commands now l s).
Proof. apply fold_left_app. Qed.

Definition rebased (now now0 : Z) (l : list (bytes * Entry)) : list (bytes * (EntryValue * option Z)) :=
  map (λ kv, (kv.1, rebase now now0 (data kv.2))) (filter (kept now0) l).

(** The commands rebuild the entries one by one. *)
Lemma exec_store now now0 l s db :
  PlatformOk P → max_memory (memory CONFIG) = 0 →
  Forall (λ kv, ∀ x, e_expiry kv.2 = Some x → x - now0 ≤ I64_MAX) l → NoDup l.*1 →
  (∀ k, k ∈ l.*1 → db !! k = None) → agree now (core s) db →
  agree now (core (run_commands now (store_commands now0 l) s)) (insert_all (rebased now now0 l) db).
Proof.
  intros HP Hmax Hl. revert s db.
  induction Hl as [|[k e] l Hx _ IH]; intros s db Hd Hk Ha; [done|].
  apply NoDup_cons in Hd as [Hnk Hd]. rewrite store_commands_cons. unfold rebased.
  rewrite filter_cons. destruct (decide (kept now0 (k, e))) as [Hkept|_].
  - rewrite run_commands_app. apply IH; [done| |].
    + intros k' Hk'. cbn [fst snd]. rewrite lookup_insert_ne by (intros ->; done).
      apply Hk, elem_of_cons. auto.
    + apply exec_entry; try done. apply Hk, elem_of_cons. auto.
  - apply IH; [done| |done]. intros k' Hk'. apply Hk, elem_of_cons. auto.
Qed.

(** What the next start shows of a database. *)
Definition restarted (now now0 : Z) (db : Db) : Db :=
  omap (λ v, if past now0 v.2 || is_empty_value v.1 then None else Some (rebase now now0 v)) db.

Lemma rebased_elem now now0 l k v :
  (k, v) ∈ rebased now now0 l ↔ ∃ e, kept now0 (k, e) ∧ (k, e) ∈ l ∧ v = rebase now now0 (data e).
Proof.
  unfold rebased. rewrite list_elem_of_fmap. split.
  - intros ([k' e] & [= -> ->] & [? ?]%list_elem_of_filter). eauto.
  - intros (e & ? & ? & ->). exists (k, e). split; [done|]. by apply list_elem_of_filter.
Qed.

Lemma rebased_NoDup now now0 (l : list (bytes * Entry)) : NoDup l.*1 → NoDup (rebased now now0 l).*1.
Proof.
  intros Hd. unfold rebased. rewrite <- list_fmap_compose.
  eapply sublist_NoDup; [exact Hd|]. apply fmap_sublist, sublist_filter.
Qed.

Lemma rebased_db now now0 c db :
  PlatformOk P → sim now0 c db →
  insert_all (rebased now now0 (store_entries c)) ∅ = restarted now now0 db.
Proof.
  intros HP Hs. apply map_eq. intros k. unfold restarted. rewrite lookup_omap.
  pose proof (live_db now0 c db k Hs) as Hl. destruct Hs as [Hwf _]. unfold db_live in Hl.
  apply option_eq. intros v. split.
  - intros [Hin|H]%insert_all_elem; [|by rewrite lookup_empty in H].
    apply rebased_elem in Hin as (e & [Hx Hv] & Hin & ->). cbn [fst snd] in *.
    apply elem_of_store_entries in Hin; [|done..]. rewrite Hin in Hl. cbn in Hl. rewrite Hx in Hl.
    destruct (db !! k) as [[w x]|]; [|done]. destruct (past now0 x) eqn:Hp; [done|].
    injection Hl as -> ->. cbn. by rewrite Hp, Hv.
  - destruct (db !! k) as [[w x]|]; [|done]. cbn. destruct (past now0 x) eqn:Hp; [done|].
    destruct (is_empty_value w) eqn:Hv; [done|]. intros [= <-].
    destruct (lookup_entry c k) as [e|] eqn:He; [|done]. cbn in Hl.
    destruct (expired now0 e) eqn:Hx; [done|]. injection Hl as Hw Hxx. subst w x.
    apply insert_all_lookup; [by apply rebased_NoDup, NoDup_store_entries|].
    apply rebased_elem. exists e. split_and!; [done| |done]. by apply elem_of_store_entries.
Qed.

Lemma store_commands_stay now now0 l : Forall (stays now) (store_commands now0 l).
Proof.
  unfold store_commands. apply Forall_concat, Forall_map, Forall_true. intros [k e].
  unfold entry_commands. cbn [fst snd]. constructor.
  - by destruct (e_value e).
  - destruct (e_expiry e); repeat constructor.
Qed.

(** What a rewrite and a replay can express: sizes that fit in the address space, and
    remaining times that [EXPIRE] accepts. *)
Record rewritable (now : Z) (c : Core) : Prop := {
  rw_loggable : Forall loggable (store_commands now (store_entries c));
  rw_u64 : Forall (λ kv, ∀ x, e_expiry kv.2 = Some x → is_u64 x) (store_entries c);
  rw_ttl : Forall (λ kv, ∀ x, e_expiry kv.2 = Some x → x - now ≤ I64_MAX) (store_entries c)
}.

Lemma fresh_agree t c : fresh c → agree t c ∅.
Proof.
  intros Hf. split; [by apply fresh_sim|]. intros k v x. by rewrite lookup_empty.
Qed.

(** Replaying a rewritten log on a fresh process. *)
Lemma replay_store now0 now c db s :
  PlatformOk P → max_memory (memory CONFIG) = 0 → sim now0 c db → rewritable now0 c →
  fresh (core s) →
  let l := concat (map frame (store_commands now0 (store_entries c))) in
  ∃ n s', replay (S (length l)) l now (mkConn true) 0 s = (Ok n, s') ∧
    agree now (core s') (restarted now now0 db).
Proof.
  intros HP Hmax Hs [Hlog Hu Httl] Hf l. subst l.
  rewrite (replay_frames (store_commands now0 (store_entries c))); [|done|apply store_commands_stay|].
  2:{ pose proof (frames_length (store_commands now0 (store_entries c))). lia. }
  do 2 eexists. split; [done|]. rewrite <- (rebased_db now now0 c db HP Hs).
  apply exec_store; try done.
  - apply NoDup_store_entries; [done|apply Hs].
  - by apply fresh_agree.
Qed.

(** No snapshot is loaded at startup: snapshots are disabled, or there is no file. *)
Definition no_snapshot (snapshot : option bytes) : Prop :=
  enabled (persistence CONFIG) = false ∨ snapshot = None.

Lemma start_store_none snapshot s : no_snapshot snapshot → (start_store snapshot s).2 = s.
Proof.
  unfold start_store. intros [-> | ->]; [done|]. by destruct (enabled _), s.
Qed.

(** Startup without a snapshot: the log, if there is one, is replayed on an empty store. *)
Lemma start_from policy snapshot f j :
  aof_enabled (persistence CONFIG) = true → fsync_parse (aof_fsync (persistence CONFIG)) = Ok policy →
  no_snapshot snapshot →
  let s0 := boot snapshot j in
  let r := replay (S (length f)) f (system_time j) (mkConn true) 0 (set_core (tick (core s0)) s0) in
  start snapshot (Some f) j =
    match r.1 with
    | Ok _ => Ok (set_aof (Some (aof_open f policy)) r.2)
    | Err e => Err (CorruptAof e)
    end.
Proof.
  intros Haof Hpol Hsnap s0 r. unfold start. fold s0. cbv zeta. rewrite start_store_none by done.
  unfold start_aof. rewrite Haof, Hpol. unfold mbind, SM_bind. cbv zeta.
  change (lift get_timestamp s0) with (system_time j, set_core (tick (core s0)) s0). cbn [fst snd].
  fold r. destruct r as [[n|e] s1]; reflexivity.
Qed.

(** C5: a log rewrite that runs with no command beside it loses nothing (beside commands it
    can lose some: the code says so, and RewriteRace.v models that case).  Rewrite the
    append-only file, with no other rewrite under way, and start a new process from it,
    without a memory limit and without a snapshot: snapshots are disabled or none was written.  Then
    the process has the database the rewrite saw: every live key with its value and type,
    and its remaining time to live counted again from the new process's clock; empty
    hashes and expired keys are gone.  This holds for every store whose keys and values
    have lengths that fit in 64 bits and whose remaining times to live fit in an [i64]
    ([EXPIRE] refuses others).  The size the rewrite records is the length of the file
    (as a [u64]). *)
Theorem rewrite_restores policy a c db snapshot i :
  PlatformOk P → max_memory (memory CONFIG) = 0 → 0 < cfg_num_shards (server CONFIG) →
  aof_enabled (persistence CONFIG) = true →
  fsync_parse (aof_fsync (persistence CONFIG)) = Ok policy → no_snapshot snapshot →
  rewrite_in_progress a = false →
  sim (system_time (ticks c)) c db → rewritable (system_time (ticks c)) c →
  let a' := (rewrite a c).1.2 in
  size_bytes a' = u64 (len (aof_disk a')) ∧
  ∃ s', start snapshot (Some (aof_disk a')) i = Ok s' ∧
        agree (system_time i) (core s') (restarted (system_time i) (system_time (ticks c)) db).
Proof.
  intros HP Hmax Hn Haof Hpol Hsnap Hfree Hs Hrw a'. unfold a'. rewrite (rewrite_file a c HP Hfree (rw_u64 _ _ Hrw)).
  cbn [size_bytes aof_disk]. split; [done|]. set (s0 := boot snapshot i).
  destruct (replay_store _ (system_time i) c db (set_core (tick (core s0)) s0) HP Hmax Hs Hrw)
    as (n & s' & Hr & Ha); [by apply fresh_tick, fresh_boot|].
  rewrite (start_from policy) by done. cbv zeta. fold s0. rewrite Hr. by eexists.
Qed.
End Replay.

(** ** Examples *)

Section Examples.
#[local] Existing Instance demo_platform.
#[local] Existing Instance demo_durable.
#[local] Existing Instance demo_bincode.

Definition live_store : Core := (set (bs "k") (bs "v") (Some 5000) 1000 (new 2)).2.
Definition live_db : Db := <[bs "k":=(EV_String (bs "v"), Some 6000)]> ∅.

Lemma live_store_sim : sim (system_time (ticks live_store)) live_store live_db.
Proof.
  apply (simulates_op 1000 (OSet (bs "k") (bs "v") (Some 5000)) (new 2) ∅), sim_new. done.
Qed.

Lemma live_store_rewritable : rewritable (system_time (ticks live_store)) live_store.
Proof.
  assert (store_entries live_store = [(bs "k", mkEntry (EV_String (bs "v")) (Some 6000) 0 0 0)]) as E
    by (vm_compute; reflexivity).
  split; rewrite E.
  - replace (store_commands _ _)
      with [[bs "SET"; bs "k"; bs "v"]; [bs "EXPIRE"; bs "k"; bs "5000"]] by (vm_compute; reflexivity).
    by repeat constructor.
  - apply Forall_singleton. by intros x [= <-].
  - apply Forall_singleton. intros x [= <-]. by vm_compute.
Qed.

Lemma rewrite_restores_witness :
  let a' := (rewrite (aof_open [] Always) live_store).1.2 in
  size_bytes a' = u64 (len (aof_disk a')) ∧
  ∃ s', start None (Some (aof_disk a')) 7 = Ok s' ∧
        agree (system_time 7) (core s')
          (restarted (system_time 7) (system_time (ticks live_store)) live_db).
Proof.
  apply (rewrite_restores Always (aof_open [] Always) live_store live_db None 7 demo_platform_ok);
    try reflexivity.
  - by right.
  - exact live_store_sim.
  - exact live_store_rewritable.
Defined.

(** A log of one command; a rewrite, and a command behind it that is not synced. *)
Lemma crash_replay_witness :
  let cmd := [bs "DEL"; bs "k"] in
  let cmds := store_commands (system_time (ticks live_store)) (store_entries live_store) ++ [cmd] in
  let a := append cmd (rewrite (aof_open (frame cmd) EverySec) live_store).1.2 in
  let p := aof_disk a in
  ∃ n, (n ≤ length cmds)%nat ∧ (read_all (S (length p)) p).1 = take n cmds ∧
       ((read_all (S (length p)) p).2 = None ↔ p = concat (map frame (take n cmds))) ∧
       (∀ m, (m ≤ length cmds)%nat → concat (map frame (take m cmds)) `prefix_of` aof_disk a → (m ≤ n)%nat) ∧
       (EverySec = Always ∨ dirty a = false → read_all (S (length p)) p = (cmds, None)).
Proof.
  intros cmd cmds a p. apply (crash_replay EverySec [cmd] cmds a p demo_platform_ok).
  - by repeat constructor.
  - by vm_compute.
  - eapply rtc_l.
    { apply (aof_rewrite [cmd] (aof_open (frame cmd) EverySec) live_store); [done|apply live_store_rewritable..]. }
    apply rtc_once. apply aof_append. by repeat constructor.
  - exists [], (aof_kernel a). by rewrite app_nil_r.
Defined.
End Examples.
