(* ===== verification/Replay.v ===== *)
(** * The log replays to the database

    The append-only file holds commands, not data.  For commands without expiry times
    it does not matter when they are replayed: running the logged commands on an empty
    process leads to the database the server had, and so does the log a rewrite writes.
    ([EXPIRE] and [SET .. EX] are logged with relative times, and [FLUSHDB] and
    [FLUSHALL] are not logged at all: [flush_comes_back].)  With snapshots enabled too, a
    restart replays the log on top of the snapshot ([restart_applies_log_twice]). *)

From S2P Require Import Prelude Decimal Protocol Config S3Fifo State Store Steps StoreOps.
From S2P Require Import StoreSpec Contents Memory Eviction Handlers HandlerSpec HandlerMem Aof Snapshot.
From S2P Require Import Server ServerSpec Recovery Demo.

(** ** Databases without expiry times *)

(** No key expires, and no hash is empty. *)
Definition eternal (db : Db) : Prop :=
  ∀ k v x, db !! k = Some (v, x) → x = None ∧ is_empty_value v = false.

Lemma eternal_live now db k : eternal db → db_live now db k = db !! k.
Proof.
  intros He. unfold db_live. destruct (db !! k) as [[v x]|] eqn:E; [|done]. by destruct (He _ _ _ E) as [-> _].
Qed.

Lemma eternal_insert db k v : is_empty_value v = false → eternal db → eternal (<[k:=(v, None)]> db).
Proof.
  intros Hv He k' v' x. rewrite lookup_insert_Some. intros [[_ [= <- <-]]|[_ ?]]; [done|by eapply He].
Qed.

Lemma eternal_string db k v : eternal db → eternal (<[k:=(EV_String v, None)]> db).
Proof. by apply eternal_insert. Qed.

Lemma eternal_delete db k : eternal db → eternal (base.delete k db).
Proof. intros He k' v x [_ H]%lookup_delete_Some. by eapply He. Qed.

Lemma eternal_empty : eternal ∅.
Proof. intros k v x. by rewrite lookup_empty. Qed.

#[export] Hint Resolve eternal_string eternal_delete eternal_empty : redistill.

Lemma eternal_forgets now db db' : eternal db → forgets now db db' → db' = db.
Proof.
  intros He Hf. apply map_eq. intros k. destruct (Hf k) as [->|[-> Hl]]; [done|].
  by rewrite eternal_live in Hl.
Qed.

Lemma put_fields_nonempty fields h : fields ≠ [] → put_fields fields h ≠ ∅.
Proof.
  destruct fields as [|[f v] fields]; [done|]. intros _ He.
  assert (put_fields ((f, v) :: fields) h !! f = None) as H by by rewrite He, lookup_empty.
  unfold put_fields in H. rewrite reverse_cons, list_to_map_app in H.
  apply lookup_union_None in H as [H _]. apply lookup_union_None in H as [_ H].
  cbn in H. by rewrite lookup_insert_eq in H.
Qed.

Lemma kept_hash fields h : h ≠ ∅ → emptied fields h = false → drop_fields fields h ≠ ∅.
Proof.
  unfold emptied. intros Hh Hem He. rewrite He, bool_decide_true, andb_true_r in Hem by done.
  apply Hh, map_size_empty_inv. unfold zsize in Hem. rewrite map_size_empty in Hem.
  apply Z.ltb_ge in Hem. lia.
Qed.

(** ** Commands whose effect does not depend on the time *)

(** Two contracts of one command, at different times and for different writers, lead
    from one eternal database to one eternal database. *)
Definition steady (sp1 sp2 : CmdSpec) : Prop :=
  ∀ db w1 db1 w2 db2, eternal db → sp1 db w1 db1 → sp2 db w2 db2 → db1 = db2 ∧ eternal db1.

(** A contract that leaves the database alone. *)
Definition harmless (sp : CmdSpec) : Prop := ∀ db w' db', sp db w' db' → db' = db.

Lemma harmless_does f : harmless (does (λ db, (f db, db))).
Proof. intros db w' db' H. by injection H. Qed.

Lemma harmless_observes allowed : harmless (observes allowed).
Proof. by intros db w' db' [-> _]. Qed.

Lemma harmless_errs w e : harmless (errs w e).
Proof. apply harmless_does. Qed.

Lemma harmless_replies w : harmless (replies w).
Proof. apply harmless_does. Qed.

Lemma harmless_with_key command w e f : (∀ key, harmless (f key)) → harmless (with_key command w e f).
Proof. intros Hf. destruct command as [|? [|? ?]]; [apply harmless_errs..|apply Hf]. Qed.

#[export] Hint Resolve harmless_does harmless_observes harmless_errs harmless_replies : redistill.

Lemma steady_harmless sp1 sp2 : harmless sp1 → harmless sp2 → steady sp1 sp2.
Proof. intros H1 H2 db w1 db1 w2 db2 He ->%H1 ->%H2. done. Qed.

Lemma steady_does act1 act2 :
  (∀ db, eternal db → (act1 db).2 = (act2 db).2 ∧ eternal (act1 db).2) → steady (does act1) (does act2).
Proof.
  intros H db w1 db1 w2 db2 He H1 H2. destruct (H db He) as [Heq Het].
  unfold does in *. rewrite <- H1, <- H2 in Heq. rewrite <- H1 in Het. done.
Qed.

Ltac harmless := solve [intros; apply steady_harmless; auto with redistill].

Section Steady.
Context {P : Platform} {CFG : HasConfig} (Hmax : max_memory (memory CONFIG) = 0).

Lemma steady_admits w1 w2 act1 act2 :
  steady (does act1) (does act2) → steady (admits w1 act1) (admits w2 act2).
Proof.
  intros H db w1' db1 w2' db2 He H1%admits_free H2%admits_free; [|done..]. by eapply H.
Qed.

Section Pair.
Context (command : list bytes) (w1 w2 : bytes) (now1 now2 : Z) (st1 st2 : ConnectionState).

Lemma harmless_mget w now : harmless (spec_mget command w now).
Proof. unfold spec_mget. destruct command as [|? [|? ?]]; auto with redistill. Qed.

Lemma harmless_hget w now : harmless (spec_hget command w now).
Proof. unfold spec_hget. destruct command as [|? [|? [|? ?]]]; auto with redistill. Qed.

(** [SET] without a time to live. *)
Definition no_ttl : Prop :=
  match parse_set_opts (drop 3 command) (mkSetOpts None false false false) with
  | Ok o => so_ttl o = None
  | Err _ => True
  end.

Lemma steady_set : no_ttl → steady (spec_set command w1 now1) (spec_set command w2 now2).
Proof.
  unfold no_ttl, spec_set. destruct command as [|name [|key [|value opts]]];
    try harmless. cbn [drop].
  intros Httl. apply steady_admits, steady_does. intros db He. unfold set_act.
  destruct (parse_set_opts _ _) as [o|e]; [|done]. destruct (so_nx o && so_xx o); [done|].
  unfold db_set, db_string, db_read. rewrite !eternal_live, Httl by done. cbn [fmap option_fmap option_map].
  destruct (so_nx o), (so_xx o); cbn; repeat case_match; cbn; auto with redistill.
Qed.

Lemma steady_incr_key key delta : steady (spec_incr_key w1 now1 key delta) (spec_incr_key w2 now2 key delta).
Proof.
  intros db w1' db1 w2' db2 He H1 H2.
  assert (∀ now, ¬ expired_hash now db key) as Hn.
  { intros now (h & x & Hk & Hx). by destruct (He _ _ _ Hk) as [-> _]. }
  destruct H1 as [[[]%Hn _]|H1]. destruct H2 as [[[]%Hn _]|H2]. revert H1 H2.
  unfold db_number. rewrite !eternal_live by done.
  destruct (db !! key) as [[[v|h] x]|] eqn:Hk.
  - assert (x = None) as -> by (by destruct (He _ _ _ Hk)). destruct (parse_i64 v) as [n|].
    2:{ by intros ->%harmless_errs ->%harmless_errs. }
    destruct (checked_i64 _); [|by intros ->%harmless_errs ->%harmless_errs].
    apply steady_admits; [|done]. apply steady_does. intros. cbn. auto with redistill.
  - by intros ->%harmless_errs ->%harmless_errs.
  - destruct (checked_i64 _); [|by intros ->%harmless_errs ->%harmless_errs].
    apply steady_admits; [|done]. apply steady_does. intros. cbn. auto with redistill.
Qed.

Lemma steady_incr delta : steady (spec_incr command w1 now1 delta) (spec_incr command w2 now2 delta).
Proof.
  unfold spec_incr, with_key. destruct command as [|? [|? ?]];
    [harmless..|apply steady_incr_key].
Qed.

Lemma steady_by sign : steady (spec_by command w1 now1 sign) (spec_by command w2 now2 sign).
Proof.
  unfold spec_by. destruct command as [|? [|? [|n ?]]]; try harmless.
  destruct (parse_i64 n); [apply steady_incr_key|harmless].
Qed.

Lemma eternal_mset kvs db : eternal db → eternal (db_mset kvs db).
Proof.
  unfold db_mset. revert db. induction kvs as [|kv kvs IH]; intros db He; [done|].
  apply IH. auto with redistill.
Qed.

Lemma steady_mset : steady (spec_mset command w1) (spec_mset command w2).
Proof.
  unfold spec_mset. destruct (_ || _); [harmless|].
  apply steady_admits, steady_does. intros. cbn. split; [done|]. by apply eternal_mset.
Qed.

Lemma steady_persist : steady (spec_persist command w1 now1) (spec_persist command w2 now2).
Proof.
  unfold spec_persist, with_key. destruct command as [|? [|key ?]];
    try harmless.
  apply steady_does. intros db He. unfold db_persist. rewrite !eternal_live by done. cbn [snd].
  destruct (db !! key) as [[v [x|]]|] eqn:Hk; cbn; auto. by destruct (He _ _ _ Hk).
Qed.

Lemma db_delete_eternal ks n1 n2 db :
  eternal db → (db_delete now1 db ks n1).2 = (db_delete now2 db ks n2).2 ∧
               eternal (db_delete now1 db ks n1).2.
Proof.
  revert n1 n2 db. induction ks as [|k ks IH]; intros n1 n2 db He; [done|]. cbn [db_delete].
  apply IH. auto with redistill.
Qed.

Lemma steady_del : steady (spec_del command w1 now1) (spec_del command w2 now2).
Proof.
  unfold spec_del. destruct (2 <=? len command); [|harmless].
  apply steady_does. intros db He. by apply db_delete_eternal.
Qed.

Lemma steady_hset : steady (spec_hset command w1 now1) (spec_hset command w2 now2).
Proof.
  unfold spec_hset. destruct (_ || _) eqn:Hg; [harmless|].
  assert (∀ h, is_empty_value (EV_Hash (put_fields (pairs_of (drop 2 command)) h)) = false) as Hne.
  { intros h. apply bool_decide_eq_false, put_fields_nonempty.
    apply orb_false_iff in Hg as [Hg%Z.ltb_ge _]. unfold len in Hg.
    destruct command as [|? [|? [|? [|? ?]]]]; cbn in Hg; try lia. done. }
  apply steady_does. intros db He. cbv zeta. cbn [snd]. unfold db_hset. rewrite !eternal_live by done.
  destruct (db !! _) as [[[v|h] x]|] eqn:Hk; cbn [snd]; [done| |by split; [|apply eternal_insert]].
  destruct (He _ _ _ Hk) as [-> _]. by split; [|apply eternal_insert].
Qed.

Lemma steady_hdel : steady (spec_hdel command w1 now1) (spec_hdel command w2 now2).
Proof.
  unfold spec_hdel. destruct command as [|? [|key [|field fields]]];
    try harmless.
  apply steady_does. intros db He. cbv zeta. cbn [snd]. unfold db_hdel. rewrite !eternal_live by done.
  destruct (db !! key) as [[[v|h] x]|] eqn:Hk; cbn [snd]; auto with redistill.
  destruct (He _ _ _ Hk) as [-> Hh%bool_decide_eq_false].
  destruct (emptied _ _) eqn:Hem; [auto with redistill|]. split; [done|]. apply eternal_insert; [|done].
  by apply bool_decide_eq_false, kept_hash.
Qed.

Lemma harmless_scan w now : harmless (spec_scan command w now).
Proof.
  unfold spec_scan. destruct command as [|? [|c opts]]; auto with redistill.
  destruct (parse_u64 c); auto with redistill.
  destruct (parse_scan_opts _ _ _) as [[? ?]|]; auto with redistill.
Qed.

Lemma harmless_save w : harmless (spec_save w).
Proof. unfold spec_save. destruct (enabled _); auto with redistill. Qed.

Lemma harmless_bgsave w : harmless (spec_bgsave w).
Proof. unfold spec_bgsave. destruct (enabled _); auto with redistill. Qed.

(** The commands that log relative times, or do not log what they do. *)
Definition unlogged_names : list string := ["expire"; "flushdb"; "flushall"]%string.
Definition unlogged (name : string) : bool := bool_decide (name ∈ unlogged_names).

Definition lasting_entry (name : string) : Prop :=
  unlogged name = false ∧ (name = "set"%string → no_ttl).

Lemma table_steady :
  Forall2 (λ e1 e2, e1.1 = e2.1 ∧ (lasting_entry e1.1 → steady e1.2 e2.2))
    (contracts command w1 now1 st1) (contracts command w2 now2 st2).
Proof.
  unfold contracts.
  repeat (apply List.Forall2_cons; [split; [reflexivity|cbn [fst snd]; intros Hl]|]); [..|apply List.Forall2_nil].
  all: try (by destruct Hl as [Hl _]; vm_compute in Hl).
  all: first [apply steady_incr | apply steady_by | apply steady_mset | apply steady_persist
             | apply steady_del | apply steady_hset | apply steady_hdel
             | apply steady_set, Hl; reflexivity | apply steady_harmless].
  all: auto using harmless_mget, harmless_hget, harmless_scan, harmless_save, harmless_bgsave with redistill.
  all: try apply harmless_observes.
  all: apply harmless_with_key; auto with redistill.
Qed.
End Pair.

(** ** What is logged *)

Context {B : Bincode}.

Section Logging.
Context (command : list bytes) (w : bytes) (st : ConnectionState) (now : Z).

Lemma aof_save s : AOF (save_snapshot_sync s).2 = AOF s.
Proof.
  unfold save_snapshot_sync, mbind, SM_bind. cbn. destruct (SAVE_IN_PROGRESS s); [done|]. cbn.
  by destruct (snapshot_file _ _) as [[? ?]|].
Qed.

(** A command is appended to the log, or it changes neither the log nor the database. *)
Definition logs (h : SM (bytes * ConnectionState)) (sp : CmdSpec) : Prop :=
  (∀ s, AOF (h s).2 = append command <$> AOF s) ∨ ((∀ s, AOF (h s).2 = AOF s) ∧ harmless sp).

Lemma table_logs :
  Forall2 (λ h e, h.1 = e.1 ∧ (unlogged h.1 = false → logs h.2 e.2))
    (commands command w st now) (contracts command w now st).
Proof.
  unfold_commands. unfold contracts.
  repeat (apply List.Forall2_cons; [split; [reflexivity|cbn [fst snd]; intros Hl]|]); [..|apply List.Forall2_nil].
  all: try (by vm_compute in Hl).
  all: try (by left).
  all: try (right; split; [by intros s|];
            auto using harmless_mget, harmless_hget, harmless_scan with redistill; try apply harmless_observes;
            by apply harmless_with_key; auto with redistill).
  - unfold spec_del, two_args. destruct (2 <=? len command); [by left|]. right. auto with redistill.
  - right. split; [|apply harmless_save]. intros s. unfold handle_save. destruct (negb _); [done|].
    apply aof_save.
  - right. split; [|apply harmless_bgsave]. intros s. unfold handle_bgsave. destruct (negb _); [done|].
    unfold reply, mbind, SM_bind. cbn. by destruct (SAVE_IN_PROGRESS s).
  - right. split; [|apply harmless_observes]. intros s. unfold reply, handle_bgrewriteaof, mbind, SM_bind. cbn.
    destruct (AOF s) as [a|] eqn:E; [|done]. by destruct (rewrite_in_progress a).
Qed.
End Logging.

(** A replayed connection stays authenticated. *)
Lemma stays_authenticated command now : stays now command.
Proof.
  intros s. unfold execute_command, mbind, SM_bind. cbv zeta. destruct command as [|cmd args]; [done|].
  rewrite andb_false_r. unfold dispatch.
  destruct (List.find _ _) as [[n h]|] eqn:Hf; [|done]. apply List.find_some in Hf as [Hin _].
  assert (Forall (λ e, ∀ s, (e.2 s).1.2 = mkConn true) (commands (cmd :: args) [] (mkConn true) now)) as H.
  { unfold_commands. repeat (apply List.Forall_cons; [|]); [..|apply List.Forall_nil]; cbn [snd]; try done.
    - intros s'. by destruct (two_args _).
    - intros s'. cbn. unfold handle_auth. repeat case_match; done. }
  rewrite List.Forall_forall in H. apply (H _ Hin).
Qed.

(** ** The log and the database *)

(** The command has an effect that does not depend on the time, and it is logged. *)
Definition lasting (command : list bytes) : Prop :=
  match command with
  | cmd :: _ =>
      Forall (λ n, name_is cmd n = false) unlogged_names ∧
      (name_is cmd "set" = true → no_ttl command)
  | [] => True
  end.

Lemma lasting_dispatch cmd args name :
  lasting (cmd :: args) → name_is cmd name = true → lasting_entry (cmd :: args) name.
Proof.
  intros [Hu Hs] Hn. split; [|by intros ->; apply Hs]. apply bool_decide_eq_false. intros Hin.
  rewrite Forall_forall in Hu. specialize (Hu _ Hin). congruence.
Qed.

Lemma find_Forall2 {A C : Type} (R : A → C → Prop) (f : A → bool) (g : C → bool) l l' x :
  Forall2 (λ a c, f a = g c ∧ R a c) l l' → List.find f l = Some x →
  ∃ y, List.find g l' = Some y ∧ R x y.
Proof.
  induction 1 as [|a c l l' [Hfg HR] _ IH]; cbn; [done|]. rewrite Hfg. destruct (g c); [|done].
  intros [= <-]. eauto.
Qed.

(** What the tables say of the entry a command is dispatched to. *)
Lemma dispatched cmd command w st now h :
  List.find (λ e, name_is cmd e.1) (commands command w st now) = Some h →
  (∀ name, name_is cmd name = true → lasting_entry command name) →
  ∃ sp, List.find (λ e, name_is cmd e.1) (contracts command w now st) = Some sp ∧
    logs command h.2 sp.2 ∧
    ∀ now', ∃ sp', List.find (λ e, name_is cmd e.1) (contracts command [] now' (mkConn true)) = Some sp' ∧
                   steady sp.2 sp'.2.
Proof.
  intros Hf Hl. assert (name_is cmd h.1 = true) as Hn by apply (List.find_some _ _ Hf).
  assert (Forall2 (λ h e, name_is cmd h.1 = name_is cmd e.1 ∧
            (h.1 = e.1 ∧ (unlogged h.1 = false → logs command h.2 e.2)))
            (commands command w st now) (contracts command w now st)) as H1.
  { eapply Forall2_impl; [apply (table_logs command w st now)|].
    intros h' e' [He ?]. split; [by rewrite He|done]. }
  destruct (find_Forall2 _ _ _ _ _ _ H1 Hf) as (sp & Hsp & Hname & Hlog).
  exists sp. split; [done|]. split; [by apply Hlog, Hl|]. intros now'.
  assert (Forall2 (λ e e', name_is cmd e.1 = name_is cmd e'.1 ∧
            (lasting_entry command e.1 → steady e.2 e'.2))
            (contracts command w now st) (contracts command [] now' (mkConn true))) as H2.
  { eapply Forall2_impl; [apply (table_steady command w [] now now' st (mkConn true))|].
    intros e e' [He ?]. split; [by rewrite He|done]. }
  destruct (find_Forall2 _ _ _ _ _ _ H2 Hsp) as (sp' & Hsp' & Hst).
  exists sp'. split; [done|]. apply Hst. rewrite <- Hname. by apply Hl.
Qed.

Lemma run_commands_snoc now cmds cmd s :
  run_commands now (cmds ++ [cmd]) s = (execute_command cmd [] (mkConn true) now (run_commands now cmds s)).2.
Proof. by rewrite run_commands_app. Qed.

Lemma find_Forall2_None {A C : Type} (f : A → bool) (g : C → bool) l l' :
  Forall2 (λ a c, f a = g c) l l' → List.find f l = None → List.find g l' = None.
Proof. induction 1 as [|a c l l' Hfg _ IH]; cbn; [done|]. rewrite Hfg. by destruct (g c). Qed.

Lemma aof_count s : AOF (count_command s).2 = AOF s.
Proof. unfold count_command. cbn. by destruct (256 <=? _). Qed.

(** A lasting command is logged and can be replayed at any time, or it changes neither
    the log nor the database. *)
Lemma execute_logs command w st now :
  lasting command →
  ((∀ s, AOF (execute_command command w st now s).2 = append command <$> AOF s) ∧
   ∀ now', steady (contract command w now st) (contract command [] now' (mkConn true))) ∨
  ((∀ s, AOF (execute_command command w st now s).2 = AOF s) ∧ harmless (contract command w now st)).
Proof.
  intros Hl. unfold contract, execute_command, mbind, SM_bind. cbv zeta.
  destruct command as [|cmd args] eqn:Hc; [right; split; [apply aof_count|apply harmless_errs]|].
  destruct (requires_auth cmd && negb (authenticated st));
    [right; split; [apply aof_count|apply harmless_errs]|]. unfold dispatch. rewrite <- Hc in *.
  destruct (List.find _ (commands _ _ _ _)) as [[n h]|] eqn:Hf.
  - destruct (dispatched cmd command w st now (n, h) Hf) as (sp & Hsp & Hlog & Hst);
      [rewrite Hc in *; intros name; by apply lasting_dispatch|]. rewrite Hsp. destruct sp as [n' sp]. cbn [snd] in *.
    destruct Hlog as [Hlog|[Hlog Hh]]; [left|right].
    + split; [intros s; by rewrite Hlog, aof_count|]. intros now'.
      destruct (Hst now') as ([n2 sp'] & Hsp' & Hst'). rewrite andb_false_r. by rewrite Hsp'.
    + split; [intros s; by rewrite Hlog, aof_count|done].
  - right. split; [apply aof_count|]. rewrite (find_Forall2_None _ _ _ (contracts command w now st)) with (2 := Hf).
    + apply harmless_errs.
    + eapply Forall2_impl; [apply (table_logs command w st now)|]. intros h e [He _]. cbv beta. by rewrite He.
Qed.

(** ** Running lasting commands again *)

Context (HP : PlatformOk P).

(** A store that holds a database without expiry times. *)
Definition steadfast (c : Core) : Prop := sound c ∧ eternal (contents c).

Lemma agree_eternal now c db : agree now c db → eternal db → steadfast c ∧ contents c = db.
Proof.
  intros Ha He. destruct (agree_contents _ _ _ Ha) as [Hs Hf]. apply (eternal_forgets _ _ _ He) in Hf.
  unfold steadfast. by rewrite Hf.
Qed.

Lemma fresh_steadfast c : fresh c → steadfast c ∧ contents c = ∅.
Proof. intros Hf. apply (agree_eternal 0); [by apply fresh_agree|apply eternal_empty]. Qed.

(** A lasting command is logged and has the same effect whenever it is run again, or it
    changes neither the log nor the database. *)
Lemma execute_lasting command w st now s :
  0 ≤ now → lasting command → steadfast (core s) →
  let s' := (execute_command command w st now s).2 in
  steadfast (core s') ∧
  ((AOF s' = append command <$> AOF s ∧
    ∀ now' s2, 0 ≤ now' → sound (core s2) → contents (core s2) = contents (core s) →
      contents (core (execute_command command [] (mkConn true) now' s2).2) = contents (core s')) ∨
   (AOF s' = AOF s ∧ contents (core s') = contents (core s))).
Proof.
  intros Hn Hl [Hs He] s'. unfold steadfast.
  destruct (execute_contents HP command w st now s Hn Hs) as (db1 & Hc & Hf & Hs'). fold s' in Hf, Hs'.
  destruct (execute_logs command w st now Hl) as [[Ha Hst]|[Ha Hh]].
  - assert (∀ now' s2, 0 ≤ now' → sound (core s2) → contents (core s2) = contents (core s) →
      contents (core (execute_command command [] (mkConn true) now' s2).2) = db1 ∧ eternal db1) as Hre.
    { intros now' s2 Hn' Hs2 Heq.
      destruct (execute_contents HP command [] (mkConn true) now' s2 Hn' Hs2) as (db2 & Hc2 & Hf2 & _).
      rewrite Heq in Hc2. destruct (Hst now' _ _ _ _ _ He Hc Hc2) as [-> He2]. split; [|done].
      by eapply eternal_forgets. }
    destruct (Hre 0 s) as [_ He1]; [done..|]. apply (eternal_forgets _ _ _ He1) in Hf. rewrite Hf.
    split; [done|]. left. split; [apply Ha|]. intros. by apply Hre.
  - apply Hh in Hc as ->. apply (eternal_forgets _ _ _ He) in Hf. rewrite Hf. split; [done|]. right. split; [apply Ha|done].
Qed.

Lemma execute_again command now1 s1 now2 s2 :
  lasting command → 0 ≤ now1 → 0 ≤ now2 → steadfast (core s1) → steadfast (core s2) →
  contents (core s2) = contents (core s1) →
  contents (core (execute_command command [] (mkConn true) now2 s2).2) =
    contents (core (execute_command command [] (mkConn true) now1 s1).2).
Proof.
  intros Hl H1 H2 Hs1 Hs2 Heq.
  destruct (execute_lasting command [] (mkConn true) now1 s1 H1 Hl Hs1) as [_ [[_ Hre]|[_ Hc1]]];
    [apply Hre; [done|apply Hs2|done]|].
  destruct (execute_lasting command [] (mkConn true) now2 s2 H2 Hl Hs2) as [_ [[_ Hre]|[_ Hc2]]]; [|congruence].
  symmetry. apply Hre; [done|apply Hs1|done].
Qed.

Lemma rerun cmds now1 now2 s1 s2 :
  Forall lasting cmds → 0 ≤ now1 → 0 ≤ now2 → steadfast (core s1) → steadfast (core s2) →
  contents (core s2) = contents (core s1) →
  steadfast (core (run_commands now1 cmds s1)) ∧ steadfast (core (run_commands now2 cmds s2)) ∧
  contents (core (run_commands now2 cmds s2)) = contents (core (run_commands now1 cmds s1)).
Proof.
  intros Hl Hn1 Hn2. revert s1 s2. induction Hl as [|cmd cmds Hc _ IH]; intros s1 s2 H1 H2 Heq; [done|].
  cbn [run_commands fold_left]. apply IH; [by apply execute_lasting..|]. by apply execute_again.
Qed.

(** ** The log and the database *)

(** Replaying the commands on an empty store, at any time, leads to the database. *)
Definition yields (cmds : list (list bytes)) (db : Db) : Prop :=
  ∀ now s, 0 ≤ now → fresh (core s) → contents (core (run_commands now cmds s)) = db.

(** The store holds a database without expiry times, and the commands of the log yield it. *)
Record tracked (policy : FsyncPolicy) (s : Server) (cmds : list (list bytes)) (a : Aof) : Prop := {
  tr_store : steadfast (core s);
  tr_aof : AOF s = Some a;
  tr_ok : aof_ok policy cmds a;
  tr_free : rewrite_in_progress a = false;
  tr_lasting : Forall lasting cmds;
  tr_yields : yields cmds (contents (core s))
}.

(** Where the file after an event may be cut behind what is synced: at its end, or where
    the file before the event may. *)
Definition cut_before (cmds : list (list bytes)) (a : Aof) (cmds' : list (list bytes)) (a' : Aof) : Prop :=
  ∀ n, (n < length cmds')%nat → aof_disk a' `prefix_of` concat (map frame (take n cmds')) →
    (n ≤ length cmds)%nat ∧ take n cmds' = take n cmds ∧ aof_disk a `prefix_of` concat (map frame (take n cmds)).

Lemma cut_before_grows cmds a a' l :
  (length l ≤ 1)%nat → aof_disk a `prefix_of` aof_disk a' → cut_before cmds a (cmds ++ l) a'.
Proof.
  intros Hl Hp n Hn Hd. rewrite length_app in Hn. rewrite take_app_le in * by lia.
  split_and!; [lia|done|]. by etrans.
Qed.

Lemma cut_before_whole cmds a cmds' a' :
  Forall loggable cmds' → aof_disk a' = concat (map frame cmds') → cut_before cmds a cmds' a'.
Proof.
  intros Hl Hd n Hn [x Hx]. rewrite Hd in Hx.
  assert (length cmds' ≤ n)%nat; [|lia]. apply (frames_whole cmds' n [] _ x Hl); [lia|by left|].
  by rewrite app_nil_r, firstn_all.
Qed.

Lemma append_progress cmd a : rewrite_in_progress (append cmd a) = rewrite_in_progress a.
Proof.
  unfold append, write_resp_array. destruct (fold_left _ _ _) as [? ?]. by destruct (fsync a).
Qed.

Lemma append_disk cmd a : aof_disk a `prefix_of` aof_disk (append cmd a).
Proof.
  unfold append, write_resp_array. destruct (fold_left _ _ _) as [? ?].
  destruct (fsync a); cbn; [by apply prefix_app_r|done..].
Qed.

Lemma yields_snoc cmds command now w st s :
  0 ≤ now → lasting command → Forall lasting cmds → steadfast (core s) → yields cmds (contents (core s)) →
  (∀ now' s2, 0 ≤ now' → sound (core s2) → contents (core s2) = contents (core s) →
    contents (core (execute_command command [] (mkConn true) now' s2).2) =
      contents (core (execute_command command w st now s).2)) →
  yields (cmds ++ [command]) (contents (core (execute_command command w st now s).2)).
Proof.
  intros Hn Hl Hc Hs Hy Hre now' s' Hn' Hf. rewrite run_commands_snoc. apply Hre; [done| |by apply Hy].
  destruct (rerun cmds now' now' s' s' Hc Hn' Hn') as ([Hs' _] & _); [by apply fresh_steadfast..|done|done].
Qed.

(** One more command. *)
Lemma tracked_command policy s cmds a command w st now :
  tracked policy s cmds a → 0 ≤ now → lasting command → loggable command →
  ∃ cmds' a', tracked policy (execute_command command w st now s).2 cmds' a' ∧ cut_before cmds a cmds' a'.
Proof.
  intros [Hst Haof Hok Hfree Hlast Hy] Hn Hl Hlog.
  destruct (execute_lasting command w st now s Hn Hl Hst) as [Hs' [[Ha Hre]|[Ha Hsame]]]; rewrite Haof in Ha.
  - exists (cmds ++ [command]), (append command a). split.
    + split; [done|done|by apply aof_ok_append|by rewrite append_progress| |by apply yields_snoc].
      apply Forall_app. auto.
    + apply cut_before_grows; [done|apply append_disk].
  - exists cmds, a. split; [by split; rewrite ?Hsame|]. rewrite <- (app_nil_r cmds) at 2.
    apply cut_before_grows; [cbn; lia|done].
Qed.

(** A rewrite of the log. *)
Lemma stored_eternal c kv : steadfast c → kv ∈ store_entries c → e_expiry kv.2 = None.
Proof.
  intros [[Hwf _] He] Hin. destruct kv as [k e]. apply (elem_of_store_entries c k e HP Hwf) in Hin.
  destruct (He k (e_value e) (e_expiry e)); [|done]. by rewrite contents_lookup, Hin.
Qed.

Lemma restarted_eternal now now0 db : eternal db → restarted now now0 db = db.
Proof.
  intros He. apply map_eq. intros k. unfold restarted. rewrite lookup_omap.
  destruct (db !! k) as [[v x]|] eqn:Hk; [|done]. destruct (He _ _ _ Hk) as [-> Hv]. cbn. by rewrite Hv.
Qed.

Lemma rewrite_yields c :
  steadfast c → yields (store_commands (system_time (ticks c)) (store_entries c)) (contents c).
Proof.
  intros Hc now s Hn Hf. set (t := system_time (ticks c)).
  destruct (agree_eternal now (core (run_commands now (store_commands t (store_entries c)) s)) (contents c))
    as [_ H]; [|apply Hc|exact H].
  rewrite <- (restarted_eternal now t (contents c)) by apply Hc.
  rewrite <- (rebased_db now t c (contents c) HP) by (apply agree_sim, sound_agree, Hc).
  apply exec_store; try done.
  - apply Forall_forall. intros kv Hkv x. by rewrite (stored_eternal c).
  - apply NoDup_store_entries; [done|apply Hc].
  - by apply fresh_agree.
Qed.

Lemma value_command_lasting k v : lasting (value_command k v).
Proof.
  destruct v as [v|h]; (split; [by repeat constructor|]); [done|]. intros Hn. by vm_compute in Hn.
Qed.

Lemma store_commands_lasting c now : steadfast c → Forall lasting (store_commands now (store_entries c)).
Proof.
  intros Hc. unfold store_commands. apply Forall_concat, Forall_map, Forall_forall.
  intros kv [_ Hkv]%list_elem_of_filter. unfold entry_commands. rewrite (stored_eternal c kv Hc Hkv).
  apply List.Forall_cons; [apply value_command_lasting|apply List.Forall_nil].
Qed.

Lemma tracked_rewrite policy s s' cmds a :
  let c := core s in
  tracked policy s cmds a → Forall loggable (store_commands (system_time (ticks c)) (store_entries c)) →
  AOF s' = Some (rewrite a c).1.2 → steadfast (core s') → contents (core s') = contents c →
  ∃ cmds' a', tracked policy s' cmds' a' ∧ cut_before cmds a cmds' a'.
Proof.
  intros c [Hst Haof Hok Hfree _ _] Hlog Ha' Hs' Hc'.
  assert (Forall (λ kv, ∀ x, e_expiry kv.2 = Some x → is_u64 x) (store_entries c)) as Hx.
  { apply Forall_forall. intros kv Hkv x. by rewrite (stored_eternal c). }
  exists (store_commands (system_time (ticks c)) (store_entries c)), (rewrite a c).1.2. split.
  - split; [done|done|by eapply aof_ok_rewrite|by rewrite rewrite_file|by apply store_commands_lasting|].
    rewrite Hc'. by apply rewrite_yields.
  - apply cut_before_whole; [done|]. by rewrite rewrite_file.
Qed.

(** What the background tasks do to the log. *)
Lemma job_log j s :
  AOF (run_job j s).2 = AOF s ∨ ∃ a, AOF s = Some a ∧ AOF (run_job j s).2 = Some (rewrite a (core s)).1.2.
Proof.
  destruct j; cbn [run_job].
  - left. apply (aof_save (set_saving false s)).
  - unfold mbind, SM_bind. cbn. destruct (AOF s) as [a|] eqn:E; [right|by left]. by exists a.
Qed.

Definition may_rewrite (e : Event) : bool :=
  match e with JobRun | RewriteTick => true | _ => false end.

Lemma background_log e s :
  match e with Command _ _ _ _ => True | _ =>
    AOF (run_event e s).2 = AOF s ∨
    (∃ a, AOF s = Some a ∧ AOF (run_event e s).2 = Some (everysec_tick a)) ∨
    (may_rewrite e = true ∧ ∃ a, AOF s = Some a ∧ AOF (run_event e s).2 = Some (rewrite a (core s)).1.2) end.
Proof.
  destruct e; try done; unfold run_event, mbind, SM_bind; cbn.
  - by left.
  - unfold run_next_job, mbind, SM_bind. cbn. destruct (jobs s) as [|j js]; [by left|].
    destruct (job_log j (set_jobs js s)) as [H|H]; [by left|by right; right].
  - left. unfold snapshot_tick. destruct (_ && _); [apply aof_save|done].
  - destruct (AOF s) as [a|] eqn:E; cbn; [|by left]. case_bool_decide; [right; left|by left]. by exists a.
  - unfold rewrite_tick, mbind, SM_bind. cbn. destruct (AOF s) as [a|] eqn:E; [|by left].
    destruct (_ && _); [|by left]. rewrite <- E.
    destruct (job_log BgRewrite s) as [H|H]; [by left|by right; right].
Qed.

(** Sessions whose commands are lasting.  What a rewrite writes has sizes that fit in 64
    bits. *)
Definition lasting_event (e : Event) (s : Server) : Prop :=
  match e with
  | Command command _ _ now => 0 ≤ now ∧ lasting command ∧ loggable command
  | JobRun | RewriteTick =>
      Forall loggable (store_commands (system_time (ticks (core s))) (store_entries (core s)))
  | ExpireTick | SnapshotTick | SyncTick => True
  end.

Fixpoint lasting_session (es : list Event) (s : Server) : Prop :=
  match es with
  | [] => True
  | e :: es => lasting_event e s ∧ lasting_session es (run_event e s).2
  end.

Lemma background_steadfast e s :
  match e with Command _ _ _ _ => False | _ => True end → steadfast (core s) →
  steadfast (core (run_event e s).2) ∧ contents (core (run_event e s).2) = contents (core s).
Proof.
  intros He [Hs Hc]. destruct (event_contents HP e s) as [Hsp Hs']; [by destruct e|done|].
  assert (contents (core (run_event e s).2) = contents (core s)) as Heq.
  { destruct e; try done; destruct Hsp as [_ Hsp]; try done.
    destruct Hsp as (t & _ & Hf). by eapply eternal_forgets. }
  split; [|done]. split; [done|]. by rewrite Heq.
Qed.

Lemma tracked_same policy s s' cmds a a' :
  tracked policy s cmds a → AOF s' = Some a' → a' = a ∨ a' = sync a →
  steadfast (core s') → contents (core s') = contents (core s) →
  ∃ cmds' a', tracked policy s' cmds' a' ∧ cut_before cmds a cmds' a'.
Proof.
  intros [Hst Haof Hok Hfree Hlast Hy] Ha' Hcase Hs' Hc'. exists cmds, a'. split.
  - split; [done|done| | |done|by rewrite Hc']; destruct Hcase as [->| ->]; try done. by apply aof_ok_sync.
  - rewrite <- (app_nil_r cmds) at 2. apply cut_before_grows; [cbn; lia|].
    destruct Hcase as [->| ->]; [done|]. cbn. by apply prefix_app_r.
Qed.

Lemma tracked_background policy s s' cmds a (rw : bool) :
  tracked policy s cmds a →
  (rw = true → Forall loggable (store_commands (system_time (ticks (core s))) (store_entries (core s)))) →
  AOF s' = AOF s ∨ (∃ a, AOF s = Some a ∧ AOF s' = Some (everysec_tick a)) ∨
    (rw = true ∧ ∃ a, AOF s = Some a ∧ AOF s' = Some (rewrite a (core s)).1.2) →
  steadfast (core s') ∧ contents (core s') = contents (core s) →
  ∃ cmds' a', tracked policy s' cmds' a' ∧ cut_before cmds a cmds' a'.
Proof.
  intros Htr Hl Hlog [Hs' Hc']. rewrite (tr_aof _ _ _ _ Htr) in Hlog.
  destruct Hlog as [Ha|[(b & [= <-] & Ha)|(Hr & b & [= <-] & Ha)]].
  - exact (tracked_same policy s _ cmds a a Htr Ha (or_introl eq_refl) Hs' Hc').
  - refine (tracked_same policy s _ cmds a _ Htr Ha _ Hs' Hc'). unfold everysec_tick. destruct (dirty a); auto.
  - exact (tracked_rewrite policy s _ cmds a Htr (Hl Hr) Ha Hs' Hc').
Qed.

Lemma tracked_event policy s cmds a e :
  tracked policy s cmds a → lasting_event e s →
  ∃ cmds' a', tracked policy (run_event e s).2 cmds' a' ∧ cut_before cmds a cmds' a'.
Proof.
  intros Htr Hl. pose proof (background_log e s) as Hlog. pose proof (background_steadfast e s) as Hst.
  destruct e as [command w st now| | | | |];
    [destruct Hl as (Hn & Hl & Hlg); by eapply tracked_command|..].
  all: refine (tracked_background policy s _ cmds a _ Htr _ Hlog (Hst I (tr_store _ _ _ _ Htr))).
  all: intros Hr; first [discriminate Hr | exact Hl].
Qed.

(** Every cut of the file behind what is synced satisfies [Q]. *)
Definition cuts (Q : list (list bytes) → Prop) (cmds : list (list bytes)) (a : Aof) : Prop :=
  ∀ n, (n ≤ length cmds)%nat → aof_disk a `prefix_of` concat (map frame (take n cmds)) → Q (take n cmds).

(** A session leads to a tracked state, and so it was whenever the log was what a crash
    may leave. *)
Lemma tracked_events policy (past : list (list bytes) → Prop) es s cmds a :
  tracked policy s cmds a → lasting_session es s → cuts past cmds a →
  ∃ cmds' a', tracked policy (run_events es s).2 cmds' a' ∧
    cuts (λ l, past l ∨ ∃ es1 a1, es1 `prefix_of` es ∧ tracked policy (run_events es1 s).2 l a1) cmds' a'.
Proof.
  revert past s cmds a. induction es as [|e es IH]; intros past s cmds a Htr Hses Hpast.
  { exists cmds, a. split; [done|]. intros n Hn Hd. left. by apply Hpast. }
  destruct Hses as [He Hses]. destruct (tracked_event policy s cmds a e Htr He) as (cmds1 & a1 & Htr1 & Hcut).
  destruct (IH (λ l, past l ∨ ∃ a1, tracked policy (run_event e s).2 l a1) _ _ _ Htr1 Hses)
    as (cmds' & a' & Htr' & Hall).
  { intros n Hn Hd. destruct (decide (n = length cmds1)) as [->|Hne].
    - right. exists a1. by rewrite firstn_all.
    - left. destruct (Hcut n ltac:(lia) Hd) as (Hn' & -> & Hd'). by apply Hpast. }
  exists cmds', a'. split; [done|]. intros n Hn Hd. destruct (Hall n Hn Hd) as [[?|[a2 H2]]|(es1 & a2 & Hes & H2)].
  - by left.
  - right. exists [e], a2. split; [|done]. apply (prefix_cons e [] es), prefix_nil.
  - right. exists (e :: es1), a2. split; [by apply prefix_cons|done].
Qed.

(** ** Startup *)

Section Restart.
Context (policy : FsyncPolicy).
Context (Hshards : 0 < cfg_num_shards (server CONFIG)).
Context (Haof : aof_enabled (persistence CONFIG) = true).
Context (Hpolicy : fsync_parse (aof_fsync (persistence CONFIG)) = Ok policy).

(** A log file of lasting commands; no file is an empty one. *)
Definition lasting_file (file : option bytes) (cmds : list (list bytes)) : Prop :=
  Forall lasting cmds ∧ Forall loggable cmds ∧
  default [] file = concat (map frame cmds) ∧ len (default [] file) < U64_MOD.

Lemma restart_from cmds snapshot j :
  no_snapshot snapshot → Forall lasting cmds → Forall loggable cmds →
  ∃ s, start snapshot (Some (concat (map frame cmds))) j = Ok s ∧ steadfast (core s) ∧
       AOF s = Some (aof_open (concat (map frame cmds)) policy) ∧ yields cmds (contents (core s)).
Proof.
  intros Hsnap Hl Hlog. rewrite (start_from policy) by done. cbv zeta.
  set (s0 := set_core _ _). assert (fresh (core s0)) as Hf by by apply fresh_tick, fresh_boot.
  clearbody s0. destruct (fresh_steadfast _ Hf) as [H0 E0]. pose proof (system_time_u64 j) as [Hj _].
  rewrite replay_frames; [|done| |].
  - cbn [fst snd]. eexists. split; [reflexivity|].
    split; [exact (proj1 (rerun cmds _ _ s0 s0 Hl Hj Hj H0 H0 eq_refl))|]. split; [reflexivity|].
    intros now s' Hn Hf'. destruct (fresh_steadfast _ Hf') as [H1 E1].
    exact (proj2 (proj2 (rerun cmds _ now s0 s' Hl Hj Hn H0 H1 (eq_trans E1 (eq_sym E0))))).
  - apply Forall_true. intros. apply stays_authenticated.
  - pose proof (frames_length cmds). lia.
Qed.

Lemma start_tracked file cmds snapshot i s :
  lasting_file file cmds → no_snapshot snapshot → start snapshot file i = Ok s →
  ∃ a, tracked policy s cmds a ∧ aof_disk a = concat (map frame cmds).
Proof.
  intros (Hl & Hlog & Hfile & Hlen) Hsnap Hs. destruct file as [f|]; cbn [default] in Hfile, Hlen; unfold id in *.
  - subst f. destruct (restart_from cmds snapshot i Hsnap Hl Hlog) as (s' & Hs' & Hst & Ha & Hy).
    rewrite Hs in Hs'. injection Hs' as <-. exists (aof_open (concat (map frame cmds)) policy).
    split; [|done]. split; try done. by apply aof_open_ok.
  - assert (cmds = []) as ->.
    { pose proof (frames_length cmds) as H. rewrite <- Hfile in H. by destruct cmds; [|cbn in H; lia]. }
    unfold start in Hs. cbv zeta in Hs. rewrite start_store_none in Hs by done.
    unfold start_aof in Hs. rewrite Haof, Hpolicy in Hs. injection Hs as <-.
    destruct (fresh_steadfast _ (fresh_boot snapshot i Hshards)) as [Hst Hc].
    exists (aof_open [] policy). split; [|done]. split; [exact Hst|reflexivity| |done|done|].
    + by apply (aof_open_ok policy []).
    + intros now s' _ Hf. destruct (fresh_steadfast _ Hf) as [_ He]. exact (eq_trans He (eq_sym Hc)).
Qed.

Lemma restart_tracked s cmds a snapshot j :
  tracked policy s cmds a → no_snapshot snapshot →
  ∃ s', start snapshot (Some (concat (map frame cmds))) j = Ok s' ∧ contents (core s') = contents (core s).
Proof.
  intros Htr Hsnap. destruct (restart_from cmds snapshot j Hsnap) as (s' & Hs' & _ & _ & Hy);
    [apply Htr|apply (tr_ok _ _ _ _ Htr)|]. exists s'. split; [done|].
  pose proof (fresh_boot None 0 Hshards) as Hf.
  rewrite <- (Hy 0 (boot None 0) (Z.le_refl 0) Hf). by apply (tr_yields _ _ _ _ Htr).
Qed.

Lemma restart_torn cmds r e snapshot j :
  no_snapshot snapshot → Forall loggable cmds → next_command r = Err e →
  start snapshot (Some (concat (map frame cmds) ++ r)) j = Err (CorruptAof e).
Proof.
  intros Hsnap Hl He. rewrite (start_from policy) by done. cbv zeta. rewrite (replay_torn cmds r e); [done|done| |done|].
  - apply Forall_true. intros. apply stays_authenticated.
  - rewrite length_app. pose proof (frames_length cmds). lia.
Qed.

(** At the start the file is all synced. *)
Lemma session_tracked file cmds snapshot i es s :
  lasting_file file cmds → no_snapshot snapshot → start snapshot file i = Ok s → lasting_session es s →
  ∃ cmds' a, tracked policy (run_events es s).2 cmds' a ∧
    cuts (λ l, ∃ es1 a1, es1 `prefix_of` es ∧ tracked policy (run_events es1 s).2 l a1) cmds' a.
Proof.
  intros Hfile Hsnap Hs Hses. destruct (start_tracked file cmds snapshot i s Hfile Hsnap Hs) as (a0 & Htr0 & Hd0).
  destruct (tracked_events policy (λ l, tracked policy s l a0) es s cmds a0 Htr0 Hses) as (cmds' & a & Htr & Hall).
  { intros n Hn Hd. pose proof (cut_before_whole cmds a0 cmds a0) as H.
    destruct (decide (n = length cmds)) as [->|Hne]; [by rewrite firstn_all|].
    destruct Hd as [x Hx]. rewrite Hd0 in Hx.
    assert (length cmds ≤ n)%nat; [|lia].
    apply (frames_whole cmds n [] _ x); [apply Hfile|lia|by left|by rewrite app_nil_r, firstn_all]. }
  exists cmds', a. split; [done|]. intros n Hn Hd. destruct (Hall n Hn Hd) as [H|H]; [|done].
  exists [], a0. split; [apply prefix_nil|done].
Qed.

(** C7: the log restores the database.  Start a server on a log of lasting commands (an
    empty one, or what an earlier session left), and let clients run any lasting commands at
    any times, in any interleaving with expiry rounds, log syncs, rewrites of the log
    ([BGREWRITEAOF] and the automatic ones) and background jobs, each event run to its end
    before the next.  A command is lasting if it sets no expiry time and does not flush the
    database.  There is no memory limit, and no snapshot is loaded: snapshots are disabled, or
    none exists at the end.  Then syncing the log (as every shutdown does) and starting
    a new process from the file, at any time, succeeds, and its store holds exactly the
    database the server held: the same keys with the same values and types. *)
Theorem log_restores file cmds snapshot es i s j :
  lasting_file file cmds → no_snapshot snapshot → start snapshot file i = Ok s → lasting_session es s →
  let s1 := (run_events es s).2 in
  no_snapshot (snapshot_at_path s1) →
  ∃ a s', AOF s1 = Some a ∧ start (snapshot_at_path s1) (Some (aof_disk (sync a))) j = Ok s' ∧
    contents (core s') = contents (core s1).
Proof.
  intros Hfile Hsnap Hs Hses s1 Hsnap1.
  destruct (session_tracked file cmds snapshot i es s Hfile Hsnap Hs Hses) as (cmds' & a & Htr & _).
  destruct (restart_tracked _ _ _ _ j Htr Hsnap1) as (s' & Hs' & Hr).
  exists a, s'. split; [apply Htr|]. split; [|done].
  assert (aof_disk (sync a) = concat (map frame cmds')) as ->; [|done].
  rewrite <- (aof_ok_log _ _ _ (tr_ok _ _ _ _ Htr)). by destruct (sync_log a) as (<- & _ & _ & -> & _).
Qed.

(** C8: a crash loses a tail of the session and nothing else.  Take a session as in
    [log_restores]: lasting commands at any times beside expiry rounds, log syncs,
    rewrites of the log and background jobs, without a memory limit and without a snapshot
    to load.  The machine stops between two events, and of the bytes written to the log
    since its last sync some prefix reached the disk.  A new process started from the file
    at any time either refuses it, because it ends inside a frame, or its store holds exactly
    the database the server held at a moment of the session when its log was the bytes found.
    Under [always], and under the other policies when nothing was logged since the last
    sync, it starts and holds the database the server held at the end. *)
Theorem crash_restores file cmds snapshot es i s j a f :
  lasting_file file cmds → no_snapshot snapshot → start snapshot file i = Ok s → lasting_session es s →
  let s1 := (run_events es s).2 in
  let snap := snapshot_at_path s1 in
  no_snapshot snap → AOF s1 = Some a → crash_image a f →
  ((∃ e, start snap (Some f) j = Err (CorruptAof e)) ∨
   ∃ es1 a1 s', es1 `prefix_of` es ∧ AOF (run_events es1 s).2 = Some a1 ∧ aof_log_bytes a1 = f ∧
     start snap (Some f) j = Ok s' ∧ contents (core s') = contents (core (run_events es1 s).2)) ∧
  (policy = Always ∨ dirty a = false →
   ∃ s', start snap (Some f) j = Ok s' ∧ contents (core s') = contents (core s1)).
Proof.
  intros Hfile Hsnap Hs Hses s1 snap Hsnap1 Ha (x & q & Hk & ->).
  destruct (session_tracked file cmds snapshot i es s Hfile Hsnap Hs Hses) as (cmds' & a' & Htr & Hall).
  pose proof (tr_aof _ _ _ _ Htr) as Ha'. assert (a' = a) as -> by (unfold s1 in Ha; congruence).
  pose proof (tr_ok _ _ _ _ Htr) as Hok. split.
  - destruct (frames_cut cmds' (aof_disk a ++ x) (q ++ aof_buf a)) as (n & r & Hle & Hf & Hr); [apply Hok| |].
    { rewrite <- (aof_ok_log _ _ _ Hok). unfold aof_log_bytes. rewrite Hk. by rewrite <- !app_assoc. }
    destruct Hr as [->|[e He]].
    + right. rewrite app_nil_r in Hf. destruct (Hall n Hle) as (es1 & a1 & Hes1 & Htr1).
      { rewrite <- Hf. by apply prefix_app_r. }
      destruct (restart_tracked _ _ _ _ j Htr1 Hsnap1) as (s' & Hs' & Hres). rewrite Hf. exists es1, a1, s'.
      split_and!; [done|apply Htr1|apply (tr_ok _ _ _ _ Htr1)|done|done].
    + left. exists e. rewrite Hf. apply restart_torn; [done|apply Forall_take, Hok|done].
  - intros Hd. rewrite (aof_ok_synced _ _ _ _ _ Hok Hk Hd). by apply (restart_tracked _ _ _ _ j Htr).
Qed.
End Restart.
End Steady.

Section Examples.
#[local] Existing Instance demo_platform.
#[local] Existing Instance demo_durable.
#[local] Existing Instance demo_bincode.

Definition booted : Server := match start None None 0 with Ok s => s | Err _ => boot None 0 end.

(** The log is rewritten after the first command; the last command comes with the earliest
    time. *)
Definition log_demo_events : list Event := [
  Command [bs "INCRBY"; bs "n"; bs "41"] [] connection_new 2000; SyncTick;
  Command [bs "BGREWRITEAOF"] [] connection_new 2000; JobRun;
  Command [bs "incr"; bs "n"] [] connection_new 2001; ExpireTick;
  Command [bs "set"; bs "k"; bs "v"; bs "NX"] [] connection_new 2001;
  Command [bs "HSET"; bs "h"; bs "f"; bs "x"] [] connection_new 1999].

Lemma log_demo_session : lasting_session log_demo_events booted.
Proof.
  unfold log_demo_events. cbn [lasting_session].
  repeat lazymatch goal with |- _ ∧ _ => split | |- True => exact I end.
  all: try (lazymatch goal with |- lasting_event (Command _ _ _ _) _ =>
              split; [lia|split; [split; [by repeat constructor|done]|by repeat constructor]] end).
  all: try exact I.
  cbn [lasting_event].
  replace (store_commands _ _) with [[bs "SET"; bs "n"; bs "41"]] by (vm_compute; reflexivity).
  by repeat constructor.
Qed.

Lemma empty_lasting : lasting_file None [].
Proof. done. Qed.

Lemma log_restores_witness :
  let s1 := (run_events log_demo_events booted).2 in
  ∃ a s', AOF s1 = Some a ∧ start (snapshot_at_path s1) (Some (aof_disk (sync a))) 9 = Ok s' ∧
    contents (core s') = contents (core s1).
Proof.
  apply (@log_restores demo_platform demo_durable eq_refl demo_bincode demo_platform_ok Always
           eq_refl eq_refl eq_refl None [] None log_demo_events 0 booted 9).
  - exact empty_lasting.
  - by right.
  - reflexivity.
  - exact log_demo_session.
  - right. vm_compute. reflexivity.
Defined.

(** The machine stops after the session, under [always]: the file is the whole log. *)
Lemma crash_restores_witness :
  let s1 := (run_events log_demo_events booted).2 in
  let snap := snapshot_at_path s1 in
  match AOF s1 with
  | Some a =>
      let f := aof_disk a in
      ((∃ e, start snap (Some f) 9 = Err (CorruptAof e)) ∨
       ∃ es1 a1 s', es1 `prefix_of` log_demo_events ∧ AOF (run_events es1 booted).2 = Some a1 ∧
         aof_log_bytes a1 = f ∧ start snap (Some f) 9 = Ok s' ∧
         contents (core s') = contents (core (run_events es1 booted).2)) ∧
      (Always = Always ∨ dirty a = false →
       ∃ s', start snap (Some f) 9 = Ok s' ∧ contents (core s') = contents (core s1))
  | None => False
  end.
Proof.
  intros s1 snap. destruct (AOF s1) as [a|] eqn:Ha; [cbv zeta|by vm_compute in Ha].
  apply (@crash_restores demo_platform demo_durable eq_refl demo_bincode demo_platform_ok Always
           eq_refl eq_refl eq_refl None [] None log_demo_events 0 booted 9 a (aof_disk a)).
  - exact empty_lasting.
  - by right.
  - reflexivity.
  - exact log_demo_session.
  - right. vm_compute. reflexivity.
  - exact Ha.
  - exists [], (aof_kernel a). rewrite app_nil_r. exact (conj eq_refl eq_refl).
Defined.

(** One key, then [FLUSHALL]. *)
Definition flushed : Server :=
  (run_events [Command [bs "SET"; bs "k"; bs "v"] [] connection_new 2000;
               Command [bs "FLUSHALL"] [] connection_new 2001] booted).2.

(** A flushed database comes back.  [FLUSHALL] (like [FLUSHDB]) is not written to the
    log: the running server has no key left, but a process started from its log has the
    keys that were set before. *)
Theorem flush_comes_back :
  live 2001 (core flushed) (bs "k") = None ∧
  match AOF flushed with
  | Some a =>
      match start None (Some (aof_disk (sync a))) 9 with
      | Ok s => live 2001 (core s) (bs "k") = Some (EV_String (bs "v"), None)
      | Err _ => False
      end
  | None => False
  end.
Proof. split; vm_compute; reflexivity. Qed.
End Examples.
