(* ===== verification/BufferPool.v ===== *)
(** * The buffer pool ([get_buffer] and [return_buffer] of [src/store.rs], and
    [RespWriter::new] and its [Drop] in [src/protocol.rs])

    Reply buffers are recycled: a connection's writer takes one from a global queue
    and its destructor gives it back.  No reply may reach another connection through
    it, and the queue must not grow without bound. *)

From S2P Require Import Prelude Config State Demo.

(** A [Vec<u8>]: its contents and its capacity. *)
Record Buffer := mkBuffer { contents : bytes; capacity : Z }.

Section Pool.
Context {CFG : HasConfig}.
(** The capacity [Vec::with_capacity] provides for a request. *)
Context (with_capacity : Z → Z).

Definition new_buffer : Buffer := mkBuffer [] (with_capacity (buffer_size (server CONFIG))).

(** [BUFFER_POOL], a FIFO queue, as it is initialised. *)
Definition BUFFER_POOL : list Buffer :=
  replicate (Z.to_nat (buffer_pool_size (server CONFIG))) new_buffer.

Definition get_buffer (pool : list Buffer) : Buffer * list Buffer :=
  match pool with
  | buf :: pool => (buf, pool)
  | [] => (new_buffer, [])
  end.

Definition return_buffer (buf : Buffer) (pool : list Buffer) : list Buffer :=
  let buf := mkBuffer [] (capacity buf) in
  let size := buffer_size (server CONFIG) in
  if capacity buf <=? usize (size * 2) then pool ++ [buf]
  else if (capacity buf <=? usize (size * 4)) &&
          (len pool <? buffer_pool_size (server CONFIG) / 4)
  then pool ++ [buf]
  else pool.

(** ** Writers of many connections *)

(** The pool and the buffers of the writers that are alive. *)
Abbreviation PoolState := (list Buffer * list Buffer)%type.

Inductive pool_step : PoolState → PoolState → Prop :=
| writer_new pool ws :                             (* [RespWriter::new] *)
    pool_step (pool, ws) ((get_buffer pool).2, ws ++ [(get_buffer pool).1])
| writer_write pool ws i b b' :                    (* replies are appended, or sent *)
    ws !! i = Some b → pool_step (pool, ws) (pool, <[i:=b']> ws)
| writer_drop pool ws ws' b :                      (* [Drop] *)
    ws ≡ₚ b :: ws' → pool_step (pool, ws) (return_buffer b pool, ws').

(** A run in which at most [n] writers are alive at any time. *)
Inductive pool_run (n : Z) : PoolState → Prop :=
| run_init : pool_run n (BUFFER_POOL, [])
| run_step s s' : pool_run n s → pool_step s s' → len s'.2 ≤ n → pool_run n s'.

Definition pool_limit (n : Z) : Z := Z.max (buffer_pool_size (server CONFIG)) n.

Definition clean (b : Buffer) : Prop := contents b = [].

Lemma get_buffer_clean pool :
  Forall clean pool → clean (get_buffer pool).1 ∧ Forall clean (get_buffer pool).2.
Proof. by destruct 1. Qed.

Lemma return_buffer_clean b pool : Forall clean pool → Forall clean (return_buffer b pool).
Proof.
  intros Hp. unfold return_buffer. cbn [capacity]. destruct (_ <=? _); [|destruct (_ && _); [|done]];
    (apply Forall_app; split; [done|]; by apply Forall_singleton).
Qed.

Lemma get_buffer_len pool : len (get_buffer pool).2 = Z.max 0 (len pool - 1).
Proof. destruct pool as [|b pool]; cbn; [done|]. rewrite len_cons. pose proof (len_nonneg pool). lia. Qed.

Lemma return_buffer_len b pool : len (return_buffer b pool) ≤ len pool + 1.
Proof.
  assert (len (pool ++ [mkBuffer [] (capacity b)]) = len pool + 1) as E
    by (rewrite len_app, len_cons, len_nil; lia).
  unfold return_buffer. cbn [capacity]. destruct (_ <=? _); [lia|]. destruct (_ && _); lia.
Qed.

Lemma pool_run_ok n s :
  0 ≤ buffer_pool_size (server CONFIG) → pool_run n s →
  Forall clean s.1 ∧ len s.1 + len s.2 ≤ pool_limit n.
Proof.
  intros H0. unfold pool_limit. induction 1 as [|s s' _ [Hp Hl] Hst Hn]; cbn [fst snd] in *.
  - split.
    + by apply Forall_replicate.
    + unfold BUFFER_POOL, len. rewrite length_replicate. cbn. lia.
  - inversion Hst as [pool ws|pool ws i b b' Hi|pool ws ws' b Hws]; subst; cbn [fst snd] in *.
    + split; [by apply get_buffer_clean|]. rewrite get_buffer_len.
      unfold len in *. rewrite !length_app in *. cbn [length] in *. lia.
    + split; [done|]. unfold len in *. by rewrite length_insert.
    + split; [by apply return_buffer_clean|]. pose proof (return_buffer_len b pool).
      assert (len ws = len ws' + 1) by (unfold len; rewrite (Permutation_length Hws); cbn; lia). lia.
Qed.

(** C37: recycled buffers leak nothing and do not pile up.  Whatever connections open,
    write and close, in any order: the buffer the next writer gets is empty, so no byte of
    a reply reaches another connection; and if at most [n] writers are ever alive at
    once, pooled buffers and live writers together are at most the larger of [n] and
    [buffer_pool_size]. *)
Theorem pool_recycles_clean n pool ws :
  0 ≤ buffer_pool_size (server CONFIG) → pool_run n (pool, ws) →
  contents (get_buffer pool).1 = [] ∧ Forall (λ b, contents b = []) pool ∧
  len pool + len ws ≤ pool_limit n.
Proof.
  intros H0 Hr. destruct (pool_run_ok n _ H0 Hr) as [Hp Hl].
  split_and!; [by apply get_buffer_clean|done..].
Qed.
End Pool.

Section Example.
#[local] Existing Instance demo_default.

Lemma pool_recycles_clean_witness :
  let pool := return_buffer (mkBuffer (bs "+OK") 16384) (drop 1 (BUFFER_POOL id)) in
  contents (get_buffer id pool).1 = [] ∧ Forall (λ b, contents b = []) pool ∧
  len pool + len ([] : list Buffer) ≤ pool_limit 1.
Proof.
  apply (pool_recycles_clean id 1 _ []); [by vm_compute|].
  eapply run_step; [eapply run_step; [eapply run_step; [apply run_init|apply writer_new|by vm_compute]|
    apply (writer_write id _ _ 0%nat (new_buffer id) (mkBuffer (bs "+OK") 16384)); reflexivity|by vm_compute]|
    apply (writer_drop id _ _ [] (mkBuffer (bs "+OK") 16384)); reflexivity|by vm_compute].
Defined.
End Example.
