(* ===== verification/Connection.v ===== *)
(** * Connections ([handle_connection] and the accept loop of [src/main.rs], the
    rate limiter and the health endpoint of [src/server.rs])

    A connection reads commands from its socket, executes them and sends the
    replies in batches.  The socket is the list of what its reads return: data, or
    an end of the connection by an error, the idle timeout or the shutdown signal;
    after the list, reads return end of file.  Writes succeed until a given point. *)

From S2P Require Import Prelude Decimal Protocol Config S3Fifo State Store Scan Eviction.
From S2P Require Import Handlers HandlerSpec Aof Snapshot Server Demo.

(** ** The connection loop *)

Record Conn := mkConnection {
  parser : bytes;                 (* the parser's buffer *)
  stream : list ReadEvent;
  writer : bytes;                 (* the writer's buffer *)
  state : ConnectionState;
  batch_count : Z;
  sent : bytes;                   (* what the socket has accepted *)
  writes_ok : bool
}.

(** [LAST_RATE_CHECK] and [CONNECTIONS_THIS_SECOND]. *)
Record RateLimit := mkRateLimit { LAST_RATE_CHECK : Z; CONNECTIONS_THIS_SECOND : Z }.

Section Connection.
Context {P : Platform} {CFG : HasConfig} {B : Bincode}.

(** One turn of the loop of [handle_connection] after [now] was taken: the wait for the next
    command, however long, with at most [pfuel] reads, and its execution.  It ends with
    [waiting] when the reads are used up, with [break] or with the next turn. *)
Definition serve_at {A : Type} (pfuel : nat) (waiting : A) (break continue : Conn → SM A)
    (now : Z) (k : Conn) : SM A :=
  match parse_command pfuel (parser k) (stream k) with
  | None => mret waiting
  | Some (Err _) => break k
  | Some (Ok (command, buffer, stream)) =>
      r ← execute_command command (writer k) (state k) now;
      let batch_count := batch_count k + 1 in
      if (batch_size (server CONFIG) <=? batch_count) || should_flush r.1 ||
         negb (has_buffered_data buffer)
      then
        let '(result, w, sent) := flush (writes_ok k) r.1 (sent k) in
        let k := mkConnection buffer stream w r.2 0 sent (writes_ok k) in
        match result with
        | Ok _ => continue k
        | Err _ => break k
        end
      else continue (mkConnection buffer stream r.1 r.2 batch_count (sent k) (writes_ok k))
  end.

(** The loop, [fuel] commands and [pfuel] reads per command at most; [None] when it is still
    running. *)
Fixpoint connection_loop (fuel pfuel : nat) (k : Conn) : SM (option Conn) :=
  match fuel with
  | O => mret None
  | S fuel =>
      now ← lift get_timestamp;
      serve_at pfuel None (λ k, mret (Some k)) (connection_loop fuel pfuel) now k
  end.

(** The thread's remaining command count is added to the global one. *)
Definition flush_count : SM unit :=
  modify_s (λ s, if 0 <? LOCAL_CMD_COUNT s
                 then set_counts (u64 (TOTAL_COMMANDS s + LOCAL_CMD_COUNT s)) 0 s else s).

(** The counters when a handler begins and when it ends. *)
Definition connected (s : Server) : Server :=
  set_connections (u64 (TOTAL_CONNECTIONS s + 1)) (usize (ACTIVE_CONNECTIONS s + 1))
    (REJECTED_CONNECTIONS s) s.
Definition disconnected (s : Server) : Server :=
  set_connections (TOTAL_CONNECTIONS s) (usize (ACTIVE_CONNECTIONS s - 1)) (REJECTED_CONNECTIONS s) s.

(** The end of [handle_connection], after its loop: what was sent. *)
Definition hang_up (k : Conn) : SM bytes :=
  flush_count;;
  let '(_, _, sent) := flush (writes_ok k) (writer k) (sent k) in
  modify_s disconnected;;
  mret sent.

(** [handle_connection]: what it sends; [shutting_down] is what its receiver of the
    shutdown signal holds when it begins. *)
Definition handle_connection (shutting_down : bool) (fuel pfuel : nat) (input : list ReadEvent)
    (ok : bool) : SM (option bytes) :=
  modify_s connected;;
  if shutting_down then
    let '(_, _, sent) := flush ok [] [] in modify_s disconnected;; mret (Some sent)
  else
    r ← connection_loop fuel pfuel (mkConnection [] input [] connection_new 0 [] ok);
    match r with
    | None => mret None
    | Some k => sent ← hang_up k; mret (Some sent)
    end.

(** ** Accepting *)

(** [check_rate_limit] at time [now]. *)
Definition check_rate_limit (now : Z) (r : RateLimit) : bool * RateLimit :=
  let rate_limit := connection_rate_limit (server CONFIG) in
  if rate_limit =? 0 then (true, r)
  else if negb (now =? LAST_RATE_CHECK r) then (true, mkRateLimit now 1)
  else (CONNECTIONS_THIS_SECOND r <? rate_limit,
        mkRateLimit now (u64 (CONNECTIONS_THIS_SECOND r + 1))).

(** An accepted socket: whether a handler is spawned for it. *)
Definition accept_connection (r : RateLimit) : SM (bool * RateLimit) :=
  active ← get_s ACTIVE_CONNECTIONS;
  let max := max_connections (server CONFIG) in
  let reject := modify_s (λ s, set_connections (TOTAL_CONNECTIONS s) (ACTIVE_CONNECTIONS s)
                                 (u64 (REJECTED_CONNECTIONS s + 1)) s) in
  if (0 <? max) && (max <=? active) then reject;; mret (false, r)
  else if connection_rate_limit (server CONFIG) =? 0 then mret (true, r)
  else
    now ← lift get_timestamp;
    let '(ok, r) := check_rate_limit now r in
    if ok : bool then mret (true, r) else reject;; mret (false, r).

(** ** The health endpoint *)

Definition health_body (s : Server) : bytes :=
  let q := [x22] in
  let field name n := q ++ bs name ++ q ++ bs ":" ++ fmt_unsigned n in
  bs "{" ++ q ++ bs "status" ++ q ++ bs ":" ++ q ++ bs "healthy" ++ q ++ bs "," ++
  field "active_connections"%string (ACTIVE_CONNECTIONS s) ++ bs "," ++
  field "total_commands"%string (TOTAL_COMMANDS s) ++ bs "," ++
  field "total_connections"%string (TOTAL_CONNECTIONS s) ++ bs "," ++
  field "memory_used"%string (MEMORY_USED (core s)) ++ bs "}".

(** [health_handler]: the response, whatever the request. *)
Record HttpResponse := mkResponse { status : Z; content_type : string; body : bytes }.

Definition health_handler (s : Server) : HttpResponse :=
  mkResponse 200 "application/json" (health_body s).

(** What [start_health_check_server] waits for: a connection, with the server when it is
    served, a failed accept, or the shutdown signal. *)
Inductive HealthEvent := HealthConn (s : Server) | HealthAcceptError | HealthShutdown.

(** The responses it sends; [bound] is whether its port could be bound. *)
Fixpoint health_loop (events : list HealthEvent) : list HttpResponse :=
  match events with
  | [] | HealthShutdown :: _ => []
  | HealthAcceptError :: events => health_loop events
  | HealthConn s :: events => health_handler s :: health_loop events
  end.

Definition start_health_check_server (bound : bool) (events : list HealthEvent) : list HttpResponse :=
  if bound then health_loop events else [].

End Connection.

(** ** Replies are appended *)

(** A writer that only appends. *)
Definition wapp (f : bytes → bytes) : Prop := ∀ w, f w = w ++ f [].

Lemma wapp_compose f g : wapp f → wapp g → wapp (λ w, g (f w)).
Proof. intros Hf Hg w. rewrite (Hg (f w)), (Hg (f [])), Hf. by rewrite <- app_assoc. Qed.

Lemma wapp_id : wapp (λ w, w).
Proof. intros w. by rewrite app_nil_r. Qed.

Lemma wapp_app (d : bytes) : wapp (λ w, w ++ d).
Proof. done. Qed.

Lemma wapp_u64 n : wapp (λ w, write_u64 w n).
Proof.
  intros w. unfold write_u64. destruct (n =? 0); [done|].
  destruct (write_u64_loop 20 n []); [done|by rewrite app_nil_r].
Qed.

Lemma wapp_simple s : wapp (λ w, write_simple_string w s).
Proof. done. Qed.
Lemma wapp_error s : wapp (λ w, write_error w s).
Proof. done. Qed.
Lemma wapp_null : wapp write_null.
Proof. done. Qed.
Lemma wapp_header n : wapp (λ w, write_array_header w n).
Proof.
  apply (wapp_compose (λ w, write_u64 (w ++ bs "*") n) (λ w, w ++ CRLF)); [|done].
  apply (wapp_compose (λ w, w ++ bs "*") (λ w, write_u64 w n)); [done|apply wapp_u64].
Qed.
Lemma wapp_integer n : wapp (λ w, write_integer w n).
Proof.
  apply (wapp_compose (λ w, write_u64 (w ++ bs ":") n) (λ w, w ++ CRLF)); [|done].
  apply (wapp_compose (λ w, w ++ bs ":") (λ w, write_u64 w n)); [done|apply wapp_u64].
Qed.
Lemma wapp_signed n : wapp (λ w, write_signed_integer w n).
Proof.
  unfold write_signed_integer. cbv zeta. destruct (n <? 0).
  - apply (wapp_compose (λ w, write_u64 ((w ++ bs ":") ++ bs "-") _) (λ w, w ++ CRLF)); [|done].
    apply (wapp_compose (λ w, (w ++ bs ":") ++ bs "-") (λ w, write_u64 w _)); [|apply wapp_u64].
    by apply (wapp_compose (λ w, w ++ bs ":") (λ w, w ++ bs "-")).
  - apply (wapp_compose (λ w, write_u64 (w ++ bs ":") n) (λ w, w ++ CRLF)); [|done].
    apply (wapp_compose (λ w, w ++ bs ":") (λ w, write_u64 w n)); [done|apply wapp_u64].
Qed.
Lemma wapp_bulk s : wapp (λ w, write_bulk_string w s).
Proof.
  apply (wapp_compose (λ w, write_u64 (w ++ bs "$") (len s)) (λ w, w ++ CRLF ++ s ++ CRLF)); [|done].
  apply (wapp_compose (λ w, w ++ bs "$") (λ w, write_u64 w (len s))); [done|apply wapp_u64].
Qed.
Lemma wapp_opt o : wapp (λ w, write_opt w o).
Proof. destruct o; [apply wapp_bulk|apply wapp_null]. Qed.

Lemma wapp_fold {A : Type} (g : bytes → A → bytes) l : (∀ x, wapp (λ w, g w x)) → wapp (fold_left g l).
Proof.
  intros Hg. induction l as [|x l IH]; [apply wapp_id|].
  exact (wapp_compose (λ w, g w x) (fold_left g l) (Hg x) IH).
Qed.

Lemma wapp_array l : wapp (λ w, write_array w l).
Proof.
  apply (wapp_compose (λ w, write_array_header w (len l)) (fold_left write_bulk_string l)).
  - apply wapp_header.
  - apply wapp_fold, wapp_bulk.
Qed.

#[export] Hint Resolve wapp_simple wapp_error wapp_null wapp_header wapp_integer wapp_signed wapp_bulk
  wapp_opt wapp_array : redistill.

Section Appends.
Context {P : Platform} {CFG : HasConfig} {B : Bincode}.

(** A handler that only appends its reply, and does the same whatever the buffer
    holds. *)
Definition mapp (h : bytes → M bytes) : Prop := ∀ w c, h w c = (w ++ (h [] c).1, (h [] c).2).

Lemma mapp_ret f : wapp f → mapp (λ w, mret (f w)).
Proof. intros Hf w c. unfold mret, M_ret. cbn. by rewrite Hf. Qed.

Lemma mapp_bind {A : Type} (m : M A) (h : A → bytes → M bytes) :
  (∀ a, mapp (h a)) → mapp (λ w, a ← m; h a w).
Proof. intros Hh w c. apply (Hh (m c).1 w (m c).2). Qed.

Lemma mapp_init h f : mapp h → wapp f → mapp (λ w, h (f w)).
Proof.
  intros Hh Hf w c. rewrite (Hh (f w)), (Hh (f [])), Hf. cbn. by rewrite <- app_assoc.
Qed.

Lemma mapp_chain (h : bytes → M bytes) (g : bytes → M bytes) :
  mapp h → mapp g → mapp (λ w, w' ← h w; g w').
Proof.
  intros Hh Hg w c. unfold mbind, M_bind. cbv zeta. rewrite (Hh w). cbn [fst snd].
  rewrite (Hg (w ++ _)), (Hg (h [] c).1). cbn. by rewrite <- app_assoc.
Qed.

Lemma mapp_mfold {A : Type} (f : bytes → A → M bytes) l :
  (∀ x, mapp (λ w, f w x)) → mapp (λ w, mfold f w l).
Proof.
  intros Hf. induction l as [|x l IH]; [apply mapp_ret, wapp_id|].
  exact (mapp_chain (λ w, f w x) (λ w, mfold f w l) (Hf x) IH).
Qed.

(** Follow a handler to its replies. *)
Ltac appends :=
  repeat first
    [ apply mapp_ret; solve [eauto with redistill | repeat case_match; eauto with redistill]
    | apply mapp_bind; intros ?
    | case_match ].

Lemma mapp_set command now : mapp (λ w, handle_set command w now).
Proof. unfold handle_set. appends. Qed.
Lemma mapp_incr command now delta : mapp (λ w, handle_incr command w now delta).
Proof. unfold handle_incr. appends. Qed.
Lemma mapp_incrby command now : mapp (λ w, handle_incrby command w now).
Proof. unfold handle_incrby. appends. all: apply mapp_incr. Qed.
Lemma mapp_decrby command now : mapp (λ w, handle_decrby command w now).
Proof. unfold handle_decrby. appends. all: apply mapp_incr. Qed.
Lemma mapp_mset command now : mapp (λ w, handle_mset command w now).
Proof. unfold handle_mset. appends. Qed.
Lemma mapp_ttl command now remaining : mapp (λ w, ttl_reply command w now remaining).
Proof. unfold ttl_reply. appends. Qed.
Lemma mapp_expire command now : mapp (λ w, handle_expire command w now).
Proof. unfold handle_expire. appends. Qed.
Lemma mapp_persist command now : mapp (λ w, handle_persist command w now).
Proof. unfold handle_persist. appends. Qed.
Lemma mapp_get command now : mapp (λ w, handle_get command w now).
Proof. unfold handle_get. appends. Qed.
Lemma mapp_del command now : mapp (λ w, handle_del command w now).
Proof. unfold handle_del. appends. Qed.
Lemma mapp_exists command now : mapp (λ w, handle_exists command w now).
Proof. unfold handle_exists. appends. Qed.
Lemma mapp_type command now : mapp (λ w, handle_type command w now).
Proof. unfold handle_type. appends. Qed.
Lemma mapp_hset command now : mapp (λ w, handle_hset command w now).
Proof. unfold handle_hset. appends. Qed.
Lemma mapp_hget command now : mapp (λ w, handle_hget command w now).
Proof. unfold handle_hget. appends. Qed.
Lemma mapp_hgetall command now : mapp (λ w, handle_hgetall command w now).
Proof. unfold handle_hgetall. appends. Qed.
Lemma mapp_hdel command now : mapp (λ w, handle_hdel command w now).
Proof. unfold handle_hdel. appends. Qed.
Lemma mapp_flush : mapp handle_flush.
Proof. unfold handle_flush. appends. Qed.

Lemma mapp_mget command now : mapp (λ w, handle_mget command w now).
Proof.
  unfold handle_mget. appends. apply (mapp_init (λ w, mfold _ w _)); [|apply wapp_header].
  apply mapp_mfold. intros k. appends.
Qed.

Lemma mapp_scan command now : mapp (λ w, handle_scan command w now).
Proof.
  unfold handle_scan. appends. apply mapp_ret. cbv zeta.
  apply (wapp_compose (λ w, write_array_header (write_bulk_string (write_array_header w 2) _) _)
           (fold_left write_bulk_string _)); [|apply wapp_fold, wapp_bulk].
  apply (wapp_compose (λ w, write_bulk_string (write_array_header w 2) _) (λ w, write_array_header w _));
    [|apply wapp_header].
  apply (wapp_compose (λ w, write_array_header w 2) (λ w, write_bulk_string w _));
    [apply wapp_header|apply wapp_bulk].
Qed.

(** ** The dispatch table *)

(** [h] is [h0] with [w] in front of its reply. *)
Definition prefixed (w : bytes) (h h0 : SM (bytes * ConnectionState)) : Prop :=
  ∀ s, h s = ((w ++ (h0 s).1.1, (h0 s).1.2), (h0 s).2).

Lemma prefixed_reply w st h : mapp h → prefixed w (reply st (lift (h w))) (reply st (lift (h []))).
Proof. intros Hh s. unfold reply, lift, mbind, SM_bind. cbv zeta. by rewrite Hh. Qed.

Lemma prefixed_logged w command st h :
  mapp h → prefixed w (logged command st (lift (h w))) (logged command st (lift (h []))).
Proof. intros Hh s. unfold logged, lift, mbind, SM_bind. cbv zeta. by rewrite Hh. Qed.

Lemma prefixed_ret w st f : wapp f → prefixed w (reply st (mret (f w))) (reply st (mret (f []))).
Proof. intros Hf s. unfold reply, mbind, SM_bind. cbv zeta. cbn. by rewrite Hf. Qed.

Lemma prefixed_bind {A : Type} w st (m : SM A) (f : A → bytes → bytes) :
  (∀ a, wapp (f a)) →
  prefixed w (reply st (a ← m; mret (f a w))) (reply st (a ← m; mret (f a []))).
Proof. intros Hf s. unfold reply, mbind, SM_bind. cbv zeta. cbn. by rewrite Hf. Qed.

Lemma prefixed_save w st : prefixed w (reply st (handle_save w)) (reply st (handle_save [])).
Proof.
  unfold handle_save. destruct (negb _); [apply (prefixed_ret w st (λ w, write_error w _)), wapp_error|].
  apply (prefixed_bind w st _ (λ r w, match r with Ok _ => write_simple_string w (bs "OK")
                                                 | Err e => write_error w e end)).
  by intros [].
Qed.

Lemma prefixed_bgsave w st : prefixed w (reply st (handle_bgsave w)) (reply st (handle_bgsave [])).
Proof.
  intros s. unfold handle_bgsave, reply, mbind, SM_bind. destruct (negb _); [done|]. cbn.
  by destruct (SAVE_IN_PROGRESS s).
Qed.

Lemma prefixed_bgrewriteaof w st :
  prefixed w (reply st (handle_bgrewriteaof w)) (reply st (handle_bgrewriteaof [])).
Proof.
  intros s. unfold handle_bgrewriteaof, reply, mbind, SM_bind. cbn.
  destruct (AOF s) as [a|]; [|done]. by destruct (rewrite_in_progress a).
Qed.

Lemma prefixed_info w st : prefixed w (reply st (handle_info w)) (reply st (handle_info [])).
Proof.
  intros s. unfold reply, handle_info, mbind, SM_bind. cbv zeta. cbn [fst snd mret SM_ret].
  by rewrite wapp_bulk.
Qed.

Lemma prefixed_auth command w st : prefixed w (mret (handle_auth command w st)) (mret (handle_auth command [] st)).
Proof.
  intros s. unfold handle_auth. case_bool_decide; [done|]. destruct command as [|? [|? ?]]; try done.
  by case_bool_decide.
Qed.

Lemma prefixed_del command w st now :
  prefixed w (if two_args command then logged command st (lift (handle_del command w now))
              else reply st (mret (write_error w WRONG_ARGS)))
    (if two_args command then logged command st (lift (handle_del command [] now))
     else reply st (mret (write_error [] WRONG_ARGS))).
Proof.
  destruct (two_args command).
  - apply (prefixed_logged w command st (λ w, handle_del command w now)), mapp_del.
  - apply (prefixed_ret w st (λ w, write_error w _)), wapp_error.
Qed.

Ltac table_row :=
  match goal with
  | |- prefixed ?w (reply ?st (lift ?m)) _ =>
      let h := eval pattern w in m in
      match h with ?f _ => apply (prefixed_reply w st f) end
  | |- prefixed ?w (logged ?c ?st (lift ?m)) _ =>
      let h := eval pattern w in m in
      match h with ?f _ => apply (prefixed_logged w c st f) end
  | |- prefixed ?w (reply ?st (mret ?m)) _ =>
      let h := eval pattern w in m in
      match h with ?f _ => apply (prefixed_ret w st f) end
  end.

Lemma table_prefixed command w st now :
  Forall2 (λ h h0, h.1 = h0.1 ∧ prefixed w h.2 h0.2)
    (commands command w st now) (commands command [] st now).
Proof.
  unfold_commands.
  repeat (apply List.Forall2_cons; [split; [reflexivity|cbn [snd]]|]); [..|apply List.Forall2_nil].
  all: auto using prefixed_save, prefixed_bgsave, prefixed_bgrewriteaof, prefixed_info, prefixed_auth,
    prefixed_del.
  all: try (table_row; auto using mapp_set, mapp_ttl, mapp_get, mapp_incr, mapp_mget, mapp_mset,
    mapp_scan, mapp_hset, mapp_hget, mapp_hdel, mapp_type, mapp_exists, mapp_incrby, mapp_decrby,
    mapp_expire, mapp_flush, mapp_persist, mapp_hgetall with redistill).
  all: try apply mapp_ttl; try apply mapp_flush.
  - apply (prefixed_bind w st _ (λ ks w, write_array w ks)). auto with redistill.
  - apply (prefixed_bind w st _ (λ n w, write_integer w n)). auto with redistill.
  - apply (prefixed_bind w st _ (λ t w, write_integer w t)). auto with redistill.
Qed.

Lemma dispatch_prefixed w st cmd table table0 :
  Forall2 (λ h h0, h.1 = h0.1 ∧ prefixed w h.2 h0.2) table table0 →
  prefixed w (dispatch w st cmd table) (dispatch [] st cmd table0).
Proof.
  unfold dispatch. induction 1 as [|[n h] [n' h0] table table0 [Hn Hs] _ IH]; cbn; [done|].
  cbn in Hn. subst n'. by destruct (name_is cmd n).
Qed.

(** What a command replies and does does not depend on the replies before it. *)
Lemma execute_prefixed command w st now :
  prefixed w (execute_command command w st now) (execute_command command [] st now).
Proof.
  intros s. unfold execute_command, mbind, SM_bind. cbv zeta.
  destruct command as [|cmd args] eqn:Hc; [done|]. destruct (_ && _); [done|]. rewrite <- Hc.
  apply dispatch_prefixed, table_prefixed.
Qed.
End Appends.

(** ** Pipelines and batches *)

Section Batches.
Context {P : Platform} {CFG : HasConfig} {B : Bincode}.

(** The commands one after the other, each with an empty writer: the replies. *)
Fixpoint session (cmds : list (list bytes)) (st : ConnectionState) : SM (bytes * ConnectionState) :=
  match cmds with
  | [] => mret ([], st)
  | cmd :: cmds =>
      now ← lift get_timestamp;
      r ← execute_command cmd [] st now;
      rs ← session cmds r.2;
      mret (r.1 ++ rs.1, rs.2)
  end.

Lemma flush_ok w sent : ∃ w' sent', flush true w sent = (Ok tt, w', sent') ∧ sent' ++ w' = sent ++ w.
Proof.
  unfold flush. case_bool_decide as Hw.
  - subst w. eauto.
  - do 2 eexists. split; [done|]. by rewrite app_nil_r.
Qed.

(** One command of the loop, whether it flushes or not. *)
Lemma loop_step fuel pfuel k s command buffer rest :
  parse_command pfuel (parser k) (stream k) = Some (Ok (command, buffer, rest)) →
  writes_ok k = true →
  let r := execute_command command [] (state k) (system_time (ticks (core s)))
             (lift get_timestamp s).2 in
  ∃ k', connection_loop (S fuel) pfuel k s = connection_loop fuel pfuel k' r.2 ∧
    parser k' = buffer ∧ stream k' = rest ∧ state k' = r.1.2 ∧ writes_ok k' = true ∧
    sent k' ++ writer k' = sent k ++ writer k ++ r.1.1.
Proof.
  intros Hp Hw r. cbn [connection_loop]. unfold serve_at, mbind, SM_bind. cbv zeta. rewrite Hp.
  change (lift get_timestamp s).1 with (system_time (ticks (core s))).
  rewrite execute_prefixed. fold r. cbn [fst snd]. destruct (_ || _ || _).
  - rewrite Hw. destruct (flush_ok (writer k ++ r.1.1) (sent k)) as (w' & sent' & -> & Hf).
    eexists. split; [reflexivity|]. by rewrite <- ?app_assoc in *.
  - eexists. split; [reflexivity|]. by rewrite <- ?app_assoc.
Qed.

Lemma connection_loop_session cmds k s fuel pfuel :
  Forall (λ cmd, cmd_ok cmd ∧ len (resp_array cmd) ≤ MAX_BUFFER_SIZE) cmds →
  Forall is_data (stream k) → parser k ++ stream_data (stream k) = concat (map resp_array cmds) →
  writes_ok k = true → (length cmds < fuel)%nat → (length (stream k) < pfuel)%nat →
  let r := session cmds (state k) s in
  ∃ k', connection_loop fuel pfuel k s = (Some k', (lift get_timestamp r.2).2) ∧
    writes_ok k' = true ∧ sent k' ++ writer k' = sent k ++ writer k ++ r.1.1.
Proof.
  intros Hok. revert k s fuel.
  induction Hok as [|cmd cmds [Hc Hm] _ IH]; intros k s fuel Hst Hd Hw Hf Hpf;
    (destruct fuel as [|fuel]; [cbn in Hf; lia|]).
  - cbn [map concat] in Hd. apply app_eq_nil in Hd as [Hb Hs].
    assert (stream k = []) as Hnil.
    { destruct (stream k) as [|[d|] l]; [done| |]; apply Forall_cons in Hst as [Hd _]; [|done].
      cbn in Hs. apply app_eq_nil in Hs as [-> _]. done. }
    exists k. cbn [connection_loop session]. unfold serve_at, mbind, SM_bind. cbv zeta. rewrite Hb, Hnil.
    destruct pfuel as [|pfuel]; [lia|]. cbn. by rewrite app_nil_r.
  - cbn [map concat] in Hd.
    destruct (parse_command_chunks cmd _ _ _ pfuel Hc Hm Hst Hd Hpf) as (rest & stream' & Hp & Hd').
    destruct (loop_step fuel pfuel k s cmd rest stream' Hp Hw) as (k1 & -> & Hb & Hs & Hstate & Hw1 & Hsent).
    apply parse_command_suffix in Hp as [pre Hpre].
    destruct (IH k1 (execute_command cmd [] (state k) (system_time (ticks (core s)))
                       (lift get_timestamp s).2).2 fuel) as (k2 & Hk2 & Hw2 & Hsent2).
    + rewrite Hs. rewrite Hpre in Hst. by apply Forall_app in Hst as [_ ?].
    + by rewrite Hb, Hs.
    + done.
    + cbn in Hf. lia.
    + rewrite Hs. rewrite Hpre, length_app in Hpf. lia.
    + exists k2. rewrite Hk2, Hstate. cbn [session]. unfold mbind, SM_bind. cbv zeta.
      split; [done|]. split; [done|].
      rewrite Hsent2, (app_assoc (sent k1)), Hsent, Hstate. cbn. by rewrite <- !app_assoc.
Qed.

(** What a connection leaves when it ends. *)
Lemma hang_up_sent k s :
  (hang_up k s).1 = (if writes_ok k then sent k ++ writer k else sent k) ∧ core (hang_up k s).2 = core s.
Proof.
  unfold hang_up, flush, mbind, SM_bind. cbv zeta.
  assert (core (flush_count s).2 = core s) as Hc by (unfold flush_count; cbn; by destruct (0 <? _)).
  case_bool_decide as Hw; [rewrite Hw, app_nil_r|]; destruct (writes_ok k); cbn; by destruct (0 <? _).
Qed.

(** C10: batching and fragmentation are invisible.  A client that sends any commands
    within the parser's limits, cut into any socket reads, and then closes, receives
    exactly the concatenation of the replies of these commands executed one after the
    other, in order, whatever the batch size and however replies are buffered and
    flushed; and the store is left as by that execution. *)
Theorem connection_replies cmds input s fuel pfuel :
  Forall (λ cmd, cmd_ok cmd ∧ len (resp_array cmd) ≤ MAX_BUFFER_SIZE) cmds →
  Forall is_data input → stream_data input = concat (map resp_array cmds) →
  (length cmds < fuel)%nat → (length input < pfuel)%nat →
  let r := session cmds connection_new (connected s) in
  (handle_connection false fuel pfuel input true s).1 = Some r.1.1 ∧
  core (handle_connection false fuel pfuel input true s).2 = tick (core r.2).
Proof.
  intros Hok Hst Hd Hf Hpf r. unfold handle_connection, mbind, SM_bind. cbv zeta.
  destruct (connection_loop_session cmds (mkConnection [] input [] connection_new 0 [] true)
              (connected s) fuel pfuel Hok Hst Hd eq_refl Hf Hpf) as (k' & Hk & Hw & Hsent).
  change (modify_s _ s).2 with (connected s). rewrite Hk. cbn [fst snd].
  destruct (hang_up_sent k' (lift get_timestamp r.2).2) as [H1 H2]. rewrite Hw in H1.
  cbn [sent writer app] in Hsent. rewrite Hsent in H1.
  destruct (hang_up k' _) as [out s']. cbn in H1, H2 |- *. by subst.
Qed.
End Batches.

(** ** Rate limiting *)

Section Rate.
Context {P : Platform} {CFG : HasConfig}.

(** How many of the checks at the given times pass at time [t]. *)
Fixpoint passed_at (t : Z) (nows : list Z) (r : RateLimit) : Z :=
  match nows with
  | [] => 0
  | now :: nows =>
      let '(ok, r) := check_rate_limit now r in
      (if ok && (now =? t) then 1 else 0) + passed_at t nows r
  end.

Fixpoint nondecreasing (t : Z) (nows : list Z) : Prop :=
  match nows with [] => True | now :: nows => t ≤ now ∧ nondecreasing now nows end.

(** Places left in the current second. *)
Definition room (t : Z) (r : RateLimit) : Z :=
  let limit := connection_rate_limit (server CONFIG) in
  if t =? LAST_RATE_CHECK r then Z.max 0 (limit - CONNECTIONS_THIS_SECOND r)
  else if t <? LAST_RATE_CHECK r then 0 else limit.

Lemma passed_at_room t nows r :
  0 < connection_rate_limit (server CONFIG) → nondecreasing (LAST_RATE_CHECK r) nows →
  0 ≤ CONNECTIONS_THIS_SECOND r → CONNECTIONS_THIS_SECOND r + len nows < U64_MOD →
  passed_at t nows r ≤ room t r.
Proof.
  intros Hlim. revert r. induction nows as [|now nows IH]; intros [last count] Hnd H0 Hb;
    cbn [LAST_RATE_CHECK CONNECTIONS_THIS_SECOND nondecreasing passed_at] in *.
  { unfold room. cbn. zcases; cbn [andb]; lia. }
  destruct Hnd as [Hle Hnd]. rewrite len_cons in Hb. pose proof (len_nonneg nows).
  unfold check_rate_limit. cbn [LAST_RATE_CHECK CONNECTIONS_THIS_SECOND].
  destruct (Z.eqb_spec (connection_rate_limit (server CONFIG)) 0); [lia|].
  destruct (Z.eqb_spec now last) as [->|Hne]; cbn [negb].
  - rewrite u64_small by (unfold is_u64; lia).
    specialize (IH (mkRateLimit last (count + 1))). cbn in IH.
    specialize (IH Hnd ltac:(lia) ltac:(lia)). unfold room in *. cbn in *. zcases; cbn [andb]; lia.
  - specialize (IH (mkRateLimit now 1)). cbn in IH. specialize (IH Hnd ltac:(lia) ltac:(lia)).
    unfold room in *. cbn in *. zcases; cbn [andb]; lia.
Qed.

(** C36: the rate limit holds: with a limit configured and a clock that does not go
    back, at most that many connections pass [check_rate_limit] in any second. *)
Theorem rate_limit_holds t nows r :
  0 < connection_rate_limit (server CONFIG) → nondecreasing (LAST_RATE_CHECK r) nows →
  0 ≤ CONNECTIONS_THIS_SECOND r → CONNECTIONS_THIS_SECOND r + len nows < U64_MOD →
  passed_at t nows r ≤ connection_rate_limit (server CONFIG).
Proof.
  intros Hlim Hnd H0 Hb. etrans; [by apply passed_at_room|]. unfold room. zcases; lia.
Qed.

(** ** The connection limit *)

Context {B : Bincode}.

(** Sockets accepted in a row, before any of their tasks runs. *)
Fixpoint accept_many (n : nat) (r : RateLimit) : SM (list bool) :=
  match n with
  | O => mret []
  | S n => a ← accept_connection r; l ← accept_many n a.2; mret (a.1 :: l)
  end.

(** [max_connections] does not bound a burst: the limit is compared with
    [ACTIVE_CONNECTIONS], which only the spawned tasks increment, so as long as one
    place is free any number of connections accepted before those tasks run are all
    let in. *)
Theorem burst_exceeds_limit n r s :
  connection_rate_limit (server CONFIG) = 0 → ACTIVE_CONNECTIONS s < max_connections (server CONFIG) →
  (accept_many n r s).1 = replicate n true ∧ (accept_many n r s).2 = s.
Proof.
  intros Hr Ha. induction n as [|n IH]; [done|].
  assert (accept_connection r s = ((true, r), s)) as E.
  { unfold accept_connection, mbind, SM_bind. cbn. rewrite Hr. cbn.
    destruct (Z.leb_spec (max_connections (server CONFIG)) (ACTIVE_CONNECTIONS s)); [lia|].
    by rewrite andb_false_r. }
  cbn [accept_many replicate]. unfold mbind, SM_bind. cbv zeta. rewrite E. cbn [fst snd].
  destruct IH as [-> ->]. done.
Qed.
End Rate.

(** ** Examples *)

Section Examples.
#[local] Existing Instance demo_platform.
#[local] Existing Instance demo_bincode.

Section Durable.
#[local] Existing Instance demo_durable.

Definition demo_input : list ReadEvent :=
  [ReadData (take 9 (concat (map resp_array [[bs "PING"]; [bs "SET"; bs "k"; bs "v"]])));
   ReadData (drop 9 (concat (map resp_array [[bs "PING"]; [bs "SET"; bs "k"; bs "v"]])))].

Lemma connection_replies_witness :
  let cmds := [[bs "PING"]; [bs "SET"; bs "k"; bs "v"]] in
  let r := session cmds connection_new (connected (boot None 0)) in
  (handle_connection false 3 3 demo_input true (boot None 0)).1 = Some r.1.1 ∧
  core (handle_connection false 3 3 demo_input true (boot None 0)).2 = tick (core r.2).
Proof.
  apply (connection_replies [[bs "PING"]; [bs "SET"; bs "k"; bs "v"]] demo_input (boot None 0) 3 3).
  - repeat constructor; vm_compute; done.
  - repeat constructor; vm_compute; done.
  - vm_compute. done.
  - cbn. lia.
  - cbn. lia.
Defined.

(** What a connection whose turn began at [now] is sent when its client then sends [command]
    and closes. *)
Definition answer (now : Z) (command : list bytes) : SM (option bytes) :=
  r ← serve_at 2 None (λ k, mret (Some k)) (connection_loop 1 2) now (mkConnection [] [ReadData (resp_array command)] [] connection_new 0 [] true);
  mret (sent <$> r).

(** Two connections wait from the second 1000 on.  Another client sets [k] for 5 seconds, and
    10 seconds go by. *)
Definition idle_since : Z := (lift get_timestamp (boot None 0)).1.
Definition ten_seconds_later : Server :=
  let s := (answer idle_since [bs "SET"; bs "k"; bs "v"; bs "EX"; bs "5"] (boot None 0)).2 in
  set_core (Nat.iter 1000 tick (core s)) s.

(** Idle connections live in the past.  The time of a command is taken before the connection
    waits for it.  Ten seconds later, one that asks for the time answers that [k] has expired;
    the one that was idle still returns its value.  And the [SET] with [EX 5] of an idle
    connection is answered [OK] and stores a key that has already expired. *)
Theorem idle_connection_is_stale :
  let s := ten_seconds_later in
  let current := (lift get_timestamp s).1 in
  let r := answer idle_since [bs "SET"; bs "j"; bs "w"; bs "EX"; bs "5"] s in
  idle_since = 1000 ∧ current = 1010 ∧
  (answer current [bs "GET"; bs "k"] s).1 = Some (bs "$-1" ++ CRLF) ∧
  (answer idle_since [bs "GET"; bs "k"] s).1 = Some (bs "$1" ++ CRLF ++ bs "v" ++ CRLF) ∧
  r.1 = Some (bs "+OK" ++ CRLF) ∧
  (answer current [bs "GET"; bs "j"] r.2).1 = Some (bs "$-1" ++ CRLF).
Proof. vm_compute. split_and!; reflexivity. Qed.
End Durable.

(** A server with [max] places and [rate] new connections a second. *)
Definition demo_limited (max rate : Z) : HasConfig :=
  let d := default_config in
  mkConfig
    (mkServerConfig (bind (server d)) (port (server d)) 2 (batch_size (server d))
       (buffer_size (server d)) (buffer_pool_size (server d)) max (connection_timeout (server d)) rate
       (health_check_port (server d)) (shutdown_grace_period_secs (server d)))
    (security d) (logging d) (performance d) (memory d) (persistence d).

Section Limited.
#[local] Instance demo_rate : HasConfig := demo_limited 0 2.

Lemma rate_limit_holds_witness :
  passed_at 100 [100; 100; 100; 101] (mkRateLimit 0 0) ≤ connection_rate_limit (server CONFIG).
Proof.
  apply (rate_limit_holds 100 [100; 100; 100; 101] (mkRateLimit 0 0)); vm_compute; try done.
Defined.
End Limited.

Section Narrow.
#[local] Instance demo_narrow : HasConfig := demo_limited 2 0.

Lemma burst_exceeds_limit_witness :
  (accept_many 5 (mkRateLimit 0 0) (boot None 0)).1 = replicate 5 true ∧
  (accept_many 5 (mkRateLimit 0 0) (boot None 0)).2 = boot None 0.
Proof. apply (burst_exceeds_limit 5 (mkRateLimit 0 0) (boot None 0)); vm_compute; done. Defined.
End Narrow.
End Examples.
