(* ===== verification/Stream.v ===== *)
(** * The stream of a connection ([MaybeStream] of [src/server.rs])

    A connection is served over plain TCP or over TLS by the same code: [MaybeStream] is
    the sum of the two streams and forwards every poll to the one it holds.  The streams
    themselves are third-party code; what the server uses of them is the class
    [AsyncStream], and [MaybeStream] is an instance of it whenever its two parts are. *)

From S2P Require Import Prelude.

(** [std::task::Poll]. *)
Inductive Poll (A : Type) := Ready (a : A) | Pending.
Arguments Ready {A} _.
Arguments Pending {A}.

(** [tokio::io::ReadBuf]: the bytes read so far and the free space behind them. *)
Record ReadBuf := mkReadBuf { filled : bytes; remaining : Z }.

(** [AsyncRead] and [AsyncWrite]: a poll returns its result and leaves the stream (and, for a
    read, the buffer) changed.  [E] is [io::Error]. *)
Class AsyncStream (E S : Type) := {
  poll_read : ReadBuf → S → Poll (Result unit E) * ReadBuf * S;
  poll_write : bytes → S → Poll (Result Z E) * S;
  poll_flush : S → Poll (Result unit E) * S;
  poll_shutdown : S → Poll (Result unit E) * S
}.

(** [TcpStream::set_nodelay]. *)
Class Socket (E S : Type) := set_nodelay : bool → S → Result unit E * S.

(** A TLS session runs over a socket, which [get_ref] shows; [put_ref] is the session after
    something was done to the socket. *)
Class Over (Tcp Tls : Type) := { get_ref : Tls → Tcp; put_ref : Tcp → Tls → Tls }.

Inductive MaybeStream (Tcp Tls : Type) :=
| Plain (s : Tcp)
| TlsStream (s : Tls).
Arguments Plain {Tcp Tls} _.
Arguments TlsStream {Tcp Tls} _.

Section Stream.
Context {E Tcp Tls : Type} {TCP : AsyncStream E Tcp} {TLS : AsyncStream E Tls}.
Context {SOCKET : Socket E Tcp} {OVER : Over Tcp Tls}.

Definition maybe_poll_read (buf : ReadBuf) (self : MaybeStream Tcp Tls)
    : Poll (Result unit E) * ReadBuf * MaybeStream Tcp Tls :=
  match self with
  | Plain s => let '(r, buf, s) := poll_read buf s in (r, buf, Plain s)
  | TlsStream s => let '(r, buf, s) := poll_read buf s in (r, buf, TlsStream s)
  end.

Definition maybe_poll_write (buf : bytes) (self : MaybeStream Tcp Tls)
    : Poll (Result Z E) * MaybeStream Tcp Tls :=
  match self with
  | Plain s => let '(r, s) := poll_write buf s in (r, Plain s)
  | TlsStream s => let '(r, s) := poll_write buf s in (r, TlsStream s)
  end.

Definition maybe_poll_flush (self : MaybeStream Tcp Tls) : Poll (Result unit E) * MaybeStream Tcp Tls :=
  match self with
  | Plain s => let '(r, s) := poll_flush s in (r, Plain s)
  | TlsStream s => let '(r, s) := poll_flush s in (r, TlsStream s)
  end.

Definition maybe_poll_shutdown (self : MaybeStream Tcp Tls) : Poll (Result unit E) * MaybeStream Tcp Tls :=
  match self with
  | Plain s => let '(r, s) := poll_shutdown s in (r, Plain s)
  | TlsStream s => let '(r, s) := poll_shutdown s in (r, TlsStream s)
  end.

Definition maybe_set_nodelay (nodelay : bool) (self : MaybeStream Tcp Tls)
    : Result unit E * MaybeStream Tcp Tls :=
  match self with
  | Plain s => let '(r, s) := set_nodelay nodelay s in (r, Plain s)
  | TlsStream s => let '(r, tcp) := set_nodelay nodelay (get_ref s) in (r, TlsStream (put_ref tcp s))
  end.

#[export] Instance MaybeStream_stream : AsyncStream E (MaybeStream Tcp Tls) := {
  poll_read := maybe_poll_read;
  poll_write := maybe_poll_write;
  poll_flush := maybe_poll_flush;
  poll_shutdown := maybe_poll_shutdown
}.

#[export] Instance MaybeStream_socket : Socket E (MaybeStream Tcp Tls) := maybe_set_nodelay.

(** The socket option of a TLS session is that of its socket. *)
#[export] Instance Over_socket : Socket E Tls := λ nodelay s,
  let '(r, tcp) := set_nodelay nodelay (get_ref s) in (r, put_ref tcp s).
End Stream.

(** ** Tasks that use a stream *)

(** A task that owns a stream, as the sequence of polls it makes; what it does next may
    depend on all it has seen. *)
Inductive Io (E A : Type) :=
| IoDone (a : A)
| IoRead (buf : ReadBuf) (k : Poll (Result unit E) → ReadBuf → Io E A)
| IoWrite (buf : bytes) (k : Poll (Result Z E) → Io E A)
| IoFlush (k : Poll (Result unit E) → Io E A)
| IoShutdown (k : Poll (Result unit E) → Io E A)
| IoNodelay (b : bool) (k : Result unit E → Io E A).
Arguments IoDone {E A} _.
Arguments IoRead {E A} _ _.
Arguments IoWrite {E A} _ _.
Arguments IoFlush {E A} _.
Arguments IoShutdown {E A} _.
Arguments IoNodelay {E A} _ _.

Fixpoint run_io {E S A : Type} `{AsyncStream E S, Socket E S} (p : Io E A) (s : S) : A * S :=
  match p with
  | IoDone a => (a, s)
  | IoRead buf k => let '(r, buf, s) := poll_read buf s in run_io (k r buf) s
  | IoWrite buf k => let '(r, s) := poll_write buf s in run_io (k r) s
  | IoFlush k => let '(r, s) := poll_flush s in run_io (k r) s
  | IoShutdown k => let '(r, s) := poll_shutdown s in run_io (k r) s
  | IoNodelay b k => let '(r, s) := set_nodelay b s in run_io (k r) s
  end.

(** One stream seen through another: [f] commutes with every poll. *)
Definition forwards {E S T : Type} `{AsyncStream E S, Socket E S, AsyncStream E T, Socket E T}
    (f : S → T) : Prop :=
  ∀ A (p : Io E A) s, run_io p (f s) = let '(a, s) := run_io p s in (a, f s).

Section Forward.
Context {E Tcp Tls : Type} {TCP : AsyncStream E Tcp} {TLS : AsyncStream E Tls}.
Context {SOCKET : Socket E Tcp} {OVER : Over Tcp Tls}.

Ltac forward_io :=
  intros A p; induction p as [a|buf k IH|buf k IH|k IH|k IH|b k IH]; intros s;
  cbn [run_io poll_read poll_write poll_flush poll_shutdown MaybeStream_stream];
  unfold maybe_poll_read, maybe_poll_write, maybe_poll_flush, maybe_poll_shutdown;
  cbv [set_nodelay MaybeStream_socket Over_socket maybe_set_nodelay];
  [done|destruct (poll_read buf s) as [[? ?] ?]|destruct (poll_write buf s)|destruct (poll_flush s)
  |destruct (poll_shutdown s)|first [destruct (SOCKET b s) | destruct (SOCKET b (get_ref s))]]; apply IH.

(** A task cannot tell a [MaybeStream] from the stream in it, and leaves it what it was:
    all its bytes go through the socket, or all through the TLS session. *)
Lemma plain_forwards : forwards (E := E) (@Plain Tcp Tls).
Proof. forward_io. Qed.

Lemma tls_forwards : forwards (E := E) (@TlsStream Tcp Tls).
Proof. forward_io. Qed.
End Forward.
