(* ===== verification/Lifecycle.v ===== *)
(** * The life of the process ([main] of [src/main.rs], [load_tls_config] of
    [src/server.rs])

    Startup with its ways to fail, the accept loop with the connection tasks it spawns,
    and which background tasks run.  TLS itself is third-party code: the parser of
    certificates and keys and the handshake are parameters.  Shutdown.v has the drain and
    the next start. *)

From S2P Require Import Prelude Decimal Protocol Config S3Fifo State Store Steps StoreOps.
From S2P Require Import StoreSpec Memory Handlers HandlerSpec HandlerMem Aof Snapshot.
From S2P Require Import Server ServerSpec Recovery Connection Stream Demo.

(** ** TLS *)

(** [timeout(5s, acceptor.accept(stream))]. *)
Inductive Handshake (Tls : Type) := HandshakeOk (s : Tls) | HandshakeFailed | HandshakeTimeout.
Arguments HandshakeOk {Tls} _.
Arguments HandshakeFailed {Tls}.
Arguments HandshakeTimeout {Tls}.

(** The ways [main] exits before it serves. *)
Inductive ExitReason :=
| ExitStart (e : StartError)
| ExitTlsPaths
| ExitTlsConfig (e : string)
| ExitBind.

Section Tls.
Context {P : Platform} {CFG : HasConfig} {B : Bincode}.
Context {Cert Key Acceptor E Tcp Tls : Type}.
Context {TCP : AsyncStream E Tcp} {TLS : AsyncStream E Tls} {SOCKET : Socket E Tcp} {OVER : Over Tcp Tls}.
Context (read_file : string → Result bytes string).
Context (certs : bytes → Result (list Cert) string) (pkcs8_private_keys : bytes → Result (list Key) string).
Context (with_single_cert : list Cert → Key → Result Acceptor string).
Context (accept_tls : Acceptor → Tcp → Handshake Tls).

Definition load_tls_config (cert_path key_path : string) : Result Acceptor string :=
  match read_file cert_path with
  | Err e => Err e
  | Ok cert_file =>
      match certs cert_file with
      | Err e => Err e
      | Ok [] => Err "No certificates found in cert file"%string
      | Ok cs =>
          match read_file key_path with
          | Err e => Err e
          | Ok key_file =>
              match pkcs8_private_keys key_file with
              | Err e => Err e
              | Ok [] => Err "No private keys found in key file"%string
              | Ok (key :: _) => with_single_cert cs key
              end
          end
      end
  end.

(** The TLS part of [main]. *)
Definition tls_acceptor : Result (option Acceptor) ExitReason :=
  let sec := security CONFIG in
  if tls_enabled sec then
    if bool_decide (tls_cert_path sec = ""%string) || bool_decide (tls_key_path sec = ""%string)
    then Err ExitTlsPaths
    else
      match load_tls_config (tls_cert_path sec) (tls_key_path sec) with
      | Ok a => Ok (Some a)
      | Err e => Err (ExitTlsConfig e)
      end
  else Ok None.

(** [main] up to the accept loop; [bound] is whether [TcpListener::bind] succeeds. *)
Definition startup (snapshot aof_file : option bytes) (bound : bool) (i : nat)
    : Result (Server * option Acceptor) ExitReason :=
  match start snapshot aof_file i with
  | Err e => Err (ExitStart e)
  | Ok s =>
      match tls_acceptor with
      | Err e => Err e
      | Ok a => if bound then Ok (s, a) else Err ExitBind
      end
  end.

(** The stream a connection task hands to [handle_connection]; [None] when it returns. *)
Definition open_stream (a : option Acceptor) (s : Tcp) : option (MaybeStream Tcp Tls) :=
  match a with
  | Some a =>
      match accept_tls a s with
      | HandshakeOk t => Some (TlsStream t)
      | HandshakeFailed | HandshakeTimeout => None
      end
  | None => Some (Plain s)
  end.

(** C31: TLS is never downgraded.  When it is enabled, the server starts only with
    certificates and a key that were loaded, and every stream that reaches a handler is a
    TLS stream whose handshake succeeded: whatever a task reads and writes on it goes through
    that TLS session, and no connection is ever served in plain text. *)
Theorem tls_not_downgraded snapshot aof_file bound i s a tcp stream :
  tls_enabled (security CONFIG) = true →
  startup snapshot aof_file bound i = Ok (s, a) → open_stream a tcp = Some stream →
  ∃ acc t, load_tls_config (tls_cert_path (security CONFIG)) (tls_key_path (security CONFIG)) = Ok acc ∧
    accept_tls acc tcp = HandshakeOk t ∧ stream = TlsStream t ∧
    ∀ A (p : Io E A), run_io p stream = let '(r, t') := run_io p t in (r, TlsStream t').
Proof.
  intros Htls. unfold startup, tls_acceptor. rewrite Htls.
  destruct (start _ _ _) as [s0|]; [|done]. destruct (_ || _); [done|].
  destruct (load_tls_config _ _) as [acc|]; [|done]. destruct bound; [|done].
  intros [= <- <-]. cbn. destruct (accept_tls acc tcp) as [t| |] eqn:Hacc; [|done..].
  intros [= <-]. exists acc, t. split_and!; [done..|]. intros A p. apply tls_forwards.
Qed.
End Tls.

(** ** The accept loop and its tasks *)

(** A connection task of the [JoinSet]: spawned and perhaps in its handshake, in
    [handle_connection], or ended and not yet joined. *)
Inductive Task := Starting | Serving | Ended.

#[global] Instance Task_eq_dec : EqDecision Task.
Proof. solve_decision. Defined.

(** [main] while it serves: the shared state, the rate limiter, the value of the shutdown
    channel, whether the listener is open, and the tasks.  The last three fields count
    what happened and no code reads them: sockets accepted, tasks that ended before their
    handler began, and handlers aborted before their end. *)
Record Main := mkMain {
  srv : Server;
  rate : RateLimit;
  shutting_down : bool;
  listening : bool;
  conn_set : list Task;
  sockets : Z;
  unopened : Z;
  aborted : Z
}.

(** What can happen: [listener.accept()] returns, the [i]-th task ends its handshake,
    its handler ends, finished tasks are joined, a signal arrives, the loop notices it
    and drops the listener, the drain aborts what is left, or the server does something
    on behalf of a handler or a background task. *)
Inductive MainEvent :=
| Accepted (ok : bool)
| Opened (i : nat) (ok : bool)
| Closed (i : nat)
| Reap
| Signal
| StopListening
| AbortAll
| Serve (e : Event).

Definition count (t : Task) (l : list Task) : Z := len (filter (λ x, x = t) l).
#[global] Arguments count : simpl never.

Section Accept.
Context {P : Platform} {CFG : HasConfig} {B : Bincode}.

Definition main_step (e : MainEvent) (m : Main) : Main :=
  let 'mkMain s r down listens ts n u a := m in
  match e with
  | Accepted ok =>
      if listens && ok then
        let '((spawn, r), s) := accept_connection r s in
        mkMain s r down listens (if spawn then ts ++ [Starting] else ts) (n + 1) u a
      else m
  | Opened i ok =>
      match ts !! i with
      | Some Starting =>
          if ok then
            if down
            then mkMain (handle_connection true 0 0 [] true s).2 r down listens (<[i:=Ended]> ts) n u a
            else mkMain (connected s) r down listens (<[i:=Serving]> ts) n u a
          else mkMain s r down listens (<[i:=Ended]> ts) n (u + 1) a
      | _ => m
      end
  | Closed i =>
      match ts !! i with
      | Some Serving =>
          mkMain (disconnected (flush_count s).2) r down listens (<[i:=Ended]> ts) n u a
      | _ => m
      end
  | Reap => mkMain s r down listens (filter (λ t, t ≠ Ended) ts) n u a
  | Signal => mkMain s r true listens ts n u a
  | StopListening => mkMain s r down (listens && negb down) ts n u a
  | AbortAll =>
      if listens then m
      else mkMain s r down listens (map (λ _, Ended) ts) n (u + count Starting ts) (a + count Serving ts)
  | Serve e => mkMain (run_event e s).2 r down listens ts n u a
  end.

Definition main_run (es : list MainEvent) (m : Main) : Main := fold_left (λ m e, main_step e m) es m.

(** [main] at the top of its accept loop. *)
Definition main_start (s : Server) : Main := mkMain s (mkRateLimit 0 0) false true [] 0 0 0.

(** ** Background tasks *)

Inductive BackgroundTask := HealthTask | ExpirationTask | SnapshotTask | EverysecTask | RewriteTask.

#[global] Instance BackgroundTask_eq_dec : EqDecision BackgroundTask.
Proof. solve_decision. Defined.

(** The tasks [main] spawns before it accepts. *)
Definition spawned_tasks (s : Server) : list BackgroundTask :=
  (if 0 <? health_check_port (server CONFIG) then [HealthTask] else []) ++
  [ExpirationTask] ++
  (if enabled (persistence CONFIG) && (0 <? snapshot_interval (persistence CONFIG)) then [SnapshotTask] else []) ++
  match AOF s with
  | Some a => (if bool_decide (fsync a = EverySec) then [EverysecTask] else []) ++ [RewriteTask]
  | None => []
  end.

(** The event of a task that was not spawned does nothing, so the theorems on sequences of
    events speak of the tasks that run. *)
Lemma unspawned_tick s :
  (SnapshotTask ∉ spawned_tasks s → run_event SnapshotTick s = (None, s)) ∧
  (EverysecTask ∉ spawned_tasks s → run_event SyncTick s = (None, s)) ∧
  (RewriteTask ∉ spawned_tasks s → run_event RewriteTick s = (None, s)).
Proof.
  unfold spawned_tasks. rewrite !not_elem_of_app.
  unfold run_event, snapshot_tick, sync_tick, rewrite_tick, mbind, SM_bind. split_and!.
  - intros (_ & _ & Hn & _). destruct (_ && _); [|done]. destruct Hn. by apply list_elem_of_here.
  - intros (_ & _ & _ & Hn). destruct s as [c [a|] f b t n l tc ac rc js]; [|done]. cbn in *.
    rewrite not_elem_of_app in Hn. destruct Hn as [Hn _]. case_bool_decide; [|done].
    destruct Hn. by apply list_elem_of_here.
  - intros (_ & _ & _ & Hn). cbn. destruct (AOF s) as [a|]; [|done]. rewrite not_elem_of_app in Hn.
    destruct Hn as [_ Hn]. destruct Hn. by apply list_elem_of_here.
Qed.

(** ** Connection counters *)

(** The counters of connections, which commands and background tasks leave alone. *)
Definition conns (s : Server) : Z * Z * Z := (TOTAL_CONNECTIONS s, ACTIVE_CONNECTIONS s, REJECTED_CONNECTIONS s).
Definition silent {A : Type} (m : SM A) : Prop := ∀ s, conns (m s).2 = conns s.

Lemma silent_ret {A : Type} (a : A) : silent (mret a).
Proof. done. Qed.
Lemma silent_get {A : Type} (f : Server → A) : silent (get_s f).
Proof. done. Qed.
Lemma silent_lift {A : Type} (m : M A) : silent (lift m).
Proof. done. Qed.
Lemma silent_modify f : (∀ s, conns (f s) = conns s) → silent (modify_s f).
Proof. intros Hf s. apply Hf. Qed.
Lemma silent_bind {A C : Type} (m : SM A) (f : A → SM C) : silent m → (∀ a, silent (f a)) → silent (a ← m; f a).
Proof. intros Hm Hf s. unfold mbind, SM_bind. cbv zeta. by rewrite Hf, Hm. Qed.

Lemma silent_save : silent save_snapshot_sync.
Proof.
  intros s. unfold save_snapshot_sync, mbind, SM_bind. cbn.
  destruct (SAVE_IN_PROGRESS s); [done|]. by destruct (snapshot_file _ _) as [[f n]|].
Qed.

Ltac silent :=
  repeat lazymatch goal with
    | |- silent (mret _) => apply silent_ret
    | |- silent (get_s _) => apply silent_get
    | |- silent (lift _) => apply silent_lift
    | |- silent (modify_s _) =>
        apply silent_modify; intros ?; first [reflexivity | repeat case_match; reflexivity]
    | |- silent (mbind _ _) => apply silent_bind; [|intros ?]
    | |- silent save_snapshot_sync => apply silent_save
    | |- silent (match _ with _ => _ end) => case_match
    end.

Lemma silent_job j : silent (run_job j).
Proof. destruct j; unfold run_job; silent. Qed.

Lemma silent_execute command w st now : silent (execute_command command w st now).
Proof.
  unfold execute_command. apply silent_bind; [unfold count_command; silent|intros _].
  destruct command as [|cmd args] eqn:Hc; [silent|]. rewrite <- Hc. destruct (_ && _); [silent|].
  assert (Forall (λ e, silent e.2) (commands command w st now)) as Ht.
  { unfold_commands. unfold reply, logged, aof_log, handle_save, handle_bgsave, handle_bgrewriteaof, handle_info.
    repeat (apply List.Forall_cons; [cbn [snd]; silent|]). apply List.Forall_nil. }
  unfold dispatch. destruct (List.find _ _) as [[n h]|] eqn:E; [|silent].
  apply List.find_some in E as [Hin _]. rewrite List.Forall_forall in Ht. by apply (Ht (n, h)).
Qed.

Lemma silent_event e : silent (run_event e).
Proof.
  destruct e; unfold run_event, run_next_job, snapshot_tick, sync_tick, rewrite_tick; silent;
    first [apply silent_execute | apply silent_job].
Qed.

Lemma silent_replay fuel l now st n : silent (replay fuel l now st n).
Proof.
  revert l st n. induction fuel as [|fuel IH]; intros l st n; cbn [replay]; silent; [apply silent_execute|apply IH].
Qed.

Lemma start_conns snapshot aof_file i s : start snapshot aof_file i = Ok s → conns s = (0, 0, 0).
Proof.
  assert (silent (start_store snapshot)) as Hs by (unfold start_store; silent).
  assert (silent (start_aof aof_file)) as Ha by (unfold start_aof; silent; apply silent_replay).
  unfold start. cbv zeta. specialize (Ha (start_store snapshot (boot snapshot i)).2).
  destruct (start_aof aof_file _).1; [|done]. intros [= <-]. by rewrite Ha, Hs.
Qed.

(** ** Every socket is accounted for *)

Lemma count_app t l l' : count t (l ++ l') = count t l + count t l'.
Proof. unfold count, len. rewrite filter_app, length_app. lia. Qed.

Lemma count_cons t x l : count t (x :: l) = (if decide (x = t) then 1 else 0) + count t l.
Proof. unfold count. rewrite filter_cons. case_decide; [rewrite len_cons|]; lia. Qed.

Lemma count_insert t l i x y :
  l !! i = Some x →
  count t (<[i:=y]> l) + (if decide (x = t) then 1 else 0) = count t l + (if decide (y = t) then 1 else 0).
Proof.
  intros Hi. rewrite <- (take_drop_middle l i x Hi) at 2.
  rewrite insert_take_drop by (by eapply lookup_lt_Some). rewrite !count_app, !count_cons. lia.
Qed.

Lemma count_reap t (l : list Task) : t ≠ Ended → count t (filter (λ x, x ≠ Ended) l) = count t l.
Proof.
  intros Ht. induction l as [|x l IH]; [done|]. rewrite filter_cons, count_cons.
  destruct (decide (x ≠ Ended)) as [|Hx]; [by rewrite count_cons, IH|].
  apply dec_stable in Hx as ->. rewrite IH. by rewrite decide_False by done.
Qed.

Lemma count_ended t (l : list Task) : t ≠ Ended → count t (map (λ _, Ended) l) = 0.
Proof.
  intros Ht. induction l as [|x l IH]; [done|]. cbn [map]. rewrite count_cons, IH.
  by rewrite decide_False by done.
Qed.

Record tallied (m : Main) : Prop := {
  tallied_active : ACTIVE_CONNECTIONS (srv m) = usize (count Serving (conn_set m) + aborted m);
  tallied_total :
    u64 (TOTAL_CONNECTIONS (srv m) + REJECTED_CONNECTIONS (srv m) + count Starting (conn_set m) + unopened m) =
    u64 (sockets m)
}.

(** The counters after each step of a task. *)
Lemma accept_counters r s :
  let a := accept_connection r s in
  conns a.2 = if a.1.1 : bool then conns s
              else (TOTAL_CONNECTIONS s, ACTIVE_CONNECTIONS s, u64 (REJECTED_CONNECTIONS s + 1)).
Proof.
  unfold accept_connection, mbind, SM_bind. cbn. destruct (_ && _); [done|].
  destruct (_ =? 0); [done|]. cbn. by destruct (check_rate_limit _ _) as [[] r'].
Qed.

Lemma flush_count_conns s : conns (flush_count s).2 = conns s.
Proof. unfold flush_count. cbn. by destruct (0 <? _). Qed.

Lemma tallied_from m m' d :
  tallied m →
  ACTIVE_CONNECTIONS (srv m') =
    usize (ACTIVE_CONNECTIONS (srv m) +
           (count Serving (conn_set m') + aborted m' - count Serving (conn_set m) - aborted m)) →
  sockets m' = sockets m + d →
  u64 (TOTAL_CONNECTIONS (srv m') + REJECTED_CONNECTIONS (srv m')) =
    u64 (TOTAL_CONNECTIONS (srv m) + REJECTED_CONNECTIONS (srv m) + d -
         (count Starting (conn_set m') + unopened m' - count Starting (conn_set m) - unopened m)) →
  tallied m'.
Proof.
  intros [Ha Ht] Ha' Hn Ht'. split.
  - rewrite Ha', Ha. unfold usize. rewrite Zplus_mod_idemp_l. f_equal. lia.
  - apply u64_cong in Ht as [q Hq]. apply u64_cong in Ht' as [q' Hq']. apply u64_cong.
    rewrite Hn. exists (q + q'). lia.
Qed.

(** Nothing that counts has changed. *)
Lemma tallied_same m m' :
  conns (srv m') = conns (srv m) → count Serving (conn_set m') = count Serving (conn_set m) →
  count Starting (conn_set m') = count Starting (conn_set m) →
  sockets m' = sockets m → unopened m' = unopened m → aborted m' = aborted m → tallied m → tallied m'.
Proof.
  unfold conns. intros [= Ht Ha Hr] Hs Hst Hn Hu Hb [Hca Hct].
  split; by rewrite ?Ht, ?Ha, ?Hr, ?Hs, ?Hst, ?Hn, ?Hu, ?Hb.
Qed.

Lemma tallied_accept m ok : tallied m → tallied (main_step (Accepted ok) m).
Proof.
  destruct m as [s r down listens ts n u a]. cbn [main_step]. intros Hc.
  destruct (listens && ok); [|done]. pose proof (accept_counters r s) as Hacc. cbv zeta in Hacc.
  destruct (accept_connection r s) as [[spawn r'] s']. cbn [fst snd] in Hacc. unfold conns in Hacc.
  assert (ACTIVE_CONNECTIONS s' = ACTIVE_CONNECTIONS s) as Ha by (destruct spawn; by injection Hacc).
  apply (tallied_from _ _ 1 Hc); [|done|]; cbn [srv conn_set aborted unopened].
  - pose proof (tallied_active _ Hc) as Hact. cbn in Hact. rewrite Ha, Hact. unfold usize.
    rewrite Zplus_mod_idemp_l. f_equal. destruct spawn; rewrite ?count_app; change (count Serving [Starting]) with 0; lia.
  - destruct spawn; injection Hacc as -> _ ->; rewrite ?count_app.
    + f_equal. change (count Starting [Starting]) with 1. lia.
    + rewrite u64_u64_add_r. f_equal. lia.
Qed.

Lemma tallied_opened m i ok : tallied m → tallied (main_step (Opened i ok) m).
Proof.
  destruct m as [s r down listens ts n u a]. cbn [main_step]. intros Hc.
  destruct (ts !! i) as [[]|] eqn:Hi; try done.
  pose proof (λ t y, count_insert t ts i Starting y Hi) as Hcount.
  destruct ok; [destruct down|]; apply (tallied_from _ _ 0 Hc); cbn [sockets]; try lia;
    cbn [srv conn_set aborted unopened].
  - change ((handle_connection true 0 0 [] true s).2) with (disconnected (connected s)).
    pose proof (Hcount Serving Ended) as H. repeat case_decide; try done. cbn. unfold usize. rewrite Zminus_mod_idemp_l. f_equal. lia.
  - pose proof (Hcount Starting Ended) as H. repeat case_decide; try done.
    change ((handle_connection true 0 0 [] true s).2) with (disconnected (connected s)).
    cbn. rewrite u64_u64_add_l. f_equal. lia.
  - pose proof (Hcount Serving Serving) as H. repeat case_decide; try done. cbn. f_equal. lia.
  - pose proof (Hcount Starting Serving) as H. repeat case_decide; try done.
    cbn. rewrite u64_u64_add_l. f_equal. lia.
  - pose proof (Hcount Serving Ended) as H. repeat case_decide; try done.
    pose proof (tallied_active _ Hc) as Hact. cbn in Hact. rewrite Hact. unfold usize.
    rewrite Zplus_mod_idemp_l. f_equal. lia.
  - pose proof (Hcount Starting Ended) as H. repeat case_decide; try done. f_equal. lia.
Qed.

Lemma tallied_closed m i : tallied m → tallied (main_step (Closed i) m).
Proof.
  destruct m as [s r down listens ts n u a]. cbn [main_step]. intros Hc.
  destruct (ts !! i) as [[]|] eqn:Hi; try done.
  pose proof (λ t, count_insert t ts i Serving Ended Hi) as Hcount.
  pose proof (flush_count_conns s) as Hf. set (s' := (flush_count s).2) in *. clearbody s'.
  unfold conns in Hf. injection Hf as Ht Ha Hr.
  apply (tallied_from _ _ 0 Hc); cbn [sockets]; [|lia|]; cbn.
  - rewrite Ha. pose proof (Hcount Serving) as H. repeat case_decide; try done. f_equal. lia.
  - rewrite Ht, Hr. pose proof (Hcount Starting) as H. repeat case_decide; try done. f_equal. lia.
Qed.

Lemma tallied_abort m : tallied m → tallied (main_step AbortAll m).
Proof.
  destruct m as [s r down listens ts n u a]. cbn [main_step]. intros Hc. destruct listens; [done|].
  destruct Hc as [Ha Ht]. cbn in Ha, Ht. split; cbn; rewrite !count_ended by done.
  - rewrite Ha. f_equal. lia.
  - rewrite <- Ht. f_equal. lia.
Qed.

Lemma tallied_step e m : tallied m → tallied (main_step e m).
Proof.
  destruct e; auto using tallied_accept, tallied_opened, tallied_closed, tallied_abort;
    destruct m as [s r down listens ts n u a]; cbn [main_step];
    (apply tallied_same; cbn [srv conn_set sockets unopened aborted];
     [first [apply silent_event | done]|by rewrite ?count_reap|by rewrite ?count_reap|done..]).
Qed.

(** C30: every socket is accounted for.  Whatever happens to the accept loop - bursts,
    failed handshakes, commands and background tasks in between, a signal, late handlers,
    aborted ones - [ACTIVE_CONNECTIONS] is the number of handlers that have begun and not
    ended, and [TOTAL_CONNECTIONS] and [REJECTED_CONNECTIONS] add up to the sockets
    accepted, less those whose task has not reached its handler; the counters are 64 bits
    wide and the sum is exact modulo [2^64]. *)
Theorem connection_accounting snapshot aof_file i s es :
  start snapshot aof_file i = Ok s →
  let m := main_run es (main_start s) in
  ACTIVE_CONNECTIONS (srv m) = usize (count Serving (conn_set m) + aborted m) ∧
  u64 (TOTAL_CONNECTIONS (srv m) + REJECTED_CONNECTIONS (srv m)) =
    u64 (sockets m - count Starting (conn_set m) - unopened m).
Proof.
  intros Hs. assert (tallied (main_start s)) as H0.
  { apply start_conns in Hs. unfold conns in Hs. injection Hs as Ht Ha Hr.
    split; cbn; by rewrite ?Ht, ?Ha, ?Hr. }
  assert (∀ m, tallied m → tallied (main_run es m)) as Hrun.
  { induction es as [|e es IH]; [done|]. intros m Hm. apply IH, tallied_step, Hm. }
  cbv zeta. destruct (Hrun _ H0) as [Ha Ht]. split; [done|].
  apply u64_cong in Ht as [q Hq]. apply u64_cong. exists q. lia.
Qed.
End Accept.

(** ** An example *)

Section Examples.
#[local] Existing Instance demo_platform.
#[local] Existing Instance demo_bincode.

(** The default configuration with TLS. *)
Definition demo_tls : HasConfig :=
  let d := default_config in
  mkConfig (server d)
    (mkSecurityConfig (password (security d)) true "cert.pem" "key.pem")
    (logging d) (performance d) (memory d) (persistence d).

Section Tls.
#[local] Existing Instance demo_tls.

Definition demo_read (path : string) : Result bytes string := Ok (bs path).
Definition demo_parse (b : bytes) : Result (list bytes) string := Ok [b].
Definition demo_acceptor (cs : list bytes) (key : bytes) : Result bytes string := Ok (concat cs ++ key).
Definition demo_handshake (a : bytes) (tcp : nat) : Handshake (nat * bytes) :=
  if (tcp =? 0)%nat then HandshakeTimeout else HandshakeOk (tcp, a).

(** A socket that counts the polls, and a session that also keeps what was written. *)
#[local] Instance demo_stream : AsyncStream string nat := {
  poll_read := λ buf n, (Ready (Ok tt), buf, S n);
  poll_write := λ b n, (Ready (Ok (len b)), S n);
  poll_flush := λ n, (Pending, S n);
  poll_shutdown := λ n, (Ready (Ok tt), 0%nat)
}.
#[local] Instance demo_session : AsyncStream string (nat * bytes) := {
  poll_read := λ buf s, (Ready (Ok tt), buf, (S s.1, s.2));
  poll_write := λ b s, (Ready (Ok (len b)), (S s.1, s.2 ++ b));
  poll_flush := λ s, (Pending, (S s.1, s.2));
  poll_shutdown := λ s, (Ready (Ok tt), (0%nat, []))
}.
#[local] Instance demo_socket : Socket string nat := λ b n, (Ok tt, S n).
#[local] Instance demo_over : Over nat (nat * bytes) := {| get_ref := fst; put_ref := λ n s, (n, s.2) |}.

Definition demo_served : nat * bytes := (7%nat, bs "cert.pemkey.pem").

Lemma tls_not_downgraded_witness :
  ∃ acc t, load_tls_config demo_read demo_parse demo_parse demo_acceptor
             (tls_cert_path (security CONFIG)) (tls_key_path (security CONFIG)) = Ok acc ∧
    demo_handshake acc 7%nat = HandshakeOk t ∧ TlsStream (Tcp := nat) demo_served = TlsStream t ∧
    ∀ A (p : Io string A), run_io p (TlsStream (Tcp := nat) demo_served) =
      let '(r, t') := run_io p t in (r, TlsStream t').
Proof.
  eapply (tls_not_downgraded demo_read demo_parse demo_parse demo_acceptor demo_handshake None None true 0%nat
            _ _ 7%nat (TlsStream demo_served)); vm_compute; reflexivity.
Defined.
End Tls.

Section Served.
#[local] Existing Instance demo_durable.

(** Three sockets: one served and closed, one that failed its handshake, one aborted. *)
Definition demo_life : list MainEvent :=
  [Accepted true; Accepted true; Opened 0 true; Opened 1 false;
   Serve (Command [bs "SET"; bs "k"; bs "v"] [] (mkConn true) 1000); Closed 0; Reap; Accepted true;
   Opened 0 true; Signal; StopListening; AbortAll].

Definition demo_started : Server :=
  match start None None 0 with Ok s => s | Err _ => boot None 0 end.

Lemma connection_accounting_witness :
  let m := main_run demo_life (main_start demo_started) in
  ACTIVE_CONNECTIONS (srv m) = usize (count Serving (conn_set m) + aborted m) ∧
  u64 (TOTAL_CONNECTIONS (srv m) + REJECTED_CONNECTIONS (srv m)) =
    u64 (sockets m - count Starting (conn_set m) - unopened m).
Proof.
  apply (connection_accounting None None 0 demo_started demo_life). vm_compute. reflexivity.
Defined.
End Served.
End Examples.
