(* ===== verification/Shutdown.v ===== *)
(** * Shutdown and the next start ([main] of [src/main.rs])

    The drain loop of a graceful shutdown always ends; a server that is shut down and
    started again serves the database it served before; and three ways in which the next
    start is worse off: a log that is replayed over the final snapshot, a final snapshot
    that is not taken, and keys that no eviction finds. *)

From S2P Require Import Prelude Decimal Protocol Config S3Fifo State Store Steps StoreOps.
From S2P Require Import StoreSpec Contents Memory Eviction Handlers HandlerSpec HandlerMem Aof Snapshot.
From S2P Require Import Server ServerSpec Recovery Replay Connection Lifecycle Demo.

(** ** Signals *)

Inductive SignalKind := SIGTERM | SIGINT.

(** [shutdown_signal]: whether it resolves when the signal arrives, given which of its two
    handlers could be installed. *)
Definition shutdown_signal (term_installed intr_installed : bool) (k : SignalKind) : bool :=
  if negb term_installed then false
  else if negb intr_installed then false
  else match k with SIGTERM | SIGINT => true end.

(** The supervisor after some signals, each of them arriving while it waits for one: the
    shutdown channel and [force_exit]. *)
Definition supervisor (term_installed intr_installed : bool) (signals : list SignalKind) : bool * bool :=
  match filter (λ k, shutdown_signal term_installed intr_installed k = true) signals with
  | [] => (false, false)
  | [_] => (true, false)
  | _ => (true, true)
  end.

(** With both handlers the first signal begins the drain and any second one forces the exit;
    with either of them missing no signal is ever seen. *)
Lemma supervisor_signals term intr k1 k2 rest :
  supervisor term intr [] = (false, false) ∧
  supervisor term intr [k1] = (term && intr, false) ∧
  supervisor term intr (k1 :: k2 :: rest) = (term && intr, term && intr).
Proof.
  unfold supervisor. destruct term, intr; cbn.
  - split_and!; [done|by destruct k1|by destruct k1, k2].
  - induction rest as [|k rest IH]; [done|]. cbn in *. done.
  - induction rest as [|k rest IH]; [done|]. cbn in *. done.
  - induction rest as [|k rest IH]; [done|]. cbn in *. done.
Qed.

(** ** Draining connections *)

(** Why the drain loop ended. *)
Inductive DrainEnd := Forced | DeadlinePassed | Drained.

(** 250 ms, the longest the loop waits before it looks again, in nanoseconds. *)
Definition SLICE : Z := 250 * 10 ^ 6.

Definition grace_ns (secs : Z) : Z := secs * 10 ^ 9.

Section Drain.
(** What the [i]-th iteration observes: the [force_exit] flag, the clock, and whether a
    task ends within the time it waits. *)
Context (force : nat → bool) (clock : nat → Z) (joined : nat → bool).

(** The loop with [tasks] tasks left in the set, and the tasks left when it ends. *)
Fixpoint drain (fuel i tasks : nat) (drain_deadline : Z) : option (DrainEnd * nat) :=
  match fuel with
  | O => None
  | S fuel =>
      if force i then Some (Forced, tasks)
      else
        let remaining := Z.max 0 (drain_deadline - clock i) in
        if remaining =? 0 then Some (DeadlinePassed, tasks)
        else
          match tasks with
          | O => Some (Drained, O)
          | S rest =>
              if joined i then
                match rest with O => Some (Drained, O) | _ => drain fuel (S i) rest drain_deadline end
              else drain fuel (S i) tasks drain_deadline
          end
  end.

(** The clock does not go back, and an iteration in which no task ends waits for its
    whole slice. *)
Definition drain_clock (drain_deadline : Z) : Prop :=
  (∀ i, clock i ≤ clock (S i)) ∧
  ∀ i, joined i = false → clock i + Z.min (drain_deadline - clock i) SLICE ≤ clock (S i).

Lemma drain_measure deadline fuel i tasks :
  drain_clock deadline →
  Z.of_nat tasks * SLICE + (deadline - clock i) ≤ (Z.of_nat fuel - 1) * SLICE → (tasks < fuel)%nat →
  ∃ e left, drain fuel i tasks deadline = Some (e, left) ∧ (left ≤ tasks)%nat ∧
    match e with
    | Drained => left = 0%nat
    | Forced => ∃ j, force j = true
    | DeadlinePassed => ∃ j, deadline ≤ clock j
    end.
Proof.
  intros [Hmono Hwait]. change SLICE with 250000000 in *.
  revert i tasks. induction fuel as [|fuel IH]; intros i tasks Hm Hlt; [lia|]. cbn [drain].
  destruct (force i) eqn:Hf; [eauto 10|].
  destruct (Z.eqb_spec (Z.max 0 (deadline - clock i)) 0) as [Hd|Hd].
  { exists DeadlinePassed, tasks. split_and!; [done|done|]. exists i. lia. }
  destruct tasks as [|rest]; [eauto|].
  destruct (joined i) eqn:Hj.
  - destruct rest as [|rest]; [eauto 10 with lia|].
    destruct (IH (S i) (S rest)) as (e & left & -> & Hl & He).
    + specialize (Hmono i). lia.
    + lia.
    + exists e, left. split_and!; [done|lia|done].
  - specialize (Hwait i Hj). apply IH; lia.
Qed.

(** C32: the drain ends.  Whatever the tasks do and whenever signals come, the loop ends
    after at most one iteration per task, four per second of the grace period and one
    more; it gives
    up on running tasks only after a second signal or once the grace period is over, and
    otherwise leaves none behind. *)
Theorem drain_ends start secs tasks :
  drain_clock (start + grace_ns secs) → 0 ≤ secs → start ≤ clock 0%nat →
  ∃ e left, drain (tasks + 4 * Z.to_nat secs + 1) 0 tasks (start + grace_ns secs) = Some (e, left) ∧
    (left ≤ tasks)%nat ∧
    match e with
    | Drained => left = 0%nat
    | Forced => ∃ j, force j = true
    | DeadlinePassed => ∃ j, start + grace_ns secs ≤ clock j
    end.
Proof.
  intros Hc Hs H0. apply drain_measure; [done| |lia].
  change SLICE with 250000000. unfold grace_ns in *. lia.
Qed.
End Drain.

(** ** Shutdown, then start *)

Section Restart.
Context {P : Platform} {CFG : HasConfig} {B : Bincode}.

Lemma shutdown_saves s file n :
  enabled (persistence CONFIG) = true → save_on_shutdown (persistence CONFIG) = true →
  SAVE_IN_PROGRESS s = false →
  snapshot_file (system_time (ticks (core s))) (tick (core s)) = Ok (file, n) →
  snapshot_at_path (shutdown s).2 = Some file.
Proof.
  intros He Hsd Hb Hf. unfold shutdown, save_snapshot_sync, mbind, SM_bind. cbn. rewrite He, Hsd. cbn.
  rewrite Hb. cbn. by rewrite Hf.
Qed.


(** ** Both a snapshot and a log *)

Section Twice.
Context (HP : PlatformOk P) (HB : BincodeOk B) (Hmax : max_memory (memory CONFIG) = 0).
Context (policy : FsyncPolicy) (Hshards : 0 < cfg_num_shards (server CONFIG)).
Context (He : enabled (persistence CONFIG) = true) (Hsd : save_on_shutdown (persistence CONFIG) = true).
Context (Haof : aof_enabled (persistence CONFIG) = true).
Context (Hpolicy : fsync_parse (aof_fsync (persistence CONFIG)) = Ok policy).

Lemma shutdown_still s :
  AOF (shutdown s).2 = sync <$> AOF s ∧
  (core (shutdown s).2 = core s ∨ core (shutdown s).2 = tick (core s)).
Proof.
  unfold shutdown, mbind, SM_bind. cbn. set (s1 := set_aof _ s). destruct (_ && _); [|by split; [|left]].
  split; [apply (aof_save s1)|apply (save_core s1)].
Qed.

(** Startup loads the snapshot and replays the log on what it loaded. *)
Lemma start_over snapshot cmds j :
  Forall loggable cmds →
  let s0 := (start_store snapshot (boot snapshot j)).2 in
  let now := system_time (ticks (core s0)) in
  ∃ s', start snapshot (Some (concat (map frame cmds))) j = Ok s' ∧
        core s' = core (run_commands now cmds (set_core (tick (core s0)) s0)).
Proof.
  intros Hl s0 now. unfold start. fold s0. cbv zeta. clearbody s0. unfold start_aof. rewrite Haof, Hpolicy.
  unfold mbind, SM_bind. cbv zeta.
  change (lift get_timestamp s0) with (now, set_core (tick (core s0)) s0). cbn [fst snd].
  rewrite replay_frames; [|done| |].
  - cbn [fst snd]. eexists. split; reflexivity.
  - apply Forall_true. intros. apply stays_authenticated.
  - pose proof (frames_length cmds). lia.
Qed.

Lemma load_steadfast f c j :
  steadfast c → snapshot_fits c → system_time (ticks c) ≤ system_time j →
  snapshot_file (system_time (ticks c)) c = Ok f →
  let s0 := (start_store (Some f.1) (boot (Some f.1) j)).2 in
  steadfast (core s0) ∧ contents (core s0) = contents c.
Proof.
  intros [Hs Het] Hfit Hle Hf s0.
  destruct (load_saved_snapshot HP HB _ c (contents c) (core (boot (Some f.1) j))
    (agree_sim _ _ _ (sound_agree _ _ Hs)) Hfit (fresh_boot _ j Hshards) Hle) as (f' & n & loaded & Hf' & _ & Hsim & _).
  rewrite Hf in Hf'. injection Hf' as ->. cbn [fst] in *.
  assert (core s0 = (load_snapshot (Some f') (core (boot (Some f') j))).2) as ->.
  { unfold s0, start_store. by rewrite He. }
  apply (agree_eternal (system_time j)); [|done]. split; [exact Hsim|apply Hs].
Qed.

(** C38: with snapshots and the append-only file both enabled, a clean restart applies the
    whole log a second time.  Take a server started on a log of lasting commands (an empty
    one, say) and no snapshot, and any session of lasting commands as in [log_restores],
    without a memory limit, at the end of which no entry encodes to 4 GiB or more.  A clean
    shutdown, with [save_on_shutdown] and no save under way, syncs the log and writes the
    final snapshot; the next
    process starts no earlier by the clock.  Running the commands of that log on an empty store would
    give the server's database; but the next process, which starts without an error, holds
    the database one gets by running all of them once more on the server that was shut down,
    so that a counter that clients incremented comes back at twice its value (the example
    [counter_doubled]). *)
Theorem restart_applies_log_twice file cmds0 es i s j :
  lasting_file file cmds0 → start None file i = Ok s → lasting_session es s →
  let s1 := (run_events es s).2 in
  SAVE_IN_PROGRESS s1 = false → snapshot_fits (core s1) → system_time (ticks (core s1)) ≤ system_time j →
  let s2 := (shutdown s1).2 in
  ∃ a cmds s', AOF s2 = Some a ∧ aof_disk a = concat (map frame cmds) ∧
    yields cmds (contents (core s2)) ∧
    start (snapshot_at_path s2) (Some (aof_disk a)) j = Ok s' ∧
    ∀ now, 0 ≤ now → contents (core s') = contents (core (run_commands now cmds s2)).
Proof.
  intros Hfile Hs Hses s1 Hb Hfit Hle s2.
  destruct (session_tracked Hmax HP policy Hshards Haof Hpolicy file cmds0 None i es s Hfile (or_intror eq_refl) Hs Hses)
    as (cmds & a & Htr & _). fold s1 in Htr. clearbody s1.
  destruct (shutdown_still s1) as [Ha Hc]. fold s2 in Ha, Hc. rewrite (tr_aof _ _ _ _ Htr) in Ha.
  assert (steadfast (core s2) ∧ contents (core s2) = contents (core s1)) as [Hst2 Hc2].
  { pose proof (tr_store _ _ _ _ Htr) as [H1 H2]. destruct Hc as [-> | ->]; [done|].
    split; [|done]. split; [by apply sound_tick|done]. }
  assert (aof_disk (sync a) = concat (map frame cmds)) as Hd.
  { rewrite <- (aof_ok_log _ _ _ (tr_ok _ _ _ _ Htr)). by destruct (sync_log a) as (<- & _ & _ & -> & _). }
  exists (sync a), cmds. rewrite Hd, Hc2.
  assert (∃ f, snapshot_file (system_time (ticks (core s1))) (core s1) = Ok f) as [f Hf].
  { eexists. exact (snapshot_file_spec HB _ (core s1) (proj2 Hfit)). }
  rewrite (surjective_pairing f) in Hf. unfold s2. rewrite (shutdown_saves s1 f.1 f.2 He Hsd Hb Hf).
  destruct (load_steadfast (f.1, f.2) (core s1) j (tr_store _ _ _ _ Htr) Hfit Hle Hf) as [Hst0 Hc0].
  destruct (start_over (Some f.1) cmds j (aof_ok_loggable _ _ _ (tr_ok _ _ _ _ Htr))) as (s' & Hs' & Hcore).
  exists s'. split_and!; [exact Ha|done|apply Htr|exact Hs'|]. intros now Hn. rewrite Hcore.
  refine (eq_sym (proj2 (proj2 (rerun Hmax HP cmds _ now _ _ (tr_lasting _ _ _ _ Htr) _ Hn _ Hst2 _)))).
  - apply system_time_u64.
  - destruct Hst0. split; [by apply sound_tick|done].
  - exact (eq_trans Hc2 (eq_sym Hc0)).
Qed.
End Twice.

(** ** Keys that no eviction finds *)

(** No queue holds a key. *)
Definition unqueued (c : Core) : Prop :=
  Forall (λ q, small_queue q = [] ∧ main_queue q = []) (s3fifo_queues c).

Lemma unqueued_at c i : unqueued c → small_queue (queues_at c i) = [] ∧ main_queue (queues_at c i) = [].
Proof.
  intros Hu. unfold queues_at. destruct (s3fifo_queues c !! i) as [q|] eqn:Hq; [|done].
  unfold unqueued in Hu. rewrite Forall_lookup in Hu. by apply (Hu i).
Qed.

Lemma unqueued_rounds n c :
  unqueued c →
  let r := evict_s3fifo_rounds n c in
  r.1 = 0 ∧ unqueued r.2 ∧ MEMORY_USED r.2 = MEMORY_USED c ∧ shards r.2 = shards c.
Proof.
  revert c. induction n as [|n IH]; intros c Hu; [done|]. cbn [evict_s3fifo_rounds].
  unfold mbind, M_bind. cbv zeta. destruct (sample_shard c) as [i c1] eqn:E1. cbn [fst snd].
  assert (unqueued c1 ∧ MEMORY_USED c1 = MEMORY_USED c ∧ shards c1 = shards c) as (Hu1 & Hm1 & Hs1).
  { unfold sample_shard, rand_usize, mbind, M_bind in E1. cbn in E1. by injection E1 as <- <-. }
  destruct (unqueued_at c1 i Hu1) as [Hs Hm].
  unfold take_victim, mbind, M_bind. cbn. rewrite Hs. cbn. unfold pop_victim. rewrite Hs, Hm. cbn.
  rewrite <- Hm1, <- Hs1. apply (IH (put_queues i (queues_at c1 i) c1)). unfold unqueued, put_queues in *. cbn.
  apply Forall_insert; [done|]. by apply unqueued_at.
Qed.

Lemma load_entries_queues n l now loaded c :
  s3fifo_queues (load_entries n l now loaded c).2 = s3fifo_queues c.
Proof.
  revert l loaded c. induction n as [|n IH]; intros l loaded c; cbn [load_entries]; [done|].
  repeat case_match; try done. unfold mbind, M_bind. cbv zeta. rewrite IH.
  unfold load_entry. cbn. by destruct tracks_memory.
Qed.

Lemma load_snapshot_queues f c : s3fifo_queues (load_snapshot f c).2 = s3fifo_queues c.
Proof.
  unfold load_snapshot. repeat case_match; try done. unfold mbind, M_bind. cbv zeta.
  by rewrite load_entries_queues.
Qed.

Lemma start_unqueued snapshot i s :
  aof_enabled (persistence CONFIG) = false → start snapshot None i = Ok s → unqueued (core s).
Proof.
  intros Haof. unfold start, start_aof. rewrite Haof. cbn [mret SM_ret fst snd]. intros [= <-].
  assert (unqueued (core (boot snapshot i))) as Hb.
  { unfold unqueued, boot, new. destruct (queue_capacities _) as [[? ?] ?]. cbn.
    by apply Forall_replicate. }
  unfold start_store. destruct (enabled _); [|done]. unfold mbind, SM_bind, lift, unqueued. cbn.
  by rewrite load_snapshot_queues.
Qed.

Lemma evict_loop_unqueued n needed c :
  EVICTION_POLICY = AllKeysS3Fifo → unqueued c →
  MEMORY_USED (evict_loop n 0 needed c).2 = MEMORY_USED c ∧ shards (evict_loop n 0 needed c).2 = shards c.
Proof.
  intros Hp Hu. destruct n as [|n]; [done|]. cbn [evict_loop]. destruct (0 <? needed); [|done].
  rewrite Hp. cbn [evict_one]. unfold evict_s3fifo, mbind, M_bind. cbn.
  destruct (unqueued_rounds (Z.to_nat (num_shards c)) c Hu) as (-> & _ & ? & ?). done.
Qed.

(** After a restart S3-FIFO evicts nothing.  Loading a snapshot puts no key in a queue,
    so once the loaded data and an incoming write exceed [max_memory], [evict_if_needed]
    refuses it without removing a single key, although the policy is to evict. *)
Theorem restored_keys_not_evicted snapshot i s needed :
  EVICTION_POLICY = AllKeysS3Fifo → aof_enabled (persistence CONFIG) = false →
  start snapshot None i = Ok s → tracks_memory = true →
  max_memory (memory CONFIG) < u64 (MEMORY_USED (core s) + needed) →
  (evict_if_needed needed (core s)).1 = false ∧
  shards (evict_if_needed needed (core s)).2 = shards (core s).
Proof.
  intros Hp Haof Hs Ht Hm. pose proof (start_unqueued _ _ _ Haof Hs) as Hu.
  unfold evict_if_needed, mbind, M_bind. unfold tracks_memory in Ht.
  destruct (Z.eqb_spec (max_memory (memory CONFIG)) 0) as [E|_]; [rewrite E in Ht; done|].
  cbn -[evict_loop u64 EVICTION_POLICY]. rewrite (proj2 (Z.leb_gt _ _) Hm).
  rewrite bool_decide_false by (by rewrite Hp).
  destruct (evict_loop_unqueued MAX_ATTEMPTS needed (core s) Hp Hu) as [Hmem Hsh].
  cbn -[evict_loop u64]. rewrite Hmem. split; [by apply Z.leb_gt|done].
Qed.
End Restart.

(** ** Examples *)

Lemma drain_ends_witness :
  ∃ e left,
    drain (λ _, false) (λ i, 250 * 10 ^ 6 * Z.of_nat i) (λ i, (i =? 2)%nat) (2 + 4 * Z.to_nat 1 + 1) 0 2
      (0 + grace_ns 1) = Some (e, left) ∧
    (left ≤ 2)%nat ∧
    match e with
    | Drained => left = 0%nat
    | Forced => ∃ j : nat, false = true
    | DeadlinePassed => ∃ j, 0 + grace_ns 1 ≤ 250 * 10 ^ 6 * Z.of_nat j
    end.
Proof.
  apply (drain_ends (λ _, false) (λ i, 250 * 10 ^ 6 * Z.of_nat i) (λ i, (i =? 2)%nat) 0 1 2).
  - split; [|intros i _]; unfold SLICE, grace_ns; intros; lia.
  - lia.
  - reflexivity.
Defined.

Section Examples.
#[local] Existing Instance demo_platform.
#[local] Existing Instance demo_bincode.

Section Saved.
#[local] Instance demo_saved : HasConfig := demo_snapshots 0 NoEviction.

(** A server after [SET k v], and after [SET k v] and [BGSAVE]. *)
Definition demo_set : option (bytes * ConnectionState) * Server :=
  run_event (Command [bs "SET"; bs "k"; bs "v"] [] connection_new 1000) (boot None 0).
Definition demo_bgsave : option (bytes * ConnectionState) * Server :=
  run_event (Command [bs "BGSAVE"] [] connection_new 1000) demo_set.2.

Definition served_after (s : Server) : option (EntryValue * option Z) :=
  match start (snapshot_at_path (shutdown s).2) None 0 with
  | Ok s' => live 1000 (core s') (bs "k")
  | Err _ => None
  end.

Definition kept_store : Core := (set (bs "k") (bs "v") None 100 (new 2)).2.
Definition kept_db : Db := <[bs "k":=(EV_String (bs "v"), None)]> ∅.

Lemma kept_store_sim : sim 100 kept_store kept_db.
Proof. apply (simulates_op 100 (OSet (bs "k") (bs "v") None) (new 2) ∅), sim_new. done. Qed.

Lemma kept_store_fits : snapshot_fits kept_store.
Proof.
  split; [|done]. apply Forall_forall. intros [k e] Hin.
  assert (store_entries kept_store = [(bs "k", mkEntry (EV_String (bs "v")) None 0 0 0)]) as E
    by reflexivity.
  rewrite E in Hin. apply list_elem_of_singleton in Hin as [= -> ->]. split; [|done].
  vm_compute. reflexivity.
Qed.


(** The final snapshot is skipped while a [BGSAVE] is pending.  A client's [SET] is
    acknowledged and a shutdown would save it; but if a [BGSAVE] has been acknowledged and
    its thread has not yet begun, the final save finds [SAVE_IN_PROGRESS] set and gives up,
    the process ends, and the next start does not have the key. *)
Theorem shutdown_during_bgsave :
  fst <$> demo_set.1 = Some (write_simple_string [] (bs "OK")) ∧
  fst <$> demo_bgsave.1 = Some (write_simple_string [] (bs "Background saving started")) ∧
  served_after demo_set.2 = Some (EV_String (bs "v"), None) ∧
  served_after demo_bgsave.2 = None.
Proof. vm_compute. split_and!; reflexivity. Qed.
End Saved.

Section Doubled.
#[local] Existing Instance demo_durable.

Definition incr_session : list Event :=
  [Command [bs "INCR"; bs "n"] [] connection_new 1000; Command [bs "INCR"; bs "n"] [] connection_new 1000].
Definition incremented : Server := (run_events incr_session booted).2.

Lemma incremented_fits : snapshot_fits (core incremented).
Proof.
  assert (∃ a b c, store_entries (core incremented) = [(bs "n", mkEntry (EV_String (bs "2")) None a b c)])
    as (a & b & c & E) by (do 3 eexists; vm_compute; reflexivity).
  unfold snapshot_fits. rewrite E. split; [|done]. apply Forall_singleton. split; [vm_compute; reflexivity|done].
Qed.

Lemma restart_applies_log_twice_witness :
  let s2 := (shutdown incremented).2 in
  ∃ a cmds s', AOF s2 = Some a ∧ aof_disk a = concat (map frame cmds) ∧
    yields cmds (contents (core s2)) ∧
    start (snapshot_at_path s2) (Some (aof_disk a)) 5 = Ok s' ∧
    ∀ now, 0 ≤ now → contents (core s') = contents (core (run_commands now cmds s2)).
Proof.
  apply (@restart_applies_log_twice demo_platform demo_durable demo_bincode demo_platform_ok
           demo_bincode_ok eq_refl Always eq_refl eq_refl eq_refl
           eq_refl eq_refl None [] incr_session 0 booted 5).
  - exact empty_lasting.
  - reflexivity.
  - cbn [lasting_session incr_session].
    split; [|split; [|exact I]]; (split; [lia|split; [split; [by repeat constructor|done]|by repeat constructor]]).
  - vm_compute. reflexivity.
  - exact incremented_fits.
  - vm_compute. discriminate.
Defined.

(** Incremented twice, the counter comes back as 4. *)
Example counter_doubled :
  (get (bs "n") 1000 (core incremented)).1 = Some (bs "2") ∧
  match AOF (shutdown incremented).2 with
  | Some a =>
      match start (snapshot_at_path (shutdown incremented).2) (Some (aof_disk a)) 5 with
      | Ok s => (get (bs "n") 1000 (core s)).1 = Some (bs "4")
      | Err _ => False
      end
  | None => False
  end.
Proof. split; vm_compute; reflexivity. Qed.
End Doubled.

Section Evicting.
#[local] Instance demo_evicting : HasConfig := demo_snapshots 70 AllKeysS3Fifo.

Definition kept_file : option bytes := snapshot_at_path (shutdown (set_core kept_store (boot None 0))).2.
Definition demo_restored : Server :=
  match start kept_file None 0 with Ok s => s | Err _ => boot None 0 end.

Lemma restored_keys_not_evicted_witness :
  (evict_if_needed 10 (core demo_restored)).1 = false ∧
  shards (evict_if_needed 10 (core demo_restored)).2 = shards (core demo_restored).
Proof.
  apply (restored_keys_not_evicted kept_file 0 demo_restored 10); vm_compute; reflexivity.
Defined.
End Evicting.
End Examples.
