(* ===== verification/Faults.v ===== *)
(** * Failing file operations ([src/aof.rs], [src/persistence.rs])

    The log and the snapshot when the file system fails: a disk that fills up, a sync or
    a rename that returns an error.  The operations of Aof.v and Server.v take a list of
    outcomes, one for each call that can fail, and follow the code's early returns. *)

From S2P Require Import Prelude Decimal Protocol Config S3Fifo State Store Steps.
From S2P Require Import Aof Snapshot Server Demo.

(** ** Outcomes *)

(** What the next calls of the file system do: [None] succeeds, [Some n] fails, a write
    after it took [n] bytes.  After the list, calls succeed. *)
Definition Faulty (A : Type) : Type := list (option nat) → A * list (option nat).

#[global] Instance Faulty_ret : MRet Faulty := λ A a fs, (a, fs).
#[global] Instance Faulty_bind : MBind Faulty := λ A B f m fs, let r := m fs in f r.1 r.2.

Definition next_outcome : Faulty (option nat) :=
  λ fs, match fs with [] => (None, []) | f :: fs => (f, fs) end.

(** A call without data: whether it succeeds. *)
Definition call : Faulty bool := f ← next_outcome; mret (bool_decide (f = None)).

(** [File::write_all]: how many bytes the kernel takes; fewer than all is an error. *)
Definition write_file (d : bytes) : Faulty nat :=
  f ← next_outcome; mret (match f with None => length d | Some n => min n (length d) end).

(** ** The buffered writer *)

(** [BufWriter::flush_buf]: on an error the buffer keeps what was not written. *)
Definition flush_buf (w : bytes * bytes) : Faulty (bool * (bytes * bytes)) :=
  if bool_decide (w.1 = []) then mret (true, w)
  else
    n ← write_file w.1;
    mret ((n =? length w.1)%nat, (drop n w.1, w.2 ++ take n w.1)).

(** [BufWriter::write_all]. *)
Definition bufwriter_write_io (cap : Z) (w : bytes * bytes) (d : bytes) : Faulty (bool * (bytes * bytes)) :=
  if len d <? cap - len w.1 then mret (true, (w.1 ++ d, w.2))
  else
    r ← (if cap - len w.1 <? len d then flush_buf w else mret (true, w));
    let '(ok, w) := r in
    if negb ok then mret (false, w)
    else if cap <=? len d then
      n ← write_file d; mret ((n =? length d)%nat, (w.1, w.2 ++ take n d))
    else mret (true, (w.1 ++ d, w.2)).

(** The [write_all]s of [write_resp_array], up to the first error. *)
Fixpoint write_pieces_io (cap : Z) (w : bytes * bytes) (pieces : list bytes)
    : Faulty (bool * (bytes * bytes)) :=
  match pieces with
  | [] => mret (true, w)
  | d :: pieces =>
      r ← bufwriter_write_io cap w d;
      if r.1 : bool then write_pieces_io cap r.2 pieces else mret r
  end.

(** ** The log *)

Definition set_writer (w : bytes * bytes) (a : Aof) : Aof :=
  mkAof w.1 w.2 (aof_disk a) (fsync a) (dirty a) (size_bytes a) (last_rewrite_size a)
    (rewrite_in_progress a).

(** [w.flush()?; w.get_ref().sync_data()?]: a successful sync makes durable all the
    kernel was given. *)
Definition flush_sync_io (a : Aof) : Faulty (bool * Aof) :=
  r ← flush_buf (aof_buf a, aof_kernel a);
  let '(ok, w) := r in
  let a := set_writer w a in
  if negb ok then mret (false, a)
  else ok ← call; mret (if ok : bool then (true, flush_sync a) else (false, a)).

(** [Aof::append] and [Aof::sync]; the flag tells [Ok] from [Err]. *)
Definition append_io (command : list bytes) (a : Aof) : Faulty (bool * Aof) :=
  r ← write_pieces_io AOF_CAPACITY (aof_buf a, aof_kernel a) (frame_pieces command);
  let '(ok, w) := r in
  let a := set_writer w a in
  if negb ok then mret (false, a)
  else
    r ← (match fsync a with
         | Always => flush_sync_io a
         | EverySec | No => mret (true, set_dirty true a)
         end);
    let '(ok, a) := r in
    if negb ok then mret (false, a)
    else
      mret (true, mkAof (aof_buf a) (aof_kernel a) (aof_disk a) (fsync a) (dirty a)
                    (u64 (size_bytes a + zsum len (frame_pieces command)))
                    (last_rewrite_size a) (rewrite_in_progress a)).

Definition sync_io (a : Aof) : Faulty (bool * Aof) :=
  r ← flush_sync_io a;
  let '(ok, a) := r in
  mret (if ok : bool then (true, set_dirty false a) else (false, a)).

(** ** A failed write tears at most its own frame *)

Lemma write_file_take d fs : (write_file d fs).1 = length d ∨ ((write_file d fs).1 < length d)%nat.
Proof. unfold write_file, mbind, Faulty_bind, mret, Faulty_ret. cbn. destruct (next_outcome fs).1; cbn; lia. Qed.

Lemma flush_buf_bytes w fs :
  let r := (flush_buf w fs).1 in
  r.2.2 ++ r.2.1 = w.2 ++ w.1 ∧ (r.1 = true → r.2.1 = []).
Proof.
  unfold flush_buf. case_bool_decide as Hw; [done|]. unfold mbind, Faulty_bind. cbn.
  rewrite <- app_assoc, take_drop. split; [done|]. intros Hn%Nat.eqb_eq. rewrite Hn. by rewrite drop_all.
Qed.

Lemma bufwriter_write_io_bytes cap w d fs :
  let r := (bufwriter_write_io cap w d fs).1 in
  ∃ n, r.2.2 ++ r.2.1 = w.2 ++ w.1 ++ take n d ∧ (r.1 = true → take n d = d).
Proof.
  unfold bufwriter_write_io. destruct (len d <? cap - len w.1) eqn:H1.
  { exists (length d). cbn. by rewrite firstn_all. }
  unfold mbind, Faulty_bind. cbv zeta. destruct (cap - len w.1 <? len d) eqn:H2.
  - pose proof (flush_buf_bytes w fs) as [Hb He]. cbv zeta in *.
    destruct (flush_buf w fs) as [[[] [buf kernel]] fs']; cbn [fst snd negb] in *.
    + specialize (He eq_refl). subst buf. rewrite app_nil_r in Hb. subst kernel.
      destruct (cap <=? len d); cbn -[Nat.eqb].
      * exists (write_file d fs').1. rewrite app_nil_r, <- app_assoc. split; [done|].
        intros Hn%Nat.eqb_eq. rewrite Hn. apply firstn_all.
      * exists (length d). rewrite firstn_all. by rewrite <- app_assoc.
    + exists 0%nat. rewrite firstn_O, app_nil_r. done.
  - cbn [fst snd negb mret Faulty_ret]. destruct (cap <=? len d) eqn:H3; cbn -[Nat.eqb].
    + assert (w.1 = []) as Hw.
      { destruct w as [[|b buf] kernel]; [done|]. cbn [fst] in *. rewrite len_cons in *.
        pose proof (len_nonneg buf). lia. }
      rewrite Hw. exists (write_file d fs).1. rewrite app_nil_r. split; [done|].
      intros Hn%Nat.eqb_eq. rewrite Hn. apply firstn_all.
    + exists (length d). by rewrite firstn_all.
Qed.

Lemma write_pieces_io_bytes cap w pieces fs :
  let r := (write_pieces_io cap w pieces fs).1 in
  ∃ n, r.2.2 ++ r.2.1 = w.2 ++ w.1 ++ take n (concat pieces) ∧
    (r.1 = true → take n (concat pieces) = concat pieces).
Proof.
  revert w fs. induction pieces as [|d pieces IH]; intros w fs; cbn [write_pieces_io concat].
  { exists 0%nat. cbn. by rewrite app_nil_r. }
  unfold mbind, Faulty_bind. cbv zeta.
  destruct (bufwriter_write_io_bytes cap w d fs) as (n & Hb & Hok). cbv zeta in *.
  destruct (bufwriter_write_io cap w d fs) as [[[] w'] fs']; cbn [fst snd] in *.
  - specialize (Hok eq_refl). rewrite Hok in Hb. destruct (IH w' fs') as (m & Hm & Hall).
    exists (length d + m)%nat. rewrite take_app_add. split.
    + rewrite Hm, (app_assoc w'.2), Hb. by rewrite <- !app_assoc.
    + intros Hr. by rewrite Hall.
  - exists (min n (length d)). cbn [mret Faulty_ret fst snd]. split; [|done].
    rewrite take_app_le by lia. rewrite Hb. by rewrite <- take_take, firstn_all.
Qed.

(** A frame that fits in the buffer is buffered whole. *)
Lemma write_pieces_io_fit cap w pieces fs :
  len w.1 + len (concat pieces) < cap →
  write_pieces_io cap w pieces fs = ((true, (w.1 ++ concat pieces, w.2)), fs).
Proof.
  revert w. induction pieces as [|d pieces IH]; intros [buf kernel] Hfit; cbn [write_pieces_io concat] in *.
  { by rewrite app_nil_r. }
  cbn [fst snd] in *. rewrite len_app in Hfit. pose proof (len_nonneg (concat pieces)).
  unfold mbind, Faulty_bind, bufwriter_write_io. cbn [fst snd].
  rewrite (proj2 (Z.ltb_lt _ _)) by lia. cbn [fst snd mret Faulty_ret].
  rewrite IH; cbn [fst snd]; [by rewrite <- app_assoc|]. rewrite len_app. lia.
Qed.

Lemma flush_sync_io_log a fs :
  let r := (flush_sync_io a fs).1 in
  aof_log_bytes r.2 = aof_log_bytes a ∧ size_bytes r.2 = size_bytes a ∧
  (r.1 = true → aof_disk r.2 = aof_log_bytes r.2).
Proof.
  unfold flush_sync_io, mbind, Faulty_bind. cbv zeta.
  pose proof (flush_buf_bytes (aof_buf a, aof_kernel a) fs) as [Hb He]. cbv zeta in *.
  destruct (flush_buf _ fs) as [[[] [buf kernel]] fs']; cbn [fst snd negb] in *.
  - specialize (He eq_refl). subst buf. rewrite app_nil_r in Hb. subst kernel.
    unfold aof_log_bytes. destruct (call fs') as [[] fs'']; cbn; rewrite ?app_nil_r; done.
  - unfold aof_log_bytes. cbn. rewrite Hb. done.
Qed.

#[local] Arguments frame : simpl never.

(** C22: a failing disk tears at most the frame being appended.  Whatever calls fail, [append]
    leaves the log as it was followed by a prefix of the frame of its command; if it
    reports success the frame is whole, counted in [size_bytes] and, under [always],
    durable together with everything before it; if it fails, [size_bytes] does not move.  A
    frame that fits in the free part of the 64 KiB buffer is never torn, so the log stays
    readable. *)
Theorem append_under_faults command a fs :
  let r := (append_io command a fs).1 in
  ∃ n, aof_log_bytes r.2 = aof_log_bytes a ++ take n (frame command) ∧
    (r.1 = true → take n (frame command) = frame command ∧
       size_bytes r.2 = u64 (size_bytes a + len (frame command)) ∧
       (fsync a = Always → aof_disk r.2 = aof_log_bytes r.2)) ∧
    (r.1 = false → size_bytes r.2 = size_bytes a) ∧
    (len (aof_buf a) + len (frame command) < AOF_CAPACITY → take n (frame command) = frame command).
Proof.
  unfold append_io, mbind, Faulty_bind. cbv zeta. rewrite zsum_len_concat. fold (frame command).
  destruct (write_pieces_io_bytes AOF_CAPACITY (aof_buf a, aof_kernel a) (frame_pieces command) fs)
    as (n & Hb & Hok). fold (frame command) in *.
  pose proof (write_pieces_io_fit AOF_CAPACITY (aof_buf a, aof_kernel a) (frame_pieces command) fs) as Hfit.
  fold (frame command) in Hfit. cbv zeta in *.
  destruct (write_pieces_io _ _ _ fs) as [[[] w] fs']; cbn [fst snd negb] in *.
  - specialize (Hok eq_refl). exists n.
    assert (aof_log_bytes (set_writer w a) = aof_log_bytes a ++ take n (frame command)) as Hlog.
    { unfold aof_log_bytes. cbn. rewrite Hb. by rewrite !app_assoc. }
    destruct (fsync a) eqn:Hp; cbn [fsync set_writer] in *; rewrite ?Hp.
    + pose proof (flush_sync_io_log (set_writer w a) fs') as (Hl & Hs & Hd). cbv zeta in *.
      destruct (flush_sync_io (set_writer w a) fs') as [[[] a'] fs'']; cbn [fst snd negb] in *.
      * unfold aof_log_bytes in *. cbn. rewrite Hl, Hlog, Hs. split_and!; try done.
        intros _. split_and!; try done. intros _. rewrite (Hd eq_refl), Hl. by rewrite Hlog.
      * cbn [mret Faulty_ret fst snd]. rewrite Hl, Hlog. split_and!; done.
    + cbn. split_and!; done.
    + cbn. split_and!; done.
  - exists n. cbn [mret Faulty_ret fst snd]. unfold aof_log_bytes. cbn. rewrite Hb.
    rewrite <- !app_assoc. split_and!; try done. intros Hlt. by specialize (Hfit Hlt).
Qed.

(** Without failures these are the operations of Aof.v. *)
Lemma flush_buf_ok w : flush_buf w [] = ((true, ([], w.2 ++ w.1)), []).
Proof.
  destruct w as [buf kernel]. unfold flush_buf. case_bool_decide as Hb; cbn [fst snd] in *.
  - by rewrite Hb, app_nil_r.
  - unfold mbind, Faulty_bind. change (write_file buf []) with (length buf, @nil (option nat)). cbv zeta.
    cbn [fst snd mret Faulty_ret]. by rewrite Nat.eqb_refl, drop_all, firstn_all.
Qed.

Lemma bufwriter_write_io_ok cap w d : bufwriter_write_io cap w d [] = ((true, bufwriter_write cap w d), []).
Proof.
  destruct w as [buf kernel]. unfold bufwriter_write_io, bufwriter_write. cbn [fst snd].
  destruct (len d <? cap - len buf); [done|]. unfold mbind, Faulty_bind. cbv zeta.
  destruct (cap - len buf <? len d); rewrite ?flush_buf_ok; cbn [fst snd negb mret Faulty_ret];
    (destruct (cap <=? len d); [|done]);
    change (write_file d []) with (length d, @nil (option nat)); cbn [fst snd];
    by rewrite Nat.eqb_refl, firstn_all.
Qed.

Lemma write_pieces_io_ok cap w pieces :
  write_pieces_io cap w pieces [] = ((true, fold_left (bufwriter_write cap) pieces w), []).
Proof.
  revert w. induction pieces as [|d pieces IH]; intros w; [done|]. cbn [write_pieces_io fold_left].
  unfold mbind, Faulty_bind. rewrite bufwriter_write_io_ok. cbn [fst snd]. apply IH.
Qed.

Lemma flush_sync_io_ok a : flush_sync_io a [] = ((true, flush_sync a), []).
Proof.
  unfold flush_sync_io, mbind, Faulty_bind. rewrite flush_buf_ok. cbn. unfold flush_sync. cbn.
  by rewrite app_nil_r.
Qed.

Lemma append_io_ok command a : append_io command a [] = ((true, append command a), []).
Proof.
  unfold append_io, append, write_resp_array, mbind, Faulty_bind. rewrite write_pieces_io_ok.
  cbn [fst snd negb]. destruct (fold_left _ _ _) as [buf kernel]. unfold set_writer. cbn [fst snd].
  by destruct (fsync a); cbn [fsync]; rewrite ?flush_sync_io_ok.
Qed.

(** ** Snapshots *)

(** [?] after a call that can fail. *)
Definition and_then {A C : Type} (m : Faulty (Result A bytes)) (f : A → Faulty (Result C bytes))
    : Faulty (Result C bytes) :=
  r ← m; match r with Ok a => f a | Err e => mret (Err e) end.

Notation "x ←? m ; k" := (and_then m (λ x, k))
  (at level 20, m at level 100, k at level 200, right associativity).

Section Save.
Context {P : Platform} {B : Bincode}.

(** The text of an [io::Error]. *)
Context (io_error : bytes).

(** A call of the file system and the prefix of its error. *)
Definition io (what : string) : Faulty (Result unit bytes) :=
  ok ← call; mret (if ok : bool then Ok tt else Err (bs what ++ io_error)).

(** The entry loop of [save_snapshot_sync]. *)
Fixpoint write_entries_io (now : Z) (entries : list (bytes * Entry)) (file : bytes) (count : Z)
    : Faulty (Result (bytes * Z) bytes) :=
  match entries with
  | [] => mret (Ok (file, count))
  | (k, e) :: entries =>
      if expired now e then write_entries_io now entries file count
      else
        encoded ←? mret (match serialize (snapshot_entry k e) with
                         | Ok b => Ok b
                         | Err e => Err (bs "Failed to serialize entry: " ++ e)
                         end);
        _ ←? io "Failed to write entry length: ";
        _ ←? io "Failed to write entry data: ";
        write_entries_io now entries (file ++ to_le_bytes 4 (u32 (len encoded)) ++ encoded)
          (u64 (count + 1))
  end.

(** The closure of [save_snapshot_sync] up to the rename: the file under the temporary
    name, and the count. *)
Definition snapshot_file_io (now : Z) (c : Core) : Faulty (Result (bytes * Z) bytes) :=
  _ ←? io "Failed to create snapshot file: ";
  _ ←? io "Failed to write header: ";
  _ ←? io "Failed to write version: ";
  _ ←? io "Failed to write timestamp: ";
  let file := SNAPSHOT_MAGIC ++ [u8_of SNAPSHOT_VERSION] ++ to_le_bytes 8 now in
  let entry_count_pos := length file in
  _ ←? io "Failed to get position: ";
  _ ←? io "Failed to write entry count: ";
  r ←? write_entries_io now (store_entries c) (file ++ to_le_bytes 8 0) 0;
  _ ←? io "Failed to seek: ";
  _ ←? io "Failed to write entry count: ";
  _ ←? io "Failed to flush: ";
  _ ←? io "Failed to rename snapshot file: ";
  mret (Ok (overwrite entry_count_pos (to_le_bytes 8 r.2) r.1, r.2)).

(** [save_snapshot_sync]. *)
Definition save_snapshot_io (fs : list (option nat)) : SM (Result Z bytes) :=
  busy ← get_s SAVE_IN_PROGRESS;
  modify_s (set_saving true);;
  if busy : bool then mret (Err (bs "Background save already in progress"))
  else
    now ← lift get_timestamp;
    c ← get_s core;
    result ← (match (snapshot_file_io now c fs).1 with
              | Ok (file, count) => modify_s (set_snapshot file now);; mret (Ok (usize count))
              | Err e => mret (Err e)
              end);
    modify_s (set_saving false);;
    mret result.

(** What succeeds under failures is what succeeds without. *)
Lemma and_then_Ok {A C : Type} (m : Faulty (Result A bytes)) (f : A → Faulty (Result C bytes)) fs r :
  (and_then m f fs).1 = Ok r → ∃ a fs', (m fs).1 = Ok a ∧ (f a fs').1 = Ok r.
Proof.
  unfold and_then, mbind, Faulty_bind. cbv zeta. destruct (m fs) as [[a|e] fs']; cbn; [eauto|done].
Qed.

Lemma write_entries_io_Ok now entries file count fs r :
  (write_entries_io now entries file count fs).1 = Ok r → write_entries now entries file count = Ok r.
Proof.
  revert file count fs. induction entries as [|[k e] entries IH]; intros file count fs;
    cbn [write_entries_io write_entries]; [done|].
  destruct (expired now e); [apply IH|].
  intros (encoded & fs1 & He & H1)%and_then_Ok. apply and_then_Ok in H1 as (? & ? & _ & H2).
  apply and_then_Ok in H2 as (? & ? & _ & H3). cbn in He.
  destruct (serialize _); [|done]. injection He as <-. by apply IH in H3.
Qed.

Lemma snapshot_file_io_Ok now c fs r : (snapshot_file_io now c fs).1 = Ok r → snapshot_file now c = Ok r.
Proof.
  unfold snapshot_file_io, snapshot_file, entries_file, snapshot_end, snapshot_header. do 6 (intros (? & ? & _ & H)%and_then_Ok; revert H).
  intros ([file count] & fs1 & Hw & H)%and_then_Ok. apply write_entries_io_Ok in Hw. rewrite Hw. revert H.
  do 4 (intros (? & ? & _ & H)%and_then_Ok; revert H). done.
Qed.

(** C23: a save that fails changes nothing that a restart or [LASTSAVE] would see.  Whatever
    call fails on the way - creating the file, any write, the seek, the flush or the rename -
    and also when an entry does not serialize, the snapshot in place is still the old one,
    the time of the last save has not moved and the next save can begin; and a save that
    reports success has done exactly what it does when nothing fails. *)
Theorem save_under_faults fs s :
  SAVE_IN_PROGRESS s = false →
  let r := save_snapshot_io fs s in
  match r.1 with
  | Ok n => r = save_snapshot_sync s
  | Err _ => r.2 = set_core (tick (core s)) s
  end.
Proof.
  intros Hb. unfold save_snapshot_io, save_snapshot_sync, mbind, SM_bind. cbn -[snapshot_file snapshot_file_io].
  rewrite Hb. cbn -[snapshot_file snapshot_file_io].
  destruct (snapshot_file_io _ _ fs).1 as [[file count]|e] eqn:E.
  - apply snapshot_file_io_Ok in E. by rewrite E.
  - cbn. destruct s. cbn in *. by subst.
Qed.
End Save.

(** ** Rewriting the log *)

(** The open log, and the file at [path] when it is another one. *)
Record Log := mkLog { log : Aof; other_file : option bytes }.

(** What is durable at [path]. *)
Definition file_at_path (l : Log) : bytes := default (aof_disk (log l)) (other_file l).

Definition set_rewriting (b : bool) (a : Aof) : Aof :=
  mkAof (aof_buf a) (aof_kernel a) (aof_disk a) (fsync a) (dirty a) (size_bytes a)
    (last_rewrite_size a) b.

Section Rewrite.
Context {P : Platform}.

(** [rewrite_inner].  Any failure in [write_store_snapshot] is before the log is touched. *)
Definition rewrite_inner_io (now : Z) (c : Core) (l : Log) : Faulty (bool * Log) :=
  ok ← call;
  if negb ok then mret (false, l)
  else
    r ← flush_buf (aof_buf (log l), aof_kernel (log l));
    let '(ok, w) := r in
    let a := set_writer w (log l) in
    if negb ok then mret (false, mkLog a (other_file l))
    else
      ok ← call;
      if negb ok then mret (false, mkLog a (other_file l))
      else
        let '(file, _, bytes) := write_store_snapshot now (store_entries c) [] 0 0 in
        ok ← call;
        if negb ok then mret (false, mkLog a (Some file))
        else
          mret (true, mkLog (mkAof [] [] file (fsync a) false bytes bytes (rewrite_in_progress a)) None).

(** [Aof::rewrite]; [None] when another one runs. *)
Definition rewrite_io (l : Log) (fs : list (option nat)) : M (option bool * Log) :=
  if rewrite_in_progress (log l) then mret (None, l)
  else
    now ← get_timestamp;
    c ← gets id;
    let '(ok, l) := (rewrite_inner_io now c (mkLog (set_rewriting true (log l)) (other_file l)) fs).1 in
    mret (Some ok, mkLog (set_rewriting false (log l)) (other_file l)).

(** The file a rewrite writes. *)
Definition rewritten (c : Core) : bytes :=
  (write_store_snapshot (system_time (ticks c)) (store_entries c) [] 0 0).1.1.

(** C24: a rewrite that fails loses no byte of the log.  Whichever call fails, the bytes of
    the log, its size and the size that triggers the next rewrite are as before, and the next
    rewrite can begin; at [path] there is still the file that was there, or, if only the
    reopening failed, the complete rewritten one.  A rewrite that succeeds is the rewrite
    of Aof.v, on the file at [path]. *)
Theorem rewrite_under_faults a fs c :
  rewrite_in_progress a = false →
  let r := rewrite_io (mkLog a None) fs c in
  let l := r.1.2 in
  match r.1.1 with
  | Some true => log l = (rewrite a c).1.2 ∧ other_file l = None
  | Some false =>
      aof_log_bytes (log l) = aof_log_bytes a ∧ size_bytes (log l) = size_bytes a ∧
      last_rewrite_size (log l) = last_rewrite_size a ∧ dirty (log l) = dirty a ∧
      rewrite_in_progress (log l) = false ∧
      (other_file l = None ∨ other_file l = Some (rewritten c))
  | None => False
  end.
Proof.
  intros Hp. unfold rewrite_io, rewrite. cbn [log]. rewrite Hp. unfold mbind, M_bind. cbv zeta.
  cbn [gets get_timestamp fst snd id log other_file]. unfold rewrite_inner_io, rewrite_inner, rewritten.
  unfold mbind, Faulty_bind.
  destruct (call fs) as [[] fs1]; cbn [fst snd negb]; [|cbn; eauto 10].
  pose proof (flush_buf_bytes (aof_buf a, aof_kernel a) fs1) as [Hb _]. cbv zeta in Hb.
  cbn [log set_rewriting aof_buf aof_kernel].
  destruct (flush_buf _ fs1) as [[[] [buf kernel]] fs2]; cbn [fst snd negb] in *.
  2:{ unfold aof_log_bytes. cbn. rewrite Hb. eauto 10. }
  destruct (call fs2) as [[] fs3]; cbn [fst snd negb]; [|unfold aof_log_bytes; cbn; rewrite Hb; eauto 10].
  change (store_entries (tick c)) with (store_entries c).
  destruct (write_store_snapshot _ _ _ _ _) as [[file n] b] eqn:E.
  destruct (call fs3) as [[] fs4]; cbn; [done|].
  unfold aof_log_bytes. cbn. rewrite Hb. split_and!; auto.
Qed.
End Rewrite.

(** ** Examples *)

Section Examples.
#[local] Existing Instance demo_platform.
#[local] Existing Instance demo_bincode.
#[local] Existing Instance demo_durable.

(** The disk is full at the flush. *)
Lemma save_under_faults_witness :
  let fs := replicate 8 None ++ [Some 0%nat] in
  let r := save_snapshot_io (bs "No space left on device") fs (boot None 0) in
  match r.1 with
  | Ok n => r = save_snapshot_sync (boot None 0)
  | Err _ => r.2 = set_core (tick (core (boot None 0))) (boot None 0)
  end.
Proof.
  intros fs. apply (save_under_faults (bs "No space left on device") fs (boot None 0)). reflexivity.
Defined.

Definition set_cmd (k v : bytes) : list bytes := [bs "SET"; k; v].
Definition demo_log : Aof := append (set_cmd (bs "a") (bs "1")) (aof_open [] Always).

Lemma rewrite_under_faults_witness :
  let r := rewrite_io (mkLog demo_log None) [None; Some 0%nat] (core (boot None 0)) in
  let l := r.1.2 in
  match r.1.1 with
  | Some true => log l = (rewrite demo_log (core (boot None 0))).1.2 ∧ other_file l = None
  | Some false =>
      aof_log_bytes (log l) = aof_log_bytes demo_log ∧ size_bytes (log l) = size_bytes demo_log ∧
      last_rewrite_size (log l) = last_rewrite_size demo_log ∧ dirty (log l) = dirty demo_log ∧
      rewrite_in_progress (log l) = false ∧
      (other_file l = None ∨ other_file l = Some (rewritten (core (boot None 0))))
  | None => False
  end.
Proof.
  apply (rewrite_under_faults demo_log [None; Some 0%nat] (core (boot None 0))). reflexivity.
Defined.

(** A value of 64 KiB, of which the disk takes 100 bytes before it is full. *)
Definition torn_log : bool * Aof :=
  (append_io (set_cmd (bs "big") (replicate (Z.to_nat AOF_CAPACITY) x61)) demo_log [None; Some 100%nat]).1.

(** A torn frame makes the log unreadable.  A [SET] of 64 KiB fails half way because the
    disk is full; the client is answered all the same, and once there is space the next [SET]
    is appended and synced without an error.  The replay reads the second command as part of
    the first, and the server refuses to start on the log. *)
Theorem torn_frame_refused :
  torn_log.1 = false ∧
  let r := (append_io (set_cmd (bs "b") (bs "2")) torn_log.2 []).1 in
  r.1 = true ∧ aof_disk r.2 = aof_log_bytes r.2 ∧
  start None (Some (aof_disk r.2)) 0 = Err (CorruptAof ShortRead).
Proof. vm_compute. split_and!; reflexivity. Qed.

(** If only the reopening of the rewritten log fails, later writes go to a file that no
    longer has a name.  Under [always] they are synced and reported durable, and none of them
    is at [path] when the server starts again. *)
Theorem reopen_failure_loses_writes :
  let c := (set (bs "a") (bs "1") None 1000 (core (boot None 0))).2 in
  let l := (rewrite_io (mkLog demo_log None) [None; None; Some 0%nat] c).1.2 in
  let r := (append_io (set_cmd (bs "b") (bs "2")) (log l) []).1 in
  r.1 = true ∧ aof_disk r.2 = aof_log_bytes r.2 ∧
  file_at_path (mkLog r.2 (other_file l)) = frame (set_cmd (bs "a") (bs "1")).
Proof. vm_compute. split_and!; reflexivity. Qed.
End Examples.
