(* ===== verification/Concurrency.v ===== *)
(** * Threads

    Commands of different connections run on different threads.  The other files
    run each operation to its end; here the operations whose steps the program
    does not make atomic are step relations on shared state: the save flag
    ([SAVE_IN_PROGRESS]), and the write and the logging of a command.  Procs.v does so
    for the handlers of strings, Hashes.v for [HSET] and [HDEL], Sweeps.v for the
    commands that walk the store, RewriteRace.v for the rewrite of the log. *)

From S2P Require Import Prelude Decimal Protocol Config S3Fifo State Store Steps StoreOps StoreSpec.
From S2P Require Import Memory Eviction Handlers HandlerSpec Aof Snapshot Server Demo.

(** ** The save flag *)

Module SaveFlag.

(** Where a thread is in [BGSAVE] and [save_snapshot_sync]. *)
Inductive Pc :=
| BgStart          (* execute_command, before the swap *)
| BgSpawned        (* the spawned thread, before it clears the flag *)
| SaveStart        (* save_snapshot_sync, before the swap; SAVE starts here *)
| Saving           (* writing the temporary file *)
| Saved
| Refused.         (* Background save already in progress *)

Record State := mkState { flag : bool; threads : list Pc }.

(** The next step of a thread: where it goes, and the flag. *)
Definition advance (pc : Pc) (flag : bool) : Pc * bool :=
  match pc with
  | BgStart => (if flag then Refused else BgSpawned, true)
  | BgSpawned => (SaveStart, false)
  | SaveStart => (if flag then Refused else Saving, true)
  | Saving => (Saved, false)
  | Saved | Refused => (pc, flag)
  end.

Inductive step : State → State → Prop :=
| step_thread b ts i pc :
    ts !! i = Some pc →
    step (mkState b ts) (mkState (advance pc b).2 (<[i:=(advance pc b).1]> ts)).

(** The threads that hold the flag. *)
Definition holds (pc : Pc) : Z := match pc with BgSpawned | Saving => 1 | _ => 0 end.
Definition saving (pc : Pc) : Z := match pc with Saving => 1 | _ => 0 end.

Definition flag_ok (s : State) : Prop := zsum holds (threads s) = if flag s then 1 else 0.

Lemma holds_nonneg pc : 0 ≤ holds pc.
Proof. by destruct pc. Qed.

Lemma holds_le ts i pc : ts !! i = Some pc → holds pc ≤ zsum holds ts.
Proof.
  intros Hi. rewrite <- (take_drop_middle ts i pc Hi), zsum_app. unfold zsum at 2. cbn [foldr].
  pose proof (zsum_nonneg holds (take i ts) holds_nonneg).
  pose proof (zsum_nonneg holds (drop (S i) ts) holds_nonneg). unfold zsum in *. lia.
Qed.

Lemma flag_ok_step s s' : step s s' → flag_ok s → flag_ok s'.
Proof.
  intros [b ts i pc Hi]. unfold flag_ok. cbn [flag threads]. intros Hs.
  rewrite (zsum_insert holds ts i pc _ Hi). pose proof (holds_le ts i pc Hi).
  destruct pc, b; cbn in *; lia.
Qed.

Lemma flag_ok_steps s s' : rtc step s s' → flag_ok s → flag_ok s'.
Proof. induction 1; eauto using flag_ok_step. Qed.

Lemma start_ok ts : Forall (λ pc, pc = BgStart ∨ pc = SaveStart) ts → flag_ok (mkState false ts).
Proof.
  unfold flag_ok, zsum. cbn [flag threads].
  induction 1 as [|pc ts [-> | ->] _ IH]; cbn [foldr holds]; [done|lia..].
Qed.

Lemma saving_le ts : zsum saving ts ≤ zsum holds ts.
Proof.
  induction ts as [|pc ts IH]; [done|]. unfold zsum in *. cbn [foldr]. destruct pc; cbn; lia.
Qed.

(** C26: at most one snapshot is written at a time.  However the threads of any number
    of [SAVE], [BGSAVE] and periodic saves interleave, including the moment when a
    [BGSAVE] thread clears the flag before it sets it again, never two of them are
    writing the temporary file. *)
Theorem one_saver ts s :
  Forall (λ pc, pc = BgStart ∨ pc = SaveStart) ts → rtc step (mkState false ts) s →
  zsum saving (threads s) ≤ 1.
Proof.
  intros Hts Hr. pose proof (flag_ok_steps _ _ Hr (start_ok ts Hts)) as Hok.
  pose proof (saving_le (threads s)). unfold flag_ok in Hok. destruct (flag s); lia.
Qed.

(** A [BGSAVE] whose thread has cleared the flag, overtaken by a [SAVE]. *)
Lemma overtaken : rtc step (mkState false [BgStart; SaveStart]) (mkState true [Refused; Saving]).
Proof.
  eapply rtc_l; [by apply (step_thread _ _ 0)|]. eapply rtc_l; [by apply (step_thread _ _ 0)|].
  eapply rtc_l; [by apply (step_thread _ _ 1)|]. eapply rtc_l; [by apply (step_thread _ _ 0)|].
  apply rtc_refl.
Qed.

Lemma one_saver_witness : zsum saving (threads (mkState true [Refused; Saving])) ≤ 1.
Proof.
  apply (one_saver [BgStart; SaveStart] (mkState true [Refused; Saving])); [|exact overtaken].
  constructor; [by left|]. constructor; [by right|]. constructor.
Defined.
End SaveFlag.

(** ** Writing and logging *)

Module LogOrder.
Section Log.
Context {P : Platform} {CFG : HasConfig} {B : Bincode}.

(** A write command on its way: [logged command st (lift m)] is the write [m], then
    the append. *)
Inductive Thread :=
| Todo (m : M bytes) (command : list bytes)
| Written (command : list bytes)
| Logged (command : list bytes).

Inductive step : Server * list Thread → Server * list Thread → Prop :=
| step_write s ts i m command :
    ts !! i = Some (Todo m command) →
    step (s, ts) ((lift m s).2, <[i:=Written command]> ts)
| step_log s ts i command :
    ts !! i = Some (Written command) → loggable command →
    step (s, ts) ((aof_log command s).2, <[i:=Logged command]> ts).

(** The commands a thread has logged. *)
Definition logged_by (t : Thread) : list (list bytes) :=
  match t with Logged command => [command] | _ => [] end.

Lemma bind_insert {A C : Type} (f : A → list C) (ts : list A) i t t' :
  ts !! i = Some t → f t = [] → (<[i:=t']> ts ≫= f) ≡ₚ f t' ++ (ts ≫= f).
Proof.
  revert i. induction ts as [|u ts IH]; intros [|i] Hi Ht; try done; cbn in *.
  - injection Hi as ->. by rewrite Ht.
  - rewrite (IH i Hi Ht). rewrite !app_assoc. f_equiv. apply Permutation_app_comm.
Qed.

Definition log_ok (policy : FsyncPolicy) (before : list (list bytes)) (s : Server) (ts : list Thread) : Prop :=
  ∃ a l, AOF s = Some a ∧ aof_ok policy (before ++ l) a ∧ l ≡ₚ ts ≫= logged_by.

Lemma log_ok_step policy before s ts s' ts' :
  step (s, ts) (s', ts') → log_ok policy before s ts → log_ok policy before s' ts'.
Proof.
  intros Hst (a & l & Ha & Hok & Hl). inversion Hst as [? ? i m command Hi|? ? i command Hi Hc]; subst.
  - exists a, l. split_and!; [done..|]. rewrite Hl. symmetry.
    exact (bind_insert logged_by ts i (Todo m command) (Written command) Hi eq_refl).
  - exists (append command a), (l ++ [command]). split_and!.
    + cbn. by rewrite Ha.
    + rewrite app_assoc. by apply aof_ok_append.
    + rewrite Hl, Permutation_app_comm. symmetry.
      exact (bind_insert logged_by ts i (Written command) (Logged command) Hi eq_refl).
Qed.

Lemma log_ok_steps policy before x y :
  rtc step x y → log_ok policy before x.1 x.2 → log_ok policy before y.1 y.2.
Proof. induction 1 as [|[] [] ? ?]; eauto using log_ok_step. Qed.

(** C27: concurrent writers never corrupt the log: whatever the interleaving of any
    number of write commands, the log read back is the old log followed by every
    command whose append is done, each exactly once and whole. *)
Theorem concurrent_log policy before a s ts s' ts' :
  AOF s = Some a → aof_ok policy before a → ts ≫= logged_by = [] →
  rtc step (s, ts) (s', ts') →
  ∃ a' l, AOF s' = Some a' ∧ l ≡ₚ ts' ≫= logged_by ∧
    read_all (S (length (before ++ l))) (aof_log_bytes a') = (before ++ l, None).
Proof.
  intros Ha Hok Hnone Hr.
  destruct (log_ok_steps policy before _ _ Hr) as (a' & l & Ha' & Hok' & Hl).
  { exists a, []. rewrite app_nil_r. cbn [fst snd]. split_and!; [done..|]. by rewrite Hnone. }
  exists a', l. split_and!; [done..|]. rewrite (aof_ok_log _ _ _ Hok').
  apply read_all_frames; [apply Hok'|lia].
Qed.
End Log.

(** Two clients set the same key. *)
Section Example.
#[local] Existing Instance demo_platform.
#[local] Existing Instance demo_durable.
#[local] Existing Instance demo_bincode.

Definition set_thread (v : string) : Thread :=
  Todo (handle_set [bs "SET"; bs "k"; bs v] [] 1000) [bs "SET"; bs "k"; bs v].

Definition log_server : Server := set_aof (Some (aof_open [] Always)) (boot None 0).

(** The first client writes first and logs last. *)
Definition raced : Server :=
  (aof_log [bs "SET"; bs "k"; bs "1"]
     (aof_log [bs "SET"; bs "k"; bs "2"]
        (lift (handle_set [bs "SET"; bs "k"; bs "2"] [] 1000)
           (lift (handle_set [bs "SET"; bs "k"; bs "1"] [] 1000) log_server).2).2).2).2.

Lemma race_steps :
  rtc step (log_server, [set_thread "1"; set_thread "2"])
    (raced, [Logged [bs "SET"; bs "k"; bs "1"]; Logged [bs "SET"; bs "k"; bs "2"]]).
Proof.
  eapply rtc_l; [by apply (step_write _ _ 0)|]. eapply rtc_l; [by apply (step_write _ _ 1)|].
  eapply rtc_l; [apply (step_log _ _ 1); [done|by repeat constructor]|].
  eapply rtc_l; [apply (step_log _ _ 0); [done|by repeat constructor]|]. apply rtc_refl.
Qed.

Lemma concurrent_log_witness :
  ∃ a' l, AOF raced = Some a' ∧
    l ≡ₚ [Logged [bs "SET"; bs "k"; bs "1"]; Logged [bs "SET"; bs "k"; bs "2"]] ≫= logged_by ∧
    read_all (S (length ([] ++ l))) (aof_log_bytes a') = ([] ++ l, None).
Proof.
  apply (concurrent_log Always [] (aof_open [] Always) log_server [set_thread "1"; set_thread "2"]).
  - reflexivity.
  - apply (aof_open_ok Always []); [constructor|done].
  - reflexivity.
  - exact race_steps.
Defined.

Definition value_of_k (s : Server) : option bytes := (get (bs "k") 1000 (core s)).1.

(** The log can disagree with the store.  A write and its append are not atomic
    together: two clients that set the same key can be applied in one order and logged
    in the other, so the running server holds 2 and a restart from the log holds 1. *)
Theorem log_order_race :
  ∃ s a, rtc step (log_server, [set_thread "1"; set_thread "2"])
           (s, [Logged [bs "SET"; bs "k"; bs "1"]; Logged [bs "SET"; bs "k"; bs "2"]]) ∧
    value_of_k s = Some (bs "2") ∧ AOF s = Some a ∧
    match start None (Some (aof_disk a)) 5 with
    | Ok s' => value_of_k s' = Some (bs "1")
    | Err _ => False
    end.
Proof.
  exists raced, (append [bs "SET"; bs "k"; bs "1"] (append [bs "SET"; bs "k"; bs "2"] (aof_open [] Always))).
  split_and!; [exact race_steps| | |]; vm_compute; reflexivity.
Qed.
End Example.
End LogOrder.
