(* ===== verification/Procs.v ===== *)
(** * Commands as sequences of sections ([src/main.rs], [src/store.rs])

    A command is a sequence of sections that the locks and the atomics of the program
    make indivisible: an access to a shard under its guard, a change of a shard's queues
    under their lock, one operation on a counter.  Here the commands on strings, the reads
    of hashes, eviction and the expiry task are written as such sequences, in the monad
    [Prog], and each is shown to be its handler when it runs alone.  A guard that is held
    while the access bookkeeping of a read is done makes them one section.  Races.v and
    Linear.v run them beside each other. *)

From S2P Require Import Prelude Decimal Protocol Config S3Fifo State Store Steps StoreOps StoreSpec.
From S2P Require Import Eviction Handlers.

(** ** Sections *)

(** A thread: done with its reply, or before its next section. *)
#[warnings="-register-all"]
Inductive Proc :=
| Done (reply : bytes)
| Atomic (m : M Proc).

(** To the end, with no one in between. *)
Fixpoint run_proc (p : Proc) (c : Core) : bytes * Core :=
  match p with
  | Done reply => (reply, c)
  | Atomic m => match m c with (p, c) => run_proc p c end
  end.

(** Part of a thread that yields an [A] to what comes after. *)
Definition Prog (A : Type) : Type := (A → Proc) → Proc.

#[global] Instance Prog_ret : MRet Prog := λ A a k, k a.
#[global] Instance Prog_bind : MBind Prog := λ A B f p k, p (λ a, f a k).

Definition section {A : Type} (m : M A) : Prog A := λ k, Atomic (a ← m; mret (k a)).
Definition thread (p : Prog bytes) : Proc := p Done.

(** [for x in l { body }]. *)
Fixpoint pfold {A B : Type} (f : B → A → Prog B) (b : B) (l : list A) : Prog B :=
  match l with
  | [] => mret b
  | x :: l => b ← f b x; pfold f b l
  end.

Section Procs.
Context {P : Platform} {CFG : HasConfig}.

(** ** Parts of the commands *)

(** [MEMORY_USED.fetch_sub] and [fetch_add], when memory is tracked. *)
Definition sub_proc (size : Z) : Prog unit :=
  if tracks_memory then section (memory_fetch_sub size) else mret tt.
Definition add_proc (size : Z) : Prog unit :=
  if tracks_memory then section (memory_fetch_add size) else mret tt.

(** [shard.remove_if(key, expired)] and the memory it frees; the shard of a key never
    changes. *)
Definition expire_proc (key : bytes) (now : Z) : Prog bool :=
  removed ← section (i ← hash key; shard_remove_if i key (expired now));
  match removed with
  | Some e => sub_proc (calculate_entry_size (len key) (e_value e));; mret true
  | None => mret false
  end.

(** What [get], [hget], [hgetall], [key_type], [handle_ttl], [handle_pttl],
    [handle_expire] and [handle_persist] share: look the key up, drop it if it has
    expired, or do [live] under the guard. *)
Definition guarded {A : Type} (key : bytes) (now : Z) (dead : A) (live : nat → Entry → M A) : Prog A :=
  r ← section (
        i ← hash key;
        e ← shard_get i key;
        match e with
        | Some e => if expired now e then mret None else a ← live i e; mret (Some a)
        | None => mret (Some dead)
        end);
  match r with
  | Some a => mret a
  | None => expire_proc key now;; mret dead
  end.

(** [ShardedStore::set]: the queues first, then the map. *)
Definition dequeue_old (key : bytes) : M unit :=
  i ← hash key;
  old ← shard_get i key;
  match old with Some e => dequeue i key e | None => mret tt end.

Definition set_prog (key value : bytes) (ttl : option Z) (now : Z) : Prog (option Z) :=
  let expiry := (λ s, u64 (now + s)) <$> ttl in
  timestamp ← section insert_timestamp;
  (if bool_decide (EVICTION_POLICY = AllKeysS3Fifo) then section (dequeue_old key) else mret tt);;
  queue_type ← (if bool_decide (EVICTION_POLICY = AllKeysS3Fifo)
                then section (i ← hash key; enqueue i key) else mret 0);
  section (
    i ← hash key;
    old ← shard_insert i key (mkEntry (EV_String value) expiry timestamp queue_type 0);
    mret ((λ e, calculate_entry_size (len key) (e_value e)) <$> old)).

(** [store.set] and the accounting after it. *)
Definition store_proc (key value : bytes) (ttl : option Z) (now : Z) : Prog unit :=
  old_size ← set_prog key value ttl now;
  match old_size with Some old => sub_proc old | None => mret tt end;;
  add_proc (entry_size (len key) (len value)).

(** ** Eviction and the expiry task *)

(** [shard.len()] with the random position, and [shard.iter().nth(skip)]. *)
Definition sample_skip (i : nat) : M (option Z) :=
  m ← gets (λ c, shard_at c i);
  if (size m =? 0)%nat then mret None
  else skip ← rand_usize (Z.of_nat (size m)); mret (Some skip).
Definition sample_proc (i : nat) : Prog (option (bytes * Entry)) :=
  skip ← section (sample_skip i);
  match skip with
  | Some skip => section (gets (λ c, map_iter (shard_at c i) !! Z.to_nat skip))
  | None => mret None
  end.

(** [shard.remove] of a victim, with the counters. *)
Definition evict_at_proc (i : nat) (key : bytes) : Prog (option Z) :=
  removed ← section (shard_remove i key);
  match removed with
  | Some e =>
      let sz := calculate_entry_size (len key) (e_value e) in
      section (memory_fetch_sub sz);; section evicted_fetch_add1;; mret (Some sz)
  | None => mret None
  end.

Definition lru_round_proc (acc : option bytes * Z * nat) (_ : nat) : Prog (option bytes * Z * nat) :=
  let '(oldest_key, oldest_time, oldest_shard_idx) := acc in
  i ← section sample_shard;
  e ← sample_proc i;
  mret (match e with
        | Some (key, e) =>
            if (match oldest_key with None => true | Some _ => false end)
               || (last_accessed e <? oldest_time)
            then (Some key, last_accessed e, i) else acc
        | None => acc
        end).

Definition evict_lru_proc : Prog Z :=
  r ← pfold lru_round_proc (None, U32_MAX, 0%nat)
        (seq 0 (Z.to_nat (eviction_sample_size (memory CONFIG))));
  match r with
  | (Some key, _, i) => sz ← evict_at_proc i key; mret (default 0 sz)
  | (None, _, _) => mret 0
  end.

Definition evict_random_proc : Prog Z :=
  i ← section sample_shard;
  e ← sample_proc i;
  match e with
  | Some (key, _) => sz ← evict_at_proc i key; mret (default 0 sz)
  | None => mret 0
  end.

Fixpoint evict_s3fifo_proc (rounds : nat) : Prog Z :=
  match rounds with
  | O => mret 0
  | S rounds =>
      i ← section sample_shard;
      victim ← section (take_victim i);
      match victim with
      | Some key =>
          evicted ← evict_at_proc i key;
          match evicted with
          | Some sz => mret sz
          | None => evict_s3fifo_proc rounds
          end
      | None => evict_s3fifo_proc rounds
      end
  end.

Definition evict_one_proc (policy : EvictionPolicy) : Prog Z :=
  match policy with
  | AllKeysLru => evict_lru_proc
  | AllKeysRandom => evict_random_proc
  | AllKeysS3Fifo => n ← section (gets num_shards); evict_s3fifo_proc (Z.to_nat n)
  | NoEviction => mret 0
  end.

Fixpoint evict_loop_proc (attempts : nat) (freed needed_size : Z) : Prog unit :=
  match attempts with
  | O => mret tt
  | S attempts =>
      if freed <? needed_size then
        evicted ← evict_one_proc EVICTION_POLICY;
        if evicted =? 0 then mret tt
        else evict_loop_proc attempts (usize (freed + evicted)) needed_size
      else mret tt
  end.

Definition evict_proc (needed_size : Z) : Prog bool :=
  let max_mem := max_memory (memory CONFIG) in
  if max_mem =? 0 then mret true else
  current ← section (gets MEMORY_USED);
  if u64 (current + needed_size) <=? max_mem then mret true else
  if bool_decide (EVICTION_POLICY = NoEviction) then mret false else
  evict_loop_proc MAX_ATTEMPTS 0 needed_size;;
  final_used ← section (gets MEMORY_USED);
  mret (u64 (final_used + needed_size) <=? max_mem).

Definition expire_round_proc (now : Z) (expired_count : Z) (_ : nat) : Prog Z :=
  i ← section sample_shard;
  e ← sample_proc i;
  match e with
  | Some (key, e) =>
      if expired now e then
        removed ← section (shard_remove_if i key (expired now));
        match removed with
        | Some r => sub_proc (calculate_entry_size (len key) (e_value r));; mret (expired_count + 1)
        | None => mret expired_count
        end
      else mret expired_count
  | None => mret expired_count
  end.

(** [expire_random_keys] at time [now]. *)
Definition expire_rounds_proc (count now : Z) : Prog Z :=
  pfold (expire_round_proc now) 0 (seq 0 (Z.to_nat count)).
Definition expire_random_keys_proc (count : Z) : Prog Z :=
  now ← section get_timestamp; expire_rounds_proc count now.

(** ** Commands *)

Definition set_proc (command : list bytes) (w : bytes) (now : Z) : Prog bytes :=
  match command with
  | _ :: key :: value :: opts =>
      ok ← evict_proc (entry_size (len key) (len value));
      if negb ok then mret (write_error w OOM) else
      match parse_set_opts opts (mkSetOpts None false false false) with
      | Err e => mret (write_error w e)
      | Ok (mkSetOpts ttl nx xx get) =>
          if nx && xx then
            mret (write_error w (bs "XX and NX options at the same time are not compatible"))
          else
            old_value ← (if nx || xx || get then section (i ← hash key; live_string i key now)
                         else mret None);
            let key_exists := bool_decide (is_Some old_value) in
            if nx && key_exists then
              mret (if get then write_opt w old_value else write_null w)
            else if xx && negb key_exists then mret (write_null w)
            else
              store_proc key value ttl now;;
              mret (if get then write_opt w old_value else write_simple_string w (bs "OK"))
      end
  | _ => mret (write_error w WRONG_ARGS)
  end.

(** The first read of [handle_incr]. *)
Inductive IncrRead :=
| IncrError (e : bytes)
| IncrFrom (current : Z) (existing_ttl : option Z) (old_size_for_eviction : Z)
| IncrExpired.

Definition incr_read (key : bytes) (now : Z) (e : option Entry) : IncrRead :=
  match e with
  | Some e =>
      match e_value e with
      | EV_Hash _ => IncrError WRONGTYPE
      | EV_String s =>
          let parsed ttl :=
            match parse_i64 s with
            | Some v => IncrFrom v ttl (calculate_entry_size (len key) (e_value e))
            | None => IncrError NOT_INTEGER
            end in
          match e_expiry e with
          | Some expiry =>
              if expiry <=? now then IncrExpired else parsed (Some (sat_u64 (expiry - now)))
          | None => parsed None
          end
      end
  | None => IncrFrom 0 None 0
  end.

(** [handle_incr] after its first read. *)
Definition incr_rest (key w : bytes) (now delta current : Z) (existing_ttl : option Z)
    (old_size_for_eviction : Z) : Prog bytes :=
  match checked_i64 (current + delta) with
  | None =>
      mret (write_error w (if 0 <? delta then bs "increment would produce overflow"
                           else bs "decrement would produce overflow"))
  | Some new_val =>
      let val_bytes := fmt_signed new_val in
      let net_size := sat_u64 (entry_size (len key) (len val_bytes) - old_size_for_eviction) in
      ok ← (if 0 <? net_size then evict_proc net_size else mret true);
      if negb ok then mret (write_error w OOM) else
      store_proc key val_bytes existing_ttl now;;
      mret (write_signed_integer w new_val)
  end.

Definition incr_proc (command : list bytes) (w : bytes) (now delta : Z) : Prog bytes :=
  match command with
  | _ :: key :: _ =>
      e ← section (i ← hash key; shard_get i key);
      match incr_read key now e with
      | IncrError e => mret (write_error w e)
      | IncrFrom current existing_ttl old_size => incr_rest key w now delta current existing_ttl old_size
      | IncrExpired => expire_proc key now;; incr_rest key w now delta 0 None 0
      end
  | _ => mret (write_error w WRONG_ARGS)
  end.

Definition incrby_proc (command : list bytes) (w : bytes) (now : Z) : Prog bytes :=
  match command with
  | _ :: _ :: n :: _ =>
      match parse_i64 n with
      | Some increment => incr_proc command w now increment
      | None => mret (write_error w NOT_INTEGER)
      end
  | _ => mret (write_error w WRONG_ARGS)
  end.

Definition decrby_proc (command : list bytes) (w : bytes) (now : Z) : Prog bytes :=
  match command with
  | _ :: _ :: n :: _ =>
      match parse_i64 n with
      | Some decrement =>
          if decrement =? I64_MIN then mret (write_error w NOT_INTEGER)
          else incr_proc command w now (- decrement)
      | None => mret (write_error w NOT_INTEGER)
      end
  | _ => mret (write_error w WRONG_ARGS)
  end.

Definition mset_proc (command : list bytes) (w : bytes) (now : Z) : Prog bytes :=
  if (len command <? 3) || negb ((len command - 1) mod 2 =? 0) then
    mret (write_error w (bs "wrong number of arguments for MSET"))
  else
    let kvs := pairs_of (drop 1 command) in
    net_size ← pfold (λ n kv, section (mset_net now n kv)) 0 kvs;
    ok ← (if 0 <? net_size then evict_proc (usize net_size) else mret true);
    if negb ok then mret (write_error w OOM) else
    pfold (λ _ kv, store_proc kv.1 kv.2 None now) tt kvs;;
    mret (write_simple_string w (bs "OK")).

(** One key of [delete]: its queue, then the map. *)
Definition delete_one_proc (now : Z) (count : Z) (key : bytes) : Prog Z :=
  (if bool_decide (EVICTION_POLICY = AllKeysS3Fifo) then section (dequeue_old key) else mret tt);;
  removed ← section (i ← hash key; shard_remove i key);
  match removed with
  | Some e =>
      sub_proc (calculate_entry_size (len key) (e_value e));;
      mret (if expired now e then count else count + 1)
  | None => mret count
  end.
Definition delete_proc (keys : list bytes) (now : Z) : Prog Z := pfold (delete_one_proc now) 0 keys.

Definition del_proc (command : list bytes) (w : bytes) (now : Z) : Prog bytes :=
  count ← delete_proc (drop 1 command) now; mret (write_integer w count).

Definition exists_proc (command : list bytes) (w : bytes) (now : Z) : Prog bytes :=
  match command with
  | _ :: _ :: _ =>
      count ← pfold (λ n key, section (exists_one now n key)) 0 (drop 1 command);
      mret (write_integer w count)
  | _ => mret (write_error w WRONG_ARGS)
  end.

(** The access bookkeeping of a read, and what it reads.  In the code the bookkeeping of two
    reads of one key can interleave, because their guards are shared; here one comes after the
    other.  It changes access times, access counts and queue positions, never a value, an expiry
    time or the memory counter. *)
Definition read_live {A : Type} (key : bytes) (val : EntryValue → A) (i : nat) (e : Entry) : M A :=
  maybe_update_access_time i key;; track_access i key e;; mret (val (e_value e)).

Definition get_prog (key : bytes) (now : Z) : Prog (option bytes) :=
  guarded key now None (read_live key string_reply).

Definition get_proc (command : list bytes) (w : bytes) (now : Z) : Prog bytes :=
  match command with
  | _ :: key :: _ => v ← get_prog key now; mret (write_opt w v)
  | _ => mret (write_error w WRONG_ARGS)
  end.

Definition mget_proc (command : list bytes) (w : bytes) (now : Z) : Prog bytes :=
  match command with
  | _ :: _ :: _ =>
      pfold (λ w key, v ← get_prog key now; mret (write_opt w v))
        (write_array_header w (len command - 1)) (drop 1 command)
  | _ => mret (write_error w WRONG_ARGS)
  end.

Definition hget_proc (command : list bytes) (w : bytes) (now : Z) : Prog bytes :=
  match command with
  | _ :: key :: field :: _ =>
      r ← guarded key now (Ok None) (read_live key (field_reply field));
      mret (match r with Ok v => write_opt w v | Err e => write_error w e end)
  | _ => mret (write_error w (bs "wrong number of arguments for 'hget' command"))
  end.

Definition hgetall_proc (command : list bytes) (w : bytes) (now : Z) : Prog bytes :=
  match command with
  | _ :: key :: _ =>
      r ← guarded key now (Ok []) (read_live key fields_reply);
      mret (match r with Ok l => write_array w l | Err e => write_error w e end)
  | _ => mret (write_error w (bs "wrong number of arguments for 'hgetall' command"))
  end.

Definition type_proc (command : list bytes) (w : bytes) (now : Z) : Prog bytes :=
  match command with
  | _ :: key :: _ =>
      t ← guarded key now "none"%string (λ _ e, mret (type_reply (e_value e)));
      mret (write_simple_string w (bs t))
  | _ => mret (write_error w WRONG_ARGS)
  end.

Definition ttl_proc (command : list bytes) (w : bytes) (now : Z) (remaining : Z → Z) : Prog bytes :=
  match command with
  | _ :: key :: _ =>
      n ← guarded key now (-2) (λ _ e,
            mret (match e_expiry e with Some expiry => remaining expiry | None => -1 end));
      mret (write_signed_integer w n)
  | _ => mret (write_error w WRONG_ARGS)
  end.

Definition expire_at_proc (command : list bytes) (w : bytes) (now : Z) : Prog bytes :=
  match command with
  | _ :: key :: n :: _ =>
      match parse_i64 n with
      | None => mret (write_error w NOT_INTEGER)
      | Some v =>
          n ← (if 0 <? v then
                 guarded key now 0 (λ i _,
                   shard_alter i key (with_expiry (Some (u64 (now + v))));; mret 1)
               else delete_proc [key] now);
          mret (write_integer w n)
      end
  | _ => mret (write_error w WRONG_ARGS)
  end.

Definition persist_proc (command : list bytes) (w : bytes) (now : Z) : Prog bytes :=
  match command with
  | _ :: key :: _ =>
      n ← guarded key now 0 (λ i e,
            match e_expiry e with
            | Some _ => shard_alter i key (with_expiry None);; mret 1
            | None => mret 0
            end);
      mret (write_integer w n)
  | _ => mret (write_error w WRONG_ARGS)
  end.

(** ** The commands by name *)

Inductive Handler :=
| H_set | H_incr | H_decr | H_incrby | H_decrby | H_mset | H_del | H_exists | H_get | H_mget
| H_hget | H_hgetall | H_type | H_ttl | H_pttl | H_expire | H_persist.

Definition handler_proc (h : Handler) (command : list bytes) (w : bytes) (now : Z) : Prog bytes :=
  match h with
  | H_set => set_proc command w now
  | H_incr => incr_proc command w now 1
  | H_decr => incr_proc command w now (-1)
  | H_incrby => incrby_proc command w now
  | H_decrby => decrby_proc command w now
  | H_mset => mset_proc command w now
  | H_del => del_proc command w now
  | H_exists => exists_proc command w now
  | H_get => get_proc command w now
  | H_mget => mget_proc command w now
  | H_hget => hget_proc command w now
  | H_hgetall => hgetall_proc command w now
  | H_type => type_proc command w now
  | H_ttl => ttl_proc command w now (λ expiry, i64 (u64 (expiry - now)))
  | H_pttl => ttl_proc command w now (λ expiry, Z.min (sat_u64 (sat_u64 (expiry - now) * 1000)) I64_MAX)
  | H_expire => expire_at_proc command w now
  | H_persist => persist_proc command w now
  end.

(** The handler as one operation. *)
Definition handler_run (h : Handler) (command : list bytes) (w : bytes) (now : Z) : M bytes :=
  match h with
  | H_set => handle_set command w now
  | H_incr => handle_incr command w now 1
  | H_decr => handle_incr command w now (-1)
  | H_incrby => handle_incrby command w now
  | H_decrby => handle_decrby command w now
  | H_mset => handle_mset command w now
  | H_del => handle_del command w now
  | H_exists => handle_exists command w now
  | H_get => handle_get command w now
  | H_mget => handle_mget command w now
  | H_hget => handle_hget command w now
  | H_hgetall => handle_hgetall command w now
  | H_type => handle_type command w now
  | H_ttl => handle_ttl command w now
  | H_pttl => handle_pttl command w now
  | H_expire => handle_expire command w now
  | H_persist => handle_persist command w now
  end.

(** ** Alone, a command is its handler *)

(** Run with no one in between, [p] is the operation [m]. *)
Definition runs {A : Type} (p : Prog A) (m : M A) : Prop :=
  ∀ k c, run_proc (p k) c = run_proc (k (m c).1) (m c).2.

Lemma runs_ret {A : Type} (a : A) : runs (mret a) (mret a).
Proof. done. Qed.

Lemma runs_section {A : Type} (m : M A) : runs (section m) m.
Proof. done. Qed.

Lemma runs_bind {A B : Type} (p : Prog A) (m : M A) (f : A → Prog B) (g : A → M B) :
  runs p m → (∀ a, runs (f a) (g a)) → runs (a ← p; f a) (a ← m; g a).
Proof. intros Hp Hf k c. unfold mbind, Prog_bind, M_bind. rewrite Hp. apply Hf. Qed.

Lemma runs_pfold {A B : Type} (f : B → A → Prog B) (g : B → A → M B) b l :
  (∀ b x, runs (f b x) (g b x)) → runs (pfold f b l) (mfold g b l).
Proof. intros Hf. revert b. induction l as [|x l IH]; intros b; [apply runs_ret|]. by apply runs_bind. Qed.

(** An operation that equals another at every state can stand for it. *)
Lemma runs_eq {A : Type} (p : Prog A) (m m' : M A) : (∀ c, m c = m' c) → runs p m → runs p m'.
Proof. intros He Hp k c. by rewrite Hp, He. Qed.

Create HintDb runs.
#[local] Hint Resolve runs_ret runs_section runs_bind runs_pfold : runs.

(** Follow the structure of both. *)
Ltac runs :=
  repeat lazymatch goal with
    | |- runs (mbind _ _) (mbind _ _) => apply runs_bind; [|intros ?]
    | |- runs (pfold _ _ _) (mfold _ _ _) => apply runs_pfold; intros ? ?
    | |- runs (if ?b then _ else _) (if ?b then _ else _) => destruct b
    | |- runs (match ?x with _ => _ end) (match ?x with _ => _ end) => destruct x
    | |- _ => progress (cbv zeta)
    end; auto with runs.

Lemma runs_sub size : runs (sub_proc size) (track_sub size).
Proof. unfold sub_proc, track_sub. runs. Qed.
Lemma runs_add size : runs (add_proc size) (track_add size).
Proof. unfold add_proc, track_add. runs. Qed.
#[local] Hint Resolve runs_sub runs_add : runs.

Lemma runs_expire_at key now c0 :
  ∀ k c, num_shards c = num_shards c0 →
  run_proc (expire_proc key now k) c =
  let r := remove_if_expired (shard_index (num_shards c0) key) key now c in run_proc (k r.1) r.2.
Proof.
  intros k c Hn. unfold expire_proc, remove_if_expired, mbind at 1, Prog_bind, section. cbn [run_proc].
  unfold mbind, M_bind. cbv zeta. cbn [hash gets fst snd]. rewrite Hn.
  destruct (shard_remove_if _ key (expired now) c) as [[e|] c1]; cbn [fst snd mret M_ret]; [|done].
  apply (runs_sub _ (λ _, k true)).
Qed.

Lemma runs_guarded {A : Type} key now (dead : A) (live : nat → Entry → M A) :
  runs (guarded key now dead live)
    (i ← hash key;
     e ← shard_get i key;
     match e with
     | Some e => if expired now e then remove_if_expired i key now;; mret dead else live i e
     | None => mret dead
     end).
Proof.
  intros k c. unfold guarded, mbind at 1, Prog_bind, section. cbn [run_proc].
  unfold mbind, M_bind. cbv zeta. cbn [hash gets shard_get fst snd mret M_ret].
  destruct (shard_at c _ !! key) as [e|]; [destruct (expired now e)|]; cbn [fst snd mret M_ret]; [|done..].
  apply (runs_expire_at key now c (λ _, k dead) c eq_refl).
Qed.

(** Operations that keep the number of shards. *)
Lemma num_insert_timestamp c : num_shards (insert_timestamp c).2 = num_shards c.
Proof. apply quiet_insert_timestamp. Qed.
Lemma num_dequeue i key e c : num_shards (dequeue i key e c).2 = num_shards c.
Proof. unfold dequeue. by destruct (queue_type_from _). Qed.
Lemma num_dequeue_old key c : num_shards (dequeue_old key c).2 = num_shards c.
Proof.
  unfold dequeue_old, mbind, M_bind. cbn [hash gets shard_get fst snd].
  destruct (shard_at c _ !! key); [apply num_dequeue|done].
Qed.
Lemma num_enqueue i key c : num_shards (enqueue i key c).2 = num_shards c.
Proof. unfold enqueue, mbind, M_bind. cbn [gets fst snd]. by destruct (is_in_ghost _ _). Qed.

(** [set] with the shard looked up anew in each section. *)
Lemma set_sections key value ttl now c :
  (timestamp ← insert_timestamp;
   (if bool_decide (EVICTION_POLICY = AllKeysS3Fifo) then dequeue_old key else mret tt);;
   queue_type ← (if bool_decide (EVICTION_POLICY = AllKeysS3Fifo)
                 then i ← hash key; enqueue i key else mret 0);
   i ← hash key;
   old ← shard_insert i key (mkEntry (EV_String value) ((λ s, u64 (now + s)) <$> ttl) timestamp queue_type 0);
   mret ((λ e, calculate_entry_size (len key) (e_value e)) <$> old)) c = set key value ttl now c.
Proof.
  unfold set, place, mbind, M_bind. cbv zeta. cbn [hash gets fst snd].
  pose proof (num_insert_timestamp c) as H1. destruct (insert_timestamp c) as [t c1]. cbn [fst snd] in *.
  case_bool_decide; cbn [fst snd mret M_ret]; [|by rewrite H1].
  pose proof (num_dequeue_old key c1) as H2. unfold dequeue_old, mbind, M_bind in *. cbv zeta in *.
  cbn [hash gets shard_get fst snd] in *. rewrite H1 in *. rewrite H2, num_enqueue, H2. done.
Qed.

Lemma runs_set key value ttl now : runs (set_prog key value ttl now) (set key value ttl now).
Proof. eapply runs_eq; [apply set_sections|]. unfold set_prog. runs. Qed.
#[local] Hint Resolve runs_set : runs.

Lemma runs_store key value ttl now :
  runs (store_proc key value ttl now)
    (old ← set key value ttl now; account_set old (entry_size (len key) (len value))).
Proof.
  unfold store_proc. apply runs_bind; [apply runs_set|]. intros old. unfold account_set, sub_proc, add_proc.
  destruct tracks_memory, old; intros k c; reflexivity.
Qed.

Lemma runs_sample i : runs (sample_proc i) (sample_entry i).
Proof.
  intros k c. unfold sample_proc, sample_entry, sample_skip, section, mbind, Prog_bind, M_bind. cbv zeta.
  cbn [run_proc gets fst snd mret M_ret]. by destruct (size (shard_at c i) =? 0)%nat.
Qed.

Lemma runs_evict_at i key : runs (evict_at_proc i key) (evict_at i key).
Proof. unfold evict_at_proc, evict_at. runs. Qed.
#[local] Hint Resolve runs_sample runs_evict_at : runs.

Lemma runs_evict_one policy : runs (evict_one_proc policy) (evict_one policy).
Proof.
  destruct policy; cbn [evict_one_proc evict_one].
  - runs.
  - unfold evict_lru_proc, evict_lru. runs. unfold lru_round_proc, lru_round. runs.
  - unfold evict_random_proc, evict_random. runs.
  - unfold evict_s3fifo. apply runs_bind; [runs|]. intros n. induction (Z.to_nat n); cbn; runs.
Qed.

Lemma runs_evict_loop n freed needed_size :
  runs (evict_loop_proc n freed needed_size) (evict_loop n freed needed_size).
Proof. revert freed. induction n as [|n IH]; intros freed; cbn; runs. apply runs_evict_one. Qed.
#[local] Hint Resolve runs_evict_loop : runs.

Lemma runs_evict needed_size : runs (evict_proc needed_size) (evict_if_needed needed_size).
Proof. unfold evict_proc, evict_if_needed. runs. Qed.
#[local] Hint Resolve runs_evict runs_store : runs.

Lemma runs_expire_random_keys count : runs (expire_random_keys_proc count) (expire_random_keys count).
Proof.
  unfold expire_random_keys_proc, expire_random_keys, expire_rounds_proc. runs.
  unfold expire_round_proc, expire_round, remove_if_expired. runs.
  intros k c. unfold section, mbind, Prog_bind, M_bind. cbn [run_proc]. cbv zeta.
  destruct (shard_remove_if _ _ _ c) as [[r|] c1]; cbn [fst snd mret M_ret]; [|done].
  apply (runs_sub _ (λ _, k _)).
Qed.

(** A shard index that only one section uses. *)
Lemma runs_hash {A B : Type} (b : bool) key (m : nat → M A) (a0 : A) (f : A → Prog B) (g : A → M B) :
  (∀ a, runs (f a) (g a)) →
  runs (a ← (if b then section (i ← hash key; m i) else mret a0); f a)
    (i ← hash key; a ← (if b then m i else mret a0); g a).
Proof.
  intros Hf. eapply runs_eq; [|apply (runs_bind _ (if b then i ← hash key; m i else mret a0) _ g)].
  - intros c. by destruct b.
  - runs.
  - done.
Qed.

Lemma runs_handle_set command w now : runs (set_proc command w now) (handle_set command w now).
Proof.
  destruct command as [|? [|key [|value opts]]]; try apply runs_ret. unfold set_proc, handle_set.
  apply runs_bind; [apply runs_evict|]. intros ok. destruct ok; [|apply runs_ret].
  cbn [negb]. destruct (parse_set_opts _ _) as [[ttl nx xx get]|]; [|apply runs_ret].
  destruct (nx && xx); [apply runs_ret|]. apply runs_hash. intros old. cbv zeta.
  destruct (nx && _); [apply runs_ret|]. destruct (xx && _); [apply runs_ret|].
  exact (runs_bind _ _ _ _ (runs_store key value ttl now) (λ _, runs_ret _)).
Qed.

Lemma runs_incr_rest key w now delta current ttl old :
  runs (incr_rest key w now delta current ttl old)
    (match checked_i64 (current + delta) with
     | None =>
         mret (write_error w (if 0 <? delta then bs "increment would produce overflow"
                              else bs "decrement would produce overflow"))
     | Some new_val =>
         let val_bytes := fmt_signed new_val in
         let size := entry_size (len key) (len val_bytes) in
         let net_size := sat_u64 (size - old) in
         ok ← (if 0 <? net_size then evict_if_needed net_size else mret true);
         if negb ok then mret (write_error w OOM) else
         old_size ← set key val_bytes ttl now;
         account_set old_size size;;
         mret (write_signed_integer w new_val)
     end).
Proof.
  unfold incr_rest. destruct (checked_i64 _) as [v|]; [|apply runs_ret]. cbv zeta.
  apply runs_bind; [runs|]. intros []; [|apply runs_ret].
  exact (runs_bind _ _ _ _ (runs_store _ _ _ _) (λ _, runs_ret _)).
Qed.

Lemma runs_handle_incr command w now delta :
  runs (incr_proc command w now delta) (handle_incr command w now delta).
Proof.
  destruct command as [|? [|key rest]]; try apply runs_ret. intros k c.
  unfold incr_proc, handle_incr, incr_current, section, mbind, Prog_bind, M_bind. cbn [run_proc]. cbv zeta.
  cbn [hash gets shard_get fst snd mret M_ret]. unfold incr_read.
  destruct (shard_at c _ !! key) as [[[s|h] x la q a]|]; cbn [e_value e_expiry]; [|done|apply runs_incr_rest].
  destruct x as [x|]; [destruct (x <=? now)|].
  - rewrite (runs_expire_at key now c _ c eq_refl). apply runs_incr_rest.
  - destruct (parse_i64 s); [apply runs_incr_rest|done].
  - destruct (parse_i64 s); [apply runs_incr_rest|done].
Qed.
#[local] Hint Resolve runs_handle_set runs_handle_incr : runs.

Lemma runs_handle_mset command w now : runs (mset_proc command w now) (handle_mset command w now).
Proof. unfold mset_proc, handle_mset, mset_one. runs. Qed.

Lemma delete_sections now count key c :
  ((if bool_decide (EVICTION_POLICY = AllKeysS3Fifo) then dequeue_old key else mret tt);;
   removed ← (i ← hash key; shard_remove i key);
   match removed with
   | Some e =>
       track_sub (calculate_entry_size (len key) (e_value e));;
       mret (if expired now e then count else count + 1)
   | None => mret count
   end) c = delete_one now count key c.
Proof.
  unfold delete_one, mbind, M_bind. cbv zeta. cbn [hash gets fst snd]. case_bool_decide; [|done].
  by rewrite num_dequeue_old.
Qed.

Lemma runs_delete keys now : runs (delete_proc keys now) (delete keys now).
Proof.
  apply runs_pfold. intros count key. eapply runs_eq; [apply delete_sections|].
  unfold delete_one_proc. runs.
Qed.
#[local] Hint Resolve runs_delete : runs.

Lemma runs_get key now : runs (get_prog key now) (get key now).
Proof. unfold get_prog. eapply runs_eq; [|apply runs_guarded]. unfold get, read_live, string_reply. reflexivity. Qed.
#[local] Hint Resolve runs_get : runs.

Lemma runs_ttl command w now remaining :
  runs (ttl_proc command w now remaining) (ttl_reply command w now remaining).
Proof.
  destruct command as [|? [|key rest]]; try apply runs_ret. unfold ttl_proc.
  eapply runs_eq; [|apply runs_bind; [apply runs_guarded|intros n; apply runs_ret]]. intros c.
  unfold ttl_reply, mbind, M_bind, expired. cbv zeta. cbn [hash gets shard_get fst snd].
  destruct (shard_at c _ !! key) as [[v [x|] la q a]|]; cbn [e_expiry]; [destruct (x <=? now)|..]; done.
Qed.

Lemma runs_handle_expire command w now : runs (expire_at_proc command w now) (handle_expire command w now).
Proof.
  destruct command as [|? [|key [|n rest]]]; try apply runs_ret. unfold expire_at_proc, handle_expire.
  destruct (parse_i64 n) as [v|]; [|apply runs_ret]. destruct (0 <? v); [|runs].
  eapply runs_eq; [|apply runs_bind; [apply runs_guarded|intros m; apply runs_ret]]. intros c.
  unfold mbind, M_bind. cbv zeta. cbn [hash gets shard_get fst snd].
  destruct (shard_at c _ !! key) as [e|]; [destruct (expired now e)|]; done.
Qed.

Lemma runs_handle_persist command w now : runs (persist_proc command w now) (handle_persist command w now).
Proof.
  destruct command as [|? [|key rest]]; try apply runs_ret. unfold persist_proc.
  eapply runs_eq; [|apply runs_bind; [apply runs_guarded|intros n; apply runs_ret]]. intros c.
  unfold handle_persist, mbind, M_bind, expired. cbv zeta. cbn [hash gets shard_get fst snd].
  destruct (shard_at c _ !! key) as [[v [x|] la q a]|]; cbn [e_expiry]; [destruct (x <=? now)|..]; done.
Qed.

(** A read whose reply is made from what it found. *)
Lemma runs_read {A : Type} (p : Prog A) (m m' : M A) (f : A → bytes) :
  runs p m → (∀ c, m c = m' c) → runs (a ← p; mret (f a)) (a ← m'; mret (f a)).
Proof. intros Hp He. apply runs_bind; [by eapply runs_eq|]. intros a. apply runs_ret. Qed.

(** Every command of the model, run alone, is its handler. *)
Lemma handler_alone h command w now : runs (handler_proc h command w now) (handler_run h command w now).
Proof.
  destruct h; cbn [handler_proc handler_run]; auto using runs_handle_set, runs_handle_incr, runs_handle_mset,
    runs_ttl, runs_handle_expire, runs_handle_persist.
  - unfold incrby_proc, handle_incrby. runs.
  - unfold decrby_proc, handle_decrby. runs.
  - apply runs_read with (m := delete (drop 1 command) now); [apply runs_delete|done].
  - unfold exists_proc, handle_exists, exists_. runs.
  - unfold get_proc, handle_get. runs.
  - unfold mget_proc, handle_mget. runs.
  - unfold hget_proc, handle_hget. destruct command as [|? [|key [|field rest]]]; try apply runs_ret.
    eapply runs_read; [apply runs_guarded|]. reflexivity.
  - unfold hgetall_proc, handle_hgetall. destruct command as [|? [|key rest]]; try apply runs_ret.
    eapply runs_read; [apply runs_guarded|]. reflexivity.
  - unfold type_proc, handle_type. destruct command as [|? [|key rest]]; try apply runs_ret.
    eapply runs_read; [apply runs_guarded|]. reflexivity.
Qed.
End Procs.
