(* ===== verification/Sweeps.v ===== *)
(** * Commands that walk the whole store ([src/store.rs], [src/main.rs])

    [KEYS], [SCAN], [DBSIZE] and [FLUSHDB] visit every shard.  A shard is a [DashMap],
    which locks a part of itself at a time: its iterator, [len] and [clear] hold the lock
    of one part while they visit it and none in between, so other threads run between the
    parts.  Here these commands are sequences of sections as in Procs.v, one for each part
    of each shard, and alone each is its handler.  SweepViews.v says what they return beside
    other threads. *)

From S2P Require Import Prelude Decimal Protocol Glob Config S3Fifo State Store Steps StoreOps StoreSpec.
From S2P Require Import Scan Handlers Procs.

(** The parts of a [DashMap] ([dashmap]'s own shards): how many there are, and the one a key
    is in. *)
Class Parts := {
  parts : nat;
  part : bytes → nat
}.

(** Every key is in one of them. *)
Class PartsOk (D : Parts) : Prop := part_lt key : (part key < parts)%nat.

(** Two parts, by the length of the key. *)
Definition demo_parts : Parts := {| parts := 2; part key := Nat.modulo (length key) 2 |}.

Lemma demo_parts_ok : PartsOk demo_parts.
Proof. intros key. apply Nat.mod_upper_bound. done. Qed.

Section Sweeps.
Context {P : Platform} {CFG : HasConfig} {D : Parts}.

Definition part_of (b : nat) (m : Shard) : Shard := filter (λ kv, part kv.1 = b) m.

(** [for shard in &self.shards { body }]. *)
Definition each_shard {A : Type} (f : A → nat → Prog A) (a : A) : Prog A :=
  n ← section (gets num_shards); pfold f a (seq 0 (Z.to_nat n)).

(** [shard.iter()], to its end. *)
Definition iter_proc (i : nat) : Prog (list (bytes * Entry)) :=
  pfold (λ entries b,
    es ← section (gets (λ c, map_iter (part_of b (shard_at c i)))); mret (entries ++ es)) [] (seq 0 parts).

(** [ShardedStore::keys] and [KEYS]. *)
Definition keys_prog (now : Z) : Prog (list bytes) :=
  each_shard (λ result i,
    entries ← iter_proc i;
    mret (result ++ (filter (λ kv, expired now kv.2 = false) entries).*1)) [].
Definition keys_proc (w : bytes) (now : Z) : Prog bytes :=
  ks ← keys_prog now; mret (write_array w ks).

(** [ShardedStore::len] and [DBSIZE]. *)
Definition len_prog : Prog Z :=
  each_shard (λ n i,
    pfold (λ n b, k ← section (gets (λ c, Z.of_nat (size (part_of b (shard_at c i))))); mret (n + k)) n
      (seq 0 parts)) 0.
Definition dbsize_proc (w : bytes) : Prog bytes := n ← len_prog; mret (write_integer w n).

(** The outer loop of [ShardedStore::scan], with [todo] shards to go. *)
Fixpoint scan_shards_prog (count now : Z) (pattern : option bytes) (n shard pos : Z) (todo : nat)
    (result : list bytes) (keys_checked : Z) : Prog (Z * list bytes) :=
  match todo with
  | O => mret (0, result)
  | S todo =>
      entries ← iter_proc (Z.to_nat shard);
      match scan_entries count now pattern n shard (len entries) pos
              (drop (Z.to_nat pos) entries) result keys_checked with
      | inl r => mret r
      | inr (result, keys_checked) =>
          scan_shards_prog count now pattern n (shard + 1) 0 todo result keys_checked
      end
  end.

Definition scan_prog (cursor count_hint : Z) (pattern : option bytes) (now : Z) : Prog (Z * list bytes) :=
  n ← section (gets num_shards);
  let count := Z.min (Z.max count_hint 10) 1000 in
  let start_shard := cursor / CURSOR_STRIDE in
  let start_position := cursor mod CURSOR_STRIDE in
  if n <=? start_shard then mret (0, [])
  else scan_shards_prog count now pattern n start_shard start_position
         (Z.to_nat n - Z.to_nat start_shard) [] 0.

Definition scan_proc (command : list bytes) (w : bytes) (now : Z) : Prog bytes :=
  match command with
  | _ :: c :: opts =>
      match parse_u64 c with
      | None => mret (write_error w (bs "invalid cursor"))
      | Some cursor =>
          match parse_scan_opts opts 10 None with
          | Err e => mret (write_error w e)
          | Ok (count_hint, pattern) =>
              r ← scan_prog cursor count_hint pattern now;
              let w := write_array_header w 2 in
              let w := write_bulk_string w (fmt_unsigned r.1) in
              mret (fold_left write_bulk_string r.2 (write_array_header w (len r.2)))
          end
      end
  | _ => mret (write_error w (bs "wrong number of arguments for 'scan' command"))
  end.

(** [ShardedStore::clear]. *)
Definition clear_part (i b : nat) : M unit :=
  modify (λ c, put_shard i (filter (λ kv, part kv.1 ≠ b) (shard_at c i)) c).
Definition clear_prog : Prog unit :=
  each_shard (λ _ i, pfold (λ _ b, section (clear_part i b)) tt (seq 0 parts)) tt.

(** The bytes of the live entries. *)
Definition flush_add (acc : Z) (kv : bytes * Entry) : Z :=
  u64 (acc + calculate_entry_size (len kv.1) (e_value kv.2)).
Definition live_prog (now : Z) : Prog Z :=
  each_shard (λ acc i,
    entries ← iter_proc i;
    mret (fold_left flush_add (filter (λ kv, expired now kv.2 = false) entries) acc)) 0.

(** [FLUSHDB] and [FLUSHALL].  The last section is the round of the compare-and-swap loop
    that succeeds. *)
Definition flush_proc (w : bytes) : Prog bytes :=
  now ← section get_timestamp;
  actual_memory ← live_prog now;
  clear_prog;;
  section (modify (λ c, set_memory (if MEMORY_USED c <=? actual_memory then 0
                                    else MEMORY_USED c - actual_memory) c));;
  mret (write_simple_string w (bs "OK")).

(** The commands of this file. *)
Inductive Sweep := W_keys (now : Z) | W_dbsize | W_scan (command : list bytes) (now : Z) | W_flush.

Definition sweep_proc (w : bytes) (s : Sweep) : Prog bytes :=
  match s with
  | W_keys now => keys_proc w now
  | W_dbsize => dbsize_proc w
  | W_scan command now => scan_proc command w now
  | W_flush => flush_proc w
  end.

Definition reads_only (s : Sweep) : Prop := match s with W_flush => False | _ => True end.

(** The command as one operation. *)
Definition sweep_run (w : bytes) (s : Sweep) : M bytes :=
  match s with
  | W_keys now => ks ← keys now; mret (write_array w ks)
  | W_dbsize => n ← store_len; mret (write_integer w n)
  | W_scan command now => handle_scan command w now
  | W_flush => handle_flush w
  end.

(** ** Alone, each is its handler *)

(** [p] run alone reads [f]. *)
Definition reads_as {A : Type} (p : Prog A) (f : Core → A) : Prop :=
  ∀ k c, core_wf c → run_proc (p k) c = run_proc (k (f c)) c.

Lemma reads_as_ret {A : Type} (a : A) : reads_as (mret a) (λ _, a).
Proof. done. Qed.

Lemma reads_as_gets {A : Type} (f : Core → A) : reads_as (section (gets f)) f.
Proof. done. Qed.

Lemma reads_as_bind {A B : Type} (p : Prog A) (q : A → Prog B) f g :
  reads_as p f → (∀ a, reads_as (q a) (g a)) → reads_as (a ← p; q a) (λ c, g (f c) c).
Proof. intros Hp Hq k c Hwf. unfold mbind, Prog_bind. rewrite Hp by done. by apply Hq. Qed.

Lemma reads_as_pfold {A B : Type} (p : B → A → Prog B) g b l :
  (∀ b x, reads_as (p b x) (λ c, g c b x)) → reads_as (pfold p b l) (λ c, fold_left (g c) l b).
Proof.
  intros Hp. revert b. induction l as [|x l IH]; intros b; [apply reads_as_ret|].
  exact (reads_as_bind _ _ _ (λ b c, fold_left (g c) l b) (Hp b x) IH).
Qed.

Lemma reads_as_eq {A : Type} (p : Prog A) f g : reads_as p f → (∀ c, core_wf c → f c = g c) → reads_as p g.
Proof. intros Hp He k c Hwf. by rewrite Hp, He. Qed.

Lemma fold_app {A B : Type} (f : A → list B) l acc : fold_left (λ acc x, acc ++ f x) l acc = acc ++ (l ≫= f).
Proof.
  revert acc. induction l as [|x l IH]; intros acc; cbn; [by rewrite app_nil_r|]. by rewrite IH, app_assoc.
Qed.

Lemma fold_add {A : Type} (f : A → Z) l acc : fold_left (λ acc x, acc + f x) l acc = acc + zsum f l.
Proof.
  revert acc. unfold zsum. induction l as [|x l IH]; intros acc; cbn; [lia|]. rewrite IH. lia.
Qed.

(** A loop over the indices of the shards is a loop over the shards. *)
Lemma fold_shards {A : Type} (f : A → Shard → A) c a j :
  fold_left (λ a i, f a (shard_at c i)) (seq j (length (shards c) - j)) a = fold_left f (drop j (shards c)) a.
Proof.
  remember (length (shards c) - j)%nat as n eqn:Hn. revert a j Hn. induction n as [|n IH]; intros a j Hn.
  - by rewrite drop_ge by lia.
  - destruct (lookup_lt_is_Some_2 (shards c) j) as [m Hm]; [lia|]. rewrite (drop_S _ _ _ Hm).
    assert (shard_at c j = m) as <- by (unfold shard_at; by rewrite Hm). apply IH. lia.
Qed.

Section Alone.
Context (HP : PlatformOk P) (HD : PartsOk D).
(** Iteration visits the parts in order. *)
Context (iter_parts : ∀ m : Shard, map_iter m = seq 0 parts ≫= λ b, map_iter (part_of b m)).

Lemma reads_as_iter i : reads_as (iter_proc i) (λ c, map_iter (shard_at c i)).
Proof.
  eapply reads_as_eq.
  - apply (reads_as_pfold _ (λ c entries b, entries ++ map_iter (part_of b (shard_at c i)))). intros entries b.
    apply (reads_as_bind _ _ _ (λ es _, entries ++ es)); [apply reads_as_gets|]. intros es. apply reads_as_ret.
  - intros c _. cbv beta. rewrite fold_app. cbn [app]. symmetry. apply iter_parts.
Qed.

Lemma reads_as_each_shard {A : Type} (p : A → nat → Prog A) (f : A → Shard → A) a :
  (∀ a i, reads_as (p a i) (λ c, f a (shard_at c i))) →
  reads_as (each_shard p a) (λ c, fold_left f (shards c) a).
Proof.
  intros Hp. eapply reads_as_eq.
  - apply (reads_as_bind _ _ num_shards (λ n c, fold_left (λ a i, f a (shard_at c i)) (seq 0 (Z.to_nat n)) a)); [apply reads_as_gets|].
    intros n. by apply (reads_as_pfold _ (λ c a i, f a (shard_at c i))).
  - intros c Hwf. cbv beta. rewrite <- (wf_shards c Hwf), <- (Nat.sub_0_r (length (shards c))). apply fold_shards.
Qed.

(** Once a shard has been iterated, what is done with its entries. *)
Lemma reads_as_each_entries {A : Type} (f : A → list (bytes * Entry) → A) a :
  reads_as (each_shard (λ a i, entries ← iter_proc i; mret (f a entries)) a)
    (λ c, fold_left (λ a m, f a (map_iter m)) (shards c) a).
Proof.
  apply (reads_as_each_shard _ (λ a m, f a (map_iter m))). intros a' i.
  apply (reads_as_bind _ _ _ (λ es _, f a' es)); [apply reads_as_iter|]. intros es. apply reads_as_ret.
Qed.

Lemma reads_as_keys now : reads_as (keys_prog now) (λ c, (keys now c).1).
Proof.
  eapply reads_as_eq; [apply (reads_as_each_entries (λ result es, result ++ (filter (λ kv, expired now kv.2 = false) es).*1))|].
  intros c _. cbv beta. by rewrite (fold_app (λ m : Shard, (filter (λ kv, expired now kv.2 = false) (map_iter m)).*1)).
Qed.

Lemma size_iter (m : Shard) : size m = length (map_iter m).
Proof. by rewrite (map_iter_perm Entry m), length_map_to_list. Qed.

Lemma size_parts m : zsum (λ b, Z.of_nat (size (part_of b m))) (seq 0 parts) = Z.of_nat (size m).
Proof.
  rewrite (size_iter m), (iter_parts m). unfold zsum. generalize (seq 0 parts). intros l.
  induction l as [|b l IH]; [done|].
  cbn. rewrite IH, length_app, size_iter. lia.
Qed.

Lemma reads_as_len : reads_as len_prog (λ c, (store_len c).1).
Proof.
  eapply reads_as_eq.
  - apply (reads_as_each_shard _ (λ n m, n + Z.of_nat (size m))). intros n i. eapply reads_as_eq.
    + apply (reads_as_pfold _ (λ c n b, n + Z.of_nat (size (part_of b (shard_at c i))))). intros n' b.
      apply (reads_as_bind _ _ _ (λ k _, n' + k)); [apply reads_as_gets|]. intros k. apply reads_as_ret.
    + intros c _. cbv beta. by rewrite (fold_add (λ b, Z.of_nat (size (part_of b (shard_at c i))))), size_parts.
  - intros c _. cbv beta. by rewrite (fold_add (λ m : Shard, Z.of_nat (size m))), Z.add_0_l.
Qed.

Lemma run_scan_shards count now pattern n shard pos todo result checked k c :
  core_wf c → 0 ≤ shard → todo = (length (shards c) - Z.to_nat shard)%nat →
  run_proc (scan_shards_prog count now pattern n shard pos todo result checked k) c =
  run_proc (k (scan_shards count now pattern n shard pos (drop (Z.to_nat shard) (shards c)) result checked)) c.
Proof.
  intros Hwf. revert shard pos result checked. induction todo as [|todo IH]; intros shard pos result checked Hs Ht.
  { by rewrite drop_ge by lia. }
  destruct (lookup_lt_is_Some_2 (shards c) (Z.to_nat shard)) as [m Hm]; [lia|]. rewrite (drop_S _ _ _ Hm).
  cbn [scan_shards_prog scan_shards]. unfold mbind, Prog_bind. rewrite reads_as_iter by done.
  assert (shard_at c (Z.to_nat shard) = m) as -> by (unfold shard_at; by rewrite Hm).
  destruct (scan_entries _ _ _ _ _ _ _ _ _ _) as [r|[result' checked']]; [done|].
  replace (S (Z.to_nat shard)) with (Z.to_nat (shard + 1)) by lia. apply IH; lia.
Qed.

Lemma reads_as_scan cursor count_hint pattern now :
  0 ≤ cursor → reads_as (scan_prog cursor count_hint pattern now) (λ c, (scan cursor count_hint pattern now c).1).
Proof.
  intros Hc k c Hwf. unfold scan_prog, scan, mbind, Prog_bind, section. cbn [run_proc]. unfold mbind, M_bind.
  cbn [gets fst snd mret M_ret]. cbv zeta. destruct (num_shards c <=? _) eqn:Hn; [done|].
  apply run_scan_shards; [done| |].
  - apply Z.div_pos; [done|]. unfold CURSOR_STRIDE. lia.
  - by rewrite (wf_shards c Hwf).
Qed.

(** Clearing a shard part by part empties it. *)
Lemma clear_shard i c l :
  (i < length (shards c))%nat →
  mfold (λ _ b, clear_part i b) tt l c = (tt, put_shard i (filter (λ kv, part kv.1 ∉ l) (shard_at c i)) c).
Proof.
  revert c. induction l as [|b l IH]; intros c Hi.
  - cbn. f_equal. rewrite map_filter_id by (intros; apply not_elem_of_nil). unfold put_shard, shard_at.
    destruct (lookup_lt_is_Some_2 _ _ Hi) as [m Hm]. rewrite Hm. cbn. rewrite list_insert_id by done. by destruct c.
  - cbn [mfold]. unfold mbind, M_bind. cbn [clear_part modify fst snd].
    rewrite IH by (cbn; by rewrite length_insert). f_equal. unfold put_shard at 1, shard_at at 1. cbn.
    rewrite list_lookup_insert_eq by done. cbn. unfold put_shard, set_shards. cbn. f_equal.
    rewrite list_insert_insert_eq. f_equal. rewrite map_filter_filter. apply map_filter_ext.
    intros key e _. cbn. rewrite not_elem_of_cons. naive_solver.
Qed.

Lemma clear_shards j c :
  (j <= length (shards c))%nat →
  mfold (λ _ i, mfold (λ _ b, clear_part i b) tt (seq 0 parts)) tt (seq j (length (shards c) - j)) c =
  (tt, set_shards (take j (shards c) ++ ((λ _, ∅) <$> drop j (shards c))) c).
Proof.
  remember (length (shards c) - j)%nat as n eqn:Hn. revert c j Hn. induction n as [|n IH]; intros c j Hn Hj.
  - cbn. rewrite take_ge, drop_ge by lia. rewrite app_nil_r. by destruct c.
  - cbn [seq mfold]. unfold mbind, M_bind. rewrite clear_shard by lia. cbn [fst snd].
    replace (filter _ (shard_at c j)) with (∅ : Shard).
    2:{ symmetry. apply map_empty_filter_2. intros key e _ Hin. apply Hin. cbn.
        apply elem_of_seq. pose proof (part_lt key). lia. }
    rewrite IH by (cbn; rewrite length_insert; lia). f_equal. unfold put_shard, set_shards. cbn. f_equal.
    destruct (lookup_lt_is_Some_2 (shards c) j) as [m Hm]; [lia|].
    rewrite drop_insert_lt, (drop_S _ _ _ Hm) by lia. cbn [fmap list_fmap].
    rewrite (take_S_r _ _ ∅) by (apply list_lookup_insert_eq; lia). rewrite take_insert_ge by lia.
    by rewrite <- app_assoc.
Qed.

Lemma run_clear k c : core_wf c → run_proc (clear_prog k) c = run_proc (k tt) (clear c).2.
Proof.
  intros Hwf. unfold clear_prog, each_shard, mbind, Prog_bind, section. cbn [run_proc]. unfold mbind, M_bind.
  cbn [gets fst snd mret M_ret]. rewrite <- (wf_shards c Hwf), <- (Nat.sub_0_r (length (shards c))).
  rewrite (runs_pfold _ (λ _ i, mfold (λ _ b, clear_part i b) tt (seq 0 parts))).
  - rewrite clear_shards by lia. done.
  - intros _ i. apply runs_pfold. intros _ b. apply runs_section.
Qed.

Lemma reads_as_live now : reads_as (live_prog now) (live_bytes now).
Proof.
  unfold live_prog. eapply reads_as_eq.
  - apply (reads_as_each_entries (λ acc es, fold_left flush_add (filter (λ kv, expired now kv.2 = false) es) acc)).
  - intros c _. cbv beta. unfold live_bytes, store_entries. change (λ acc kv, u64 _) with flush_add.
    generalize 0. induction (shards c) as [|m l IH]; intros acc; [done|].
    cbn. by rewrite filter_app, fold_left_app, IH.
Qed.

(** Run with no one in between, each command of this file is its handler. *)
Lemma sweep_alone w s k c :
  core_wf c → run_proc (sweep_proc w s k) c = run_proc (k (sweep_run w s c).1) (sweep_run w s c).2.
Proof.
  intros Hwf. destruct s as [now| |command now|]; cbn [sweep_proc sweep_run].
  - unfold keys_proc, mbind, Prog_bind. by rewrite reads_as_keys.
  - unfold dbsize_proc, mbind, Prog_bind. by rewrite reads_as_len.
  - destruct command as [|? [|cur opts]]; try done. cbn. destruct (parse_u64 cur) as [cursor|] eqn:Hp; [|done].
    destruct (parse_scan_opts opts 10 None) as [[hint pattern]|]; [|done].
    unfold mbind, Prog_bind. rewrite reads_as_scan; [done| |done].
    destruct cur as [|b cur]; [done|]. apply parse_u64_loop_spec in Hp as (_ & _ & Hu); [apply Hu|done].
  - unfold flush_proc, handle_flush, mbind, Prog_bind, section. cbn [run_proc]. unfold mbind, M_bind. cbv zeta.
    cbn [get_timestamp fst snd mret M_ret].
    assert (core_wf (tick c)) as Hwf' by (destruct Hwf; by constructor).
    rewrite reads_as_live by exact Hwf'. rewrite run_clear by exact Hwf'. reflexivity.
Qed.
End Alone.
End Sweeps.
