(* ===== verification/ProcLogic.v ===== *)
(** * Reasoning about threads

    A thread is followed by a ghost value that its sections update: [safe p g] says that
    from the ghost value [g] every section of [p], in whatever state the other threads
    have left the store, moves the store and the ghost value as the relation [R] allows,
    and that the reply is [final] for the ghost value it ends with.  Races.v takes for it
    what a command still has to add to [MEMORY_USED], Linear.v whether the command has
    taken effect. *)

From S2P Require Import Prelude Decimal Protocol Config S3Fifo State Store Steps StoreOps StoreSpec.
From S2P Require Import Memory Eviction Scan Handlers Procs Sweeps.

Section Logic.
Context {P : Platform} {CFG : HasConfig}.

(** ** The store under a section *)

(** A section that changes queues and bookkeeping only. *)
Definition still {A : Type} (m : M A) : Prop :=
  ∀ c, core_wf c → wp m (λ _ c', ∃ k, Step k (lookup_entry c k) 0 c c') c.

Lemma still_quiet {A : Type} (m : M A) : quiet m → still m.
Proof.
  intros Hq c Hwf. eapply wp_mono; [exact (wp_quiet c [] m _ _ c Hq (Step_refl [] c Hwf))|]. intros a c' HS. by exists [].
Qed.

Lemma still_dequeue_old key : still (dequeue_old key).
Proof.
  intros c Hwf. pose proof (Step_refl key c Hwf) as HS. apply (wp_find c key (λ i e, _)).
  destruct (lookup_entry c key) eqn:He; [|apply wp_ret; exists key; by rewrite He].
  eapply wp_mono; [exact (wp_dequeue c key _ _ _ _ _ HS)|]. intros [] c' HS'. exists key. by rewrite He.
Qed.

Lemma still_enqueue key : still (i ← hash key; enqueue i key).
Proof.
  intros c Hwf. apply wp_bind, wp_gets. unfold enqueue. apply wp_bind, wp_gets.
  destruct (is_in_ghost _ _); (eapply wp_bind, wp_mono;
    [eapply (wp_with_queues c key); [|by apply Step_refl]; auto with redistill|]);
    intros [] c1 HS1; apply wp_ret; eauto.
Qed.

Lemma still_take_victim i : still (take_victim i).
Proof.
  intros c Hwf. unfold take_victim. pose proof (queues_at_ok c i Hwf) as Hq.
  apply wp_bind, wp_gets, wp_bind. eapply wp_mono.
  { apply (wp_quiet c []); [|by apply Step_refl].
    destruct (small_queue _); [apply quiet_ret|apply quiet_get_timestamp]. }
  intros t c1 HS1. apply wp_bind, wp_modify, wp_ret. exists [].
  apply (wp_with_queues c [] i (λ _, (pop_victim ahash t (queues_at c i)).2) _ _ c1 ltac:(intros; by apply pop_victim_ok) HS1).
Qed.

Lemma quiet_sample_skip i : quiet (sample_skip i).
Proof.
  apply quiet_bind; [done|]. intros m. destruct (size m =? 0)%nat; [apply quiet_ret|]. by apply quiet_bind.
Qed.

(** The sections that change an entry. *)
Lemma wp_remove_key key p c :
  core_wf c →
  wp (i ← hash key; shard_remove_if i key p)
    (λ r c', r = (match lookup_entry c key with Some e => if p e : bool then Some e else None | None => None end) ∧
             Step key (match r with Some _ => None | None => lookup_entry c key end) 0 c c') c.
Proof.
  intros Hwf. pose proof (Step_refl key c Hwf) as HS. wp_call (wp_hash c key _ _ _ HS) as i c1 (-> & HS1).
  eapply wp_mono; [exact (wp_shard_remove_if c key Hwf p _ _ _ HS1)|]. intros r c2 HS2.
  destruct (lookup_entry c key) as [e|]; [destruct (p e)|]; by destruct HS2 as [-> HS2].
Qed.

Lemma wp_insert_key key e c :
  core_wf c →
  wp (i ← hash key; old ← shard_insert i key e;
      mret ((λ e, calculate_entry_size (len key) (e_value e)) <$> old))
    (λ r c', r = (λ e, calculate_entry_size (len key) (e_value e)) <$> lookup_entry c key ∧
             Step key (Some e) 0 c c') c.
Proof.
  intros Hwf. pose proof (Step_refl key c Hwf) as HS. wp_call (wp_hash c key _ _ _ HS) as i c1 (-> & HS1).
  wp_call (wp_shard_insert c key Hwf _ _ _ _ HS1) as old c2 (-> & HS2). by apply wp_ret.
Qed.

(** The bookkeeping of a read keeps the data of the entry. *)
Lemma wp_read_live {A : Type} key (val : EntryValue → A) e c :
  core_wf c → lookup_entry c key = Some e →
  wp (read_live key val (shard_of c key) e)
    (λ a c', a = val (e_value e) ∧ ∃ e', same_data e e' ∧ Step key (Some e') 0 c c') c.
Proof.
  intros Hwf He. pose proof (Step_refl key c Hwf) as HS. rewrite He in HS. unfold read_live.
  wp_call (wp_maybe_update_access_time c key Hwf _ _ _ HS) as [] c1 (e1 & Hd1 & HS1).
  wp_call (wp_track_access c key Hwf _ e _ _ HS1) as [] c2 (e2 & Hd2 & HS2).
  apply wp_ret. eauto with redistill.
Qed.

Lemma wp_alter_key key f e c :
  core_wf c → lookup_entry c key = Some e →
  wp (shard_alter (shard_of c key) key f) (λ _ c', Step key (Some (f e)) 0 c c') c.
Proof.
  intros Hwf He. pose proof (Step_refl key c Hwf) as HS. rewrite He in HS.
  exact (wp_shard_alter c key Hwf f _ _ _ HS).
Qed.

(** The live entry as it is. *)
Lemma wp_keep {A : Type} key e (a : A) c :
  core_wf c → lookup_entry c key = Some e →
  wp (mret a) (λ _ c', ∃ e', e_value e' = e_value e ∧ Step key (Some e') 0 c c') c.
Proof. intros Hwf He. apply wp_ret. exists e. split; [done|]. rewrite <- He. by apply Step_refl. Qed.

(** A new expiry time. *)
Lemma wp_reexpire {A : Type} key x e (a : A) c :
  core_wf c → lookup_entry c key = Some e →
  wp (shard_alter (shard_of c key) key (with_expiry x);; mret a)
    (λ _ c', ∃ e', e_value e' = e_value e ∧ Step key (Some e') 0 c c') c.
Proof.
  intros Hwf He. apply wp_bind. eapply wp_mono; [by apply wp_alter_key|]. intros [] c' HS. apply wp_ret.
  eexists. by split; [|exact HS].
Qed.

(** ** Threads *)

Section Safe.
Context {G : Type} (final : bytes → G → Prop) (R : G → Core → G → Core → Prop).

#[warnings="-register-all"]
Inductive safe : Proc → G → Prop :=
| safe_done reply g : final reply g → safe (Done reply) g
| safe_atomic m g :
    (∀ c, core_wf c → core_wf (m c).2 ∧ ∃ g', safe (m c).1 g' ∧ R g c g' (m c).2) →
    safe (Atomic m) g.

(** From [g], the part [p] of a thread reaches a result and a ghost value as in [Q]. *)
Definition tp {A : Type} (g : G) (p : Prog A) (Q : A → G → Prop) : Prop :=
  ∀ k, (∀ a g', Q a g' → safe (k a) g') → safe (p k) g.

Lemma tp_thread g p : tp g p final → safe (thread p) g.
Proof. intros Hp. apply Hp. intros a g'. by constructor. Qed.

Lemma tp_ret {A : Type} g (a : A) (Q : A → G → Prop) : Q a g → tp g (mret a) Q.
Proof. intros HQ k Hk. by apply Hk. Qed.

Lemma tp_bind {A B : Type} g (p : Prog A) (f : A → Prog B) (Q : B → G → Prop) :
  tp g p (λ a g', tp g' (f a) Q) → tp g (a ← p; f a) Q.
Proof. intros Hp k Hk. apply Hp. intros a g' Hf. by apply Hf. Qed.

Lemma tp_mono {A : Type} g (p : Prog A) (Q Q' : A → G → Prop) :
  tp g p Q → (∀ a g', Q a g' → Q' a g') → tp g p Q'.
Proof. intros Hp HQ k Hk. apply Hp. auto. Qed.

Lemma tp_section {A : Type} g (m : M A) (Q : A → G → Prop) :
  (∀ c, core_wf c → wp m (λ a c', core_wf c' ∧ ∃ g', Q a g' ∧ R g c g' c') c) → tp g (section m) Q.
Proof.
  intros Hm k Hk. constructor. intros c Hwf. unfold mbind, M_bind. cbn [fst snd mret M_ret].
  destruct (Hm c Hwf) as (Hwf' & g' & HQ & HR). split; [done|]. exists g'. split; [|done]. by apply Hk.
Qed.

(** A section that changes one entry. *)
Lemma tp_step {A : Type} g (m : M A) (Q : A → G → Prop) :
  (∀ c, core_wf c →
     wp m (λ a c', ∃ k o, Step k o 0 c c' ∧ ∃ g', Q a g' ∧ R g c g' c') c) → tp g (section m) Q.
Proof.
  intros Hm. apply tp_section. intros c Hwf. eapply wp_mono; [by apply Hm|].
  intros a c' (k & o & HS & HQ). split; [by eapply Step_wf|done].
Qed.

(** ** Parts that leave the ghost value alone *)

Definition holds {A : Type} (g : G) (p : Prog A) : Prop := tp g p (λ _ g', g' = g).

Lemma holds_ret {A : Type} g (a : A) : holds g (mret a).
Proof. by apply tp_ret. Qed.

Lemma holds_bind {A B : Type} g (p : Prog A) (f : A → Prog B) :
  holds g p → (∀ a, holds g (f a)) → holds g (a ← p; f a).
Proof. intros Hp Hf. apply tp_bind. eapply tp_mono; [apply Hp|]. intros a g' ->. apply Hf. Qed.

Lemma holds_then {A B : Type} g (p : Prog A) (f : A → Prog B) (Q : B → G → Prop) :
  holds g p → (∀ a, tp g (f a) Q) → tp g (a ← p; f a) Q.
Proof. intros Hp Hf. apply tp_bind. eapply tp_mono; [apply Hp|]. intros a g' ->. apply Hf. Qed.

Lemma holds_pfold {A B : Type} g (f : B → A → Prog B) b l :
  (∀ b x, holds g (f b x)) → holds g (pfold f b l).
Proof. intros Hf. revert b. induction l as [|x l IH]; intros b; [apply holds_ret|]. by apply holds_bind. Qed.

(** A loop with an invariant of its accumulator. *)
Lemma tp_pfold {A B : Type} (I : B → Prop) g (f : B → A → Prog B) b l :
  I b → (∀ b x, I b → tp g (f b x) (λ b' g', I b' ∧ g' = g)) → tp g (pfold f b l) (λ b' g', I b' ∧ g' = g).
Proof.
  intros Hb Hf. revert b Hb. induction l as [|x l IH]; intros b Hb; [by apply tp_ret|].
  apply tp_bind. eapply tp_mono; [by apply Hf|]. intros b' g' [Hb' ->]. by apply IH.
Qed.

(** Changes of queues and bookkeeping leave the ghost value alone. *)
Context (R_still : ∀ k g c c', core_wf c → Step k (lookup_entry c k) 0 c c' → R g c g c').

Lemma holds_still {A : Type} g (m : M A) : still m → holds g (section m).
Proof.
  intros Hm. apply tp_section. intros c Hwf. eapply wp_mono; [by apply Hm|].
  intros a c' (k & HS). split; [by eapply Step_wf|]. eauto.
Qed.

Lemma holds_look {A : Type} g (m : M A) : quiet m → holds g (section m).
Proof. intros Hm. by apply holds_still, still_quiet. Qed.

Lemma R_refl g c : core_wf c → R g c g c.
Proof. intros Hwf. by apply (R_still []), Step_refl. Qed.

Create HintDb holds.
#[local] Hint Resolve holds_ret holds_bind holds_pfold holds_still holds_look : holds.
#[local] Hint Resolve still_dequeue_old still_enqueue still_take_victim quiet_sample_skip quiet_sample_shard
  quiet_get_timestamp quiet_insert_timestamp : holds.
#[local] Hint Extern 0 (quiet (gets _)) => done : holds.

Ltac holds :=
  repeat lazymatch goal with
    | |- holds _ (mbind _ _) => apply holds_bind; [|intros ?]
    | |- holds _ (pfold _ _ _) => apply holds_pfold; intros ? ?
    | |- holds _ (if ?b then _ else _) => destruct b
    | |- holds _ (match ?x with _ => _ end) => destruct x
    | |- _ => progress (cbv zeta)
    end; auto with holds.

Lemma holds_sample g i : holds g (sample_proc i).
Proof. unfold sample_proc. holds. Qed.
#[local] Hint Resolve holds_sample : holds.

(** Eviction, when removing a victim leaves the ghost value alone; it happens only under a
    memory limit and a policy that evicts. *)
Section Evict.
Context (g : G).
Context (Hevict : max_memory (memory CONFIG) ≠ 0 → EVICTION_POLICY ≠ NoEviction →
                  ∀ i key, holds g (evict_at_proc i key)).

Lemma holds_evict_one policy :
  (∀ i key, holds g (evict_at_proc i key)) → holds g (evict_one_proc policy).
Proof.
  intros He. destruct policy; cbn [evict_one_proc].
  - holds.
  - unfold evict_lru_proc, lru_round_proc. holds.
  - unfold evict_random_proc. holds.
  - apply holds_bind; [holds|]. intros n. induction (Z.to_nat n); cbn; holds.
Qed.

Lemma holds_evict_loop n freed needed_size :
  (∀ i key, holds g (evict_at_proc i key)) → holds g (evict_loop_proc n freed needed_size).
Proof.
  intros He. pose proof (holds_evict_one EVICTION_POLICY He).
  revert freed. induction n as [|n IH]; intros freed; cbn; holds.
Qed.

(** A write is refused only under a memory limit. *)
Lemma tp_evict needed_size :
  tp g (evict_proc needed_size) (λ ok g', g' = g ∧ (ok = false → max_memory (memory CONFIG) ≠ 0)).
Proof.
  unfold evict_proc. cbv zeta. destruct (Z.eqb_spec (max_memory (memory CONFIG)) 0) as [|Hm]; [by apply tp_ret|].
  apply holds_then; [holds|]. intros used. destruct (_ <=? _); [by apply tp_ret|].
  case_bool_decide as Hp; [by apply tp_ret|]. apply holds_then; [by apply holds_evict_loop, Hevict|].
  intros []. apply holds_then; [holds|]. intros final_used. by apply tp_ret.
Qed.

Lemma holds_evict needed_size : holds g (evict_proc needed_size).
Proof. eapply tp_mono; [apply tp_evict|]. by intros ok g' [-> _]. Qed.
End Evict.

(** The expiry task, when removing an expired entry does. *)
Lemma holds_expire_rounds g count now :
  (∀ i key n, holds g (removed ← section (shard_remove_if i key (expired now));
                       match removed with
                       | Some r => sub_proc (calculate_entry_size (len key) (e_value r));; mret (n + 1)
                       | None => mret n
                       end)) →
  holds g (expire_rounds_proc count now).
Proof.
  intros Hx. unfold expire_rounds_proc, expire_round_proc.
  apply holds_pfold. intros b x. apply holds_bind; [holds|]. intros i. apply holds_bind; [holds|].
  intros [[key e]|]; [|holds]. destruct (expired now e); [|holds]. apply Hx.
Qed.

(** A read, from what it does with a live entry and, when it must drop an expired one,
    from there on. *)
Lemma tp_guarded {A : Type} g key now (dead : A) live (Q : A → G → Prop) :
  (∀ c, core_wf c →
     match unexpired now (lookup_entry c key) with
     | Some e => wp (live (shard_of c key) e) (λ a c', ∃ k o, Step k o 0 c c' ∧ ∃ g', Q a g' ∧ R g c g' c') c
     | None => ∃ g', R g c g' c ∧ Q dead g' ∧ holds g' (expire_proc key now)
     end) →
  tp g (guarded key now dead live) Q.
Proof.
  intros Hl. unfold guarded. apply tp_bind, tp_section. intros c Hwf. specialize (Hl c Hwf).
  apply (wp_find c key (λ i e, _)). destruct (lookup_entry c key) as [e|]; cbn [unexpired] in Hl.
  - destruct (expired now e).
    + apply wp_ret. destruct Hl as (g' & HR & HQ & Hx). split; [done|]. exists g'. split; [|done].
      apply holds_then; [done|]. intros _. by apply tp_ret.
    + apply wp_bind. eapply wp_mono; [exact Hl|]. intros a c' (k & o & HS & g' & HQ & HR). apply wp_ret.
      split; [by eapply Step_wf|]. exists g'. split; [|done]. by apply tp_ret.
  - apply wp_ret. destruct Hl as (g' & HR & HQ & _). split; [done|]. exists g'. split; [|done]. by apply tp_ret.
Qed.

(** [set] is still up to its last section. *)
Lemma tp_set g key value ttl now (Q : option Z → G → Prop) :
  (∀ timestamp queue_type c c',
     let e := mkEntry (EV_String value) ((λ s, u64 (now + s)) <$> ttl) timestamp queue_type 0 in
     core_wf c → Step key (Some e) 0 c c' →
     ∃ g', Q ((λ e, calculate_entry_size (len key) (e_value e)) <$> lookup_entry c key) g' ∧ R g c g' c') →
  tp g (set_prog key value ttl now) Q.
Proof.
  intros Hi. unfold set_prog. apply holds_then; [holds|]. intros t. apply holds_then; [holds|].
  intros _. apply holds_then; [holds|]. intros q. apply tp_step. intros c Hwf.
  eapply wp_mono; [by apply wp_insert_key|]. intros r c' (-> & HS). exists key. eexists. split; [exact HS|].
  by eapply Hi.
Qed.
(** The walks of the store that only read. *)
Section Walks.
Context {D : Parts} (g : G).

Lemma holds_iter i : holds g (iter_proc i).
Proof. unfold iter_proc. holds. Qed.

Lemma holds_each {A : Type} (f : A → nat → Prog A) a : (∀ a i, holds g (f a i)) → holds g (each_shard f a).
Proof. intros Hf. unfold each_shard. holds. Qed.
#[local] Hint Resolve holds_iter holds_each : holds.

Lemma holds_scan count now pattern n shard pos todo result checked :
  holds g (scan_shards_prog count now pattern n shard pos todo result checked).
Proof. revert shard pos result checked. induction todo as [|todo IH]; intros; cbn; holds. Qed.
#[local] Hint Resolve holds_scan : holds.

Lemma holds_walk w s : reads_only s → holds g (sweep_proc w s).
Proof.
  destruct s as [now| |command now|]; intros Hs; cbn [sweep_proc]; [| | |done].
  - unfold keys_proc, keys_prog. holds.
  - unfold dbsize_proc, len_prog. holds.
  - unfold scan_proc, scan_prog. holds.
Qed.
End Walks.

(** ** Whole commands *)

(** A command leaves the ghost value alone as soon as the parts of it that store or
    remove an entry do, with the accounting that follows, and a change of bookkeeping or
    expiry does. *)
Section Commands.
Context (g : G).
Context (Hkeep : ∀ key e e' c c', core_wf c → lookup_entry c key = Some e → e_value e' = e_value e →
                   Step key (Some e') 0 c c' → R g c g c').
Context (Hexpire : ∀ key now, holds g (expire_proc key now)).
Context (Hevict : ∀ i key, holds g (evict_at_proc i key)).
Context (Hstore : ∀ key value ttl now, holds g (store_proc key value ttl now)).
Context (Hdelete : ∀ now n key, holds g (delete_one_proc now n key)).

(** A read that keeps the value of the entry. *)
Lemma holds_guarded {A : Type} key now (dead : A) live :
  (∀ e c, core_wf c → lookup_entry c key = Some e → expired now e = false →
     wp (live (shard_of c key) e) (λ _ c', ∃ e', e_value e' = e_value e ∧ Step key (Some e') 0 c c') c) →
  holds g (guarded key now dead live).
Proof.
  intros Hl. apply tp_guarded. intros c Hwf.
  destruct (unexpired now (lookup_entry c key)) as [e|] eqn:Hu.
  - destruct (lookup_entry c key) as [e0|] eqn:He; [|done]. cbn in Hu.
    destruct (expired now e0) eqn:Hx; [done|]. injection Hu as ->.
    eapply wp_mono; [by apply Hl|]. intros a c' (e' & Hv & HS). exists key. eexists. split; [exact HS|].
    exists g. split; [done|]. by eapply Hkeep.
  - exists g. split_and!; [by apply R_refl|done|apply Hexpire].
Qed.

Lemma holds_read {A : Type} key now (dead : A) val : holds g (guarded key now dead (read_live key val)).
Proof.
  apply holds_guarded. intros e c Hwf He _. eapply wp_mono; [by apply wp_read_live|].
  intros a c' (_ & e' & (Hv & _) & HS). eauto.
Qed.

Lemma holds_delete keys now : holds g (delete_proc keys now).
Proof. apply holds_pfold. intros n key. apply Hdelete. Qed.

Lemma holds_evicts needed_size : holds g (evict_proc needed_size).
Proof. apply holds_evict. auto. Qed.

#[local] Hint Resolve holds_evicts holds_read holds_delete : holds.
#[local] Hint Extern 1 (quiet _) => intros ?; done : holds.

Lemma holds_incr command w now delta : holds g (incr_proc command w now delta).
Proof. unfold incr_proc, incr_rest. holds. Qed.
#[local] Hint Resolve holds_incr : holds.

Lemma holds_handler h command w now : holds g (handler_proc h command w now).
Proof.
  destruct h; cbn [handler_proc]; auto with holds.
  - unfold set_proc. holds.
  - unfold incrby_proc. holds.
  - unfold decrby_proc. holds.
  - unfold mset_proc. holds.
  - unfold del_proc. holds.
  - unfold exists_proc. holds.
  - unfold get_proc, get_prog. holds.
  - unfold mget_proc, get_prog. holds.
  - unfold hget_proc. holds.
  - unfold hgetall_proc. holds.
  - unfold type_proc. holds. apply holds_guarded. intros. by apply wp_keep.
  - unfold ttl_proc. holds. apply holds_guarded. intros. by apply wp_keep.
  - unfold ttl_proc. holds. apply holds_guarded. intros. by apply wp_keep.
  - unfold expire_at_proc. holds. apply holds_guarded. intros. by apply wp_reexpire.
  - unfold persist_proc. holds. apply holds_guarded. intros e c Hwf He _.
    destruct (e_expiry e); [by apply wp_reexpire|by apply wp_keep].
Qed.
End Commands.
End Safe.
End Logic.
