(* ===== verification/Races.v ===== *)
(** * Commands beside each other ([src/main.rs], [src/store.rs])

    The threads of Procs.v in any interleaving of their sections: they keep the memory
    counter exact, although they adjust it only after they have changed the store, and
    each of them ends.  What interleaving does break - increments and [NX] - is shown by
    example. *)

From S2P Require Import Prelude Decimal Protocol Config S3Fifo State Store Steps StoreOps StoreSpec.
From S2P Require Import Memory Eviction Handlers HandlerSpec HandlerMem Aof Snapshot Procs Sweeps ProcLogic Demo.

Section Races.
Context {P : Platform} {CFG : HasConfig}.

(** ** What a thread owes the counter *)

(** The ghost value of a thread is what it still has to add to [MEMORY_USED]. *)
Definition paid (reply : bytes) (d : Z) : Prop := d = 0.
Definition balanced (d : Z) (c : Core) (d' : Z) (c' : Core) : Prop :=
  tracks_memory = true → u64 (drift c' + d') = u64 (drift c + d).
Definition cost (n : Z) : Z := if tracks_memory then n else 0.

Abbreviation owes := (safe paid balanced).
Abbreviation pays := (tp paid balanced).
Abbreviation neutral := (holds paid balanced 0).

(** A section that changes one entry and not the counter. *)
Lemma balanced_step k o d c c' :
  core_wf c → Step k o 0 c c' → balanced d c (d + cost (esize k o - esize k (lookup_entry c k))) c'.
Proof.
  intros Hwf HS Ht. unfold cost. rewrite Ht, (drift_step _ _ _ _ _ Hwf HS Ht), u64_u64_add_l. f_equal. lia.
Qed.

Lemma balanced_same k d o c c' :
  core_wf c → Step k o 0 c c' → esize k o = esize k (lookup_entry c k) → balanced d c d c'.
Proof.
  intros Hwf HS He. replace d with (d + cost (esize k o - esize k (lookup_entry c k))) at 2.
  - by apply balanced_step.
  - rewrite He, Z.sub_diag. unfold cost. destruct tracks_memory; lia.
Qed.

Lemma balanced_still k d c c' : core_wf c → Step k (lookup_entry c k) 0 c c' → balanced d c d c'.
Proof. intros Hwf HS. by eapply balanced_same. Qed.

(** A section that changes the counter alone. *)
Lemma pays_memory d n (m : M unit) :
  (∀ c, wp m (λ _ c', c' = set_memory (u64 (MEMORY_USED c + n)) c) c) →
  pays d (section m) (λ _ d', d' = d - n).
Proof.
  intros Hm. apply tp_section. intros c Hwf. eapply wp_mono; [apply Hm|]. intros [] c' ->. split.
  { destruct Hwf. constructor; try done. apply u64_range. }
  exists (d - n). split; [done|]. intros _. unfold drift.
  change (bytes_stored (set_memory _ c)) with (bytes_stored c). cbn [MEMORY_USED set_memory].
  rewrite !u64_u64_add_l. destruct (u64_ex (MEMORY_USED c + n)) as [q ->]. apply u64_cong. exists q. lia.
Qed.

Lemma pays_sub d size : pays d (sub_proc size) (λ _ d', d' = d + cost size).
Proof.
  unfold sub_proc, cost. destruct tracks_memory; [|apply tp_ret; lia].
  eapply tp_mono; [apply (pays_memory d (- size)); intros c; by apply wp_modify|]. intros [] d' ->. lia.
Qed.

Lemma pays_add d size : pays d (add_proc size) (λ _ d', d' = d - cost size).
Proof.
  unfold add_proc, cost. destruct tracks_memory; [|apply tp_ret; lia]. apply pays_memory. intros c. by apply wp_modify.
Qed.

(** What removing an entry leaves to pay. *)
Lemma balanced_removed key e d c c' :
  core_wf c → lookup_entry c key = Some e → Step key None 0 c c' →
  balanced d c (d - cost (calculate_entry_size (len key) (e_value e))) c'.
Proof.
  intros Hwf He HS. replace (d - _) with (d + cost (esize key None - esize key (lookup_entry c key))).
  - by apply balanced_step.
  - rewrite He. unfold cost, esize. destruct tracks_memory; lia.
Qed.

(** Removing an entry that satisfies [p], in whatever shard it is looked for. *)
Lemma pays_remove_any i key p :
  pays 0 (section (shard_remove_if i key p))
    (λ r d', d' = match r with Some e => - cost (calculate_entry_size (len key) (e_value e)) | None => 0 end).
Proof.
  apply tp_section. intros c Hwf. apply wp_shard_remove_any; [done| |].
  - split; [done|]. exists 0. split; [done|]. by apply (balanced_still key), Step_refl.
  - intros e c' He _ HS. split; [by eapply Step_wf|]. eexists. split; [reflexivity|].
    by apply (balanced_removed key e 0).
Qed.

Lemma pays_remove key p :
  pays 0 (section (i ← hash key; shard_remove_if i key p))
    (λ r d', d' = match r with Some e => - cost (calculate_entry_size (len key) (e_value e)) | None => 0 end).
Proof.
  apply tp_step. intros c Hwf. eapply wp_mono; [by apply wp_remove_key|]. intros r c' (-> & HS).
  exists key. eexists. split; [exact HS|]. eexists. split; [reflexivity|].
  destruct (lookup_entry c key) as [e|] eqn:He; [destruct (p e)|].
  - by apply (balanced_removed key e 0).
  - rewrite <- He in HS. by apply (balanced_still key).
  - rewrite <- He in HS. by apply (balanced_still key).
Qed.

(** Paying for what was removed. *)
Lemma pays_removed {A : Type} size (a : A) :
  pays (- cost size) (sub_proc size;; mret a) (λ _ d', d' = 0).
Proof. apply tp_bind. eapply tp_mono; [apply pays_sub|]. intros [] d' ->. apply tp_ret. lia. Qed.

(** ** Every part pays *)

Lemma neutral_expire key now : neutral (expire_proc key now).
Proof.
  apply tp_bind. eapply tp_mono; [apply pays_remove|]. intros [e|] d ->; [apply pays_removed|by apply tp_ret].
Qed.

Lemma neutral_evict_at i key : neutral (evict_at_proc i key).
Proof.
  apply tp_bind. eapply tp_mono; [apply (pays_remove_any i key (λ _, true))|].
  intros [e|] d ->; [|by apply tp_ret]. cbv zeta. set (sz := calculate_entry_size _ _).
  apply tp_bind. eapply (tp_mono _ _ _ _ (λ _ d', tracks_memory = true → d' = 0)).
  { eapply tp_mono; [apply (pays_memory _ (- sz)); intros c; by apply wp_modify|].
    intros [] d' -> Ht. unfold cost. rewrite Ht. lia. }
  intros [] d' Hd. apply tp_bind, tp_section. intros c Hwf.
  eapply wp_mono; [apply (still_quiet _ quiet_evicted c Hwf)|]. intros [] c' (k & HS).
  split; [by eapply Step_wf|]. exists 0. split; [by apply tp_ret|].
  intros Ht. rewrite (Hd Ht). by apply (balanced_still k 0 c c' Hwf HS).
Qed.

Lemma neutral_expire_rounds count now : neutral (expire_rounds_proc count now).
Proof.
  apply holds_expire_rounds; [exact balanced_still|]. intros i key n. apply tp_bind.
  eapply tp_mono; [apply pays_remove_any|]. intros [e|] d ->; [apply pays_removed|by apply tp_ret].
Qed.

Lemma neutral_store key value ttl now : neutral (store_proc key value ttl now).
Proof.
  apply tp_bind. apply tp_set; [exact balanced_still|]. intros t q c c' e Hwf HS. eexists. split; cycle 1.
  { by apply (balanced_step key (Some e) 0). }
  cbn [esize e_value e calculate_entry_size]. set (size := entry_size _ _).
  apply tp_bind. eapply (tp_mono _ _ _ _ (λ _ d', d' = cost size)).
  - destruct (lookup_entry c key) as [old|]; cbn [fmap option_fmap option_map esize].
    + eapply tp_mono; [apply pays_sub|]. intros [] d' ->. unfold cost. destruct tracks_memory; lia.
    + apply tp_ret. by rewrite Z.sub_0_r, Z.add_0_l.
  - intros [] d' ->. eapply tp_mono; [apply pays_add|]. intros [] d' ->. lia.
Qed.

Lemma neutral_delete now n key : neutral (delete_one_proc now n key).
Proof.
  unfold delete_one_proc. apply holds_bind.
  { case_bool_decide; [|apply holds_ret]. apply holds_still; [exact balanced_still|apply still_dequeue_old]. }
  intros _. apply tp_bind. eapply tp_mono; [apply (pays_remove key (λ _, true))|].
  intros [e|] d ->; [apply pays_removed|by apply tp_ret].
Qed.

Lemma neutral_handler h command w now : neutral (handler_proc h command w now).
Proof.
  apply holds_handler.
  - exact balanced_still.
  - intros key e e' c c' Hwf He Hv HS. eapply balanced_same; [done|exact HS|]. rewrite He. cbn. by rewrite Hv.
  - exact neutral_expire.
  - exact neutral_evict_at.
  - exact neutral_store.
  - exact neutral_delete.
Qed.

(** ** Any number of threads *)

(** One of the threads runs its next section. *)
Inductive proc_step : Core * list Proc → Core * list Proc → Prop :=
| proc_step_at c ts i m :
    ts !! i = Some (Atomic m) → proc_step (c, ts) ((m c).2, <[i:=(m c).1]> ts).

Section Threads.
Context {D : Parts}.

(** A command of a client - one of Procs.v, or a walk of the store that only reads - or a round
    of the expiry task. *)
Inductive command_proc : Proc → Prop :=
| command_handler h command w now : command_proc (thread (handler_proc h command w now))
| command_walk w s : reads_only s → command_proc (thread (sweep_proc w s))
| command_expiry count : command_proc (thread (expire_random_keys_proc count;; mret [])).

Lemma command_owes p : command_proc p → owes p 0.
Proof.
  intros [h command w now|w s Hs|count]; apply tp_thread.
  - apply neutral_handler.
  - by apply holds_walk; [exact balanced_still|].
  - apply holds_then; [|intros a; by apply tp_ret]. apply holds_bind.
    + by apply (holds_look _ _ balanced_still).
    + intros now. apply neutral_expire_rounds.
Qed.

Definition finished (p : Proc) : Prop := ∃ reply, p = Done reply.

(** The drift of the counter is what the threads owe. *)
Definition procs_ok (x : Core * list Proc) : Prop :=
  core_wf x.1 ∧
  ∃ ds, Forall2 owes x.2 ds ∧ (tracks_memory = true → u64 (drift x.1 + zsum id ds) = 0).

Lemma procs_ok_step x y : proc_step x y → procs_ok x → procs_ok y.
Proof.
  intros [c ts i m Hi] (Hwf & ds & Hds & Hz). cbn [fst snd] in *.
  destruct (Forall2_lookup_l _ _ _ _ _ Hds Hi) as (d & Hd & Ho). inversion Ho as [|? ? Hm]; subst.
  destruct (Hm c Hwf) as (Hwf' & d' & Ho' & Heq). split; [done|].
  exists (<[i:=d']> ds). split; [by apply Forall2_insert|]. intros Ht.
  cbn [fst]. rewrite (zsum_insert id ds i d d' Hd). unfold id at 2 3.
  rewrite <- (Hz Ht). specialize (Heq Ht). apply u64_cong in Heq as [q Hq]. apply u64_cong. exists q. lia.
Qed.

Lemma procs_ok_start c ts : inv c → Forall command_proc ts → procs_ok (c, ts).
Proof.
  intros [Hwf Hm] Hts. split; [done|]. exists (replicate (length ts) 0). split.
  - cbn [snd]. clear Hm. induction Hts as [|p ts Hp Hts IH]; cbn; constructor; auto using command_owes.
  - intros Ht. cbn [fst]. rewrite (proj1 (mem_ok_drift c Hwf) Hm Ht).
    replace (zsum id (replicate (length ts) 0)) with 0; [done|].
    induction (length ts) as [|n IH]; [done|]. unfold zsum in *. cbn [replicate foldr]. by rewrite <- IH.
Qed.

Lemma procs_ok_end c ts : procs_ok (c, ts) → Forall finished ts → inv c.
Proof.
  intros (Hwf & ds & Hds & Hz) Hf. split; [done|]. apply mem_ok_drift; [done|]. intros Ht.
  specialize (Hz Ht). cbn [fst snd] in *. replace (zsum id ds) with 0 in Hz.
  - rewrite Z.add_0_r in Hz. unfold drift in *. by rewrite u64_u64 in Hz.
  - clear Hz. induction Hds as [|p d ts ds Hp Hds IH]; [done|].
    apply Forall_cons in Hf as [[reply ->] Hf]. inversion Hp as [? ? Hd|]; subst.
    unfold zsum in *. cbn [foldr]. rewrite <- (IH Hf). by rewrite Hd.
Qed.

(** C12: under a memory limit, concurrent commands keep the memory counter exact.  Any number
    of commands on strings, reads of hashes, [KEYS], [SCAN], [DBSIZE] and rounds of the expiry
    task, on the same keys or on different ones, with any arguments, run in any interleaving of
    their sections, those of eviction included.
    Between the sections the counter is behind the store or ahead of it, but when all have
    replied it is again exactly the bytes stored: no update of the counter is lost or made
    twice. *)
Theorem concurrent_memory_exact c ts c' ts' :
  inv c → Forall command_proc ts → rtc proc_step (c, ts) (c', ts') → Forall finished ts' → inv c'.
Proof.
  intros Hc Hts Hr Hf. apply (procs_ok_end c' ts'); [|done]. pose proof (procs_ok_start c ts Hc Hts) as H.
  revert H. induction Hr; eauto using procs_ok_step.
Qed.
End Threads.

(** The scheduler runs one section of the given threads, in order. *)
Fixpoint proc_run (schedule : list nat) (c : Core) (ts : list Proc) : Core * list Proc :=
  match schedule with
  | [] => (c, ts)
  | i :: schedule =>
      match ts !! i with
      | Some (Atomic m) => let r := m c in proc_run schedule r.2 (<[i:=r.1]> ts)
      | _ => proc_run schedule c ts
      end
  end.

Lemma proc_run_steps schedule c ts : rtc proc_step (c, ts) (proc_run schedule c ts).
Proof.
  revert c ts. induction schedule as [|i schedule IH]; intros c ts; cbn; [done|].
  destruct (ts !! i) as [[reply|m]|] eqn:Hi; [apply IH| |apply IH].
  eapply rtc_l; [by apply proc_step_at|]. apply IH.
Qed.

(** The reply of a finished thread. *)
Definition reply_of (p : Proc) : option bytes := match p with Done reply => Some reply | Atomic _ => None end.
End Races.

(** ** What interleaving breaks *)

Section Examples.
#[local] Existing Instance demo_platform.

Section Memory.
#[local] Existing Instance demo_lru.
#[local] Existing Instance demo_parts.

Definition set_del_expire : list Proc :=
  [thread (handler_proc H_set [bs "SET"; bs "k"; bs "one"] [] 1000);
   thread (handler_proc H_set [bs "SET"; bs "k"; bs "three"; bs "EX"; bs "1"] [] 900);
   thread (handler_proc H_del [bs "DEL"; bs "k"] [] 1000);
   thread (expire_random_keys_proc 2;; mret []);
   thread (sweep_proc [] (W_keys 1000))].
Definition interleaved : list nat := concat (replicate 20 [0; 1; 2; 3; 4]%nat).

Lemma concurrent_memory_exact_witness : inv (proc_run interleaved (new 2) set_del_expire).1.
Proof.
  apply (concurrent_memory_exact (new 2) set_del_expire _ (proc_run interleaved (new 2) set_del_expire).2).
  - by apply fresh_new.
  - repeat (apply List.Forall_cons; [by constructor|]). apply List.Forall_nil.
  - rewrite <- surjective_pairing. apply proc_run_steps.
  - vm_compute. repeat (apply List.Forall_cons; [by eexists|]). apply List.Forall_nil.
Defined.
End Memory.

Section Default.
#[local] Existing Instance demo_default.

(** Concurrent increments are lost.  [INCR] reads the value and stores the new one in two
    sections: two clients that increment a missing key can both read 0, and both are told 1. *)
Theorem incr_loses_an_update :
  let incr := thread (handler_proc H_incr [bs "INCR"; bs "n"] [] 1000) in
  let r := proc_run (concat (replicate 4 [0; 1]%nat)) (new 2) [incr; incr] in
  map reply_of r.2 = [Some (write_integer [] 1); Some (write_integer [] 1)] ∧
  (get (bs "n") 1000 r.1).1 = Some (bs "1").
Proof. vm_compute. split; reflexivity. Qed.

(** [SET NX] does not exclude.  The test for the key and the insertion are two sections: two
    clients that take the same lock with [SET NX] can both be told [OK]. *)
Theorem set_nx_admits_both :
  let lock v := thread (handler_proc H_set [bs "SET"; bs "lock"; v; bs "NX"] [] 1000) in
  let r := proc_run (concat (replicate 4 [0; 1]%nat)) (new 2) [lock (bs "a"); lock (bs "b")] in
  map reply_of r.2 = [Some (write_simple_string [] (bs "OK")); Some (write_simple_string [] (bs "OK"))].
Proof. vm_compute. reflexivity. Qed.
End Default.
End Examples.
