(* ===== verification/Linear.v ===== *)
(** * Linearizability of the single-key commands ([src/main.rs], [src/store.rs])

    The threads of Procs.v as clients see them: calls come in, replies go out, and in
    between the sections of all calls under way run in any order.  A command on one key
    that does not first test it ([NX], [XX]) or read it ([GET], [INCR]) takes effect in one
    of its sections, exactly as its contract in ServerSpec.v says.  So every history of
    calls and replies is one of the machine that runs each call in a single step, between
    its arrival and its reply. *)

From S2P Require Import Prelude Decimal Protocol Config S3Fifo State Store Steps StoreOps StoreSpec Contents.
From S2P Require Import Memory Eviction Handlers HandlerSpec ServerSpec Procs ProcLogic Demo.

(** ** Calls *)

(** A command of a client with the connection's buffer and time, or a round of the expiry
    task with the time it has read. *)
Inductive Call :=
| ClientCall (h : Handler) (command : list bytes) (w : bytes) (now : Z)
| ExpiryRound (count now : Z).

Inductive Label :=
| Invoked (i : nat) (call : Call)
| Returned (i : nat) (reply : bytes).

Section Linear.
Context {P : Platform} {CFG : HasConfig}.

Definition call_time (call : Call) : Z :=
  match call with ClientCall _ _ _ now => now | ExpiryRound _ now => now end.

Definition call_proc (call : Call) : Proc :=
  match call with
  | ClientCall h command w now => thread (handler_proc h command w now)
  | ExpiryRound count now => thread (expire_rounds_proc count now;; mret [])
  end.

(** The commands that take effect at once. *)
Definition single (call : Call) : Prop :=
  match call with
  | ClientCall H_set (_ :: _ :: _ :: opts) _ _ =>
      match parse_set_opts opts (mkSetOpts None false false false) with
      | Ok o => so_nx o = false ∧ so_xx o = false ∧ so_get o = false
      | Err _ => True
      end
  | ClientCall (H_del | H_exists) command _ _ => length command = 2%nat
  | ClientCall (H_set | H_get | H_hget | H_hgetall | H_type | H_ttl | H_pttl | H_expire | H_persist) _ _ _ => True
  | ClientCall _ _ _ _ => False
  | ExpiryRound _ _ => True
  end.

(** Their contracts, those of ServerSpec.v. *)
Definition call_contract (call : Call) : CmdSpec :=
  match call with
  | ClientCall h command w now =>
      match h with
      | H_set => spec_set command w now
      | H_get => with_key command w WRONG_ARGS (λ key, does (λ db, (write_opt w (db_string now db key), db)))
      | H_del => spec_del command w now
      | H_exists => with_key command w WRONG_ARGS (λ _, does (λ db,
                      (write_integer w (zsum (db_count now db) (drop 1 command)), db)))
      | H_hget => spec_hget command w now
      | H_hgetall => spec_hgetall command w now
      | H_type => with_key command w WRONG_ARGS (λ key, does (λ db,
                    (write_simple_string w (bs (db_read now db key "none" type_reply)), db)))
      | H_ttl => spec_ttl command w now (λ expiry, i64 (u64 (expiry - now)))
      | H_pttl => spec_ttl command w now (λ expiry, Z.min (sat_u64 (sat_u64 (expiry - now) * 1000)) I64_MAX)
      | H_expire => spec_expire command w now
      | H_persist => spec_persist command w now
      | _ => λ _ _ _, False
      end
  | ExpiryRound _ _ => replies []
  end.

(** ** The two machines *)

Inductive Client := Running (call : Call) (p : Proc) | Gone.

(** The server: calls arrive, run a section, or reply. *)
Inductive conc_step : Core * list Client → option Label → Core * list Client → Prop :=
| conc_invoke c ts call :
    single call →
    conc_step (c, ts) (Some (Invoked (length ts) call)) (c, ts ++ [Running call (call_proc call)])
| conc_section c ts i call m :
    ts !! i = Some (Running call (Atomic m)) →
    conc_step (c, ts) None ((m c).2, <[i:=Running call (m c).1]> ts)
| conc_return c ts i call reply :
    ts !! i = Some (Running call (Done reply)) →
    conc_step (c, ts) (Some (Returned i reply)) (c, <[i:=Gone]> ts).

Inductive Atom := Waiting (call : Call) | Decided (call : Call) (reply : bytes) | Answered.

Definition pending (a : Atom) (call : Call) : Prop := a = Waiting call ∨ ∃ r, a = Decided call r.

(** A call under way may make a key disappear that has expired at its time, or, under a
    memory limit and a policy that evicts, any key. *)
Definition may_drop (now : Z) (db : Db) (k : bytes) : Prop :=
  ∃ v x, db !! k = Some (v, x) ∧
    (past now x = true ∨ max_memory (memory CONFIG) ≠ 0 ∧ EVICTION_POLICY ≠ NoEviction).

(** The specification: a database, and each call in one step. *)
Inductive atom_step : Db * list Atom → option Label → Db * list Atom → Prop :=
| atom_invoke db ts call :
    single call → atom_step (db, ts) (Some (Invoked (length ts) call)) (db, ts ++ [Waiting call])
| atom_effect db ts i call reply db' :
    ts !! i = Some (Waiting call) → call_contract call db reply db' →
    atom_step (db, ts) None (db', <[i:=Decided call reply]> ts)
| atom_drop db ts i a call k :
    ts !! i = Some a → pending a call → may_drop (call_time call) db k →
    atom_step (db, ts) None (base.delete k db, ts)
| atom_return db ts i call reply :
    ts !! i = Some (Decided call reply) →
    atom_step (db, ts) (Some (Returned i reply)) (db, <[i:=Answered]> ts).

(** ** A thread and the moment it takes effect *)

Section Effect.
Context (now : Z) (spec : CmdSpec).

(** The ghost value of a thread is its reply once it has taken effect. *)
Definition settled (reply : bytes) (g : option bytes) : Prop :=
  g = Some reply ∨ g = None ∧ ∀ db, spec db reply db.

Definition moves (g : option bytes) (c : Core) (g' : option bytes) (c' : Core) : Prop :=
  (g' = g ∧ contents c' = contents c) ∨
  (g' = g ∧ ∃ k, may_drop now (contents c) k ∧ contents c' = base.delete k (contents c)) ∨
  (g = None ∧ ∃ r, g' = Some r ∧ spec (contents c) r (contents c')).

Abbreviation ltp := (tp settled moves).
Abbreviation lholds := (holds settled moves).

Lemma moves_still k g c c' : core_wf c → Step k (lookup_entry c k) 0 c c' → moves g c g c'.
Proof. intros Hwf HS. left. split; [done|]. by eapply contents_still. Qed.

Lemma moves_effect r c c' : spec (contents c) r (contents c') → moves None c (Some r) c'.
Proof. intros Hr. right. right. eauto. Qed.

(** Counters are no part of the database. *)
Lemma lholds_counter g (m : M unit) :
  (∀ c, core_wf c → core_wf (m c).2 ∧ contents (m c).2 = contents c) → lholds g (section m).
Proof.
  intros Hm. apply tp_section. intros c Hwf. destruct (Hm c Hwf) as [Hwf' He]. split; [done|].
  exists g. split; [done|]. by left.
Qed.

Lemma wf_count n c : core_wf c → core_wf (set_memory (u64 n) c).
Proof. intros Hwf. apply wf_set_memory; [done|apply u64_range]. Qed.

Lemma lholds_sub g size : lholds g (sub_proc size).
Proof.
  unfold sub_proc. destruct tracks_memory; [|apply holds_ret]. apply lholds_counter. intros c Hwf.
  split; [by apply wf_count|done].
Qed.

Lemma lholds_add g size : lholds g (add_proc size).
Proof.
  unfold add_proc. destruct tracks_memory; [|apply holds_ret]. apply lholds_counter. intros c Hwf.
  split; [by apply wf_count|done].
Qed.

Lemma moves_dropped g key e c c' :
  core_wf c → lookup_entry c key = Some e →
  (past now (e_expiry e) = true ∨ max_memory (memory CONFIG) ≠ 0 ∧ EVICTION_POLICY ≠ NoEviction) →
  Step key None 0 c c' → moves g c g c'.
Proof.
  intros Hwf He Hm HS. right. left. split; [done|]. exists key. split; [|by eapply contents_delete].
  exists (e_value e), (e_expiry e). by rewrite contents_lookup, He.
Qed.

(** Dropping what satisfies [p], when such entries may be dropped. *)
Lemma lholds_drop_any g i key p :
  (∀ e, p e = true → past now (e_expiry e) = true ∨
                     max_memory (memory CONFIG) ≠ 0 ∧ EVICTION_POLICY ≠ NoEviction) →
  lholds g (section (shard_remove_if i key p)).
Proof.
  intros Hp. apply tp_section. intros c Hwf. apply wp_shard_remove_any; [done| |].
  - split; [done|]. exists g. split; [done|]. by left.
  - intros e c' He Hpe HS. split; [by eapply Step_wf|]. exists g. split; [done|].
    eapply moves_dropped; [done|exact He|by apply Hp|done].
Qed.

Lemma lholds_expire g key : lholds g (expire_proc key now).
Proof.
  apply holds_bind.
  - apply tp_step. intros c Hwf. eapply wp_mono; [by apply wp_remove_key|]. intros r c' (-> & HS).
    exists key. eexists. split; [exact HS|]. exists g. split; [done|].
    destruct (lookup_entry c key) as [e|] eqn:He; [destruct (expired now e) eqn:Hx|].
    + eapply moves_dropped; [done|exact He| |done]. left. by rewrite <- expired_past.
    + rewrite <- He in HS. by eapply moves_still.
    + rewrite <- He in HS. by eapply moves_still.
  - intros [e|]; [|apply holds_ret]. apply holds_bind; [apply lholds_sub|]. intros []. apply holds_ret.
Qed.

Lemma lholds_evict_at g i key :
  max_memory (memory CONFIG) ≠ 0 → EVICTION_POLICY ≠ NoEviction → lholds g (evict_at_proc i key).
Proof.
  intros Hm Hp. apply holds_bind; [by apply lholds_drop_any; auto|]. intros [e|]; [|apply holds_ret]. cbv zeta.
  apply holds_bind; [apply lholds_counter; intros c Hwf; split; [by apply wf_count|done]|]. intros [].
  apply holds_bind; [apply lholds_counter; intros c Hwf; split; [by destruct Hwf|done]|]. intros []. apply holds_ret.
Qed.

Lemma ltp_evict g n : ltp g (evict_proc n) (λ ok g', g' = g ∧ (ok = false → max_memory (memory CONFIG) ≠ 0)).
Proof. apply tp_evict; [exact moves_still|]. intros Hm Hp i key. by apply lholds_evict_at. Qed.

(** A write takes effect when it is inserted. *)
Lemma ltp_store key value ttl r :
  (∀ db, spec db r (<[key:=(EV_String value, (λ s, u64 (now + s)) <$> ttl)]> db)) →
  ltp None (store_proc key value ttl now) (λ _ g, g = Some r).
Proof.
  intros Hr. apply tp_bind, tp_set; [exact moves_still|]. intros t q c c' e Hwf HS. exists (Some r). split.
  - apply holds_then.
    + destruct (lookup_entry c key); [apply lholds_sub|apply holds_ret].
    + intros []. apply lholds_add.
  - apply moves_effect. rewrite (contents_insert _ _ _ _ _ Hwf HS). apply Hr.
Qed.

(** A read takes effect when it looks the key up. *)
Lemma ltp_guarded {A : Type} key (dead : A) live (f : A → bytes) :
  (∀ db, db_live now db key = None → spec db (f dead) db) →
  (∀ e c, core_wf c → lookup_entry c key = Some e → expired now e = false →
     wp (live (shard_of c key) e)
       (λ a c', ∃ e', Step key (Some e') 0 c c' ∧ spec (contents c) (f a) (contents c')) c) →
  ltp None (guarded key now dead live) (λ a g, g = Some (f a)).
Proof.
  intros Hdead Hlive. apply tp_guarded. intros c Hwf. pose proof (contents_live now c key Hwf) as Hl.
  destruct (unexpired now (lookup_entry c key)) as [e|] eqn:Hu.
  - destruct (lookup_entry c key) as [e0|] eqn:He; [|done]. cbn in Hu.
    destruct (expired now e0) eqn:Hx; [done|]. injection Hu as ->.
    eapply wp_mono; [by apply Hlive|]. intros a c' (e' & HS & Hs). exists key. eexists. split; [exact HS|].
    exists (Some (f a)). split; [done|]. by apply moves_effect.
  - exists (Some (f dead)). split_and!; [by apply moves_effect, Hdead|done|apply lholds_expire].
Qed.

Lemma ltp_read {A : Type} key (dead : A) val (f : A → bytes) :
  (∀ db, spec db (f (db_read now db key dead val)) db) →
  ltp None (guarded key now dead (read_live key val)) (λ a g, g = Some (f a)).
Proof.
  intros Hs. apply ltp_guarded.
  - intros db Hl. specialize (Hs db). unfold db_read in Hs. by rewrite Hl in Hs.
  - intros e c Hwf He Hx. eapply wp_mono; [by apply wp_read_live|]. intros a c' (-> & e' & Hd & HS).
    exists e'. split; [done|]. rewrite (contents_same _ _ _ _ _ _ Hwf He Hd HS).
    specialize (Hs (contents c)). unfold db_read in Hs. rewrite (contents_live now c key Hwf), He in Hs. cbn in Hs.
    by rewrite Hx in Hs.
Qed.

(** A reply made from a result that took effect. *)
Lemma ltp_reply {A : Type} (p : Prog A) (f : A → bytes) :
  ltp None p (λ a g, g = Some (f a)) → ltp None (a ← p; mret (f a)) settled.
Proof. intros Hp. apply tp_bind. eapply tp_mono; [exact Hp|]. intros a g ->. apply tp_ret. by left. Qed.

Lemma ltp_error r : (∀ db, spec db r db) → ltp None (mret r) settled.
Proof. intros Hr. apply tp_ret. by right. Qed.

(** One key deleted. *)
Lemma ltp_delete key (f : Z → bytes) :
  (∀ db, spec db (f (db_count now db key)) (base.delete key db)) →
  ltp None (delete_proc [key] now) (λ n g, g = Some (f n)).
Proof.
  intros Hs. unfold delete_proc, delete_one_proc. cbn [pfold]. apply tp_bind, holds_then.
  { case_bool_decide; [|apply holds_ret]. apply holds_still; [exact moves_still|apply still_dequeue_old]. }
  intros _. apply tp_bind, tp_step. intros c Hwf.
  eapply wp_mono; [apply (wp_remove_key key (λ _, true) c Hwf)|]. intros r c' (-> & HS).
  exists key. eexists. split; [exact HS|]. specialize (Hs (contents c)). unfold db_count in Hs.
  rewrite (contents_live now c key Hwf) in Hs.
  destruct (lookup_entry c key) as [e|] eqn:He; cbn in HS, Hs |- *.
  - exists (Some (f (if expired now e then 0 else 1))). split.
    + apply holds_then; [apply lholds_sub|]. intros []. apply tp_ret, tp_ret. by destruct (expired now e).
    + apply moves_effect. rewrite (contents_delete _ _ _ _ Hwf HS). by destruct (expired now e).
  - exists (Some (f 0)). split; [by apply tp_ret, tp_ret|]. apply moves_effect.
    by rewrite (contents_delete _ _ _ _ Hwf HS).
Qed.
End Effect.

(** ** Every single-key command takes effect once *)

Lemma ltp_set command w now :
  single (ClientCall H_set command w now) →
  tp (settled (spec_set command w now)) (moves now (spec_set command w now)) None
    (set_proc command w now) (settled (spec_set command w now)).
Proof.
  intros Hs. destruct command as [|? [|key [|value opts]]]; try by apply ltp_error.
  cbn [spec_set]. unfold set_proc. apply tp_bind. eapply tp_mono; [apply ltp_evict|].
  intros ok g [-> Hm]. destruct ok; cbn [negb].
  2:{ apply ltp_error. intros db. exists db. split_and!; [done..|]. left. by split_and!; auto. }
  unfold admits, set_act. cbn in Hs.
  destruct (parse_set_opts _ _) as [[ttl nx xx get]|e]; cbn in Hs |- *.
  2:{ apply ltp_error. intros db. exists db. split_and!; [done..|]. by right. }
  destruct Hs as (-> & -> & ->). cbn. apply (holds_then _ _ _ (mret None)); [apply holds_ret|]. intros old.
  cbn. apply tp_bind. eapply tp_mono; [apply ltp_store|].
  - intros db. exists db. split_and!; [done..|]. right. reflexivity.
  - intros [] g ->. apply tp_ret. by left.
Qed.

Lemma ltp_ttl command w now remaining :
  tp (settled (spec_ttl command w now remaining)) (moves now (spec_ttl command w now remaining)) None
    (ttl_proc command w now remaining) (settled (spec_ttl command w now remaining)).
Proof.
  destruct command as [|? [|key rest]]; try by apply ltp_error. cbn [ttl_proc]. apply ltp_reply, ltp_guarded.
  - intros db Hl. cbn. unfold does, db_ttl. by rewrite Hl.
  - intros e c Hwf He Hx. apply wp_ret. exists e. split; [rewrite <- He; by apply Step_refl|].
    cbn. unfold does, db_ttl. rewrite contents_live, He by done. cbn. rewrite Hx. cbn. by destruct (e_expiry e).
Qed.

Lemma ltp_expire_at command w now :
  tp (settled (spec_expire command w now)) (moves now (spec_expire command w now)) None
    (expire_at_proc command w now) (settled (spec_expire command w now)).
Proof.
  destruct command as [|? [|key [|n rest]]]; try by apply ltp_error. cbn [expire_at_proc spec_expire].
  destruct (parse_i64 n) as [v|]; [|by apply ltp_error]. apply ltp_reply. unfold db_expire.
  destruct (0 <? v); [|by apply ltp_delete]. apply ltp_guarded.
  - intros db Hl. unfold does. by rewrite Hl.
  - intros e c Hwf He Hx. apply wp_bind. eapply wp_mono; [by apply wp_alter_key|]. intros [] c' HS. apply wp_ret.
    eexists. split; [exact HS|]. unfold does. rewrite contents_live, He by done. cbn. rewrite Hx. cbn.
    by rewrite (contents_insert _ _ _ _ _ Hwf HS).
Qed.

Lemma ltp_persist command w now :
  tp (settled (spec_persist command w now)) (moves now (spec_persist command w now)) None
    (persist_proc command w now) (settled (spec_persist command w now)).
Proof.
  destruct command as [|? [|key rest]]; try by apply ltp_error. cbn [persist_proc]. apply ltp_reply, ltp_guarded.
  - intros db Hl. cbn. unfold does, db_persist. by rewrite Hl.
  - intros e c Hwf He Hx. cbn. unfold does, db_persist. rewrite contents_live, He by done. cbn. rewrite Hx. cbn.
    destruct (e_expiry e) eqn:Ee.
    + apply wp_bind. eapply wp_mono; [by apply wp_alter_key|]. intros [] c' HS. apply wp_ret.
      eexists. split; [exact HS|]. by rewrite (contents_insert _ _ _ _ _ Hwf HS).
    + apply wp_ret. exists e. split; [rewrite <- He; by apply Step_refl|done].
Qed.

Lemma ltp_exists name key w now :
  let spec := call_contract (ClientCall H_exists [name; key] w now) in
  tp (settled spec) (moves now spec) None (exists_proc [name; key] w now) (settled spec).
Proof.
  cbn [exists_proc pfold drop]. apply ltp_reply. apply tp_bind, tp_step. intros c Hwf.
  eapply wp_mono; [apply wp_exists_one|]. intros r c' (-> & ->). exists key, (lookup_entry c key).
  split; [by apply Step_refl|]. eexists. split; [by apply tp_ret|]. apply moves_effect. cbn. unfold does, zsum, db_count.
  cbn. rewrite contents_live by done. by destruct (unexpired now (lookup_entry c key)).
Qed.

Lemma call_safe call :
  single call →
  safe (settled (call_contract call)) (moves (call_time call) (call_contract call)) (call_proc call) None.
Proof.
  intros Hs. destruct call as [h command w now|count now]; apply tp_thread.
  2:{ apply holds_then; [|intros n; by apply ltp_error]. apply holds_expire_rounds; [by apply moves_still|].
      intros i key n. apply holds_bind.
      - apply lholds_drop_any. intros e He. left. by rewrite <- expired_past.
      - intros [e|]; [|apply holds_ret]. apply holds_bind; [apply lholds_sub|]. intros []. apply holds_ret. }
  destruct h; try done; cbn [handler_proc call_contract call_time].
  - by apply ltp_set.
  - destruct command as [|? [|key []]]; try done. apply ltp_reply, ltp_delete.
    intros db. unfold spec_del. cbn. unfold does. cbn. f_equal.
  - destruct command as [|? [|key []]]; try done. apply ltp_exists.
  - destruct command as [|? [|key rest]]; try by apply ltp_error. by apply ltp_reply, ltp_read.
  - destruct command as [|? [|key [|field rest]]]; try by apply ltp_error. by apply ltp_reply, ltp_read.
  - destruct command as [|? [|key rest]]; try by apply ltp_error. by apply ltp_reply, ltp_read.
  - destruct command as [|? [|key rest]]; try by apply ltp_error. apply ltp_reply, ltp_guarded.
    + intros db Hl. cbn. unfold does, db_read. by rewrite Hl.
    + intros e c Hwf He Hx. apply wp_ret. exists e. split; [rewrite <- He; by apply Step_refl|].
      cbn. unfold does, db_read. rewrite contents_live, He by done. cbn. by rewrite Hx.
  - apply ltp_ttl.
  - apply ltp_ttl.
  - apply ltp_expire_at.
  - apply ltp_persist.
Qed.

(** ** The simulation *)

(** A call on the server and the same call on the specification. *)
Inductive related : Client → Atom → Prop :=
| related_running call p g :
    safe (settled (call_contract call)) (moves (call_time call) (call_contract call)) p g →
    related (Running call p) (match g with Some r => Decided call r | None => Waiting call end)
| related_gone : related Gone Answered.

Definition linked (x : Core * list Client) (y : Db * list Atom) : Prop :=
  core_wf x.1 ∧ y.1 = contents x.1 ∧ Forall2 related x.2 y.2.

Lemma linked_step x a x' y :
  linked x y → conc_step x a x' → ∃ y', trace atom_step y (option_list a) y' ∧ linked x' y'.
Proof.
  intros (Hwf & Hdb & Hts) Hst. destruct y as [db as_]. cbn [fst snd] in *. subst db.
  destruct Hst as [c ts call Hs|c ts i call m Hi|c ts i call r Hi]; cbn [fst snd] in *.
  - rewrite (Forall2_length _ _ _ Hts). eexists. split.
    { eapply trace_label; [by apply atom_invoke|apply trace_nil]. }
    split_and!; [done..|]. apply Forall2_app; [done|]. constructor; [|done].
    apply (related_running call _ None). by apply call_safe.
  - destruct (Forall2_lookup_l _ _ _ _ _ Hts Hi) as (b & Hb & Hrel).
    inversion Hrel as [? ? g Hsafe|]; subst. inversion Hsafe as [|? ? Hm]; subst.
    destruct (Hm c Hwf) as (Hwf' & g' & Hsafe' & Hmv).
    assert (∀ g1, related (Running call (m c).1)
              (match g1 with Some r => Decided call r | None => Waiting call end) →
              g1 = g → Forall2 related (<[i:=Running call (m c).1]> ts) as_) as Hsame.
    { intros g1 H1 ->. rewrite <- (list_insert_id _ _ _ Hb). by apply Forall2_insert. }
    pose proof (related_running _ _ _ Hsafe') as Hrel'.
    destruct Hmv as [[-> He]|[(-> & k & Hk & He)|(-> & r & -> & Hr)]].
    + exists (contents c, as_). split; [apply trace_nil|]. split_and!; [done..|by eapply Hsame].
    + eexists. split.
      { eapply trace_silent; [|apply trace_nil].
        apply (atom_drop _ _ i _ call k Hb); [destruct g; [right; eauto|by left]|done]. }
      split_and!; [done..|by eapply Hsame].
    + eexists. split; [eapply trace_silent; [by eapply atom_effect|apply trace_nil]|].
      split_and!; [done..|]. by apply Forall2_insert.
  - destruct (Forall2_lookup_l _ _ _ _ _ Hts Hi) as (b & Hb & Hrel).
    inversion Hrel as [? ? g Hsafe|]; subst. inversion Hsafe as [? ? Hf|]; subst.
    destruct Hf as [->|[-> Hr]].
    + eexists. split; [eapply trace_label; [by eapply atom_return|apply trace_nil]|].
      split_and!; [done..|]. apply Forall2_insert; [done|constructor].
    + eexists. split.
      { eapply trace_silent; [by eapply atom_effect|]. eapply trace_label; [|apply trace_nil].
        eapply atom_return. apply list_lookup_insert_eq. by eapply lookup_lt_Some. }
      split_and!; [done..|]. cbn [snd]. rewrite list_insert_insert_eq.
      apply Forall2_insert; [done|constructor].
Qed.

(** C4: single-key commands are linearizable.  Let clients call [SET] (without [NX], [XX] and
    [GET]), [GET], [DEL], [EXISTS], [TYPE], [TTL], [PTTL], [EXPIRE], [PERSIST], [HGET] and
    [HGETALL] on one key each, beside rounds of the expiry task, and let the sections of all calls under way run in any order.
    The history of calls and replies is then one of the database on which every call takes
    effect in one step between its arrival and its reply, as its contract says; keys disappear
    in between only if they have expired for a call under way or by eviction; and the store
    holds that database. *)
Theorem commands_linearizable c history c' ts :
  core_wf c → trace conc_step (c, []) history (c', ts) →
  ∃ as_, trace atom_step (contents c, []) history (contents c', as_).
Proof.
  intros Hwf Htr. assert (linked (c, []) (contents c, [])) as Hl by by split_and!.
  destruct (trace_simulation conc_step atom_step linked linked_step _ _ _ Htr _ Hl) as ([db as_] & Ht & _ & Hdb & _).
  cbn in Hdb. subst db. by exists as_.
Qed.

(** ** A scheduler *)

Inductive Action := ACall (call : Call) | ASection (i : nat) | AReturn (i : nat).

Fixpoint conc_exec (acts : list Action) (x : Core * list Client) : list Label * (Core * list Client) :=
  match acts with
  | [] => ([], x)
  | ACall call :: acts =>
      let r := conc_exec acts (x.1, x.2 ++ [Running call (call_proc call)]) in
      (Invoked (length x.2) call :: r.1, r.2)
  | ASection i :: acts =>
      match x.2 !! i with
      | Some (Running call (Atomic m)) => conc_exec acts ((m x.1).2, <[i:=Running call (m x.1).1]> x.2)
      | _ => conc_exec acts x
      end
  | AReturn i :: acts =>
      match x.2 !! i with
      | Some (Running call (Done reply)) =>
          let r := conc_exec acts (x.1, <[i:=Gone]> x.2) in (Returned i reply :: r.1, r.2)
      | _ => conc_exec acts x
      end
  end.

Lemma conc_exec_trace acts x :
  Forall (λ a, match a with ACall call => single call | _ => True end) acts →
  trace conc_step x (conc_exec acts x).1 (conc_exec acts x).2.
Proof.
  intros Ha. revert x. induction Ha as [|a acts Ha Hacts IH]; intros [c ts]; [apply trace_nil|].
  destruct a as [call|i|i]; cbn [conc_exec fst snd].
  - eapply trace_label; [by apply conc_invoke|apply IH].
  - destruct (ts !! i) as [[call [r|m]|]|] eqn:Hi; [apply IH| |apply IH..].
    eapply trace_silent; [by apply conc_section|apply IH].
  - destruct (ts !! i) as [[call [r|m]|]|] eqn:Hi; [|apply IH..].
    eapply trace_label; [by eapply conc_return|apply IH].
Qed.
End Linear.

Section Example.
#[local] Existing Instance demo_platform.
#[local] Existing Instance demo_default.

(** A [GET] that begins before a [SET] has inserted its value and replies after another
    [GET] has seen it. *)
Definition demo_set : Call := ClientCall H_set [bs "SET"; bs "k"; bs "v"] [] 1000.
Definition demo_get : Call := ClientCall H_get [bs "GET"; bs "k"] [] 1000.
Definition overlapping : list Action :=
  [ACall demo_set; ACall demo_get; ASection 0; ASection 1; ASection 0; ACall demo_get; ASection 2;
   AReturn 2; AReturn 0; AReturn 1].

Lemma commands_linearizable_witness :
  ∃ as_, trace atom_step (contents (new 2), [])
    [Invoked 0 demo_set; Invoked 1 demo_get; Invoked 2 demo_get;
     Returned 2 (write_bulk_string [] (bs "v")); Returned 0 (write_simple_string [] (bs "OK"));
     Returned 1 (write_null [])]
    (contents (conc_exec overlapping (new 2, [])).2.1, as_).
Proof.
  apply (commands_linearizable (new 2) _ _ (conc_exec overlapping (new 2, [])).2.2).
  - by apply new_wf.
  - rewrite <- surjective_pairing.
    assert (Forall (λ a, match a with ACall call => single call | _ => True end) overlapping) as Ha.
    { repeat (apply List.Forall_cons; [vm_compute; auto|]). apply List.Forall_nil. }
    exact (conc_exec_trace overlapping (new 2, []) Ha).
Defined.
End Example.
