(* ===== verification/Hashes.v ===== *)
(** * [HSET] and [HDEL] beside other commands ([src/store.rs])

    A hash is an [Arc<RwLock<HashMap>>]: a thread that has cloned the [Arc] writes to the
    map even when the key has since been removed.  Here the store of State.v is extended
    with the identity of the map each key refers to and with the maps no key refers to any
    more, [hset] and [hdel] are state machines whose steps are the sections the code makes
    indivisible, and they run beside the threads of Procs.v. *)

From S2P Require Import Prelude Decimal Protocol Config S3Fifo State Store Steps StoreOps StoreSpec.
From S2P Require Import Memory Eviction Handlers HandlerSpec Procs ProcLogic Races Sweeps Demo.

(** ** Sections never make a hash *)

Section Tame.
Context {P : Platform} {CFG : HasConfig}.

Definition entry_hash (e : Entry) : option (gmap bytes bytes) :=
  match e_value e with EV_Hash h => Some h | EV_String _ => None end.

(** The hash stored under a key. *)
Definition hash_at (c : Core) (key : bytes) : option (gmap bytes bytes) :=
  lookup_entry c key ≫= entry_hash.
#[global] Arguments hash_at : simpl never.

(** What a section of a command may do to hashes: remove them. *)
Definition tame (c c' : Core) : Prop :=
  num_shards c' = num_shards c ∧ ∀ key h, hash_at c' key = Some h → hash_at c key = Some h.

Lemma tame_step k o d c c' :
  core_wf c → Step k o d c c' → (∀ h, o ≫= entry_hash = Some h → hash_at c k = Some h) → tame c c'.
Proof.
  intros Hwf HS Ho. split; [apply HS|]. intros key h. unfold hash_at at 1.
  destruct (decide (key = k)) as [->|Hne].
  - rewrite (Step_lookup _ _ _ _ _ Hwf HS). apply Ho.
  - by rewrite (Step_lookup_ne _ _ _ _ _ _ Hwf HS Hne).
Qed.

Lemma tame_still k c c' : core_wf c → Step k (lookup_entry c k) 0 c c' → tame c c'.
Proof. intros Hwf HS. by eapply tame_step. Qed.

Lemma tame_removed k c c' : core_wf c → Step k None 0 c c' → tame c c'.
Proof. intros Hwf HS. by eapply tame_step. Qed.

Definition anyhow (reply : bytes) (_ : unit) : Prop := True.
Definition tames (_ : unit) (c : Core) (_ : unit) (c' : Core) : Prop := tame c c'.
Abbreviation harmless := (holds anyhow tames tt).

Lemma tames_still k g c c' : core_wf c → Step k (lookup_entry c k) 0 c c' → tames g c g c'.
Proof. apply tame_still. Qed.

(** The counters. *)
Lemma harmless_memory n : harmless (section (modify (λ c, set_memory (u64 (MEMORY_USED c + n)) c))).
Proof.
  apply tp_section. intros c Hwf. apply wp_modify. split; [|by exists tt].
  destruct Hwf. split; try done. apply u64_range.
Qed.

Lemma harmless_sub size : harmless (sub_proc size).
Proof. unfold sub_proc. destruct tracks_memory; [exact (harmless_memory (- size))|apply holds_ret]. Qed.
Lemma harmless_add size : harmless (add_proc size).
Proof. unfold add_proc. destruct tracks_memory; [exact (harmless_memory size)|apply holds_ret]. Qed.

(** Removing an entry, by its key or in a shard. *)
Lemma harmless_remove key p : harmless (section (i ← hash key; shard_remove_if i key p)).
Proof.
  apply tp_step. intros c Hwf. eapply wp_mono; [by apply wp_remove_key|]. intros r c' (-> & HS).
  exists key. eexists. split; [exact HS|]. exists tt. split; [done|]. eapply tame_step; [done|exact HS|].
  unfold hash_at. destruct (lookup_entry c key) as [e|]; [destruct (p e)|]; done.
Qed.

Lemma harmless_remove_any i key p : harmless (section (shard_remove_if i key p)).
Proof.
  apply tp_section. intros c Hwf. apply wp_shard_remove_any; [done| |].
  - split; [done|]. exists tt. split; [done|]. by apply (tame_still key), Step_refl.
  - intros e c' He _ HS. split; [by eapply Step_wf|]. exists tt. split; [done|]. by eapply tame_removed.
Qed.

Lemma harmless_look {A : Type} (m : M A) : quiet m → harmless (section m).
Proof. apply holds_look. exact tames_still. Qed.

Create HintDb harmless.
#[local] Hint Resolve holds_ret harmless_sub harmless_add harmless_remove harmless_remove_any
  harmless_look : harmless.

Ltac harmless :=
  repeat lazymatch goal with
    | |- holds _ _ _ (mbind _ _) => apply holds_bind; [|intros ?]
    | |- holds _ _ _ (if ?b then _ else _) => destruct b
    | |- holds _ _ _ (match ?x with _ => _ end) => destruct x
    | |- _ => progress (cbv zeta)
    end; auto with harmless.

Lemma harmless_expire key now : harmless (expire_proc key now).
Proof. unfold expire_proc. harmless. Qed.

Lemma harmless_evict_at i key : harmless (evict_at_proc i key).
Proof.
  unfold evict_at_proc. apply holds_bind; [exact (harmless_remove_any i key (λ _, true))|].
  intros [e|]; [|apply holds_ret]. cbv zeta. apply holds_bind; [exact (harmless_memory (- _))|].
  intros []. apply holds_bind; [apply harmless_look, quiet_evicted|]. intros []. apply holds_ret.
Qed.

Lemma harmless_store key value ttl now : harmless (store_proc key value ttl now).
Proof.
  unfold store_proc. apply holds_bind; [|intros old; harmless]. apply tp_set; [exact tames_still|].
  intros t q c c' e Hwf HS. exists tt. split; [done|]. by eapply tame_step.
Qed.

Lemma harmless_delete now n key : harmless (delete_one_proc now n key).
Proof.
  unfold delete_one_proc. apply holds_bind.
  { case_bool_decide; [|apply holds_ret]. apply holds_still; [exact tames_still|apply still_dequeue_old]. }
  intros _. apply holds_bind; [exact (harmless_remove key (λ _, true))|]. intros r. harmless.
Qed.

(** Every section of the commands of Sweeps.v. *)
Section Commands.
Context {D : Parts}.

Lemma harmless_clear i b : harmless (section (clear_part i b)).
Proof.
  apply tp_section. intros c Hwf. apply wp_modify. set (m := filter _ (shard_at c i)).
  assert (∀ j m' k e, shards (put_shard i m c) !! j = Some m' → m' !! k = Some e →
            ∃ m0, shards c !! j = Some m0 ∧ m0 !! k = Some e) as Hsub.
  { intros j m' k e. cbn. rewrite list_lookup_insert_Some. intros [(-> & <- & Hi)|[_ Hj]]; [|eauto].
    intros [Hk _]%map_lookup_filter_Some. destruct (lookup_lt_is_Some_2 _ _ Hi) as [m0 Hm0]. exists m0.
    unfold shard_at in Hk. by rewrite Hm0 in Hk. }
  assert (core_wf (put_shard i m c)) as Hwf'.
  { destruct Hwf as [? Hl ? Hp ? ?]. constructor; try done.
    - cbn. by rewrite length_insert.
    - intros j m' k Hj [e He]. destruct (Hsub _ _ _ _ Hj He) as (m0 & Hj0 & He0). apply (Hp j m0); eauto. }
  split; [done|]. exists tt. split; [done|]. split; [done|]. intros key h. unfold hash_at.
  destruct (lookup_entry (put_shard i m c) key) as [e|] eqn:He; [|done].
  apply lookup_entry_shard in He as (m' & Hj & Hm'). destruct (Hsub _ _ _ _ Hj Hm') as (m0 & Hj0 & He0).
  by rewrite (lookup_entry_placed c _ _ _ _ Hwf Hj0 He0).
Qed.

Lemma live_nonneg now : tp anyhow tames tt (live_prog now) (λ n g, 0 ≤ n ∧ g = tt).
Proof.
  unfold live_prog, each_shard. apply holds_then; [by apply harmless_look|]. intros n.
  apply (tp_pfold _ _ (λ n, 0 ≤ n)); [done|]. intros acc i Hacc.
  apply holds_then; [apply holds_iter, tames_still|].
  intros es. apply tp_ret. split; [|done]. revert acc Hacc. induction (filter _ es) as [|kv l IH]; intros acc Hacc; [done|].
  apply IH. apply u64_range.
Qed.

Lemma harmless_flush w : harmless (flush_proc w).
Proof.
  unfold flush_proc. apply holds_bind; [apply harmless_look, quiet_get_timestamp|]. intros now.
  apply tp_bind. eapply tp_mono; [apply live_nonneg|]. intros n g [Hn ->]. apply holds_bind.
  { apply holds_each; [exact tames_still|]. intros [] i. apply holds_pfold. intros [] b. apply harmless_clear. }
  intros []. apply holds_bind; [|intros []; apply holds_ret].
  apply tp_section. intros c Hwf. apply wp_modify. split; [|by exists tt].
  destruct Hwf as [? ? ? ? ? [? ?]]. constructor; try done. cbn. unfold is_u64.
  destruct (_ <=? _) eqn:?; unfold U64_MOD in *; lia.
Qed.

Lemma harmless_sweep w s : harmless (sweep_proc w s).
Proof. destruct s; [by apply holds_walk; [exact tames_still|]..|apply harmless_flush]. Qed.

Lemma harmless_thread (p : Prog bytes) : harmless p → safe anyhow tames (thread p) tt.
Proof. intros Hp. apply tp_thread. by eapply tp_mono; [apply Hp|]. Qed.

Lemma sweep_tame w s : safe anyhow tames (thread (sweep_proc w s)) tt.
Proof. apply harmless_thread, harmless_sweep. Qed.

(** Every section of every command, and of the expiry task, is tame. *)
Lemma command_tame p : command_proc p → safe anyhow tames p tt.
Proof.
  intros [h command w now|w s _|count]; [|apply sweep_tame|]; apply harmless_thread.
  - apply holds_handler; auto using harmless_expire, harmless_evict_at, harmless_store, harmless_delete.
    + exact tames_still.
    + intros key e e' c c' Hwf He Hv HS. eapply tame_step; [done|exact HS|].
      cbn. unfold hash_at, entry_hash. rewrite He. cbn. by rewrite Hv.
  - apply holds_bind; [|intros n; apply holds_ret]. apply holds_bind; [apply harmless_look, quiet_get_timestamp|].
    intros now. apply holds_expire_rounds; [exact tames_still|]. intros i key n. harmless.
Qed.
End Commands.
End Tame.

(** ** The store with the identity of its hashes *)

(** The map of a hash is identified by its key and a number that is never used again:
    [ids] has the number of the map a key refers to, whose fields are those of the entry,
    and [orphans] the maps that only threads refer to. *)
Record HCore := mkHCore {
  store : Core;
  ids : gmap bytes nat;
  orphans : gmap (bytes * nat) (gmap bytes bytes);
  next_id : nat
}.

#[global] Instance EntryValue_eq_dec : EqDecision EntryValue.
Proof. solve_decision. Defined.

Section Hashes.
Context {P : Platform} {CFG : HasConfig}.

(** Read and write a map through its [Arc]. *)
Definition map_at (key : bytes) (loc : nat) (s : HCore) : gmap bytes bytes :=
  if decide (ids s !! key = Some loc) then default ∅ (hash_at (store s) key)
  else default ∅ (orphans s !! (key, loc)).

Definition write_map (key : bytes) (loc : nat) (h : gmap bytes bytes) (s : HCore) : HCore :=
  if decide (ids s !! key = Some loc) then
    mkHCore (shard_alter (shard_of (store s) key) key (with_value (EV_Hash h)) (store s)).2
      (ids s) (orphans s) (next_id s)
  else mkHCore (store s) (ids s) (<[(key, loc):=h]> (orphans s)) (next_id s).

(** [calculate_entry_size], under the read lock of the map. *)
Definition size_at (key : bytes) (loc : nat) (s : HCore) : Z :=
  calculate_entry_size (len key) (EV_Hash (map_at key loc s)).

(** The map a hash key refers to. *)
Definition loc_of (key : bytes) (s : HCore) : nat := default 0%nat (ids s !! key).

(** The maps whose key is a hash in [c] and no longer in [c']. *)
Definition lost_map (c c' : Core) (kl : bytes * nat) : list ((bytes * nat) * gmap bytes bytes) :=
  match hash_at c kl.1, hash_at c' kl.1 with Some h, None => [(kl, h)] | _, _ => [] end.
Definition lost (c c' : Core) (ids : gmap bytes nat) : gmap (bytes * nat) (gmap bytes bytes) :=
  list_to_map (map_to_list ids ≫= lost_map c c').

(** A section on the store that makes no hash. *)
Definition plain {A : Type} (m : M A) (s : HCore) : A * HCore :=
  let r := m (store s) in
  (r.1, mkHCore r.2 (filter (λ kl, is_Some (hash_at r.2 kl.1)) (ids s))
          (lost (store s) r.2 (ids s) ∪ orphans s) (next_id s)).

(** ** [hset] and [hdel], a section at a time *)

Inductive HashOp :=
| HsetStart (key : bytes) (fields : list (bytes * bytes)) (now : Z)
| HsetLoop (key : bytes) (fields : list (bytes * bytes)) (now timestamp : Z)        (* before shard.entry *)
| HsetExpired (key : bytes) (fields : list (bytes * bytes)) (now timestamp size : Z) (* after occ.remove *)
| HsetHas (key : bytes) (loc : nat) (fields : list (bytes * bytes)) (old_size : option Z)
| HsetInserted (key : bytes) (loc : nat) (fields : list (bytes * bytes)) (old_size : option Z) (new_count : Z)
| HsetMeasured (key : bytes) (loc : nat) (fields : list (bytes * bytes)) (old_size : option Z)
    (new_size new_count : Z)
| HsetDone (key : bytes) (loc : nat) (fields : list (bytes * bytes)) (new_count : Z)
| HdelStart (key : bytes) (fields : list bytes) (now : Z)
| HdelExpired (key : bytes) (now : Z)                                       (* before remove_if *)
| HdelSized (key : bytes) (loc : nat) (fields : list bytes) (old_size : Z)  (* holds the entry *)
| HdelShrunk (key : bytes) (loc : nat) (old_size removed : Z)               (* holds the entry *)
| HdelEmptied (key : bytes) (old_size removed : Z)                          (* before remove_if *)
| HdelGone (key : bytes) (loc : nat) (removed : Z)                          (* after remove_if *)
| HdelAccount (size removed : Z)                                            (* before fetch_sub *)
| HdelDone (removed : Z)
| HashError (e : bytes).

(** The part of the [loop] of [hset] under the lock of [shard.entry(key)]. *)
Definition hset_loop (key : bytes) (fields : list (bytes * bytes)) (now timestamp : Z) (s : HCore)
    : HashOp * HCore :=
  match lookup_entry (store s) key with
  | Some e =>
      if expired now e then
        (HsetExpired key fields now timestamp (calculate_entry_size (len key) (e_value e)),
         (plain (i ← hash key;
                 (if bool_decide (EVICTION_POLICY = AllKeysS3Fifo) then dequeue i key e else mret tt);;
                 shard_remove i key) s).2)
      else
        match e_value e with
        | EV_Hash _ =>
            (HsetHas key (loc_of key s) fields (Some (calculate_entry_size (len key) (e_value e))), s)
        | EV_String _ => (HashError WRONGTYPE, s)
        end
  | None =>
      (HsetHas key (next_id s) fields None,
       mkHCore ((i ← hash key; hset_vacant i key timestamp) (store s)).2
         (<[key:=next_id s]> (ids s)) (orphans s) (S (next_id s)))
  end.

(** The fields are set under the write lock of the map. *)
Definition hset_insert (key : bytes) (loc : nat) (fields : list (bytes * bytes)) (old_size : option Z)
    (s : HCore) : HashOp * HCore :=
  let '(h, new_count) := insert_fields fields (map_at key loc s) 0 in
  (HsetInserted key loc fields old_size new_count, write_map key loc h s).

Definition hset_account (old_size : option Z) (new_size : Z) : M unit :=
  match old_size with
  | Some old_sz => if old_sz <=? new_size then track_add (new_size - old_sz) else track_sub (old_sz - new_size)
  | None => track_add new_size
  end.

(** [shard.get(key)], and the size of the map under the reference. *)
Definition hdel_start (key : bytes) (fields : list bytes) (now : Z) (s : HCore) : HashOp :=
  match lookup_entry (store s) key with
  | Some e =>
      if expired now e then HdelExpired key now
      else
        match e_value e with
        | EV_Hash _ => HdelSized key (loc_of key s) fields (calculate_entry_size (len key) (e_value e))
        | EV_String _ => HashError WRONGTYPE
        end
  | None => HdelDone 0
  end.

(** A removed hash is measured through the [Arc] it held, after the removal. *)
Definition hdel_expired (key : bytes) (now : Z) (s : HCore) : HashOp * HCore :=
  let r := plain (i ← hash key; shard_remove_if i key (expired now)) s in
  (match r.1 with
   | Some e =>
       match e_value e with
       | EV_Hash _ => HdelGone key (loc_of key s) 0
       | EV_String _ => HdelAccount (calculate_entry_size (len key) (e_value e)) 0
       end
   | None => HdelDone 0
   end, r.2).

Definition hdel_fields (key : bytes) (loc : nat) (fields : list bytes) (old_size : Z) (s : HCore)
    : HashOp * HCore :=
  let '(h, removed) := remove_fields fields (map_at key loc s) 0 in
  (if 0 <? removed then
     if bool_decide (h = ∅) then HdelEmptied key old_size removed else HdelShrunk key loc old_size removed
   else HdelDone removed,
   write_map key loc h s).

(** [remove_if] the map is still empty. *)
Definition hdel_remove (key : bytes) (old_size removed : Z) (s : HCore) : HashOp * HCore :=
  let r := plain (i ← hash key; shard_remove_if i key is_empty_hash) s in
  (match r.1 with
   | Some _ => HdelGone key (loc_of key s) removed
   | None =>
       let empty_overhead := usize (len key + 64 + 128) in
       if empty_overhead <? old_size then HdelAccount (old_size - empty_overhead) removed
       else HdelDone removed
   end, r.2).

Definition hdel_shrunk (key : bytes) (loc : nat) (old_size removed : Z) (s : HCore) : HashOp :=
  let new_size := size_at key loc s in
  if new_size <? old_size then HdelAccount (old_size - new_size) removed else HdelDone removed.

Definition hash_step (t : HashOp) (s : HCore) : HashOp * HCore :=
  match t with
  | HsetStart key fields now => let r := plain insert_timestamp s in (HsetLoop key fields now r.1, r.2)
  | HsetLoop key fields now timestamp => hset_loop key fields now timestamp s
  | HsetExpired key fields now timestamp size =>
      (HsetLoop key fields now timestamp, (plain (track_sub size) s).2)
  | HsetHas key loc fields old_size => hset_insert key loc fields old_size s
  | HsetInserted key loc fields old_size n => (HsetMeasured key loc fields old_size (size_at key loc s) n, s)
  | HsetMeasured key loc fields old_size new_size n =>
      (HsetDone key loc fields n, (plain (hset_account old_size new_size) s).2)
  | HdelStart key fields now => (hdel_start key fields now s, s)
  | HdelExpired key now => hdel_expired key now s
  | HdelSized key loc fields old_size => hdel_fields key loc fields old_size s
  | HdelShrunk key loc old_size removed => (hdel_shrunk key loc old_size removed s, s)
  | HdelEmptied key old_size removed => hdel_remove key old_size removed s
  | HdelGone key loc removed => (HdelAccount (size_at key loc s) removed, s)
  | HdelAccount size removed => (HdelDone removed, (plain (track_sub size) s).2)
  | HsetDone _ _ _ _ | HdelDone _ | HashError _ => (t, s)
  end.

(** ** Threads *)

Inductive HThread :=
| Plain (p : Proc)
| Hashing (w : bytes) (t : HashOp).

(** [handle_hset] and [handle_hdel]. *)
Definition hset_thread (command : list bytes) (w : bytes) (now : Z) : HThread :=
  if (len command <? 4) || negb ((len command - 2) mod 2 =? 0) then
    Plain (Done (write_error w (bs "wrong number of arguments for 'hset' command")))
  else Hashing w (HsetStart (nth 1 command []) (pairs_of (drop 2 command)) now).

Definition hdel_thread (command : list bytes) (w : bytes) (now : Z) : HThread :=
  match command with
  | _ :: key :: field :: fields => Hashing w (HdelStart key (field :: fields) now)
  | _ => Plain (Done (write_error w (bs "wrong number of arguments for 'hdel' command")))
  end.

Definition hash_result (t : HashOp) : option (Result Z bytes) :=
  match t with
  | HsetDone _ _ _ n | HdelDone n => Some (Ok n)
  | HashError e => Some (Err e)
  | _ => None
  end.

Definition thread_reply (t : HThread) : option bytes :=
  match t with
  | Plain p => reply_of p
  | Hashing w t =>
      (λ r, match r with Ok count => write_integer w count | Err e => write_error w e end) <$> hash_result t
  end.

(** The entry a thread holds a reference to, and the one it needs exclusively next. *)
Definition keeps (t : HThread) : option bytes :=
  match t with Hashing _ (HdelSized key _ _ _ | HdelShrunk key _ _ _) => Some key | _ => None end.
Definition wants (t : HashOp) : option bytes :=
  match t with HsetLoop key _ _ _ | HdelExpired key _ | HdelEmptied key _ _ => Some key | _ => None end.

(** What a section under a shared reference cannot change. *)
Definition datum (c : Core) (key : bytes) : option (EntryValue * option Z) :=
  (λ e, (e_value e, e_expiry e)) <$> lookup_entry c key.

Definition thread_step (t : HThread) (s : HCore) : HThread * HCore :=
  match t with
  | Plain (Done _) => (t, s)
  | Plain (Atomic m) => let r := plain m s in (Plain r.1, r.2)
  | Hashing w t => let r := hash_step t s in (Hashing w r.1, r.2)
  end.

(** A thread waits for the references of the others. *)
Definition blocked (ts : list HThread) (t : HThread) (s : HCore) : bool :=
  existsb (λ u, match keeps u with
                | Some key =>
                    match t with
                    | Plain _ => bool_decide (datum (store (thread_step t s).2) key ≠ datum (store s) key)
                    | Hashing _ t => bool_decide (wants t = Some key)
                    end
                | None => false
                end) ts.

Inductive hstep : HCore * list HThread → HCore * list HThread → Prop :=
| hstep_at s ts i t :
    ts !! i = Some t → blocked ts t s = false →
    hstep (s, ts) ((thread_step t s).2, <[i:=(thread_step t s).1]> ts).

(** The scheduler runs one section of the given threads, in order. *)
Fixpoint hash_run (schedule : list nat) (s : HCore) (ts : list HThread) : HCore * list HThread :=
  match schedule with
  | [] => (s, ts)
  | i :: schedule =>
      match ts !! i with
      | Some t =>
          if blocked ts t s then hash_run schedule s ts
          else let r := thread_step t s in hash_run schedule r.2 (<[i:=r.1]> ts)
      | None => hash_run schedule s ts
      end
  end.

Lemma hash_run_steps schedule s ts : rtc hstep (s, ts) (hash_run schedule s ts).
Proof.
  revert s ts. induction schedule as [|i schedule IH]; intros s ts; cbn; [done|].
  destruct (ts !! i) as [t|] eqn:Hi; [|apply IH]. destruct (blocked ts t s) eqn:Hb; [apply IH|].
  eapply rtc_l; [by apply hstep_at|]. apply IH.
Qed.

(** ** The invariant *)

Record consistent (s : HCore) : Prop := {
  ok_wf : core_wf (store s);
  ok_ids key : is_Some (ids s !! key) ↔ is_Some (hash_at (store s) key);
  ok_new key loc : ids s !! key = Some loc → (loc < next_id s)%nat;
  ok_orphan key loc : is_Some (orphans s !! (key, loc)) → (loc < next_id s)%nat
}.

Lemma lost_Some c c' m key loc h :
  lost c c' m !! (key, loc) = Some h ↔ m !! key = Some loc ∧ hash_at c key = Some h ∧ hash_at c' key = None.
Proof.
  assert (∀ l, (l ≫= lost_map c c').*1 `sublist_of` l) as Hsub.
  { induction l as [|kl l IH]; [done|]. cbn. rewrite fmap_app. unfold lost_map at 1.
    destruct (hash_at c kl.1), (hash_at c' kl.1); cbn; by constructor. }
  unfold lost. rewrite <- elem_of_list_to_map.
  2:{ eapply sublist_NoDup; [apply NoDup_map_to_list|apply Hsub]. }
  rewrite list_elem_of_bind. unfold lost_map. split.
  - intros ([k l] & Hin & Hm%elem_of_map_to_list). cbn in Hin.
    destruct (hash_at c k) eqn:H1, (hash_at c' k) eqn:H2; try (by apply elem_of_nil in Hin).
    apply list_elem_of_singleton in Hin. naive_solver.
  - intros (Hm & H1 & H2). exists (key, loc). cbn. rewrite H1, H2. split; [by apply list_elem_of_singleton|].
    by apply elem_of_map_to_list.
Qed.

Lemma plain_ids {A : Type} (m : M A) s key loc :
  ids (plain m s).2 !! key = Some loc ↔ ids s !! key = Some loc ∧ is_Some (hash_at (m (store s)).2 key).
Proof. cbn. apply map_lookup_filter_Some. Qed.

Lemma plain_orphans {A : Type} (m : M A) s key loc h :
  orphans (plain m s).2 !! (key, loc) = Some h →
  (ids s !! key = Some loc ∧ hash_at (store s) key = Some h) ∨ orphans s !! (key, loc) = Some h.
Proof. cbn. rewrite lookup_union_Some_raw, lost_Some. naive_solver. Qed.

(** A tame section keeps the invariant, and every map keeps its fields. *)
Lemma plain_consistent {A : Type} (m : M A) s :
  consistent s → core_wf (m (store s)).2 → tame (store s) (m (store s)).2 → consistent (plain m s).2.
Proof.
  intros [Hwf Hids Hnew Horph] Hwf' [_ Ht]. split.
  - done.
  - intros key. split.
    + intros [loc [_ ?]%plain_ids]. done.
    + intros [h Hh]. destruct (proj2 (Hids key)) as [loc Hl]; [by eauto|]. exists loc. apply plain_ids. eauto.
  - intros key loc [? _]%plain_ids. eauto.
  - intros key loc [h [[? _]|?]%plain_orphans]; cbn; eauto.
Qed.

Lemma plain_map {A : Type} (m : M A) s key loc :
  consistent s → tame (store s) (m (store s)).2 → map_at key loc (plain m s).2 = map_at key loc s.
Proof.
  intros Hok [_ Ht]. unfold map_at at 2. destruct (decide (ids s !! key = Some loc)) as [Hl|Hl].
  - destruct (proj1 (ok_ids s Hok key)) as [h Hh]; [by eauto|]. rewrite Hh. unfold map_at.
    destruct (hash_at (m (store s)).2 key) as [h'|] eqn:Hh'.
    + rewrite decide_True by (apply plain_ids; eauto). cbn.
      rewrite Hh'. apply Ht in Hh'. rewrite Hh in Hh'. by injection Hh' as ->.
    + rewrite decide_False by (intros [_ [? ?]]%plain_ids; congruence). cbn.
      by rewrite (lookup_union_Some_l _ _ _ h) by (by apply lost_Some).
  - unfold map_at. rewrite decide_False by (intros [? _]%plain_ids; done). cbn.
    rewrite lookup_union_r; [done|]. apply eq_None_not_Some. by intros [h [? _]%lost_Some].
Qed.

(** The sections of [hset] and [hdel] on the store are tame as well. *)
Definition mild {A : Type} (m : M A) : Prop := ∀ c, core_wf c → core_wf (m c).2 ∧ tame c (m c).2.

Lemma mild_step {A : Type} (m : M A) :
  (∀ c, core_wf c → wp m (λ _ c', ∃ k o d, Step k o d c c' ∧
     ∀ h, o ≫= entry_hash = Some h → hash_at c k = Some h) c) → mild m.
Proof.
  intros Hm c Hwf. destruct (Hm c Hwf) as (k & o & d & HS & Ho). split; [by eapply Step_wf|].
  by eapply tame_step.
Qed.

Lemma mild_still {A : Type} (m : M A) : still m → mild m.
Proof.
  intros Hm. apply mild_step. intros c Hwf. eapply wp_mono; [by apply Hm|]. intros a c' [k HS].
  by exists k, (lookup_entry c k), 0.
Qed.

Lemma mild_sub size : mild (track_sub size).
Proof.
  apply mild_step. intros c Hwf. eapply wp_mono; [exact (wp_track_sub c [] size _ _ _ (Step_refl [] c Hwf))|].
  intros [] c' HS. by exists [], (lookup_entry c []), (0 - size).
Qed.

Lemma mild_add size : mild (track_add size).
Proof.
  apply mild_step. intros c Hwf. eapply wp_mono; [exact (wp_track_add c [] size _ _ _ (Step_refl [] c Hwf))|].
  intros [] c' HS. by exists [], (lookup_entry c []), (0 + size).
Qed.

Lemma mild_account old_size new_size : mild (hset_account old_size new_size).
Proof. unfold hset_account. destruct old_size; [destruct (_ <=? _)|]; auto using mild_sub, mild_add. Qed.

Lemma mild_remove_if key p : mild (i ← hash key; shard_remove_if i key p).
Proof.
  apply mild_step. intros c Hwf. eapply wp_mono; [by apply wp_remove_key|]. intros r c' (-> & HS).
  exists key. eexists _, 0. split; [exact HS|].
  unfold hash_at. destruct (lookup_entry c key) as [e|]; [destruct (p e)|]; done.
Qed.

(** [occ.remove()] and the removal from the queue before it. *)
Lemma wp_take_out key e c :
  core_wf c →
  wp (i ← hash key;
      (if bool_decide (EVICTION_POLICY = AllKeysS3Fifo) then dequeue i key e else mret tt);;
      shard_remove i key) (λ _ c', Step key None 0 c c') c.
Proof.
  intros Hwf. pose proof (Step_refl key c Hwf) as HS.
  wp_call (wp_hash c key _ _ _ HS) as i c1 (-> & HS1). apply wp_bind.
  eapply (wp_mono _ (λ _ c', Step key (lookup_entry c key) 0 c c')).
  { case_bool_decide; [exact (wp_dequeue c key _ _ _ _ _ HS1)|by apply wp_ret]. }
  intros [] c2 HS2. eapply wp_mono; [exact (wp_shard_remove_if c key Hwf _ _ _ _ HS2)|].
  intros r c3 HS3. by destruct (lookup_entry c key) as [e'|]; destruct HS3 as [_ HS3].
Qed.

Lemma mild_remove key e :
  mild (i ← hash key;
        (if bool_decide (EVICTION_POLICY = AllKeysS3Fifo) then dequeue i key e else mret tt);;
        shard_remove i key).
Proof.
  apply mild_step. intros c Hwf. eapply wp_mono; [by apply wp_take_out|]. intros r c' HS. by exists key, None, 0.
Qed.

Lemma plain_mild {A : Type} (m : M A) s :
  mild m → consistent s →
  consistent (plain m s).2 ∧ num_shards (store (plain m s).2) = num_shards (store s) ∧
  ∀ key loc, map_at key loc (plain m s).2 = map_at key loc s.
Proof.
  intros Hm Hok. destruct (Hm _ (ok_wf s Hok)) as [Hwf Ht]. split_and!; [by apply plain_consistent|apply Ht|].
  intros key loc. by apply plain_map.
Qed.

(** A new map is empty, and so was the map of its number before. *)
Lemma vacant_consistent key timestamp s :
  consistent s → lookup_entry (store s) key = None →
  let s' := mkHCore ((i ← hash key; hset_vacant i key timestamp) (store s)).2
              (<[key:=next_id s]> (ids s)) (orphans s) (S (next_id s)) in
  consistent s' ∧ num_shards (store s') = num_shards (store s) ∧
  ∀ key' loc, map_at key' loc s' = map_at key' loc s.
Proof.
  intros Hok He s'. pose proof (ok_wf s Hok) as Hwf.
  pose proof (wp_hset_vacant (store s) key Hwf timestamp _ _ _ (Step_refl key (store s) Hwf)) as (q & HS).
  set (e := mkEntry _ _ _ _ _) in HS. fold (store s') in HS.
  change (Step key (Some e) 0 (store s) (store s')) in HS.
  assert (∀ k, hash_at (store s') k = if decide (k = key) then Some ∅ else hash_at (store s) k) as Hh.
  { intros k. unfold hash_at. case_decide; subst.
    - by rewrite (Step_lookup _ _ _ _ _ Hwf HS).
    - by rewrite (Step_lookup_ne _ _ _ _ _ _ Hwf HS). }
  assert (hash_at (store s) key = None) as Hn by (unfold hash_at; by rewrite He).
  destruct Hok as [_ Hids Hnew Horph]. split_and!; [split| |].
  - by eapply Step_wf.
  - intros k. rewrite Hh. cbn. destruct (decide (k = key)) as [->|Hk].
    + rewrite lookup_insert_eq. split; eauto.
    + by rewrite lookup_insert_ne.
  - intros k loc. cbn. rewrite lookup_insert_Some. intros [[_ <-]|[_ Hl%Hnew]]; lia.
  - intros k loc Hl%Horph. cbn. lia.
  - apply (step_num _ _ _ _ _ HS).
  - intros k loc. unfold map_at. rewrite Hh. cbn [ids orphans s']. destruct (decide (k = key)) as [->|Hk].
    + rewrite lookup_insert_eq. assert (ids s !! key = None) as Hi.
      { apply eq_None_not_Some. intros [? ?]%Hids. congruence. }
      rewrite Hi, (decide_False (P := None = Some loc)) by done. destruct (decide (Some (next_id s) = Some loc)) as [[= <-]|]; [|done].
      destruct (orphans s !! (key, next_id s)) eqn:Ho; [|done]. specialize (Horph key (next_id s)).
      rewrite Ho in Horph. specialize (Horph ltac:(eauto)). lia.
    + by rewrite lookup_insert_ne.
Qed.

(** A write changes one map. *)
Lemma write_consistent key loc h s :
  consistent s → (loc < next_id s)%nat →
  consistent (write_map key loc h s) ∧ ids (write_map key loc h s) = ids s ∧
  next_id (write_map key loc h s) = next_id s ∧
  num_shards (store (write_map key loc h s)) = num_shards (store s) ∧
  ∀ k l, map_at k l (write_map key loc h s) = if decide ((k, l) = (key, loc)) then h else map_at k l s.
Proof.
  intros Hok Hl. pose proof (ok_wf s Hok) as Hwf. pose proof Hok as [_ Hids Hnew Horph].
  unfold write_map. destruct (decide (ids s !! key = Some loc)) as [Hi|Hi].
  - destruct (proj1 (Hids key)) as [h0 Hh0]; [by eauto|]. unfold hash_at in Hh0.
    destruct (lookup_entry (store s) key) as [e|] eqn:He; [|done].
    pose proof (wp_alter_key key (with_value (EV_Hash h)) e _ Hwf He) as HS. unfold wp in HS.
    set (c' := (shard_alter _ _ _ _).2) in *.
    assert (∀ k, hash_at c' k = if decide (k = key) then Some h else hash_at (store s) k) as Hh.
    { intros k. unfold hash_at. case_decide; subst.
      - by rewrite (Step_lookup _ _ _ _ _ Hwf HS).
      - by rewrite (Step_lookup_ne _ _ _ _ _ _ Hwf HS). }
    split_and!; [split|done|done|by apply (step_num _ _ _ _ _ HS)|].
    + by eapply Step_wf.
    + intros k. cbn. rewrite Hh, Hids. case_decide; subst; [|done]. unfold hash_at. rewrite He, Hh0.
      split; eauto.
    + done.
    + done.
    + intros k l. unfold map_at. cbn. rewrite Hh. repeat case_decide; naive_solver.
  - split_and!; [split|done|done|done|]; try done.
    + intros k l. cbn. destruct (decide ((k, l) = (key, loc))) as [[= -> ->]|Hne]; [done|].
      rewrite lookup_insert_ne by done. apply Horph.
    + intros k l. unfold map_at. cbn. destruct (decide ((k, l) = (key, loc))) as [[= -> ->]|Hne].
      * by rewrite decide_False, lookup_insert_eq.
      * by rewrite lookup_insert_ne.
Qed.

(** ** What [HSET] set stays set *)

Section Fields.
(** The fields an [HDEL] among the threads names, by key. *)
Context (named : bytes → bytes → Prop).

Definition has_fields (key : bytes) (loc : nat) (fields : list (bytes * bytes)) (s : HCore) : Prop :=
  (loc < next_id s)%nat ∧ ∀ f, f ∈ fields.*1 → ¬ named key f → is_Some (map_at key loc s !! f).

Definition thread_ok (s : HCore) (t : HThread) : Prop :=
  match t with
  | Plain p => safe anyhow tames p tt
  | Hashing _ t =>
      match t with
      | HsetHas key loc _ _ => (loc < next_id s)%nat
      | HsetInserted key loc fields _ _ | HsetMeasured key loc fields _ _ _ | HsetDone key loc fields _ =>
          has_fields key loc fields s
      | HdelStart key fields _ => ∀ f, f ∈ fields → named key f
      | HdelSized key loc fields _ => (loc < next_id s)%nat ∧ ∀ f, f ∈ fields → named key f
      | _ => True
      end
  end.

(** The maps only lose fields that an [HDEL] names. *)
Definition grows (s s' : HCore) : Prop :=
  num_shards (store s') = num_shards (store s) ∧ (next_id s <= next_id s')%nat ∧
  ∀ key loc f, ¬ named key f → is_Some (map_at key loc s !! f) → is_Some (map_at key loc s' !! f).

Lemma grows_same s s' :
  num_shards (store s') = num_shards (store s) → (next_id s <= next_id s')%nat →
  (∀ key loc, map_at key loc s' = map_at key loc s) → grows s s'.
Proof. intros Hs Hn Hm. split_and!; [done..|]. intros key loc f _. by rewrite Hm. Qed.

Lemma grows_write key loc h s :
  consistent s → (loc < next_id s)%nat →
  (∀ f, ¬ named key f → is_Some (map_at key loc s !! f) → is_Some (h !! f)) → grows s (write_map key loc h s).
Proof.
  intros Hok Hl Hh. destruct (write_consistent key loc h s Hok Hl) as (_ & _ & Hn & Hs & Hm).
  split_and!; [done|lia|]. intros k l f Hf. rewrite Hm. case_decide; [|done]. simplify_eq. auto.
Qed.

Lemma thread_ok_grows s s' t : grows s s' → thread_ok s t → thread_ok s' t.
Proof.
  intros (_ & Hn & Hm). assert (∀ key loc fields, has_fields key loc fields s → has_fields key loc fields s') as Hf.
  { intros key loc fields [Hl Hf]. split; [lia|]. auto. }
  destruct t as [p|w t]; [done|]. destruct t; cbn; auto; try lia. intros [? ?]. split; [lia|done].
Qed.

Lemma put_fields_has fields h f : is_Some (h !! f) ∨ f ∈ fields.*1 → is_Some (put_fields fields h !! f).
Proof.
  intros H. unfold put_fields. rewrite lookup_union_is_Some. destruct H as [?|H]; [by right|]. left.
  apply list_elem_of_fmap in H as ([f' v] & -> & H).
  apply not_eq_None_Some. intros Hn%not_elem_of_list_to_map. apply Hn.
  apply list_elem_of_fmap. exists (f', v). split; [done|]. by apply elem_of_reverse.
Qed.

Lemma loc_of_lt key e h s :
  consistent s → lookup_entry (store s) key = Some e → e_value e = EV_Hash h → (loc_of key s < next_id s)%nat.
Proof.
  intros Hok He Hv. destruct (proj2 (ok_ids s Hok key)) as [loc Hl].
  { unfold hash_at, entry_hash. rewrite He. cbn. rewrite Hv. eauto. }
  unfold loc_of. rewrite Hl. by apply (ok_new s Hok key).
Qed.

(** What a step of a thread must keep. *)
Definition keeps_ok (s s' : HCore) (t' : HThread) : Prop := consistent s' ∧ grows s s' ∧ thread_ok s' t'.

Lemma keeps_refl s t' : consistent s → thread_ok s t' → keeps_ok s s t'.
Proof. intros Hok Ht. split_and!; [done|by apply grows_same|done]. Qed.

Lemma keeps_plain {A : Type} (m : M A) s t' :
  consistent s → mild m → thread_ok s t' → keeps_ok s (plain m s).2 t'.
Proof.
  intros Hok Hm Ht. destruct (plain_mild m s Hm Hok) as (Hok' & Hs & Hmap).
  assert (grows s (plain m s).2) by (by apply grows_same). split_and!; [done..|]. by eapply thread_ok_grows.
Qed.

Lemma hset_loop_ok w key fields now timestamp s :
  consistent s →
  let r := hset_loop key fields now timestamp s in keeps_ok s r.2 (Hashing w r.1).
Proof.
  intros Hok. unfold hset_loop. destruct (lookup_entry (store s) key) as [e|] eqn:He.
  - destruct (expired now e); [by apply keeps_plain; [|apply mild_remove|]|].
    destruct (e_value e) eqn:Hv; apply keeps_refl; cbn; [done..|]. by eapply loc_of_lt.
  - destruct (vacant_consistent key timestamp s Hok He) as (Hok' & Hs & Hm).
    cbn [fst snd]. split_and!; [done| |cbn; lia]. apply grows_same; [done|cbn; lia|done].
Qed.

Lemma hset_insert_ok w key loc fields old_size s :
  consistent s → (loc < next_id s)%nat →
  let r := hset_insert key loc fields old_size s in keeps_ok s r.2 (Hashing w r.1).
Proof.
  intros Hok Hl. unfold hset_insert. rewrite insert_fields_spec. cbn [fst snd].
  destruct (write_consistent key loc (put_fields fields (map_at key loc s)) s Hok Hl) as (Hok' & _ & Hn & _ & Hm).
  split_and!; [done| |].
  - apply grows_write; [done..|]. intros f _ Hf. apply put_fields_has. by left.
  - split; [lia|]. intros f Hf _. rewrite Hm, decide_True by done. apply put_fields_has. by right.
Qed.

Lemma hdel_fields_ok w key loc fields old_size s :
  consistent s → (loc < next_id s)%nat → (∀ f, f ∈ fields → named key f) →
  let r := hdel_fields key loc fields old_size s in keeps_ok s r.2 (Hashing w r.1).
Proof.
  intros Hok Hl Hf. unfold hdel_fields. rewrite remove_fields_spec. cbn [fst snd].
  destruct (write_consistent key loc (drop_fields fields (map_at key loc s)) s Hok Hl) as (Hok' & _ & Hn & _ & _).
  split_and!; [done| |].
  - apply grows_write; [done..|]. intros f Hnf Hs. unfold drop_fields.
    destruct Hs as [v Hv]. exists v. apply map_lookup_filter_Some. split; [done|]. cbn. auto.
  - destruct (0 <? _); [|done]. by case_bool_decide.
Qed.

(** Every step of every thread. *)
Lemma thread_step_ok s t :
  consistent s → thread_ok s t →
  keeps_ok s (thread_step t s).2 (thread_step t s).1.
Proof.
  intros Hok Ht. destruct t as [[reply|m]|w t].
  - by apply keeps_refl.
  - cbn [thread_step fst snd]. inversion Ht as [|? ? Hm]; subst.
    destruct (Hm (store s) (ok_wf s Hok)) as (Hwf & [] & Hsafe & Htame).
    assert (grows s (plain m s).2) by (apply grows_same; [apply Htame|done|]; intros; by apply plain_map).
    split_and!; [by apply plain_consistent|done|exact Hsafe].
  - cbn [thread_step fst snd]. destruct t; cbn [hash_step fst snd]; cbn [thread_ok] in Ht;
      try (by apply keeps_refl); try (by apply keeps_plain; auto using mild_sub, mild_account).
    + apply keeps_plain; [done| |done]. apply mild_still, still_quiet, quiet_insert_timestamp.
    + by apply hset_loop_ok.
    + by apply hset_insert_ok.
    + apply keeps_refl; [done|]. unfold hdel_start. destruct (lookup_entry _ _) as [e|] eqn:He; [|done].
      destruct (expired now e); [done|]. destruct (e_value e) eqn:Hv; [done|]. cbn. split; [by eapply loc_of_lt|done].
    + unfold hdel_expired. cbv zeta. cbn [fst snd]. apply keeps_plain; [done|apply mild_remove_if|].
      destruct (plain _ s).1 as [e|]; [|done]. by destruct (e_value e).
    + destruct Ht. by apply hdel_fields_ok.
    + apply keeps_refl; [done|]. unfold hdel_shrunk. cbv zeta. by destruct (_ <? _).
    + unfold hdel_remove. cbv zeta. cbn [fst snd]. apply keeps_plain; [done|apply mild_remove_if|].
      destruct (plain _ s).1 as [e|]; [done|]. by destruct (_ <? _).
Qed.
End Fields.

(** A thread that only reads the store. *)
Inductive reader : Proc → Prop :=
| reader_done reply : reader (Done reply)
| reader_atomic m : quiet m → (∀ c, reader (m c).1) → reader (Atomic m).

Lemma reader_tame p : reader p → safe anyhow tames p tt.
Proof.
  induction 1 as [reply|m Hm _ IH]; [by constructor|]. constructor. intros c Hwf.
  destruct (still_quiet m Hm c Hwf) as (k & HS). split; [by eapply Step_wf|]. exists tt. split; [apply IH|].
  by apply (tame_still k).
Qed.

Section Parts.
Context {D : Parts}.

(** A thread at its start: a command of Procs.v or of Sweeps.v, an [HSET], an [HDEL], or a thread
    that only reads. *)
Inductive begins : HThread → Prop :=
| begins_plain p : command_proc p → begins (Plain p)
| begins_reader p : reader p → begins (Plain p)
| begins_sweep w c : begins (Plain (thread (sweep_proc w c)))
| begins_hset command w now : begins (hset_thread command w now)
| begins_hdel command w now : begins (hdel_thread command w now).

(** [HDEL] of the field is among the threads. *)
Definition deletes (ts : list HThread) (key field : bytes) : Prop :=
  ∃ w fields now, Hashing w (HdelStart key fields now) ∈ ts ∧ field ∈ fields.

Lemma begins_ok ts s : Forall begins ts → Forall (thread_ok (deletes ts) s) ts.
Proof.
  intros Hts. apply Forall_forall. intros t Hin. pose proof (proj1 (Forall_forall _ _) Hts t Hin) as Hb.
  destruct Hb as [p Hp|p Hp|w c|command w now|command w now].
  - by apply command_tame.
  - by apply reader_tame.
  - apply sweep_tame.
  - unfold hset_thread. destruct (_ || _); [by constructor|done].
  - destruct command as [|? [|key [|field fields]]]; cbn in *; try by constructor.
    intros f Hf. by exists w, (field :: fields), now.
Qed.

Lemma hstep_ok named x y :
  hstep x y → consistent x.1 → Forall (thread_ok named x.1) x.2 →
  consistent y.1 ∧ Forall (thread_ok named y.1) y.2 ∧ num_shards (store y.1) = num_shards (store x.1).
Proof.
  intros [s ts i t Hi _] Hok Hts. cbn [fst snd] in *.
  destruct (thread_step_ok named s t Hok (Forall_lookup_1 _ _ _ _ Hts Hi)) as (Hok' & Hg & Ht').
  split_and!; [done| |apply Hg]. apply Forall_insert; [|done]. eapply Forall_impl; [exact Hts|].
  intros u. by apply thread_ok_grows.
Qed.

Lemma hsteps_ok named x y :
  rtc hstep x y → consistent x.1 → Forall (thread_ok named x.1) x.2 →
  consistent y.1 ∧ Forall (thread_ok named y.1) y.2.
Proof.
  induction 1 as [|x y z Hxy _ IH]; [done|]. intros Hok Hts.
  destruct (hstep_ok named x y Hxy Hok Hts) as (Hok' & Hts' & _). by apply IH.
Qed.


End Parts.

(** ** Alone *)

Fixpoint hash_iter (n : nat) (t : HashOp) (s : HCore) : HashOp * HCore :=
  match n with
  | O => (t, s)
  | S n => let r := hash_step t s in hash_iter n r.1 r.2
  end.

Lemma hash_iter_S n t s : hash_iter (S n) t s = hash_iter n (hash_step t s).1 (hash_step t s).2.
Proof. done. Qed.

Lemma hash_iter_done n t s : is_Some (hash_result t) → hash_iter n t s = (t, s).
Proof. intros Ht. induction n as [|n IH]; [done|]. destruct t; try (by destruct Ht); exact IH. Qed.

Lemma hash_iter_add n n' t s :
  hash_iter (n + n') t s = hash_iter n' (hash_iter n t s).1 (hash_iter n t s).2.
Proof. revert t s. induction n as [|n IH]; intros t s; [done|]. apply IH. Qed.

Lemma map_at_held key loc s :
  ids s !! key = Some loc → map_at key loc s = default ∅ (hash_at (store s) key).
Proof. intros Hl. unfold map_at. by rewrite decide_True. Qed.

(** From the map on, [hset] sets the fields and accounts for them. *)
Lemma hset_tail key loc h fields old_size s n :
  consistent s → ids s !! key = Some loc → hash_at (store s) key = Some h →
  let '(h', new_count) := insert_fields fields h 0 in
  let r := hash_iter (3 + n) (HsetHas key loc fields old_size) s in
  hash_result r.1 = Some (Ok new_count) ∧
  store r.2 = (hset_account old_size (calculate_entry_size (len key) (EV_Hash h'))
                 (shard_alter (shard_of (store s) key) key (with_value (EV_Hash h')) (store s)).2).2.
Proof.
  intros Hok Hl Hh. destruct (insert_fields fields h 0) as [h' m] eqn:Hf.
  pose proof (write_consistent key loc h' s Hok (ok_new s Hok _ _ Hl)) as (_ & _ & _ & _ & Hm).
  specialize (Hm key loc). rewrite decide_True in Hm by done.
  assert (hash_iter 3 (HsetHas key loc fields old_size) s =
          (HsetDone key loc fields m,
           (plain (hset_account old_size (calculate_entry_size (len key) (EV_Hash h'))) (write_map key loc h' s)).2)) as He.
  { cbn [hash_iter hash_step]. unfold hset_insert. rewrite (map_at_held _ _ _ Hl), Hh. cbn [default].
    unfold default, id. rewrite Hf. cbn [fst snd hash_step]. unfold size_at. rewrite Hm. reflexivity. }
  cbv zeta. rewrite hash_iter_add, He. cbn [fst snd]. rewrite hash_iter_done by (cbn; eauto).
  split; [done|]. cbn [plain fst snd store]. unfold write_map. by rewrite decide_True.
Qed.

(** [hset] once it has its map. *)
Definition hset_finish (i : nat) (key : bytes) (fields : list (bytes * bytes))
    (r : Result (gmap bytes bytes * option Z) bytes) : M (Result Z bytes) :=
  match r with
  | Err e => mret (Err e)
  | Ok (h, old_size) =>
      let '(h', new_count) := insert_fields fields h 0 in
      shard_alter i key (with_value (EV_Hash h'));;
      hset_account old_size (calculate_entry_size (len key) (EV_Hash h'));;
      mret (Ok new_count)
  end.

Definition agrees (r : HashOp * HCore) (o : Result Z bytes * Core) : Prop :=
  hash_result r.1 = Some o.1 ∧ store r.2 = o.2.

Lemma hset_tail_finish i key loc h fields old_size s n :
  consistent s → ids s !! key = Some loc → hash_at (store s) key = Some h → i = shard_of (store s) key →
  agrees (hash_iter (3 + n) (HsetHas key loc fields old_size) s)
    (hset_finish i key fields (Ok (h, old_size)) (store s)).
Proof.
  intros Hok Hl Hh ->. pose proof (hset_tail key loc h fields old_size s n Hok Hl Hh) as Ht.
  unfold hset_finish. destruct (insert_fields fields h 0) as [h' m]. exact Ht.
Qed.

Lemma hset_loop_vacant key fields now t s n :
  consistent s → lookup_entry (store s) key = None →
  agrees (hash_iter (4 + n) (HsetLoop key fields now t) s)
    ((hset_vacant (shard_of (store s) key) key t;; hset_finish (shard_of (store s) key) key fields (Ok (∅, None))) (store s)).
Proof.
  intros Hok He. change (4 + n)%nat with (S (3 + n)). cbn [hash_iter hash_step].
  unfold hset_loop. rewrite He. cbn [fst snd].
  destruct (vacant_consistent key t s Hok He) as [Hok' _].
  pose proof (ok_wf s Hok) as Hwf.
  pose proof (wp_hset_vacant (store s) key Hwf t _ _ _ (Step_refl key (store s) Hwf)) as (q & HS).
  unfold mbind, M_bind. cbn [fst snd].
  apply hset_tail_finish; [exact Hok'| | |].
  - apply lookup_insert_eq.
  - exact (f_equal (λ o, o ≫= entry_hash) (Step_lookup _ _ _ _ _ Hwf HS)).
  - exact (f_equal (λ n, shard_index n key) (eq_sym (step_num _ _ _ _ _ HS))).
Qed.

Lemma hset_loop_alone key fields now t s :
  consistent s →
  agrees (hash_iter 6 (HsetLoop key fields now t) s)
    ((r ← hset_entry (shard_of (store s) key) key t now; hset_finish (shard_of (store s) key) key fields r) (store s)).
Proof.
  intros Hok. unfold hset_entry, mbind at 1 2, M_bind at 1 2. cbn [shard_get gets fst snd].
  change (shard_at (store s) (shard_of (store s) key) !! key) with (lookup_entry (store s) key).
  destruct (lookup_entry (store s) key) as [e|] eqn:He.
  2:{ exact (hset_loop_vacant key fields now t s 2 Hok He). }
  change 6%nat with (S 5). cbn [hash_iter hash_step]. unfold hset_loop. rewrite He.
  destruct (expired now e) eqn:Hx.
  - cbn [fst snd hash_iter hash_step]. set (size := calculate_entry_size _ _).
    set (take_out := i ← hash key; _). set (s1 := (plain take_out s).2).
    set (s2 := (plain (track_sub size) s1).2).
    destruct (plain_mild take_out s (mild_remove key e) Hok) as [Hok1 _]. fold s1 in Hok1.
    destruct (plain_mild (track_sub size) s1 (mild_sub size) Hok1) as [Hok2 _]. fold s2 in Hok2.
    assert (num_shards (store s2) = num_shards (store s) ∧ lookup_entry (store s2) key = None) as [Hn Hnone].
    { pose proof (wp_take_out key e _ (ok_wf s Hok)) as HS1.
      pose proof (wp_track_sub (store s) key size None 0 (store s1) HS1) as HS2.
      split; [exact (step_num _ _ _ _ _ HS2)|exact (Step_lookup _ _ _ _ _ (ok_wf s Hok) HS2)]. }
    pose proof (hset_loop_vacant key fields now t s2 0 Hok2 Hnone) as Ha.
    unfold shard_of in Ha. rewrite Hn in Ha. exact Ha.
  - destruct (e_value e) as [v|h] eqn:Hv; cbn [fst snd].
    + by split.
    + assert (hash_at (store s) key = Some h) as Hh by (unfold hash_at, entry_hash; rewrite He; cbn; by rewrite Hv).
      destruct (proj2 (ok_ids s Hok key)) as [loc Hl]; [by eauto|]. unfold loc_of. rewrite Hl. cbn [default].
      by apply (hset_tail_finish _ _ _ _ _ _ _ 2).
Qed.

Lemma hset_alone key fields now s :
  consistent s →
  agrees (hash_iter 7 (HsetStart key fields now) s) (hset key fields now (store s)).
Proof.
  intros Hok. destruct (plain_mild insert_timestamp s) as [Hok1 _]; [|done|].
  { apply mild_still, still_quiet, quiet_insert_timestamp. }
  pose proof (hset_loop_alone key fields now (insert_timestamp (store s)).1 _ Hok1) as Ha.
  assert (shard_of (store (plain insert_timestamp s).2) key = shard_of (store s) key) as Hs.
  { unfold shard_of. f_equal. apply quiet_insert_timestamp. }
  rewrite Hs in Ha. exact Ha.
Qed.

Lemma hash_at_entry key e h s :
  consistent s → lookup_entry (store s) key = Some e → e_value e = EV_Hash h →
  hash_at (store s) key = Some h ∧ ids s !! key = Some (loc_of key s).
Proof.
  intros Hok He Hv. assert (hash_at (store s) key = Some h) as Hh.
  { unfold hash_at, entry_hash. rewrite He. cbn. by rewrite Hv. }
  split; [done|]. destruct (proj2 (ok_ids s Hok key)) as [loc Hl]; [by eauto|]. unfold loc_of. by rewrite Hl.
Qed.

(** A removed hash still measures as it did. *)
Lemma remove_measured key e p s :
  consistent s → lookup_entry (store s) key = Some e → p e = true →
  let r := plain (i ← hash key; shard_remove_if i key p) s in
  r.1 = Some e ∧
  ∀ h, e_value e = EV_Hash h → size_at key (loc_of key s) r.2 = calculate_entry_size (len key) (e_value e).
Proof.
  intros Hok He Hp r. split.
  - unfold r, mbind, M_bind, shard_remove_if, shard_get, mbind, M_bind. cbn [plain hash gets fst snd].
    change (shard_at _ _ !! key) with (lookup_entry (store s) key). rewrite He, Hp. done.
  - intros h Hv. unfold size_at.
    rewrite (proj2 (proj2 (plain_mild _ s (mild_remove_if key p) Hok))).
    destruct (hash_at_entry key e h s Hok He Hv) as [Hh Hl]. by rewrite (map_at_held _ _ _ Hl), Hh, Hv.
Qed.

(** [hdel] after a map was emptied. *)
Lemma hdel_remove_alone key e old_size removed s :
  consistent s → lookup_entry (store s) key = Some e → e_value e = EV_Hash ∅ →
  agrees (hash_iter 3 (HdelEmptied key old_size removed) s)
    ((hdel_account (shard_of (store s) key) key old_size ∅;; mret (Ok removed)) (store s)).
Proof.
  intros Hok He Hv. assert (is_empty_hash e = true) as Hp.
  { unfold is_empty_hash. by rewrite Hv, bool_decide_eq_true_2. }
  destruct (remove_measured key e is_empty_hash s Hok He Hp) as [Hr Hsz].
  cbn [hash_iter hash_step]. unfold hdel_remove. cbv zeta. rewrite Hr. cbn [fst snd hash_step]. rewrite (Hsz ∅ Hv).
  split; [done|]. unfold hdel_account. rewrite bool_decide_eq_true_2 by done.
  unfold mbind, M_bind in *. cbn [plain hash gets fst snd store] in *. cbv zeta.
  change (shard_index (num_shards (store s)) key) with (shard_of (store s) key) in Hr |- *. by rewrite Hr.
Qed.

(** [hdel] of an expired key. *)
Lemma hdel_expired_alone key e now s :
  consistent s → lookup_entry (store s) key = Some e → expired now e = true →
  agrees (hash_iter 4 (HdelExpired key now) s)
    ((remove_if_expired (shard_of (store s) key) key now;; mret (Ok 0)) (store s)).
Proof.
  intros Hok He Hx. destruct (remove_measured key e (expired now) s Hok He Hx) as [Hr Hsz].
  rewrite hash_iter_S. cbn [hash_step]. unfold hdel_expired. cbv zeta. rewrite Hr. cbn [fst snd].
  unfold remove_if_expired. unfold mbind, M_bind in *. cbn [plain hash gets fst snd store] in *. cbv zeta.
  change (shard_index (num_shards (store s)) key) with (shard_of (store s) key) in *. rewrite Hr.
  destruct (e_value e) as [v|h] eqn:Hv; cbn [hash_iter hash_step fst snd]; [by split|].
  rewrite (Hsz h eq_refl). by split.
Qed.

Lemma hdel_alone key fields now s :
  consistent s →
  agrees (hash_iter 5 (HdelStart key fields now) s) (hdel key fields now (store s)).
Proof.
  intros Hok. unfold hdel, mbind at 1 2, M_bind at 1 2. cbn [hash shard_get gets fst snd].
  change (shard_index (num_shards (store s)) key) with (shard_of (store s) key).
  change (shard_at (store s) (shard_of (store s) key) !! key) with (lookup_entry (store s) key).
  rewrite hash_iter_S. cbn [hash_step fst snd]. unfold hdel_start.
  destruct (lookup_entry (store s) key) as [e|] eqn:He; [|by split].
  destruct (expired now e) eqn:Hx; [by apply (hdel_expired_alone key e)|].
  destruct (e_value e) as [v|h] eqn:Hv; [by split|].
  destruct (hash_at_entry key e h s Hok He Hv) as [Hh Hl].
  rewrite hash_iter_S. cbn [hash_step fst snd]. unfold hdel_fields. rewrite (map_at_held _ _ _ Hl), Hh. cbn [default].
  unfold default, id. destruct (remove_fields fields h 0) as [h' removed]. cbv zeta. cbn [fst snd].
  destruct (write_consistent key (loc_of key s) h' s Hok (ok_new s Hok _ _ Hl)) as (Hok' & _ & _ & _ & Hm).
  specialize (Hm key (loc_of key s)). rewrite decide_True in Hm by done.
  pose proof (wp_alter_key key (with_value (EV_Hash h')) e _ (ok_wf s Hok) He) as HS. unfold wp in HS.
  assert (store (write_map key (loc_of key s) h' s) =
          (shard_alter (shard_of (store s) key) key (with_value (EV_Hash h')) (store s)).2) as Hst.
  { unfold write_map. by rewrite decide_True. }
  rewrite <- Hst in HS. unfold mbind at 1, M_bind at 1. cbv zeta. rewrite <- Hst.
  destruct (0 <? removed); [|by rewrite hash_iter_done; [split|cbn; eauto]].
  destruct (bool_decide (h' = ∅)) eqn:Hb.
  - apply bool_decide_eq_true in Hb as ->.
    pose proof (hdel_remove_alone key _ (calculate_entry_size (len key) (EV_Hash h)) removed _ Hok'
                  (Step_lookup _ _ _ _ _ (ok_wf s Hok) HS) eq_refl) as Ha.
    unfold shard_of at 1 in Ha. rewrite (step_num _ _ _ _ _ HS) in Ha. exact Ha.
  - rewrite hash_iter_S. cbn [hash_step fst snd]. unfold hdel_shrunk, size_at, hdel_account. rewrite Hm, Hb.
    cbv zeta. destruct (_ <? _); by split.
Qed.

Lemma hash_run_alone n w t s :
  hash_run (replicate n 0%nat) s [Hashing w t] = ((hash_iter n t s).2, [Hashing w (hash_iter n t s).1]).
Proof.
  revert t s. induction n as [|n IH]; intros t s; [done|]. rewrite hash_iter_S.
  assert (blocked [Hashing w t] (Hashing w t) s = false) as Hb by (by destruct t).
  cbn [replicate hash_run]. change ([Hashing w t] !! 0%nat) with (Some (Hashing w t)). cbv iota.
  rewrite Hb. cbn [thread_step fst snd]. apply IH.
Qed.

(** Alone, [HSET] and [HDEL] are their handlers.  Run with no other thread, the sections of
    an [HSET] or an [HDEL] with any arguments, on any store, end within seven steps with the
    reply and the store of [handle_hset] and [handle_hdel], on every branch: wrong arguments, a
    string under the key, an expired entry, a new hash, an old one, and a hash that becomes
    empty. *)
Theorem hash_commands_alone s command w now :
  consistent s →
  (let r := hash_run (replicate 7 0%nat) s [hset_thread command w now] in
   map thread_reply r.2 = [Some (handle_hset command w now (store s)).1] ∧
   store r.1 = (handle_hset command w now (store s)).2) ∧
  (let r := hash_run (replicate 5 0%nat) s [hdel_thread command w now] in
   map thread_reply r.2 = [Some (handle_hdel command w now (store s)).1] ∧
   store r.1 = (handle_hdel command w now (store s)).2).
Proof.
  intros Hok. split.
  - unfold hset_thread, handle_hset. destruct (_ || _); [by split|]. rewrite hash_run_alone. cbn [fst snd].
    destruct (hset_alone (nth 1 command []) (pairs_of (drop 2 command)) now s Hok) as [Hr Hs].
    unfold mbind, M_bind. cbn [map thread_reply mret M_ret fst snd]. by rewrite Hr, Hs.
  - destruct command as [|? [|key [|field fields]]]; try by split. cbn [hdel_thread]. rewrite hash_run_alone.
    destruct (hdel_alone key (field :: fields) now s Hok) as [Hr Hs]. cbn [fst snd].
    unfold handle_hdel, mbind, M_bind. cbn [map thread_reply mret M_ret fst snd]. by rewrite Hr, Hs.
Qed.

(** ** Two [HSET]s count what one of them did *)

Section Twice.
Context (c0 : Core) (key : bytes) (loc : nat) (Hwf0 : core_wf c0).

(** Since [c0] the key has come to refer to the map [loc] in the entry [e], and the counter
    has moved by [d]. *)
Record held (e : Entry) (d : Z) (s : HCore) : Prop := {
  held_ok : consistent s;
  held_loc : ids s !! key = Some loc;
  held_step : Step key (Some e) d c0 (store s)
}.

Lemma held_lookup e d s : held e d s → lookup_entry (store s) key = Some e.
Proof. intros [_ _ HS]. exact (Step_lookup _ _ _ _ _ Hwf0 HS). Qed.

Lemma held_map e d s h : held e d s → e_value e = EV_Hash h → map_at key loc s = h.
Proof.
  intros Hh Hv. unfold map_at. rewrite decide_True by apply (held_loc _ _ _ Hh).
  unfold hash_at, entry_hash. rewrite (held_lookup _ _ _ Hh). cbn. by rewrite Hv.
Qed.

Lemma held_plain {A : Type} (m : M A) e e' d d' s h :
  mild m → Step key (Some e') d' c0 (m (store s)).2 → e_value e' = EV_Hash h → held e d s →
  held e' d' (plain m s).2.
Proof.
  intros Hm HS Hv [Hok Hl _]. split; [by apply plain_mild| |exact HS].
  apply plain_ids. split; [done|]. unfold hash_at, entry_hash. rewrite (Step_lookup _ _ _ _ _ Hwf0 HS).
  cbn. rewrite Hv. eauto.
Qed.

Lemma held_timestamp e d s h :
  e_value e = EV_Hash h → held e d s → held e d (plain insert_timestamp s).2.
Proof.
  intros Hv Hh. eapply held_plain; [|exact (wp_quiet c0 key _ _ _ _ quiet_insert_timestamp (held_step _ _ _ Hh))|exact Hv|exact Hh].
  apply mild_still, still_quiet, quiet_insert_timestamp.
Qed.

Lemma held_write e d s h : held e d s → held (with_value (EV_Hash h) e) d (write_map key loc h s).
Proof.
  intros [Hok Hl HS]. destruct (write_consistent key loc h s Hok (ok_new s Hok _ _ Hl)) as (Hok' & Hids & _).
  split; [done|by rewrite Hids|]. unfold write_map. rewrite decide_True by done. cbn [store].
  assert (shard_of (store s) key = shard_of c0 key) as ->.
  { unfold shard_of. f_equal. apply (step_num _ _ _ _ _ HS). }
  exact (wp_shard_alter c0 key Hwf0 (with_value (EV_Hash h)) _ _ _ HS).
Qed.

Lemma held_account old new e d s h :
  e_value e = EV_Hash h → held e d s → held e (d + (new - old)) (plain (hset_account (Some old) new) s).2.
Proof.
  intros Hv Hh. eapply held_plain; [apply mild_account| |exact Hv|exact Hh]. unfold hset_account.
  pose proof (held_step _ _ _ Hh) as HS. destruct (_ <=? _) eqn:Hle.
  - exact (wp_track_add c0 key _ _ _ _ HS).
  - eapply Step_delta; [exact (wp_track_sub c0 key (old - new) _ _ _ HS)|lia].
Qed.

(** The bytes of the hash. *)
Definition hash_bytes (h : gmap bytes bytes) : Z := calculate_entry_size (len key) (EV_Hash h).

Lemma hset_loop_held e d s h fields now t :
  held e d s → expired now e = false → e_value e = EV_Hash h →
  hash_step (HsetLoop key fields now t) s = (HsetHas key loc fields (Some (hash_bytes h)), s).
Proof.
  intros Hh Hx Hv. cbn [hash_step]. unfold hset_loop. rewrite (held_lookup _ _ _ Hh), Hx, Hv.
  unfold loc_of. by rewrite (held_loc _ _ _ Hh).
Qed.

Lemma hset_insert_held e d s h fields old :
  held e d s → e_value e = EV_Hash h →
  ∃ n, hash_step (HsetHas key loc fields old) s =
    (HsetInserted key loc fields old n, write_map key loc (put_fields fields h) s).
Proof.
  intros Hh Hv. eexists. cbn [hash_step]. unfold hset_insert. rewrite (held_map _ _ _ _ Hh Hv), insert_fields_spec.
  reflexivity.
Qed.

Lemma hset_measure_held e d s h fields old n :
  held e d s → e_value e = EV_Hash h →
  hash_step (HsetInserted key loc fields old n) s = (HsetMeasured key loc fields old (hash_bytes h) n, s).
Proof. intros Hh Hv. cbn [hash_step]. unfold size_at. by rewrite (held_map _ _ _ _ Hh Hv). Qed.
End Twice.

(** A step of one of two threads that hold no entry. *)
Lemma pair_step (first : bool) schedule s w1 t1 w2 t2 :
  keeps (Hashing w1 t1) = None → keeps (Hashing w2 t2) = None →
  hash_run ((if first then 0 else 1)%nat :: schedule) s [Hashing w1 t1; Hashing w2 t2] =
  if first then hash_run schedule (hash_step t1 s).2 [Hashing w1 (hash_step t1 s).1; Hashing w2 t2]
  else hash_run schedule (hash_step t2 s).2 [Hashing w1 t1; Hashing w2 (hash_step t2 s).1].
Proof.
  intros H1 H2. assert (∀ t, blocked [Hashing w1 t1; Hashing w2 t2] t s = false) as Hb.
  { intros t. unfold blocked. cbn [existsb]. by rewrite H1, H2. }
  pose proof (Hb (Hashing w1 t1)) as Hb1. pose proof (Hb (Hashing w2 t2)) as Hb2.
  destruct first; cbn [hash_run lookup list_lookup]; [rewrite Hb1|rewrite Hb2]; reflexivity.
Qed.

Definition alternating : list nat := concat (replicate 5 [0; 1]%nat).

(** C40: two [HSET]s on one hash can each account for what only one of them did.  Take any
    store with its counter, and a key that holds a live hash [h]; let two clients send an
    [HSET] for it, and let their steps alternate.  Both reply, and the key holds [h] with the
    fields of both; but [MEMORY_USED] has moved by twice the change in the bytes stored:
    each measured the hash before either had set its fields and again after both had.  So
    every such pair takes the counter, which a memory limit is enforced with, as far from
    the bytes stored as the hash grew or shrank. *)
Theorem hsets_count_twice s e h command1 command2 w1 w2 now1 now2 key fields1 fields2 :
  consistent s → tracks_memory = true →
  hset_thread command1 w1 now1 = Hashing w1 (HsetStart key fields1 now1) →
  hset_thread command2 w2 now2 = Hashing w2 (HsetStart key fields2 now2) →
  lookup_entry (store s) key = Some e → e_value e = EV_Hash h →
  expired now1 e = false → expired now2 e = false →
  let r := hash_run alternating s [hset_thread command1 w1 now1; hset_thread command2 w2 now2] in
  let h' := put_fields fields2 (put_fields fields1 h) in
  let growth := hash_bytes key h' - hash_bytes key h in
  Forall (λ t, is_Some (thread_reply t)) r.2 ∧ hash_at (store r.1) key = Some h' ∧
  bytes_stored (store r.1) = bytes_stored (store s) + growth ∧
  MEMORY_USED (store r.1) = u64 (MEMORY_USED (store s) + 2 * growth).
Proof.
  intros Hok Ht Hc1 Hc2 He Hv Hx1 Hx2 r h' growth. pose proof (ok_wf s Hok) as Hwf.
  destruct (hash_at_entry key e h s Hok He Hv) as [_ Hl]. set (loc := loc_of key s) in Hl.
  assert (held (store s) key loc e 0 s) as H0 by (split; [done|done|rewrite <- He; by apply Step_refl]).
  apply (held_timestamp _ _ _ Hwf _ _ _ h Hv) in H0 as H1. set (s1 := (plain insert_timestamp s).2) in H1.
  apply (held_timestamp _ _ _ Hwf _ _ _ h Hv) in H1 as H2. set (s2 := (plain insert_timestamp s1).2) in H2.
  apply (held_write _ _ _ Hwf _ _ _ (put_fields fields1 h)) in H2 as H3. set (s3 := write_map _ _ _ s2) in H3.
  apply (held_write _ _ _ Hwf _ _ _ h') in H3 as H4. set (s4 := write_map _ _ _ s3) in H4.
  set (e4 := with_value _ _) in H4. assert (e_value e4 = EV_Hash h') as Hv4 by done.
  pose proof (held_account _ _ _ Hwf (hash_bytes key h) (hash_bytes key h') e4 _ s4 h' Hv4 H4) as H5.
  set (s5 := (plain _ s4).2) in H5.
  pose proof (held_account _ _ _ Hwf (hash_bytes key h) (hash_bytes key h') e4 _ s5 h' Hv4 H5) as H6.
  set (s6 := (plain _ s5).2) in H6.
  assert (∃ n1 n2, r = (s6, [Hashing w1 (HsetDone key loc fields1 n1); Hashing w2 (HsetDone key loc fields2 n2)]))
    as (n1 & n2 & ->).
  { destruct (hset_insert_held _ _ _ Hwf _ _ _ h fields1 (Some (hash_bytes key h)) H2 Hv) as [n1 E1].
    destruct (hset_insert_held _ _ _ Hwf (with_value (EV_Hash (put_fields fields1 h)) e) _ _ _ fields2
                (Some (hash_bytes key h)) H3 eq_refl) as [n2 E2].
    exists n1, n2. unfold r, alternating. rewrite Hc1, Hc2. cbn [replicate concat app].
    rewrite (pair_step true), (pair_step false) by done. cbn [hash_step fst snd]. fold s1 s2.
    rewrite (pair_step true) by done. rewrite (hset_loop_held _ _ _ Hwf _ _ _ h _ _ _ H2 Hx1 Hv). cbn [fst snd].
    rewrite (pair_step false) by done. rewrite (hset_loop_held _ _ _ Hwf _ _ _ h _ _ _ H2 Hx2 Hv). cbn [fst snd].
    rewrite (pair_step true) by done. rewrite E1. cbn [fst snd]. fold s3.
    rewrite (pair_step false) by done. rewrite E2. cbn [fst snd]. fold h' s4.
    rewrite (pair_step true) by done. rewrite (hset_measure_held _ _ _ Hwf e4 _ _ h' _ _ _ H4 Hv4). cbn [fst snd].
    rewrite (pair_step false) by done. rewrite (hset_measure_held _ _ _ Hwf e4 _ _ h' _ _ _ H4 Hv4). cbn [fst snd].
    rewrite (pair_step true), (pair_step false) by done. reflexivity. }
  cbn [fst snd]. pose proof (held_step _ _ _ _ _ _ H6) as HS. split_and!.
  - by repeat constructor.
  - unfold hash_at. by rewrite (held_lookup _ _ _ Hwf _ _ _ H6).
  - rewrite (bytes_stored_step _ _ _ _ _ Hwf HS), He. unfold esize, growth, hash_bytes. rewrite Hv, Hv4. lia.
  - pose proof (step_memory _ _ _ _ _ HS Ht) as Hm.
    rewrite (u64_small _ (wf_memory _ (ok_wf _ (held_ok _ _ _ _ _ _ H6)))) in Hm. rewrite Hm. f_equal. unfold growth. lia.
Qed.

(** A store with no hash. *)
Definition no_hashes (c : Core) : HCore := mkHCore c ∅ ∅ 0.

Lemma consistent_no_hashes c : core_wf c → (∀ key, hash_at c key = None) → consistent (no_hashes c).
Proof.
  intros Hwf Hn. split; cbn; [done| | |].
  - intros key. rewrite Hn, lookup_empty. split; intros [? ?]; done.
  - intros key loc. by rewrite lookup_empty.
  - intros key loc. rewrite lookup_empty. by intros [? ?].
Qed.

Lemma consistent_new n : 0 < n → consistent (no_hashes (new n)).
Proof.
  intros Hn. apply consistent_no_hashes; [by apply new_wf|]. intros key. unfold hash_at. by rewrite lookup_entry_new.
Qed.
End Hashes.

(** ** Examples *)

Section Examples.
#[local] Existing Instance demo_platform.
#[local] Existing Instance demo_default.

#[local] Existing Instance demo_parts.

Definition hset_of (key field value : string) : HThread := hset_thread [bs "HSET"; bs key; bs field; bs value] [] 1000.
Definition hdel_of (key field : string) : HThread := hdel_thread [bs "HDEL"; bs key; bs field] [] 1000.

Lemma hash_commands_alone_witness :
  map thread_reply (hash_run (replicate 7 0%nat) (no_hashes (new 2)) [hset_of "k" "f" "a"]).2 = [Some (write_integer [] 1)].
Proof.
  destruct (hash_commands_alone (no_hashes (new 2)) [bs "HSET"; bs "k"; bs "f"; bs "a"] [] 1000) as [[H _] _].
  - by apply consistent_new.
  - unfold hset_of. rewrite H. vm_compute. reflexivity.
Defined.

(** Two [HSET]s create the same hash, each between the steps of the other, while one client
    deletes another key, one counts the keys and one deletes another field. *)
Definition hset_pair : list HThread :=
  [hset_of "k" "f" "a"; hset_of "k" "g" "b"; Plain (thread (handler_proc H_del [bs "DEL"; bs "j"] [] 1000));
   Plain (thread (sweep_proc [] W_dbsize)); hdel_of "k" "x"].
Definition overlapped : list nat := concat (replicate 7 [0; 1; 2; 3; 4]%nat).


(** A hash with one field, an [HSET] of another field and an [HDEL] of the first. *)
Definition one_field : HCore := (hash_run (replicate 7 0%nat) (no_hashes (new 2)) [hset_of "k" "f" "a"]).1.
Definition set_and_del : list HThread := [hset_of "k" "g" "b"; hdel_of "k" "f"].

(** One after the other, in both orders, and the [HDEL] within the [HSET]. *)
Definition set_first : list nat := replicate 7 0%nat ++ replicate 5 1%nat.
Definition del_first : list nat := replicate 5 1%nat ++ replicate 7 0%nat.
Definition del_within : list nat := [0; 0; 1; 1; 1; 1; 1; 0; 0; 0]%nat.

(** The replies, and what is found under the key. *)
Definition outcome (schedule : list nat) : list (option bytes) * option (gmap bytes bytes) :=
  let r := hash_run schedule one_field set_and_del in (map thread_reply r.2, hash_at (store r.1) (bs "k")).

(** An acknowledged [HSET] can be lost.  [hset] clones the map and releases the shard before
    it inserts; when an [HDEL] of the only field empties the map and removes the key in
    between, both reply 1 as in either sequential order, but the key is gone, where both
    sequential orders leave the new field. *)
Theorem hset_lost_to_hdel :
  let ones := [Some (write_integer [] 1); Some (write_integer [] 1)] in
  outcome set_first = (ones, Some {[bs "g" := bs "b"]}) ∧
  outcome del_first = (ones, Some {[bs "g" := bs "b"]}) ∧
  outcome del_within = (ones, None).
Proof. split_and!; apply (bool_decide_unpack _); vm_compute; exact I. Qed.
End Examples.

(** ** The counter after two [HSET]s *)

Section Counter.
#[local] Existing Instance demo_platform.

(** A limit of 10,000 bytes, and no eviction. *)
Definition limited : HasConfig := demo_config 10000 NoEviction.
#[local] Existing Instance limited.

Definition hset_f (value : bytes) : HThread := hset_thread [bs "HSET"; bs "k"; bs "f"; value] [] 1000.

(** A hash whose one field has 1000 bytes, and two clients that set the field to one byte. *)
Definition big_field : HCore := (hash_run (replicate 7 0%nat) (no_hashes (new 2)) [hset_f (replicate 1000 x61)]).1.
Definition both_shrink (schedule : list nat) : HCore :=
  (hash_run schedule big_field [hset_f (bs "x"); hset_f (bs "y")]).1.
Definition in_turn : list nat := replicate 7 0%nat ++ replicate 7 1%nat.

Lemma big_field_ok : consistent big_field.
Proof.
  destruct (hsteps_ok (λ _ _, False) _ _ (hash_run_steps (replicate 7 0%nat) (no_hashes (new 2))
              [hset_f (replicate 1000 x61)])) as [H _]; [by apply consistent_new| |exact H].
  apply List.Forall_cons; [exact I|apply List.Forall_nil].
Qed.

Lemma hsets_count_twice_witness :
  let r := hash_run alternating big_field [hset_f (bs "x"); hset_f (bs "y")] in
  let growth := hash_bytes (bs "k") {[bs "f" := bs "y"]} - hash_bytes (bs "k") {[bs "f" := replicate 1000 x61]} in
  Forall (λ t, is_Some (thread_reply t)) r.2 ∧ hash_at (store r.1) (bs "k") = Some {[bs "f" := bs "y"]} ∧
  bytes_stored (store r.1) = bytes_stored (store big_field) + growth ∧
  MEMORY_USED (store r.1) = u64 (MEMORY_USED (store big_field) + 2 * growth).
Proof.
  pose proof big_field_ok as Hok.
  assert (∃ a b c, lookup_entry (store big_field) (bs "k") =
            Some (mkEntry (EV_Hash {[bs "f" := replicate 1000 x61]}) None a b c)) as (a & b & c & He)
    by (do 3 eexists; vm_compute; reflexivity).
  exact (hsets_count_twice big_field _ _ [bs "HSET"; bs "k"; bs "f"; bs "x"] [bs "HSET"; bs "k"; bs "f"; bs "y"]
           [] [] 1000 1000 (bs "k") [(bs "f", bs "x")] [(bs "f", bs "y")] Hok eq_refl eq_refl eq_refl
           He eq_refl eq_refl eq_refl).
Defined.

(** The counter can wrap around.  Both clients subtract the bytes only one of them freed.
    One after the other leaves the counter exact; with their steps alternating it ends just
    below 2^64 although the store holds one small hash, and from then on [evict_if_needed]
    refuses every [SET], [MSET] and [INCR] of fewer than 804 bytes as out of memory. *)
Theorem hsets_wrap_memory :
  MEMORY_USED (store (both_shrink in_turn)) = size_at (bs "k") 0 (both_shrink in_turn) ∧
  let s := both_shrink alternating in
  size_at (bs "k") 0 s = 195 ∧ MEMORY_USED (store s) = U64_MOD - 804 ∧
  ∀ needed, 0 ≤ needed < 804 → (evict_if_needed needed (store s)).1 = false.
Proof.
  split; [vm_compute; reflexivity|]. cbv zeta.
  assert (MEMORY_USED (store (both_shrink alternating)) = U64_MOD - 804) as Hm by (vm_compute; reflexivity).
  split; [vm_compute; reflexivity|]. split; [done|]. intros needed Hn.
  unfold evict_if_needed, mbind, M_bind, gets. change (max_memory (memory CONFIG)) with 10000.
  cbn [Z.eqb fst snd]. rewrite Hm, u64_small by (unfold is_u64, U64_MOD; lia).
  assert ((U64_MOD - 804 + needed <=? 10000) = false) as -> by (unfold U64_MOD; lia). reflexivity.
Qed.
End Counter.
