(* ===== verification/SweepViews.v ===== *)
(** * What a walk of the store returns beside other threads

    [KEYS], [DBSIZE] and [SCAN] read the store a part at a time while other commands change
    it.  A thread that only reads is followed by the list of the stores its sections saw; a
    walk that saw every part of every shard once has found every key that was there all the
    time, no key that never was, and none twice. *)

From S2P Require Import Prelude Decimal Protocol Glob Config S3Fifo State Store Steps StoreOps StoreSpec.
From S2P Require Import Scan Eviction Handlers HandlerSpec Snapshot Procs ProcLogic Races Sweeps Hashes Demo.

Section Views.
Context {P : Platform} {CFG : HasConfig} {D : Parts}.

(** ** What a thread saw *)

(** [p] ends with [reply] when its sections take the store as in [cs], from the first to the
    second of each pair. *)
Inductive saw : Proc → list (Core * Core) → bytes → Prop :=
| saw_done reply : saw (Done reply) [] reply
| saw_atomic m c cs reply : saw (m c).1 cs reply → saw (Atomic m) ((c, (m c).2) :: cs) reply.

(** A run, with the states before and after each of its steps. *)
Inductive hpath : HCore * list HThread → list (HCore * HCore) → HCore * list HThread → Prop :=
| hpath_nil x : hpath x [] x
| hpath_cons x y z ss : hstep x y → hpath y ss z → hpath x ((x.1, y.1) :: ss) z.

Definition stores (x : HCore * HCore) : Core * Core := (store x.1, store x.2).

Lemma hpath_saw x ss y j p reply :
  hpath x ss y → x.2 !! j = Some (Plain p) → y.2 !! j = Some (Plain (Done reply)) →
  ∃ cs, saw p cs reply ∧ ∀ c, c ∈ cs → c ∈ stores <$> ss.
Proof.
  intros Hp. revert p. induction Hp as [x|x y z ss Hxy _ IH]; intros p Hj Hend.
  { rewrite Hj in Hend. injection Hend as ->. exists []. split; [constructor|]. by intros c ?%elem_of_nil. }
  destruct Hxy as [s ts i t Hi _]. cbn [fst snd] in *. destruct (decide (i = j)) as [->|Hne].
  - rewrite Hi in Hj. injection Hj as ->. pose proof (lookup_lt_Some _ _ _ Hi) as Hlt.
    destruct p as [r|m].
    + destruct (IH (Done r)) as (cs & Hs & Hc); [|done|].
      { cbn. by rewrite list_insert_id. }
      exists cs. split; [done|]. intros c Hin. cbn. apply elem_of_cons. eauto.
    + destruct (IH (m (store s)).1) as (cs & Hs & Hc); [|done|].
      { cbn. by rewrite list_lookup_insert_eq. }
      exists ((store s, (m (store s)).2) :: cs). split; [by constructor|]. intros c. cbn. rewrite !elem_of_cons. naive_solver.
  - destruct (IH p) as (cs & Hs & Hc); [by rewrite list_lookup_insert_ne|done|].
    exists cs. split; [done|]. intros c Hin. cbn. apply elem_of_cons. eauto.
Qed.

Definition good (n : Z) (c : Core * Core) : Prop := core_wf c.1 ∧ num_shards c.1 = n.

Lemma hpath_good named x ss y :
  hpath x ss y → consistent x.1 → Forall (thread_ok named x.1) x.2 →
  ∀ s, s ∈ ss → good (num_shards (store x.1)) (stores s).
Proof.
  induction 1 as [x|x y z ss Hxy _ IH]; intros Hok Hts s; [by intros ?%elem_of_nil|].
  rewrite elem_of_cons. intros [->|Hin]; [split; [apply (ok_wf _ Hok)|done]|].
  destruct (hstep_ok named x y Hxy Hok Hts) as (Hok' & Hts' & Hn). rewrite <- Hn. by apply IH.
Qed.

(** ** Parts of a thread *)

(** The part [p] of a thread yields [a] having seen [cs] only as in [Q]. *)
Definition sees {A : Type} (p : Prog A) (Q : list (Core * Core) → A → Prop) : Prop :=
  ∀ k cs reply, saw (p k) cs reply →
    ∃ cs1 cs2 a, cs = cs1 ++ cs2 ∧ Q cs1 a ∧ saw (k a) cs2 reply.

Lemma sees_ret {A : Type} (a : A) (Q : list (Core * Core) → A → Prop) : Q [] a → sees (mret a) Q.
Proof. intros HQ k cs reply Hs. by exists [], cs, a. Qed.

Lemma sees_mono {A : Type} (p : Prog A) (Q Q' : list (Core * Core) → A → Prop) :
  sees p Q → (∀ cs a, Q cs a → Q' cs a) → sees p Q'.
Proof. intros Hp HQ k cs reply Hs. destruct (Hp k cs reply Hs) as (cs1 & cs2 & a & ? & ? & ?). eauto 10. Qed.

Lemma sees_section {A : Type} (m : M A) (Q : list (Core * Core) → A → Prop) :
  (∀ c, Q [(c, (m c).2)] (m c).1) → sees (section m) Q.
Proof. intros HQ k cs reply Hs. inversion Hs as [|? c cs' ? Hs']; subst. by exists [(c, (m c).2)], cs', (m c).1. Qed.

Lemma sees_bind {A B : Type} (p : Prog A) (f : A → Prog B) (Q : list (Core * Core) → B → Prop) :
  sees p (λ cs a, sees (f a) (λ cs' b, Q (cs ++ cs') b)) → sees (a ← p; f a) Q.
Proof.
  intros Hp k cs reply Hs. destruct (Hp _ _ _ Hs) as (cs1 & cs2 & a & -> & Hf & Hs2).
  destruct (Hf _ _ _ Hs2) as (cs3 & cs4 & b & -> & HQ & Hs4). exists (cs1 ++ cs3), cs4, b.
  by rewrite app_assoc.
Qed.

(** A loop, with an invariant of what it has visited, seen and accumulated. *)
Lemma sees_pfold {A B : Type} (I : list A → list (Core * Core) → B → Prop) (f : B → A → Prog B) b l :
  I [] [] b →
  (∀ past x rest cs b, l = past ++ x :: rest → I past cs b →
     sees (f b x) (λ cs' b', I (past ++ [x]) (cs ++ cs') b')) →
  sees (pfold f b l) (I l).
Proof.
  intros Hb Hf. cut (∀ past rest cs b, l = past ++ rest → I past cs b →
                       sees (pfold f b rest) (λ cs' b', I l (cs ++ cs') b')).
  { intros H. by apply (H [] l []). }
  intros past rest. revert past. induction rest as [|x rest IH]; intros past cs b' -> Hi.
  - apply sees_ret. by rewrite !app_nil_r.
  - apply sees_bind. eapply sees_mono; [by eapply Hf|]. intros cs1 b1 Hi1. cbv beta in Hi1.
    eapply sees_mono; [apply (IH (past ++ [x]) (cs ++ cs1)); [|done]|].
    + by rewrite <- app_assoc.
    + intros cs2 b2. cbv beta. by rewrite app_assoc.
Qed.

(** ** A walk *)

(** The entries [es] were found in the stores [cs], once for each key in [V]. *)
Record swept (cs : list (Core * Core)) (V : bytes → Prop) (es : list (bytes * Entry)) : Prop := {
  swept_from k e : (k, e) ∈ es → V k ∧ ∃ c, c ∈ cs ∧ lookup_entry c.1 k = Some e;
  swept_all k : V k → ∃ c, c ∈ cs ∧ ∀ e, lookup_entry c.1 k = Some e → (k, e) ∈ es;
  swept_once : NoDup es.*1
}.

Lemma swept_nil cs : swept cs (λ _, False) [].
Proof. split; [by intros k e ?%elem_of_nil|done|constructor]. Qed.

Lemma swept_weaken cs cs' V V' es :
  swept cs V es → (∀ c, c ∈ cs → c ∈ cs') → (∀ k, V k ↔ V' k) → swept cs' V' es.
Proof.
  intros [Hf Ha Ho] Hc HV. split; [| |done].
  - intros k e Hin. destruct (Hf k e Hin) as (Hk & c & ? & ?). split; [by apply HV|eauto].
  - intros k Hk%HV. destruct (Ha k Hk) as (c & ? & ?). eauto.
Qed.

Lemma swept_app cs cs' V V' es es' :
  swept cs V es → swept cs' V' es' → (∀ k, V k → V' k → False) →
  swept (cs ++ cs') (λ k, V k ∨ V' k) (es ++ es').
Proof.
  intros [Hf Ha Ho] [Hf' Ha' Ho'] Hd. split.
  - intros k e [Hin|Hin]%elem_of_app.
    + destruct (Hf k e Hin) as (? & c & ? & ?). split; [by left|]. exists c. split; [|done]. apply elem_of_app. by left.
    + destruct (Hf' k e Hin) as (? & c & ? & ?). split; [by right|]. exists c. split; [|done]. apply elem_of_app. by right.
  - intros k [Hk|Hk].
    + destruct (Ha k Hk) as (c & ? & Hc). exists c. split; [apply elem_of_app; by left|]. intros e He.
      apply elem_of_app. left. auto.
    + destruct (Ha' k Hk) as (c & ? & Hc). exists c. split; [apply elem_of_app; by right|]. intros e He.
      apply elem_of_app. right. auto.
  - rewrite fmap_app. apply NoDup_app. split_and!; [done| |done].
    intros k ([k1 e1] & -> & Hin)%list_elem_of_fmap ([k2 e2] & Hk & Hin')%list_elem_of_fmap. cbn in *. subst.
    destruct (Hf _ _ Hin) as [? _], (Hf' _ _ Hin') as [? _]. eauto.
Qed.

Context (HP : PlatformOk P) (HD : PartsOk D).

(** One part of one shard. *)
Lemma swept_part n i b c :
  good n c →
  swept [c] (λ k, shard_index n k = i ∧ part k = b) (map_iter (part_of b (shard_at c.1 i))).
Proof.
  destruct c as [c c']. cbn [fst]. intros [Hwf <-]. cbn [fst] in *. assert (∀ k e, (k, e) ∈ map_iter (part_of b (shard_at c i)) ↔
                             shard_at c i !! k = Some e ∧ part k = b) as Hin.
  { intros k e. rewrite elem_of_map_iter by done. apply map_lookup_filter_Some. }
  split.
  - intros k e [He Hb]%Hin. unfold shard_at in He. destruct (shards c !! i) as [m|] eqn:Hm; [|done].
    split; [split; [by apply (wf_placed c Hwf i m k); eauto|done]|]. exists (c, c').
    split; [by apply list_elem_of_singleton|]. by eapply lookup_entry_placed.
  - intros k [<- Hb]. exists (c, c'). split; [by apply list_elem_of_singleton|]. intros e He. by apply Hin.
  - by apply NoDup_map_iter.
Qed.

(** One more piece, told from those before it by [at_]. *)
Lemma swept_more {A : Type} (l past rest : list A) (x : A) (at_ : bytes → A) (W : bytes → Prop) cs cs' es es' :
  NoDup l → l = past ++ x :: rest →
  swept cs (λ k, W k ∧ at_ k ∈ past) es → swept cs' (λ k, W k ∧ at_ k = x) es' →
  swept (cs ++ cs') (λ k, W k ∧ at_ k ∈ past ++ [x]) (es ++ es').
Proof.
  intros Hnd -> Hs Hs'. eapply swept_weaken; [apply (swept_app _ _ _ _ _ _ Hs Hs')|done|].
  - intros k [_ Hk] [_ <-]. apply NoDup_app in Hnd as (_ & Hd & _). apply (Hd _ Hk). apply elem_of_cons. by left.
  - intros k. rewrite elem_of_app, list_elem_of_singleton. naive_solver.
Qed.

Lemma swept_none {A : Type} (at_ : bytes → A) (W : bytes → Prop) : swept [] (λ k, W k ∧ at_ k ∈ []) [].
Proof. eapply swept_weaken; [apply (swept_nil [])|done|]. intros k. split; [done|]. by intros [_ ?%elem_of_nil]. Qed.

(** All parts of one shard. *)
Lemma sees_iter n i :
  sees (iter_proc i) (λ cs es, Forall (good n) cs → swept cs (λ k, shard_index n k = i) es).
Proof.
  eapply sees_mono.
  - apply (sees_pfold (λ past cs es, Forall (good n) cs → swept cs (λ k, shard_index n k = i ∧ part k ∈ past) es)).
    + intros _. apply swept_none.
    + intros past b rest cs es Hl Hi. apply sees_bind, sees_section. intros c. apply sees_ret.
      intros [Hcs [Hc _]%Forall_cons]%Forall_app.
      eapply swept_more; [apply NoDup_seq|exact Hl|by apply Hi|by apply swept_part].
  - intros cs es Hs Hg. eapply swept_weaken; [by apply Hs|done|]. intros k. cbv beta. rewrite elem_of_seq.
    pose proof (part_lt k). naive_solver lia.
Qed.

(** All shards: what is done with the entries of one shard after the other is what would be
    done with all of them. *)
Lemma sees_each {A : Type} (p : A → nat → Prog A) (f : A → list (bytes * Entry) → A) a n :
  0 < n → (∀ a, f a [] = a) → (∀ a es es', f (f a es) es' = f a (es ++ es')) →
  (∀ a i, sees (p a i) (λ cs a', Forall (good n) cs →
                          ∃ es, swept cs (λ k, shard_index n k = i) es ∧ a' = f a es)) →
  sees (each_shard p a) (λ cs a', Forall (good n) cs → ∃ es, swept cs (λ _, True) es ∧ a' = f a es).
Proof.
  intros Hn Hf0 Hf Hp. unfold each_shard. apply sees_bind, sees_section. intros c0. cbn [gets fst].
  destruct (decide (num_shards c0 = n)) as [->|Hne].
  2:{ eapply sees_mono; [apply (sees_pfold (λ _ _ _, True))|]; [done| |].
      - intros. eapply sees_mono; [apply Hp|]. done.
      - intros cs a' _ [[_ ?] _]%Forall_cons. done. }
  eapply sees_mono.
  - apply (sees_pfold (λ past cs a', Forall (good n) cs →
             ∃ es, swept cs (λ k, True ∧ shard_index n k ∈ past) es ∧ a' = f a es)).
    + intros _. exists []. split; [apply swept_none|done].
    + intros past i rest cs a1 Hl Hi. eapply sees_mono; [apply Hp|]. intros cs' a2 H2 [Hg Hg']%Forall_app.
      destruct (Hi Hg) as (es & Hs & ->), (H2 Hg') as (es' & Hs' & ->). exists (es ++ es'). split; [|done].
      eapply swept_more; [apply NoDup_seq|exact Hl|done|]. eapply swept_weaken; [exact Hs'|done|]. naive_solver.
  - intros cs a' Hs [_ Hg]%Forall_cons. destruct (Hs Hg) as (es & Hes & ->). exists es. split; [|done].
    eapply swept_weaken; [exact Hes| |].
    + intros c Hc. apply elem_of_cons. by right.
    + intros k. split; [done|]. intros _. split; [done|]. apply elem_of_seq. unfold shard_index.
      pose proof (Z.mod_pos_bound (ahash k) n Hn). lia.
Qed.

Lemma sees_each_entries {A : Type} (f : A → list (bytes * Entry) → A) a n :
  0 < n → (∀ a, f a [] = a) → (∀ a es es', f (f a es) es' = f a (es ++ es')) →
  sees (each_shard (λ a i, entries ← iter_proc i; mret (f a entries)) a)
    (λ cs a', Forall (good n) cs → ∃ es, swept cs (λ _, True) es ∧ a' = f a es).
Proof.
  intros Hn Hf0 Hf. apply sees_each; [done..|]. intros a' i. apply sees_bind.
  eapply sees_mono; [apply (sees_iter n)|]. intros cs es Hs. apply sees_ret. rewrite app_nil_r. eauto.
Qed.

Lemma sees_keys now n :
  0 < n →
  sees (keys_prog now) (λ cs ks, Forall (good n) cs →
    ∃ es, swept cs (λ _, True) es ∧ ks = (filter (λ kv, expired now kv.2 = false) es).*1).
Proof.
  intros Hn. eapply sees_mono.
  - apply (sees_each_entries (λ result es, result ++ (filter (λ kv, expired now kv.2 = false) es).*1) [] n); [done|..].
    + intros a. apply app_nil_r.
    + intros a es es'. by rewrite filter_app, fmap_app, app_assoc.
  - intros cs ks Hs Hg. exact (Hs Hg).
Qed.

Lemma sees_len n :
  0 < n → sees len_prog (λ cs m, Forall (good n) cs → ∃ es, swept cs (λ _, True) es ∧ m = len es).
Proof.
  intros Hn. eapply sees_mono; [|intros cs m Hs Hg; exact (Hs Hg)].
  apply (sees_each _ (λ m es, m + len es) 0 n); [done|..].
  - intros m. unfold len. cbn. lia.
  - intros m es es'. rewrite len_app. lia.
  - intros m i. eapply sees_mono.
    + apply (sees_pfold (λ past cs m', Forall (good n) cs →
               ∃ es, swept cs (λ k, shard_index n k = i ∧ part k ∈ past) es ∧ m' = m + len es)).
      * intros _. exists []. split; [apply swept_none|unfold len; cbn; lia].
      * intros past b rest cs m' Hl Hi. apply sees_bind, sees_section. intros c. apply sees_ret.
        intros [Hcs [Hc _]%Forall_cons]%Forall_app. destruct (Hi Hcs) as (es & Hes & ->).
        exists (es ++ map_iter (part_of b (shard_at c i))). split.
        -- eapply swept_more; [apply NoDup_seq|exact Hl|done|by apply swept_part].
        -- cbn [gets fst]. rewrite (size_iter HP), len_app. unfold len. lia.
    + intros cs m' Hs Hg. destruct (Hs Hg) as (es & Hes & ->). exists es. split; [|done].
      eapply swept_weaken; [exact Hes|done|]. intros k. cbv beta. rewrite elem_of_seq.
      pose proof (part_lt k). naive_solver lia.
Qed.

(** ** A page of [SCAN] *)

(** The key was in one of the stores with an entry the scan wants. *)
Definition found (now : Z) (pattern : option bytes) (cs : list (Core * Core)) (k : bytes) : Prop :=
  ∃ c e, c ∈ cs ∧ lookup_entry c.1 k = Some e ∧ wanted now pattern (k, e) = true.

Lemma found_app now pattern cs cs' k :
  found now pattern cs k ∨ found now pattern cs' k → found now pattern (cs ++ cs') k.
Proof. intros [(c & e & ? & ?)|(c & e & ? & ?)]; exists c, e; (split; [|done]); apply elem_of_app; auto. Qed.

Lemma swept_accept now pattern cs V es l :
  swept cs V es → l `sublist_of` es →
  NoDup (accept now pattern l) ∧ ∀ k, k ∈ accept now pattern l → V k ∧ found now pattern cs k.
Proof.
  intros [Hf _ Ho] Hl. split.
  - eapply sublist_NoDup; [exact Ho|]. apply fmap_sublist. etrans; [apply sublist_filter|exact Hl].
  - intros k (e & He & Hw)%elem_of_accept. destruct (Hf k e) as (HV & c & Hc & Hk); [by eapply elem_of_sublist|].
    split; [done|]. by exists c, e.
Qed.

Lemma sees_scan_shards count now pattern n shard pos todo result checked :
  0 ≤ shard → len result ≤ count →
  sees (scan_shards_prog count now pattern n shard pos todo result checked)
    (λ cs r, Forall (good n) cs →
       ∃ page, r.2 = result ++ page ∧ NoDup page ∧
         ∀ k, k ∈ page → shard ≤ Z.of_nat (shard_index n k) ∧ found now pattern cs k).
Proof.
  revert shard pos result checked. induction todo as [|todo IH]; intros shard pos result checked Hs Hc.
  { apply sees_ret. intros _. exists []. rewrite app_nil_r. split_and!; [done|constructor|by intros k ?%elem_of_nil]. }
  cbn [scan_shards_prog]. apply sees_bind. eapply sees_mono; [apply (sees_iter n)|]. intros cs es Hes.
  pose proof (scan_entries_spec count now pattern n shard (len es) pos (drop (Z.to_nat pos) es) result checked Hc) as He.
  destruct (scan_entries _ _ _ _ _ _ _ _ _ _) as [[cur res]|[res chk]].
  - destruct He as (j & _ & -> & _). apply sees_ret. rewrite app_nil_r. intros Hg. eexists. split; [done|].
    destruct (swept_accept now pattern cs _ es (take j (drop (Z.to_nat pos) es)) (Hes Hg)) as [Hn Hk].
    { etrans; [apply sublist_take|apply sublist_drop]. }
    split; [done|]. intros k Hin. destruct (Hk k Hin) as [Hi ?]. split; [lia|done].
  - destruct He as (-> & _ & Hlen). eapply sees_mono; [apply (IH (shard + 1) 0); [lia|done]|].
    intros cs' r Hr [Hg Hg']%Forall_app. destruct (Hr Hg') as (page & -> & Hnd & Hpage).
    destruct (swept_accept now pattern cs _ es (drop (Z.to_nat pos) es) (Hes Hg)) as [Hn Hk]; [apply sublist_drop|].
    eexists. rewrite <- app_assoc. split; [done|]. split.
    + apply NoDup_app. split_and!; [done| |done]. intros k [Hi _]%Hk [Hi' _]%Hpage. lia.
    + intros k [[Hi ?]%Hk|[Hi ?]%Hpage]%elem_of_app; (split; [lia|]); apply found_app; auto.
Qed.

Lemma sees_scan cursor count_hint pattern now n :
  0 ≤ cursor →
  sees (scan_prog cursor count_hint pattern now)
    (λ cs r, Forall (good n) cs → NoDup r.2 ∧ ∀ k, k ∈ r.2 → found now pattern cs k).
Proof.
  intros Hc. unfold scan_prog. apply sees_bind, sees_section. intros c0. cbn [gets fst].
  assert (∀ cs, Forall (good n) ((c0, c0) :: cs) → n = num_shards c0) as Hn by (by intros cs [[_ ?] _]%Forall_cons).
  destruct (num_shards c0 <=? _).
  - apply sees_ret. intros _. split; [constructor|]. by intros k ?%elem_of_nil.
  - eapply sees_mono; [apply sees_scan_shards|].
    + apply Z.div_pos; [done|]. unfold CURSOR_STRIDE. lia.
    + unfold len. cbn. lia.
    + intros cs r Hr Hg. pose proof (Hn _ Hg). subst n. apply Forall_cons in Hg as Hg2. destruct Hg2 as [_ Hg2].
      destruct (Hr Hg2) as (page & -> & Hnd & Hp). split; [done|]. intros k [_ Hk]%Hp. by apply (found_app _ _ [(c0, c0)]); right.
Qed.

(** ** Commands beside each other *)

(** A run [ss] of the commands [ts] from [s], at whose start the thread [j] is [p] and at whose
    end it has replied. *)
Definition ran (s : HCore) (ts : list HThread) (ss : list (HCore * HCore)) (j : nat) (p : Prog bytes) (reply : bytes) : Prop :=
  consistent s ∧ Forall begins ts ∧ ts !! j = Some (Plain (thread p)) ∧
  ∃ y, hpath (s, ts) ss y ∧ y.2 !! j = Some (Plain (Done reply)).

Lemma ran_sees s ts ss j {A : Type} (p : Prog A) (f : A → bytes) (Q : list (Core * Core) → A → Prop) reply :
  ran s ts ss j (a ← p; mret (f a)) reply →
  sees p (λ cs a, Forall (good (num_shards (store s))) cs → Q cs a) →
  ∃ cs a, Q cs a ∧ reply = f a ∧ ∀ c, c ∈ cs → c ∈ stores <$> ss.
Proof.
  intros (Hok & Hts & Hj & y & Hy & Hend) Hp.
  destruct (hpath_saw _ _ _ _ _ _ Hy Hj Hend) as (cs & Hs & Hc).
  destruct (Hp _ _ _ Hs) as (cs1 & cs2 & a & -> & HQ & Hs2). inversion Hs2; subst.
  rewrite app_nil_r in Hc. exists cs1, a. split_and!; [|done|done]. apply HQ, Forall_forall. intros c (x & -> & Hx)%Hc%list_elem_of_fmap.
  by apply (hpath_good (deletes ts) _ _ _ Hy Hok (begins_ok ts s Hts)).
Qed.

Lemma moment ss c : c ∈ stores <$> ss → ∃ x, c = stores x ∧ x.1 ∈ ss.*1 ∧ x.2 ∈ ss.*2.
Proof.
  intros (x & -> & Hx)%list_elem_of_fmap. exists x. split_and!; [done|by apply list_elem_of_fmap_2..].
Qed.

Lemma ran_pos s ts ss j p reply : ran s ts ss j p reply → 0 < num_shards (store s).
Proof. intros (Hok & _). apply (ok_wf s Hok). Qed.

(** The key is stored, and has not expired at [now]. *)
Definition present (s : HCore) (k : bytes) : Prop := is_Some (lookup_entry (store s) k).
Definition live (now : Z) (s : HCore) (k : bytes) : Prop := is_Some (unexpired now (lookup_entry (store s) k)).

(** C14: [KEYS] beside other commands.  However its sections interleave with those of other
    commands - writes, deletions, [HSET]s, [FLUSHDB], eviction and expiry among them - the
    reply of [KEYS] lists no key twice, every key that was live throughout, and only keys that
    were live at some moment of the run. *)
Theorem keys_weakly_consistent s ts ss j w now reply :
  ran s ts ss j (sweep_proc w (W_keys now)) reply →
  ∃ ks, reply = write_array w ks ∧ NoDup ks ∧
    (∀ k, k ∈ ks → ∃ x, x ∈ ss.*1 ∧ live now x k) ∧
    (∀ k, (∀ x, x ∈ ss.*1 → live now x k) → k ∈ ks).
Proof.
  intros Hr. destruct (ran_sees s ts ss j (keys_prog now) (write_array w) _ reply Hr
                         (sees_keys now _ (ran_pos _ _ _ _ _ _ Hr))) as (cs & ks & (es & Hes & ->) & -> & Hc).
  destruct Hes as [Hf Ha Ho]. exists ((filter (λ kv, expired now kv.2 = false) es).*1). split_and!; [done|..].
  - eapply sublist_NoDup; [exact Ho|]. apply fmap_sublist, sublist_filter.
  - intros k ([k' e] & -> & [Hx Hin]%list_elem_of_filter)%list_elem_of_fmap. cbn in *.
    destruct (Hf k' e Hin) as (_ & c & (x & -> & Hin')%Hc%moment & He). exists x.1. split; [apply Hin'|].
    cbn [stores fst] in He.
    unfold live. rewrite He. cbn. rewrite Hx. eauto.
  - intros k Hk. destruct (Ha k I) as (c & (x & -> & Hin')%Hc%moment & He).
    destruct (Hk x.1 (proj1 Hin')) as [e [Hx Hl]%unexpired_Some]. apply list_elem_of_fmap. exists (k, e).
    split; [done|]. apply list_elem_of_filter. split; [done|by apply He].
Qed.

(** [DBSIZE] beside other commands counts each key at most once, every key that was stored
    throughout, and only keys that were stored at some moment. *)
Theorem dbsize_weakly_consistent s ts ss j w reply :
  ran s ts ss j (sweep_proc w W_dbsize) reply →
  ∃ ks, reply = write_integer w (len ks) ∧ NoDup ks ∧
    (∀ k, k ∈ ks → ∃ x, x ∈ ss.*1 ∧ present x k) ∧
    (∀ k, (∀ x, x ∈ ss.*1 → present x k) → k ∈ ks).
Proof.
  intros Hr. destruct (ran_sees s ts ss j len_prog (write_integer w) _ reply Hr
                         (sees_len _ (ran_pos _ _ _ _ _ _ Hr))) as (cs & n & (es & Hes & ->) & -> & Hc).
  destruct Hes as [Hf Ha Ho]. exists es.*1. split_and!; [unfold len; by rewrite length_fmap|done|..].
  - intros k ([k' e] & -> & Hin)%list_elem_of_fmap.
    destruct (Hf k' e Hin) as (_ & c & (x & -> & Hin')%Hc%moment & He). exists x.1. split; [apply Hin'|].
    cbn [stores fst] in He.
    unfold present. cbn. eauto.
  - intros k Hk. destruct (Ha k I) as (c & (x & -> & Hin')%Hc%moment & He).
    destruct (Hk x.1 (proj1 Hin')) as [e Hl]. apply list_elem_of_fmap. exists (k, e). split; [done|by apply He].
Qed.

(** A page of [SCAN] beside other commands: no key twice, and only keys that were stored, live
    and matching at some moment of the call. *)
Theorem scan_weakly_sound s ts ss j w now name c opts cursor count_hint pattern reply :
  parse_u64 c = Some cursor → parse_scan_opts opts 10 None = Ok (count_hint, pattern) →
  ran s ts ss j (sweep_proc w (W_scan (name :: c :: opts) now)) reply →
  ∃ next ks,
    reply = fold_left write_bulk_string ks
              (write_array_header (write_bulk_string (write_array_header w 2) (fmt_unsigned next)) (len ks)) ∧
    NoDup ks ∧
    ∀ k, k ∈ ks → ∃ x e, x ∈ ss.*1 ∧ lookup_entry (store x) k = Some e ∧ wanted now pattern (k, e) = true.
Proof.
  intros Hp Ho Hr. assert (0 ≤ cursor) as Hpos.
  { destruct c as [|b c]; [done|]. apply parse_u64_loop_spec in Hp as (_ & _ & Hu); [apply Hu|done]. }
  unfold sweep_proc, scan_proc in Hr. rewrite Hp, Ho in Hr.
  destruct (ran_sees s ts ss j (scan_prog cursor count_hint pattern now) _ _ reply Hr
              (sees_scan cursor count_hint pattern now _ Hpos)) as (cs & [next ks] & [Hn Hk] & -> & Hc).
  exists next, ks. split_and!; [done..|]. intros k Hin. destruct (Hk k Hin) as (c' & e & (x & -> & Hx)%Hc%moment & He & Hw).
  exists x.1, e. split_and!; [apply Hx|exact He|exact Hw].
Qed.

(** ** [FLUSHDB] *)

(** The key was removed at some step, or was not there. *)
Definition cleared (cs : list (Core * Core)) (k : bytes) : Prop := ∃ c, c ∈ cs ∧ lookup_entry c.2 k = None.

Lemma cleared_app cs cs' k : cleared cs k ∨ cleared cs' k → cleared (cs ++ cs') k.
Proof. intros [(c & ? & ?)|(c & ? & ?)]; exists c; (split; [|done]); apply elem_of_app; auto. Qed.

Lemma clear_part_removes n i b k c :
  good n c → shard_index n k = i → part k = b → lookup_entry (clear_part i b c.1).2 k = None.
Proof.
  intros [Hwf <-] <- <-. unfold lookup_entry. cbn. unfold shard_of. cbn.
  change (shard_index (num_shards c.1) k) with (shard_of c.1 k). unfold shard_at at 1. cbn.
  rewrite list_lookup_insert_eq by (by apply shard_of_lt). cbn. apply map_lookup_filter_None. right.
  intros e _ Hne. by apply Hne.
Qed.

(** Each part of each shard is empty once it has been cleared. *)
Lemma sees_clear n : 0 < n → sees clear_prog (λ cs _, Forall (good n) cs → ∀ k, cleared cs k).
Proof.
  intros Hn. unfold clear_prog, each_shard. apply sees_bind, sees_section. intros c0. cbn [gets fst snd].
  eapply sees_mono.
  - apply (sees_pfold (λ past cs _, Forall (good n) cs → ∀ k, shard_index n k ∈ past → cleared cs k)).
    + by intros _ k ?%elem_of_nil.
    + intros past i rest cs [] _ Hi. eapply sees_mono.
      * apply (sees_pfold (λ past cs _, Forall (good n) cs → ∀ k, shard_index n k = i → part k ∈ past → cleared cs k)).
        -- by intros _ k _ ?%elem_of_nil.
        -- intros past' b rest' cs' [] _ Hb. apply sees_section. intros c [Hg [Hc _]%Forall_cons]%Forall_app k Hk.
           rewrite elem_of_app, list_elem_of_singleton. intros [?|?]; apply cleared_app; [left; by apply Hb|right].
           eexists. split; [by apply list_elem_of_singleton|]. by apply (clear_part_removes n i b k _ Hc).
      * intros cs' [] Hall [Hg Hg']%Forall_app k. rewrite elem_of_app, list_elem_of_singleton.
        intros [?|?]; apply cleared_app; [left; by apply Hi|right]. apply Hall; [done..|]. apply elem_of_seq.
        pose proof (part_lt k). lia.
  - intros cs [] Hall [[_ Hc] Hg]%Forall_cons k. cbn [fst] in Hc. apply (cleared_app [_]). right. apply Hall; [done|].
    apply elem_of_seq. unfold shard_index. rewrite Hc. pose proof (Z.mod_pos_bound (ahash k) n Hn). lia.
Qed.

(** C15: [FLUSHDB] beside other commands.  In any interleaving of its sections with those of
    writes, [HSET]s, [HDEL]s, deletions, eviction, expiry and other walks, it replies [OK], and
    every key was missing from the store at some moment between its call and its reply: what
    is stored afterwards was written while it ran. *)
Theorem flush_clears_all s ts ss j w reply :
  ran s ts ss j (sweep_proc w W_flush) reply →
  reply = write_simple_string w (bs "OK") ∧ ∀ k, ∃ x, x ∈ ss.*2 ∧ ¬ present x k.
Proof.
  intros Hr. pose proof (ran_pos _ _ _ _ _ _ Hr) as Hn.
  destruct (ran_sees s ts ss j (now ← section get_timestamp; actual_memory ← live_prog now; clear_prog;;
              section (modify (λ c, set_memory (if MEMORY_USED c <=? actual_memory then 0
                                                else MEMORY_USED c - actual_memory) c)))
              (λ _, write_simple_string w (bs "OK")) (λ cs _, ∀ k, cleared cs k) reply Hr) as (cs & [] & Hall & -> & Hc).
  - apply sees_bind, sees_section. intros c. apply sees_bind. eapply (sees_mono _ (λ _ _, True)).
    { eapply sees_mono; [apply (sees_each_entries _ 0 _ Hn)|done]; [done|].
      intros a es es'. by rewrite filter_app, fold_left_app. }
    intros cs1 n _. apply sees_bind. eapply sees_mono; [apply (sees_clear _ Hn)|]. intros cs2 [] H2.
    apply sees_section. intros c' [_ [_ [Hg _]%Forall_app]%Forall_app]%Forall_app k.
    apply cleared_app; right; apply cleared_app; right; apply cleared_app; left. by apply H2.
  - split; [done|]. intros k. destruct (Hall k) as (c & (x & -> & Hx)%Hc%moment & Hk). exists x.2.
    split; [apply Hx|]. intros [e He]. cbn in Hk. congruence.
Qed.
End Views.

(** ** Examples *)

Section Examples.
#[local] Existing Instance demo_platform.
#[local] Existing Instance demo_parts.

(** The states a schedule goes through. *)
Fixpoint hash_trace {CFG : HasConfig} (schedule : list nat) (s : HCore) (ts : list HThread) : list (HCore * HCore) :=
  match schedule with
  | [] => []
  | i :: schedule =>
      match ts !! i with
      | Some t =>
          if blocked ts t s then hash_trace schedule s ts
          else let r := thread_step t s in (s, r.2) :: hash_trace schedule r.2 (<[i:=r.1]> ts)
      | None => hash_trace schedule s ts
      end
  end.

Lemma hash_trace_path {CFG : HasConfig} schedule s ts :
  hpath (s, ts) (hash_trace schedule s ts) (hash_run schedule s ts).
Proof.
  revert s ts. induction schedule as [|i schedule IH]; intros s ts; cbn; [constructor|].
  destruct (ts !! i) as [t|] eqn:Hi; [|apply IH]. destruct (blocked ts t s) eqn:Hb; [apply IH|].
  eapply (hpath_cons (s, ts) (_, _)); [by apply hstep_at|]. apply IH.
Qed.

Definition set_of {CFG : HasConfig} (key value : string) : HThread :=
  Plain (thread (handler_proc H_set [bs "SET"; bs key; bs value] [] 1000)).

Section Default.
#[local] Existing Instance demo_default.

(** [KEYS] on a store with the keys [a], [bb] and [c], while a client deletes [bb] and another
    sets [dd]. *)
Definition three_keys : HCore :=
  (hash_run (concat (replicate 5 [0; 1; 2]%nat)) (no_hashes (new 2)) [set_of "a" "1"; set_of "bb" "2"; set_of "c" "3"]).1.
Definition keys_threads : list HThread :=
  [Plain (thread (sweep_proc [] (W_keys 1000)));
   Plain (thread (handler_proc H_del [bs "DEL"; bs "bb"] [] 1000)); set_of "dd" "4"].
Definition keys_schedule : list nat := [0; 0; 1; 1; 2; 0; 2; 2; 0; 2; 0; 0; 0]%nat.

Lemma three_keys_consistent : consistent three_keys.
Proof.
  refine (proj1 (hsteps_ok (λ _ _, False) (no_hashes (new 2), [set_of "a" "1"; set_of "bb" "2"; set_of "c" "3"])
                   (hash_run _ _ _) (hash_run_steps _ _ _) _ _)).
  - by apply consistent_new.
  - cbn [fst snd]. repeat (apply List.Forall_cons; [apply command_tame; constructor|]). apply List.Forall_nil.
Qed.

Lemma keys_weakly_consistent_witness :
  ∃ ks, write_array [] [bs "bb"; bs "c"; bs "a"] = write_array [] ks ∧ NoDup ks ∧
    (∀ k, k ∈ ks → ∃ x, x ∈ (hash_trace keys_schedule three_keys keys_threads).*1 ∧ live 1000 x k) ∧
    (∀ k, (∀ x, x ∈ (hash_trace keys_schedule three_keys keys_threads).*1 → live 1000 x k) → k ∈ ks).
Proof.
  apply (keys_weakly_consistent demo_platform_ok demo_parts_ok three_keys keys_threads
           (hash_trace keys_schedule three_keys keys_threads) 0%nat [] 1000).
  split_and!.
  - exact three_keys_consistent.
  - apply List.Forall_cons; [apply begins_sweep|].
    repeat (apply List.Forall_cons; [apply begins_plain, command_handler|]). apply List.Forall_nil.
  - reflexivity.
  - exists (hash_run keys_schedule three_keys keys_threads). split; [apply hash_trace_path|vm_compute; reflexivity].
Defined.

(** [FLUSHDB] on that store, while a client sets [dd]. *)
Definition flush_threads : list HThread := [Plain (thread (sweep_proc [] W_flush)); set_of "dd" "4"].
Definition flush_schedule : list nat := concat (replicate 12 [0; 0; 1]%nat).

Lemma flush_clears_all_witness :
  write_simple_string [] (bs "OK") = write_simple_string [] (bs "OK") ∧
  ∀ k, ∃ x, x ∈ (hash_trace flush_schedule three_keys flush_threads).*2 ∧ ¬ present x k.
Proof.
  apply (flush_clears_all demo_platform_ok demo_parts_ok three_keys flush_threads
           (hash_trace flush_schedule three_keys flush_threads) 0%nat []).
  split_and!.
  - exact three_keys_consistent.
  - apply List.Forall_cons; [apply begins_sweep|].
    apply List.Forall_cons; [apply begins_plain, command_handler|]. apply List.Forall_nil.
  - reflexivity.
  - exists (hash_run flush_schedule three_keys flush_threads). split; [apply hash_trace_path|vm_compute; reflexivity].
Defined.
End Default.

(** A memory limit of 1000 bytes. *)
Section Limited.
#[local] Existing Instance demo_lru.

Definition flush_and_set : list HThread := [Plain (thread (sweep_proc [] W_flush)); set_of "k" "v"].

(** [SET] first, and [SET] between the sum and the clearing. *)
Definition flush_after : list nat := replicate 8 1%nat ++ replicate 14 0%nat.
Definition flush_around : list nat := replicate 6 0%nat ++ replicate 8 1%nat ++ replicate 8 0%nat.
Definition flushed (schedule : list nat) : list (option bytes) * Z * Z :=
  let r := hash_run schedule (no_hashes (new 2)) flush_and_set in
  (map thread_reply r.2, (store_len (store r.1)).1, MEMORY_USED (store r.1)).

(** [FLUSHDB] can leave [MEMORY_USED] above an empty store.  It sums the sizes of the entries
    first and clears the shards after; an entry stored in between is cleared but not in the
    sum.  One after the other both reply [OK] and the counter is 0; overlapped they reply the
    same and leave the store empty, but the counter keeps the bytes of the lost entry. *)
Theorem flush_leaves_memory :
  let oks := [Some (write_simple_string [] (bs "OK")); Some (write_simple_string [] (bs "OK"))] in
  flushed flush_after = (oks, 0, 0) ∧ flushed flush_around = (oks, 0, entry_size 1 1).
Proof. vm_compute. split; reflexivity. Qed.
End Limited.
End Examples.
