(* ===== verification/SaveRace.v ===== *)
(** * A snapshot taken while other commands run ([src/persistence.rs])

    [save_snapshot_sync] walks the store a part at a time, as the commands of Sweeps.v do, and
    encodes each entry as it comes to it; commands of other threads change the store in
    between.  The file is then no image of the store at any one moment.  Loading it gives
    every key that was live throughout the save, each key with a value and an expiry time it
    had at some moment of the save, and nothing else. *)

From S2P Require Import Prelude Decimal Protocol Config S3Fifo State Store Steps StoreOps StoreSpec.
From S2P Require Import Memory Eviction Handlers HandlerSpec HandlerMem Aof Snapshot.
From S2P Require Import Procs Sweeps ProcLogic Races Hashes SweepViews Demo.

Section Save.
Context {P : Platform} {CFG : HasConfig} {D : Parts} {B : Bincode}.

(** [for entry in shard.iter() { body }], an entry at a time: the entry is read when the body
    comes to it, so the map of a hash is what it is then.  In the code the iterator holds the
    lock of the part meanwhile; here other threads may still change it, and an entry that is
    gone by then is taken as it was found, so every run of the code is a run of the model. *)
Definition visit_entry {A : Type} (f : A → bytes * Entry → A) (a : A) (kv : bytes * Entry) : Prog A :=
  e ← section (gets (λ c, default kv.2 (lookup_entry c kv.1))); mret (f a (kv.1, e)).

Definition visit_proc {A : Type} (f : A → bytes * Entry → A) (a : A) (i : nat) : Prog A :=
  pfold (λ a b,
    entries ← section (gets (λ c, map_iter (part_of b (shard_at c i))));
    pfold (visit_entry f) a entries) a (seq 0 parts).

(** The body of the loop of [save_snapshot_sync]. *)
Definition write_one (now : Z) (r : Result (bytes * Z) bytes) (kv : bytes * Entry) : Result (bytes * Z) bytes :=
  match r with
  | Ok (file, count) => write_entries now [kv] file count
  | Err e => Err e
  end.

(** [save_snapshot_sync] from the time it takes on: the contents of the file it renames into
    place. *)
Definition save_prog (now : Z) : Prog (Result (bytes * Z) bytes) :=
  r ← each_shard (visit_proc (write_one now)) (Ok (snapshot_header now ++ to_le_bytes 8 0, 0));
  mret (snapshot_end now r).

Definition file_of (r : Result (bytes * Z) bytes) : bytes := match r with Ok (file, _) => file | Err e => e end.
Definition save_proc (now : Z) : Prog bytes := r ← save_prog now; mret (file_of r).

Lemma write_one_all now entries file count :
  fold_left (write_one now) entries (Ok (file, count)) = write_entries now entries file count.
Proof.
  revert file count. induction entries as [|[k e] entries IH]; intros file count; [done|]. cbn.
  destruct (expired now e); [apply IH|]. destruct (serialize _); [apply IH|].
  clear IH. by induction entries.
Qed.

(** ** It only reads *)

Definition reads {A : Type} (p : Prog A) : Prop := ∀ k, (∀ a, reader (k a)) → reader (p k).

Lemma reads_ret {A : Type} (a : A) : reads (mret a).
Proof. intros k Hk. apply Hk. Qed.

Lemma reads_gets {A : Type} (f : Core → A) : reads (section (gets f)).
Proof. intros k Hk. constructor; [done|]. intros c. apply Hk. Qed.

Lemma reads_bind {A C : Type} (p : Prog A) (f : A → Prog C) : reads p → (∀ a, reads (f a)) → reads (a ← p; f a).
Proof. intros Hp Hf k Hk. apply Hp. intros a. by apply Hf. Qed.

Lemma reads_pfold {A C : Type} (f : C → A → Prog C) c l : (∀ c x, reads (f c x)) → reads (pfold f c l).
Proof. intros Hf. revert c. induction l as [|x l IH]; intros c; [apply reads_ret|]. by apply reads_bind. Qed.

Lemma save_reads now : reader (thread (save_proc now)).
Proof.
  assert (reads (save_proc now)) as H; [|apply H; by constructor].
  apply reads_bind; [|intros r; apply reads_ret]. apply reads_bind; [|intros r; apply reads_ret].
  apply reads_bind; [apply reads_gets|]. intros n. apply reads_pfold. intros r i. apply reads_pfold. intros r' b.
  apply reads_bind; [apply reads_gets|]. intros es. apply reads_pfold. intros r'' kv.
  apply reads_bind; [apply reads_gets|]. intros e. apply reads_ret.
Qed.

(** ** What it has visited *)

Context (HP : PlatformOk P) (HD : PartsOk D).

(** The entries visited so far, each as it was when the walk came to it. *)
Definition visited (entries past : list (bytes * Entry)) (cs : list (Core * Core)) (es : list (bytes * Entry)) : Prop :=
  es.*1 = past.*1 ∧
  (∀ k e, (k, e) ∈ es → (k, e) ∈ entries ∨ ∃ c, c ∈ cs ∧ lookup_entry c.1 k = Some e) ∧
  (∀ k, k ∈ past.*1 → ∃ c, c ∈ cs ∧ ∀ e, lookup_entry c.1 k = Some e → (k, e) ∈ es).

Lemma visited_more entries past k e cs es c :
  (k, e) ∈ entries → visited entries past cs es →
  visited entries (past ++ [(k, e)]) (cs ++ [c]) (es ++ [(k, default e (lookup_entry c.1 k))]).
Proof.
  intros Hin (Hk & Hf & Ha). split_and!.
  - rewrite !fmap_app, Hk. done.
  - intros k' e' [H|H%list_elem_of_singleton]%elem_of_app.
    + destruct (Hf k' e' H) as [?|(c' & ? & ?)]; [by left|]. right. exists c'. split; [|done]. apply elem_of_app. by left.
    + injection H as -> ->. destruct (lookup_entry c.1 k) as [e1|] eqn:He; [|by left]. right. exists c.
      split; [|done]. apply elem_of_app. right. by apply list_elem_of_singleton.
  - intros k'. rewrite fmap_app. intros [H|H%list_elem_of_singleton]%elem_of_app.
    + destruct (Ha k' H) as (c' & ? & Hc). exists c'. split; [apply elem_of_app; by left|].
      intros e' He. apply elem_of_app. left. auto.
    + cbn in H. subst k'. exists c. split; [apply elem_of_app; right; by apply list_elem_of_singleton|].
      intros e' ->. apply elem_of_app. right. by apply list_elem_of_singleton.
Qed.

Lemma visited_swept c cs V entries es :
  swept [c] V entries → visited entries entries cs es → swept (c :: cs) V es.
Proof.
  intros [Sf Sa So] (Hk & Hf & Ha).
  assert (∀ k e, (k, e) ∈ entries → V k ∧ lookup_entry c.1 k = Some e) as Hc.
  { intros k e Hin. destruct (Sf k e Hin) as (HV & c' & ->%list_elem_of_singleton & He). done. }
  split.
  - intros k e Hin. split.
    + assert (k ∈ entries.*1) as ([k' e'] & -> & Hin')%list_elem_of_fmap.
      { rewrite <- Hk. apply list_elem_of_fmap. by exists (k, e). }
      by apply (Hc k' e').
    + destruct (Hf k e Hin) as [Hin'|(c' & ? & ?)].
      * exists c. split; [apply elem_of_cons; by left|]. by apply Hc.
      * exists c'. split; [apply elem_of_cons; by right|done].
  - intros k HV. destruct (Sa k HV) as (c' & ->%list_elem_of_singleton & Hall).
    destruct (lookup_entry c.1 k) as [e|] eqn:He.
    + destruct (Ha k) as (c' & ? & ?); [apply list_elem_of_fmap; exists (k, e); auto|].
      exists c'. split; [apply elem_of_cons; by right|done].
    + exists c. split; [apply elem_of_cons; by left|]. intros e'. by rewrite He.
  - by rewrite Hk.
Qed.

Lemma sees_entries {A : Type} (f : A → bytes * Entry → A) a c entries :
  sees (pfold (visit_entry f) a entries)
    (λ cs a', ∀ V, swept [c] V entries → ∃ es, swept (c :: cs) V es ∧ a' = fold_left f es a).
Proof.
  eapply sees_mono.
  - apply (sees_pfold (λ past cs a', ∃ es, visited entries past cs es ∧ a' = fold_left f es a)).
    + exists []. split; [|done]. split_and!; [done|by intros k e ?%elem_of_nil|by intros k ?%elem_of_nil].
    + intros past [k e] rest cs a' Hl (es & Hv & ->). apply sees_bind, sees_section. intros c'. apply sees_ret.
      eexists. split; [apply (visited_more entries past k e cs es (c', c')); [|done]|].
      * rewrite Hl. apply elem_of_app. right. apply elem_of_cons. by left.
      * by rewrite fold_left_app.
  - intros cs a' (es & Hv & ->) V Hs. exists es. split; [|done]. by eapply visited_swept.
Qed.

(** A shard. *)
Lemma sees_visit {A : Type} (f : A → bytes * Entry → A) a i n :
  sees (visit_proc f a i)
    (λ cs a', Forall (good n) cs → ∃ es, swept cs (λ k, shard_index n k = i) es ∧ a' = fold_left f es a).
Proof.
  eapply sees_mono.
  - apply (sees_pfold (λ past cs a', Forall (good n) cs →
             ∃ es, swept cs (λ k, shard_index n k = i ∧ part k ∈ past) es ∧ a' = fold_left f es a)).
    + intros _. exists []. split; [apply swept_none|done].
    + intros past b rest cs a' Hl Hi. apply sees_bind, sees_section. intros c. cbn [gets fst snd].
      eapply sees_mono; [apply (sees_entries f a' (c, c))|]. intros cs' a2 Hv [Hg [Hc _]%Forall_cons]%Forall_app.
      destruct (Hi Hg) as (es & Hs & ->), (Hv _ (swept_part HP n i b (c, c) Hc)) as (es' & Hs' & ->).
      exists (es ++ es'). split; [|by rewrite fold_left_app].
      eapply swept_more; [apply NoDup_seq|exact Hl|exact Hs|exact Hs'].
  - intros cs a' Hs Hg. destruct (Hs Hg) as (es & Hes & ->). exists es. split; [|done].
    eapply swept_weaken; [exact Hes|done|]. intros k. cbv beta. rewrite elem_of_seq.
    pose proof (part_lt k). naive_solver lia.
Qed.

(** The file of a save is the file of the entries it visited. *)
Lemma sees_save now n :
  0 < n →
  sees (save_prog now) (λ cs r, Forall (good n) cs → ∃ es, swept cs (λ _, True) es ∧ r = entries_file now es).
Proof.
  intros Hn. apply sees_bind. eapply sees_mono.
  - apply (sees_each _ (λ r es, fold_left (write_one now) es r) _ n Hn); [done| |].
    + intros r es es'. by rewrite fold_left_app.
    + intros r i. apply sees_visit.
  - intros cs r Hs. apply sees_ret. rewrite app_nil_r. intros Hg. destruct (Hs Hg) as (es & Hes & ->).
    exists es. split; [done|]. unfold entries_file. by rewrite write_one_all.
Qed.

Context (HB : BincodeOk B).

(** The file has more bytes than records. *)
Lemma entries_file_length now es :
  ∃ f n, entries_file now es = Ok (f, n) ∧ len (live_entries now es) ≤ len f.
Proof.
  unfold entries_file. rewrite (write_entries_spec HB) by done. cbn [snapshot_end].
  rewrite <- app_assoc, overwrite_mid by done. do 2 eexists. split; [done|]. rewrite !len_app.
  pose proof (len_nonneg (snapshot_header now)). rewrite len_le.
  assert (∀ l, len l ≤ len (concat (map entry_record l))) as Hl.
  { induction l as [|kv l IH]; [done|]. cbn [map concat]. rewrite len_cons, len_app. unfold entry_record at 1.
    rewrite len_app, len_le. pose proof (len_nonneg (encode_entry kv)). lia. }
  specialize (Hl (live_entries now es)). lia.
Qed.

(** C13: a snapshot taken while other commands run.  A save whose walk of the store interleaves in
    any way with writes, deletions, [HSET]s, [HDEL]s, [FLUSHDB], eviction and expiry, where no
    entry stored meanwhile encodes to 4 GiB or more and the file is shorter than [2^64] bytes,
    writes a file that loads at any later time, into an empty store, without an error and,
    under a memory limit, with exact memory accounting.  Every key it restores has a value and an expiry time that the key had
    at some moment of the save, and every key that was stored throughout the save, with an
    entry still live at the time of the load, is restored. *)
Theorem snapshot_beside_writers s ts ss j now file c0 :
  ran s ts ss j (save_proc now) file →
  (∀ x k e, x ∈ ss.*1 → lookup_entry (store x) k = Some e → entry_fits (k, e)) → len file < U64_MOD →
  fresh c0 → now ≤ system_time (ticks c0) →
  let now' := system_time (ticks c0) in
  let r := load_snapshot (Some file) c0 in
  (∃ loaded, r.1 = Ok loaded) ∧ inv r.2 ∧
  ∃ db, sim now' r.2 db ∧
    (∀ k v, db !! k = Some v → ∃ x e, x ∈ ss.*1 ∧ lookup_entry (store x) k = Some e ∧ data e = v) ∧
    (∀ k, (∀ x, x ∈ ss.*1 → live now' x k) → is_Some (db !! k)).
Proof.
  intros Hr Hfit Hlen Hf Hle. cbv zeta.
  destruct (ran_sees s ts ss j (save_prog now) file_of _ file Hr (sees_save now _ (ran_pos _ _ _ _ _ _ Hr)))
    as (cs & res & (es & Hs & ->) & -> & Hc).
  destruct (entries_file_length now es) as (f & n & Hfile & Hn). rewrite Hfile in *. cbn [file_of] in *.
  destruct Hs as [Sf Sa So].
  assert (∀ k e, (k, e) ∈ es → ∃ x, x ∈ ss.*1 ∧ lookup_entry (store x) k = Some e) as Hfrom.
  { intros k e Hin. destruct (Sf k e Hin) as (_ & c & (x & -> & Hx)%Hc%moment & He). exists x.1. split; [apply Hx|done]. }
  assert (Forall entry_fits (live_entries now es)) as Hall.
  { apply Forall_forall. intros [k e] [_ Hin]%elem_of_live_entries. destruct (Hfrom k e Hin) as (x & Hx & He). eauto. }
  destruct (wp_run _ _ _ (wp_load_file HP HB now es c0 f n f [] Hall ltac:(lia) So Hf Hfile (eq_sym (app_nil_r f))))
    as (m & Hi & Hsim & Hend). destruct (Hend eq_refl) as [Hok Htake]. rewrite Htake in Hsim.
  split; [exact Hok|]. split; [exact Hi|]. eexists. split; [exact Hsim|]. split.
  - intros k v (e & [_ Hin]%elem_of_live_entries & _ & ->)%entries_db_elem.
    destruct (Hfrom k e Hin) as (x & ? & ?). eauto.
  - intros k Hk. destruct (Sa k I) as (c & (x & -> & Hx)%Hc%moment & He).
    destruct (Hk x.1 (proj1 Hx)) as [e [Hl Hexp]%unexpired_Some]. specialize (He e Hl). exists (data e).
    apply entries_db_lookup; [by apply NoDup_live_entries| |done]. apply elem_of_live_entries. split; [|done]. cbn.
    destruct (expired now e) eqn:Hx0; [|done]. rewrite expired_past in *. by rewrite (past_mono now (system_time (ticks c0))) in Hexp.
Qed.
End Save.

(** ** An example *)

Section Example.
#[local] Existing Instance demo_platform.
#[local] Existing Instance demo_parts.
#[local] Existing Instance demo_default.
#[local] Existing Instance demo_bincode.

(** A save of the keys [a], [bb] and [c], while a client deletes [bb], another sets [dd] and a
    third adds a field to a hash. *)
Definition save_threads : list HThread :=
  [Plain (thread (save_proc 1000)); Plain (thread (handler_proc H_del [bs "DEL"; bs "bb"] [] 1000));
   set_of "dd" "4"; hset_of "h" "f" "v"].
Definition save_schedule : list nat := concat (replicate 9 [0; 1; 2; 3]%nat).
Definition save_trace : list (HCore * HCore) := hash_trace save_schedule three_keys save_threads.
Definition save_end : HCore * list HThread := hash_run save_schedule three_keys save_threads.
Definition saved_bytes : bytes :=
  match save_end.2 !! 0%nat with Some (Plain (Done file)) => file | _ => [] end.

Definition fits (kv : bytes * Entry) : bool :=
  (len (encode_entry kv) <? 2 ^ 32) &&
  match e_expiry kv.2 with Some x => (0 <=? x) && (x <? U64_MOD) | None => true end.

Lemma fits_entry kv : fits kv = true → entry_fits kv.
Proof.
  unfold fits. intros [H1 H2]%andb_true_iff. split; [lia|]. intros x Hx. rewrite Hx in H2. unfold is_u64. lia.
Qed.

Lemma save_begins : Forall begins save_threads.
Proof.
  apply List.Forall_cons; [apply begins_reader, save_reads|].
  do 2 (apply List.Forall_cons; [apply begins_plain, command_handler|]).
  apply List.Forall_cons; [apply begins_hset|]. apply List.Forall_nil.
Qed.

Lemma save_fits x k e : x ∈ save_trace.*1 → lookup_entry (store x) k = Some e → entry_fits (k, e).
Proof.
  intros ([x' y] & -> & Hin)%list_elem_of_fmap He.
  destruct (hpath_good (deletes save_threads) _ _ _ (hash_trace_path save_schedule three_keys save_threads)
              three_keys_consistent (begins_ok _ _ save_begins) _ Hin) as [Hwf _].
  apply (elem_of_store_entries _ _ _ demo_platform_ok Hwf) in He. cbn [fst] in *.
  assert (forallb (λ z, forallb fits (store_entries (store z.1))) save_trace = true) as Hall by (vm_compute; reflexivity).
  rewrite forallb_forall in Hall. specialize (Hall (x', y) (proj1 (list_elem_of_In _ _) Hin)). cbn [fst] in Hall.
  rewrite forallb_forall in Hall. apply fits_entry, Hall, list_elem_of_In, He.
Qed.

Lemma snapshot_beside_writers_witness :
  let now' := system_time (ticks (new 2)) in
  let r := load_snapshot (Some saved_bytes) (new 2) in
  (∃ loaded, r.1 = Ok loaded) ∧ inv r.2 ∧
  ∃ db, sim now' r.2 db ∧
    (∀ k v, db !! k = Some v → ∃ x e, x ∈ save_trace.*1 ∧ lookup_entry (store x) k = Some e ∧ data e = v) ∧
    (∀ k, (∀ x, x ∈ save_trace.*1 → live now' x k) → is_Some (db !! k)).
Proof.
  refine (snapshot_beside_writers demo_platform_ok demo_parts_ok demo_bincode_ok three_keys save_threads save_trace
           0%nat 1000 saved_bytes (new 2) _ save_fits _ _ _).
  - split_and!; [exact three_keys_consistent|exact save_begins|reflexivity|]. exists save_end.
    split; [exact (hash_trace_path save_schedule three_keys save_threads)|vm_compute; reflexivity].
  - vm_compute. reflexivity.
  - by apply fresh_new.
  - vm_compute. discriminate.
Defined.
End Example.
