(* ===== verification/Locks.v ===== *)
(** * Locks ([src/store.rs], [src/main.rs], [src/aof.rs], [src/persistence.rs])

    Every operation takes the locks of the program in scopes: a reference into a shard's
    map while it lives, the lock of a shard's queues, the lock of a hash, the lock of the
    log.  The map is third-party code; as its documentation has it, its entries are divided
    among a number of parts with a lock each, a reference to an entry holds the lock of its
    part, and an operation that changes a part waits for every reference into it, of its own
    thread too.  Whether an iterator is such a reference between its items is a parameter.
    The scopes of all operations nest in one order, so no set of threads can wait for each
    other for ever; but if iterators hold the part they have reached, two of the operations
    wait for themselves. *)

From S2P Require Import Prelude.

(** ** Scopes *)

(** The lock of a part of the map of a shard, of its queues, of a hash and of the log. *)
Inductive Lock := LShard (i b : nat) | LQueues (i : nat) | LHash (h : nat) | LAof.
Inductive Mode := Shared | Exclusive.

#[global] Instance Lock_eq_dec : EqDecision Lock.
Proof. solve_decision. Defined.
#[global] Instance Mode_eq_dec : EqDecision Mode.
Proof. solve_decision. Defined.

(** A lock held while what is inside runs. *)
#[warnings="-register-all"]
Inductive Scope := Holding (l : Lock) (m : Mode) (inside : list Scope).

Definition rd (l : Lock) (inside : list Scope) : Scope := Holding l Shared inside.
Definition wr (l : Lock) (inside : list Scope) : Scope := Holding l Exclusive inside.

(** ** The operations *)

(** What a lookup finds: nothing, an entry that has expired or a live one.  A value is a
    string or a hash with its lock. *)
Abbreviation Value := (option nat).
Inductive Found := Absent | Stale (v : Value) | Alive (v : Value).

(** The operations get the shard [i] of their key and its part [b]. *)
Section Ops.
(** The number of parts of a map; whether the policy is S3-FIFO; and whether an iterator that
    lives keeps its reference into the map. *)
Context (parts : nat) (s3fifo iter_holds : bool).

(** [calculate_entry_size] reads a hash.  Some sizes are computed only under a memory limit,
    which is assumed here. *)
Definition lk_size (v : Value) : list Scope := match v with Some h => [rd (LHash h) []] | None => [] end.

Definition lk_queues (i : nat) : list Scope := if s3fifo then [wr (LQueues i) []] else [].

(** [shard.remove_if] after the reference was dropped. *)
Definition lk_remove (i b : nat) (v : Value) : list Scope := wr (LShard i b) [] :: lk_size v.

(** [get]; [moves]: the access changes the queues.  Without it, also [key_type], [handle_ttl],
    [handle_pttl] and the first read of [handle_incr]. *)
Definition lk_get (i b : nat) (found : Found) (moves : bool) : list Scope :=
  match found with
  | Absent => [rd (LShard i b) []]
  | Stale v => rd (LShard i b) [] :: lk_remove i b v
  | Alive _ => [rd (LShard i b) (if moves then lk_queues i else [])]
  end.

(** [hget] and [hgetall]. *)
Definition lk_hget (i b : nat) (found : Found) (moves : bool) : list Scope :=
  match found with
  | Alive v => [rd (LShard i b) ((if moves then lk_queues i else []) ++ lk_size v)]
  | _ => lk_get i b found moves
  end.

(** [exists] of one key. *)
Definition lk_exists (i b : nat) : list Scope := [rd (LShard i b) []].

(** [handle_expire] and [handle_persist], through [get_mut]. *)
Definition lk_expire (i b : nat) (found : Found) : list Scope :=
  match found with
  | Stale v => wr (LShard i b) [] :: lk_remove i b v
  | _ => [wr (LShard i b) []]
  end.

(** The queue of the entry that [set] or [delete] replaces. *)
Definition lk_dequeue (i b : nat) (found : Found) : list Scope :=
  if s3fifo then [rd (LShard i b) (match found with Absent => [] | _ => [wr (LQueues i) []] end)] else [].

Definition lk_set (i b : nat) (found : Found) (old : Value) : list Scope :=
  lk_dequeue i b found ++ lk_queues i ++ wr (LShard i b) [] :: lk_size old.

Definition lk_delete (i b : nat) (found : Found) (old : Value) : list Scope :=
  lk_dequeue i b found ++ wr (LShard i b) [] :: lk_size old.

(** [shard.len()], and the loop of [keys] on one shard: the first [n] parts in turn. *)
Definition lk_walk (i n : nat) : list Scope := map (λ b, rd (LShard i b) []) (seq 0 n).

(** [shard.iter().collect()] of [scan]: the references collected hold their parts to the end,
    a part without entries is passed by. *)
Fixpoint lk_collect (i b : nat) (occupied : list bool) : list Scope :=
  match occupied with
  | [] => []
  | true :: occupied => [rd (LShard i b) (lk_collect i (S b) occupied)]
  | false :: occupied => rd (LShard i b) [] :: lk_collect i (S b) occupied
  end.

(** [get_existing_size]; one entry of [FLUSHDB]'s sum, of [save_snapshot_sync] and of
    [write_store_snapshot]. *)
Definition lk_visit (i b : nat) (v : Value) : list Scope := [rd (LShard i b) (lk_size v)].

(** [clear] of one shard; the insertion of [load_snapshot]. *)
Definition lk_clear (i : nat) : list Scope := map (λ b, wr (LShard i b) []) (seq 0 parts).
Definition lk_insert (i b : nat) : list Scope := [wr (LShard i b) []].

(** [hset]: its loop removes expired entries until it finds the key vacant or live, holding
    the entry while it works on the queues; then it writes the map of the hash [h] and reads
    its size. *)
Definition lk_hset (i b : nat) (stale : list Value) (found : option Value) (h : nat) : list Scope :=
  map (λ v, wr (LShard i b) (lk_size v ++ lk_queues i)) stale ++
  match found with
  | None => [wr (LShard i b) (lk_queues i); wr (LHash h) []; rd (LHash h) []]
  | Some (Some h) => [wr (LShard i b) (lk_size (Some h)); wr (LHash h) []; rd (LHash h) []]
  | Some None => [wr (LShard i b) []]
  end.

(** How [hdel] of a live hash ends: no field was there, some fields are left, or none is and
    the key is removed if the hash is still empty. *)
Inductive HdelEnd := NoneRemoved | SomeRemoved | Emptied (still_empty : bool).

Definition lk_hdel (i b : nat) (found : Found) (how : HdelEnd) : list Scope :=
  match found with
  | Alive (Some h) =>
      let fields := [rd (LHash h) []; wr (LHash h) []] in
      match how with
      | NoneRemoved => [rd (LShard i b) fields]
      | SomeRemoved => [rd (LShard i b) (fields ++ [rd (LHash h) []])]
      | Emptied still_empty =>
          [rd (LShard i b) fields; wr (LShard i b) [rd (LHash h) []]] ++
          if still_empty then [rd (LHash h) []] else []
      end
  | _ => lk_get i b found false
  end.

(** A sample: [shard.len()], and [shard.iter().nth(skip)] up to an entry in part [b], where
    what is done with it runs.  The entry is dropped before [body]; but the iterator, in the
    scrutinee of [if let], lives to the end of the block. *)
Definition lk_sampled (i b : nat) (body : list Scope) : list Scope :=
  lk_walk i parts ++ lk_walk i b ++
  (if iter_holds then [rd (LShard i b) body] else rd (LShard i b) [] :: body).

(** A sample of [evict_lru], and its victim. *)
Definition lk_sample (i b : nat) : list Scope := lk_sampled i b [].
Definition lk_evict (i b : nat) (v : Value) : list Scope := lk_remove i b v.

(** A round of [evict_s3fifo]. *)
Definition lk_evict_s3fifo (i b : nat) (v : Value) : list Scope := wr (LQueues i) [] :: lk_remove i b v.

(** [append], [sync] and the swap of [rewrite_inner]. *)
Definition lk_aof : list Scope := [wr LAof []].

Definition lk_evict_random (i b : nat) (v : Value) : list Scope := lk_sampled i b (lk_remove i b v).
Definition lk_expire_round (i b : nat) (found : Found) : list Scope :=
  match found with
  | Absent => lk_walk i parts
  | Stale v => lk_sampled i b (lk_remove i b v)
  | Alive _ => lk_sampled i b []
  end.

(** A thread does any of these, one after the other; of the last two, only what does not
    change a part under an iterator. *)
Inductive operation : list Scope → Prop :=
| op_get i b found moves : (b < parts)%nat → operation (lk_get i b found moves)
| op_hget i b found moves : (b < parts)%nat → operation (lk_hget i b found moves)
| op_exists i b : (b < parts)%nat → operation (lk_exists i b)
| op_expire i b found : (b < parts)%nat → operation (lk_expire i b found)
| op_set i b found old : (b < parts)%nat → operation (lk_set i b found old)
| op_delete i b found old : (b < parts)%nat → operation (lk_delete i b found old)
| op_walk i : operation (lk_walk i parts)
| op_collect i occupied : length occupied = parts → operation (lk_collect i 0 occupied)
| op_visit i b v : (b < parts)%nat → operation (lk_visit i b v)
| op_clear i : operation (lk_clear i)
| op_insert i b : (b < parts)%nat → operation (lk_insert i b)
| op_hset i b stale found h : (b < parts)%nat → operation (lk_hset i b stale found h)
| op_hdel i b found how : (b < parts)%nat → operation (lk_hdel i b found how)
| op_sample i b : (b < parts)%nat → operation (lk_sample i b)
| op_evict i b v : (b < parts)%nat → operation (lk_evict i b v)
| op_evict_s3fifo i b v : (b < parts)%nat → operation (lk_evict_s3fifo i b v)
| op_aof : operation lk_aof
| op_evict_random i b v : (b < parts)%nat → iter_holds = false → operation (lk_evict_random i b v)
| op_expire_round i b found :
    (b < parts)%nat → iter_holds = false ∨ (∀ v, found ≠ Stale v) → operation (lk_expire_round i b found)
| op_then p q : operation p → operation q → operation (p ++ q).
End Ops.

(** ** Threads and the locks they hold *)

(** The scopes a thread is in, innermost first, each with what is left to run inside it,
    and what is left after them. *)
Record LThread := mkLThread {
  frames : list (Lock * Mode * list Scope);
  base : list Scope
}.

Definition held (t : LThread) : list (Lock * Mode) := (frames t).*1.
Definition lstart (p : list Scope) : LThread := mkLThread [] p.
Definition ended (t : LThread) : Prop := t = mkLThread [] [].

(** What a thread does next: take a lock, or leave the innermost scope. *)
Inductive Next := Take (l : Lock) (m : Mode) (t : LThread) | Leave (t : LThread) | Over.

Definition next_of (t : LThread) : Next :=
  match frames t with
  | [] =>
      match base t with
      | [] => Over
      | Holding l m inside :: rest => Take l m (mkLThread [(l, m, inside)] rest)
      end
  | (l0, m0, []) :: fs => Leave (mkLThread fs (base t))
  | (l0, m0, Holding l m inside :: rest) :: fs =>
      Take l m (mkLThread ((l, m, inside) :: (l0, m0, rest) :: fs) (base t))
  end.

Definition free (ts : list LThread) (l : Lock) : Prop :=
  Forall (λ t, l ∉ (held t).*1) ts.
Definition compatible (ts : list LThread) (l : Lock) (m : Mode) : Prop :=
  Forall (λ t, ∀ m', (l, m') ∈ held t → m = Shared ∧ m' = Shared) ts.

(** A lock can be taken when no thread holds it in a conflicting mode. *)
Inductive lock_step : list LThread → list LThread → Prop :=
| lock_take ts i t l m t' :
    ts !! i = Some t → next_of t = Take l m t' → compatible ts l m → lock_step ts (<[i:=t']> ts)
| lock_leave ts i t t' :
    ts !! i = Some t → next_of t = Leave t' → lock_step ts (<[i:=t']> ts).

(** A thread that cannot be kept waiting: it leaves a scope, or takes a lock that nobody
    holds.  Locks held by readers only may be given to another reader, or kept for a writer
    that waits; nothing below depends on it. *)
Definition can_go (ts : list LThread) (t : LThread) : Prop :=
  match next_of t with
  | Take l _ _ => free ts l
  | Leave _ => True
  | Over => False
  end.

(** ** The order of locks *)

(** The parts of a map in turn (there are [parts] of them), then the queues, the hashes and the
    log. *)
Definition rank (parts : nat) (l : Lock) : Z :=
  let n := Z.of_nat parts in
  match l with LShard _ b => Z.min (Z.of_nat b) (n - 1) | LQueues _ => n | LHash _ => n + 1 | LAof => n + 2 end.

Section Order.
Context (parts : nat).

(** Inside a lock of rank [r], only locks of higher rank are taken. *)
Fixpoint ordered (r : Z) (p : Scope) : bool :=
  match p with Holding l _ inside => (r <? rank parts l) && forallb (ordered (rank parts l)) inside end.

Lemma ordered_app r p q :
  forallb (ordered r) p = true → forallb (ordered r) q = true → forallb (ordered r) (p ++ q) = true.
Proof. intros Hp Hq. by rewrite forallb_app, Hp, Hq. Qed.

Lemma ordered_leaf l m r : r < rank parts l → ordered r (Holding l m []) = true.
Proof. intros H. cbn. rewrite andb_true_r. by apply Z.ltb_lt. Qed.

Lemma rank_part i b : (b < parts)%nat → rank parts (LShard i b) = Z.of_nat b.
Proof. intros Hb. cbn. lia. Qed.

Ltac order := repeat (cbn [forallb ordered app]; first
  [ reflexivity | apply andb_true_intro; split | apply ordered_app | apply Z.ltb_lt; cbn; lia ]).

Lemma size_ordered r v : r < Z.of_nat parts + 1 → forallb (ordered r) (lk_size v) = true.
Proof. intros Hr. destruct v; cbn [lk_size]; order. Qed.

Lemma queues_ordered r s3fifo i : r < Z.of_nat parts → forallb (ordered r) (lk_queues s3fifo i) = true.
Proof. intros Hr. destruct s3fifo; cbn [lk_queues]; order. Qed.

Lemma parts_ordered (lk : nat → Scope) n :
  (∀ b, (b < n)%nat → ordered (-1) (lk b) = true) → forallb (ordered (-1)) (map lk (seq 0 n)) = true.
Proof.
  intros H. apply forallb_forall. intros x (b & <- & [_ Hb]%in_seq)%in_map_iff. apply H. lia.
Qed.

Lemma walk_ordered i n : (n ≤ parts)%nat → forallb (ordered (-1)) (lk_walk i n) = true.
Proof. intros Hn. apply parts_ordered. intros b Hb. apply ordered_leaf. rewrite rank_part; lia. Qed.

Lemma collect_ordered i b occupied r :
  (b + length occupied ≤ parts)%nat → r < Z.of_nat b → forallb (ordered r) (lk_collect i b occupied) = true.
Proof.
  revert b r. induction occupied as [|o occupied IH]; intros b r Hb Hr; [done|]. cbn [length] in Hb.
  assert (r < rank parts (LShard i b)) as Hrk by (rewrite rank_part; lia).
  destruct o; cbn [lk_collect forallb].
  - rewrite andb_true_r. cbn [ordered rd]. apply andb_true_intro. split; [by apply Z.ltb_lt|].
    apply IH; [lia|]. rewrite rank_part; lia.
  - apply andb_true_intro. split; [by apply ordered_leaf|]. apply IH; lia.
Qed.

Lemma sampled_ordered iter_holds i b body :
  (b < parts)%nat → forallb (ordered (-1)) body = true → iter_holds = false ∨ body = [] →
  forallb (ordered (-1)) (lk_sampled parts iter_holds i b body) = true.
Proof.
  intros Hb Hbody Hh. unfold lk_sampled. apply ordered_app; [by apply walk_ordered|].
  apply ordered_app; [apply walk_ordered; lia|].
  assert (ordered (-1) (rd (LShard i b) []) = true) as Hl by (apply ordered_leaf; rewrite rank_part; lia).
  destruct Hh as [-> | ->]; [|destruct iter_holds]; cbn [forallb]; rewrite Hl; done.
Qed.

(** The rest of an operation: its sizes and its queues. *)
Ltac order_rest := order; first [apply size_ordered | apply queues_ordered]; cbn; lia.

Lemma remove_ordered i b v : (b < parts)%nat → forallb (ordered (-1)) (lk_remove i b v) = true.
Proof. intros Hb. unfold lk_remove. order_rest. Qed.

Lemma hset_ordered s3fifo i b stale found h :
  (b < parts)%nat → forallb (ordered (-1)) (lk_hset s3fifo i b stale found h) = true.
Proof.
  intros Hb. unfold lk_hset. apply ordered_app.
  - apply forallb_forall. intros x (v & <- & _)%in_map_iff. unfold wr. order_rest.
  - destruct found as [[]|]; cbn [lk_size wr rd]; order_rest.
Qed.

Lemma get_ordered s3fifo i b found moves :
  (b < parts)%nat → forallb (ordered (-1)) (lk_get s3fifo i b found moves) = true.
Proof. intros Hb. destruct found, moves; unfold lk_get, rd; order_rest. Qed.

Lemma dequeue_ordered s3fifo i b found :
  (b < parts)%nat → forallb (ordered (-1)) (lk_dequeue s3fifo i b found) = true.
Proof. intros Hb. destruct s3fifo, found; unfold lk_dequeue, rd, wr; order. Qed.

Lemma operation_ordered s3fifo iter_holds p :
  operation parts s3fifo iter_holds p → forallb (ordered (-1)) p = true.
Proof.
  induction 1; auto using hset_ordered, get_ordered, walk_ordered, remove_ordered, ordered_app.
  - destruct found; [by apply get_ordered..|]. destruct moves; unfold lk_hget, rd; order_rest.
  - unfold lk_exists, rd. order.
  - destruct found; unfold lk_expire, wr; order_rest.
  - unfold lk_set. apply ordered_app; [by apply dequeue_ordered|]. unfold wr. order_rest.
  - unfold lk_delete. apply ordered_app; [by apply dequeue_ordered|]. unfold wr. order_rest.
  - apply collect_ordered; lia.
  - unfold lk_visit, rd. order_rest.
  - apply parts_ordered. intros b Hb. apply ordered_leaf. rewrite rank_part; lia.
  - unfold lk_insert, wr. order.
  - destruct found as [| |[h|]]; try (by apply get_ordered). destruct how as [| |[]]; unfold lk_hdel, rd, wr; order.
  - apply sampled_ordered; auto.
  - unfold lk_evict_s3fifo, wr. order_rest.
  - unfold lk_aof, wr. order.
  - apply sampled_ordered; auto using remove_ordered.
  - destruct found as [|v|v]; cbn [lk_expire_round]; [by apply walk_ordered| |apply sampled_ordered; auto].
    apply sampled_ordered; [done|by apply remove_ordered|]. left. naive_solver.
Qed.

(** ** Threads that keep to the order *)

Definition top (fs : list (Lock * Mode * list Scope)) : Z :=
  match fs with [] => -1 | (l, _, _) :: _ => rank parts l end.

Fixpoint frames_ok (fs : list (Lock * Mode * list Scope)) : Prop :=
  match fs with
  | [] => True
  | (l, m, rest) :: fs => top fs < rank parts l ∧ forallb (ordered (rank parts l)) rest = true ∧ frames_ok fs
  end.

Definition lthread_ok (t : LThread) : Prop := frames_ok (frames t) ∧ forallb (ordered (-1)) (base t) = true.

Lemma held_rank fs l : frames_ok fs → l ∈ (fs.*1).*1 → rank parts l ≤ top fs.
Proof.
  induction fs as [|[[l0 m0] rest] fs IH]; cbn; [intros _ H; by apply not_elem_of_nil in H|].
  intros (Ht & _ & Hfs) [->|Hin]%elem_of_cons; [done|]. specialize (IH Hfs Hin). lia.
Qed.

Lemma take_ok t l m t' :
  lthread_ok t → next_of t = Take l m t' → top (frames t) < rank parts l ∧ lthread_ok t'.
Proof.
  destruct t as [[|[[l0 m0] [|[l1 m1 inside] rest]] fs] b]; unfold lthread_ok, next_of; cbn.
  - destruct b as [|[l1 m1 inside] rest]; [done|]. intros [_ Hb] [= <- <- <-].
    cbn in *. apply andb_true_iff in Hb as [[? ?]%andb_true_iff ?]. split_and!; try done; lia.
  - done.
  - intros [(Ht & Hr & Hfs) Hb] [= <- <- <-]. cbn.
    apply andb_true_iff in Hr as [[? ?]%andb_true_iff ?]. split_and!; try done; lia.
Qed.

Lemma leave_ok t t' : lthread_ok t → next_of t = Leave t' → lthread_ok t'.
Proof.
  destruct t as [[|[[l0 m0] [|[l1 m1 inside] rest]] fs] b]; unfold lthread_ok, next_of; cbn; [by destruct b as [|[]]|..].
  - intros [(_ & _ & Hfs) Hb] [= <-]. done.
  - done.
Qed.

Lemma over_ended t : next_of t = Over → ended t.
Proof. destruct t as [[|[[l0 m0] [|[l1 m1 inside] rest]] fs] b]; unfold next_of; cbn; by destruct b as [|[]]. Qed.

Lemma lock_step_ok ts ts' : lock_step ts ts' → Forall lthread_ok ts → Forall lthread_ok ts'.
Proof.
  intros [ts0 i t l m t' Hi Hn _|ts0 i t t' Hi Hn] Hok; (apply Forall_insert; [done|]);
    pose proof (Forall_lookup_1 _ _ _ _ Hok Hi) as Ht; [by eapply take_ok|by eapply leave_ok].
Qed.

(** ** Progress *)

(** How far a thread is up in the order. *)
Definition height (t : LThread) : Z :=
  match next_of t with Take l _ _ => rank parts l | Leave _ => Z.of_nat parts + 3 | Over => -2 end.

Lemma rank_range l : -1 ≤ rank parts l ≤ Z.of_nat parts + 2.
Proof. destruct l; cbn; lia. Qed.

Lemma highest (ts : list LThread) : ts ≠ [] → ∃ i t, ts !! i = Some t ∧ Forall (λ t', height t' ≤ height t) ts.
Proof.
  induction ts as [|t ts IH]; [done|]. intros _. destruct ts as [|t1 ts].
  { exists 0%nat, t. split; [done|]. repeat constructor; lia. }
  destruct IH as (i & t' & Hi & Hmax); [done|]. destruct (Z.le_ge_cases (height t) (height t')) as [Hle|Hle].
  - exists (S i), t'. split; [done|]. by constructor.
  - exists 0%nat, t. split; [done|]. constructor; [lia|]. eapply Forall_impl; [exact Hmax|]. cbn. lia.
Qed.

Lemma lock_progress ts :
  Forall lthread_ok ts → Forall ended ts ∨ ∃ i t, ts !! i = Some t ∧ can_go ts t.
Proof.
  intros Hok. destruct (decide (ts = [])) as [->|Hne]; [by left|].
  destruct (highest ts Hne) as (i & t & Hi & Hmax). unfold height in Hmax at 2.
  destruct (next_of t) as [l m t'|t'|] eqn:Hn.
  - right. exists i, t. split; [done|]. unfold can_go. rewrite Hn. apply Forall_forall. intros u Hu Hl.
    rewrite Forall_forall in Hok, Hmax. specialize (Hok u Hu) as Hu'. specialize (Hmax u Hu). unfold height in Hmax.
    pose proof (held_rank _ _ (proj1 Hu') Hl) as Hr. pose proof (rank_range l).
    destruct (next_of u) as [l' m' u'|u'|] eqn:Hnu.
    + pose proof (proj1 (take_ok _ _ _ _ Hu' Hnu)). lia.
    + lia.
    + apply over_ended in Hnu. rewrite Hnu in Hl. by apply not_elem_of_nil in Hl.
  - right. exists i, t. split; [done|]. unfold can_go. by rewrite Hn.
  - left. apply Forall_forall. intros u Hu. rewrite Forall_forall in Hmax. specialize (Hmax u Hu).
    apply over_ended. unfold height in Hmax. destruct (next_of u) as [l' m' u'|u'|]; [|lia|done].
    pose proof (rank_range l'). lia.
Qed.

(** ** Termination *)

(** The steps a thread has left. *)
Fixpoint weight (p : Scope) : nat :=
  match p with Holding _ _ inside => S (S (sum_list_with weight inside)) end.
Definition steps_left (t : LThread) : nat :=
  (sum_list_with (λ f, S (sum_list_with weight f.2)) (frames t) + sum_list_with weight (base t))%nat.
Definition all_left (ts : list LThread) : nat := sum_list_with steps_left ts.

Lemma take_left t l m t' : next_of t = Take l m t' → (steps_left t' < steps_left t)%nat.
Proof.
  destruct t as [[|[[l0 m0] [|[l1 m1 inside] rest]] fs] b]; unfold next_of, steps_left; cbn; [|done|].
  - destruct b as [|[l1 m1 inside] rest]; [done|]. intros [= <- <- <-]. cbn. lia.
  - intros [= <- <- <-]. cbn. lia.
Qed.

Lemma leave_left t t' : next_of t = Leave t' → (steps_left t' < steps_left t)%nat.
Proof.
  destruct t as [[|[[l0 m0] [|[l1 m1 inside] rest]] fs] b]; unfold next_of, steps_left; cbn; [by destruct b as [|[]]|..].
  - intros [= <-]. cbn. lia.
  - done.
Qed.

Lemma all_left_insert ts i t t' :
  ts !! i = Some t → (steps_left t' < steps_left t)%nat → (all_left (<[i:=t']> ts) < all_left ts)%nat.
Proof.
  unfold all_left. revert i. induction ts as [|u ts IH]; intros [|i] Hi Hlt; try done.
  - injection Hi as ->. cbn. lia.
  - specialize (IH i Hi Hlt). change (<[S i:=t']> (u :: ts)) with (u :: <[i:=t']> ts). cbn [sum_list_with]. lia.
Qed.

(** Every step brings the threads closer to their ends. *)
Lemma lock_step_left ts ts' : lock_step ts ts' → (all_left ts' < all_left ts)%nat.
Proof.
  intros [ts0 i t l m t' Hi Hn _|ts0 i t t' Hi Hn]; eapply all_left_insert; eauto using take_left, leave_left.
Qed.

Lemma can_go_step ts i t : ts !! i = Some t → can_go ts t → ∃ ts', lock_step ts ts'.
Proof.
  unfold can_go. intros Hi. destruct (next_of t) as [l m t'|t'|] eqn:Hn; [|eauto using lock_leave|done].
  intros Hf. eexists. eapply lock_take; [done..|]. eapply Forall_impl; [exact Hf|]. intros u Hu m' Hm.
  destruct Hu. apply list_elem_of_fmap. by exists (l, m').
Qed.

Lemma lock_end ts : Forall lthread_ok ts → ∃ ts', rtc lock_step ts ts' ∧ Forall ended ts'.
Proof.
  remember (all_left ts) as n eqn:En. revert ts En.
  induction n as [n IH] using lt_wf_ind. intros ts -> Hok.
  destruct (lock_progress ts Hok) as [He|(i & t & Hi & Hg)]; [by exists ts|].
  destruct (can_go_step ts i t Hi Hg) as (ts1 & Hst).
  destruct (IH _ (lock_step_left _ _ Hst) ts1 eq_refl (lock_step_ok _ _ Hst Hok)) as (ts2 & Hr & He).
  exists ts2. split; [by eapply rtc_l|done].
Qed.

End Order.

(** C29: the operations do not deadlock.  Let any number of threads run any sequences of the
    operations of the store, of the log and of snapshots, on maps with any number of parts,
    and stop them anywhere.  (Random eviction, and rounds of the expiry task that find an
    expired key, are among them only if an iterator does not hold the part it has reached.)
    Either all have ended, or one of them can go on whatever the locks' preference between
    readers and writers; and from there all of them can run to their ends, in fewer steps the
    more were taken. *)
Theorem no_deadlock parts s3fifo iter_holds ps ts :
  Forall (operation parts s3fifo iter_holds) ps → rtc lock_step (map lstart ps) ts →
  (Forall ended ts ∨ ∃ i t, ts !! i = Some t ∧ can_go ts t) ∧
  (∃ ts', rtc lock_step ts ts' ∧ Forall ended ts') ∧
  (∀ ts', lock_step ts ts' → (all_left ts' < all_left ts)%nat).
Proof.
  intros Hps Hr. assert (Forall (lthread_ok parts) (map lstart ps)) as H0.
  { apply Forall_map. eapply Forall_impl; [exact Hps|]. intros p Hp. split; [done|]. by eapply operation_ordered. }
  assert (Forall (lthread_ok parts) ts) as Hok.
  { revert H0. clear Hps. induction Hr; eauto using lock_step_ok. }
  split_and!; [by eapply lock_progress|by eapply lock_end|apply lock_step_left].
Qed.

(** Three threads under S3-FIFO, on maps of two parts: one overwrites a hash, one deletes its
    last field, and one scans the shard. *)
Definition demo_ops : list (list Scope) :=
  [lk_set true 0 1 (Alive (Some 7%nat)) (Some 7%nat); lk_hdel true 0 1 (Alive (Some 7%nat)) (Emptied true);
   lk_collect 0 0 [true; true]].

Lemma no_deadlock_witness :
  (Forall ended (map lstart demo_ops) ∨
   ∃ i t, map lstart demo_ops !! i = Some t ∧ can_go (map lstart demo_ops) t) ∧
  (∃ ts', rtc lock_step (map lstart demo_ops) ts' ∧ Forall ended ts') ∧
  (∀ ts', lock_step (map lstart demo_ops) ts' → (all_left ts' < all_left (map lstart demo_ops))%nat).
Proof.
  apply (no_deadlock 2 true true demo_ops); [|apply rtc_refl].
  apply List.Forall_cons; [apply op_set; lia|]. apply List.Forall_cons; [apply op_hdel; lia|].
  apply List.Forall_cons; [by apply op_collect|]. apply List.Forall_nil.
Defined.

(** ** Waiting for oneself *)

(** A thread that wants a lock which is not to be had stays where it is. *)
Lemma waiting_stays ts ts' j t l m t' :
  ts !! j = Some t → next_of t = Take l m t' →
  (∀ ts1, rtc lock_step ts ts1 → ¬ compatible ts1 l m) → rtc lock_step ts ts' → ts' !! j = Some t.
Proof.
  intros Hj Hn Hc Hr. induction Hr as [|ts1 ts2 ts3 Hst Hr IH]; [done|]. apply IH; clear IH.
  - destruct Hst as [ts i u l' m' u' Hi Hn' Hc'|ts i u u' Hi Hn'];
      (destruct (decide (i = j)) as [->|Hne]; [|by rewrite list_lookup_insert_ne]);
      rewrite Hj in Hi; injection Hi as <-; rewrite Hn in Hn'; [|done].
    injection Hn' as <- <- <-. by destruct (Hc ts (rtc_refl _ _)).
  - intros ts4 Hr4. apply Hc. by eapply rtc_l.
Qed.

(** So does one that wants to change a part it holds a reference into. *)
Lemma stuck_stays ts ts' j i b inside rest fs p :
  let t := mkLThread ((LShard i b, Shared, wr (LShard i b) inside :: rest) :: fs) p in
  ts !! j = Some t → rtc lock_step ts ts' →
  ts' !! j = Some t ∧ ¬ compatible ts' (LShard i b) Exclusive.
Proof.
  intros t. assert (∀ ts, ts !! j = Some t → ¬ compatible ts (LShard i b) Exclusive) as Hno.
  { intros ts1 Hj Hc. pose proof (Forall_lookup_1 _ _ _ _ Hc Hj) as Ht.
    destruct (Ht Shared); [by apply elem_of_cons; left|done]. }
  intros Hj Hr. enough (ts' !! j = Some t) by auto.
  induction Hr as [|ts1 ts2 ts3 Hst Hr IH]; [done|]. apply IH. clear IH Hr ts3.
  destruct Hst as [ts i' u l m u' Hi Hn Hc|ts i' u u' Hi Hn];
    (destruct (decide (i' = j)) as [->|Hne]; [|by rewrite list_lookup_insert_ne]);
    rewrite Hj in Hi; injection Hi as <-; cbn in Hn; [|done].
  injection Hn as <- <- <-. by destruct (Hno ts Hj).
Qed.

Lemma alone_compatible l m b : compatible [mkLThread [] b] l m.
Proof. apply List.Forall_cons; [|apply List.Forall_nil]. intros m' Hm. by apply not_elem_of_nil in Hm. Qed.

Lemma run_walk i n rest : rtc lock_step [lstart (lk_walk i n ++ rest)] [lstart rest].
Proof.
  unfold lk_walk. induction (seq 0 n) as [|b l IH]; [done|]. cbn [map app].
  eapply rtc_l; [eapply (lock_take _ 0%nat); [reflexivity..|apply alone_compatible]|].
  eapply rtc_l; [eapply (lock_leave _ 0%nat); reflexivity|exact IH].
Qed.

(** C39: the expiry task waits for itself, if an iterator holds the part of the map it has
    reached.  A round of [expire_random_keys] that samples an expired entry gets as far as its
    [remove_if], with the iterator that found the entry still holding its part of the shard's
    map; from there it never moves again, whatever the other threads do, no thread can ever
    again get that part to change it, and every thread that comes to try waits for ever.
    (Reads of the part are still possible.)  [evict_random] does the same. *)
Theorem expiry_waits_for_itself parts iter_holds i b v :
  iter_holds = true →
  let t := mkLThread [(LShard i b, Shared, lk_remove i b v)] [] in
  rtc lock_step [lstart (lk_expire_round parts iter_holds i b (Stale v))] [t] ∧
  rtc lock_step [lstart (lk_evict_random parts iter_holds i b v)] [t] ∧
  ∀ others ts, rtc lock_step (t :: others) ts →
    ts !! 0%nat = Some t ∧ ¬ compatible ts (LShard i b) Exclusive ∧
    ∀ j u u' ts', ts !! j = Some u → next_of u = Take (LShard i b) Exclusive u' →
      rtc lock_step ts ts' → ts' !! j = Some u.
Proof.
  intros ->. cbv zeta.
  assert (∀ p, rtc lock_step [lstart (lk_sampled parts true i b p)] [mkLThread [(LShard i b, Shared, p)] []]) as H.
  { intros p. unfold lk_sampled. etrans; [apply run_walk|]. etrans; [apply run_walk|].
    apply rtc_once. exact (lock_take [lstart [rd (LShard i b) p]] 0%nat _ _ _ _ eq_refl eq_refl (alone_compatible _ _ _)). }
  split_and!; [apply H..|]. intros others ts Hr.
  destruct (stuck_stays (_ :: others) ts 0%nat i b [] (lk_size v) [] [] eq_refl Hr) as [Hs Hc]. split_and!; [done..|].
  intros j u u' ts' Hj Hn. apply (waiting_stays ts ts' j u _ _ u' Hj Hn).
  intros ts1 Hr1. by apply (stuck_stays ts ts1 0%nat i b [] (lk_size v) [] [] Hs).
Qed.

Lemma expiry_waits_for_itself_witness :
  let t := mkLThread [(LShard 3 1, Shared, lk_remove 3 1 None)] [] in
  rtc lock_step [lstart (lk_expire_round 2 true 3 1 (Stale None))] [t] ∧
  rtc lock_step [lstart (lk_evict_random 2 true 3 1 None)] [t] ∧
  ∀ others ts, rtc lock_step (t :: others) ts →
    ts !! 0%nat = Some t ∧ ¬ compatible ts (LShard 3 1) Exclusive ∧
    ∀ j u u' ts', ts !! j = Some u → next_of u = Take (LShard 3 1) Exclusive u' →
      rtc lock_step ts ts' → ts' !! j = Some u.
Proof. apply (expiry_waits_for_itself 2 true 3 1 None). reflexivity. Defined.
