(* ===== verification/RewriteRace.v ===== *)
(** * A log rewrite beside writes ([rewrite_inner] of [src/aof.rs])

    A rewrite walks the shards while commands go on, and swaps the files at the end; a
    command changes the store in one step and is logged in another.  Whatever the
    interleaving the log stays readable, but a command that is caught between its two steps
    is replayed twice. *)

From S2P Require Import Prelude Decimal Protocol Config S3Fifo State Store Steps StoreOps StoreSpec.
From S2P Require Import Handlers HandlerSpec Aof Snapshot Server Recovery Faults Concurrency Procs Sweeps Demo.

Import LogOrder.

(** Where the rewrite is: not running, or before the given part of a shard (Sweeps.v) with the
    file so far. *)
Inductive Rewriter :=
| NotRewriting
| Walking (now : Z) (next_shard next_part : nat) (file : bytes).

(** The server, the write commands under way, the rewrite, and the commands appended since
    the log was last replaced. *)
Record Rewriting := mkRewriting {
  rw_server : Server;
  rw_threads : list Thread;
  rw_rewriter : Rewriter;
  rw_since : list (list bytes)
}.

(** The log after the swap. *)
Definition swapped (a : Aof) (file : bytes) : Aof :=
  mkAof [] [] file (fsync a) false (u64 (len file)) (u64 (len file)) false.

Section Rewrite.
Context {P : Platform} {CFG : HasConfig} {B : Bincode} {D : Parts}.

(** What the framing needs of an entry: its integers and lengths have their widths. *)
Definition writable (now : Z) (kv : bytes * Entry) : Prop :=
  (∀ x, e_expiry kv.2 = Some x → is_u64 x) ∧ Forall loggable (entry_commands now kv).

(** After a part of a shard comes its next part, or the next shard. *)
Definition walk_on (now : Z) (i b : nat) (file : bytes) : Rewriter :=
  if (S b <? parts)%nat then Walking now i (S b) file else Walking now (S i) 0 file.

(** The steps: a command's write and its append; the start of a rewrite; the walk of one part
    of a shard; the swap under the log's lock. *)
Inductive rw_step : Rewriting → Rewriting → Prop :=
| rw_write s ts r l i m command :
    ts !! i = Some (Todo m command) →
    rw_step (mkRewriting s ts r l) (mkRewriting (lift m s).2 (<[i:=Written command]> ts) r l)
| rw_log s ts r l i command :
    ts !! i = Some (Written command) → loggable command →
    rw_step (mkRewriting s ts r l)
      (mkRewriting (aof_log command s).2 (<[i:=Logged command]> ts) r (l ++ [command]))
| rw_begin s ts l a :
    AOF s = Some a → rewrite_in_progress a = false →
    rw_step (mkRewriting s ts NotRewriting l)
      (mkRewriting (set_aof (Some (set_rewriting true a)) (lift get_timestamp s).2) ts
         (Walking (system_time (ticks (core s))) 0 0 []) l)
| rw_walk s ts l now i b file m :
    shards (core s) !! i = Some m → Forall (writable now) (map_iter (part_of b m)) →
    rw_step (mkRewriting s ts (Walking now i b file) l)
      (mkRewriting s ts (walk_on now i b (write_store_snapshot now (map_iter (part_of b m)) file 0 0).1.1) l)
| rw_swap s ts l now i b file a :
    shards (core s) !! i = None → AOF s = Some a →
    rw_step (mkRewriting s ts (Walking now i b file) l)
      (mkRewriting (set_aof (Some (swapped a file)) s) ts NotRewriting []).

(** The log is some commands, then those appended since; the file of a rewrite under way is
    whole commands too. *)
Definition rw_ok (policy : FsyncPolicy) (x : Rewriting) : Prop :=
  (∃ a base, AOF (rw_server x) = Some a ∧ aof_ok policy (base ++ rw_since x) a) ∧
  match rw_rewriter x with
  | NotRewriting => True
  | Walking now _ _ file => is_u64 now ∧ ∃ cmds, Forall loggable cmds ∧ file = concat (map frame cmds)
  end.

Lemma aof_ok_rewriting policy cmds a b : aof_ok policy cmds a → aof_ok policy cmds (set_rewriting b a).
Proof. intros [H1 H2 H3 H4 H5 H6]. by split. Qed.

Lemma aof_ok_swapped policy cmds a :
  Forall loggable cmds → fsync a = policy → aof_ok policy cmds (swapped a (concat (map frame cmds))).
Proof.
  intros Hc Hp. split; unfold aof_log_bytes; cbn; rewrite ?app_nil_r; try done.
Qed.

Lemma writable_loggable now l : Forall (writable now) l → Forall loggable (store_commands now l).
Proof.
  intros Hl. unfold store_commands. rewrite Forall_concat, Forall_map.
  apply Forall_forall. intros kv [_ Hin]%list_elem_of_filter. rewrite Forall_forall in Hl. by apply (Hl kv).
Qed.

Lemma rw_ok_step (HP : PlatformOk P) policy x y : rw_step x y → rw_ok policy x → rw_ok policy y.
Proof.
  intros Hst [(a & base & Ha & Hok) Hr]. destruct Hst as [s ts r l i m command Hi
    |s ts r l i command Hi Hc|s ts l a' Ha' Hp|s ts l now i b file m Hm Hw|s ts l now i b file a' Hn Ha'];
    cbn [rw_server rw_rewriter rw_since] in *.
  - split; [|done]. by exists a, base.
  - split; [|done]. exists (append command a), base. split; [cbn; by rewrite Ha|].
    cbn [rw_since]. rewrite app_assoc. by apply aof_ok_append.
  - split.
    + exists (set_rewriting true a'), base. split; [done|]. apply aof_ok_rewriting.
      assert (a' = a) as -> by congruence. done.
    + split; [apply system_time_u64|]. by exists [].
  - split; [by exists a, base|]. destruct Hr as [Hnow (cmds & Hc & ->)].
    destruct (write_store_snapshot_file now (map_iter (part_of b m)) (concat (map frame cmds)) 0 0 HP Hnow)
      as (k & n & -> & _).
    { eapply Forall_impl; [exact Hw|]. by intros kv [? _]. }
    { done. }
    assert (∃ cmds', Forall loggable cmds' ∧
      concat (map frame cmds) ++ concat (map frame (store_commands now (map_iter (part_of b m)))) =
      concat (map frame cmds')) as Hnew.
    { exists (cmds ++ store_commands now (map_iter (part_of b m))). rewrite map_app, concat_app. split; [|done].
      apply Forall_app. split; [done|by apply writable_loggable]. }
    cbn [fst]. unfold walk_on. by destruct (_ <? _)%nat.
  - split; [|done]. destruct Hr as [_ (cmds & Hc & ->)]. exists (swapped a' (concat (map frame cmds))), cmds.
    split; [done|]. rewrite app_nil_r. apply aof_ok_swapped; [done|].
    assert (a' = a) as -> by congruence. by apply aof_ok_policy with (base ++ l).
Qed.

(** C25: a rewrite never corrupts the log.  Whatever write commands run, at whatever points of
    a rewrite they change the store and append, and however often the log is rewritten, the
    log can be read back in full: whole commands, the last of them exactly those appended
    since the log was last replaced, in order. *)
Theorem rewrite_keeps_log_readable (HP : PlatformOk P) policy before a s ts x :
  AOF s = Some a → aof_ok policy before a →
  rtc rw_step (mkRewriting s ts NotRewriting []) x →
  ∃ a' base, AOF (rw_server x) = Some a' ∧
    read_all (S (length (base ++ rw_since x))) (aof_log_bytes a') = (base ++ rw_since x, None).
Proof.
  intros Ha Hok Hr.
  assert (rw_ok policy (mkRewriting s ts NotRewriting [])) as H0.
  { split; [|done]. exists a, before. split; [done|]. cbn. by rewrite app_nil_r. }
  assert (rw_ok policy x) as [(a' & base & Ha' & Hok') _].
  { clear Ha Hok. induction Hr; eauto using rw_ok_step. }
  exists a', base. split; [done|]. rewrite (aof_ok_log _ _ _ Hok').
  apply read_all_frames; [apply Hok'|lia].
Qed.
End Rewrite.

(** ** An increment between its two steps *)

Section Example.
#[local] Existing Instance demo_platform.
#[local] Existing Instance demo_durable.
#[local] Existing Instance demo_bincode.
#[local] Existing Instance demo_parts.

Definition incr_command : list bytes := [bs "INCR"; bs "n"].
Definition incr_thread : Thread := Todo (handle_incr incr_command [] 1000 1) incr_command.

(** [INCR] changes the store; the rewrite walks both parts of both shards and swaps; [INCR] is logged. *)
Definition incremented : Server := (lift (handle_incr incr_command [] 1000 1) log_server).2.
Definition rw_begun : Server :=
  set_aof (Some (set_rewriting true (aof_open [] Always))) (lift get_timestamp incremented).2.
Definition rw_time : Z := system_time (ticks (core incremented)).
Definition walk (i b : nat) (file : bytes) : bytes :=
  (write_store_snapshot rw_time (map_iter (part_of b (shard_at (core rw_begun) i))) file 0 0).1.1.
Definition walked : bytes := walk 1 1 (walk 1 0 (walk 0 1 (walk 0 0 []))).
Definition rw_ended : Server :=
  set_aof (Some (swapped (set_rewriting true (aof_open [] Always)) walked)) rw_begun.
Definition rw_raced : Server := (aof_log incr_command rw_ended).2.

Lemma walked_writable i b :
  (i < 2)%nat → (b < 2)%nat → Forall (writable rw_time) (map_iter (part_of b (shard_at (core rw_begun) i))).
Proof.
  intros Hi Hb. assert (∃ l, map_iter (part_of b (shard_at (core rw_begun) i)) = l ∧
    Forall (λ kv, e_expiry kv.2 = None ∧ e_value kv.2 = EV_String (bs "1") ∧ kv.1 = bs "n") l) as (l & -> & Hl).
  { destruct i as [|[|i]], b as [|[|b]]; try lia; (eexists; split; [vm_compute; reflexivity|]);
      repeat (apply List.Forall_cons; [done|]); apply List.Forall_nil. }
  eapply Forall_impl; [exact Hl|]. intros [k [v x la q n]] (Hx & Hv & Hk). cbn in *. subst.
  split; [done|]. by repeat constructor.
Qed.

Lemma walk_step i b file :
  (i < 2)%nat → (b < 2)%nat →
  rw_step (mkRewriting rw_begun [Written incr_command] (Walking rw_time i b file) [])
    (mkRewriting rw_begun [Written incr_command] (walk_on rw_time i b (walk i b file)) []).
Proof.
  intros Hi Hb. apply rw_walk; [|by apply walked_writable].
  unfold shard_at. destruct (lookup_lt_is_Some_2 (shards (core rw_begun)) i) as [m Hm]; [exact Hi|]. by rewrite Hm.
Qed.

Lemma rw_race_steps :
  rtc rw_step (mkRewriting log_server [incr_thread] NotRewriting [])
    (mkRewriting rw_raced [Logged incr_command] NotRewriting [incr_command]).
Proof.
  apply (rtc_l _ _ (mkRewriting incremented [Written incr_command] NotRewriting [])).
  { exact (rw_write log_server [incr_thread] NotRewriting [] 0 _ incr_command eq_refl). }
  apply (rtc_l _ _ (mkRewriting rw_begun [Written incr_command] (Walking rw_time 0 0 []) [])).
  { by apply rw_begin. }
  apply (rtc_l _ _ _ _ (walk_step 0 0 [] ltac:(lia) ltac:(lia))).
  apply (rtc_l _ _ _ _ (walk_step 0 1 (walk 0 0 []) ltac:(lia) ltac:(lia))).
  apply (rtc_l _ _ _ _ (walk_step 1 0 (walk 0 1 (walk 0 0 [])) ltac:(lia) ltac:(lia))).
  apply (rtc_l _ _ _ _ (walk_step 1 1 (walk 1 0 (walk 0 1 (walk 0 0 []))) ltac:(lia) ltac:(lia))).
  apply (rtc_l _ _ (mkRewriting rw_ended [Written incr_command] NotRewriting [])).
  { by apply rw_swap. }
  apply (rtc_l _ _ (mkRewriting rw_raced [Logged incr_command] NotRewriting [incr_command])); [|apply rtc_refl].
  apply (rw_log rw_ended [Written incr_command] NotRewriting [] 0 incr_command eq_refl).
  by repeat constructor.
Qed.

Lemma rewrite_keeps_log_readable_witness :
  ∃ a' base, AOF rw_raced = Some a' ∧
    read_all (S (length (base ++ [incr_command]))) (aof_log_bytes a') = (base ++ [incr_command], None).
Proof.
  apply (rewrite_keeps_log_readable demo_platform_ok Always [] (aof_open [] Always) log_server [incr_thread]
           (mkRewriting rw_raced [Logged incr_command] NotRewriting [incr_command])).
  - reflexivity.
  - apply (aof_open_ok Always []); [constructor|done].
  - exact rw_race_steps.
Defined.

Definition value_of_n (s : Server) : option bytes := (get (bs "n") 1000 (core s)).1.

(** A rewrite can make a command count twice.  An [INCR] has changed the store and not yet
    been logged when a rewrite walks the store and swaps the log; its append then lands in the
    new log, which already has its effect.  The server holds 1, and after a restart 2. *)
Theorem rewrite_counts_twice :
  ∃ s a, rtc rw_step (mkRewriting log_server [incr_thread] NotRewriting [])
           (mkRewriting s [Logged incr_command] NotRewriting [incr_command]) ∧
    value_of_n s = Some (bs "1") ∧ AOF s = Some a ∧
    match start None (Some (aof_disk a)) 5 with
    | Ok s' => value_of_n s' = Some (bs "2")
    | Err _ => False
    end.
Proof.
  exists rw_raced, (append incr_command (swapped (aof_open [] Always) walked)).
  split_and!; [exact rw_race_steps| | |]; vm_compute; reflexivity.
Qed.
End Example.
