(* ===== verification/KvStore.v ===== *)
(** * The interface of a key-value store

    What the program promises of a store, as a class: it runs the operations of
    StoreSpec.v, and a simulation relation ties its states to the abstract database.
    A store may restrict when an operation behaves as specified ([kv_pre]).  Whatever
    two stores implement it, and whatever their hash functions and the orders in which
    their maps are iterated, clients cannot tell them apart ([kv_agree]) but by the order
    of the fields in an [HGETALL].  The server's store is an instance without
    restrictions; LibStore.v gives a second one. *)

From S2P Require Import Prelude Config S3Fifo State Store Steps StoreOps StoreSpec.

Class KvStore {P : Platform} (S : Type) := {
  kv_op : StoreOp → Z → S → Reply * S;
  kv_pre : StoreOp → Z → Db → Prop;
  kv_sim : Z → S → Db → Prop;
  kv_sim_later t t' s db : t ≤ t' → kv_sim t s db → kv_sim t' s db;
  kv_op_sim op now s db :
    kv_sim now s db → kv_pre op now db →
    (kv_op op now s).1 = (spec_op op now db).1 ∧
    kv_sim now (kv_op op now s).2 (spec_op op now db).2
}.

Section Kv.
Context {P : Platform}.

Fixpoint kv_run {S : Type} `{!KvStore S} (ops : list (Z * StoreOp)) (s : S) : list Reply * S :=
  match ops with
  | [] => ([], s)
  | (now, op) :: ops =>
      let r := kv_op op now s in
      let rs := kv_run ops r.2 in (r.1 :: rs.1, rs.2)
  end.

(** The restriction of the store holds along the abstract run. *)
Fixpoint kv_allowed (S : Type) `{!KvStore S} (ops : list (Z * StoreOp)) (db : Db) : Prop :=
  match ops with
  | [] => True
  | (now, op) :: ops => kv_pre op now db ∧ kv_allowed S ops (spec_op op now db).2
  end.

Lemma kv_run_sim {S : Type} `{!KvStore S} t ops s db :
  kv_sim t s db → in_order t ops → kv_allowed S ops db →
  (kv_run ops s).1 = (spec_ops ops db).1 ∧
  kv_sim (end_time t ops) (kv_run ops s).2 (spec_ops ops db).2.
Proof.
  revert t s db. induction ops as [|[now op] ops IH]; intros t s db Hs Ho Ha; [done|].
  destruct Ho as [Ht Ho], Ha as [Hp Ha]. cbn [kv_run spec_ops fst snd]. rewrite end_time_cons.
  destruct (kv_op_sim op now s db (kv_sim_later _ _ _ _ Ht Hs) Hp) as [-> Hs'].
  destruct (IH now _ _ Hs' Ho Ha) as [-> Hs'']. done.
Qed.

(** ** The server's store *)

Context {CFG : HasConfig}.

#[export] Program Instance core_kv : KvStore Core := {|
  kv_op := run_op;
  kv_pre _ _ _ := True;
  kv_sim := sim
|}.
Next Obligation. intros. by eapply sim_later. Qed.
Next Obligation. intros op now c db Hs _. apply (simulates_op now op c db Hs). Qed.

Lemma kv_run_core ops c : kv_run ops c = run_ops ops c.
Proof.
  revert c. induction ops as [|[now op] ops IH]; intros c; [done|].
  cbn [kv_run run_ops]. rewrite IH. done.
Qed.

Lemma core_allowed ops db : kv_allowed Core ops db.
Proof. revert db. induction ops as [|[now op] ops IH]; intros db; [done|]. split; [done|]. apply IH. Qed.

End Kv.

(** ** Two stores *)

(** The fields and values of an [HGETALL] come in the order of the map. *)
Definition flat (l : list (bytes * bytes)) : list bytes := concat (map (λ kv, [kv.1; kv.2]) l).

(** Equal replies, but for that order. *)
Definition same_reply (r1 r2 : Reply) : Prop :=
  match r1, r2 with
  | RFields (Ok l1), RFields (Ok l2) => ∃ ps1 ps2, l1 = flat ps1 ∧ l2 = flat ps2 ∧ ps1 ≡ₚ ps2
  | _, _ => r1 = r2
  end.

Section Two.
Context (P1 P2 : Platform) (HP1 : PlatformOk P1) (HP2 : PlatformOk P2).

Lemma spec_op_platforms op now db :
  same_reply (@spec_op P1 op now db).1 (@spec_op P2 op now db).1 ∧
  (@spec_op P1 op now db).2 = (@spec_op P2 op now db).2.
Proof.
  split; [|by destruct op]. destruct op as [| | | | | | |k|]; try done. cbn. unfold db_read.
  destruct (db_live now db k) as [[[v|h] x]|]; [done| |by exists [], []].
  cbn. exists (@map_iter P1 _ h), (@map_iter P2 _ h). split_and!; [done..|].
  pose proof (@map_iter_perm P1 HP1 _ h) as H1. pose proof (@map_iter_perm P2 HP2 _ h) as H2. by rewrite H1, H2.
Qed.

Lemma spec_ops_platforms ops db :
  Forall2 same_reply (@spec_ops P1 ops db).1 (@spec_ops P2 ops db).1.
Proof.
  revert db. induction ops as [|[now op] ops IH]; intros db; cbn [spec_ops fst]; [apply List.Forall2_nil|].
  destruct (spec_op_platforms op now db) as [Hr Hdb]. apply List.Forall2_cons; [done|]. rewrite Hdb. apply IH.
Qed.

(** Two stores that start from the same database give the same replies. *)
Lemma kv_agree {S1 S2 : Type} (K1 : @KvStore P1 S1) (K2 : @KvStore P2 S2) t ops (s1 : S1) (s2 : S2) db :
  kv_sim t s1 db → kv_sim t s2 db → in_order t ops →
  kv_allowed S1 ops db → kv_allowed S2 ops db →
  Forall2 same_reply (kv_run ops s1).1 (kv_run ops s2).1.
Proof.
  intros H1 H2 Ho Ha1 Ha2.
  destruct (kv_run_sim t ops s1 db H1 Ho Ha1) as [-> _].
  destruct (kv_run_sim t ops s2 db H2 Ho Ha2) as [-> _]. apply spec_ops_platforms.
Qed.
End Two.
