(* ===== verification/LibStore.v ===== *)
(** * The library crate ([src/lib.rs])

    A second store, without eviction, memory accounting and access bookkeeping,
    that the unit tests link; its configuration records and helper functions.  The
    state is a value and every method a function on it.  A second instance of the
    interface of KvStore.v: clients see what clients of the server's store see,
    except that [delete], which is given no time, counts expired keys. *)

From Stdlib Require Import SpecFloat.
From S2P Require Import Prelude Decimal Protocol Config S3Fifo State Store Steps StoreOps StoreSpec.
From S2P Require Import KvStore Server Demo.

(** ** Configuration *)

(** [lib.rs] has no persistence section and no S3-FIFO ratios; the other records are
    those of [config.rs]. *)
Record LibMemoryConfig := mkLibMemory {
  lib_max_memory : Z;              (* u64 *)
  lib_eviction_policy : string;
  lib_eviction_sample_size : Z     (* usize *)
}.

Record LibConfig := mkLibConfig {
  lib_server : ServerConfig;
  lib_security : SecurityConfig;
  lib_logging : LoggingConfig;
  lib_performance : PerformanceConfig;
  lib_memory : LibMemoryConfig
}.

Definition lib_default_server : ServerConfig := {|
  bind := "127.0.0.1";
  port := 6379;
  cfg_num_shards := 256;
  batch_size := 16;
  buffer_size := 16 * 1024;
  buffer_pool_size := 1024;
  max_connections := 10000;
  connection_timeout := 300;
  connection_rate_limit := 0;
  health_check_port := 0;
  shutdown_grace_period_secs := 30
|}.

Definition lib_default_security : SecurityConfig := {|
  password := "";
  tls_enabled := false;
  tls_cert_path := "";
  tls_key_path := ""
|}.

Definition lib_default_logging : LoggingConfig := {| level := "info"; format := "text" |}.

Definition lib_default_performance : PerformanceConfig :=
  {| tcp_nodelay := true; tcp_keepalive := 60 |}.

Definition lib_default_memory : LibMemoryConfig := {|
  lib_max_memory := 0;
  lib_eviction_policy := "allkeys-lru";
  lib_eviction_sample_size := 5
|}.

Definition lib_default_config : LibConfig := {|
  lib_server := lib_default_server;
  lib_security := lib_default_security;
  lib_logging := lib_default_logging;
  lib_performance := lib_default_performance;
  lib_memory := lib_default_memory
|}.

Definition lib_from_str (s : string) : EvictionPolicy :=
  let s := to_lowercase s in
  if String.eqb s "allkeys-lru" then AllKeysLru
  else if String.eqb s "allkeys-random" then AllKeysRandom
  else if String.eqb s "allkeys-s3fifo" then AllKeysS3Fifo
  else if String.eqb s "noeviction" then NoEviction
  else AllKeysLru.

Definition lib_as_str (p : EvictionPolicy) : string :=
  match p with
  | NoEviction => "noeviction"
  | AllKeysLru => "allkeys-lru"
  | AllKeysRandom => "allkeys-random"
  | AllKeysS3Fifo => "allkeys-s3fifo"
  end.

(** ** The store *)

(** Entries are those of State.v: [lib.rs] declares the same types. *)
Record LibStore := mkLib {
  lib_shards : list Shard;
  lib_num_shards : Z
}.

Section Lib.
Context {P : Platform}.

Definition lib_new (num_shards : Z) : LibStore :=
  mkLib (replicate (Z.to_nat num_shards) ∅) num_shards.

Definition lib_hash (s : LibStore) (key : bytes) : nat := shard_index (lib_num_shards s) key.

(** [self.shards[i]], a lookup in it, and an update of one entry of it. *)
Definition lib_shard (s : LibStore) (i : nat) : Shard := default ∅ (lib_shards s !! i).
Definition lib_lookup (s : LibStore) (key : bytes) : option Entry :=
  lib_shard s (lib_hash s key) !! key.
Definition lib_put (i : nat) (key : bytes) (o : option Entry) (s : LibStore) : LibStore :=
  mkLib (alter (partial_alter (λ _, o) key) i (lib_shards s)) (lib_num_shards s).

(** [Entry { value, expiry, 0, 0, 0 }]. *)
Definition lib_entry (v : EntryValue) (expiry : option Z) : Entry := mkEntry v expiry 0 0 0.

Definition lib_set (key value : bytes) (ttl : option Z) (now : Z) (s : LibStore) : LibStore :=
  let expiry := (λ t, u64 (now + t)) <$> ttl in
  lib_put (lib_hash s key) key (Some (lib_entry (EV_String value) expiry)) s.

Definition lib_get (key : bytes) (now : Z) (s : LibStore) : option bytes * LibStore :=
  match lib_lookup s key with
  | Some e =>
      if expired now e then (None, lib_put (lib_hash s key) key None s)
      else (match e_value e with EV_String v => Some v | EV_Hash _ => None end, s)
  | None => (None, s)
  end.

Definition lib_key_type (key : bytes) (now : Z) (s : LibStore) : string * LibStore :=
  match lib_lookup s key with
  | None => ("none"%string, s)
  | Some e =>
      if expired now e then ("none"%string, lib_put (lib_hash s key) key None s)
      else (match e_value e with EV_String _ => "string" | EV_Hash _ => "hash" end%string, s)
  end.

(** The keys of [delete] grouped by shard. *)
Definition group_keys (s : LibStore) (keys : list bytes) : list (list bytes) :=
  foldl (λ groups key, alter (λ l, l ++ [key]) (lib_hash s key) groups)
    (replicate (Z.to_nat (lib_num_shards s)) []) keys.

(** The inner loop of [delete] on shard [idx]. *)
Definition lib_delete_shard (st : Z * LibStore) (idx : nat) (keys_in_shard : list bytes)
    : Z * LibStore :=
  foldl (λ st key,
    match lib_shard st.2 idx !! key with
    | Some _ => (st.1 + 1, lib_put idx key None st.2)
    | None => st
    end) st keys_in_shard.

Definition lib_delete (keys : list bytes) (s : LibStore) : Z * LibStore :=
  foldl (λ st g, lib_delete_shard st g.1 g.2) (0, s) (imap pair (group_keys s keys)).

Definition lib_exists (keys : list bytes) (now : Z) (s : LibStore) : Z :=
  foldl (λ count key,
    match lib_lookup s key with
    | Some e => if expired now e then count else count + 1
    | None => count
    end) 0 keys.

Definition lib_keys (now : Z) (s : LibStore) : list bytes :=
  lib_shards s ≫= λ m, (filter (λ kv, expired now kv.2 = false) (map_iter m)).*1.

Definition lib_len (s : LibStore) : Z := zsum (λ m, Z.of_nat (size m)) (lib_shards s).

Definition lib_is_empty (s : LibStore) : bool :=
  forallb (λ m, bool_decide (m = ∅)) (lib_shards s).

Definition lib_clear (s : LibStore) : LibStore :=
  mkLib ((λ _, ∅) <$> lib_shards s) (lib_num_shards s).

(** The [loop] of [hset]: the map it breaks with, and the store.  After an expired
    entry is removed, [continue] finds the entry vacant. *)
Definition lib_hset_entry (key : bytes) (now : Z) (s : LibStore)
    : Result (gmap bytes bytes) bytes * LibStore :=
  let vacant := (Ok ∅, lib_put (lib_hash s key) key (Some (lib_entry (EV_Hash ∅) None)) s) in
  match lib_lookup s key with
  | Some e =>
      if expired now e then vacant
      else match e_value e with EV_Hash h => (Ok h, s) | EV_String _ => (Err WRONGTYPE, s) end
  | None => vacant
  end.

Definition lib_hset (key : bytes) (fields : list (bytes * bytes)) (now : Z) (s : LibStore)
    : Result Z bytes * LibStore :=
  match lib_hset_entry key now s with
  | (Err e, s) => (Err e, s)
  | (Ok h, s) =>
      let '(h', new_count) := insert_fields fields h 0 in
      (Ok new_count, lib_put (lib_hash s key) key (with_value (EV_Hash h') <$> lib_lookup s key) s)
  end.

Definition lib_hget (key field : bytes) (now : Z) (s : LibStore)
    : Result (option bytes) bytes * LibStore :=
  match lib_lookup s key with
  | Some e =>
      if expired now e then (Ok None, lib_put (lib_hash s key) key None s)
      else (match e_value e with EV_Hash h => Ok (h !! field) | EV_String _ => Err WRONGTYPE end, s)
  | None => (Ok None, s)
  end.

Definition lib_hgetall (key : bytes) (now : Z) (s : LibStore) : Result (list bytes) bytes * LibStore :=
  match lib_lookup s key with
  | Some e =>
      if expired now e then (Ok [], lib_put (lib_hash s key) key None s)
      else (match e_value e with
            | EV_Hash h => Ok (concat (map (λ kv, [kv.1; kv.2]) (map_iter h)))
            | EV_String _ => Err WRONGTYPE
            end, s)
  | None => (Ok [], s)
  end.

Definition lib_hdel (key : bytes) (fields : list bytes) (now : Z) (s : LibStore)
    : Result Z bytes * LibStore :=
  match lib_lookup s key with
  | Some e =>
      if expired now e then (Ok 0, lib_put (lib_hash s key) key None s)
      else
        match e_value e with
        | EV_Hash h =>
            let '(h', removed) := remove_fields fields h 0 in
            let s := lib_put (lib_hash s key) key (Some (with_value (EV_Hash h') e)) s in
            (Ok removed,
             if (0 <? removed) && bool_decide (h' = ∅) then lib_put (lib_hash s key) key None s
             else s)
        | EV_String _ => (Err WRONGTYPE, s)
        end
  | None => (Ok 0, s)
  end.

(** ** Helpers *)

Definition lib_entry_size (key_len value_len : Z) : Z := usize (key_len + value_len + 64).

(** The copies of the server's helpers. *)
Definition lib_format_bytes (n : Z) : bytes :=
  let KB := 1024 in
  let MB := 1024 * KB in
  let GB := 1024 * MB in
  let div d := SFdiv 53 1024 (f64_of_u64 n) (f64_of_u64 d) in
  if GB <=? n then fmt_f64_2 (div GB) ++ bs "GB"
  else if MB <=? n then fmt_f64_2 (div MB) ++ bs "MB"
  else if KB <=? n then fmt_f64_2 (div KB) ++ bs "KB"
  else fmt_unsigned n ++ bs "B".

Definition lib_eq_ignore_case_3 (a b : bytes) : bool :=
  (len a =? 3) && eq_ignore_case a b.
Definition lib_eq_ignore_case_6 (a b : bytes) : bool :=
  (len a =? 6) && eq_ignore_case a b.

Definition lib_connection_new : ConnectionState := mkConn true.

Definition lib_evict_if_needed (_ : LibStore) (_ : Z) : bool := true.


(** ** The invariant *)

Record lib_wf (s : LibStore) : Prop := {
  lwf_pos : 0 < lib_num_shards s;
  lwf_len : length (lib_shards s) = Z.to_nat (lib_num_shards s);
  lwf_placed i m k : lib_shards s !! i = Some m → is_Some (m !! k) → lib_hash s k = i
}.

Lemma lib_hash_lt s k : lib_wf s → (lib_hash s k < length (lib_shards s))%nat.
Proof.
  intros [Hp Hl _]. rewrite Hl. unfold lib_hash, shard_index.
  pose proof (Z.mod_pos_bound (ahash k) _ Hp). lia.
Qed.

Lemma lib_put_wf s k o : lib_wf s → lib_wf (lib_put (lib_hash s k) k o s).
Proof.
  intros [Hp Hl Hpl]. split; cbn; [done|by rewrite length_alter|].
  intros i m k'. unfold lib_hash. cbn. destruct (decide (i = lib_hash s k)) as [->|Hi].
  - rewrite list_lookup_alter_eq. intros (m0 & Hm0 & ->)%fmap_Some_1 Hk.
    destruct (decide (k' = k)) as [->|Hk']; [done|].
    rewrite lookup_partial_alter_ne in Hk by done. by eapply (Hpl _ m0).
  - rewrite list_lookup_alter_ne by done. apply Hpl.
Qed.

Lemma lib_lookup_put s k o k' :
  lib_wf s →
  lib_lookup (lib_put (lib_hash s k) k o s) k' = if decide (k' = k) then o else lib_lookup s k'.
Proof.
  intros Hwf. destruct (lookup_lt_is_Some_2 _ _ (lib_hash_lt s k Hwf)) as [m Hm].
  unfold lib_lookup, lib_shard, lib_hash in *. cbn.
  destruct (decide (shard_index (lib_num_shards s) k' = shard_index (lib_num_shards s) k)) as [He|Hne].
  - rewrite He, list_lookup_alter_eq, Hm. cbn.
    destruct (decide (k' = k)) as [->|Hk]; [apply lookup_partial_alter_eq|].
    by rewrite lookup_partial_alter_ne.
  - rewrite list_lookup_alter_ne by done. rewrite decide_False; [done|]. by intros ->.
Qed.

(** ** The simulation *)

Definition lib_sim (now : Z) (s : LibStore) (db : Db) : Prop :=
  lib_wf s ∧ ∀ k, agrees now (lib_lookup s k) db k.

Lemma lib_sim_later t t' s db : t ≤ t' → lib_sim t s db → lib_sim t' s db.
Proof.
  intros Ht [Hwf H]. split; [done|]. intros k. by eapply agrees_later.
Qed.

Lemma lib_sim_put now s db k o db' :
  lib_sim now s db → agrees now o db' k → (∀ k', k' ≠ k → db' !! k' = db !! k') →
  lib_sim now (lib_put (lib_hash s k) k o s) db'.
Proof.
  intros [Hwf H] Ho Hne. split; [by apply lib_put_wf|]. intros k'.
  rewrite lib_lookup_put by done. destruct (decide (k' = k)) as [->|Hk]; [done|].
  eapply agrees_ne; [by apply Hne|]. apply H.
Qed.

Lemma lib_sim_insert now s db k e :
  lib_sim now s db → lib_sim now (lib_put (lib_hash s k) k (Some e) s) (<[k:=data e]> db).
Proof.
  intros Hs. eapply lib_sim_put; [done|apply agrees_insert|by intros; rewrite lookup_insert_ne].
Qed.

Lemma lib_sim_delete now s db k :
  lib_sim now s db → lib_sim now (lib_put (lib_hash s k) k None s) (base.delete k db).
Proof.
  intros Hs. eapply lib_sim_put; [done|apply agrees_delete|by intros; rewrite lookup_delete_ne].
Qed.

(** What is stored and unexpired is exactly what is visible. *)
Lemma lib_live now s db k :
  lib_sim now s db → db_live now db k = data <$> unexpired now (lib_lookup s k).
Proof.
  intros [_ H]. by apply agrees_live.
Qed.

(** Dropping an expired entry is invisible. *)
Lemma lib_sim_expire now s db k e :
  lib_sim now s db → lib_lookup s k = Some e → expired now e = true →
  lib_sim now (lib_put (lib_hash s k) k None s) db.
Proof.
  intros Hs Hk Hx. eapply lib_sim_put; [done| |done]. cbn.
  rewrite (lib_live now s db k Hs), Hk. cbn. by rewrite Hx.
Qed.

(** All reads have this shape. *)
Definition lib_read {A : Type} (key : bytes) (now : Z) (dead : A) (val : EntryValue → A)
    (s : LibStore) : A * LibStore :=
  match lib_lookup s key with
  | Some e =>
      if expired now e then (dead, lib_put (lib_hash s key) key None s) else (val (e_value e), s)
  | None => (dead, s)
  end.

Lemma lib_read_sim {A : Type} now s db k (dead : A) val :
  lib_sim now s db →
  (lib_read k now dead val s).1 = db_read now db k dead val ∧
  lib_sim now (lib_read k now dead val s).2 db.
Proof.
  intros Hs. unfold lib_read, db_read. rewrite (lib_live now s db k Hs).
  destruct (lib_lookup s k) as [e|] eqn:E; cbn; [|done].
  destruct (expired now e) eqn:Hx; cbn; [|done]. split; [done|]. by eapply lib_sim_expire.
Qed.

(** ** [delete]: grouping by shard does not matter *)

Lemma group_keys_perm s ks : lib_wf s → concat (group_keys s ks) ≡ₚ ks.
Proof.
  intros Hwf. unfold group_keys.
  assert (∀ g, length g = Z.to_nat (lib_num_shards s) →
    concat (foldl (λ groups key, alter (λ l, l ++ [key]) (lib_hash s key) groups) g ks)
      ≡ₚ concat g ++ ks) as H.
  { induction ks as [|k ks IH]; intros g Hg; cbn [foldl]; [by rewrite app_nil_r|].
    rewrite IH by by rewrite length_alter.
    assert (lib_hash s k < length g)%nat as Hlt
      by (rewrite Hg, <- (lwf_len s Hwf); by apply lib_hash_lt).
    rewrite (concat_alter_app (lib_hash s k) k g Hlt). cbn. apply Permutation_middle. }
  rewrite H by by rewrite length_replicate. by rewrite concat_replicate_nil.
Qed.

Lemma group_keys_hash s ks i g : group_keys s ks !! i = Some g → Forall (λ k, lib_hash s k = i) g.
Proof.
  unfold group_keys.
  assert (∀ gs : list (list bytes), (∀ i g, gs !! i = Some g → Forall (λ k, lib_hash s k = i) g) →
    ∀ i g, foldl (λ groups key, alter (λ l, l ++ [key]) (lib_hash s key) groups) gs ks !! i = Some g →
    Forall (λ k, lib_hash s k = i) g) as H.
  { induction ks as [|k ks IH]; intros gs Hgs; cbn [foldl]; [done|]. apply IH. clear IH.
    intros j l. destruct (decide (j = lib_hash s k)) as [->|Hj].
    - rewrite list_lookup_alter_eq. intros (l0 & Hl0 & ->)%fmap_Some_1.
      apply Forall_app. split; [by apply Hgs|]. by apply Forall_singleton.
    - rewrite list_lookup_alter_ne by done. apply Hgs. }
  apply H. intros j l [-> _]%lookup_replicate. by constructor.
Qed.

Definition lib_delete_key (n : Z) (st : Z * LibStore) (key : bytes) : Z * LibStore :=
  match lib_shard st.2 (shard_index n key) !! key with
  | Some _ => (st.1 + 1, lib_put (shard_index n key) key None st.2)
  | None => st
  end.

Lemma lib_delete_flat s ks :
  lib_delete ks s = foldl (lib_delete_key (lib_num_shards s)) (0, s) (concat (group_keys s ks)).
Proof.
  unfold lib_delete. pose proof (group_keys_hash s ks) as Hg. revert Hg.
  generalize (group_keys s ks) as gs. intros gs Hgs.
  assert (∀ (h : nat → nat) st, (∀ i g, gs !! i = Some g → Forall (λ k, lib_hash s k = h i) g) →
    foldl (λ st g, lib_delete_shard st g.1 g.2) st (imap (λ i g, (h i, g)) gs)
    = foldl (lib_delete_key (lib_num_shards s)) st (concat gs)) as H; [|by apply (H id)].
  clear Hgs. induction gs as [|g gs IH]; intros h st Hg; [done|].
  cbn [imap foldl concat fst snd]. rewrite foldl_app.
  rewrite <- (IH (h ∘ S)); [|intros i l Hl; by apply (Hg (S i))]. f_equal.
  specialize (Hg 0%nat g eq_refl). clear IH. revert st.
  induction Hg as [|k g Hk _ IH]; intros st; [done|].
  unfold lib_delete_shard in *. cbn [foldl]. rewrite IH. unfold lib_delete_key at 3.
  unfold lib_hash in Hk. by rewrite Hk.
Qed.

(** The keys to delete are live or gone. *)
Definition no_expired (now : Z) (db : Db) (ks : list bytes) : Prop :=
  ∀ k, k ∈ ks → db_live now db k = None → db !! k = None.

Lemma lib_delete_key_sim now n s db k :
  lib_sim now s db → no_expired now db [k] →
  let st := lib_delete_key (lib_num_shards s) (n, s) k in
  st.1 = n + db_count now db k ∧ lib_num_shards st.2 = lib_num_shards s ∧
  lib_sim now st.2 (base.delete k db).
Proof.
  intros Hs Hx. unfold lib_delete_key. cbn. fold (lib_hash s k). fold (lib_lookup s k).
  unfold db_count. pose proof (lib_live now s db k Hs) as Hl.
  destruct (lib_lookup s k) as [e|] eqn:E; cbn.
  - destruct (expired now e) eqn:Hx'.
    + cbn in Hl. rewrite Hx' in Hl. pose proof (proj2 Hs k) as Ha. rewrite E in Ha. cbn in Ha.
      rewrite (Hx k) in Ha; [done|set_solver|done].
    + cbn in Hl. rewrite Hx' in Hl. rewrite Hl. split_and!; [done..|]. by apply lib_sim_delete.
  - cbn in Hl. rewrite Hl. split_and!; [lia|done|]. split; [apply Hs|]. intros k'.
    pose proof (proj2 Hs k') as Ha. unfold agrees, db_live in *.
    destruct (decide (k' = k)) as [->|Hk]; [by rewrite E, lookup_delete_eq|].
    by rewrite !lookup_delete_ne.
Qed.

Lemma no_expired_delete now db k ks : no_expired now db (k :: ks) → no_expired now (base.delete k db) ks.
Proof.
  intros H k' Hk'. unfold db_live. destruct (decide (k' = k)) as [->|Hne].
  - by rewrite lookup_delete_eq.
  - rewrite lookup_delete_ne by done. apply H. by apply elem_of_cons; right.
Qed.

Lemma lib_delete_keys_sim now n s db ks :
  lib_sim now s db → no_expired now db ks →
  let st := foldl (lib_delete_key (lib_num_shards s)) (n, s) ks in
  st.1 = (db_delete now db ks n).1 ∧ lib_sim now st.2 (db_delete now db ks n).2.
Proof.
  revert n s db. induction ks as [|k ks IH]; intros n s db Hs Hx; [done|]. cbn [foldl db_delete].
  destruct (lib_delete_key_sim now n s db k Hs) as (Hn & Hnum & Hs').
  { intros k' Hk'. apply Hx. apply elem_of_cons. left. by apply list_elem_of_singleton. }
  destruct (lib_delete_key (lib_num_shards s) (n, s) k) as [n' s']. cbn in *. subst n'.
  rewrite <- Hnum. apply IH; [done|]. by apply no_expired_delete.
Qed.

Lemma db_count_delete_ne now db k k' : k' ≠ k → db_count now (base.delete k db) k' = db_count now db k'.
Proof. intros. unfold db_count, db_live. by rewrite lookup_delete_ne. Qed.

(** The order of the keys of a [DEL] does not matter. *)
Lemma db_delete_perm now db ks ks' n : ks ≡ₚ ks' → db_delete now db ks n = db_delete now db ks' n.
Proof.
  intros Hp. revert db n. induction Hp as [|k l l' _ IH|k k' l|l1 l2 l3 _ IH1 _ IH2];
    intros db n; cbn; [done|by rewrite IH| |by rewrite IH1, IH2].
  destruct (decide (k = k')) as [->|Hne]; [done|].
  rewrite !db_count_delete_ne by done. rewrite (delete_delete _ k k'). f_equal. lia.
Qed.

(** ** The library store is a key-value store *)

Definition lib_op (op : StoreOp) (now : Z) (s : LibStore) : Reply * LibStore :=
  match op with
  | OSet k v ttl => (RUnit, lib_set k v ttl now s)
  | OGet k => let r := lib_get k now s in (RValue r.1, r.2)
  | OType k => let r := lib_key_type k now s in (RType r.1, r.2)
  | ODelete ks => let r := lib_delete ks s in (RCount r.1, r.2)
  | OExists ks => (RCount (lib_exists ks now s), s)
  | OHSet k fields => let r := lib_hset k fields now s in (RFieldCount r.1, r.2)
  | OHGet k f => let r := lib_hget k f now s in (RField r.1, r.2)
  | OHGetAll k => let r := lib_hgetall k now s in (RFields r.1, r.2)
  | OHDel k fields => let r := lib_hdel k fields now s in (RFieldCount r.1, r.2)
  end.

(** [delete] must not name an expired key. *)
Definition lib_pre (op : StoreOp) (now : Z) (db : Db) : Prop :=
  match op with ODelete ks => no_expired now db ks | _ => True end.

Lemma lib_exists_sim now s db ks :
  lib_sim now s db → lib_exists ks now s = zsum (db_count now db) ks.
Proof.
  intros Hs. unfold lib_exists. rewrite <- (Z.add_0_l (zsum _ _)). generalize 0 as n.
  induction ks as [|k ks IH]; intros n; [unfold zsum; cbn; lia|].
  cbn [foldl]. rewrite IH. unfold zsum. cbn. unfold db_count at 2.
  rewrite (lib_live now s db k Hs). destruct (lib_lookup s k) as [e|]; cbn; [|lia].
  destruct (expired now e); cbn; lia.
Qed.

Lemma lib_hset_sim now s db k fields :
  lib_sim now s db →
  (lib_hset k fields now s).1 = (db_hset now db k fields).1 ∧
  lib_sim now (lib_hset k fields now s).2 (db_hset now db k fields).2.
Proof.
  intros Hs. pose proof (proj1 Hs) as Hwf. unfold lib_hset, lib_hset_entry, db_hset.
  rewrite (lib_live now s db k Hs). set (s0 := lib_put _ _ _ s).
  assert (lib_wf s0) as Hwf0 by by apply lib_put_wf.
  assert (∀ h, lib_sim now (lib_put (lib_hash s0 k) k (Some (lib_entry (EV_Hash h) None)) s0)
                 (<[k:=(EV_Hash h, None)]> db)) as Hv.
  { intros h. rewrite <- (insert_insert_eq db k (EV_Hash h, None) (EV_Hash ∅, None)).
    apply (lib_sim_insert now s0 _ k (lib_entry (EV_Hash h) None)).
    by apply (lib_sim_insert now s db k (lib_entry (EV_Hash ∅) None)). }
  assert (lib_lookup s0 k = Some (lib_entry (EV_Hash ∅) None)) as E0.
  { unfold s0. rewrite lib_lookup_put by done. by rewrite decide_True. }
  destruct (lib_lookup s k) as [e|] eqn:E; cbn; [destruct (expired now e) eqn:Hx; cbn|].
  - rewrite insert_fields_spec, E0. cbn. unfold zsize at 2. rewrite map_size_empty.
    split; [f_equal; lia|apply Hv].
  - destruct e as [v x la q a]. cbn. destruct v as [v|h]; cbn; [done|].
    rewrite insert_fields_spec, E. cbn. split; [done|].
    apply (lib_sim_insert now s db k (mkEntry (EV_Hash (put_fields fields h)) x la q a) Hs).
  - rewrite insert_fields_spec, E0. cbn. unfold zsize at 2. rewrite map_size_empty.
    split; [f_equal; lia|apply Hv].
Qed.

Lemma lib_hdel_sim now s db k fields :
  lib_sim now s db →
  (lib_hdel k fields now s).1 = (db_hdel now db k fields).1 ∧
  lib_sim now (lib_hdel k fields now s).2 (db_hdel now db k fields).2.
Proof.
  intros Hs. unfold lib_hdel, db_hdel. rewrite (lib_live now s db k Hs).
  destruct (lib_lookup s k) as [e|] eqn:E; cbn; [|done].
  destruct (expired now e) eqn:Hx; cbn.
  { split; [done|]. by eapply lib_sim_expire. }
  destruct e as [v x la q a]. cbn. destruct v as [v|h]; cbn; [done|].
  rewrite remove_fields_spec. cbn. split; [done|]. unfold emptied. rewrite Z.add_0_l.
  pose proof (lib_sim_insert now s db k (mkEntry (EV_Hash (drop_fields fields h)) x la q a) Hs) as Hs1.
  destruct (_ && _); [|done].
  rewrite <- (delete_insert_eq db k (EV_Hash (drop_fields fields h), x)).
  by apply (lib_sim_delete now _ _ k Hs1).
Qed.

Lemma lib_op_sim op now s db :
  lib_sim now s db → lib_pre op now db →
  (lib_op op now s).1 = (spec_op op now db).1 ∧ lib_sim now (lib_op op now s).2 (spec_op op now db).2.
Proof.
  intros Hs Hp. destruct op as [k v ttl|k|k|ks|ks|k fields|k f|k|k fields]; cbn [lib_op spec_op fst snd].
  - split; [done|]. by apply (lib_sim_insert now s db k (lib_entry (EV_String v) _)).
  - destruct (lib_read_sim now s db k None string_reply Hs) as [H ?].
    by split; [f_equal; exact H|].
  - destruct (lib_read_sim now s db k "none"%string type_reply Hs) as [H1 H2].
    unfold lib_key_type, lib_read in *. destruct (lib_lookup s k) as [e|]; [|by rewrite H1].
    by destruct (expired now e); split; first [f_equal; exact H1|exact H2].
  - cbn in Hp. rewrite lib_delete_flat, <- (db_delete_perm now db _ ks 0 (group_keys_perm s ks (proj1 Hs))).
    destruct (lib_delete_keys_sim now 0 s db (concat (group_keys s ks)) Hs) as [-> H]; [|done].
    intros k Hk. apply Hp. by rewrite <- (group_keys_perm s ks (proj1 Hs)).
  - by rewrite (lib_exists_sim now s db ks Hs).
  - destruct (lib_hset_sim now s db k fields Hs) as [-> H]. done.
  - destruct (lib_read_sim now s db k (Ok None) (field_reply f) Hs) as [H ?].
    by split; [f_equal; exact H|].
  - destruct (lib_read_sim now s db k (Ok []) fields_reply Hs) as [H ?].
    by split; [f_equal; exact H|].
  - destruct (lib_hdel_sim now s db k fields Hs) as [-> H]. done.
Qed.

#[export] Instance lib_kv : KvStore LibStore := {|
  kv_op := lib_op;
  kv_pre := lib_pre;
  kv_sim := lib_sim;
  kv_sim_later := lib_sim_later;
  kv_op_sim := lib_op_sim
|}.

Lemma lib_sim_new n t : 0 < n → lib_sim t (lib_new n) ∅.
Proof.
  intros Hn. split; [split; cbn; [done|by rewrite length_replicate|]|].
  - intros i m k [-> _]%lookup_replicate. rewrite lookup_empty. by intros [? ?].
  - intros k. unfold lib_lookup, lib_shard. cbn.
    destruct (replicate _ _ !! _) as [m|] eqn:E; [|done].
    by apply lookup_replicate in E as [-> _].
Qed.

End Lib.

(** ** Theorems *)

Section Claims.
Context (P1 P2 : Platform) {CFG : HasConfig} (HP1 : PlatformOk P1) (HP2 : PlatformOk P2).

(** C18: the library's store behaves like the server's.  From empty stores with any
    numbers of shards, any hash functions and any orders in which their maps are iterated,
    and under any server configuration, every sequence of operations at nondecreasing times
    gets the same replies from both, but for the order of the fields an [HGETALL] lists, as
    long as no [delete] names an expired key; and both replies are those of the abstract
    database. *)
Theorem lib_matches_server n n' t ops :
  0 < n → 0 < n' → in_order t ops → @kv_allowed P1 LibStore lib_kv ops ∅ →
  let lib := (@kv_run P1 LibStore lib_kv ops (lib_new n)).1 in
  let srv := (@run_ops P2 CFG ops (new n')).1 in
  Forall2 same_reply lib srv ∧ lib = (@spec_ops P1 ops ∅).1 ∧ srv = (@spec_ops P2 ops ∅).1.
Proof.
  intros Hn Hn' Ho Ha lib srv.
  assert (@kv_sim P1 LibStore lib_kv t (lib_new n) ∅) as H1 by by apply lib_sim_new.
  assert (@kv_sim P2 Core core_kv t (new n') ∅) as H2 by by apply sim_new.
  unfold lib, srv. rewrite <- kv_run_core. split_and!.
  - exact (kv_agree P1 P2 HP1 HP2 _ _ t ops (lib_new n) (new n') ∅ H1 H2 Ho Ha (core_allowed ops ∅)).
  - exact (proj1 (kv_run_sim t ops (lib_new n) ∅ H1 Ho Ha)).
  - exact (proj1 (kv_run_sim t ops (new n') ∅ H2 Ho (core_allowed ops ∅))).
Qed.

End Claims.

#[local] Existing Instance demo_platform.
#[local] Existing Instance demo_s3fifo.

(** A platform that hashes and iterates differently. *)
Definition other_platform : Platform := {|
  ahash k := u64 (1 + 31 * zsum u8_val k);
  fastrand_u32 := fastrand_u32;
  fastrand_usize := fastrand_usize;
  system_time := system_time;
  map_iter V m := reverse (map_to_list m);
  process_id := 43;
  elapsed := elapsed
|}.

Lemma other_platform_ok : PlatformOk other_platform.
Proof.
  destruct demo_platform_ok as [H1 H2 H3 H4 H5]. split; try done.
  - intros k. apply u64_range.
  - intros V m. cbn. by rewrite reverse_Permutation.
Qed.

Definition lib_demo_ops : list (Z * StoreOp) :=
  [(100, OSet (bs "a") (bs "1") (Some 10)); (101, OHSet (bs "h") [(bs "f", bs "x"); (bs "g", bs "y")]);
   (102, OHGetAll (bs "h")); (105, ODelete [bs "h"; bs "a"; bs "h"]); (111, OGet (bs "a"));
   (112, OExists [bs "a"; bs "h"])].

Lemma lib_matches_server_witness :
  let lib := (@kv_run other_platform LibStore lib_kv lib_demo_ops (lib_new 3)).1 in
  let srv := (@run_ops demo_platform demo_s3fifo lib_demo_ops (new 4)).1 in
  Forall2 same_reply lib srv ∧ lib = (@spec_ops other_platform lib_demo_ops ∅).1 ∧
  srv = (@spec_ops demo_platform lib_demo_ops ∅).1.
Proof.
  apply (lib_matches_server other_platform demo_platform other_platform_ok demo_platform_ok 3 4 100 lib_demo_ops);
    [lia|lia|cbn; lia|].
  cbn. split_and!; try done.
  intros k Hk. repeat (apply elem_of_cons in Hk as [->|Hk]; [by vm_compute|]).
  by apply elem_of_nil in Hk.
Defined.

(** The two stores list the fields of the hash in different orders. *)
Example lib_orders_differ :
  ((@kv_run other_platform LibStore lib_kv lib_demo_ops (lib_new 3)).1 !! 2%nat,
   (run_ops lib_demo_ops (new 4)).1 !! 2%nat) =
  (Some (RFields (Ok [bs "f"; bs "x"; bs "g"; bs "y"])),
   Some (RFields (Ok [bs "g"; bs "y"; bs "f"; bs "x"]))).
Proof. vm_compute. reflexivity. Qed.

(** The library's [delete] counts expired keys: it has no time to compare with, so
    after a key has expired without being read, deleting it returns 1 where the server
    returns 0. *)
Theorem lib_delete_counts_expired :
  let ops := [(100, OSet (bs "a") (bs "1") (Some 10)); (111, ODelete [bs "a"])] in
  (kv_run ops (lib_new 4)).1 = [RUnit; RCount 1] ∧
  (run_ops ops (new 4)).1 = [RUnit; RCount 0].
Proof. split; vm_compute; reflexivity. Qed.
