(* ===== verification/Network.v ===== *)
(** * The server as its clients see it ([handle_connection] of [src/main.rs] for all
      connections at once)

    Any number of clients send bytes, cut into reads in any way.  Each connection runs its
    loop of Connection.v; turns of different connections, the expiry task and the background
    tasks interleave in any order.  The time of a command is the one its connection read
    when it began to wait, so the times of successive commands may go back.

    The specification is a database and, for each client, the bytes it has still to send and
    those it was answered: a client whose next bytes are a command gets the reply its
    contract (ServerSpec.v) allows. *)

From S2P Require Import Prelude Decimal Protocol Config S3Fifo State Store Steps StoreOps StoreSpec Contents.
From S2P Require Import Eviction Handlers HandlerSpec Aof Snapshot Server ServerSpec Recovery Connection Demo.

(** ** What a stream will bring *)

(** The bytes up to the end of the connection by an error, the timeout or the shutdown. *)
Fixpoint readable (stream : list ReadEvent) : bytes :=
  match stream with
  | ReadData d :: stream => d ++ readable stream
  | ReadError :: _ | [] => []
  end.

(** A read of no bytes is the end of the file; it is the end of the list. *)
Definition brings (e : ReadEvent) : Prop := e ≠ ReadData [].

Lemma parse_command_Ok fuel buffer stream cmd rest stream' :
  parse_command fuel buffer stream = Some (Ok (cmd, rest, stream')) →
  try_parse (buffer ++ readable stream) = Ok (Some (cmd, rest ++ readable stream')).
Proof.
  revert buffer stream. induction fuel as [|fuel IH]; intros buffer stream; cbn [parse_command]; [done|].
  destruct (try_parse buffer) as [[[c r]|]|] eqn:E; [| |done].
  - intros [= <- <- <-]. by apply try_parse_Some.
  - destruct (_ <? _); [done|]. destruct stream as [|[d|] stream]; cbn [readable]; [| |done];
      case_bool_decide; try done; intros Hp%IH.
    + done.
    + by rewrite app_assoc.
Qed.

(** A command that is still incomplete after [MAX_BUFFER_SIZE] bytes. *)
Definition oversized (input : bytes) : Prop :=
  ∃ b, b `prefix_of` input ∧ try_parse b = Ok None ∧ MAX_BUFFER_SIZE < len b.

(** The parser gives up only if no command is to come, or one that is too long. *)
Lemma parse_command_Err fuel buffer stream e :
  Forall brings stream → parse_command fuel buffer stream = Some (Err e) →
  (∀ cmd rest, try_parse (buffer ++ readable stream) ≠ Ok (Some (cmd, rest))) ∨
  oversized (buffer ++ readable stream).
Proof.
  intros Hb. revert buffer. revert fuel. induction Hb as [|ev stream Hev _ IH]; intros fuel buffer.
  - rewrite app_nil_r. induction fuel as [|fuel IHf]; cbn [parse_command]; [done|].
    destruct (try_parse buffer) as [[[c r]|]|] eqn:E; [done| |by left].
    destruct (Z.ltb_spec MAX_BUFFER_SIZE (len buffer)); [right; by exists buffer|]. case_bool_decide; [by left|apply IHf].
  - destruct fuel as [|fuel]; cbn [parse_command]; [done|].
    destruct (try_parse buffer) as [[[c r]|]|] eqn:E; [done| |].
    + destruct (Z.ltb_spec MAX_BUFFER_SIZE (len buffer)).
      { right. exists buffer. split; [by apply prefix_app_r|done]. }
      destruct ev as [d|]; cbn [readable]; [|rewrite app_nil_r, E; by left].
      rewrite bool_decide_false; [|by intros [_ ->]%app_eq_nil]. rewrite app_assoc. apply IH.
    + intros _. left. intros cmd rest. by rewrite (try_parse_Err _ _ _ E).
Qed.

(** And it finds a command that is to come. *)
Lemma parse_command_finds fuel buffer stream cmd rest :
  Forall brings stream → try_parse (buffer ++ readable stream) = Ok (Some (cmd, rest)) →
  ¬ oversized (buffer ++ readable stream) → (length stream < fuel)%nat →
  ∃ rest' stream', parse_command fuel buffer stream = Some (Ok (cmd, rest', stream')) ∧
    rest = rest' ++ readable stream'.
Proof.
  intros Hb. revert buffer fuel. induction Hb as [|ev stream Hev _ IH]; intros buffer [|fuel] Hp Hm Hf;
    cbn [length] in Hf; try lia; cbn [parse_command].
  - cbn in Hp. rewrite app_nil_r in Hp. rewrite Hp. exists rest, []. by rewrite app_nil_r.
  - destruct (try_parse buffer) as [[[c r]|]|] eqn:E.
    + apply (try_parse_Some _ (readable (ev :: stream))) in E. rewrite E in Hp. injection Hp as <- <-. eauto.
    + destruct (Z.ltb_spec MAX_BUFFER_SIZE (len buffer)).
      { destruct Hm. exists buffer. split; [by apply prefix_app_r|done]. }
      destruct ev as [d|]; cbn [readable] in *; [|by rewrite app_nil_r, E in Hp].
      rewrite bool_decide_false; [|by intros [_ ->]%app_eq_nil].
      apply IH; rewrite <- ?app_assoc; [done..|lia].
    + by rewrite (try_parse_Err _ _ _ E) in Hp.
Qed.

(** ** The machine *)

(** A connection that waits for its next command since [now], and one that has ended. *)
Inductive Peer := Live (now : Z) (k : Conn) | Hung (out : bytes).

(** What happens: a client connects, is served a command at the time its connection has
    read, or is hung up on; the expiry task runs at its time. *)
Inductive NetLabel :=
| NOpened (i : nat) (input : list ReadEvent) (ok : bool)
| NServed (i : nat) (command : list bytes) (now : Z) (reply : bytes)
| NHung (i : nat)
| NExpired (now : Z).

Section Machine.
Context {P : Platform} {CFG : HasConfig} {B : Bincode}.

(** [handle_connection] up to its first wait. *)
Definition open_peer (input : list ReadEvent) (ok : bool) : SM Peer :=
  modify_s connected;;
  now ← lift get_timestamp;
  mret (Live now (mkConnection [] input [] connection_new 0 [] ok)).

(** From one wait to the next, or to the end. *)
Definition turn (pfuel : nat) (now : Z) (k : Conn) : SM (option Peer) :=
  serve_at pfuel None (λ k, out ← hang_up k; mret (Some (Hung out)))
    (λ k, now ← lift get_timestamp; mret (Some (Live now k))) now k.

(** The command of a turn, if it has one, with the reply. *)
Definition turn_label (i pfuel : nat) (now : Z) (k : Conn) (s : Server) : NetLabel :=
  match parse_command pfuel (parser k) (stream k) with
  | Some (Ok (command, _, _)) => NServed i command now (execute_command command [] (state k) now s).1.1
  | _ => NHung i
  end.

Inductive net_step : Server * list Peer → option NetLabel → Server * list Peer → Prop :=
| net_open s ps input ok :
    Forall brings input →
    net_step (s, ps) (Some (NOpened (length ps) input ok))
      ((open_peer input ok s).2, ps ++ [(open_peer input ok s).1])
| net_turn s ps i now k pfuel p s' :
    ps !! i = Some (Live now k) → turn pfuel now k s = (Some p, s') →
    net_step (s, ps) (Some (turn_label i pfuel now k s)) (s', <[i:=p]> ps)
| net_expire s ps :
    net_step (s, ps) (Some (NExpired (system_time (ticks (core s))))) ((run_event ExpireTick s).2, ps)
| net_background s ps e :
    match e with Command _ _ _ _ | ExpireTick => False | _ => True end →
    net_step (s, ps) None ((run_event e s).2, ps).

(** Turns of one connection, at most [fuel]. *)
Fixpoint turns (fuel pfuel : nat) (p : Peer) : SM (option bytes) :=
  match p with
  | Hung out => mret (Some out)
  | Live now k =>
      match fuel with
      | O => mret None
      | S fuel =>
          r ← turn pfuel now k;
          match r with Some p => turns fuel pfuel p | None => mret None end
      end
  end.

Lemma connection_loop_turns fuel pfuel k s k' s' :
  connection_loop fuel pfuel k s = (Some k', s') →
  (now ← lift get_timestamp; turns fuel pfuel (Live now k)) s = (Some (hang_up k' s').1, (hang_up k' s').2).
Proof.
  revert k s. induction fuel as [|fuel IH]; intros k s; [done|]. cbn [connection_loop turns].
  unfold turn, serve_at, mbind, SM_bind in *. cbv zeta in *.
  destruct (parse_command pfuel (parser k) (stream k)) as [[[[command buffer] rest]|e]|]; [| |done].
  - destruct (execute_command _ _ _ _ _) as [r s1]. cbn [fst snd]. destruct (_ || _ || _); [|apply IH].
    destruct (flush _ _ _) as [[[[]|e] w] out]; [apply IH|]. intros [= <- <-].
    destruct (hang_up _ s1) as [o s2]. by destruct fuel.
  - intros [= <- <-]. cbn [fst snd]. destruct (hang_up k _) as [o s2]. by destruct fuel.
Qed.

(** [handle_connection] is these turns. *)
Lemma handle_connection_turns fuel pfuel input ok s out s' :
  handle_connection false fuel pfuel input ok s = (Some out, s') →
  (p ← open_peer input ok; turns fuel pfuel p) s = (Some out, s').
Proof.
  unfold handle_connection, open_peer, mbind, SM_bind. cbv zeta. set (s1 := (modify_s connected s).2).
  destruct (connection_loop fuel pfuel _ s1) as [[k|] s2] eqn:E; [|done]. cbn [fst snd].
  apply connection_loop_turns in E. unfold mbind, SM_bind in E. cbv zeta in E.
  destruct (hang_up k s2) as [o s3]. intros [= <- <-]. exact E.
Qed.

(** ** The specification *)

(** A client: whether it reads its replies, what the connection knows of it, the bytes it
    has still to send, the replies it was given, and whether it is still served. *)
Record APeer := mkAPeer {
  a_reads : bool;
  a_state : ConnectionState;
  a_input : bytes;
  a_output : bytes;
  a_alive : bool
}.

Inductive net_spec : Db * list APeer → option NetLabel → Db * list APeer → Prop :=
| ns_open db ps input ok :
    net_spec (db, ps) (Some (NOpened (length ps) input ok))
      (db, ps ++ [mkAPeer ok connection_new (readable input) [] true])
| ns_serve db ps i a command rest now reply db' db'' alive :
    ps !! i = Some a → a_alive a = true →
    try_parse (a_input a) = Ok (Some (command, rest)) →
    reading now → contract command [] now (a_state a) db reply db' → forgets now db' db'' →
    (a_reads a = true → alive = true) →
    net_spec (db, ps) (Some (NServed i command now reply))
      (db'', <[i:=mkAPeer (a_reads a) (next_state command (a_state a)) rest (a_output a ++ reply) alive]> ps)
| ns_hang db ps i a :
    ps !! i = Some a → a_alive a = true →
    (∀ command rest, try_parse (a_input a) ≠ Ok (Some (command, rest))) ∨
      oversized (a_input a) →
    net_spec (db, ps) (Some (NHung i))
      (db, <[i:=mkAPeer (a_reads a) (a_state a) (a_input a) (a_output a) false]> ps)
| ns_expire db ps now db' :
    reading now → forgets now db db' → net_spec (db, ps) (Some (NExpired now)) (db', ps).

Context (HP : PlatformOk P).

Lemma reading_nonneg now : reading now → 0 ≤ now.
Proof. intros [j ->]. apply system_time_u64. Qed.

(** ** The simulation *)

Definition peer_linked (p : Peer) (a : APeer) : Prop :=
  match p with
  | Live now k =>
      reading now ∧ Forall brings (stream k) ∧
      a = mkAPeer (writes_ok k) (state k) (parser k ++ readable (stream k)) (sent k ++ writer k) true
  | Hung out => a_alive a = false ∧ out `prefix_of` a_output a ∧ (a_reads a = true → out = a_output a)
  end.

Definition net_linked (x : Server * list Peer) (y : Db * list APeer) : Prop :=
  sound (core x.1) ∧ y.1 = contents (core x.1) ∧ Forall2 peer_linked x.2 y.2.

Lemma hang_up_linked k s :
  peer_linked (Hung (hang_up k s).1) (mkAPeer (writes_ok k) (state k) (parser k ++ readable (stream k))
                                        (sent k ++ writer k) false).
Proof.
  rewrite (proj1 (hang_up_sent k s)). cbn. split; [done|].
  destruct (writes_ok k); split; try done. by apply prefix_app_r.
Qed.

(** The turn of a connection that finds a command: it is executed once and its reply is
    what the client is owed, whether it is flushed, buffered or lost. *)
Lemma turn_served pfuel now k s command rest stream' p s' :
  reading now → Forall brings (stream k) →
  parse_command pfuel (parser k) (stream k) = Some (Ok (command, rest, stream')) →
  turn pfuel now k s = (Some p, s') →
  let r := execute_command command [] (state k) now s in
  (core s' = core r.2 ∨ core s' = tick (core r.2)) ∧
  ∃ alive, (writes_ok k = true → alive = true) ∧
    peer_linked p (mkAPeer (writes_ok k) (next_state command (state k)) (rest ++ readable stream')
                     ((sent k ++ writer k) ++ r.1.1) alive).
Proof.
  intros Hr Hb Hp Ht r. apply parse_command_suffix in Hp as Hsuf.
  assert (Forall brings stream') as Hb'.
  { destruct Hsuf as [pre Hpre]. rewrite Hpre in Hb. by apply Forall_app in Hb as [_ ?]. }
  unfold turn, serve_at, mbind, SM_bind in Ht. rewrite Hp, execute_prefixed in Ht. fold r in Ht.
  cbv zeta in Ht. cbn [fst snd] in Ht. rewrite <- (execute_state command [] (state k) now s). fold r.
  assert (∀ s0, reading (lift get_timestamp s0).1) as Hclock by (intros s0; by eexists).
  destruct (_ || _ || _).
  - unfold flush in Ht. case_bool_decide as Hw; [|destruct (writes_ok k) eqn:Hok]; injection Ht as <- <-.
    + split; [by right|]. exists true. split; [done|]. split_and!; [apply Hclock|done|]. cbn. by rewrite <- !app_assoc.
    + split; [by right|]. exists true. split; [done|]. split_and!; [apply Hclock|done|]. cbn. rewrite app_nil_r.
      by rewrite <- !app_assoc.
    + set (k' := mkConnection _ _ _ _ _ _ _). destruct (hang_up_sent k' r.2) as [_ Hc]. split; [by left|].
      exists false. split; [done|]. pose proof (hang_up_linked k' r.2) as Hl. cbn [writes_ok k'] in Hl. cbn in Hl |- *.
      by rewrite <- app_assoc.
  - injection Ht as <- <-. split; [by right|]. exists true. split; [done|].
    split_and!; [apply Hclock|done|]. cbn. by rewrite <- !app_assoc.
Qed.

(** The turn of a connection that finds none. *)
Lemma turn_hung pfuel now k s e p s' :
  parse_command pfuel (parser k) (stream k) = Some (Err e) → turn pfuel now k s = (Some p, s') →
  core s' = core s ∧
  peer_linked p (mkAPeer (writes_ok k) (state k) (parser k ++ readable (stream k)) (sent k ++ writer k) false).
Proof.
  intros Hp. unfold turn, serve_at, mbind, SM_bind. rewrite Hp. cbv zeta. intros [= <- <-].
  split; [apply hang_up_sent|apply hang_up_linked].
Qed.

Lemma net_linked_step x o x' y :
  net_linked x y → net_step x o x' → ∃ y', trace net_spec y (option_list o) y' ∧ net_linked x' y'.
Proof.
  intros (Hs & Hdb & Hps) Hst. destruct y as [db as_]. cbn [fst snd] in *. subst db.
  destruct Hst as [s ps input ok Hin|s ps i now k pfuel p s' Hi Ht|s ps|s ps e He]; cbn [fst snd] in *.
  - rewrite (Forall2_length _ _ _ Hps). eexists. split; [apply trace_one, ns_open|].
    split; [by apply sound_tick|]. split; [done|]. apply Forall2_app; [done|].
    apply List.Forall2_cons; [|apply List.Forall2_nil]. split; [by eexists|]. by rewrite app_nil_r.
  - destruct (Forall2_lookup_l _ _ _ _ _ Hps Hi) as (a & Ha & Hr & Hb & ->). unfold turn_label.
    destruct (parse_command pfuel (parser k) (stream k)) as [[[[command rest] stream']|e]|] eqn:Hp.
    + destruct (turn_served pfuel now k s command rest stream' p s' Hr Hb Hp Ht) as (Hc & alive & Hal & Hl).
      destruct (execute_contents HP command [] (state k) now s (reading_nonneg _ Hr) Hs) as (db' & Hcon & Hf & Hs').
      eexists. split; [apply trace_one; by eapply (ns_serve _ _ _ _ _ _ _ _ _ _ alive Ha), Hal; [|apply (parse_command_Ok _ _ _ _ _ _ Hp)|..]|].
      unfold net_linked. cbn [fst snd].
      destruct Hc as [-> | ->]; (split_and!; [by try apply sound_tick|done|by apply Forall2_insert]).
    + destruct (turn_hung _ _ _ _ _ _ _ Hp Ht) as [Hc Hl]. eexists.
      split; [apply trace_one; eapply (ns_hang _ _ _ _ Ha); [done|by eapply parse_command_Err]|].
      unfold net_linked. cbn [fst snd]. rewrite Hc. split_and!; [done..|]. by apply Forall2_insert.
    + unfold turn, serve_at in Ht. by rewrite Hp in Ht.
  - destruct (expire_contents s Hs) as [Hf Hs'].
    eexists. split; [apply trace_one, ns_expire; [by eexists|exact Hf]|]. by split_and!.
  - eexists. split; [apply trace_nil|]. pose proof (background_core e s) as Hc. unfold net_linked. cbn [fst snd].
    destruct e; try done; destruct Hc as [-> | ->]; split_and!; try done; by apply sound_tick.
Qed.

(** ** Startup leads to a sound store *)

Lemma load_entry_sound k v x now c : sound c → sound (load_entry k v x now c).2.
Proof.
  intros [Hwf Ht]. set (e := mkEntry v ((λ t, u64 (now + t)) <$> match x with
    Some exp => if now <? exp then Some (exp - now) else None | None => None end) 0 0 0).
  assert (∃ d, Step k (Some e) d c (load_entry k v x now c).2) as [d HS].
  { pose proof (Step_refl k c Hwf) as HS.
    apply (wp_run (load_entry k v x now) (λ _ c', ∃ d, Step k (Some e) d c c')). unfold load_entry. cbv zeta.
    apply wp_bind. eapply wp_mono; [apply (wp_track_add c k (calculate_entry_size (len k) v) _ _ _ HS)|].
    intros [] c1 HS1. wp_call (wp_hash c k _) as i c2 (-> & HS2); [exact HS1|].
    apply wp_bind. eapply wp_mono; [by apply (wp_shard_insert c k Hwf _ _ _ _ HS2)|].
    intros old c3 (_ & HS3). apply wp_ret. eauto. }
  split; [by eapply Step_wf|]. rewrite (contents_insert _ _ _ _ _ Hwf HS).
  intros k' v' x'. rewrite lookup_insert_Some. intros [[_ He]|[_ Hk]]; [|by eapply Ht].
  injection He as _ Hx. destruct x as [y|]; [destruct (now <? y)|]; try done. injection Hx as <-. apply u64_range.
Qed.

Lemma load_entries_sound n l now loaded c : sound c → sound (load_entries n l now loaded c).2.
Proof.
  revert l loaded c. induction n as [|n IH]; intros l loaded c Hs; cbn [load_entries]; [done|].
  repeat case_match; try done; [by apply IH|]. unfold mbind, M_bind. cbv zeta. by apply IH, load_entry_sound.
Qed.

Lemma load_snapshot_sound f c : sound c → sound (load_snapshot f c).2.
Proof.
  intros Hs. unfold load_snapshot. repeat case_match; try done. unfold mbind, M_bind. cbv zeta.
  by apply load_entries_sound, sound_tick.
Qed.

Lemma replay_sound fuel l now st n s :
  reading now → sound (core s) → sound (core (replay fuel l now st n s).2).
Proof.
  intros Hr. revert l st n s. induction fuel as [|fuel IH]; intros l st n s Hs; cbn [replay]; [done|].
  destruct (next_command l) as [[[cmd l']|]|e]; try done. unfold mbind, SM_bind. cbv zeta. apply IH.
  by destruct (execute_contents HP cmd [] st now s (reading_nonneg _ Hr) Hs) as (? & _ & _ & ?).
Qed.

Lemma start_sound snapshot aof_file i s :
  0 < cfg_num_shards (server CONFIG) → start snapshot aof_file i = Ok s → sound (core s).
Proof.
  intros Hn. unfold start. cbv zeta.
  assert (sound (core (start_store snapshot (boot snapshot i)).2)) as H0.
  { assert (sound (core (boot snapshot i))) as Hb.
    { apply (agree_contents 0 _ ∅), fresh_agree. by apply fresh_boot. }
    unfold start_store. destruct (enabled _); [|done]. by apply load_snapshot_sound. }
  set (s0 := (start_store _ _).2) in *. clearbody s0.
  unfold start_aof. destruct (aof_enabled _); [|by intros [= <-]].
  destruct (fsync_parse _) as [policy|e]; [|done]. unfold mbind, SM_bind. cbv zeta.
  destruct aof_file as [l|]; [|by intros [= <-]].
  pose proof (replay_sound (S (length l)) l (lift get_timestamp s0).1 (mkConn true) 0 (lift get_timestamp s0).2) as Hrep.
  destruct (replay _ l _ _ _ _) as [[n|e] s1]; [|done]. intros [= <-].
  apply Hrep; [by eexists|by apply sound_tick].
Qed.

(** C1: the server is the database its clients see.  Let any number of clients connect, send
    any bytes in any pieces, and let the turns of their connections, rounds of the expiry task
    and the background tasks run in any order, each command at the time its connection read
    before it waited.  What happens is what happens to a database in which every client is
    served the commands its bytes hold, one after the other and none twice, each with a reply
    and an effect its contract allows; where keys disappear between commands only if they
    have expired at a time that was read; and where a client is hung up on only if its next
    bytes are no command, or one that is still incomplete after [MAX_BUFFER_SIZE] (1 GiB)
    bytes.  The replies sent and buffered are the replies of its commands, in
    order, and the store holds that database.  And a client whose next bytes are a command
    that is not so long is served it whenever its connection takes its turn.  (A turn, an
    expiry round and a background task each run to their end before the next.) *)
Theorem network_refines snapshot aof_file j s history s' ps :
  0 < cfg_num_shards (server CONFIG) → start snapshot aof_file j = Ok s →
  trace net_step (s, []) history (s', ps) →
  (∃ as_, trace net_spec (contents (core s), []) history (contents (core s'), as_) ∧
          Forall2 peer_linked ps as_) ∧
  ∀ i now k command rest,
    ps !! i = Some (Live now k) →
    try_parse (parser k ++ readable (stream k)) = Ok (Some (command, rest)) →
    ¬ oversized (parser k ++ readable (stream k)) →
    ∃ x, net_step (s', ps) (Some (NServed i command now (execute_command command [] (state k) now s').1.1)) x.
Proof.
  intros Hn Hstart Htr. apply start_sound in Hstart as Hs; [|done].
  assert (net_linked (s, []) (contents (core s), [])) as Hl by by split_and!.
  destruct (trace_simulation net_step net_spec net_linked (λ x o x' y, net_linked_step x o x' y)
              _ _ _ Htr _ Hl) as ([db as_] & Ht & _ & Hdb & Hps).
  cbn in Hdb, Hps. subst db. split; [by exists as_|].
  intros i now k command rest Hi Hp Hm.
  destruct (Forall2_lookup_l _ _ _ _ _ Hps Hi) as (a & _ & _ & Hb & _).
  destruct (parse_command_finds (S (length (stream k))) _ _ _ _ Hb Hp Hm ltac:(lia)) as (rest' & stream' & Hc & _).
  assert (∃ p s2, turn (S (length (stream k))) now k s' = (Some p, s2)) as (p & s2 & Hturn).
  { unfold turn, serve_at, mbind, SM_bind. rewrite Hc. cbv zeta.
    destruct (_ || _ || _); [destruct (flush _ _ _) as [[[]] ]|]; eauto. }
  eexists. pose proof (net_turn s' ps i now k _ p s2 Hi Hturn) as Hst. unfold turn_label in Hst. by rewrite Hc in Hst.
Qed.
End Machine.

(** ** A scheduler, and an example *)

Section Exec.
Context {P : Platform} {CFG : HasConfig} {B : Bincode}.

Inductive NetAction := AOpen (input : list ReadEvent) (ok : bool) | ATurn (i : nat) | AExpire.

(** An action that cannot be taken is skipped. *)
Definition net_do (act : NetAction) (x : Server * list Peer) : list NetLabel * (Server * list Peer) :=
  let '(s, ps) := x in
  match act with
  | AOpen input ok =>
      let '(p, s') := open_peer input ok s in ([NOpened (length ps) input ok], (s', ps ++ [p]))
  | ATurn i =>
      match ps !! i with
      | Some (Live now k) =>
          let pfuel := S (length (stream k)) in
          match turn pfuel now k s with
          | (Some p, s') => ([turn_label i pfuel now k s], (s', <[i:=p]> ps))
          | (None, _) => ([], x)
          end
      | _ => ([], x)
      end
  | AExpire => ([NExpired (system_time (ticks (core s)))], ((run_event ExpireTick s).2, ps))
  end.

Fixpoint net_exec (acts : list NetAction) (x : Server * list Peer) : list NetLabel * (Server * list Peer) :=
  match acts with
  | [] => ([], x)
  | act :: acts =>
      let '(l, x) := net_do act x in let '(l', x) := net_exec acts x in (l ++ l', x)
  end.

Lemma net_exec_trace acts x :
  Forall (λ a, match a with AOpen input _ => Forall brings input | _ => True end) acts →
  trace net_step x (net_exec acts x).1 (net_exec acts x).2.
Proof.
  intros Ha. revert x. induction Ha as [|a acts Ha _ IH]; intros [s ps]; [apply trace_nil|].
  cbn [net_exec]. assert (trace net_step (s, ps) (net_do a (s, ps)).1 (net_do a (s, ps)).2) as H1.
  { destruct a as [input ok|i|]; cbn [net_do].
    - apply (trace_one net_step _ (Some _)). by apply net_open.
    - destruct (ps !! i) as [[now k|]|] eqn:Hi; [|apply trace_nil..].
      destruct (turn _ now k s) as [[p|] s'] eqn:Ht; [|apply trace_nil].
      apply (trace_one net_step _ (Some _)). by apply net_turn.
    - apply (trace_one net_step _ (Some _)). apply net_expire. }
  destruct (net_do a (s, ps)) as [l x]. specialize (IH x). destruct (net_exec acts x) as [l' x'].
  exact (trace_app _ _ _ _ _ _ H1 IH).
Qed.
End Exec.

Section Example.
#[local] Existing Instance demo_platform.
#[local] Existing Instance demo_durable.
#[local] Existing Instance demo_bincode.

Definition net_boot : Server := match start None None 0 with Ok s => s | Err _ => boot None 0 end.

(** One client pipelines two commands in three pieces, and then sends part of a third; the
    other reads what the first wrote. *)
Definition two_clients : list NetAction :=
  let a := resp_array [bs "SET"; bs "k"; bs "v"] ++ resp_array [bs "INCR"; bs "n"] in
  [AOpen [ReadData (take 7 a); ReadData (drop 7 a); ReadData (bs "*9"); ReadError] true;
   AOpen [ReadData (resp_array [bs "GET"; bs "k"])] true;
   ATurn 0; AExpire; ATurn 1; ATurn 0; ATurn 0; ATurn 1].

Lemma network_refines_witness :
  let x := (net_exec two_clients (net_boot, [])).2 in
  let history :=
    [NOpened 0 [ReadData (bs "*3" ++ CRLF ++ bs "$3" ++ [x0d]);
                ReadData ([x0a] ++ drop 8 (resp_array [bs "SET"; bs "k"; bs "v"]) ++ resp_array [bs "INCR"; bs "n"]);
                ReadData (bs "*9"); ReadError] true;
     NOpened 1 [ReadData (resp_array [bs "GET"; bs "k"])] true;
     NServed 0 [bs "SET"; bs "k"; bs "v"] 1000 (bs "+OK" ++ CRLF);
     NExpired 1000;
     NServed 1 [bs "GET"; bs "k"] 1000 (bs "$1" ++ CRLF ++ bs "v" ++ CRLF);
     NServed 0 [bs "INCR"; bs "n"] 1000 (bs ":1" ++ CRLF);
     NHung 0; NHung 1] in
  (∃ as_, trace net_spec (contents (core net_boot), []) history (contents (core x.1), as_) ∧
          Forall2 peer_linked x.2 as_) ∧
  ∀ i now k command rest,
    x.2 !! i = Some (Live now k) →
    try_parse (parser k ++ readable (stream k)) = Ok (Some (command, rest)) →
    ¬ oversized (parser k ++ readable (stream k)) →
    ∃ y, net_step (x.1, x.2) (Some (NServed i command now (execute_command command [] (state k) now x.1).1.1)) y.
Proof.
  cbv zeta. set (x := (net_exec two_clients (net_boot, [])).2).
  apply (network_refines demo_platform_ok None None 0 net_boot _ x.1 x.2).
  - reflexivity.
  - reflexivity.
  - assert (trace net_step (net_boot, []) (net_exec two_clients (net_boot, [])).1 x) as Ht.
    { apply net_exec_trace. repeat (apply List.Forall_cons; [by repeat constructor|]). apply List.Forall_nil. }
    rewrite <- (surjective_pairing x). exact Ht.
Defined.
End Example.
